(* ===== verification/_CoqProject ===== *)
-Q . S2P
Prelude.v
Strs.v
Rpc.v
KvSrv.v
KvModel.v
Clerk.v
KvSys.v
KvHist.v
KvLate.v
KvProof.v
KvTheorems.v
KvCareful.v
KvRule.v
Json.v
KvTest.v
KvTestProof.v
KvTestTheorems.v
KvTestChecks.v
KvSpawn.v
KvSpawnTheorems.v
Lock.v
Persister.v
Raft.v
RaftNode.v
RaftTheorems.v
RaftSpec.v
GobString.v
RaftApply.v
RaftDemo.v
RaftNet.v
RaftElection.v
RaftProtocol.v
RaftCommit.v
RaftRefine.v
RaftSim.v
RaftSimLocal.v
RaftSafety.v
RaftSafetyDemo.v
ShardCfg.v
RfSrv.v
RfSrvTheorems.v
RaftCheck.v
RfSys.v
RfSysKeep.v
RfSysProof.v
RfSysTheorems.v
LabRpc.v
LabRpcTheorems.v
MapReduce.v
Demux.v
DemuxTheorems.v
DemuxDemo.v
KvNet.v
KvNetTheorems.v
KvNetDemo.v
Sock.v
Daemon.v
DaemonDemo.v
Group.v
GroupTheorems.v
GroupRun.v
GroupOwners.v
GroupDemo.v
RaftGrp.v
RaftGrpTheorems.v
RaftGrpDemo.v
RaftTest.v
RaftTestTheorems.v
Clnts.v
Config.v
Labgob.v
LabgobRun.v
Annotation.v
AnnotationTheorems.v
AnnotationFaults.v
Rsm.v
RsmTheorems.v
ShardTest.v
ShardTestTheorems.v
