(* ===== verification/Prelude.v ===== *)
(** * A linearizable key/value store, its Raft library and their test harness

    The repository is a Go implementation of a versioned key/value server with a
    clerk and a distributed lock ([src/src/kvsrv1]), a Raft library with log
    compaction ([src/src/raft1]), the configurations of a sharded store
    ([src/src/shardkv1/shardcfg]), MapReduce ([src/src/main], [src/src/mr],
    [src/src/mrapps]), and the harness they run in: a simulated network
    ([src/src/labrpc]) with its encoder ([src/src/labgob]), groups of server
    processes with their persisters ([src/src/tester1]) and the test programs.
    This library models them as functions on explicit states and proves what
    makes them correct.  Paths below are relative to [src/src].

    ** Conventions

    A handler that holds its mutex from the first to the last statement is one
    function on the state.  An index out of range, a nil dereference or
    [log.Fatalf] is [None] (or a constructor of an outcome type).  Time, random
    draws, the order in which a Go map is visited and the fate of a message are
    arguments.  Goroutines are steps that may interleave in any order; a program
    point where a goroutine blocks without its lock is a constructor.  A [uint64]
    is a [Z] reduced with [u64]; terms, indices and configuration numbers are
    Go [int]s, taken as unbounded.

    ** Files

    - [Prelude.v]: machine integers, slices ([go_index], [go_from], ...) and
      lemmas on lists.  [Strs.v]: the order of strings, decimal conversion,
      UTF-8, [strings.FieldsFunc] and [hash/fnv].
    - Key/value store.  [Rpc.v] and [KvSrv.v]: [kvsrv1/rpc] and
      [kvsrv1/server.go].  [Clerk.v]: the retry loops of [kvsrv1/client.go] over
      a list of call outcomes.  [KvModel.v]: [models1/kv.go], the model the
      porcupine checker is given, linearizability, and the strict behaviour of
      the handlers that implies it.  [KvSys.v]: any number of client programs, the
      server, the operation log of [kvtest1/porcupine.go], and a network that
      loses requests and replies, and that may answer false for a request and run
      it later.  [KvHist.v]: the runs of the handlers replay to the store and
      versions count the [Put]s.  [KvLate.v]: a client that [Put]s at versions its
      key has had is safe from its own late requests.  [KvProof.v]: the invariant
      that relates each logged operation to a run of its handler.
      [KvTheorems.v]: for any clients, which orders explain the log, which answers
      a late request can make untrue, and what each error says.  [KvCareful.v]:
      clients that [Put] at versions they know; their log is linearizable.
    - The store over the network.  [KvNet.v]: clerks, the network of [LabRpc.v]
      and the server as one system.  [KvNetTheorems.v]: it refines [KvSys.v], so
      for careful clients it is linearizable and passes the testers' check, and
      the lock excludes over it; [KvNetDemo.v]: runs, and what a careless client
      sees.
    - [Lock.v]: [kvsrv1/lock/lock.go] as client programs of [KvSys.v]: mutual
      exclusion, the meaning of [held], progress of [Release].
    - The store's tests.  [Json.v]: the texts they store.  [KvTest.v]:
      [kvtest1/kvtest.go] and the wrappers of [porcupine.go].  [KvRule.v]: a rule
      to reason about a client as if each call ran at one moment, late requests
      or not;
      [KvTestProof.v], [KvTestTheorems.v], [KvTestChecks.v]: with it, no test
      fails on a correct service.  [KvSpawn.v], [KvSpawnTheorems.v]: starting and
      awaiting the clients, and the check by porcupine.
    - Raft.  [Persister.v]: [tester1/persister.go].  [Raft.v]: [raft1/raft.go],
      one function per handler, reply, timer and step of the apply goroutine.
      [RaftNode.v]: all of them as the inputs of one transition function
      [handle], the well-formedness of a peer, and that no input that follows
      the protocol panics.  [RaftTheorems.v]: crash recovery, no panic along a
      run, one vote per term.  [RaftSpec.v]: what [AppendEntries] accepts and does
      to the log, also below the snapshot, what [advanceCommit] commits, where
      backing up [nextIndex] goes.  [RaftApply.v]: the apply goroutine misses no wakeup and
      delivers in order; what a stale snapshot does.  [RaftNet.v]: a cluster of
      peers with calls in flight, crashes and restarts.  [RaftElection.v]: at
      most one leader per term.
    - Raft's safety.  [RaftProtocol.v]: an abstract protocol whose servers keep
      their whole logs, with a record of the past (the votes, the log each
      leader was elected with, every acknowledgement), and its invariant.
      [RaftCommit.v]: a committed entry is in the log of every later leader.
      [RaftRefine.v]: what a message means in the protocol and how a compacted
      peer relates to a server of it.  [RaftSim.v], [RaftSimLocal.v]: every
      handler, reply and local step of a peer is a sequence of protocol actions.
      [RaftSafety.v]: the refinement, and its consequences for the cluster:
      state machine safety, leader completeness, log matching, no panic, and that
      every rejection, however late, backs the leader up and lets it go on.
      [GobString.v], [RaftDemo.v] and [RaftSafetyDemo.v]: a concrete encoder
      and concrete runs.
    - Raft's test service.  [RfSrv.v]: [raft1/server.go], [proxy.go] and the
      checks of [test.go].  [RfSrvTheorems.v], [RaftCheck.v]: a service over a
      peer never reports a gap, its snapshots restore its log, [CheckLogs],
      [nCommitted] and [checkOneLeader] are sound.
    - The whole Raft test.  [RfSys.v]: cluster, services and tester in one
      system.  [RfSysKeep.v], [RfSysProof.v]: its invariant.
      [RfSysTheorems.v]: the tester never sees two commands at one
      index, and a service reports an error only if a call to the tester was
      lost.  Runs that install a snapshot behind what the peer has handed on are
      left out: the code lets them through, and they break the order
      ([RaftApply.v]).  [RaftTest.v], [RaftTestTheorems.v]: how the test kills
      and restarts its servers.
    - [ShardCfg.v]: [shardkv1/shardcfg/shardcfg.go]: rebalancing ends
      and is balanced, [Join] and [Leave] do what they say, also when they fail.
      [ShardTest.v], [ShardTestTheorems.v]: [shardkv1/test.go], how the test
      lets groups join and leave, over any controller that keeps the promises of
      [shardctrler.go] (its methods have no bodies).
    - [Rsm.v], [RsmTheorems.v]: [kvraft1/rsm], the counter server, the loops of
      its test, and that restored replicas agree.  [RSM.Submit] is a stub.
    - [LabRpc.v], [LabRpcTheorems.v]: [labrpc/labrpc.go]: a request runs at most
      once, a deleted server never answers, a reliable network delivers.
    - [MapReduce.v]: [main/mrsequential.go], [mr/worker.go] and the applications.
    - [Demux.v], [DemuxTheorems.v], [DemuxDemo.v]: [tester1/demux], calls
      multiplexed over a connection that may break anywhere: framing round-trips,
      a call gets the answer to its own request, and a measure shows that once the
      connection is lost every call returns.  [Sock.v]:
      [tester1/sockrpc], which dispatches such a call on a server of [LabRpc.v].
    - The tester's servers.  [Daemon.v], [DaemonDemo.v]: [daemonclnt.go],
      [daemonsrv.go] and [testsrv.go], the command line and the handshake of a
      server process and the forwarding of its calls.  [Group.v]: [group.go] and
      [srv.go], starting, stopping, restarting and partitioning the servers of a
      group over the network of [LabRpc.v].  [GroupTheorems.v], [GroupRun.v],
      [GroupDemo.v]: the invariant of a group under any sequence of operations,
      what a restart keeps, that a stopped server is silent, that calls reach
      exactly the servers of the caller's side; [GroupOwners.v]: every process is
      the process of one server.  [Clnts.v]: [clnts.go], which
      servers a test client can reach, and where [ConnectTo] of no server parts
      from the comment on [srvs].  [Config.v]: [config.go].
    - Raft in processes.  [RaftGrp.v]: the peers of [Raft.v] in the processes of a
      group, called over the network of [LabRpc.v] while the test connects,
      partitions, kills and restarts the servers.  [RaftGrpTheorems.v]: every run
      is a run of the cluster of [RaftNet.v], so the processes agree, one leader
      leads a term and no process panics, although a process that is shut down
      goes on between the moment its state is saved and the moment it is killed.
      [RaftGrpDemo.v]: a run with a restart.
    - [Annotation.v], [AnnotationTheorems.v], [AnnotationFaults.v]:
      [annotation.go] and [annotator.go]: the picture of a history shows what was
      annotated, and the failure tag exactly what the tester did to the servers
      and to the network, with the empty annotations that the annotator adds.
    - [Labgob.v], [LabgobRun.v]: [labgob/labgob.go]: the
      checks of types end, whichever goroutines run them, and complain once
      about each field; decoding into a variable that is not default.

    ** How the parts meet

    [KvSys.v] runs the clerk's loops against the server's handlers; [Lock.v] and
    the test programs are clients of it and use only the answers of the clerk.  Its
    network is an abstraction, in which a call fails with its request or its reply
    lost or with its request left running: [KvNetTheorems.v] shows that clerks over
    the network of [LabRpc.v] behave so, whatever the network does.  What holds for
    any client is in [KvTheorems.v]; linearizability needs clients that are careful
    (class [CarefulClient]), as those of the put test are: one that guesses a
    version can see its [Put] take effect after its answer.  The lock and the test
    clients are safe for their own keys ([KvLate.v]), whatever is done to others.
    [RaftNet.v] runs [handle] of [RaftNode.v] for each peer and carries the
    requests and replies of [Raft.v]; [RaftCheck.v] polls its reachable states.
    The services above the peers are a parameter of its steps: [RaftElection.v]
    and [RaftCheck.v] hold for any services, [RaftSafety.v] for services that
    keep the contract of [Snapshot] ([snapshot_contract]: they only hand back
    an index that was applied), as the one of [raft1/server.go] does.
    [RfSrvTheorems.v] feeds the deliveries of a peer ([RaftApply.v]) to the
    service and the service's reports to the tester.  [Group.v] starts a process
    of [Daemon.v] for each server, hands it a persister of [Persister.v] and
    enables or disables the ends of [LabRpc.v]; it is generic in the program
    that runs in the process (class [Program]); [RaftGrp.v] is such a program, and
    [RaftGrpTheorems.v] discharges for it what [RaftNet.v] supposes of calls and
    crashes.  [Clnts.v] and [Config.v] use the operations of a group.  The encoder is a class
    [Gob] with its laws [GobLaws]; a property about persistence is proved from
    the laws, and [GobString.v] is an instance.

    ** Bounds and fuel

    The loops of the clerks are driven by the list of outcomes of their calls;
    [Clerk_Put_spec] shows that they end when some call is delivered.
    [merge_entries], [conflict_start], [advance_from] and [last_of_term] recurse on the
    number of entries they visit.  [balance_rounds] is 144, the largest
    possible sum of squared shard counts, which every round lowers.  The index
    loops of [mrsequential] are bounded by the length of the slice, and
    [mrsequential_reference] shows that this is enough.

    ** Not modelled

    Third-party code and libraries, which are parameters: the porcupine checker
    and the file it draws, gob, [encoding/json] beyond the texts of [Json.v]
    (so [String] and [FromString] of a configuration), reflect beyond what
    [Labgob.v] asks of it.  The operating system under [Daemon.v]: a process
    starts or fails to, a socket delivers or breaks.  The layers the repository
    leaves as stubs ([kvraft1] apart from [rsm], the clerk, the groups and the
    controller of [shardkv1], [Worker] and [Coordinator] of [mr]), and with them
    the tests of the sharded store that need a running store or controller.  The
    programs of [main] that only call the packages.  The annotations the tests
    make, the messages [Config] prints and its time limits, the loop of
    [Partitioner] (the sides it draws are modelled, a partition is an operation
    of [Group.v]).  In [KvNet.v] the hop from the network to the process of the
    server, and in [RaftGrp.v] the socket between a process and the tester: both
    are those of [Daemon.v] and [Demux.v].  In [GroupRun.v] and [RaftTest.v] the
    state of a process is saved and the process killed in one step; [RaftGrp.v]
    takes them apart.
    Elapsed time is not modelled: what depends on it is a step that may happen. *)
From Stdlib Require Export ZArith Lia.
From stdpp Require Export prelude gmap strings list fin_maps sorting numbers functions.

#[global] Set Default Goal Selector "!".
#[global] Open Scope Z_scope.

(** ** Go integers *)

(** [uint64] arithmetic wraps modulo 2^64 and [uint32] modulo 2^32. *)
Definition u64 (z : Z) : Z := z mod 2 ^ 64.
Definition u32 (z : Z) : Z := z mod 2 ^ 32.

Lemma u64_small (z : Z) : 0 <= z < 2 ^ 64 → u64 z = z.
Proof. intros. unfold u64. by apply Z.mod_small. Qed.

Lemma u64_bound (z : Z) : 0 <= u64 z < 2 ^ 64.
Proof. unfold u64. apply Z.mod_pos_bound. lia. Qed.

Lemma u32_bound (z : Z) : 0 <= u32 z < 2 ^ 32.
Proof. unfold u32. apply Z.mod_pos_bound. lia. Qed.

(** ** Go slices

    An index or a slice bound out of range is a run-time panic, the value
    [None] of these operations. *)
Definition len {A} (l : list A) : Z := Z.of_nat (length l).

Definition go_index {A} (l : list A) (i : Z) : option A :=
  if decide (0 <= i) then l !! Z.to_nat i else None.

Definition go_from {A} (l : list A) (i : Z) : option (list A) :=
  if decide (0 <= i <= len l) then Some (drop (Z.to_nat i) l) else None.

Definition go_to {A} (l : list A) (i : Z) : option (list A) :=
  if decide (0 <= i <= len l) then Some (take (Z.to_nat i) l) else None.

Definition go_set {A} (l : list A) (i : Z) (x : A) : option (list A) :=
  if decide (0 <= i < len l) then Some (<[Z.to_nat i := x]> l) else None.

Lemma go_index_lookup {A} (l : list A) (i : Z) x :
  go_index l i = Some x ↔ 0 <= i ∧ l !! Z.to_nat i = Some x.
Proof. unfold go_index. case_decide; naive_solver. Qed.

Lemma go_index_some {A} (l : list A) (i : Z) : 0 <= i < len l → is_Some (go_index l i).
Proof.
  intros Hi. unfold go_index, len in *. rewrite decide_True by lia. apply lookup_lt_is_Some. lia.
Qed.

Lemma go_index_lt {A} (l : list A) (i : Z) x : go_index l i = Some x → 0 <= i < len l.
Proof.
  intros [Hi Hx%lookup_lt_Some]%go_index_lookup. unfold len. lia.
Qed.

Lemma go_from_some {A} (l : list A) (i : Z) :
  0 <= i <= len l → go_from l i = Some (drop (Z.to_nat i) l).
Proof. intros. unfold go_from. by rewrite decide_True. Qed.

Lemma go_to_some {A} (l : list A) (i : Z) :
  0 <= i <= len l → go_to l i = Some (take (Z.to_nat i) l).
Proof. intros. unfold go_to. by rewrite decide_True. Qed.

Lemma go_set_some {A} (l : list A) (i : Z) x :
  0 <= i < len l → go_set l i x = Some (<[Z.to_nat i := x]> l).
Proof. intros. unfold go_set. by rewrite decide_True. Qed.

Lemma len_app {A} (l k : list A) : len (l ++ k) = len l + len k.
Proof. unfold len. rewrite length_app. lia. Qed.

Lemma len_cons {A} (x : A) (l : list A) : len (x :: l) = len l + 1.
Proof. unfold len. simpl. lia. Qed.

Lemma len_drop {A} (l : list A) (i : Z) : 0 <= i <= len l → len (drop (Z.to_nat i) l) = len l - i.
Proof. unfold len. rewrite length_drop. lia. Qed.

Lemma len_take {A} (l : list A) (i : Z) : 0 <= i <= len l → len (take (Z.to_nat i) l) = i.
Proof. unfold len. rewrite length_take. lia. Qed.

Lemma len_nonneg {A} (l : list A) : 0 <= len l.
Proof. unfold len. lia. Qed.

(** ** Lists *)

Lemma StronglySorted_filter {A} (R : A → A → Prop) (Q : A → Prop)
    `{!∀ x, Decision (Q x)} (l : list A) :
  StronglySorted R l → StronglySorted R (filter Q l).
Proof.
  induction 1 as [|x l _ IH Hx]; [constructor|].
  rewrite filter_cons. case_decide; [|done]. constructor; [done|].
  apply list.Forall_forall. intros y [_ Hy]%list_elem_of_filter.
  rewrite list.Forall_forall in Hx. by apply Hx.
Qed.

Lemma StronglySorted_omap {A B} (R : A → A → Prop) (S : B → B → Prop)
    (f : A → option B) (l : list A) :
  (∀ x y a b, x ∈ l → y ∈ l → R x y → f x = Some a → f y = Some b → S a b) →
  StronglySorted R l → StronglySorted S (omap f l).
Proof.
  intros Hf Hl. induction Hl as [|x l Hl IH Hx]; [constructor|].
  assert (StronglySorted S (omap f l)) as IHl.
  { apply IH. intros y z a b Hy Hz. apply Hf; by apply elem_of_cons; right. }
  simpl. destruct (f x) as [a|] eqn:Ha; [|done]. constructor; [done|].
  apply list.Forall_forall. intros b (y & Hy & Hb)%list_elem_of_omap.
  rewrite list.Forall_forall in Hx.
  eapply (Hf x y); [by apply elem_of_cons; left|by apply elem_of_cons; right|
    by apply Hx|done|done].
Qed.

Lemma StronglySorted_mono {A} (R S : A → A → Prop) (l : list A) :
  (∀ x y, R x y → S x y) → StronglySorted R l → StronglySorted S l.
Proof.
  intros HRS. induction 1 as [|x l _ IH Hx]; constructor; [done|].
  eapply list.Forall_impl; [exact Hx|]. intros y. apply HRS.
Qed.

(** Indexing form of [StronglySorted]. *)
Lemma StronglySorted_lookup {A} (R : A → A → Prop) (l : list A) :
  (∀ i j x y, (i < j)%nat → l !! i = Some x → l !! j = Some y → R x y) →
  StronglySorted R l.
Proof.
  induction l as [|x l IH]; intros H; constructor.
  - apply IH. intros i j y z Hij. apply (H (S i) (S j)). lia.
  - apply list.Forall_forall. intros y [j Hj]%list_elem_of_lookup.
    apply (H 0%nat (S j)); [lia|done|done].
Qed.

(** Filling one empty slot adds its contents. *)
Lemma omap_insert_fresh {A B} (f : A → option B) (l : list A) (i : nat) (x y : A) (b : B) :
  l !! i = Some x → f x = None → f y = Some b → omap f (<[i := y]> l) ≡ₚ b :: omap f l.
Proof.
  intros Hi Hx Hy. revert i Hi. induction l as [|z l IH]; intros [|i]; simpl; try done.
  - intros [= ->]. by rewrite Hx, Hy.
  - intros Hi%IH. destruct (f z); [|done]. rewrite Hi. constructor.
Qed.

Lemma StronglySorted_lookup_2 {A} (R : A → A → Prop) (l : list A) i j x y :
  StronglySorted R l → (i < j)%nat → l !! i = Some x → l !! j = Some y → R x y.
Proof.
  intros Hl. revert i j. induction Hl as [|z l _ IH Hz]; intros [|i] [|j] Hij; simpl;
    try done; try lia.
  - intros [= ->] Hj%list_elem_of_lookup_2. rewrite list.Forall_forall in Hz. by apply Hz.
  - apply IH. lia.
Qed.

(** A symmetric relation between any two entries does not depend on the order. *)
Lemma pairwise_Permutation {A} (R : A → A → Prop) (l l' : list A) :
  (∀ x y, R x y → R y x) → l ≡ₚ l' → StronglySorted R l → StronglySorted R l'.
Proof.
  intros Hsym Hperm Hl. symmetry in Hperm.
  apply Permutation_inj in Hperm as (_ & f & Hf & Hlk).
  apply StronglySorted_lookup. intros i j x y Hij. rewrite !Hlk. intros Hi Hj.
  destruct (decide (f i < f j)%nat).
  - by eapply StronglySorted_lookup_2.
  - apply Hsym. eapply StronglySorted_lookup_2; [done| |done|done].
    assert (f i ≠ f j) by (intros ?%Hf; lia). lia.
Qed.

Lemma submseteq_NoDup {A} (l k : list A) : l ⊆+ k → NoDup k → NoDup l.
Proof. intros [k' ->]%submseteq_Permutation [? _]%list.NoDup_app. done. Qed.

Lemma omap_submseteq {A B} (f : A → option B) (l k : list A) :
  l ⊆+ k → omap f l ⊆+ omap f k.
Proof.
  intros [k' ->]%submseteq_Permutation. rewrite omap_app. by apply submseteq_inserts_r.
Qed.

Lemma omap_nil_all {A B} (f : A → option B) (l : list A) :
  (∀ x, x ∈ l → f x = None) → omap f l = [].
Proof.
  induction l as [|x l IH]; intros H; [done|]. simpl. rewrite (H x) by set_solver.
  apply IH. set_solver.
Qed.

(** Two majorities meet. *)
Lemma majorities_meet (n : Z) (S1 S2 : list Z) :
  0 <= n →
  NoDup S1 → NoDup S2 → (∀ v, v ∈ S1 → 0 <= v < n) → (∀ v, v ∈ S2 → 0 <= v < n) →
  len S1 * 2 > n → len S2 * 2 > n → ∃ v, v ∈ S1 ∧ v ∈ S2.
Proof.
  intros Hpos Hn1 Hn2 Hr1 Hr2 Hm1 Hm2.
  destruct (decide (Exists (λ v, v ∈ S2) S1)) as [He|He].
  { apply list.Exists_exists in He as (v & ? & ?). by exists v. }
  exfalso. assert (NoDup (S1 ++ S2)) as Hn.
  { apply list.NoDup_app. split_and!; [done| |done]. intros v H1 H2. apply He.
    apply list.Exists_exists. by exists v. }
  assert (S1 ++ S2 ⊆+ seqZ 0 n) as Hsub.
  { apply NoDup_submseteq; [done|]. intros v [Hv|Hv]%elem_of_app; apply elem_of_seqZ;
      [specialize (Hr1 v Hv)|specialize (Hr2 v Hv)]; lia. }
  apply submseteq_length in Hsub. rewrite length_app, length_seqZ in Hsub.
  unfold len in *. lia.
Qed.
