(* ===== verification/Strs.v ===== *)
(** * Go strings

    Strings are sequences of bytes, ordered bytewise as Go's [<] and
    [slices.Sort] order them, with the few functions of [strings], [strconv] and
    [hash/fnv] the program uses. *)
From Stdlib Require Import Ascii.
From stdpp Require Import pretty.
From S2P Require Import Prelude.

(** ** Order *)

Definition str_le (a b : string) : Prop := String.leb a b = true.
#[export] Instance str_le_dec : RelDecision str_le.
Proof. intros a b. unfold str_le. apply _. Defined.

Lemma compare_lt_trans (a b c : string) :
  String.compare a b = Lt → String.compare b c = Lt → String.compare a c = Lt.
Proof.
  revert b c. induction a as [|x a IH]; intros [|y b] [|z c]; simpl; try done.
  unfold Ascii.compare.
  destruct (N.compare_spec (Ascii.N_of_ascii x) (Ascii.N_of_ascii y)) as [Hxy|Hxy|Hxy],
    (N.compare_spec (Ascii.N_of_ascii y) (Ascii.N_of_ascii z)) as [Hyz|Hyz|Hyz];
    try done; intros Hab Hbc;
    destruct (N.compare_spec (Ascii.N_of_ascii x) (Ascii.N_of_ascii z)) as [Hxz|Hxz|Hxz];
    try done; try lia. by eapply IH.
Qed.

#[export] Instance str_le_total : Total str_le.
Proof. intros a b. unfold str_le. destruct (String.leb_total a b); auto. Qed.

#[export] Instance str_le_trans : Transitive str_le.
Proof.
  intros a b c. unfold str_le, String.leb.
  destruct (String.compare a b) eqn:Hab; [apply String.compare_eq_iff in Hab; by subst| |done].
  destruct (String.compare b c) eqn:Hbc; [apply String.compare_eq_iff in Hbc; subst| |done].
  - by rewrite Hab.
  - intros _ _. by rewrite (compare_lt_trans a b c).
Qed.

#[export] Instance str_le_antisym : AntiSymm (=) str_le.
Proof. intros a b. apply String.leb_antisym. Qed.

(** Two sorted lists with the same elements are equal. *)
Lemma str_sorted_unique (l k : list string) :
  StronglySorted str_le l → StronglySorted str_le k → l ≡ₚ k → l = k.
Proof. apply StronglySorted_unique. apply _. Qed.

(** [sort.Strings]. *)
Definition sort_strings (l : list string) : list string := merge_sort str_le l.

Lemma sort_strings_perm l : sort_strings l ≡ₚ l.
Proof. apply merge_sort_Permutation. Qed.

Lemma sort_strings_sorted l : StronglySorted str_le (sort_strings l).
Proof. apply StronglySorted_merge_sort; apply _. Qed.

#[export] Instance sort_strings_proper : Proper ((≡ₚ) ==> (=)) sort_strings.
Proof.
  intros l k Hlk. apply str_sorted_unique; [apply sort_strings_sorted..|].
  by rewrite !sort_strings_perm.
Qed.

(** ** Conversions *)

(** [strconv.Itoa] and [%d]. *)
Definition Itoa (z : Z) : string := pretty z.

(** The value of decimal digits that follow the number [acc]. *)
Fixpoint parse_digits (s : string) (acc : N) : option N :=
  match s with
  | EmptyString => Some acc
  | String c s =>
      let d := Ascii.N_of_ascii c in
      if decide (48 ≤ d ∧ d ≤ 57)%N then parse_digits s (10 * acc + (d - 48))%N else None
  end.

(** [strconv.Atoi]: an optional sign, at least one digit, the range of [int]. *)
Definition Atoi (s : string) : option Z :=
  let '(neg, digits) :=
    match s with
    | String c rest =>
        if decide (c = "-"%char) then (true, rest)
        else if decide (c = "+"%char) then (false, rest) else (false, s)
    | EmptyString => (false, s)
    end in
  if decide (digits = "") then None
  else
    n ← parse_digits digits 0;
    let z := if neg : bool then - Z.of_N n else Z.of_N n in
    if decide (- 2 ^ 63 <= z < 2 ^ 63) then Some z else None.

Lemma pretty_N_char_digit (x : N) :
  (x < 10)%N → Ascii.N_of_ascii (pretty_N_char x) = (48 + x)%N.
Proof.
  intros Hx. assert (x ∈ [0; 1; 2; 3; 4; 5; 6; 7; 8; 9])%N as Hin.
  { destruct (decide (x = 0 ∨ x = 1 ∨ x = 2 ∨ x = 3 ∨ x = 4)%N); [set_solver|].
    assert (x = 5 ∨ x = 6 ∨ x = 7 ∨ x = 8 ∨ x = 9)%N by lia. set_solver. }
  repeat (apply elem_of_cons in Hin as [->|Hin]; [done|]). by apply not_elem_of_nil in Hin.
Qed.

Lemma parse_pretty_go (x : N) (s : string) :
  parse_digits (pretty_N_go x s) 0 = parse_digits s x.
Proof.
  revert s. induction (N.lt_wf_0 x) as [x _ IH]; intros s.
  destruct (decide (0 < x)%N) as [Hx|Hx]; [|by replace x with 0%N by lia; rewrite pretty_N_go_0].
  rewrite pretty_N_go_step by done. rewrite IH by (apply N.div_lt; lia). cbn [parse_digits].
  pose proof (N.mod_lt x 10 ltac:(lia)).
  pose proof (N.div_mod' x 10) as Hdm. rewrite pretty_N_char_digit by done.
  remember (x `mod` 10)%N as d. remember (x `div` 10)%N as q. clear IH.
  rewrite decide_True by lia. f_equal. lia.
Qed.

Lemma parse_pretty (x : N) : parse_digits (pretty x) 0 = Some x.
Proof.
  unfold pretty, pretty_N. destruct (decide (x = 0)%N) as [->|]; [done|].
  by rewrite parse_pretty_go.
Qed.

(** A string that parses starts with a digit unless it is empty. *)
Lemma parse_head c s acc n : parse_digits (String c s) acc = Some n → c ≠ "-"%char ∧ c ≠ "+"%char.
Proof. cbn. intros H. split; intros ->; by rewrite decide_False in H by (cbn; lia). Qed.

Lemma pretty_N_ne_empty (x : N) : pretty x ≠ "".
Proof.
  unfold pretty, pretty_N. destruct (decide _) as [->|Hx]; [done|].
  assert (∀ y s, s ≠ "" → pretty_N_go y s ≠ "") as H.
  { intros y. induction (N.lt_wf_0 y) as [y _ IH]; intros s Hs. destruct (decide (0 < y)%N) as [Hy|Hy].
    - rewrite pretty_N_go_step by done. apply IH; [apply N.div_lt; lia|done].
    - by replace y with 0%N by lia; rewrite pretty_N_go_0. }
  rewrite pretty_N_go_step by lia. by apply H.
Qed.

Lemma Itoa_nonneg (z : Z) : 0 <= z → Itoa z = pretty (Z.to_N z).
Proof. by destruct z. Qed.

#[export] Instance Itoa_inj : Inj (=) (=) Itoa.
Proof. unfold Itoa. apply _. Qed.

(** [Atoi] inverts [Itoa]. *)
Lemma Atoi_Itoa (z : Z) : - 2 ^ 63 <= z < 2 ^ 63 → Atoi (Itoa z) = Some z.
Proof.
  intros Hz. assert (∀ n : N, ∃ c s, pretty n = String c s ∧ c ≠ "-"%char ∧ c ≠ "+"%char) as Hhd.
  { intros n. pose proof (parse_pretty n) as Hp. pose proof (pretty_N_ne_empty n).
    destruct (pretty n) as [|c s]; [done|]. exists c, s. split; [done|]. by eapply parse_head. }
  unfold Atoi. destruct (decide (0 <= z)) as [Hpos|Hneg].
  - rewrite Itoa_nonneg by done. destruct (Hhd (Z.to_N z)) as (c & s & Hc & H1 & H2).
    rewrite Hc. rewrite !decide_False by done. rewrite <-Hc, parse_pretty. cbn.
    rewrite Z2N.id by done. by rewrite decide_True.
  - destruct z as [|p|p]; [lia|lia|].
    change (Itoa (Z.neg p)) with (String "-" (pretty (N.pos p))).
    cbv beta iota zeta. rewrite decide_True by done.
    rewrite decide_False by apply pretty_N_ne_empty.
    rewrite parse_pretty. cbn. by rewrite decide_True.
Qed.

(** No [-] inside digits. *)
Fixpoint has_dash (s : string) : bool :=
  match s with
  | EmptyString => false
  | String c s => bool_decide (c = "-"%char) || has_dash s
  end.

Lemma parse_no_dash s acc n : parse_digits s acc = Some n → has_dash s = false.
Proof.
  revert acc. induction s as [|c s IH]; intros acc Hp; [done|].
  destruct (parse_head _ _ _ _ Hp) as [Hc _]. cbn in Hp |- *. case_decide; [|done].
  rewrite bool_decide_eq_false_2 by done. by eapply IH.
Qed.

Lemma dash_split s1 s2 t1 t2 :
  has_dash s1 = false → has_dash s2 = false →
  s1 +:+ "-" +:+ t1 = s2 +:+ "-" +:+ t2 → s1 = s2 ∧ t1 = t2.
Proof.
  revert s2. induction s1 as [|c s1 IH]; intros [|c' s2]; cbn; intros H1 H2 Heq.
  - by injection Heq.
  - injection Heq as <- _. by rewrite bool_decide_eq_true_2 in H2.
  - injection Heq as -> _. by rewrite bool_decide_eq_true_2 in H1.
  - apply orb_false_iff in H1 as [_ H1], H2 as [_ H2]. injection Heq as <- Heq.
    by destruct (IH s2 H1 H2 Heq) as [-> ->].
Qed.

(** [strings.Join]. *)
Fixpoint strings_Join (l : list string) (sep : string) : string :=
  match l with
  | [] => ""
  | [s] => s
  | s :: l => s +:+ sep +:+ strings_Join l sep
  end.

(** ** Runes

    [range] over a string decodes UTF-8: the rune of the first bytes and how
    many they are; a malformed sequence is U+FFFD, of width 1. *)
Definition RuneError : Z := 65533.

Definition cont (b : Z) : bool := bool_decide (128 <= b < 192).

Definition DecodeRune (l : list Z) : Z * nat :=
  match l with
  | [] => (RuneError, 0%nat)
  | a :: l =>
      if decide (a < 128) then (a, 1%nat)
      else match l with
      | b :: l' =>
          if decide (194 <= a < 224) then
            if cont b then (Z.lor (Z.shiftl (Z.land a 31) 6) (Z.land b 63), 2%nat)
            else (RuneError, 1%nat)
          else match l' with
          | c :: l'' =>
              if decide (224 <= a < 240) then
                if cont b && cont c && bool_decide (¬ (a = 224 ∧ b < 160)) &&
                   bool_decide (¬ (a = 237 ∧ b >= 160))
                then (Z.lor (Z.lor (Z.shiftl (Z.land a 15) 12) (Z.shiftl (Z.land b 63) 6))
                        (Z.land c 63), 3%nat)
                else (RuneError, 1%nat)
              else match l'' with
              | d :: _ =>
                  if bool_decide (240 <= a < 245) && cont b && cont c && cont d &&
                     bool_decide (¬ (a = 240 ∧ b < 144)) && bool_decide (¬ (a = 244 ∧ b >= 144))
                  then (Z.lor (Z.lor (Z.lor (Z.shiftl (Z.land a 7) 18) (Z.shiftl (Z.land b 63) 12))
                          (Z.shiftl (Z.land c 63) 6)) (Z.land d 63), 4%nat)
                  else (RuneError, 1%nat)
              | [] => (RuneError, 1%nat)
              end
          | [] => (RuneError, 1%nat)
          end
      | [] => (RuneError, 1%nat)
      end
  end.

Lemma DecodeRune_width a l : (1 <= (DecodeRune (a :: l)).2 <= length (a :: l))%nat.
Proof.
  unfold DecodeRune. destruct (decide (a < 128)); [simpl; lia|].
  destruct l as [|b l]; [simpl; lia|]. case_decide; [destruct (cont b); simpl; lia|].
  destruct l as [|c l]; [simpl; lia|]. case_decide; [destruct (_ && _); simpl; lia|].
  destruct l as [|d l]; [simpl; lia|]. destruct (_ && _); simpl; lia.
Qed.

(** [strings.FieldsFunc] on the bytes of a string: the maximal runs of runes of
    which [f] does not hold; [word] is the run being read.  [n] bounds the number
    of runes, which the number of bytes does. *)
Fixpoint fields (n : nat) (f : Z → bool) (word : option (list Z)) (l : list Z)
    : list (list Z) :=
  match n, l with
  | S n, _ :: _ =>
      let '(r, w) := DecodeRune l in
      if f r then option_list word ++ fields n f None (drop w l)
      else fields n f (Some (default [] word ++ take w l)) (drop w l)
  | _, _ => option_list word
  end.

Definition bytes_of (s : string) : list Z :=
  (λ a, Z.of_N (Ascii.N_of_ascii a)) <$> String.list_ascii_of_string s.

Definition string_of (l : list Z) : string :=
  String.string_of_list_ascii ((λ z, Ascii.ascii_of_N (Z.to_N z)) <$> l).

Definition FieldsFunc (s : string) (f : Z → bool) : list string :=
  string_of <$> fields (length (bytes_of s)) f None (bytes_of s).

Lemma string_of_bytes_of s : string_of (bytes_of s) = s.
Proof.
  unfold string_of, bytes_of. rewrite <-list_fmap_compose.
  rewrite (list_fmap_ext _ id), list_fmap_id; [apply String.string_of_list_ascii_of_string|].
  intros i a _. simpl. by rewrite N2Z.id, Ascii.ascii_N_embedding.
Qed.

(** ** Hashing keys

    The 32-bit FNV-1a hash of Go's [hash/fnv], which the sharded key/value
    service and MapReduce use to spread keys. *)

Definition fnv_offset : Z := 2166136261.
Definition fnv_prime : Z := 16777619.

Definition byte_of (a : Ascii.ascii) : Z := Z.of_N (Ascii.N_of_ascii a).

(** [hash ^= byte; hash *= prime] on a [uint32]. *)
Definition fnv1a_step (h b : Z) : Z := u32 (Z.lxor h b * fnv_prime).

(** [fnv.New32a], [Write] and [Sum32]. *)
Definition fnv32a (key : string) : Z :=
  foldl fnv1a_step fnv_offset (byte_of <$> String.list_ascii_of_string key).

Lemma fnv32a_range key : 0 <= fnv32a key < 2 ^ 32.
Proof.
  unfold fnv32a. generalize (byte_of <$> String.list_ascii_of_string key). intros l.
  assert (∀ h, 0 <= h < 2 ^ 32 → 0 <= foldl fnv1a_step h l < 2 ^ 32) as H; [|by apply H].
  induction l as [|b l IH]; intros h Hh; [done|]. simpl. apply IH, u32_bound.
Qed.
