(* ===== verification/Rpc.v ===== *)
(** * RPC types of the key/value service

    The argument and reply structures and the error strings of
    [src/src/kvsrv1/rpc/rpc.go], shared by the server, the clerks, the lock
    and the linearizability model. *)
From S2P Require Import Prelude.

(** [type Err string]: errors are Go strings, compared with [==]. *)
Definition Err := string.

Definition OK : Err := "OK".
Definition ErrNoKey : Err := "ErrNoKey".
Definition ErrVersion : Err := "ErrVersion".
Definition ErrMaybe : Err := "ErrMaybe".
Definition ErrWrongLeader : Err := "ErrWrongLeader".
Definition ErrWrongGroup : Err := "ErrWrongGroup".

(** [type Tversion uint64]: a value in [0, 2^64). *)
Definition Tversion := Z.

(** [version + 1] on a [uint64]. *)
Definition ver_succ (v : Tversion) : Tversion := u64 (v + 1).

Record PutArgs := MkPutArgs {
  pa_Key : string;
  pa_Value : string;
  pa_Version : Tversion;
}.

Record PutReply := MkPutReply { pr_Err : Err }.

Record GetArgs := MkGetArgs { ga_Key : string }.

Record GetReply := MkGetReply {
  gr_Value : string;
  gr_Version : Tversion;
  gr_Err : Err;
}.

#[export] Instance PutReply_eq_dec : EqDecision PutReply.
Proof. solve_decision. Defined.
#[export] Instance GetReply_eq_dec : EqDecision GetReply.
Proof. solve_decision. Defined.
#[export] Instance PutArgs_eq_dec : EqDecision PutArgs.
Proof. solve_decision. Defined.
#[export] Instance GetArgs_eq_dec : EqDecision GetArgs.
Proof. solve_decision. Defined.

Lemma ver_succ_small (v : Tversion) : 0 <= v < 2 ^ 64 - 1 → ver_succ v = v + 1.
Proof. intros. unfold ver_succ. apply u64_small. lia. Qed.

(** A computation on [uint64] values may wrap; these bounds are what the
    callers rely on. *)
Create HintDb goint.
#[export] Hint Resolve u64_bound u32_bound : goint.
