(* ===== verification/KvSrv.v ===== *)
(** * The key/value server

    [src/src/kvsrv1/server.go]: the store and its two RPC handlers.  A handler
    runs under [kv.mu] from its first to its last statement, so it is one
    atomic function from the server and the arguments to the server and the
    reply. *)
From S2P Require Import Prelude Rpc.

Record kvEntry := MkEntry {
  e_value : string;
  e_version : Tversion;
}.

Record KVServer := MkKVServer { store : gmap string kvEntry }.

Definition MakeKVServer : KVServer := MkKVServer ∅.

(** The zero values of the reply structures the RPC layer allocates. *)
Definition zeroGetReply : GetReply := MkGetReply "" 0 "".
Definition zeroPutReply : PutReply := MkPutReply "".

Definition Get (kv : KVServer) (args : GetArgs) : GetReply :=
  match store kv !! ga_Key args with
  | None => MkGetReply "" 0 ErrNoKey
  | Some entry => MkGetReply (e_value entry) (e_version entry) OK
  end.

Definition Put (kv : KVServer) (args : PutArgs) : KVServer * PutReply :=
  match store kv !! pa_Key args with
  | None =>
      if decide (pa_Version args ≠ 0) then (kv, MkPutReply ErrNoKey)
      else (MkKVServer (<[pa_Key args := MkEntry (pa_Value args) 1]> (store kv)),
            MkPutReply OK)
  | Some entry =>
      if decide (pa_Version args ≠ e_version entry) then (kv, MkPutReply ErrVersion)
      else (MkKVServer (<[pa_Key args :=
                            MkEntry (pa_Value args) (ver_succ (e_version entry))]> (store kv)),
            MkPutReply OK)
  end.

(** [func (kv *KVServer) Kill() {}] does nothing. *)
Definition Kill (kv : KVServer) : KVServer := kv.

(** [StartKVServer] ignores its arguments and returns the one service. *)
Definition StartKVServer : list KVServer := [MakeKVServer].

(** ** Well-formed stores

    Every stored version is a [uint64] value. *)
Definition srv_wf (kv : KVServer) : Prop :=
  ∀ k e, store kv !! k = Some e → 0 <= e_version e < 2 ^ 64.

Lemma MakeKVServer_wf : srv_wf MakeKVServer.
Proof. intros k e. simpl. by rewrite lookup_empty. Qed.

(** The version a [Put] must name to be applied: that of the entry, and 0 for
    a key that is absent. *)
Definition cur_version (kv : KVServer) (k : string) : Tversion :=
  from_option e_version 0 (store kv !! k).

Definition cur_value (kv : KVServer) (k : string) : string :=
  from_option e_value "" (store kv !! k).

Definition put_applies (kv : KVServer) (args : PutArgs) : Prop :=
  pa_Version args = cur_version kv (pa_Key args).

#[export] Instance put_applies_dec kv args : Decision (put_applies kv args).
Proof. unfold put_applies. apply _. Defined.

Lemma put_applied (kv : KVServer) (args : PutArgs) :
  put_applies kv args →
  Put kv args =
    (MkKVServer (<[pa_Key args := MkEntry (pa_Value args)
                     (ver_succ (cur_version kv (pa_Key args)))]> (store kv)), MkPutReply OK).
Proof.
  unfold put_applies, cur_version, Put. intros H.
  destruct (store kv !! pa_Key args) as [e|]; simpl in *; by case_decide.
Qed.

Lemma put_rejected (kv : KVServer) (args : PutArgs) :
  ¬ put_applies kv args →
  Put kv args =
    (kv, MkPutReply (if store kv !! pa_Key args is Some _ then ErrVersion else ErrNoKey)).
Proof.
  unfold put_applies, cur_version, Put. intros H.
  destruct (store kv !! pa_Key args) as [e|]; simpl in *; by case_decide.
Qed.

Lemma put_reply_ok_iff (kv : KVServer) (args : PutArgs) :
  pr_Err (Put kv args).2 = OK ↔ put_applies kv args.
Proof.
  destruct (decide (put_applies kv args)) as [H|H].
  - by rewrite put_applied.
  - rewrite put_rejected by done. split; [|done]. by destruct (store kv !! _).
Qed.

Lemma put_wf (kv : KVServer) (args : PutArgs) : srv_wf kv → srv_wf (Put kv args).1.
Proof.
  intros Hwf. destruct (decide (put_applies kv args)) as [H|H].
  - rewrite put_applied by done. intros k e. simpl. rewrite lookup_insert_Some.
    intros [[_ <-]|[_ He]]; [apply u64_bound|by eapply Hwf].
  - by rewrite put_rejected.
Qed.

Lemma put_other_key (kv : KVServer) (args : PutArgs) (k : string) :
  k ≠ pa_Key args → store (Put kv args).1 !! k = store kv !! k.
Proof.
  intros Hk. destruct (decide (put_applies kv args)).
  - rewrite put_applied by done. simpl. by rewrite lookup_insert_ne.
  - by rewrite put_rejected.
Qed.

(** Keys are never removed. *)
Lemma put_keeps_keys (kv : KVServer) (args : PutArgs) :
  dom (store kv) ⊆ dom (store (Put kv args).1).
Proof.
  destruct (decide (put_applies kv args)).
  - rewrite put_applied by done. simpl. set_solver.
  - by rewrite put_rejected.
Qed.
