(* ===== verification/KvModel.v ===== *)
(** * The linearizability model

    [src/src/models1/kv.go]: the sequential model the testers hand to the
    porcupine checker, with its partition of a history by key, and the notion
    of linearizability the checker decides for a history of operations.  At the
    end the strict sequential behaviour of the handlers of [KvSrv.v]: a history
    that is linearizable with respect to that, without a [Put] answered
    [ErrNoKey], is linearizable with respect to the model of the testers. *)
From stdpp Require Import pretty.
From S2P Require Import Prelude Strs Rpc KvSrv.

Record KvInput := MkKvInput {
  ki_Op : Z; (* uint8: 0 is get, 1 is put *)
  ki_Key : string;
  ki_Value : string;
  ki_Version : Z; (* uint64 *)
}.

Record KvOutput := MkKvOutput {
  ko_Value : string;
  ko_Version : Z; (* uint64 *)
  ko_Err : string;
}.

Record KvState := MkKvState { ks_Value : string; ks_Version : Z }.

(** The state is an [interface{}]: a [KvState], or the string ["<invalid>"] an
    unknown operation leaves behind. *)
Inductive AnyState :=
| StKv (st : KvState)
| StString (s : string).

(** The fields of a [porcupine.Operation] the testers fill in. *)
Record Operation := MkOperation {
  op_ClientId : nat;
  op_Input : KvInput;
  op_Call : Z;
  op_Output : KvOutput;
  op_Return : Z;
}.

(** ** [KvModel] *)

Definition KvModel_Init : KvState := MkKvState "" 0.

(** A type assertion on anything but a [KvState] panics: [None]. *)
Definition KvModel_Step (state : AnyState) (inp : KvInput) (out : KvOutput)
    : option (bool * AnyState) :=
  match state with
  | StString _ => None
  | StKv st =>
      Some (if decide (ki_Op inp = 0) then
              (bool_decide (ko_Value out = ks_Value st), state)
            else if decide (ki_Op inp = 1) then
              if decide (ks_Version st = ki_Version inp) then
                (bool_decide (ko_Err out = "OK" ∨ ko_Err out = "ErrMaybe"),
                 StKv (MkKvState (ki_Value inp) (u64 (ks_Version st + 1))))
              else
                (bool_decide (ko_Err out = "ErrVersion" ∨ ko_Err out = "ErrMaybe"),
                 StKv st)
            else (false, StString "<invalid>"))
  end.

(** [Partition] collects the operations of each key in history order in a map,
    sorts the keys and returns the per-key histories in that order. *)
Definition op_key (o : Operation) : string := ki_Key (op_Input o).

Definition by_key (history : list Operation) : gmap string (list Operation) :=
  foldl (λ m v, <[op_key v := default [] (m !! op_key v) ++ [v]]> m) ∅ history.

Definition KvModel_Partition (history : list Operation) : list (list Operation) :=
  let m := by_key history in
  let keys := merge_sort str_le (map_to_list m).*1 in
  omap (λ k, m !! k) keys.

(** [DescribeOperation] with its [%d] conversion of the versions left to
    [pretty]. *)
Definition describe_get (inp : KvInput) (out : KvOutput) : string :=
  "get('" +:+ ki_Key inp +:+ "') -> ('" +:+ ko_Value out +:+ "', '"
    +:+ pretty (ko_Version out) +:+ "', '" +:+ ko_Err out +:+ "')".

Definition describe_put (inp : KvInput) (out : KvOutput) : string :=
  "put('" +:+ ki_Key inp +:+ "', '" +:+ ki_Value inp +:+ "', '"
    +:+ pretty (ki_Version inp) +:+ "') -> ('" +:+ ko_Err out +:+ "')".

Definition KvModel_DescribeOperation (inp : KvInput) (out : KvOutput) : string :=
  if decide (ki_Op inp = 0) then describe_get inp out
  else if decide (ki_Op inp = 1) then describe_put inp out
  else "<invalid>".

(** ** Linearizability

    A sequence of operations is accepted when [Step] accepts every operation in
    turn from [Init]; a history is linearizable when some permutation of it is
    accepted and never puts an operation before one that had returned before
    it was called. *)
Fixpoint accepts (st : AnyState) (ops : list Operation) : bool :=
  match ops with
  | [] => true
  | o :: ops =>
      match KvModel_Step st (op_Input o) (op_Output o) with
      | Some (true, st') => accepts st' ops
      | _ => false
      end
  end.

Definition precedes (a b : Operation) : Prop := op_Return a < op_Call b.

Definition respects_time (ops : list Operation) : Prop :=
  StronglySorted (λ a b, ¬ precedes b a) ops.

Definition linearizable (ops : list Operation) : Prop :=
  ∃ l, l ≡ₚ ops ∧ respects_time l ∧ accepts (StKv KvModel_Init) l = true.

(** What the checker is asked: every part of the partition is linearizable. *)
Definition history_ok (history : list Operation) : Prop :=
  Forall linearizable (KvModel_Partition history).

(** ** The partition is the history filtered by key *)

Lemma by_key_lookup (history : list Operation) (k : string) :
  by_key history !! k =
    match filter (λ o, op_key o = k) history with [] => None | l => Some l end.
Proof.
  induction history as [|o h IH] using rev_ind; [done|].
  unfold by_key in *. rewrite foldl_app, list.filter_app. simpl.
  destruct (decide (op_key o = k)) as [<-|Hne].
  - rewrite lookup_insert_eq, IH, filter_cons_True, filter_nil by done.
    by destruct (filter _ h).
  - rewrite lookup_insert_ne, IH, filter_cons_False, filter_nil, app_nil_r by done.
    done.
Qed.

Lemma Partition_elem (history part : list Operation) :
  part ∈ KvModel_Partition history →
  ∃ k, part = filter (λ o, op_key o = k) history ∧ part ≠ [].
Proof.
  unfold KvModel_Partition. rewrite list_elem_of_omap. intros (k & _ & Hk).
  exists k. rewrite by_key_lookup in Hk. destruct (filter _ history); naive_solver.
Qed.

Lemma Partition_complete (history : list Operation) (o : Operation) :
  o ∈ history →
  filter (λ o', op_key o' = op_key o) history ∈ KvModel_Partition history.
Proof.
  intros Ho. unfold KvModel_Partition. rewrite list_elem_of_omap.
  set (l := filter (λ o', op_key o' = op_key o) history).
  assert (o ∈ l) as Hol by (apply list_elem_of_filter; done).
  assert (by_key history !! op_key o = Some l) as Hl.
  { rewrite by_key_lookup. fold l. by destruct l; [set_solver|]. }
  exists (op_key o). split; [|done].
  rewrite merge_sort_Permutation. apply list_elem_of_fmap.
  exists (op_key o, l). split; [done|]. by apply elem_of_map_to_list.
Qed.

Lemma history_ok_keys (history : list Operation) :
  (∀ k, linearizable (filter (λ o, op_key o = k) history)) → history_ok history.
Proof.
  intros H. apply list.Forall_forall. intros part (k & -> & _)%Partition_elem. apply H.
Qed.

(** ** The order of the parts *)

Lemma omap_fmap_some {A B} (f : A → option B) (g : A → B) (l : list A) :
  (∀ x, x ∈ l → f x = Some (g x)) → omap f l = g <$> l.
Proof.
  induction l as [|x l IH]; intros H; [done|]. simpl.
  rewrite (H x) by set_solver. f_equal. apply IH. set_solver.
Qed.

(** C12: [Partition] splits a history into the histories of its keys.  The parts
    are those of the keys that occur, in increasing order of the keys, each
    key once, and each part is the operations of its key in history order. *)
Theorem KvModel_Partition_spec (history : list Operation) :
  ∃ keys, StronglySorted str_le keys ∧ NoDup keys ∧
    (∀ k, k ∈ keys ↔ ∃ o, o ∈ history ∧ op_key o = k) ∧
    KvModel_Partition history = (λ k, filter (λ o, op_key o = k) history) <$> keys.
Proof.
  exists (merge_sort str_le (map_to_list (by_key history)).*1).
  assert (∀ k, k ∈ merge_sort str_le (map_to_list (by_key history)).*1 ↔
    ∃ o, o ∈ history ∧ op_key o = k) as Hin.
  { intros k. rewrite merge_sort_Permutation, list_elem_of_fmap. split.
    - intros ([k' l] & -> & Hl%elem_of_map_to_list). rewrite by_key_lookup in Hl. simpl.
      destruct (filter (λ o, op_key o = k') history) as [|o l'] eqn:Hf; [done|].
      assert (o ∈ o :: l') as Ho by (by apply elem_of_cons; left).
      rewrite <-Hf in Ho. apply list_elem_of_filter in Ho as [? ?]. by exists o.
    - intros (o & Ho & <-). pose proof (by_key_lookup history (op_key o)) as Hl.
      destruct (filter (λ o', op_key o' = op_key o) history) as [|o' l'] eqn:Hf.
      + assert (o ∈ filter (λ o', op_key o' = op_key o) history) as Hof
          by (by apply list_elem_of_filter). rewrite Hf in Hof. by apply elem_of_nil in Hof.
      + exists (op_key o, o' :: l'). split; [done|]. by apply elem_of_map_to_list. }
  split_and!; [by apply StronglySorted_merge_sort; apply _| |done|].
  - rewrite merge_sort_Permutation. apply NoDup_fst_map_to_list.
  - unfold KvModel_Partition. apply omap_fmap_some. intros k (o & Ho & Hk)%Hin.
    rewrite by_key_lookup.
    destruct (filter (λ o, op_key o = k) history) eqn:Hf; [|done].
    assert (o ∈ filter (λ o', op_key o' = k) history) as Hof by (by apply list_elem_of_filter).
    rewrite Hf in Hof. by apply elem_of_nil in Hof.
Qed.

(** ** The strict sequential specification

    A [Get] returns exactly what the server holds.  A [Put] has the effect and
    the error of the handler; in place of [OK] or [ErrVersion], and only of
    these, the clerk may answer [ErrMaybe]. *)
Definition put_args_of (i : KvInput) : PutArgs :=
  MkPutArgs (ki_Key i) (ki_Value i) (ki_Version i).

Definition get_output (r : GetReply) : KvOutput :=
  MkKvOutput (gr_Value r) (gr_Version r) (gr_Err r).

Definition put_err_ok (srv_err clerk_err : Err) : Prop :=
  clerk_err = srv_err ∨ (clerk_err = ErrMaybe ∧ srv_err ≠ ErrNoKey).

#[export] Instance put_err_ok_dec e1 e2 : Decision (put_err_ok e1 e2).
Proof. unfold put_err_ok. apply _. Defined.

#[export] Instance KvOutput_eq_dec : EqDecision KvOutput.
Proof. solve_decision. Defined.

Definition strict_step (kv : KVServer) (o : Operation) : option KVServer :=
  let inp := op_Input o in
  if decide (ki_Op inp = 0) then
    if decide (op_Output o = get_output (Get kv (MkGetArgs (ki_Key inp)))) then Some kv
    else None
  else if decide (ki_Op inp = 1) then
    let '(kv', r) := Put kv (put_args_of inp) in
    if decide (put_err_ok (pr_Err r) (ko_Err (op_Output o))) then Some kv' else None
  else None.

Fixpoint strict_run (kv : KVServer) (ops : list Operation) : option KVServer :=
  match ops with
  | [] => Some kv
  | o :: ops => kv' ← strict_step kv o; strict_run kv' ops
  end.

Definition strict_linearizable (ops : list Operation) : Prop :=
  ∃ l kv, l ≡ₚ ops ∧ respects_time l ∧ strict_run MakeKVServer l = Some kv.

(** ** From the strict specification to the testers' model *)

Definition is_put_nokey (o : Operation) : Prop :=
  ki_Op (op_Input o) = 1 ∧ ko_Err (op_Output o) = ErrNoKey.

Definition key_state (kv : KVServer) (k : string) : AnyState :=
  StKv (MkKvState (cur_value kv k) (cur_version kv k)).

Lemma get_value kv k : gr_Value (Get kv (MkGetArgs k)) = cur_value kv k.
Proof. unfold Get, cur_value. simpl. by destruct (store kv !! k). Qed.

Lemma put_cur_other kv a k :
  k ≠ pa_Key a → key_state (Put kv a).1 k = key_state kv k.
Proof.
  intros Hk. unfold key_state, cur_value, cur_version. by rewrite put_other_key.
Qed.

Lemma put_applied_state kv a :
  put_applies kv a →
  key_state (Put kv a).1 (pa_Key a) =
    StKv (MkKvState (pa_Value a) (ver_succ (cur_version kv (pa_Key a)))).
Proof.
  intros H. rewrite put_applied by done. unfold key_state, cur_value, cur_version.
  simpl. by rewrite lookup_insert_eq.
Qed.

Lemma strict_step_key kv o kv' :
  strict_step kv o = Some kv' → ¬ is_put_nokey o →
  KvModel_Step (key_state kv (op_key o)) (op_Input o) (op_Output o) =
    Some (true, key_state kv' (op_key o)).
Proof.
  destruct o as [cli [op k v ver] call [oval over oerr] ret].
  unfold strict_step, is_put_nokey, op_key; simpl. intros H Hnk.
  destruct (decide (op = 0)) as [->|_]; [|destruct (decide (op = 1)) as [->|_]; [|done]].
  - destruct (decide _) as [Hout|]; simplify_eq.
    injection Hout as Hv _ _. rewrite get_value in Hv. by rewrite bool_decide_true.
  - destruct (Put kv _) as [kv1 r] eqn:Hput. destruct (decide _) as [Herr|]; simplify_eq.
    set (a := put_args_of (MkKvInput 1 k v ver)) in *.
    destruct (decide (put_applies kv a)) as [Ha|Ha].
    + pose proof (put_applied_state kv a Ha) as Hst. rewrite Hput in Hst.
      rewrite put_applied in Hput by done. simplify_eq.
      cbn [fst] in Hst. change (key_state ?kv k) with (key_state kv (pa_Key a)).
      rewrite Hst. unfold put_applies in Ha; simpl in Ha.
      rewrite decide_True by done. rewrite bool_decide_true; [done|].
      destruct Herr as [->|[-> _]]; auto.
    + rewrite put_rejected in Hput by done. simplify_eq.
      unfold put_applies in Ha; simpl in Ha.
      rewrite decide_False by congruence. rewrite bool_decide_true; [done|].
      destruct Herr as [->|[-> _]]; simpl in *; [|by right].
      destruct (store kv' !! k); [by left|by destruct Hnk].
Qed.

Lemma strict_step_other kv o kv' k :
  strict_step kv o = Some kv' → op_key o ≠ k → key_state kv' k = key_state kv k.
Proof.
  unfold strict_step, op_key. intros H Hk. repeat case_decide; simplify_eq; [done|].
  destruct (Put kv _) as [kv1 r] eqn:Hput. case_decide; [|done]. simplify_eq.
  change kv' with (kv', r).1. rewrite <-Hput. by apply put_cur_other.
Qed.

Lemma strict_run_key kv ops kv' k :
  strict_run kv ops = Some kv' → Forall (λ o, ¬ is_put_nokey o) ops →
  accepts (key_state kv k) (filter (λ o, op_key o = k) ops) = true.
Proof.
  revert kv. induction ops as [|o ops IH]; intros kv; [done|].
  simpl. intros (kv1 & Hstep & Hrun)%bind_Some [Hnk Hall]%list.Forall_cons.
  destruct (decide (op_key o = k)) as [<-|Hk].
  - rewrite filter_cons_True by done. cbn [accepts].
    rewrite (strict_step_key _ _ kv1) by done. by apply IH.
  - rewrite filter_cons_False by done.
    rewrite <-(strict_step_other kv o kv1) by done. by apply IH.
Qed.

Lemma strict_history_ok (ops : list Operation) :
  strict_linearizable ops → Forall (λ o, ¬ is_put_nokey o) ops → history_ok ops.
Proof.
  intros (l & kv & Hperm & Htime & Hrun) Hnk. apply history_ok_keys. intros k.
  exists (filter (λ o, op_key o = k) l). split_and!.
  - by rewrite Hperm.
  - by apply StronglySorted_filter.
  - eapply (strict_run_key MakeKVServer); [done|]. by rewrite Hperm.
Qed.
