(* ===== verification/Clerk.v ===== *)
(** * The key/value clerk

    [src/src/kvsrv1/client.go]: [Clerk.Get] and [Clerk.Put] retry an RPC until
    one is answered.  One iteration of either loop is a function of what
    [clnt.Call] returned ([None] is [ok == false]); the loops themselves are
    run here against a server over a list of call outcomes, and in [KvSys]
    interleaved with other clients. *)
From S2P Require Import Prelude Rpc KvSrv.

(** What happens to one [clnt.Call]: the reply arrives, the request is lost
    before the handler runs, or the reply is lost after it ran. *)
Inductive CallOutcome := Delivered | RequestLost | ReplyLost.

#[export] Instance CallOutcome_eq_dec : EqDecision CallOutcome.
Proof. solve_decision. Defined.

(** ** One iteration *)

(** [return reply.Value, reply.Version, reply.Err], or loop. *)
Definition get_iter (answer : option GetReply) : option GetReply := answer.

(** [if reply.Err == ErrVersion && retried { return ErrMaybe }; return
    reply.Err], or loop with [retried = true]. *)
Definition put_iter (retried : bool) (answer : option PutReply) : option Err :=
  match answer with
  | Some reply =>
      if decide (pr_Err reply = ErrVersion ∧ retried = true) then Some ErrMaybe
      else Some (pr_Err reply)
  | None => None
  end.

(** ** The loops, alone with a server

    [None]: every outcome of the list was used and the clerk is still
    looping. *)
Definition call_get (kv : KVServer) (args : GetArgs) (o : CallOutcome) : option GetReply :=
  match o with
  | Delivered => Some (Get kv args)
  | RequestLost | ReplyLost => None
  end.

Definition call_put (kv : KVServer) (args : PutArgs) (o : CallOutcome)
    : KVServer * option PutReply :=
  match o with
  | Delivered => let '(kv', r) := Put kv args in (kv', Some r)
  | RequestLost => (kv, None)
  | ReplyLost => ((Put kv args).1, None)
  end.

Fixpoint Clerk_Get (net : list CallOutcome) (kv : KVServer) (key : string)
    : option GetReply :=
  match net with
  | [] => None
  | o :: net =>
      match get_iter (call_get kv (MkGetArgs key) o) with
      | Some r => Some r
      | None => Clerk_Get net kv key
      end
  end.

Fixpoint put_loop (retried : bool) (net : list CallOutcome) (kv : KVServer)
    (args : PutArgs) : KVServer * option Err :=
  match net with
  | [] => (kv, None)
  | o :: net =>
      let '(kv', answer) := call_put kv args o in
      match put_iter retried answer with
      | Some err => (kv', Some err)
      | None => put_loop true net kv' args
      end
  end.

Definition Clerk_Put (net : list CallOutcome) (kv : KVServer)
    (key value : string) (version : Tversion) : KVServer * option Err :=
  put_loop false net kv (MkPutArgs key value version).

(** ** What a lone clerk can conclude *)

Lemma Get_terminates net kv key : Delivered ∈ net → is_Some (Clerk_Get net kv key).
Proof.
  induction net as [|o net IH]; [by intros ?%elem_of_nil|].
  rewrite elem_of_cons. destruct o; simpl; naive_solver.
Qed.

Lemma put_loop_terminates retried net kv args :
  Delivered ∈ net → is_Some (put_loop retried net kv args).2.
Proof.
  revert retried kv. induction net as [|o net IH]; intros retried kv.
  { by intros ?%elem_of_nil. }
  rewrite elem_of_cons. destruct o; simpl.
  - intros _. destruct (Put kv args) as [kv' r]. simpl. destruct (decide _); eauto.
  - naive_solver.
  - naive_solver.
Qed.

(** Once a [Put] was applied the same arguments are stale. *)
Lemma put_twice kv args :
  srv_wf kv → 0 <= pa_Version args < 2 ^ 64 - 1 → put_applies kv args →
  ¬ put_applies (Put kv args).1 args.
Proof.
  intros Hwf Hb Happ. rewrite put_applied by done.
  unfold put_applies in *. rewrite Happ in *. unfold cur_version at 2. simpl.
  rewrite lookup_insert_eq. simpl. rewrite ver_succ_small by lia. lia.
Qed.

(** After a retry, the loop against a store where the [Put] is stale and the
    key exists ends in [ErrMaybe] without touching the store. *)
Lemma put_loop_stale net kv args :
  ¬ put_applies kv args → is_Some (store kv !! pa_Key args) →
  put_loop true net kv args = (kv, if decide (Delivered ∈ net) then Some ErrMaybe else None).
Proof.
  intros Hna [e He]. induction net as [|o net IH]; [done|].
  cbn [put_loop]. destruct o; cbn [call_put put_iter].
  - rewrite (put_rejected kv args Hna), He. cbn.
    by rewrite (decide_True (P := Delivered ∈ _)) by constructor.
  - rewrite IH. f_equal. apply decide_ext. rewrite elem_of_cons. naive_solver.
  - rewrite (put_rejected kv args Hna). cbn [fst]. rewrite IH. f_equal.
    apply decide_ext. rewrite elem_of_cons. naive_solver.
Qed.

(** Whether a lost call ran the handler. *)
Definition lost_reply (o : CallOutcome) : bool := bool_decide (o = ReplyLost).

Lemma put_loop_absent_key retried pre rest kv args :
  Delivered ∉ pre → ¬ put_applies kv args → store kv !! pa_Key args = None →
  put_loop retried (pre ++ Delivered :: rest) kv args = (kv, Some ErrNoKey).
Proof.
  intros Hpre Hna Hkey. revert retried. induction pre as [|o pre IH]; intros retried.
  - cbn [app put_loop call_put]. rewrite (put_rejected kv args Hna), Hkey. cbn [put_iter].
    by rewrite decide_False by (intros [? _]; done).
  - apply not_elem_of_cons in Hpre as [Ho Hpre]. cbn [app put_loop].
    destruct o; [done|by apply IH|]. cbn [call_put]. rewrite (put_rejected kv args Hna).
    by apply IH.
Qed.

Lemma put_loop_apply retried pre rest kv args :
  Delivered ∉ pre → srv_wf kv → 0 <= pa_Version args < 2 ^ 64 - 1 → put_applies kv args →
  put_loop retried (pre ++ Delivered :: rest) kv args =
    ((Put kv args).1, Some (if decide (ReplyLost ∈ pre) then ErrMaybe else OK)).
Proof.
  intros Hpre Hwf Hb Ha. revert retried. induction pre as [|o pre IH]; intros retried.
  - cbn [app put_loop call_put]. rewrite (put_applied kv args Ha). cbn [put_iter fst].
    rewrite decide_False by (intros [? _]; done). by rewrite decide_False by set_solver.
  - apply not_elem_of_cons in Hpre as [Ho Hpre]. cbn [app put_loop].
    destruct o; [done|..]; cbn [call_put put_iter].
    + rewrite IH by done. do 3 f_equal. apply decide_ext. set_solver.
    + rewrite put_loop_stale.
      * rewrite decide_True by set_solver. by rewrite decide_True by set_solver.
      * by apply put_twice.
      * rewrite put_applied by done. cbn. rewrite lookup_insert_eq. eauto.
Qed.

Lemma Clerk_Put_result pre rest kv key value version :
  Delivered ∉ pre → srv_wf kv → 0 <= version < 2 ^ 64 - 1 →
  let args := MkPutArgs key value version in
  Clerk_Put (pre ++ Delivered :: rest) kv key value version =
    ((Put kv args).1,
     Some (if decide (put_applies kv args) then
             if decide (ReplyLost ∈ pre) then ErrMaybe else OK
           else match store kv !! key with
                | None => ErrNoKey
                | Some _ => if decide (pre = []) then ErrVersion else ErrMaybe
                end)).
Proof.
  intros Hpre Hwf Hb args. unfold Clerk_Put. fold args.
  destruct (decide (put_applies kv args)) as [Ha|Ha]; [by apply put_loop_apply|].
  destruct (store kv !! key) as [e|] eqn:Hkey.
  - destruct pre as [|o pre].
    + cbn [app put_loop call_put]. rewrite (put_rejected kv args Ha). simpl. by rewrite Hkey.
    + rewrite (put_rejected kv args Ha). cbn [fst].
      apply not_elem_of_cons in Hpre as [Ho Hpre].
      assert (put_loop true (pre ++ Delivered :: rest) kv args = (kv, Some ErrMaybe)) as Hl.
      { rewrite put_loop_stale by (try done; rewrite Hkey; eauto).
        by rewrite decide_True by set_solver. }
      cbn [app put_loop].
      destruct o; [done|..]; cbn [call_put put_iter]; rewrite ?(put_rejected kv args Ha);
        cbn [fst]; rewrite Hl; by rewrite decide_False.
  - rewrite put_loop_absent_key by done. by rewrite put_rejected.
Qed.

(** What the clerk learns from the fates of its RPCs: [None] if none is
    answered, else whether a reply was lost before the answer. *)
Fixpoint reply_lost (net : list CallOutcome) : option bool :=
  match net with
  | [] => None
  | Delivered :: _ => Some false
  | RequestLost :: net => reply_lost net
  | ReplyLost :: net => (λ _, true) <$> reply_lost net
  end.

Lemma reply_lost_split net b :
  reply_lost net = Some b →
  ∃ pre rest, net = pre ++ Delivered :: rest ∧ Delivered ∉ pre ∧ (b = true ↔ ReplyLost ∈ pre).
Proof.
  revert b. induction net as [|o net IH]; intros b; [done|]. destruct o; cbn.
  - intros [= <-]. exists [], net. split_and!; [done|set_solver|set_solver].
  - intros (pre & rest & -> & H1 & H2)%IH. exists (RequestLost :: pre), rest. set_solver.
  - intros (b' & Hb & [= <-])%fmap_Some. destruct (IH b' Hb) as (pre & rest & -> & H1 & H2).
    exists (ReplyLost :: pre), rest. set_solver.
Qed.

Lemma Clerk_Get_result net kv key b :
  reply_lost net = Some b → Clerk_Get net kv key = Some (Get kv (MkGetArgs key)).
Proof.
  revert b. induction net as [|o net IH]; intros b; [done|]. destruct o; cbn; [done|eauto|].
  intros (b' & Hb & _)%fmap_Some. eauto.
Qed.

Lemma Clerk_Put_applies net kv key value version b :
  reply_lost net = Some b → srv_wf kv → 0 <= version < 2 ^ 64 - 1 →
  version = cur_version kv key →
  Clerk_Put net kv key value version =
    (MkKVServer (<[key := MkEntry value (version + 1)]> (store kv)),
     Some (if b then ErrMaybe else OK)).
Proof.
  intros (pre & rest & -> & Hpre & Hb)%reply_lost_split Hwf Hv Ha.
  rewrite Clerk_Put_result by done. rewrite decide_True by done.
  rewrite put_applied by done. cbn. rewrite <-Ha, ver_succ_small by done. do 2 f_equal.
  destruct b; [by rewrite decide_True by tauto|by rewrite decide_False by naive_solver].
Qed.

Lemma Clerk_Put_stale net kv key value version b e :
  reply_lost net = Some b → srv_wf kv → 0 <= version < 2 ^ 64 - 1 →
  version ≠ cur_version kv key → store kv !! key = Some e →
  ∃ err, Clerk_Put net kv key value version = (kv, Some err) ∧ (err = ErrMaybe ∨ err = ErrVersion).
Proof.
  intros (pre & rest & -> & Hpre & Hb)%reply_lost_split Hwf Hv Ha He.
  rewrite Clerk_Put_result by done. rewrite decide_False, He by done.
  rewrite put_rejected by done. cbn. eexists. split; [done|]. case_decide; auto.
Qed.

(** C16: a [Put] over any lossy network that delivers one reply at last
    terminates, applies the [Put] at most once however often the request is
    retried (the store is that of the handler run once), and answers [OK] only
    if no reply was lost on the way, the handler's [ErrNoKey] always, and
    [ErrMaybe] instead of [ErrVersion] after a retry. *)
Theorem Clerk_Put_spec pre rest kv key value version :
  Delivered ∉ pre → srv_wf kv → 0 <= version < 2 ^ 64 - 1 →
  let args := MkPutArgs key value version in
  Clerk_Put (pre ++ Delivered :: rest) kv key value version =
    ((Put kv args).1,
     Some (if decide (put_applies kv args) then
             if decide (ReplyLost ∈ pre) then ErrMaybe else OK
           else match store kv !! key with
                | None => ErrNoKey
                | Some _ => if decide (pre = []) then ErrVersion else ErrMaybe
                end)).
Proof. apply Clerk_Put_result. Qed.

Lemma Clerk_Put_spec_witness :
  Clerk_Put [RequestLost; ReplyLost; RequestLost; Delivered] MakeKVServer "k" "v" 0 =
    ((Put MakeKVServer (MkPutArgs "k" "v" 0)).1, Some ErrMaybe).
Proof.
  apply (Clerk_Put_spec [RequestLost; ReplyLost; RequestLost] []).
  - apply (bool_decide_unpack _). vm_compute. exact I.
  - exact MakeKVServer_wf.
  - done.
Defined.
