(* ===== verification/KvSys.v ===== *)
(** * Clients, network and server together

    Any number of client programs call the clerk of [Clerk.v] concurrently,
    over a network that loses requests and replies and may run a request after
    its caller has given up on it, against the server of [KvSrv.v].  A client program is anything that implements [KVClient]: it is
    either at a call of [Get] or [Put] of its clerk (the interface [IKVClerk]
    of [src/src/kvtest1/kvtest.go]) or takes a step of its own.

    The state keeps two history variables next to the program state: the
    handler executions in the order the server ran them, and the operation log
    [oplog] that the wrappers [ts.Get] and [ts.Put] of
    [src/src/kvtest1/porcupine.go] append to. *)
From S2P Require Import Prelude Rpc KvSrv KvModel Clerk.

(** ** Calls, replies and results *)

Inductive KvOp :=
| OpGet (args : GetArgs)
| OpPut (args : PutArgs).

(** What a handler leaves in the reply. *)
Inductive KvRep :=
| RepGet (r : GetReply)
| RepPut (r : PutReply).

(** What the clerk's method returns. *)
Inductive KvRes :=
| ResGet (value : string) (version : Tversion) (err : Err)
| ResPut (err : Err).

#[export] Instance KvOp_eq_dec : EqDecision KvOp.
Proof. solve_decision. Defined.
#[export] Instance KvRep_eq_dec : EqDecision KvRep.
Proof. solve_decision. Defined.
#[export] Instance KvRes_eq_dec : EqDecision KvRes.
Proof. solve_decision. Defined.

Definition op_arg_key (op : KvOp) : string :=
  match op with OpGet a => ga_Key a | OpPut a => pa_Key a end.

(** The RPC dispatch of a call to the server. *)
Definition srv_exec (kv : KVServer) (op : KvOp) : KVServer * KvRep :=
  match op with
  | OpGet a => (kv, RepGet (Get kv a))
  | OpPut a => let '(kv', r) := Put kv a in (kv', RepPut r)
  end.

(** One iteration of the clerk's loop for either method. *)
Definition clerk_iter (retried : bool) (answer : option KvRep) : option KvRes :=
  match answer with
  | Some (RepGet r) =>
      (λ r, ResGet (gr_Value r) (gr_Version r) (gr_Err r)) <$> get_iter (Some r)
  | Some (RepPut r) => ResPut <$> put_iter retried (Some r)
  | None => None
  end.

(** ** The log of the testers *)

Definition op_input (op : KvOp) : KvInput :=
  match op with
  | OpGet a => MkKvInput 0 (ga_Key a) "" 0
  | OpPut a => MkKvInput 1 (pa_Key a) (pa_Value a) (pa_Version a)
  end.

Definition res_output (res : KvRes) : KvOutput :=
  match res with
  | ResGet v ver e => MkKvOutput v ver e
  | ResPut e => MkKvOutput "" 0 e
  end.

(** [ts.Get] and [ts.Put] of porcupine.go: note the time, call the clerk, note
    the time, append the operation. *)
Definition log_op (cli : nat) (op : KvOp) (start fin : Z) (res : KvRes) : Operation :=
  MkOperation cli (op_input op) start (res_output res) fin.

(** ** Client programs *)

Class KVClient (P : Type) := {
  next_op : P → option KvOp;
  resume : P → KvRes → P;
  local_step : P → P → Prop;
}.

(** ** The system *)

Inductive NetSt :=
| InFlight
| Executed (r : KvRep) (t : Z).

Record Busy := MkBusy {
  b_op : KvOp;
  b_call : Z;
  b_retried : bool;
  b_net : NetSt;
}.

(** A request that the network has left running although its caller has been
    answered false. *)
Record LateReq := MkLate { lr_cid : nat; lr_call : Z; lr_op : KvOp }.

Record Exec := MkExec {
  x_cid : nat;
  x_call : Z;
  x_op : KvOp;
  x_time : Z;
  x_rep : KvRep;
}.

Section System.
Context {P : Type} `{!KVClient P}.

Record Client := MkClient { c_prog : P; c_clerk : option Busy }.

Record Sys := MkSys {
  s_srv : KVServer;
  s_clients : list Client;
  s_clock : Z;
  s_execs : list Exec;
  s_oplog : list Operation;
  s_late : list LateReq;
}.

Definition init_sys (ps : list P) : Sys :=
  MkSys MakeKVServer ((λ p, MkClient p None) <$> ps) 0 [] [] [].

(** A client starts a call: [start := int64(time.Since(t0))] and the first
    request is on its way. *)
Definition do_invoke (s : Sys) (c : nat) (p : P) (op : KvOp) : Sys :=
  MkSys (s_srv s)
    (<[c := MkClient p (Some (MkBusy op (s_clock s) false InFlight))]> (s_clients s))
    (s_clock s + 1) (s_execs s) (s_oplog s) (s_late s).

(** The server runs the handler. *)
Definition do_exec (s : Sys) (c : nat) (p : P) (b : Busy) : Sys :=
  let '(kv', r) := srv_exec (s_srv s) (b_op b) in
  MkSys kv'
    (<[c := MkClient p (Some (MkBusy (b_op b) (b_call b) (b_retried b)
                                (Executed r (s_clock s))))]> (s_clients s))
    (s_clock s + 1)
    (s_execs s ++ [MkExec c (b_call b) (b_op b) (s_clock s) r]) (s_oplog s) (s_late s).

(** A request that nobody waits for any more.  One that has run is not among
    them: only its reply is lost. *)
Definition left_over (c : nat) (b : Busy) : list LateReq :=
  match b_net b with InFlight => [MkLate c (b_call b) (b_op b)] | Executed _ _ => [] end.

(** [Call] returns false: sleep, [retried = true], and the next request.  The
    network answers false when it drops the request or the reply, and also when
    it finds the caller's end disconnected while the handler is running: then it
    leaves the handler running ([left = true]). *)
Definition do_fail (s : Sys) (c : nat) (p : P) (b : Busy) (left : bool) : Sys :=
  MkSys (s_srv s)
    (<[c := MkClient p (Some (MkBusy (b_op b) (b_call b) true InFlight))]> (s_clients s))
    (s_clock s + 1) (s_execs s) (s_oplog s)
    (s_late s ++ if left then left_over c b else []).

(** The handler of a request that was left running; its reply is dropped
    ([<-ech]).  [late'] are the others. *)
Definition do_late (s : Sys) (q : LateReq) (late' : list LateReq) : Sys :=
  let '(kv', r) := srv_exec (s_srv s) (lr_op q) in
  MkSys kv' (s_clients s) (s_clock s + 1)
    (s_execs s ++ [MkExec (lr_cid q) (lr_call q) (lr_op q) (s_clock s) r]) (s_oplog s) late'.

(** The reply arrives and the clerk's method returns [res]. *)
Definition do_return (s : Sys) (c : nat) (p : P) (b : Busy) (res : KvRes) : Sys :=
  MkSys (s_srv s)
    (<[c := MkClient (resume p res) None]> (s_clients s))
    (s_clock s + 1) (s_execs s)
    (s_oplog s ++ [log_op c (b_op b) (b_call b) (s_clock s) res]) (s_late s).

Definition do_local (s : Sys) (c : nat) (p' : P) : Sys :=
  MkSys (s_srv s) (<[c := MkClient p' None]> (s_clients s))
    (s_clock s + 1) (s_execs s) (s_oplog s) (s_late s).

Inductive step (s : Sys) : Sys → Prop :=
| step_local c p p' :
    s_clients s !! c = Some (MkClient p None) → local_step p p' →
    step s (do_local s c p')
| step_invoke c p op :
    s_clients s !! c = Some (MkClient p None) → next_op p = Some op →
    step s (do_invoke s c p op)
| step_exec c p b :
    s_clients s !! c = Some (MkClient p (Some b)) → b_net b = InFlight →
    step s (do_exec s c p b)
| step_fail c p b left :
    s_clients s !! c = Some (MkClient p (Some b)) →
    step s (do_fail s c p b left)
| step_return c p b r t res :
    s_clients s !! c = Some (MkClient p (Some b)) → b_net b = Executed r t →
    clerk_iter (b_retried b) (Some r) = Some res →
    step s (do_return s c p b res)
| step_late q l1 l2 :
    s_late s = l1 ++ q :: l2 → step s (do_late s q (l1 ++ l2)).

Definition reachable (ps : list P) (s : Sys) : Prop := rtc step (init_sys ps) s.

(** No call is in progress. *)
Definition quiescent (s : Sys) : Prop :=
  Forall (λ cl, c_clerk cl = None) (s_clients s).

Lemma step_clock s s' : step s s' → s_clock s' = s_clock s + 1.
Proof. destruct 1; try done; [unfold do_exec|unfold do_late]; by destruct (srv_exec _ _). Qed.

(** What running a handler does, for a caller that waits and for none. *)
Lemma do_exec_view s c p b :
  s_srv (do_exec s c p b) = (srv_exec (s_srv s) (b_op b)).1 ∧
  s_clients (do_exec s c p b) = <[c := MkClient p (Some (MkBusy (b_op b) (b_call b) (b_retried b)
    (Executed (srv_exec (s_srv s) (b_op b)).2 (s_clock s))))]> (s_clients s) ∧
  s_clock (do_exec s c p b) = s_clock s + 1 ∧ s_oplog (do_exec s c p b) = s_oplog s ∧
  s_execs (do_exec s c p b) = s_execs s ++
    [MkExec c (b_call b) (b_op b) (s_clock s) (srv_exec (s_srv s) (b_op b)).2] ∧
  s_late (do_exec s c p b) = s_late s.
Proof. unfold do_exec. by destruct (srv_exec _ _). Qed.

Lemma do_late_view s q late' :
  s_srv (do_late s q late') = (srv_exec (s_srv s) (lr_op q)).1 ∧
  s_clients (do_late s q late') = s_clients s ∧
  s_clock (do_late s q late') = s_clock s + 1 ∧ s_oplog (do_late s q late') = s_oplog s ∧
  s_execs (do_late s q late') = s_execs s ++
    [MkExec (lr_cid q) (lr_call q) (lr_op q) (s_clock s) (srv_exec (s_srv s) (lr_op q)).2] ∧
  s_late (do_late s q late') = late'.
Proof. unfold do_late. by destruct (srv_exec _ _). Qed.

Lemma step_length s s' : step s s' → length (s_clients s') = length (s_clients s).
Proof.
  destruct 1; try apply length_insert.
  - unfold do_exec. destruct (srv_exec _ _). apply length_insert.
  - by destruct (do_late_view s q (l1 ++ l2)) as (_ & -> & _).
Qed.

Lemma reachable_length ps s : reachable ps s → length (s_clients s) = length ps.
Proof.
  revert s. refine (rtc_ind_r _ _ _ _).
  - apply length_fmap.
  - intros s1 s2 _ Hstep IH. by rewrite (step_length _ _ Hstep).
Qed.
End System.

Arguments Client P : clear implicits.
Arguments Sys P : clear implicits.
Arguments MkClient {P}.
Arguments MkSys {P}.

(** Every operation an RPC answer ends, ends with a result. *)
Lemma clerk_iter_answer retried r : is_Some (clerk_iter retried (Some r)).
Proof. destruct r; simpl; [eauto|]. case_decide; eauto. Qed.

(** ** Running a schedule *)

(** An executable scheduler: a move names a client and what happens to it, a call
    that fails with its request or its reply lost ([MFail]) or its request left
    running ([MLeave]), or the [k]-th of the requests left running. *)
Inductive Move :=
| MInvoke (c : nat) | MExec (c : nat) | MFail (c : nat) | MLeave (c : nat) | MReturn (c : nat)
| MLate (k : nat).

Section Scheduler.
Context {P : Type} `{!KVClient P}.

Definition run_move (s : Sys P) (m : Move) : option (Sys P) :=
  match m with
  | MInvoke c =>
      cl ← s_clients s !! c;
      match c_clerk cl with
      | None => op ← next_op (c_prog cl); Some (do_invoke s c (c_prog cl) op)
      | Some _ => None
      end
  | MExec c =>
      cl ← s_clients s !! c; b ← c_clerk cl;
      match b_net b with
      | InFlight => Some (do_exec s c (c_prog cl) b)
      | Executed _ _ => None
      end
  | MFail c => cl ← s_clients s !! c; b ← c_clerk cl; Some (do_fail s c (c_prog cl) b false)
  | MLeave c => cl ← s_clients s !! c; b ← c_clerk cl; Some (do_fail s c (c_prog cl) b true)
  | MReturn c =>
      cl ← s_clients s !! c; b ← c_clerk cl;
      match b_net b with
      | InFlight => None
      | Executed r _ =>
          res ← clerk_iter (b_retried b) (Some r);
          Some (do_return s c (c_prog cl) b res)
      end
  | MLate k => q ← s_late s !! k; Some (do_late s q (delete k (s_late s)))
  end.

Fixpoint run_moves (s : Sys P) (ms : list Move) : option (Sys P) :=
  match ms with
  | [] => Some s
  | m :: ms => s' ← run_move s m; run_moves s' ms
  end.

Lemma run_move_step s m s' : run_move s m = Some s' → step s s'.
Proof.
  destruct m as [c|c|c|c|c|k]; cbn [run_move];
    [intros ([p ob] & Hc & H)%bind_Some; cbn [c_clerk c_prog] in H..|].
  - destruct ob; [done|]. apply bind_Some in H as (op & Hop & [= <-]).
    by apply step_invoke.
  - apply bind_Some in H as (b & -> & H). destruct (b_net b) eqn:Hb; [|done].
    injection H as <-. by apply step_exec.
  - apply bind_Some in H as (b & -> & [= <-]). by apply step_fail.
  - apply bind_Some in H as (b & -> & [= <-]). by apply step_fail.
  - apply bind_Some in H as (b & -> & H). destruct (b_net b) as [|r t] eqn:Hb; [done|].
    apply bind_Some in H as (res & Hr & [= <-]). by eapply step_return.
  - intros (q & Hq & [= <-])%bind_Some. rewrite delete_take_drop.
    apply step_late. by rewrite take_drop_middle.
Qed.

Lemma run_moves_steps s ms s' : run_moves s ms = Some s' → rtc step s s'.
Proof.
  revert s. induction ms as [|m ms IH]; intros s; simpl.
  - intros [= ->]. constructor.
  - intros (s1 & Hm & Hms)%bind_Some. eapply rtc_l; [by eapply run_move_step|by apply IH].
Qed.

Lemma run_moves_reachable ps ms s :
  run_moves (init_sys ps) ms = Some s → reachable ps s.
Proof. apply run_moves_steps. Qed.
End Scheduler.
