(* ===== verification/KvHist.v ===== *)
(** * The history of the key/value service

    The handler executions replay to the current store and versions only grow,
    by one for each [Put] that is applied.  Nothing here depends on who asked for
    an execution, a client that waits or one that has given up. *)
From S2P Require Import Prelude Rpc KvSrv KvModel Clerk KvSys.

(** ** Replaying the history *)

Fixpoint replay (kv : KVServer) (xs : list Exec) (kv' : KVServer) : Prop :=
  match xs with
  | [] => kv = kv'
  | x :: xs =>
      (srv_exec kv (x_op x)).2 = x_rep x ∧ replay (srv_exec kv (x_op x)).1 xs kv'
  end.

Lemma replay_snoc kv xs kv1 x :
  replay kv xs kv1 → (srv_exec kv1 (x_op x)).2 = x_rep x →
  replay kv (xs ++ [x]) (srv_exec kv1 (x_op x)).1.
Proof.
  revert kv. induction xs as [|y xs IH]; simpl.
  - by intros kv <- ->.
  - intros kv [Hy Hxs] Hx. split; [done|]. by apply IH.
Qed.

(** [x] ran the handler of the [Put] [a] and applied it. *)
Definition applied_put (x : Exec) (a : PutArgs) : Prop :=
  x_op x = OpPut a ∧ x_rep x = RepPut (MkPutReply OK).

Lemma exec_put_applied kv x a :
  x_op x = OpPut a → (srv_exec kv (x_op x)).2 = x_rep x →
  applied_put x a ↔ put_applies kv a.
Proof.
  intros Hop Hrep. rewrite <-put_reply_ok_iff. unfold applied_put.
  rewrite <-Hrep, Hop. simpl. destruct (Put kv a) as [kv' [e]]; simpl. naive_solver.
Qed.

(** ** Versions along the history *)

Record versions_ok (kv : KVServer) (xs : list Exec) : Prop := {
  vo_bound k : 0 <= cur_version kv k <= len xs;
  vo_applied x a :
    x ∈ xs → applied_put x a →
    is_Some (store kv !! pa_Key a) ∧ 0 <= pa_Version a < cur_version kv (pa_Key a);
  vo_mono i j x y a b :
    (i < j)%nat → xs !! i = Some x → xs !! j = Some y →
    applied_put x a → applied_put y b → pa_Key a = pa_Key b →
    pa_Version a < pa_Version b;
}.

Lemma versions_ok_init : versions_ok MakeKVServer [].
Proof.
  split.
  - intros k. unfold cur_version. simpl. rewrite lookup_empty. unfold len. simpl. lia.
  - by intros x a ?%elem_of_nil.
  - done.
Qed.

(** A run that leaves the store alone. *)
Lemma versions_ok_same kv xs x :
  versions_ok kv xs → (∀ a, ¬ applied_put x a) → versions_ok kv (xs ++ [x]).
Proof.
  intros [Hb Ha Hm] Hx. split.
  - intros k. specialize (Hb k). unfold len in *. rewrite length_app. simpl. lia.
  - intros y a [Hy|Hy]%elem_of_app Hap; [by apply (Ha y)|].
    apply list_elem_of_singleton in Hy as ->. by destruct (Hx a).
  - intros i j y z a b Hij [[? Hi]|[-> <-]]%lookup_snoc_Some
      [[? Hj]|[-> <-]]%lookup_snoc_Some Hy Hz;
      try (exfalso; by eapply Hx). intros Hk. by eapply (Hm i j y z a b).
Qed.

Lemma cur_version_put kv a k :
  put_applies kv a → 0 <= cur_version kv (pa_Key a) < 2 ^ 64 - 1 →
  cur_version (Put kv a).1 k =
    if decide (pa_Key a = k) then cur_version kv k + 1 else cur_version kv k.
Proof.
  intros Ha Hb. rewrite put_applied by done. unfold cur_version at 1. simpl.
  rewrite lookup_insert. case_decide; [|done]. subst. simpl.
  by rewrite ver_succ_small.
Qed.

Lemma versions_ok_put kv xs x a :
  versions_ok kv xs → applied_put x a → put_applies kv a → len xs < 2 ^ 64 - 1 →
  versions_ok (Put kv a).1 (xs ++ [x]).
Proof.
  intros [Hb Ha Hm] Hx Hap Hlen.
  assert (∀ k, cur_version (Put kv a).1 k =
    if decide (pa_Key a = k) then cur_version kv k + 1 else cur_version kv k) as Hcur.
  { intros k. apply cur_version_put; [done|]. specialize (Hb (pa_Key a)). lia. }
  assert (∀ b, applied_put x b → b = a) as Hinj.
  { destruct Hx as [Hop _]. intros b [Hop' _]. congruence. }
  split.
  - intros k. specialize (Hb k). rewrite Hcur. unfold len in *. rewrite length_app.
    simpl. case_decide; lia.
  - intros y b [Hy|Hy]%elem_of_app Hyb.
    + destruct (Ha y b Hy Hyb) as [Hs Hlt]. rewrite Hcur. split.
      * apply elem_of_dom. eapply put_keeps_keys. by apply elem_of_dom.
      * case_decide; lia.
    + apply list_elem_of_singleton in Hy as ->. apply Hinj in Hyb as ->.
      rewrite Hcur, decide_True by done. split.
      * rewrite put_applied by done. simpl. rewrite lookup_insert_eq. eauto.
      * specialize (Hb (pa_Key a)). unfold put_applies in Hap. lia.
  - intros i j y z b c Hij Hi Hj Hyb Hzc Hk.
    apply lookup_snoc_Some in Hi as [[? Hi]|[-> <-]];
      apply lookup_snoc_Some in Hj as [[? Hj]|[-> <-]]; [by eapply (Hm i j y z b c)| |lia|lia].
    apply Hinj in Hzc as ->.
    destruct (Ha y b) as [_ Hlt]; [by eapply list_elem_of_lookup_2|done|].
    unfold put_applies in Hap. rewrite Hk in Hlt. lia.
Qed.

(** Two runs that applied the same key and version are the same run. *)
Lemma versions_ok_unique kv xs i j x y a b :
  versions_ok kv xs → xs !! i = Some x → xs !! j = Some y →
  applied_put x a → applied_put y b →
  pa_Key a = pa_Key b → pa_Version a = pa_Version b → i = j.
Proof.
  intros [_ _ Hm] Hi Hj Hx Hy Hk Hv.
  destruct (decide (i = j)) as [|Hne]; [done|exfalso].
  destruct (decide (i < j)%nat).
  - specialize (Hm i j x y a b ltac:(done) Hi Hj Hx Hy Hk). lia.
  - specialize (Hm j i y x b a ltac:(lia) Hj Hi Hy Hx (eq_sym Hk)). lia.
Qed.

(** ** An absent key *)

Lemma exec_keeps kv op k : is_Some (store kv !! k) → is_Some (store (srv_exec kv op).1 !! k).
Proof.
  destruct op as [g|a]; cbn; [done|]. rewrite <-!elem_of_dom.
  intros Hk%(put_keeps_keys kv a). by destruct (Put kv a).
Qed.

Lemma replay_keeps kv xs kv' k :
  replay kv xs kv' → is_Some (store kv !! k) → is_Some (store kv' !! k).
Proof.
  revert kv. induction xs as [|x xs IH]; intros kv; cbn; [by intros ->|].
  intros [_ Hr] Hk. by eapply IH, exec_keeps.
Qed.

Lemma replay_app kv xs ys kv' :
  replay kv (xs ++ ys) kv' → ∃ kv1, replay kv xs kv1 ∧ replay kv1 ys kv'.
Proof.
  revert kv. induction xs as [|x xs IH]; intros kv; cbn; [by exists kv|].
  intros [Hx (kv1 & H1 & H2)%IH]. by exists kv1.
Qed.

(** A run that finds the key absent. *)
Definition absent_put (x : Exec) (a : PutArgs) : Prop :=
  x_op x = OpPut a ∧ x_rep x = RepPut (MkPutReply ErrNoKey).

(** It comes before any [Put] of the key that applies. *)
Lemma absent_first kv xs kv' i j x y a b :
  replay kv xs kv' → xs !! i = Some x → xs !! j = Some y →
  applied_put x a → absent_put y b → pa_Key a = pa_Key b → (j < i)%nat.
Proof.
  intros Hr Hi Hj Ha [Hop Hrep] Hk. destruct (decide (j < i)%nat) as [|Hle]; [done|exfalso].
  assert (i ≠ j) as Hne.
  { intros ->. rewrite Hi in Hj. injection Hj as ->. destruct Ha as [_ Ha]. rewrite Ha in Hrep. discriminate. }
  rewrite <-(take_drop_middle _ _ _ Hi) in Hr. apply replay_app in Hr as (kv1 & _ & Hx & Hr).
  assert (is_Some (store (srv_exec kv1 (x_op x)).1 !! pa_Key b)) as Hs.
  { pose proof Ha as [Hopx _]. apply (exec_put_applied kv1 x a Hopx Hx) in Ha. rewrite Hopx. cbn.
    rewrite <-Hk. pose proof (put_applied kv1 a Ha) as Hp. destruct (Put kv1 a) as [kv2 r]. cbn.
    injection Hp as -> _. cbn. rewrite lookup_insert_eq. eauto. }
  assert (drop (S i) xs !! (j - S i)%nat = Some y) as Hy by (rewrite lookup_drop, <-Hj; f_equal; lia).
  rewrite <-(take_drop_middle _ _ _ Hy) in Hr. apply replay_app in Hr as (kv2 & Hr1 & Hy' & _).
  apply (replay_keeps _ _ _ _ Hr1) in Hs as [e He]. rewrite Hop, Hrep in Hy'. cbn in Hy'.
  unfold Put in Hy'. rewrite He in Hy'. by case_decide.
Qed.

Section Invariant.
Context {P : Type} `{!KVClient P}.
Implicit Types s : Sys P.

(** ** The history invariant *)

Record hist_inv s : Prop := {
  hi_replay : replay MakeKVServer (s_execs s) (s_srv s);
  hi_versions : versions_ok (s_srv s) (s_execs s);
  hi_sorted i j x y :
    (i < j)%nat → s_execs s !! i = Some x → s_execs s !! j = Some y → x_time x < x_time y;
  hi_lt x : x ∈ s_execs s → x_call x < x_time x < s_clock s;
  hi_len : len (s_execs s) <= s_clock s;
}.

Lemma hist_inv_same s s' :
  hist_inv s → s_srv s' = s_srv s → s_execs s' = s_execs s →
  s_clock s' = s_clock s + 1 → hist_inv s'.
Proof.
  intros [H1 H2 H3 H4 H5] Hs Hx Hc. split; rewrite ?Hs, ?Hx; try done.
  - intros x Hin. specialize (H4 x Hin). lia.
  - lia.
Qed.

Lemma srv_exec_versions kv xs x :
  versions_ok kv xs → (srv_exec kv (x_op x)).2 = x_rep x → len xs < 2 ^ 64 - 1 →
  versions_ok (srv_exec kv (x_op x)).1 (xs ++ [x]).
Proof.
  intros Hv Hrep Hlen. destruct (x_op x) as [g|a] eqn:Hop; simpl.
  - apply versions_ok_same; [done|]. intros a [Hop' _]. congruence.
  - pose proof (exec_put_applied kv x a Hop) as Hiff. rewrite Hop in Hiff.
    specialize (Hiff Hrep). simpl in *. destruct (Put kv a) as [kv' r] eqn:Hput. simpl.
    change kv' with (kv', r).1. rewrite <-Hput.
    destruct (decide (put_applies kv a)) as [Ha|Ha].
    + apply versions_ok_put; try done. by apply Hiff.
    + rewrite put_rejected by done. simpl. apply versions_ok_same; [done|].
      intros b Hb. assert (b = a) as -> by (destruct Hb; congruence). tauto.
Qed.

(** A handler runs: [x] is what it was asked and what it answered. *)
Lemma hist_inv_run s s' x :
  hist_inv s → x_call x < s_clock s → s_clock s < 2 ^ 64 - 1 → x_time x = s_clock s →
  x_rep x = (srv_exec (s_srv s) (x_op x)).2 → s_srv s' = (srv_exec (s_srv s) (x_op x)).1 →
  s_clock s' = s_clock s + 1 → s_execs s' = s_execs s ++ [x] → hist_inv s'.
Proof.
  intros [H1 H2 H3 H4 H5] Hcall Hclk Ht Hrep Hsrv Hclk' Hx.
  split; rewrite ?Hx, ?Hsrv, ?Hclk'.
  - by apply replay_snoc.
  - by apply (srv_exec_versions _ _ x); [|rewrite Hrep|lia].
  - intros i j y z Hij [[? Hi]|[-> <-]]%lookup_snoc_Some [[? Hj]|[-> <-]]%lookup_snoc_Some;
      [by eapply (H3 i j)| |lia|lia].
    apply list_elem_of_lookup_2, H4 in Hi. simpl. lia.
  - intros y [Hy|Hy]%elem_of_app; [specialize (H4 y Hy); lia|].
    apply list_elem_of_singleton in Hy as ->. lia.
  - unfold len in *. rewrite length_app. simpl. lia.
Qed.

Lemma hist_inv_exec s c p b :
  hist_inv s → b_call b < s_clock s → s_clock s < 2 ^ 64 - 1 → hist_inv (do_exec s c p b).
Proof.
  intros Hh Hcall Hclk. destruct (do_exec_view s c p b) as (H1 & _ & H2 & _ & H3 & _).
  by eapply (hist_inv_run s _ _ Hh); [..|exact H3].
Qed.

Lemma hist_inv_late s q late' :
  hist_inv s → lr_call q < s_clock s → s_clock s < 2 ^ 64 - 1 → hist_inv (do_late s q late').
Proof.
  intros Hh Hcall Hclk. destruct (do_late_view s q late') as (H1 & _ & H2 & _ & H3 & _).
  by eapply (hist_inv_run s _ _ Hh); [..|exact H3].
Qed.
End Invariant.
