(* ===== verification/KvLate.v ===== *)
(** * Requests left running

    A [Call] of [src/src/labrpc/labrpc.go] that returns false does not always mean
    that the request is gone, and the clerk of [src/src/kvsrv1/client.go] sends its
    request again: the old one may reach the server at any later time.  A client
    that [Put]s only at versions its key has had is safe from that: by the time its
    call returns, every request of the call that is still running has lost its
    effect.  The invariant is per key: [K] are the keys whose [Put]s are so. *)
From S2P Require Import Prelude Rpc KvSrv KvModel Clerk KvSys KvHist.

(** ** Versions *)

(** Versions only grow, by one a run. *)
Definition bounded (kv : KVServer) (n : Z) : Prop := ∀ k, 0 <= cur_version kv k <= n.

Lemma exec_bounded kv n op :
  bounded kv n → n < 2 ^ 64 - 1 →
  bounded (srv_exec kv op).1 (n + 1) ∧
  ∀ k, cur_version kv k <= cur_version (srv_exec kv op).1 k.
Proof.
  intros Hb Hn. assert (bounded kv (n + 1)) as Hb' by (intros k; specialize (Hb k); lia).
  destruct op as [g|a]; cbn; [done|]. destruct (Put kv a) as [kv' r] eqn:Hp; cbn.
  destruct (decide (put_applies kv a)) as [Ha|Ha].
  - assert (∀ k, cur_version kv' k = if decide (pa_Key a = k) then cur_version kv k + 1
      else cur_version kv k) as Hcur.
    { intros k. pose proof (cur_version_put kv a k Ha) as Hc. rewrite Hp in Hc. apply Hc.
      specialize (Hb (pa_Key a)). lia. }
    split; intros k; rewrite Hcur; specialize (Hb k); case_decide; lia.
  - rewrite put_rejected in Hp by done. injection Hp as <- _. by split.
Qed.

(** ** Requests that have lost their effect *)

(** [Put] at a version the key has had; at one it has left. *)
Definition due (kv : KVServer) (op : KvOp) : Prop :=
  match op with OpGet _ => True | OpPut a => pa_Version a <= cur_version kv (pa_Key a) end.
Definition spent (kv : KVServer) (op : KvOp) : Prop :=
  match op with OpGet _ => True | OpPut a => pa_Version a < cur_version kv (pa_Key a) end.

Lemma due_mono kv kv' op :
  (∀ k, cur_version kv k <= cur_version kv' k) → due kv op → due kv' op.
Proof. intros Hle. destruct op as [g|a]; cbn; [done|]. specialize (Hle (pa_Key a)). lia. Qed.

Lemma spent_mono kv kv' op :
  (∀ k, cur_version kv k <= cur_version kv' k) → spent kv op → spent kv' op.
Proof. intros Hle. destruct op as [g|a]; cbn; [done|]. specialize (Hle (pa_Key a)). lia. Qed.

Lemma spent_idle kv op : spent kv op → (srv_exec kv op).1 = kv.
Proof.
  destruct op as [g|a]; cbn; [done|]. intros Hlt.
  rewrite put_rejected; [done|]. unfold put_applies. lia.
Qed.

Lemma exec_spent kv n op :
  bounded kv n → n < 2 ^ 64 - 1 → due kv op → spent (srv_exec kv op).1 op.
Proof.
  intros Hb Hn. destruct op as [g|a]; cbn; [done|]. intros Hle.
  destruct (Put kv a) as [kv' r] eqn:Hp. cbn. destruct (decide (put_applies kv a)) as [Ha|Ha].
  - pose proof (cur_version_put kv a (pa_Key a) Ha) as Hc. rewrite Hp, decide_True in Hc by done.
    specialize (Hb (pa_Key a)). cbn in Hc. rewrite Hc; lia.
  - rewrite put_rejected in Hp by done. injection Hp as <- _. unfold put_applies in Ha. lia.
Qed.

Section Late.
Context {P : Type} `{!KVClient P} (K : string → Prop).
Implicit Types s : Sys P.

(** ** The invariant *)

Definition call_due (kv : KVServer) (cl : Client P) : Prop :=
  match c_clerk cl with
  | None => True
  | Some b => K (op_arg_key (b_op b)) → due kv (b_op b) ∧
      match b_net b with InFlight => True | Executed _ _ => spent kv (b_op b) end
  end.

(** The call of a request left running is in flight again. *)
Definition in_flight_again s (q : LateReq) : Prop :=
  ∃ p b, s_clients s !! lr_cid q = Some (MkClient p (Some b)) ∧ b_call b = lr_call q ∧
    b_op b = lr_op q ∧ b_net b = InFlight ∧ b_retried b = true.

Definition late_ok s (q : LateReq) : Prop :=
  K (op_arg_key (lr_op q)) → spent (s_srv s) (lr_op q) ∨ in_flight_again s q.

Record late_inv s : Prop := {
  li_bounded : bounded (s_srv s) (s_clock s);
  li_calls c cl : s_clients s !! c = Some cl → call_due (s_srv s) cl;
  li_late q : q ∈ s_late s → late_ok s q;
}.

(** The [Put]s that a client is about to call. *)
Definition puts_due s : Prop :=
  ∀ c p a, s_clients s !! c = Some (MkClient p None) → next_op p = Some (OpPut a) →
    K (pa_Key a) → due (s_srv s) (OpPut a).

Lemma call_due_mono kv kv' cl :
  (∀ k, cur_version kv k <= cur_version kv' k) → call_due kv cl → call_due kv' cl.
Proof using.
  intros Hle. unfold call_due. destruct (c_clerk cl) as [b|]; [|done]. intros H Hk.
  destruct (H Hk) as [Hd Hs]. split; [by eapply due_mono|].
  destruct (b_net b); [done|]. by eapply spent_mono.
Qed.

Lemma late_inv_init ps : late_inv (init_sys ps).
Proof using.
  split; cbn.
  - intros k. unfold cur_version. cbn. rewrite lookup_empty. cbn. lia.
  - intros c cl. rewrite list_lookup_fmap. by intros (p & _ & ->)%fmap_Some.
  - by intros q ?%elem_of_nil.
Qed.

(** Client [c] moves, and the server may. *)
Lemma late_inv_move s s' c cl' :
  late_inv s → bounded (s_srv s') (s_clock s') →
  (∀ k, cur_version (s_srv s) k <= cur_version (s_srv s') k) →
  s_clients s' = <[c := cl']> (s_clients s) → call_due (s_srv s') cl' →
  (∀ q, q ∈ s_late s' → lr_cid q = c ∨ q ∈ s_late s) →
  (∀ q, q ∈ s_late s' → lr_cid q = c → late_ok s' q) →
  late_inv s'.
Proof using.
  intros [Hb Hc Hl] Hb' Hle Hcl Hcall Hlate Hmine. split; [done| |].
  - rewrite Hcl. intros c' cl0 [(_ & <- & _)|[_ H]]%list_lookup_insert_Some; [done|].
    by eapply call_due_mono, Hc.
  - intros q Hq. destruct (decide (lr_cid q = c)) as [Hqc|Hqc]; [by apply Hmine|].
    destruct (Hlate q Hq) as [?|Hold]; [done|]. intros Hk.
    destruct (Hl q Hold Hk) as [Hsp|(p & b & H & ?)]; [left; by eapply spent_mono|right].
    exists p, b. split; [|done]. rewrite Hcl, list_lookup_insert_ne; [done|congruence].
Qed.

(** A client that waits for no answer has no request with an effect left. *)
Lemma late_spent s s' c p ob q :
  late_inv s → s_clients s !! c = Some (MkClient p ob) →
  (∀ b, ob = Some b → b_net b ≠ InFlight) →
  (∀ k, cur_version (s_srv s) k <= cur_version (s_srv s') k) →
  q ∈ s_late s → lr_cid q = c → late_ok s' q.
Proof using.
  intros Hs Hc Hnot Hle Hq <- Hk. left.
  destruct (li_late _ Hs q Hq Hk) as [Hsp|(p' & b & H & _ & _ & Hn & _)]; [by eapply spent_mono|].
  rewrite Hc in H. injection H as -> ->. by destruct (Hnot b).
Qed.

Lemma late_inv_exec s c p b :
  late_inv s → s_clock s < 2 ^ 63 → s_clients s !! c = Some (MkClient p (Some b)) →
  b_net b = InFlight → late_inv (do_exec s c p b).
Proof using.
  intros Hs Hclk Hc Hnet. pose proof Hs as [Hb Hcl Hl].
  destruct (exec_bounded _ _ (b_op b) Hb ltac:(lia)) as [Hb' Hle].
  destruct (do_exec_view s c p b) as (H1 & H2 & H3 & _ & _ & H6).
  eapply (late_inv_move s _ c); [done|by rewrite H1, H3|by rewrite H1|exact H2|..];
    rewrite ?H1, ?H6.
  - intros Hk. destruct (Hcl c _ Hc Hk) as [Hdue _]. cbn in Hk |- *.
    split; [by eapply due_mono|]. by apply (exec_spent _ (s_clock s)); [|lia|].
  - by right.
  - intros q Hq Hqc Hk. left. rewrite H1. destruct (Hl q Hq Hk) as [H|(p' & b' & H & _ & Ho & _)].
    + by eapply spent_mono.
    + rewrite Hqc, Hc in H. injection H as <- <-. rewrite <-Ho in Hk |- *.
      destruct (Hcl c _ Hc Hk) as [Hdue _]. by apply (exec_spent _ (s_clock s)); [|lia|].
Qed.

Lemma bounded_tick kv n : bounded kv n → bounded kv (n + 1).
Proof using. intros Hb k. specialize (Hb k). lia. Qed.

(** A call fails, whether or not its request is left running. *)
Lemma late_inv_fail s c p b left :
  late_inv s → s_clients s !! c = Some (MkClient p (Some b)) → late_inv (do_fail s c p b left).
Proof using.
  intros Hs Hc. pose proof Hs as [Hb Hcl Hl].
  assert (∀ q, q ∈ (if left then left_over c b else []) → lr_cid q = c ∧ lr_call q = b_call b ∧ lr_op q = b_op b) as Hleft.
  { intros q. destruct left; [|by intros ?%elem_of_nil]. unfold left_over.
    destruct (b_net b); [|by intros ?%elem_of_nil]. by intros ->%list_elem_of_singleton. }
  eapply (late_inv_move s _ c); try done; cbn; [by apply bounded_tick| | |].
  - intros Hk. split; [|done]. by destruct (Hcl c _ Hc Hk).
  - intros q [Hq|Hq]%elem_of_app; [by right|left]. by apply Hleft.
  - intros q Hq Hqc Hk. unfold in_flight_again. cbn. rewrite Hqc.
    assert (spent (s_srv s) (lr_op q) ∨ lr_call q = b_call b ∧ lr_op q = b_op b)
      as [?|[Hcall Hop]]; [|by left|right].
    { apply elem_of_app in Hq as [Hq|Hq]; [|right; by apply Hleft].
      destruct (Hl q Hq Hk) as [?|(p' & b' & H & Hca & Ho & _)]; [by left|right].
      rewrite Hqc, Hc in H. by injection H as <- <-. }
    eexists _, _. rewrite list_lookup_insert_eq; [done|by eapply lookup_lt_Some].
Qed.

Lemma late_inv_late s q l1 l2 :
  late_inv s → s_clock s < 2 ^ 63 → s_late s = l1 ++ q :: l2 → late_inv (do_late s q (l1 ++ l2)).
Proof using.
  intros [Hb Hcl Hl] Hclk Hlate. destruct (exec_bounded _ _ (lr_op q) Hb ltac:(lia)) as [Hb' Hle].
  destruct (do_late_view s q (l1 ++ l2)) as (H1 & H2 & H3 & _ & _ & H6).
  split; rewrite ?H1, ?H2, ?H3, ?H6; [done| |].
  - intros c cl Hc. by eapply call_due_mono, Hcl.
  - intros x Hx Hk. unfold in_flight_again. rewrite H1, H2.
    destruct (Hl x ltac:(rewrite Hlate; set_solver) Hk) as [Hsp|H]; [left; by eapply spent_mono|by right].
Qed.

Lemma late_inv_step s s' :
  late_inv s → s_clock s < 2 ^ 63 → puts_due s → step s s' → late_inv s'.
Proof using.
  intros Hs Hclk Hput Hstep. pose proof (li_bounded _ Hs) as Hb. pose proof (bounded_tick _ _ Hb) as Hb'.
  destruct Hstep as [c p p' Hc Hloc|c p op Hc Hop|c p b Hc Hnet|c p b left Hc|
    c p b r t res Hc Hnet Hit|q l1 l2 Hq].
  - eapply (late_inv_move s _ c); try done; [by right|]. intros q Hq Hqc.
    eapply (late_spent s); try done; by intros.
  - eapply (late_inv_move s _ c); try done; [|by right|].
    + intros Hk. split; cbn; [|done]. destruct op as [g|a]; [done|]. by eapply Hput.
    + intros q Hq Hqc. eapply (late_spent s); try done; by intros.
  - by apply late_inv_exec.
  - by apply late_inv_fail.
  - eapply (late_inv_move s _ c); try done; [by right|]. intros q Hq Hqc.
    eapply (late_spent s); try done. intros b' [= <-]. congruence.
  - by apply late_inv_late.
Qed.

(** What a request left running can do to the keys of [K]: nothing, or what its
    call, which is in flight again, would do now. *)
Lemma late_effect s q l1 l2 :
  late_inv s → s_late s = l1 ++ q :: l2 → K (op_arg_key (lr_op q)) →
  (srv_exec (s_srv s) (lr_op q)).1 = s_srv s ∨ in_flight_again s q.
Proof using.
  intros Hs Hlate Hk. destruct (li_late _ Hs q ltac:(rewrite Hlate; set_solver) Hk) as [Hsp|?];
    [left; by apply spent_idle|by right].
Qed.

(** Its client afterwards: the call waits for a request that has not run. *)
Lemma again_client s q :
  in_flight_again s q →
  ∃ p b, s_clients s !! lr_cid q = Some (MkClient p (Some b)) ∧ b_op b = lr_op q ∧
    b_net b = InFlight ∧ b_retried b = true.
Proof using.
  intros (p & b & Hc & _ & ?). by exists p, b.
Qed.
End Late.
