(* ===== verification/KvProof.v ===== *)
(** * The invariants of the key/value system

    Every logged operation can be marked on one execution of the handler: one
    whose answer it was given, or, for a [Put] that the clerk answered [ErrMaybe]
    or [ErrNoKey], one that applied it later, for a request that the network had
    left running.  From this follow the properties of the service: which orders
    explain the log, at most one applied [Put] per key and version, and what each
    error of the clerk means. *)
From S2P Require Import Prelude Rpc KvSrv KvModel Clerk KvSys KvHist.

(** ** Marks

    A mark pairs a handler execution with the logged operation whose
    linearization point it is, if any. *)
Abbreviation Mark := (Exec * option Operation)%type.

Definition rep_ok (r : KvRep) (out : KvOutput) : Prop :=
  match r with
  | RepGet g => out = get_output g
  | RepPut p => put_err_ok (pr_Err p) (ko_Err out)
  end.

#[export] Instance rep_ok_dec r out : Decision (rep_ok r out).
Proof. destruct r; cbn; apply _. Defined.

(** [x] ran for the call that [o] logs. *)
Definition ran_for (x : Exec) (o : Operation) : Prop :=
  op_Input o = op_input (x_op x) ∧ op_ClientId o = x_cid x ∧
  op_Call o = x_call x ∧ x_call x < x_time x.

(** ... and [o] was answered accordingly. *)
Definition mark_ok (x : Exec) (o : Operation) : Prop :=
  ran_for x o ∧ x_time x < op_Return o ∧ rep_ok (x_rep x) (op_Output o).

(** ... and took effect although [o] was answered otherwise: once the clerk had
    answered [ErrMaybe], or although it answered [ErrNoKey]. *)
Definition too_late (x : Exec) (o : Operation) : Prop :=
  (∃ a, applied_put x a) ∧
  (ko_Err (op_Output o) = ErrMaybe ∧ op_Return o < x_time x ∨ ko_Err (op_Output o) = ErrNoKey).

Definition marked (x : Exec) (o : Operation) : Prop :=
  mark_ok x o ∨ ran_for x o ∧ too_late x o.

Lemma marked_ran x o : marked x o → ran_for x o.
Proof. by intros [[? _]|[? _]]. Qed.

Lemma marked_call x o : marked x o → op_Call o = x_call x.
Proof. by intros (_ & _ & ? & _)%marked_ran. Qed.

Section Invariant.
Context {P : Type} `{!KVClient P}.
Implicit Types s : Sys P.
Implicit Types ms : list Mark.

(** ** The log and its marks *)

Record log_inv s ms : Prop := {
  li_execs : ms.*1 = s_execs s;
  li_done i x o : ms !! i = Some (x, Some o) → marked x o;
  li_once i j x y o o' :
    ms !! i = Some (x, Some o) → ms !! j = Some (y, Some o') → x_call x = x_call y → i = j;
  li_log : omap snd ms ≡ₚ s_oplog s;
  li_past o : o ∈ s_oplog s → op_Return o < s_clock s;
  li_answer o : o ∈ s_oplog s → ∃ x, x ∈ s_execs s ∧ mark_ok x o;
}.

Lemma mark_exec s ms i x m :
  log_inv s ms → ms !! i = Some (x, m) → s_execs s !! i = Some x.
Proof. intros [<- _ _ _ _ _] H. by rewrite list_lookup_fmap, H. Qed.

Lemma mark_lt s ms i x m :
  hist_inv s → log_inv s ms → ms !! i = Some (x, m) → x_call x < x_time x < s_clock s.
Proof.
  intros Hh Hm Hi. apply (hi_lt _ Hh). eapply list_elem_of_lookup_2.
  by eapply mark_exec.
Qed.

(** A logged operation has its mark. *)
Lemma log_mark s ms o :
  log_inv s ms → o ∈ s_oplog s → ∃ i x, ms !! i = Some (x, Some o) ∧ marked x o.
Proof.
  intros Hm Ho. rewrite <-(li_log _ _ Hm) in Ho.
  apply list_elem_of_omap in Ho as ([x o'] & [i Hi]%list_elem_of_lookup & Hsnd).
  simpl in Hsnd. subst o'. exists i, x. split; [done|]. by eapply li_done.
Qed.

Lemma log_inv_same s s' ms :
  log_inv s ms → s_execs s' = s_execs s → s_oplog s' = s_oplog s → s_clock s <= s_clock s' →
  log_inv s' ms.
Proof.
  intros [H1 H2 H3 H4 H5 H6] Hx Ho Hc. split; rewrite ?Hx, ?Ho; try done.
  intros o Hin. specialize (H5 o Hin). lia.
Qed.

(** The handler runs, for no operation of the log. *)
Lemma log_inv_run s s' ms x :
  log_inv s ms → s_execs s' = s_execs s ++ [x] → s_oplog s' = s_oplog s →
  s_clock s <= s_clock s' → log_inv s' (ms ++ [(x, None)]).
Proof.
  intros [H1 H2 H3 H4 H5 H6] Hx Ho Hc. split; rewrite ?Hx, ?Ho.
  - by rewrite fmap_app, H1.
  - intros i y o [[_ Hi]|[_ ?]]%lookup_snoc_Some; [by eapply H2|done].
  - intros i j y z o o' [[_ Hi]|[_ ?]]%lookup_snoc_Some; [|done].
    intros [[_ Hj]|[_ ?]]%lookup_snoc_Some; [by eapply H3|done].
  - by rewrite omap_app, app_nil_r.
  - intros o Hin. specialize (H5 o Hin). lia.
  - intros o Hin. destruct (H6 o Hin) as (y & Hy & ?). exists y. split; [|done].
    apply elem_of_app. by left.
Qed.

Lemma omap_remove {A B} (f : A → option B) (l : list A) i x y b :
  l !! i = Some x → f x = Some b → f y = None → b :: omap f (<[i := y]> l) ≡ₚ omap f l.
Proof.
  intros Hi Hx Hy. rewrite <-(omap_insert_fresh f (<[i := y]> l) i y x b).
  - by rewrite list_insert_insert_eq, list_insert_id.
  - apply list_lookup_insert_eq. by eapply lookup_lt_Some.
  - done.
  - done.
Qed.

(** The handler runs for a logged operation, whose mark moves there. *)
Lemma log_inv_move s s' ms i x y o :
  log_inv s ms → ms !! i = Some (y, Some o) → marked x o →
  s_execs s' = s_execs s ++ [x] → s_oplog s' = s_oplog s → s_clock s <= s_clock s' →
  log_inv s' (<[i := (y, None)]> ms ++ [(x, Some o)]).
Proof.
  intros [H1 H2 H3 H4 H5 H6] Hi Hxo Hx Ho Hc.
  pose proof (marked_call _ _ Hxo) as Hcx. pose proof (marked_call _ _ (H2 _ _ _ Hi)) as Hcy.
  assert (∀ j z o', (<[i := (y, None)]> ms ++ [(x, Some o)]) !! j = Some (z, Some o') →
    (j ≠ i ∧ ms !! j = Some (z, Some o')) ∨ (j = length ms ∧ z = x ∧ o' = o)) as Hcase.
  { intros j z o' [[_ Hj]|[-> [= <- <-]]]%lookup_snoc_Some.
    - left. rewrite list_lookup_insert_Some in Hj. naive_solver.
    - right. by rewrite length_insert. }
  split; rewrite ?Hx, ?Ho.
  - rewrite fmap_app, list_fmap_insert, H1, list_insert_id; [done|].
    by rewrite <-H1, list_lookup_fmap, Hi.
  - intros j z o' [[_ Hj]|(_ & -> & ->)]%Hcase; [by eapply H2|done].
  - intros j k z w o1 o2 [[Hji Hj]|(-> & -> & ->)]%Hcase [[Hki Hk]|(-> & -> & ->)]%Hcase Hzw;
      [by eapply H3| | |done].
    + destruct Hji. eapply H3; [exact Hj|exact Hi|congruence].
    + destruct Hki. eapply H3; [exact Hk|exact Hi|congruence].
  - rewrite omap_app. simpl. rewrite <-Permutation_cons_append.
    rewrite (omap_remove snd ms i (y, Some o) (y, None) o) by done. done.
  - intros o' Hin. specialize (H5 o' Hin). lia.
  - intros o' Hin. destruct (H6 o' Hin) as (z & Hz & ?). exists z. split; [|done].
    apply elem_of_app. by left.
Qed.

(** An operation is logged, and marked on an execution that has run. *)
Lemma log_inv_mark s s' ms i x o :
  log_inv s ms → ms !! i = Some (x, None) → marked x o →
  (∀ j y o', ms !! j = Some (y, Some o') → x_call y ≠ x_call x) →
  (∃ y, y ∈ s_execs s ∧ mark_ok y o) → op_Return o = s_clock s →
  s_execs s' = s_execs s → s_oplog s' = s_oplog s ++ [o] → s_clock s' = s_clock s + 1 →
  log_inv s' (<[i := (x, Some o)]> ms).
Proof.
  intros [H1 H2 H3 H4 H5 H6] Hi Hxo Hnew Hans Hret Hx Ho Hc. split; rewrite ?Hx, ?Ho, ?Hc.
  - rewrite list_fmap_insert, H1. apply list_insert_id. by rewrite <-H1, list_lookup_fmap, Hi.
  - intros j y o' [(<- & [= <- <-] & _)|[_ Hj]]%list_lookup_insert_Some; [done|by eapply H2].
  - intros j k y z o1 o2. rewrite !list_lookup_insert_Some.
    intros [(<- & [= <- <-] & _)|[_ Hj]] [(<- & [= <- <-] & _)|[_ Hk]] Hcall;
      [done| | |by eapply H3].
    + by destruct (Hnew k z o2).
    + by destruct (Hnew j y o1).
  - rewrite (omap_insert_fresh snd ms i (x, None) (x, Some o) o), H4 by done.
    apply Permutation_cons_append.
  - intros o' [Hin| ->%list_elem_of_singleton]%elem_of_app; [specialize (H5 o' Hin)|]; lia.
  - intros o' [Hin| ->%list_elem_of_singleton]%elem_of_app; [by apply H6|done].
Qed.

(** ** The calls in progress and the requests left running *)

Definition net_ok ms (b : Busy) : Prop :=
  match b_net b with
  | InFlight =>
      b_retried b = false → ∀ i x m, ms !! i = Some (x, m) → x_call x ≠ b_call b
  | Executed r t =>
      ∃ i x, ms !! i = Some (x, None) ∧ x_call x = b_call b ∧ x_rep x = r ∧
        (b_retried b = false →
           ∀ j y m, ms !! j = Some (y, m) → x_call y = b_call b → j = i)
  end.

Definition busy_ok s ms (c : nat) (b : Busy) : Prop :=
  b_call b < s_clock s ∧
  (∀ i x m, ms !! i = Some (x, m) → x_call x = b_call b →
     m = None ∧ x_op x = b_op b ∧ x_cid x = c) ∧
  net_ok ms b.

(** The call of a request left running has been tried again, or has returned. *)
Definition retrying s (q : LateReq) (p : P) (b : Busy) : Prop :=
  s_clients s !! lr_cid q = Some (MkClient p (Some b)) ∧
  b_call b = lr_call q ∧ b_op b = lr_op q ∧ b_retried b = true.

Definition logged s (q : LateReq) (o : Operation) : Prop :=
  o ∈ s_oplog s ∧ op_Call o = lr_call q ∧ op_Input o = op_input (lr_op q) ∧
  op_ClientId o = lr_cid q ∧ ∀ a, lr_op q = OpPut a → ko_Err (op_Output o) ≠ ErrVersion.

Record calls_inv s ms : Prop := {
  ci_pending i x a :
    ms !! i = Some (x, None) → applied_put x a →
    ∃ c p b, s_clients s !! c = Some (MkClient p (Some b)) ∧ b_call b = x_call x;
  ci_busy c p b : s_clients s !! c = Some (MkClient p (Some b)) → busy_ok s ms c b;
  ci_uniq c1 c2 p1 p2 b1 b2 :
    s_clients s !! c1 = Some (MkClient p1 (Some b1)) →
    s_clients s !! c2 = Some (MkClient p2 (Some b2)) → b_call b1 = b_call b2 → c1 = c2;
  ci_late q : q ∈ s_late s → (∃ p b, retrying s q p b) ∨ ∃ o, logged s q o;
}.

Definition mark_inv s ms : Prop := log_inv s ms ∧ calls_inv s ms.

(** [busy_ok] only looks at the marks of its own call. *)
Definition same_marks ms ms' (t : Z) : Prop :=
  ∀ i x m, x_call x = t → ms !! i = Some (x, m) ↔ ms' !! i = Some (x, m).

Lemma busy_ok_frame s s' ms ms' c b :
  busy_ok s ms c b → same_marks ms ms' (b_call b) → s_clock s <= s_clock s' →
  busy_ok s' ms' c b.
Proof.
  intros (Hlt & Hops & Hnet) Hsame Hclk. split_and!; [lia| |].
  - intros i x m Hi Hx. eapply Hops; [|done]. by apply Hsame.
  - unfold net_ok in *. destruct (b_net b) as [|r t].
    + intros Hr i x m Hi Hx. eapply (Hnet Hr); [|done]. by apply Hsame.
    + destruct Hnet as (i & x & Hi & Hx & Hrep & Huniq).
      exists i, x. split_and!; try done; [by apply Hsame|].
      intros Hret j y m Hj Hy. eapply (Huniq Hret); [|done]. by apply Hsame.
Qed.

Lemma same_marks_refl ms t : same_marks ms ms t.
Proof. done. Qed.

Lemma same_marks_app ms x m t : x_call x ≠ t → same_marks ms (ms ++ [(x, m)]) t.
Proof.
  intros Hx i y m' Hy. rewrite lookup_app_Some, list_lookup_singleton_Some.
  naive_solver.
Qed.

Lemma same_marks_insert ms i x m m' t :
  ms !! i = Some (x, m) → x_call x ≠ t → same_marks ms (<[i := (x, m')]> ms) t.
Proof.
  intros Hi Hx j y n Hy. rewrite list_lookup_insert_Some.
  destruct (decide (i = j)) as [<-|]; [|naive_solver].
  rewrite Hi. naive_solver.
Qed.

Lemma same_marks_trans ms1 ms2 ms3 t :
  same_marks ms1 ms2 t → same_marks ms2 ms3 t → same_marks ms1 ms3 t.
Proof. intros H1 H2 i x m Hx. rewrite (H1 i x m Hx). by apply H2. Qed.

Lemma client_upd (cls : list (Client P)) c cl c' cl' :
  <[c := cl]> cls !! c' = Some cl' →
  (c' = c ∧ cl' = cl) ∨ (c' ≠ c ∧ cls !! c' = Some cl').
Proof. rewrite list_lookup_insert_Some. naive_solver. Qed.

Lemma client_upd_ne (cls : list (Client P)) c cl c' cl' :
  c' ≠ c → cls !! c' = Some cl' → <[c := cl]> cls !! c' = Some cl'.
Proof. intros. by rewrite list_lookup_insert_ne. Qed.

Lemma client_upd_eq (cls : list (Client P)) c cl cl0 :
  cls !! c = Some cl0 → <[c := cl]> cls !! c = Some cl.
Proof. intros H. apply list_lookup_insert_eq. by eapply lookup_lt_Some. Qed.

(** A logged call is not in progress. *)
Lemma logged_idle s ms o c p b :
  mark_inv s ms → o ∈ s_oplog s → s_clients s !! c = Some (MkClient p (Some b)) →
  op_Call o ≠ b_call b.
Proof.
  intros [Hl Hc] Ho Hcl Hcall. destruct (log_mark _ _ _ Hl Ho) as (i & x & Hi & Hx%marked_call).
  destruct (ci_busy _ _ Hc c p b Hcl) as (_ & Hops & _).
  destruct (Hops i x (Some o) Hi) as [? _]; [congruence|done].
Qed.

(** Client [c] changes its clerk without a handler running or a method
    returning. *)
Lemma calls_inv_client s s' ms c cl :
  calls_inv s ms → s_clients s' = <[c := cl]> (s_clients s) → s_oplog s' = s_oplog s →
  s_clock s <= s_clock s' →
  (∀ p b, s_clients s !! c = Some (MkClient p (Some b)) →
     ∃ p' b', cl = MkClient p' (Some b') ∧ b_call b' = b_call b ∧ b_op b' = b_op b ∧
       (b_retried b = true → b_retried b' = true)) →
  (∀ p' b', cl = MkClient p' (Some b') → busy_ok s' ms c b' ∧
     ∀ c' p b, c' ≠ c → s_clients s !! c' = Some (MkClient p (Some b)) →
       b_call b ≠ b_call b') →
  (∀ q, q ∈ s_late s' → q ∈ s_late s ∨ ∃ p b, retrying s' q p b) →
  calls_inv s' ms.
Proof.
  intros [Hp Hb Hu Hq] Hcls Ho Hclk Hkeep Hnew Hlate. split.
  - intros i x a Hi Ha. destruct (Hp i x a Hi Ha) as (c' & p & b & Hc' & Hcall).
    rewrite Hcls. destruct (decide (c' = c)) as [->|Hne].
    + destruct (Hkeep p b Hc') as (p' & b' & -> & Hcall' & _).
      exists c, p', b'. split; [by eapply client_upd_eq|congruence].
    + exists c', p, b. split; [by apply client_upd_ne|done].
  - intros c' p b. rewrite Hcls. intros [[-> <-]|[Hne Hc']]%client_upd.
    + by eapply Hnew.
    + eapply busy_ok_frame; [by eapply Hb|apply same_marks_refl|done].
  - intros c1 c2 p1 p2 b1 b2. rewrite Hcls.
    intros [[-> <-]|[Hne1 Hc1]]%client_upd [[-> ?]|[Hne2 Hc2]]%client_upd Hcall.
    + done.
    + destruct (Hnew p1 b1) as [_ Hd']; [done|]. by destruct (Hd' c2 p2 b2).
    + destruct (Hnew p2 b2) as [_ Hd']; [done|]. by destruct (Hd' c1 p1 b1).
    + by eapply Hu.
  - intros q [Hin|?]%Hlate; [|by left].
    destruct (Hq q Hin) as [(p & b & Hc & Hcall & Hop & Hr)|(o & Hlog)]; [left|right].
    + unfold retrying. rewrite Hcls. destruct (decide (lr_cid q = c)) as [<-|Hne].
      * destruct (Hkeep p b Hc) as (p' & b' & -> & ? & ? & ?). exists p', b'.
        split_and!; [by eapply client_upd_eq|congruence|congruence|auto].
      * exists p, b. split_and!; try done. by apply client_upd_ne.
    + exists o. unfold logged in *. by rewrite Ho.
Qed.

Lemma mark_inv_client s s' ms c cl :
  mark_inv s ms → s_execs s' = s_execs s →
  s_clients s' = <[c := cl]> (s_clients s) → s_oplog s' = s_oplog s → s_clock s <= s_clock s' →
  (∀ p b, s_clients s !! c = Some (MkClient p (Some b)) →
     ∃ p' b', cl = MkClient p' (Some b') ∧ b_call b' = b_call b ∧ b_op b' = b_op b ∧
       (b_retried b = true → b_retried b' = true)) →
  (∀ p' b', cl = MkClient p' (Some b') → busy_ok s' ms c b' ∧
     ∀ c' p b, c' ≠ c → s_clients s !! c' = Some (MkClient p (Some b)) →
       b_call b ≠ b_call b') →
  (∀ q, q ∈ s_late s' → q ∈ s_late s ∨ ∃ p b, retrying s' q p b) →
  mark_inv s' ms.
Proof.
  intros [Hl Hc] ???????. split; [by eapply log_inv_same|]. by eapply calls_inv_client.
Qed.

Lemma mark_inv_local s ms c p p' :
  mark_inv s ms → s_clients s !! c = Some (MkClient p None) → mark_inv (do_local s c p') ms.
Proof.
  intros Hm Hc. eapply (mark_inv_client s _ ms c); try done; simpl; [lia| |by left].
  intros q b Hq. congruence.
Qed.

Lemma mark_inv_invoke s ms c p op :
  hist_inv s → mark_inv s ms → s_clients s !! c = Some (MkClient p None) →
  mark_inv (do_invoke s c p op) ms.
Proof.
  intros Hh Hm Hc.
  assert (∀ i x m, ms !! i = Some (x, m) → x_call x ≠ s_clock s) as Hfresh.
  { intros i x m Hi. pose proof (mark_lt _ _ _ _ _ Hh (proj1 Hm) Hi). lia. }
  eapply (mark_inv_client s _ ms c); try done; simpl; [lia| | |by left].
  - intros q b Hq. congruence.
  - intros q b [= -> <-]. split.
    + split_and!; simpl; [lia| |].
      * intros i x m Hi Hx. by destruct (Hfresh i x m).
      * unfold net_ok. simpl. intros _ i x m Hi. by eapply Hfresh.
    + intros c' q' b' Hne Hc'. destruct (ci_busy _ _ (proj2 Hm) c' q' b' Hc') as [Hlt _].
      simpl. lia.
Qed.

Lemma left_over_spec c b q :
  q ∈ left_over c b → lr_cid q = c ∧ lr_call q = b_call b ∧ lr_op q = b_op b.
Proof.
  unfold left_over. destruct (b_net b); [|by intros ?%elem_of_nil].
  by intros ->%list_elem_of_singleton.
Qed.

Lemma mark_inv_fail s ms c p b left :
  mark_inv s ms → s_clients s !! c = Some (MkClient p (Some b)) →
  mark_inv (do_fail s c p b left) ms.
Proof.
  intros Hm Hc. destruct (ci_busy _ _ (proj2 Hm) c p b Hc) as (Hlt & Hops & _).
  eapply (mark_inv_client s _ ms c); try done; simpl; [lia| | |].
  - intros q b' Hq. simplify_eq. by eauto 10.
  - intros q b' [= -> <-]. split.
    + by split_and!; simpl; [lia| |].
    + intros c' q' b' Hne Hc' Hcall. destruct Hne. by eapply (ci_uniq _ _ (proj2 Hm)).
  - intros q [?|Hq]%elem_of_app; [by left|right].
    destruct left; [|by apply elem_of_nil in Hq].
    apply left_over_spec in Hq as (H1 & H2 & H3). eexists _, _. unfold retrying. cbn. rewrite H1.
    split; [by eapply client_upd_eq|done].
Qed.

(** A handler runs for the call of client [c]. *)
Lemma calls_inv_exec s ms c p b :
  mark_inv s ms → s_clients s !! c = Some (MkClient p (Some b)) → b_net b = InFlight →
  calls_inv (do_exec s c p b) (ms ++ [(MkExec c (b_call b) (b_op b) (s_clock s)
    (srv_exec (s_srv s) (b_op b)).2, None)]).
Proof.
  intros [_ [Hp Hb Hu Hq]] Hc Hnet. destruct (Hb c p b Hc) as (Hlt & Hops & Hfly).
  unfold net_ok in Hfly. rewrite Hnet in Hfly. set (x := MkExec _ _ _ _ _).
  destruct (do_exec_view s c p b) as (_ & Hcls & Hclk & Ho & _ & Hlate).
  set (cl := MkClient p _) in Hcls. split; rewrite ?Hcls, ?Hlate.
  - intros i y a [[_ Hi]|[_ [= <-]]]%lookup_snoc_Some Ha.
    + destruct (Hp i y a Hi Ha) as (c' & q & b' & Hc' & Hcall).
      destruct (decide (c' = c)) as [->|Hne].
      * simplify_eq. eexists c, p, _. split; [by eapply client_upd_eq|done].
      * exists c', q, b'. split; [by apply client_upd_ne|done].
    + eexists c, p, _. split; [by eapply client_upd_eq|done].
  - intros c' q b' [[-> [= -> ->]]|[Hne Hc']]%client_upd.
    + split_and!; simpl; [lia| |].
      * intros i y m [[_ Hi]|[_ [= <- <-]]]%lookup_snoc_Some Hy; [by eapply Hops|done].
      * unfold net_ok. simpl. exists (length ms), x. rewrite lookup_snoc_Some. split_and!; auto.
        intros Hret j y m [[_ Hj]|[-> _]]%lookup_snoc_Some Hy; [|done].
        by destruct (Hfly Hret j y m).
    + eapply busy_ok_frame; [by eapply Hb| |lia].
      apply same_marks_app. simpl. intros Hcall. destruct Hne. by eapply Hu.
  - intros c1 c2 p1 p2 b1 b2.
    intros [[-> [= -> ->]]|[Hne1 Hc1]]%client_upd [[-> [= -> ->]]|[Hne2 Hc2]]%client_upd;
      simpl; intros Hcall; [done|..].
    + by eapply (Hu c c2).
    + by eapply (Hu c1 c).
    + by eapply Hu.
  - intros q Hin. destruct (Hq q Hin) as [(p' & b' & Hc' & Hrest)|(o & Hlog)]; [left|right].
    + unfold retrying. rewrite Hcls. destruct (decide (lr_cid q = c)) as [Heq|Hne].
      * rewrite Heq, Hc in Hc'. injection Hc' as <- <-. eexists _, _. rewrite Heq.
        split; [by eapply client_upd_eq|done].
      * exists p', b'. split; [by apply client_upd_ne|done].
    + exists o. unfold logged in *. by rewrite Ho.
Qed.

Lemma mark_inv_exec s ms c p b :
  mark_inv s ms → s_clients s !! c = Some (MkClient p (Some b)) → b_net b = InFlight →
  ∃ ms', mark_inv (do_exec s c p b) ms'.
Proof.
  intros Hm Hc Hnet. eexists. split; [|by apply calls_inv_exec].
  destruct (do_exec_view s c p b) as (_ & _ & Hclk & Ho & Hx & _).
  eapply log_inv_run; [apply Hm|exact Hx|done|lia].
Qed.

(** ** A request that was left running runs *)

Definition late_exec s (q : LateReq) : Exec :=
  MkExec (lr_cid q) (lr_call q) (lr_op q) (s_clock s) (srv_exec (s_srv s) (lr_op q)).2.

(** No client changes; the marks of the calls in progress do not, or only by
    executions of the call itself. *)
Lemma calls_inv_late s ms ms' q l1 l2 :
  calls_inv s ms → s_late s = l1 ++ q :: l2 →
  (∀ c p b, s_clients s !! c = Some (MkClient p (Some b)) →
     busy_ok (do_late s q (l1 ++ l2)) ms' c b) →
  (∀ i x a, ms' !! i = Some (x, None) → applied_put x a →
     (∃ j, ms !! j = Some (x, None)) ∨
     ∃ c p b, s_clients s !! c = Some (MkClient p (Some b)) ∧ b_call b = x_call x) →
  calls_inv (do_late s q (l1 ++ l2)) ms'.
Proof.
  intros [Hp Hb Hu Hq] Hlate Hbusy Hpend.
  destruct (do_late_view s q (l1 ++ l2)) as (_ & Hcls & Hclk & Ho & _ & Hlate').
  split; rewrite ?Hcls, ?Hlate'; [|done|done|].
  - intros i x a Hi Ha. destruct (Hpend i x a Hi Ha) as [[j Hj]|?]; [by eapply Hp|done].
  - intros q' Hq'. assert (q' ∈ s_late s) as Hin by (rewrite Hlate; set_solver).
    destruct (Hq q' Hin) as [(p & b & Hr)|(o & Hlog)]; [left|right].
    + exists p, b. unfold retrying in *. by rewrite Hcls.
    + exists o. unfold logged in *. by rewrite Ho.
Qed.

(** Its call is still in progress. *)
Lemma mark_inv_late_retrying s ms q l1 l2 p b :
  mark_inv s ms → s_late s = l1 ++ q :: l2 → retrying s q p b →
  mark_inv (do_late s q (l1 ++ l2)) (ms ++ [(late_exec s q, None)]).
Proof.
  intros [Hl Hc] Hlate (Hcl & Hcall & Hop & Hret).
  destruct (do_late_view s q (l1 ++ l2)) as (_ & _ & Hclk & Ho & Hx & _).
  split; [eapply log_inv_run; [exact Hl|exact Hx|done|lia]|]. apply (calls_inv_late s ms); [done|done| |].
  - intros c' p' b' Hc'. destruct (decide (c' = lr_cid q)) as [->|Hne].
    + rewrite Hcl in Hc'. injection Hc' as <- <-.
      destruct (ci_busy _ _ Hc _ _ _ Hcl) as (Hlt & Hops & Hnet). split_and!; [lia| |].
      * intros i y m [[_ Hi]|[_ [= <- <-]]]%lookup_snoc_Some Hy; [by eapply Hops|done].
      * unfold net_ok in *. destruct (b_net b) as [|r t]; [congruence|].
        destruct Hnet as (i & y & Hi & Hy & Hrep & _). exists i, y.
        split_and!; [apply lookup_app_l_Some, Hi|done|done|congruence].
    + eapply busy_ok_frame; [by eapply (ci_busy _ _ Hc)| |lia]. apply same_marks_app. cbn.
      intros Heq. apply Hne. eapply (ci_uniq _ _ Hc); [done|done|congruence].
  - intros i y a [[_ Hi]|[_ [= <-]]]%lookup_snoc_Some _; [left; by exists i|right].
    exists (lr_cid q), p, b. by split.
Qed.

(** A call that has returned is not touched by those in progress. *)
Lemma logged_busy s ms q o c p b :
  mark_inv s ms → logged s q o → s_clients s !! c = Some (MkClient p (Some b)) →
  lr_call q ≠ b_call b.
Proof.
  intros Hm (Ho & Hcall & _) Hcl. rewrite <-Hcall. by eapply logged_idle.
Qed.

(** It does nothing. *)
Lemma mark_inv_late_idle s ms q o l1 l2 :
  mark_inv s ms → s_late s = l1 ++ q :: l2 → logged s q o →
  (∀ a, ¬ applied_put (late_exec s q) a) →
  mark_inv (do_late s q (l1 ++ l2)) (ms ++ [(late_exec s q, None)]).
Proof.
  intros Hm Hlate Hlog Hna. pose proof Hm as [Hl Hc].
  destruct (do_late_view s q (l1 ++ l2)) as (_ & _ & Hclk & Ho & Hx & _).
  split; [eapply log_inv_run; [exact Hl|exact Hx|done|lia]|]. apply (calls_inv_late s ms); [done|done| |].
  - intros c p b Hcl. eapply busy_ok_frame; [by eapply (ci_busy _ _ Hc)| |lia].
    apply same_marks_app. by eapply logged_busy.
  - intros i y a [[_ Hi]|[_ [= <-]]]%lookup_snoc_Some Ha; [left; by exists i|]. by destruct (Hna a).
Qed.

Lemma op_input_inj op op' : op_input op = op_input op' → op = op'.
Proof. destruct op as [[]|[]], op' as [[]|[]]; cbn; congruence. Qed.

Lemma applied_dec x : (∃ a, applied_put x a) ∨ ∀ a, ¬ applied_put x a.
Proof.
  unfold applied_put. destruct (x_op x) as [g|a]; [by right; intros a [? _]|].
  destruct (decide (x_rep x = RepPut (MkPutReply OK))) as [->|Hn]; [left; by exists a|].
  right. by intros a' [_ ?].
Qed.

Lemma replay_rep kv xs kv' x :
  replay kv xs kv' → x ∈ xs → ∃ kv1, (srv_exec kv1 (x_op x)).2 = x_rep x.
Proof.
  revert kv. induction xs as [|y xs IH]; intros kv; simpl; [by intros _ ?%elem_of_nil|].
  intros [Hy Hxs] [->|Hin]%elem_of_cons; [by exists kv|by eapply IH].
Qed.

Lemma put_reply_cases kv a :
  (Put kv a).2 = MkPutReply OK ∨ (Put kv a).2 = MkPutReply ErrVersion ∨
  (Put kv a).2 = MkPutReply ErrNoKey.
Proof.
  destruct (decide (put_applies kv a)).
  - left. by rewrite put_applied.
  - right. rewrite put_rejected by done. simpl. destruct (store kv !! _); auto.
Qed.

(** What a run of [Put] answered. *)
Lemma run_put_rep s x a :
  hist_inv s → x ∈ s_execs s → x_op x = OpPut a →
  x_rep x = RepPut (MkPutReply OK) ∨ x_rep x = RepPut (MkPutReply ErrVersion) ∨
  x_rep x = RepPut (MkPutReply ErrNoKey).
Proof.
  intros Hh Hx Hop. destruct (replay_rep _ _ _ x (hi_replay _ Hh) Hx) as [kv1 Hrep].
  rewrite Hop in Hrep. cbn in Hrep. pose proof (put_reply_cases kv1 a) as Hcases.
  destruct (Put kv1 a) as [kv2 r]. cbn in *. rewrite <-Hrep.
  destruct Hcases as [-> |[-> | ->]]; auto.
Qed.

(** A [Put] that applies now has not been applied. *)
Lemma late_applied_fresh s q a y :
  hist_inv s → applied_put (late_exec s q) a → y ∈ s_execs s → ¬ applied_put y a.
Proof.
  intros Hh Ha Hy Hya. destruct (vo_applied _ _ (hi_versions _ Hh) y a Hy Hya) as [_ Hlt].
  pose proof Ha as [Hop _]. apply (exec_put_applied (s_srv s) (late_exec s q) a Hop eq_refl) in Ha.
  unfold put_applies in Ha. lia.
Qed.

(** The answer its call was given leaves room for it. *)
Lemma late_too_late s ms q o a :
  hist_inv s → log_inv s ms → logged s q o → applied_put (late_exec s q) a →
  too_late (late_exec s q) o.
Proof.
  intros Hh Hl (Ho & _ & Hin & _ & Hnv) Ha. split; [by exists a|].
  pose proof Ha as [Hop _]. cbn in Hop.
  destruct (li_answer _ _ Hl o Ho) as (z & Hz & (Hinz & _) & _ & Hrep).
  rewrite Hin in Hinz. apply op_input_inj in Hinz.
  assert (x_op z = OpPut a) as Hopz by congruence. specialize (Hnv a Hop).
  destruct (run_put_rep s z a Hh Hz Hopz) as [Hr|[Hr|Hr]]; rewrite Hr in Hrep; cbn in Hrep.
  - by destruct (late_applied_fresh s q a z Hh Ha Hz).
  - left. destruct Hrep as [?|[? _]]; [done|]. split; [done|]. by apply (li_past _ _ Hl).
  - right. by destruct Hrep as [?|[_ ?]].
Qed.

(** It takes effect after its call has returned. *)
Lemma mark_inv_late_applied s ms q o l1 l2 a :
  hist_inv s → mark_inv s ms → s_late s = l1 ++ q :: l2 → logged s q o →
  applied_put (late_exec s q) a → ∃ ms', mark_inv (do_late s q (l1 ++ l2)) ms'.
Proof.
  intros Hh Hm Hlate Hlog Ha. pose proof Hm as [Hl Hc]. pose proof Hlog as (Ho & Hcall & Hin & Hcid & _).
  destruct (log_mark _ _ _ Hl Ho) as (i & y & Hi & Hy). pose proof (marked_ran _ _ Hy) as (Hiny & _ & Hcy & _).
  pose proof (mark_lt _ _ _ _ _ Hh Hl Hi) as Hlt.
  assert (x_op y = lr_op q) as Hopy by (rewrite Hin in Hiny; by apply op_input_inj in Hiny).
  destruct (do_late_view s q (l1 ++ l2)) as (_ & _ & Hclk & Hlog' & Hx & _).
  exists (<[i := (y, None)]> ms ++ [(late_exec s q, Some o)]). split.
  - eapply log_inv_move; [done|done| |exact Hx|done|lia]. right. split; [|by eapply late_too_late].
    unfold ran_for. cbn. split_and!; [done|done|done|]. lia.
  - apply (calls_inv_late s ms); [done|done| |].
    + intros c p b Hcl. pose proof (logged_busy _ _ _ _ _ _ _ Hm Hlog Hcl) as Hne.
      eapply busy_ok_frame; [by eapply (ci_busy _ _ Hc)| |lia].
      apply (same_marks_trans _ (<[i := (y, None)]> ms)); [|by apply same_marks_app].
      eapply same_marks_insert; [done|congruence].
    + intros j z b [[_ Hj]|[_ ?]]%lookup_snoc_Some Hz; [|done].
      apply list_lookup_insert_Some in Hj as [(-> & [= ->] & _)|[_ Hj]]; [|left; by exists j].
      exfalso. assert (b = a) as -> by (destruct Hz, Ha as [Hop _]; cbn in Hop; congruence).
      eapply (late_applied_fresh s q a); [done|done| |done].
      eapply list_elem_of_lookup_2. by eapply mark_exec.
Qed.

Lemma mark_inv_late s ms q l1 l2 :
  hist_inv s → mark_inv s ms → s_late s = l1 ++ q :: l2 →
  ∃ ms', mark_inv (do_late s q (l1 ++ l2)) ms'.
Proof.
  intros Hh Hm Hlate.
  destruct (ci_late _ _ (proj2 Hm) q) as [(p & b & Hr)|(o & Hlog)]; [rewrite Hlate; set_solver| |].
  - eexists. by eapply mark_inv_late_retrying.
  - destruct (applied_dec (late_exec s q)) as [[a Ha]|Hna].
    + by eapply mark_inv_late_applied.
    + eexists. by eapply mark_inv_late_idle.
Qed.

Lemma late_call_lt s ms q :
  hist_inv s → mark_inv s ms → q ∈ s_late s → lr_call q < s_clock s.
Proof.
  intros Hh Hm Hq. destruct (ci_late _ _ (proj2 Hm) q Hq) as [(p & b & Hc & <- & _)|(o & Ho & <- & _)].
  - by destruct (ci_busy _ _ (proj2 Hm) _ _ _ Hc).
  - destruct (log_mark _ _ _ (proj1 Hm) Ho) as (i & x & Hi & Hx%marked_call). rewrite Hx.
    pose proof (mark_lt _ _ _ _ _ Hh (proj1 Hm) Hi). lia.
Qed.

(** ** A method returns *)

(** The execution a returning operation is marked on. *)
Definition choice ms (b : Busy) (o : Operation) (i : nat) (x : Exec) : Prop :=
  ms !! i = Some (x, None) ∧ x_call x = b_call b ∧ marked x o ∧
  ∀ j y a, ms !! j = Some (y, None) → x_call y = b_call b → applied_put y a → j = i.

(** The executions of the operation that was called at time [t]. *)
Definition none_applied ms (t : Z) : Prop :=
  ∀ i x m a, ms !! i = Some (x, m) → x_call x = t → ¬ applied_put x a.

Lemma find_applied ms (t : Z) :
  none_applied ms t ∨
  ∃ i x m a, ms !! i = Some (x, m) ∧ x_call x = t ∧ applied_put x a.
Proof.
  destruct (decide (Exists (λ m : Mark, x_call m.1 = t ∧ x_rep m.1 = RepPut (MkPutReply OK) ∧
    (if x_op m.1 is OpPut _ then true else false) = true) ms)) as [H|H].
  - right. apply list.Exists_exists in H as ([x m] & Hin & Ht & Hr & Hop).
    apply list_elem_of_lookup in Hin as [i Hi]. simpl in *.
    destruct (x_op x) as [|a] eqn:Ho; [done|]. exists i, x, m, a. by unfold applied_put.
  - left. intros i x m a Hi Ht [Hop Hr]. apply H. apply list.Exists_exists.
    exists (x, m). split; [by eapply list_elem_of_lookup_2|]. simpl. by rewrite Hop.
Qed.

(** An applied execution of the call is the only one. *)
Lemma choice_applied s ms c b o i x m a :
  hist_inv s → log_inv s ms → busy_ok s ms c b →
  ms !! i = Some (x, m) → x_call x = b_call b → applied_put x a → marked x o →
  choice ms b o i x.
Proof.
  intros Hh Hm (_ & Hops & _) Hi Hx Ha Hok.
  destruct (Hops i x m Hi Hx) as (-> & Hop & _). split_and!; try done.
  intros j y a' Hj Hy Ha'. destruct (Hops j y None Hj Hy) as (_ & Hop' & _).
  assert (a' = a) as -> by (destruct Ha, Ha'; congruence).
  apply (versions_ok_unique (s_srv s) (s_execs s) j i y x a a); try done.
  - by apply hi_versions.
  - by eapply mark_exec.
  - by eapply mark_exec.
Qed.

Lemma choice_last ms b o i x :
  ms !! i = Some (x, None) → x_call x = b_call b → none_applied ms (b_call b) →
  marked x o → choice ms b o i x.
Proof.
  intros Hi Hx Hnone Hok. split_and!; try done.
  intros j y a Hj Hy Ha. by destruct (Hnone j y None a).
Qed.

(** What the clerk makes of an answer. *)
Lemma iter_rep_ok kv op retried res :
  clerk_iter retried (Some (srv_exec kv op).2) = Some res →
  rep_ok (srv_exec kv op).2 (res_output res) ∧
  (retried = true → ∀ a, op = OpPut a → ko_Err (res_output res) ≠ ErrVersion).
Proof.
  destruct op as [g|a]; cbn.
  - intros [= <-]. by split.
  - pose proof (put_reply_cases kv a) as Hcases. destruct (Put kv a) as [kv' [e]]. cbn in *.
    case_decide as Hd; intros [= <-]; cbn.
    + destruct Hd as [-> _]. split; [by right|done].
    + split; [by left|]. intros -> _ _ ->. by apply Hd.
Qed.

(** The execution whose reply returns. *)
Lemma return_answer s ms c p b r t res :
  hist_inv s → mark_inv s ms → s_clients s !! c = Some (MkClient p (Some b)) →
  b_net b = Executed r t → clerk_iter (b_retried b) (Some r) = Some res →
  let o := log_op c (b_op b) (b_call b) (s_clock s) res in
  (b_retried b = true → ∀ a, b_op b = OpPut a → ko_Err (op_Output o) ≠ ErrVersion) ∧
  ∃ i x, ms !! i = Some (x, None) ∧ x_call x = b_call b ∧ x_rep x = r ∧ mark_ok x o ∧
    (b_retried b = false → ∀ j y m, ms !! j = Some (y, m) → x_call y = b_call b → j = i).
Proof.
  intros Hh [Hl Hc] Hcl Hnet Hiter o. destruct (ci_busy _ _ Hc c p b Hcl) as (Hlt & Hops & Hn).
  unfold net_ok in Hn. rewrite Hnet in Hn. destruct Hn as (i & x & Hi & Hx & Hrep & Huniq).
  destruct (Hops i x None Hi Hx) as (_ & Hop & Hcid).
  pose proof (mark_lt _ _ _ _ _ Hh Hl Hi) as Ht.
  destruct (replay_rep MakeKVServer (s_execs s) (s_srv s) x) as [kv1 Hkv]; [by apply hi_replay| |].
  { eapply list_elem_of_lookup_2. by eapply mark_exec. }
  rewrite <-Hrep, <-Hkv, Hop in Hiter. apply iter_rep_ok in Hiter as [Hok Hnv].
  split; [exact Hnv|]. exists i, x. split_and!; try done. unfold mark_ok, ran_for, o. cbn.
  rewrite <-Hop, Hkv in Hok. rewrite Hop. split_and!; try done; lia.
Qed.

Lemma return_choice s ms c p b r t res :
  hist_inv s → mark_inv s ms → s_clients s !! c = Some (MkClient p (Some b)) →
  b_net b = Executed r t → clerk_iter (b_retried b) (Some r) = Some res →
  ∃ i x, choice ms b (log_op c (b_op b) (b_call b) (s_clock s) res) i x.
Proof.
  intros Hh Hm Hcl Hnet Hiter. pose proof Hm as [Hl Hc].
  destruct (return_answer _ _ _ _ _ _ _ _ Hh Hm Hcl Hnet Hiter)
    as (Hnv & i & x & Hi & Hx & Hr & Hok & Huniq).
  pose proof (ci_busy _ _ Hc c p b Hcl) as Hbusy. pose proof Hbusy as (_ & Hops & _).
  destruct (find_applied ms (b_call b)) as [Hnone|(j & y & m & a & Hj & Hy & Ha)].
  { exists i, x. apply choice_last; try done. by left. }
  destruct (Hops j y m Hj Hy) as (_ & Hopy & Hcid). destruct (Hops i x None Hi Hx) as (_ & Hopx & _).
  pose proof (mark_lt _ _ _ _ _ Hh Hl Hj) as Ht.
  assert (b_op b = OpPut a) as Hb by (destruct Ha; congruence).
  assert (ran_for y (log_op c (b_op b) (b_call b) (s_clock s) res)) as Hran.
  { unfold ran_for. cbn. rewrite Hopy. by split_and!; [..|lia]. }
  exists j, y. eapply choice_applied; try done. destruct Ha as [Ho Ha].
  destruct (run_put_rep s x a Hh) as [Hrep|[Hrep|Hrep]];
    [eapply list_elem_of_lookup_2; by eapply mark_exec|congruence|..];
    destruct Hok as (_ & _ & Hok); rewrite Hrep in Hok; cbn in Hok.
  - left. split_and!; [done|cbn; lia|]. rewrite Ha. exact Hok.
  - destruct Hok as [Hok|[Hok _]].
    + destruct (b_retried b) eqn:Hret; [by destruct (Hnv eq_refl a Hb)|].
      assert (j = i) as -> by (by eapply Huniq). rewrite Hi in Hj. injection Hj as -> _.
      rewrite Ha in Hrep. discriminate.
    + left. split_and!; [done|cbn; lia|]. rewrite Ha. right. by split.
  - right. split; [done|]. split; [by exists a|right]. by destruct Hok as [?|[_ ?]].
Qed.

(** Client [c] has returned from its call, which is logged on the [i]-th run. *)
Lemma calls_inv_return s ms c p b res i x :
  mark_inv s ms → s_clients s !! c = Some (MkClient p (Some b)) →
  let o := log_op c (b_op b) (b_call b) (s_clock s) res in
  (b_retried b = true → ∀ a, b_op b = OpPut a → ko_Err (op_Output o) ≠ ErrVersion) →
  choice ms b o i x → calls_inv (do_return s c p b res) (<[i := (x, Some o)]> ms).
Proof.
  intros [Hl [Hp Hb Hu Hq]] Hc o Hnv (Hi & Hx & Hok & Huniq). split; simpl.
  - intros j y a. rewrite list_lookup_insert_Some. intros [(_ & ? & _)|[Hne Hj]] Ha; [done|].
    destruct (Hp j y a Hj Ha) as (c' & q & b' & Hc' & Hcall).
    destruct (decide (c' = c)) as [->|Hc'c].
    + simplify_eq. exfalso. apply Hne. symmetry. by eapply Huniq.
    + exists c', q, b'. split; [by apply client_upd_ne|done].
  - intros c' q b' [[_ ?]|[Hne Hc']]%client_upd; [done|].
    eapply busy_ok_frame; [by eapply Hb| |simpl; lia].
    eapply same_marks_insert; [done|]. rewrite Hx. intros Hcall. apply Hne. by eapply Hu.
  - intros c1 c2 p1 p2 b1 b2.
    intros [[_ ?]|[_ Hc1]]%client_upd [[_ ?]|[_ Hc2]]%client_upd; try done. by eapply Hu.
  - intros q Hin. destruct (Hq q Hin) as [(p' & b' & Hc' & Hcall & Hop & Hr)|(o' & Ho' & Hlog)].
    + destruct (decide (lr_cid q = c)) as [Heq|Hne].
      * right. rewrite Heq, Hc in Hc'. injection Hc' as <- <-. exists o. unfold logged. cbn.
        rewrite <-Hop. split_and!; try done; [set_solver|by apply Hnv].
      * left. exists p', b'. by split; [apply client_upd_ne|].
    + right. exists o'. split; [|done]. cbn. set_solver.
Qed.

Lemma mark_inv_return s ms c p b r t res :
  hist_inv s → mark_inv s ms → s_clients s !! c = Some (MkClient p (Some b)) →
  b_net b = Executed r t → clerk_iter (b_retried b) (Some r) = Some res →
  ∃ ms', mark_inv (do_return s c p b res) ms'.
Proof.
  intros Hh Hm Hc Hnet Hiter. pose proof Hm as [Hl Hcs].
  destruct (return_choice _ _ _ _ _ _ _ _ Hh Hm Hc Hnet Hiter) as (i & x & Hch).
  destruct (return_answer _ _ _ _ _ _ _ _ Hh Hm Hc Hnet Hiter) as (Hnv & j & y & Hj & _ & _ & Hans & _).
  pose proof Hch as (Hi & Hx & Hok & _). destruct (ci_busy _ _ Hcs c p b Hc) as (_ & Hops & _).
  eexists. split; [|by eapply calls_inv_return].
  eapply (log_inv_mark s); [done|done|done| | |done..].
  - intros k z o' Hk Hcall. destruct (Hops k z (Some o') Hk) as [? _]; [congruence|done].
  - exists y. split; [|done]. eapply list_elem_of_lookup_2. by eapply mark_exec.
Qed.

(** ** The invariant is preserved *)

Definition inv s : Prop := hist_inv s ∧ ∃ ms, mark_inv s ms.

Lemma inv_init ps : inv (init_sys ps).
Proof.
  assert (∀ c p b, s_clients (init_sys ps) !! c ≠ Some (MkClient p (Some b))) as Hidle.
  { intros c p b. simpl. rewrite list_lookup_fmap. by destruct (ps !! c). }
  split.
  - split; simpl; [done|apply versions_ok_init|done|by intros x ?%elem_of_nil|done].
  - exists []. split; split; try done.
    + by intros o ?%elem_of_nil.
    + by intros o ?%elem_of_nil.
    + intros c p b Hc. by destruct (Hidle c p b).
    + intros c1 c2 p1 p2 b1 b2 Hc. by destruct (Hidle c1 p1 b1).
    + by intros q ?%elem_of_nil.
Qed.

Lemma inv_step s s' :
  inv s → step s s' → s_clock s < 2 ^ 64 - 1 → inv s'.
Proof.
  intros [Hh [ms Hm]] Hstep Hclk. destruct Hstep as [c p p' Hc Hl|c p op Hc Hop|c p b Hc Hnet|
    c p b left Hc|c p b r t res Hc Hnet Hit|q l1 l2 Hq]; split; try (by eapply hist_inv_same).
  - exists ms. by eapply mark_inv_local.
  - exists ms. by eapply mark_inv_invoke.
  - apply hist_inv_exec; [done| |done]. by destruct (ci_busy _ _ (proj2 Hm) c p b).
  - by eapply mark_inv_exec.
  - exists ms. by apply mark_inv_fail.
  - by eapply mark_inv_return.
  - apply hist_inv_late; [done| |done]. eapply late_call_lt; [done|done|]. rewrite Hq. set_solver.
  - by eapply mark_inv_late.
Qed.

Lemma reachable_inv ps s :
  reachable ps s → s_clock s < 2 ^ 64 - 1 → inv s.
Proof.
  revert s. refine (rtc_ind_r (λ s, s_clock s < 2 ^ 64 - 1 → inv s) _ _ _).
  - intros _. apply inv_init.
  - intros s1 s2 Hr Hstep IH Hclk. rewrite (step_clock _ _ Hstep) in Hclk.
    eapply inv_step; [apply IH; lia|done|lia].
Qed.
End Invariant.
