(* ===== verification/KvTheorems.v ===== *)
(** * Properties of the key/value service

    What clients of [kvsrv] may rely on, proved from the invariants of
    [KvProof.v] for any number of clients running any programs. *)
From S2P Require Import Prelude Rpc KvSrv KvModel Clerk KvSys KvHist KvProof.

(** ** A client that runs a list of calls *)

Definition Script : Type := list KvOp.

#[export] Instance Script_client : KVClient Script := {
  next_op := head;
  resume p _ := tail p;
  local_step _ _ := False;
}.

(** Two writers of key [x]; the reply of the first is lost once. *)
Definition put_x (v : string) (ver : Tversion) : KvOp := OpPut (MkPutArgs "x" v ver).
Definition demo_progs : list Script :=
  [[put_x "a" 0; OpGet (MkGetArgs "x"); put_x "c" 1]; [put_x "b" 0; OpGet (MkGetArgs "x")]].
Definition demo_moves : list Move :=
  [MInvoke 0; MInvoke 1; MExec 0; MExec 1; MReturn 1; MFail 0; MInvoke 1; MExec 0; MReturn 0; MExec 1;
   MReturn 1].
Definition demo_sys : Sys Script := Eval vm_compute in
  default (init_sys demo_progs) (run_moves (init_sys demo_progs) demo_moves).

Lemma demo_reachable : reachable demo_progs demo_sys.
Proof. apply (run_moves_reachable _ demo_moves). vm_compute. reflexivity. Qed.

Section Theorems.
Context {P : Type} `{!KVClient P}.
Implicit Types s : Sys P.

(** ** Acceptance of the marked history *)

Lemma mark_step kv x o :
  (srv_exec kv (x_op x)).2 = x_rep x → mark_ok x o →
  strict_step kv o = Some (srv_exec kv (x_op x)).1.
Proof.
  intros Hrep ((Hin & _) & _ & Hok). unfold strict_step. rewrite Hin.
  destruct (x_op x) as [[k]|[k v ver]]; simpl in *.
  - rewrite <-Hrep in Hok. simpl in Hok. by rewrite decide_True.
  - unfold put_args_of. simpl. destruct (Put kv _) as [kv' r]. simpl in *.
    rewrite <-Hrep in Hok. simpl in Hok. by rewrite decide_True.
Qed.

Lemma skip_step kv x :
  (srv_exec kv (x_op x)).2 = x_rep x → (∀ a, ¬ applied_put x a) →
  (srv_exec kv (x_op x)).1 = kv.
Proof.
  intros Hrep Hna. destruct (x_op x) as [g|a] eqn:Hop; [done|].
  pose proof (exec_put_applied kv x a Hop) as Hiff. rewrite Hop in Hiff.
  specialize (Hiff Hrep). simpl in *.
  assert (¬ put_applies kv a) as Hn by naive_solver.
  rewrite put_rejected by done. done.
Qed.

Lemma marks_accepted kv (ms : list (Exec * option Operation)) kv' :
  replay kv ms.*1 kv' →
  (∀ x o, (x, Some o) ∈ ms → mark_ok x o) →
  (∀ x a, (x, None) ∈ ms → ¬ applied_put x a) →
  strict_run kv (omap snd ms) = Some kv'.
Proof.
  revert kv. induction ms as [|[x m] ms IH]; intros kv; simpl; [by intros ->|].
  intros [Hx Hms] Hok Hna.
  assert (strict_run (srv_exec kv (x_op x)).1 (omap snd ms) = Some kv') as IHms.
  { apply IH; [done| |]; intros y z Hy; [apply Hok|apply (Hna y)];
      by apply elem_of_cons; right. }
  destruct m as [o|]; simpl.
  - rewrite (mark_step kv x o); [done|done|]. apply Hok. by apply elem_of_cons; left.
  - rewrite <-(skip_step kv x); [done|done|].
    intros a. apply (Hna x). by apply elem_of_cons; left.
Qed.

(** ** Calls still in progress, and calls that take effect too late

    An applied [Put] whose caller is still waiting is completed with [ErrMaybe] at
    the present time.  So is one that a request left running applied too late for
    the answer its caller was given. *)
Definition is_applied (x : Exec) : bool :=
  match x_op x, x_rep x with
  | OpPut _, RepPut r => bool_decide (pr_Err r = OK)
  | _, _ => false
  end.

Definition completion (now : Z) (x : Exec) : Operation :=
  MkOperation (x_cid x) (op_input (x_op x)) (x_call x) (MkKvOutput "" 0 ErrMaybe) now.

Definition settle (now : Z) (x : Exec) (o : Operation) : Operation :=
  if decide (x_time x < op_Return o ∧ rep_ok (x_rep x) (op_Output o)) then o else completion now x.

Definition pend_of (now : Z) (m : Mark) : option Operation :=
  match m.2 with
  | Some _ => None
  | None => if is_applied m.1 then Some (completion now m.1) else None
  end.

Definition fill (now : Z) (m : Mark) : Mark :=
  (m.1, match m.2 with Some o => Some (settle now m.1 o) | None => pend_of now m end).

Lemma is_applied_spec x : is_applied x = true ↔ ∃ a, applied_put x a.
Proof.
  unfold is_applied, applied_put. split.
  - destruct (x_op x) as [|a], (x_rep x) as [|[e]]; try done.
    intros He%bool_decide_eq_true. exists a. simpl in He. by subst.
  - by intros (a & -> & ->).
Qed.

(** What has happened to [o'], which the log has as [o]: the answer of a [Put] that
    took effect too late is open again. *)
Definition reopened s (o o' : Operation) : Prop :=
  o' = o ∨
  o' = MkOperation (op_ClientId o) (op_Input o) (op_Call o) (MkKvOutput "" 0 ErrMaybe) (s_clock s) ∧
  ∃ x, x ∈ s_execs s ∧ ran_for x o ∧ too_late x o.

Lemma settle_reopened s ms i x o :
  log_inv s ms → ms !! i = Some (x, Some o) → reopened s o (settle (s_clock s) x o).
Proof.
  intros Hm Hi. unfold settle. case_decide as Hd; [by left|right].
  destruct (li_done _ _ Hm _ _ _ Hi) as [(_ & ? & ?)|[Hran Hlate]]; [by destruct Hd|].
  pose proof Hran as (H1 & H2 & H3 & _). split; [unfold completion; by rewrite H1, H2, H3|].
  exists x. split; [|done]. eapply list_elem_of_lookup_2. by eapply mark_exec.
Qed.

Lemma settle_mark s ms i x o :
  hist_inv s → log_inv s ms → ms !! i = Some (x, Some o) → mark_ok x (settle (s_clock s) x o).
Proof.
  intros Hh Hm Hi. unfold settle. pose proof (mark_lt _ _ _ _ _ Hh Hm Hi) as Hlt.
  destruct (li_done _ _ Hm _ _ _ Hi) as [(Hr & Ht & Hok)|[Hran [[a [Hop Hrep]] _]]];
    case_decide as Hd; [done|by destruct Hd|..].
  - destruct Hd. by split_and!.
  - unfold mark_ok, ran_for, completion. cbn. rewrite Hrep. split_and!; try done; [lia|lia|].
    by right.
Qed.

(** The log as the marks explain it. *)
Lemma settled_log s ms :
  log_inv s ms →
  ∃ log', Forall2 (reopened s) (s_oplog s) log' ∧
    omap snd (fill (s_clock s) <$> ms) ≡ₚ log' ++ omap (pend_of (s_clock s)) ms.
Proof.
  intros Hm. set (now := s_clock s).
  set (set_of := λ m : Mark, settle now m.1 <$> m.2).
  assert (Forall2 (reopened s) (omap snd ms) (omap set_of ms)) as Hset.
  { assert (∀ m, m ∈ ms → option_Forall2 (reopened s) m.2 (set_of m)) as Hall.
    { intros [x [o|]] [i Hi]%list_elem_of_lookup; cbn; constructor. by eapply settle_reopened. }
    clear Hm. induction ms as [|[x [o|]] ms IH]; cbn; [constructor| |].
    - constructor; [|apply IH; set_solver]. pose proof (Hall (x, Some o) ltac:(set_solver)) as H.
      by inversion H.
    - apply IH. set_solver. }
  destruct (Permutation_Forall2 (li_log _ _ Hm) Hset) as (log' & Hp & Hlog).
  exists log'. split; [done|]. rewrite <-Hp. clear.
  induction ms as [|[x [o|]] ms IH]; [done|simpl..].
  - by rewrite IH.
  - change (pend_of now (x, None)) with
      (if is_applied x then Some (completion now x) else None).
    destruct (is_applied x); simpl; rewrite IH; [|done]. apply Permutation_middle.
Qed.

Definition pending_completion s (o : Operation) : Prop :=
  ∃ p b, s_clients s !! op_ClientId o = Some (MkClient p (Some b)) ∧
    o = MkOperation (op_ClientId o) (op_input (b_op b)) (b_call b)
          (MkKvOutput "" 0 ErrMaybe) (s_clock s).

Lemma pend_of_pending s ms i m o :
  mark_inv s ms → ms !! i = Some m → pend_of (s_clock s) m = Some o →
  pending_completion s o ∧ ∃ a, applied_put m.1 a ∧ op_Input o = op_input (OpPut a) ∧
    op_Call o = x_call m.1.
Proof.
  intros [_ Hm] Hi Hp. destruct m as [x [o'|]]; [done|]. unfold pend_of in Hp. simpl in Hp.
  destruct (is_applied x) eqn:Ha; [|done]. injection Hp as <-.
  apply is_applied_spec in Ha as [a Ha].
  destruct (ci_pending _ _ Hm i x a Hi Ha) as (c & p & b & Hc & Hcall).
  destruct (ci_busy _ _ Hm c p b Hc) as (_ & Hops & _).
  destruct (Hops i x None Hi (eq_sym Hcall)) as (_ & Hop & Hcid). split.
  - exists p, b. unfold completion. simpl. rewrite Hcid, Hop, Hcall. done.
  - exists a. split; [done|]. unfold completion. simpl. by destruct Ha as [-> _].
Qed.

Lemma pend_distinct s ms :
  hist_inv s → mark_inv s ms → NoDup (op_ClientId <$> omap (pend_of (s_clock s)) ms).
Proof.
  intros Hh Hm.
  cut (StronglySorted (λ a b, op_ClientId a ≠ op_ClientId b)
         (omap (pend_of (s_clock s)) ms)).
  { induction 1 as [|o l _ IH Ho]; [constructor|]. simpl. constructor; [|done].
    rewrite list_elem_of_fmap. intros (o' & Heq & Hin).
    rewrite list.Forall_forall in Ho. by apply (Ho o'). }
  eapply (StronglySorted_omap (λ m m', ∃ i j : nat, i ≠ j ∧ ms !! i = Some m ∧
    ms !! j = Some m')).
  - intros m m' o o' _ _ (i & j & Hij & Hi & Hj) Ho Ho' Heq. apply Hij.
    destruct (pend_of_pending _ _ _ _ _ Hm Hi Ho)
      as ((p & b & Hc & Hob) & a & Ha & Hin & Hcall).
    destruct (pend_of_pending _ _ _ _ _ Hm Hj Ho')
      as ((p' & b' & Hc' & Hob') & a' & Ha' & Hin' & Hcall').
    rewrite Heq, Hc' in Hc. injection Hc as <- <-.
    assert (op_Input o = op_Input o') as Hio by (rewrite Hob, Hob'; done).
    rewrite Hin, Hin' in Hio. injection Hio as Hk _ Hv. destruct m as [x n], m' as [x' n'].
    eapply (versions_ok_unique _ _ i j x x' a a' (hi_versions _ Hh)); try done.
    + by eapply mark_exec, Hi; apply Hm.
    + by eapply mark_exec, Hj; apply Hm.
  - apply StronglySorted_lookup. intros i j m m' Hij Hi Hj. exists i, j. split; [lia|done].
Qed.

Lemma fill_execs now (ms : list Mark) : (fill now <$> ms).*1 = ms.*1.
Proof. induction ms as [|[x m] ms IH]; simpl; [done|]. by f_equal. Qed.

Lemma fill_exec s ms i x m :
  log_inv s ms → (fill (s_clock s) <$> ms) !! i = Some (x, m) → s_execs s !! i = Some x.
Proof.
  intros Hm Hi. rewrite <-(li_execs _ _ Hm), <-(fill_execs (s_clock s)).
  by rewrite list_lookup_fmap, Hi.
Qed.

Lemma fill_inv s ms i x o :
  hist_inv s → log_inv s ms → (fill (s_clock s) <$> ms) !! i = Some (x, Some o) →
  mark_ok x o.
Proof.
  intros Hh Hm. rewrite list_lookup_fmap. intros ([y [o'|]] & Hi & Hf)%fmap_Some.
  - injection Hf as -> ->. by eapply settle_mark.
  - unfold fill, pend_of in Hf. simpl in Hf. destruct (is_applied y) eqn:Ha; simplify_eq.
    apply is_applied_spec in Ha as [a [Hop Hrep]].
    pose proof (mark_lt _ _ _ _ _ Hh Hm Hi) as Hlt.
    unfold mark_ok, ran_for, completion. simpl. rewrite Hrep. split_and!; try done; [lia|lia|].
    simpl. by right.
Qed.

Lemma fill_none s (ms : list Mark) i x a :
  (fill (s_clock s) <$> ms) !! i = Some (x, None) → ¬ applied_put x a.
Proof.
  rewrite list_lookup_fmap. intros ([y [o'|]] & Hi & Hf)%fmap_Some Ha; [done|].
  unfold fill, pend_of in Hf. simpl in Hf. destruct (is_applied y) eqn:Hy; [done|].
  simplify_eq. assert (is_applied y = true) by (apply is_applied_spec; eauto). congruence.
Qed.

Lemma fill_respects_time s ms :
  hist_inv s → log_inv s ms → respects_time (omap snd (fill (s_clock s) <$> ms)).
Proof.
  intros Hh Hm. unfold respects_time.
  eapply (StronglySorted_omap (λ m m', ∃ i j, (i < j)%nat ∧
    (fill (s_clock s) <$> ms) !! i = Some m ∧ (fill (s_clock s) <$> ms) !! j = Some m')).
  - intros [x o1] [x' o2] o o' _ _ (i & j & Hij & Hi & Hj) [= ->] [= ->] Hprec.
    destruct (fill_inv _ _ _ _ _ Hh Hm Hi) as ((_ & _ & Hcall & Hx) & _).
    destruct (fill_inv _ _ _ _ _ Hh Hm Hj) as (_ & Hret' & _).
    assert (x_time x < x_time x').
    { by apply (hi_sorted _ Hh i j x x' Hij); eapply fill_exec. }
    unfold precedes in Hprec. lia.
  - apply StronglySorted_lookup. eauto 10.
Qed.

Lemma inv_linearizable s :
  inv s → ∃ pend log', Forall (pending_completion s) pend ∧ NoDup (op_ClientId <$> pend) ∧
    Forall2 (reopened s) (s_oplog s) log' ∧
    ∃ l, l ≡ₚ log' ++ pend ∧ respects_time l ∧ strict_run MakeKVServer l = Some (s_srv s).
Proof.
  intros [Hh [ms Hm]]. pose proof Hm as [Hl _].
  destruct (settled_log s ms Hl) as (log' & Hlog & Hp).
  exists (omap (pend_of (s_clock s)) ms), log'. split_and!.
  - apply list.Forall_forall. intros o (m & [i Hi]%list_elem_of_lookup & Ho)%list_elem_of_omap.
    by eapply pend_of_pending.
  - by apply pend_distinct.
  - done.
  - exists (omap snd (fill (s_clock s) <$> ms)). split_and!.
    + done.
    + by apply fill_respects_time.
    + apply marks_accepted.
      * rewrite fill_execs, (li_execs _ _ Hl). by apply hi_replay.
      * intros x o [i Hi]%list_elem_of_lookup. by eapply fill_inv.
      * intros x a [i Hi]%list_elem_of_lookup. by eapply fill_none.
Qed.

(** ** What a logged [Put] tells about the server *)

Definition is_put (o : Operation) : Prop := ki_Op (op_Input o) = 1.

Definition put_ok (o : Operation) : Prop := is_put o ∧ ko_Err (op_Output o) = OK.

(** The handler runs of the operation [o] that applied its [Put]. *)
Definition applied_runs s (o : Operation) : list Exec :=
  filter (λ x, x_call x = op_Call o ∧ is_applied x = true) (s_execs s).

Lemma marked_put s x o :
  hist_inv s → x ∈ s_execs s → mark_ok x o → is_put o →
  ∃ p, x_op x = OpPut (put_args_of (op_Input o)) ∧ x_rep x = RepPut p ∧
    put_err_ok (pr_Err p) (ko_Err (op_Output o)).
Proof.
  intros Hh Hx ((Hin & _) & _ & Hok) Hput. unfold is_put in Hput. rewrite Hin in *.
  destruct (replay_rep _ _ _ x (hi_replay _ Hh) Hx) as [kv1 Hrep].
  destruct (x_op x) as [g|[k v ver]]; simpl in *; [done|].
  destruct (Put kv1 _) as [kv2 r]. simpl in Hrep. rewrite <-Hrep in Hok.
  exists r. by rewrite <-Hrep.
Qed.

(** A logged operation is marked, and only its mark can be applied. *)
Lemma logged_mark s ms o :
  mark_inv s ms → o ∈ s_oplog s →
  ∃ i x, ms !! i = Some (x, Some o) ∧ s_execs s !! i = Some x ∧ marked x o ∧
    ∀ j y, s_execs s !! j = Some y → x_call y = op_Call o → is_applied y = true → j = i.
Proof.
  intros [Hl Hc] Ho. destruct (log_mark _ _ _ Hl Ho) as (i & x & Hi & Hok).
  exists i, x. split_and!; [done|by eapply mark_exec|done|].
  pose proof (marked_call _ _ Hok) as Hox.
  intros j y Hj Hcall Hy. rewrite <-(li_execs _ _ Hl), list_lookup_fmap in Hj.
  apply fmap_Some in Hj as ([y' [o'|]] & Hj & ->).
  - eapply (li_once _ _ Hl); [done|done|]. simpl in *. congruence.
  - apply is_applied_spec in Hy as [a Ha]. simpl in *.
    destruct (ci_pending _ _ Hc j y' a Hj Ha) as (c & p & b & Hcl & Hb).
    destruct (ci_busy _ _ Hc c p b Hcl) as (_ & Hops & _).
    destruct (Hops i x (Some o) Hi) as [? _]; [congruence|done].
Qed.

Lemma applied_runs_le1 s o :
  inv s → o ∈ s_oplog s → (length (applied_runs s o) <= 1)%nat.
Proof.
  intros [Hh [ms Hm]] Ho. destruct (logged_mark _ _ _ Hm Ho) as (i & x & _ & Hi & _ & Hu).
  destruct (applied_runs s o) as [|y [|z l]] eqn:Hr; simpl; [lia|lia|exfalso].
  assert (StronglySorted (λ x y, x_time x < x_time y) (applied_runs s o)) as Hs.
  { apply StronglySorted_filter, StronglySorted_lookup, (hi_sorted _ Hh). }
  assert (∀ w, w ∈ applied_runs s o → w = x) as Heq.
  { intros w [[Hc Ha] [j Hj]%list_elem_of_lookup]%list_elem_of_filter.
    rewrite (Hu j w Hj Hc Ha) in Hj. congruence. }
  rewrite Hr in Hs, Heq. pose proof (Heq y ltac:(set_solver)) as ->.
  pose proof (Heq z ltac:(set_solver)) as ->.
  inversion Hs as [|? ? _ Hall]. inversion Hall. lia.
Qed.

(** An applied run is the mark, and ran the call. *)
Lemma applied_runs_mark s o x :
  inv s → o ∈ s_oplog s → x ∈ applied_runs s o → is_put o →
  marked x o ∧ x ∈ s_execs s ∧ applied_put x (put_args_of (op_Input o)).
Proof.
  intros [Hh [ms Hm]] Ho [[Hc Ha] [j Hj]%list_elem_of_lookup]%list_elem_of_filter Hput.
  destruct (logged_mark _ _ _ Hm Ho) as (i & y & _ & Hi & Hok & Hu).
  rewrite (Hu j x Hj Hc Ha), Hi in Hj. injection Hj as ->.
  split; [done|]. split; [by eapply list_elem_of_lookup_2|].
  destruct (marked_ran _ _ Hok) as (Hin & _). apply is_applied_spec in Ha as [a Ha].
  rewrite Hin. destruct Ha as [Hop Hrep]. rewrite Hop. split; [by destruct a|done].
Qed.

Lemma applied_runs_ok s o :
  inv s → o ∈ s_oplog s → is_put o → ko_Err (op_Output o) = OK →
  ∃ x, applied_runs s o = [x] ∧ x_time x < op_Return o.
Proof.
  intros Hinv Ho Hput Herr. pose proof (applied_runs_le1 s o Hinv Ho) as Hle.
  destruct Hinv as [Hh [ms Hm]]. destruct (logged_mark _ _ _ Hm Ho) as (i & x & _ & Hi & Hok & _).
  destruct Hok as [Hok|[_ [_ [[He _]|He]]]]; [|rewrite He in Herr; discriminate..].
  destruct (marked_put s x o Hh (list_elem_of_lookup_2 _ _ _ Hi) Hok Hput)
    as ([e] & Hop & Hrep & Hpe).
  assert (x ∈ applied_runs s o) as Hin.
  { apply list_elem_of_filter. split; [|by eapply list_elem_of_lookup_2].
    destruct Hok as ((_ & _ & <- & _) & _). split; [done|]. unfold is_applied.
    rewrite Hop, Hrep. apply bool_decide_eq_true. simpl in *. rewrite Herr in Hpe.
    by destruct Hpe as [<-|[? _]]. }
  destruct (applied_runs s o) as [|y [|z l]]; simpl in *; [by apply elem_of_nil in Hin| |lia].
  apply list_elem_of_singleton in Hin as ->. exists y. split; [done|]. by destruct Hok as (_ & ? & _).
Qed.

(** The run whose answer the clerk returned. *)
Lemma answered_run s o e :
  inv s → o ∈ s_oplog s → is_put o → ko_Err (op_Output o) = e → e ≠ ErrMaybe →
  ∃ x, x ∈ s_execs s ∧ mark_ok x o ∧ x_op x = OpPut (put_args_of (op_Input o)) ∧
    x_rep x = RepPut (MkPutReply e).
Proof.
  intros [Hh [ms [Hl _]]] Ho Hput He Hne. destruct (li_answer _ _ Hl o Ho) as (x & Hx & Hok).
  destruct (marked_put s x o Hh Hx Hok Hput) as ([e'] & Hop & Hrep & Hpe). exists x.
  split_and!; [done|done|done|]. rewrite Hrep. cbn in Hpe.
  destruct Hpe as [<-|[? _]]; [by subst|congruence].
Qed.

Lemma applied_runs_version s o :
  inv s → o ∈ s_oplog s → is_put o → ko_Err (op_Output o) = ErrVersion → applied_runs s o = [].
Proof.
  intros Hinv Ho Hput He. destruct (applied_runs s o) as [|y l] eqn:Hr; [done|exfalso].
  assert (y ∈ applied_runs s o) as Hy by (rewrite Hr; set_solver).
  destruct (applied_runs_mark s o y Hinv Ho Hy Hput) as (Hok & Hin & _ & Hrep).
  destruct Hok as [(_ & _ & Hok)|[_ [_ [[He' _]|He']]]]; [|rewrite He' in He; discriminate..].
  rewrite Hrep in Hok. cbn in Hok. rewrite He in Hok. by destruct Hok as [?|[? _]].
Qed.

Lemma applied_runs_nokey s o x :
  inv s → o ∈ s_oplog s → is_put o → ko_Err (op_Output o) = ErrNoKey → x ∈ applied_runs s o →
  ∃ y, y ∈ s_execs s ∧ x_call y = op_Call o ∧ x_rep y = RepPut (MkPutReply ErrNoKey) ∧
    x_time y < x_time x.
Proof.
  intros Hinv Ho Hput He Hx. destruct (answered_run s o _ Hinv Ho Hput He) as (y & Hy & Hok & Hop & Hrep); [done|].
  destruct (applied_runs_mark s o x Hinv Ho Hx Hput) as (_ & Hin & Ha). destruct Hinv as [Hh _].
  apply list_elem_of_lookup in Hin as [i Hi]. apply list_elem_of_lookup in Hy as [j Hj].
  exists y. split_and!; [by eapply list_elem_of_lookup_2|by destruct Hok as ((_ & _ & ? & _) & _)|done|].
  apply (hi_sorted _ Hh j i); [|done|done].
  by eapply (absent_first _ _ _ i j x y _ _ (hi_replay _ Hh)).
Qed.

(** Two acknowledged [Put]s never name the same key and version. *)
Definition distinct_puts (o o' : Operation) : Prop :=
  put_ok o → put_ok o' → op_key o = op_key o' →
  ki_Version (op_Input o) ≠ ki_Version (op_Input o').

(** A [Put] answered [OK] is marked on the run that applied it. *)
Lemma mark_put_ok s ms k y q :
  hist_inv s → log_inv s ms → ms !! k = Some (y, Some q) → put_ok q →
  applied_put y (put_args_of (op_Input q)).
Proof.
  intros Hh Hm Hk [Hp He]. pose proof (mark_exec _ _ _ _ _ Hm Hk) as Hx.
  destruct (li_done _ _ Hm _ _ _ Hk) as [Hok|[_ [_ [[He' _]|He']]]];
    [|rewrite He' in He; discriminate..].
  destruct (marked_put s y q Hh (list_elem_of_lookup_2 _ _ _ Hx) Hok Hp) as ([e] & Hop & Hrep & Hpe).
  split; [done|]. rewrite Hrep. rewrite He in Hpe. simpl in Hpe. by destruct Hpe as [<-|[? _]].
Qed.

Lemma oplog_distinct s : inv s → StronglySorted distinct_puts (s_oplog s).
Proof.
  intros [Hh [ms [Hm _]]]. eapply pairwise_Permutation; [|apply (li_log _ _ Hm)|].
  - unfold distinct_puts. intros o o' H ? ? ?. apply not_eq_sym. by apply H.
  - eapply (StronglySorted_omap (λ m m', ∃ i j : nat, i ≠ j ∧ ms !! i = Some m ∧
      ms !! j = Some m')); [|apply StronglySorted_lookup; intros i j m m' ? ? ?;
        exists i, j; split; [lia|done]].
    intros [x o1] [x' o2] o o' _ _ (i & j & Hij & Hi & Hj) [= ->] [= ->] Ho Ho' Hk Hv. apply Hij.
    eapply (versions_ok_unique (s_srv s) (s_execs s) i j x x'); [by apply hi_versions|
      by eapply mark_exec|by eapply mark_exec|by eapply mark_put_ok|by eapply mark_put_ok|done|done].
Qed.
End Theorems.

(** ** The properties *)

(** C1: what the log of the service can look like.  Whatever the clients run,
    whichever requests and replies are lost and whichever requests run after the
    clerk has given up on them: the log of completed operations, extended with at
    most one completion per client whose call is still in progress ([ErrMaybe],
    now), has an order that respects real time and in which every answer is the
    answer of the handlers run one at a time; only [OK] and [ErrVersion] may have
    become [ErrMaybe].  One kind of answer has to be taken back for this: that of a
    [Put] answered [ErrMaybe] or [ErrNoKey] which a request left running has
    applied all the same, after that answer if it was [ErrMaybe]; it is
    [ErrMaybe], now. *)
Theorem kv_linearizable {P : Type} `{!KVClient P} (ps : list P) (s : Sys P) :
  reachable ps s → s_clock s < 2 ^ 63 →
  ∃ pend log', Forall (pending_completion s) pend ∧ NoDup (op_ClientId <$> pend) ∧
    Forall2 (reopened s) (s_oplog s) log' ∧ strict_linearizable (log' ++ pend).
Proof.
  intros Hr Hclk. pose proof (reachable_inv ps s Hr ltac:(lia)) as Hinv.
  destruct (inv_linearizable s Hinv) as (pend & log' & Hp & Hnd & Hlog & l & Hl).
  exists pend, log'. split_and!; [done|done|done|]. by exists l, (s_srv s).
Qed.

(** Client 0 guesses a version that the key has not reached.  Its first request is
    left running, the second is refused and the clerk answers [ErrMaybe]; then
    client 1 takes the key to that version, and the first request is applied. *)
Definition late_progs : list Script :=
  [[put_x "a" 2]; [put_x "b" 0; put_x "c" 1; OpGet (MkGetArgs "x")]].
Definition late_moves : list Move :=
  [MInvoke 1; MExec 1; MReturn 1; MInvoke 0; MLeave 0; MExec 0; MReturn 0;
   MInvoke 1; MExec 1; MReturn 1; MLate 0; MInvoke 1; MExec 1; MReturn 1].
Definition late_sys : Sys Script := Eval vm_compute in
  default (init_sys late_progs) (run_moves (init_sys late_progs) late_moves).

Lemma late_reachable : reachable late_progs late_sys.
Proof. apply (run_moves_reachable _ late_moves). vm_compute. reflexivity. Qed.

Lemma kv_linearizable_witness :
  length (s_oplog late_sys) = 4%nat ∧
  ∃ pend log', Forall (pending_completion late_sys) pend ∧ NoDup (op_ClientId <$> pend) ∧
    Forall2 (reopened late_sys) (s_oplog late_sys) log' ∧ strict_linearizable (log' ++ pend).
Proof.
  split; [reflexivity|]. apply (kv_linearizable late_progs); [exact late_reachable|reflexivity].
Defined.

Definition quiet_moves : list Move :=
  demo_moves ++ [MInvoke 0; MExec 0; MReturn 0; MInvoke 0; MExec 0; MReturn 0].
Definition quiet_sys : Sys Script := Eval vm_compute in
  default (init_sys demo_progs) (run_moves (init_sys demo_progs) quiet_moves).

Lemma quiet_reachable : reachable demo_progs quiet_sys.
Proof. apply (run_moves_reachable _ quiet_moves). vm_compute. reflexivity. Qed.

(** At most one acknowledgement per version.  Two different operations of
    the log that are [Put]s of the same key at the same version cannot both
    have been answered [OK]. *)
Theorem kv_put_once {P : Type} `{!KVClient P} (ps : list P) (s : Sys P) i j o o' :
  reachable ps s → s_clock s < 2 ^ 63 →
  s_oplog s !! i = Some o → s_oplog s !! j = Some o' → put_ok o → put_ok o' →
  op_key o = op_key o' → ki_Version (op_Input o) = ki_Version (op_Input o') → i = j.
Proof.
  intros Hr Hclk Hi Hj Ho Ho' Hk Hv.
  pose proof (oplog_distinct s (reachable_inv ps s Hr ltac:(lia))) as Hs.
  destruct (decide (i = j)) as [|Hne]; [done|exfalso]. destruct (decide (i < j)%nat).
  - by apply (StronglySorted_lookup_2 _ _ i j o o' Hs).
  - by apply (StronglySorted_lookup_2 _ _ j i o' o Hs); [lia|..].
Qed.

Definition ok_put : Operation :=
  MkOperation 0 (MkKvInput 1 "x" "c" 1) 14 (MkKvOutput "" 0 "OK") 16.

Lemma kv_put_once_witness :
  s_oplog quiet_sys !! 4%nat = Some ok_put ∧ 4%nat = 4%nat.
Proof.
  split; [reflexivity|].
  apply (kv_put_once demo_progs quiet_sys 4 4 ok_put ok_put);
    [exact quiet_reachable|..]; repeat split; reflexivity.
Defined.

(** The runs of the handler that applied a [Put] of key [k]. *)
Definition applied_to (k : string) (xs : list Exec) : list Exec :=
  filter (λ x, is_applied x = true ∧ op_arg_key (x_op x) = k) xs.

Lemma applied_to_cons k x xs :
  len (applied_to k (x :: xs)) =
    (if decide (is_applied x = true ∧ op_arg_key (x_op x) = k) then 1 else 0) + len (applied_to k xs).
Proof. unfold applied_to. rewrite list.filter_cons. case_decide; unfold len; simpl; lia. Qed.

Lemma exec_version kv x k :
  (srv_exec kv (x_op x)).2 = x_rep x → (∀ k, 0 <= cur_version kv k < 2 ^ 64 - 1) →
  cur_version (srv_exec kv (x_op x)).1 k =
    cur_version kv k + (if decide (is_applied x = true ∧ op_arg_key (x_op x) = k) then 1 else 0).
Proof.
  intros Hrep Hb. assert (is_applied x = true ↔ ∃ a, x_op x = OpPut a ∧ put_applies kv a) as Hap.
  { rewrite is_applied_spec. split.
    - intros (a & Ha). exists a. pose proof Ha as [Hop _]. split; [done|].
      by apply (exec_put_applied kv x a).
    - intros (a & Hop & Ha). exists a. by apply (exec_put_applied kv x a). }
  destruct (x_op x) as [g|a] eqn:Hop; cbn [srv_exec fst op_arg_key].
  { rewrite decide_False; [lia|]. by intros [(a & ? & _)%Hap _]. }
  assert ((let '(kv', r) := Put kv a in (kv', RepPut r)).1 = (Put kv a).1) as -> by (by destruct (Put kv a)).
  destruct (decide (put_applies kv a)) as [Ha|Ha].
  - rewrite (cur_version_put kv a k Ha (Hb _)).
    assert (is_applied x = true) as Hx by (apply Hap; eauto).
    destruct (decide (pa_Key a = k)); [rewrite decide_True by done|rewrite decide_False by tauto]; lia.
  - rewrite put_rejected by done. cbn. rewrite decide_False; [lia|].
    intros [(a' & [= <-] & ?)%Hap _]. done.
Qed.

Lemma replay_versions kv xs kv' n :
  replay kv xs kv' → (∀ k, 0 <= cur_version kv k <= n) → n + len xs < 2 ^ 64 - 1 →
  ∀ k, cur_version kv' k = cur_version kv k + len (applied_to k xs).
Proof.
  revert kv n. induction xs as [|x xs IH]; intros kv n; cbn [replay].
  - intros -> _ _ k. unfold applied_to, len. cbn. lia.
  - intros [Hrep Hr] Hb Hlen k. rewrite len_cons in Hlen.
    assert (0 <= len xs) as Hl by (unfold len; lia).
    assert (∀ k, 0 <= cur_version kv k < 2 ^ 64 - 1) as Hb' by (intros k0; specialize (Hb k0); lia).
    rewrite (IH _ (n + 1) Hr); [|intros k0; rewrite exec_version by done; specialize (Hb k0);
      case_decide; lia|lia].
    rewrite exec_version, applied_to_cons by done. lia.
Qed.

(** C35: versions count [Put]s and never wrap.  The version of a key is the number
    of runs of the handler that applied a [Put] of it, and stays below 2^63, so the
    [uint64] increment of the handler never overflows. *)
Theorem kv_version_counts {P : Type} `{!KVClient P} (ps : list P) (s : Sys P) k :
  reachable ps s → s_clock s < 2 ^ 63 →
  cur_version (s_srv s) k = len (applied_to k (s_execs s)) ∧ 0 <= cur_version (s_srv s) k < 2 ^ 63 ∧
  ver_succ (cur_version (s_srv s) k) = cur_version (s_srv s) k + 1.
Proof.
  intros Hr Hclk. destruct (reachable_inv ps s Hr ltac:(lia)) as [[Hrep Hv _ _ Hlen] _].
  pose proof (vo_bound _ _ Hv k) as Hb. split_and!; [|lia|lia|by rewrite ver_succ_small by lia].
  rewrite (replay_versions _ _ _ 0 Hrep).
  - unfold cur_version. cbn. by rewrite lookup_empty.
  - intros k0. unfold cur_version. cbn. rewrite lookup_empty. cbn. lia.
  - lia.
Qed.

Lemma kv_version_counts_witness :
  cur_version (s_srv quiet_sys) "x" = 2 ∧ len (applied_to "x" (s_execs quiet_sys)) = 2 ∧ 0 <= 2 < 2 ^ 63.
Proof.
  destruct (kv_version_counts demo_progs quiet_sys "x" quiet_reachable eq_refl) as (H & _ & _).
  split; [reflexivity|]. split; [rewrite <-H; reflexivity|lia].
Defined.

(** C15: what the errors of [Put] mean.  A logged [Put] was applied by at most one
    run of the handler, and with its own arguments, whichever of its requests are
    lost, repeated or run late.  It was applied by exactly one, before the clerk
    returned, when the clerk answered [OK], and by none when it answered
    [ErrVersion].  [ErrNoKey] does not exclude it: a run that applied the [Put] has
    then come after a run of the same call that found the key absent. *)
Theorem kv_put_errors {P : Type} `{!KVClient P} (ps : list P) (s : Sys P) o :
  reachable ps s → s_clock s < 2 ^ 63 → o ∈ s_oplog s → is_put o →
  (length (applied_runs s o) <= 1)%nat ∧
  (∀ x, x ∈ applied_runs s o → x_op x = OpPut (put_args_of (op_Input o))) ∧
  (ko_Err (op_Output o) = OK → ∃ x, applied_runs s o = [x] ∧ x_time x < op_Return o) ∧
  (ko_Err (op_Output o) = ErrVersion → applied_runs s o = []) ∧
  (ko_Err (op_Output o) = ErrNoKey → ∀ x, x ∈ applied_runs s o →
     ∃ y, y ∈ s_execs s ∧ x_call y = op_Call o ∧ x_rep y = RepPut (MkPutReply ErrNoKey) ∧
       x_time y < x_time x).
Proof.
  intros Hr Hclk Ho Hput. pose proof (reachable_inv ps s Hr ltac:(lia)) as Hinv. split_and!.
  - by apply applied_runs_le1.
  - intros x Hx. by destruct (applied_runs_mark s o x Hinv Ho Hx Hput) as (_ & _ & ? & _).
  - by apply applied_runs_ok.
  - by apply applied_runs_version.
  - intros He x. by apply applied_runs_nokey.
Qed.

(** A [Put] at a version its key has not reached, answered [ErrNoKey] on a second
    request; the first then runs, when the key has got there. *)
Definition absent_progs : list Script := [[put_x "a" 1]; [put_x "b" 0]].
Definition absent_moves : list Move :=
  [MInvoke 0; MLeave 0; MExec 0; MReturn 0; MInvoke 1; MExec 1; MReturn 1; MLate 0].
Definition absent_sys : Sys Script := Eval vm_compute in
  default (init_sys absent_progs) (run_moves (init_sys absent_progs) absent_moves).
Definition absent_op : Operation :=
  MkOperation 0 (MkKvInput 1 "x" "a" 1) 0 (MkKvOutput "" 0 ErrNoKey) 3.

Lemma absent_reachable : reachable absent_progs absent_sys.
Proof. apply (run_moves_reachable _ absent_moves). vm_compute. reflexivity. Qed.

Lemma kv_put_errors_witness :
  (∃ x, applied_runs quiet_sys ok_put = [x] ∧ x_time x < 16) ∧
  length (applied_runs absent_sys absent_op) = 1%nat ∧
  ∀ x, x ∈ applied_runs absent_sys absent_op →
    ∃ y, y ∈ s_execs absent_sys ∧ x_call y = 0 ∧ x_rep y = RepPut (MkPutReply ErrNoKey) ∧
      x_time y < x_time x.
Proof.
  destruct (kv_put_errors demo_progs quiet_sys ok_put) as (_ & _ & Hok & _).
  - exact quiet_reachable.
  - reflexivity.
  - apply (list_elem_of_lookup_2 _ 4%nat). reflexivity.
  - reflexivity.
  - split; [exact (Hok eq_refl)|]. split; [reflexivity|].
    apply (kv_put_errors absent_progs absent_sys absent_op);
      [exact absent_reachable|reflexivity| |reflexivity|reflexivity].
    apply (list_elem_of_lookup_2 _ 0%nat). reflexivity.
Defined.

(** The runs behind [ErrMaybe]: the lost reply of a [Put] that was applied,
    and a lost request of one that another client beat. *)
Definition maybe_moves (first : nat) : list Move :=
  if decide (first = 0%nat) then
    [MInvoke 0; MExec 0; MFail 0; MExec 0; MReturn 0]
  else
    [MInvoke 0; MInvoke 1; MExec 1; MFail 0; MExec 0; MReturn 0].

Definition maybe_sys (first : nat) : Sys Script :=
  default (init_sys demo_progs) (run_moves (init_sys demo_progs) (maybe_moves first)).

(** [ErrMaybe] is really ambiguous.  In one run the clerk answers
    [ErrMaybe] to a [Put] the server applied, in another to one it never
    applied. *)
Theorem kv_maybe_ambiguous :
  reachable demo_progs (maybe_sys 0) ∧ reachable demo_progs (maybe_sys 1) ∧
  ∃ o o', s_oplog (maybe_sys 0) = [o] ∧ s_oplog (maybe_sys 1) = [o'] ∧
    ko_Err (op_Output o) = ErrMaybe ∧ ko_Err (op_Output o') = ErrMaybe ∧
    length (applied_runs (maybe_sys 0) o) = 1%nat ∧ applied_runs (maybe_sys 1) o' = [].
Proof.
  split; [|split].
  - apply (run_moves_reachable _ (maybe_moves 0)). vm_compute. reflexivity.
  - apply (run_moves_reachable _ (maybe_moves 1)). vm_compute. reflexivity.
  - do 2 eexists. split_and!; vm_compute; reflexivity.
Qed.

(** A [Put] of an absent key at a version other than 0, alone. *)
Definition nokey_progs : list Script := [[put_x "a" 5]].
Definition nokey_sys : Sys Script :=
  default (init_sys nokey_progs)
    (run_moves (init_sys nokey_progs) [MInvoke 0; MExec 0; MReturn 0]).

(** The side condition of the porcupine check is needed.  [Put] of an
    absent key at a nonzero version returns [ErrNoKey], as [server.go]
    documents, and [KvModel] accepts no answer but [ErrVersion] and [ErrMaybe]
    there, so the checker rejects the correct history. *)
Theorem kv_model_rejects_nokey :
  reachable nokey_progs nokey_sys ∧ quiescent nokey_sys ∧ ¬ history_ok (s_oplog nokey_sys).
Proof.
  split; [|split].
  - apply (run_moves_reachable _ [MInvoke 0; MExec 0; MReturn 0]). vm_compute. reflexivity.
  - vm_compute. repeat constructor.
  - assert (s_oplog nokey_sys =
      [MkOperation 0 (MkKvInput 1 "x" "a" 5) 0 (MkKvOutput "" 0 "ErrNoKey") 2]) as ->
      by (vm_compute; reflexivity).
    set (o := MkOperation _ _ _ _ _). intros H.
    pose proof (Partition_complete [o] o ltac:(set_solver)) as Hin.
    unfold history_ok in H. rewrite list.Forall_forall in H.
    destruct (H _ Hin) as (l & Hperm & _ & Hacc).
    assert (filter (λ o', op_key o' = op_key o) [o] = [o]) as Hf by reflexivity.
    rewrite Hf in Hperm. apply Permutation_singleton_r in Hperm as ->. discriminate.
Qed.
