(* ===== verification/KvCareful.v ===== *)
(** * Clients that know the versions they name

    A client is careful when it [Put]s only at version 0 and at versions that the
    answers of its clerk have told it the key has.  Then requests that run after
    their call has failed are harmless: no [Put] takes effect once it has been
    answered, none is answered [ErrNoKey], and the service is linearizable as its
    testers want it.  A client that is not careful can see its [Put] take effect
    after the clerk has answered it ([careless_over_network] of [KvNetDemo.v]). *)
From S2P Require Import Prelude Rpc KvSrv KvModel Clerk KvSys KvHist KvLate KvProof KvTheorems.

(** ** Versions a client knows

    A client is careful when it [Put]s only at version 0 and at versions that the
    answers of its clerk have told it the key has.  [knows p k v]: the program
    may [Put] at version [v] of [k]. *)
Class CarefulClient (P : Type) `{!KVClient P} := {
  knows : P → string → Tversion → Prop;
  knows_put p a : next_op p = Some (OpPut a) → knows p (pa_Key a) (pa_Version a);
  knows_local p p' k v : local_step p p' → knows p' k v → knows p k v ∨ v = 0;
  knows_get p g val ver err k v :
    next_op p = Some (OpGet g) → knows (resume p (ResGet val ver err)) k v →
    knows p k v ∨ v = 0 ∨ k = ga_Key g ∧ v = ver;
  knows_answer p a err k v :
    next_op p = Some (OpPut a) → knows (resume p (ResPut err)) k v →
    knows p k v ∨ v = 0 ∨ err = OK ∧ k = pa_Key a ∧ v = ver_succ (pa_Version a);
}.

(** Programs that have read nothing. *)
Definition knows_nothing {P} `{!KVClient P, !CarefulClient P} (ps : list P) : Prop :=
  ∀ p k v, p ∈ ps → knows p k v → v = 0.

(** What an answer tells the client is true of the server; a careful [Put] is not
    answered [ErrNoKey]. *)
Definition answer_true (kv : KVServer) (op : KvOp) (r : KvRep) : Prop :=
  match op, r with
  | OpGet g, RepGet r => 0 <= gr_Version r <= cur_version kv (ga_Key g)
  | OpPut a, RepPut r => pr_Err r ≠ ErrNoKey ∧
      (pr_Err r = OK → 0 <= ver_succ (pa_Version a) <= cur_version kv (pa_Key a))
  | _, _ => False
  end.

Lemma exec_answer_true kv n op :
  bounded kv n → n < 2 ^ 64 - 1 →
  (∀ a, op = OpPut a → 0 <= pa_Version a <= cur_version kv (pa_Key a)) →
  answer_true (srv_exec kv op).1 op (srv_exec kv op).2.
Proof.
  intros Hb Hn Hop. destruct op as [g|a]; cbn.
  - pose proof (Hb (ga_Key g)) as H. unfold Get, cur_version in *.
    destruct (store kv !! ga_Key g) as [e|]; cbn in *; lia.
  - specialize (Hop a eq_refl). destruct (Put kv a) as [kv' r] eqn:Hp; cbn.
    destruct (decide (put_applies kv a)) as [Ha|Ha].
    + pose proof (cur_version_put kv a (pa_Key a) Ha) as Hc. rewrite Hp, decide_True in Hc by done.
      specialize (Hb (pa_Key a)). cbn in Hc. rewrite put_applied in Hp by done. injection Hp as _ <-.
      split; [done|]. intros _. rewrite Hc by lia.
      rewrite ver_succ_small; unfold put_applies in Ha; lia.
    + pose proof Ha as Hna. rewrite put_rejected in Hp by done. injection Hp as _ <-. cbn.
      destruct (store kv !! pa_Key a) as [e|] eqn:He; [by split|exfalso]. apply Hna.
      unfold put_applies, cur_version in *. rewrite He in *. cbn in *. lia.
Qed.

Section Careful.
Context {P : Type} `{!KVClient P, !CarefulClient P}.
Implicit Types s : Sys P.

Definition knows_true (kv : KVServer) (p : P) : Prop :=
  ∀ k v, knows p k v → 0 <= v <= cur_version kv k.

Definition careful_ok (kv : KVServer) (cl : Client P) : Prop :=
  knows_true kv (c_prog cl) ∧
  match c_clerk cl with
  | None => True
  | Some b => next_op (c_prog cl) = Some (b_op b) ∧
      match b_net b with Executed r _ => answer_true kv (b_op b) r | InFlight => True end
  end.

Lemma careful_mono kv kv' cl :
  (∀ k, cur_version kv k <= cur_version kv' k) → careful_ok kv cl → careful_ok kv' cl.
Proof.
  intros Hle [Hk Hc]. split; [intros k v H; specialize (Hk k v H); specialize (Hle k); lia|].
  destruct (c_clerk cl) as [b|]; [|done]. destruct Hc as [Hop Hc]. split; [done|].
  destruct (b_net b) as [|r t]; [done|]. destruct (b_op b) as [g|a], r as [r|r]; cbn in *; try done.
  - specialize (Hle (ga_Key g)). lia.
  - destruct Hc as [H1 H2]. split; [done|]. intros H. specialize (H2 H).
    specialize (Hle (pa_Key a)). lia.
Qed.

Lemma careful_return kv n p b r t res :
  bounded kv n → careful_ok kv (MkClient p (Some b)) → b_net b = Executed r t →
  clerk_iter (b_retried b) (Some r) = Some res → knows_true kv (resume p res).
Proof.
  intros Hb (Hk & Hop & Hans) Hnet Hit. cbn in *. rewrite Hnet in Hans.
  assert (∀ k, 0 <= 0 <= cur_version kv k) as H0 by (intros k; specialize (Hb k); lia).
  destruct (b_op b) as [g|a] eqn:Hbop, r as [r|[e]]; cbn in *; try done.
  - injection Hit as <-. intros k v [H|[->|[-> ->]]]%(knows_get p g _ _ _ _ _ Hop); auto.
  - assert (∃ err, res = ResPut err ∧ (err = OK → e = OK)) as (err & -> & Herr).
    { case_decide; injection Hit as <-; eexists; (split; [done|]); by intros. }
    intros k v [H|[->|(He & -> & ->)]]%(knows_answer p a _ _ _ Hop); [by apply Hk|apply H0|].
    apply Hans; auto.
Qed.

(** The version of a [Put] in progress. *)
Lemma careful_put kv p op a :
  knows_true kv p → next_op p = Some op → op = OpPut a → 0 <= pa_Version a <= cur_version kv (pa_Key a).
Proof. intros Hk Hop ->. by apply Hk, knows_put. Qed.

Definition all_careful s : Prop :=
  ∀ c cl, s_clients s !! c = Some cl → careful_ok (s_srv s) cl.

Lemma careful_step s s' :
  bounded (s_srv s) (s_clock s) → s_clock s < 2 ^ 63 → step s s' → all_careful s → all_careful s'.
Proof.
  intros Hb Hclk Hstep IH. unfold all_careful in *.
  assert (∀ k, 0 <= 0 <= cur_version (s_srv s) k) as H0 by (intros k; specialize (Hb k); lia).
  destruct Hstep as [c p p' Hc Hl|c p op Hc Hop|c p b Hc Hnet|c p b left Hc|
    c p b r t res Hc Hnet Hit|q l1 l2 Hq];
    [pose proof (IH c _ Hc) as [Hk Hcl]; cbn [c_prog c_clerk] in *..|].
  - intros c' cl [(<- & <- & _)|[_ Hc']]%list_lookup_insert_Some; [|by eapply IH].
    split; [|done]. intros k v [H| ->]%(knows_local p p' k v Hl); [by apply Hk|apply H0].
  - intros c' cl [(<- & <- & _)|[_ Hc']]%list_lookup_insert_Some; [|by eapply IH]. by split.
  - destruct (exec_bounded _ _ (b_op b) Hb ltac:(lia)) as [_ Hle]. destruct Hcl as [Hop _].
    pose proof (exec_answer_true _ _ (b_op b) Hb ltac:(lia) (λ a, careful_put _ p _ a Hk Hop)) as Ha.
    destruct (do_exec_view s c p b) as (E1 & E2 & _). rewrite E1, E2.
    intros c' cl [(<- & <- & _)|[_ Hc']]%list_lookup_insert_Some.
    + split; [intros k v H; specialize (Hk k v H); specialize (Hle k); cbn; lia|]. by split.
    + by eapply careful_mono, IH.
  - intros c' cl [(<- & <- & _)|[_ Hc']]%list_lookup_insert_Some; [|by eapply IH].
    split; [done|]. by destruct Hcl.
  - intros c' cl [(<- & <- & _)|[_ Hc']]%list_lookup_insert_Some; [|by eapply IH].
    split; [|done]. exact (careful_return _ _ p b r t res Hb (IH c _ Hc) Hnet Hit).
  - destruct (exec_bounded _ _ (lr_op q) Hb ltac:(lia)) as [_ Hle].
    destruct (do_late_view s q (l1 ++ l2)) as (E1 & E2 & _). rewrite E1, E2.
    intros c cl Hc. by eapply careful_mono, IH.
Qed.

Lemma careful_puts_due s K : all_careful s → puts_due K s.
Proof. intros H c p a Hc Hop _. destruct (H c _ Hc) as [Hk _]. by apply (Hk _ _ (knows_put _ _ Hop)). Qed.

(** ** The log of careful clients *)

(** No logged call is applied once it has returned. *)
Definition settled s : Prop :=
  ∀ o x a, o ∈ s_oplog s → x ∈ s_execs s → x_call x = op_Call o → applied_put x a →
    x_time x < op_Return o.

Definition none_absent s : Prop := Forall (λ o, ¬ is_put_nokey o) (s_oplog s).

Lemma return_not_absent s c p b r t res :
  all_careful s → s_clients s !! c = Some (MkClient p (Some b)) → b_net b = Executed r t →
  clerk_iter (b_retried b) (Some r) = Some res →
  ¬ is_put_nokey (log_op c (b_op b) (b_call b) (s_clock s) res).
Proof.
  intros Hall Hc Hnet Hit [Hput He]. destruct (Hall c _ Hc) as (_ & _ & Hans). cbn in *.
  rewrite Hnet in Hans. destruct (b_op b) as [g|a], r as [r|[e]]; cbn in *; try done.
  destruct Hans as [Hans _]. cbn in Hans. case_decide; injection Hit as <-; cbn in He; [discriminate|done].
Qed.

Lemma settled_step s s' :
  inv s → all_careful s → late_inv (λ _, True) s → step s s' →
  settled s ∧ none_absent s → settled s' ∧ none_absent s'.
Proof.
  intros [Hh [ms Hm]] Hall Hlt Hstep [Hs Hn].
  destruct Hstep as [c p p' Hc Hl|c p op Hc Hop|c p b Hc Hnet|c p b left Hc|
    c p b r t res Hc Hnet Hit|q l1 l2 Hq]; try done; unfold settled, none_absent.
  - destruct (do_exec_view s c p b) as (_ & _ & _ & -> & -> & _). split; [|done].
    intros o x a Ho [Hx| ->%list_elem_of_singleton]%elem_of_app Hcall Ha; [by eapply Hs|].
    by destruct (logged_idle _ _ _ _ _ _ Hm Ho Hc).
  - split; [|apply Forall_app; split; [done|apply Forall_singleton; by eapply return_not_absent]].
    intros o x a [Ho| ->%list_elem_of_singleton]%elem_of_app Hx Hcall Ha; [by eapply Hs|].
    cbn. by apply (hi_lt _ Hh).
  - destruct (do_late_view s q (l1 ++ l2)) as (_ & _ & _ & -> & -> & _). split; [|done].
    intros o x a Ho [Hx| ->%list_elem_of_singleton]%elem_of_app Hcall Ha; [by eapply Hs|exfalso].
    assert (q ∈ s_late s) as Hin by (rewrite Hq; set_solver).
    destruct (li_late _ _ Hlt q Hin I) as [Hsp|(p & b & Hc & Hb & _)].
    + pose proof Ha as [Hopa _]. cbn in Hopa. apply (exec_put_applied (s_srv s) _ a) in Ha; [|done|done].
      rewrite Hopa in Hsp. unfold put_applies in Ha. cbn in Hsp. lia.
    + cbn in Hcall. apply (logged_idle _ _ _ _ _ _ Hm Ho Hc). congruence.
Qed.

(** What is true of every run of careful clients. *)
Lemma careful_inv ps s :
  knows_nothing ps → reachable ps s → s_clock s < 2 ^ 63 →
  all_careful s ∧ late_inv (λ _, True) s ∧ settled s ∧ none_absent s.
Proof.
  intros Hps Hr Hclk. revert s Hr Hclk. refine (rtc_ind_r (λ s, s_clock s < 2 ^ 63 →
    all_careful s ∧ late_inv (λ _, True) s ∧ settled s ∧ none_absent s) _ _ _).
  - intros _. split_and!; [|apply late_inv_init|by intros o x a ?%elem_of_nil|constructor].
    intros c cl. cbn. rewrite list_lookup_fmap.
    intros (p & Hp%list_elem_of_lookup_2 & ->)%fmap_Some. split; [|done]. cbn.
    intros k v H. rewrite (Hps p k v Hp H). unfold cur_version. cbn. by rewrite lookup_empty.
  - intros s1 s2 Hr Hstep IH Hclk. rewrite (step_clock _ _ Hstep) in Hclk.
    destruct (IH ltac:(lia)) as (Hall & Hlt & Hlog).
    pose proof (reachable_inv ps s1 Hr ltac:(lia)) as Hinv. split; [|split].
    + apply (careful_step s1); [apply Hlt|lia|done|done].
    + apply (late_inv_step _ s1); [done|lia|by apply careful_puts_due|done].
    + by apply (settled_step s1).
Qed.

(** No answer has to be taken back. *)
Lemma settled_log_same s log' :
  settled s → none_absent s → inv s → Forall2 (reopened s) (s_oplog s) log' → log' = s_oplog s.
Proof.
  intros Hs Hn [Hh _] Hlog.
  assert (∀ o o', o ∈ s_oplog s → reopened s o o' → o' = o) as Hsame.
  { intros o o' Ho [?|(_ & x & Hx & (Hin & _ & Hcall & _) & [a Ha] & Herr)]; [done|exfalso].
    destruct Herr as [[_ Hlt]|He].
    - specialize (Hs o x a Ho Hx (eq_sym Hcall) Ha). lia.
    - unfold none_absent in Hn. rewrite list.Forall_forall in Hn. apply (Hn o Ho). split; [|done].
      destruct Ha as [Hop _]. by rewrite Hin, Hop. }
  clear Hs Hn. induction Hlog as [|o o' l l' Ho _ IH]; [done|].
  rewrite (Hsame o o'); [|set_solver|done]. f_equal. apply IH. intros. apply Hsame; [set_solver|done].
Qed.

(** The service is linearizable for careful clients although any request may still
    run after its call has failed: whenever, the logged operations together with
    some of the calls in progress can be put in an order that respects real time
    and that the server would have answered alike. *)
Lemma careful_linearizable ps s :
  knows_nothing ps → reachable ps s → s_clock s < 2 ^ 63 →
  ∃ pend, Forall (pending_completion s) pend ∧ NoDup (op_ClientId <$> pend) ∧
    strict_linearizable (s_oplog s ++ pend).
Proof.
  intros Hps Hr Hclk. destruct (careful_inv ps s Hps Hr Hclk) as (_ & _ & Hs & Hn).
  pose proof (reachable_inv ps s Hr ltac:(lia)) as Hinv.
  destruct (inv_linearizable s Hinv) as (pend & log' & Hp & Hnd & Hlog & l & Hl).
  rewrite (settled_log_same s log' Hs Hn Hinv Hlog) in Hl.
  exists pend. split_and!; [done|done|]. by exists l, (s_srv s).
Qed.

(** With every call returned, the testers' check accepts the log. *)
Lemma careful_history ps s :
  knows_nothing ps → reachable ps s → s_clock s < 2 ^ 63 → quiescent s → history_ok (s_oplog s).
Proof.
  intros Hps Hr Hclk Hq. destruct (careful_linearizable ps s Hps Hr Hclk) as (pend & Hp & _ & Hlin).
  assert (pend = []) as ->.
  { destruct pend as [|o pend]; [done|exfalso].
    apply list.Forall_cons in Hp as [(p & b & Hc & _) _].
    unfold quiescent in Hq. rewrite list.Forall_lookup in Hq. by specialize (Hq _ _ Hc). }
  rewrite app_nil_r in Hlin. apply strict_history_ok; [done|].
  by destruct (careful_inv ps s Hps Hr Hclk) as (_ & _ & _ & ?).
Qed.
End Careful.
(** ** Histories without overlap *)

(** Operations one after the other have one order only. *)
Lemma sequential_order (ops l : list Operation) :
  StronglySorted precedes ops → Forall (λ o, op_Call o <= op_Return o) ops →
  l ≡ₚ ops → respects_time l → l = ops.
Proof.
  intros Hops Hcr Hp Hl. rewrite list.Forall_forall in Hcr.
  assert (∀ a b, a ∈ ops → b ∈ ops → precedes a b ∨ precedes b a ∨ a = b) as Htot.
  { clear -Hops. induction Hops as [|x ops _ IH Hx]; [by intros ?? ?%elem_of_nil|].
    rewrite list.Forall_forall in Hx. intros a b [->|Ha]%elem_of_cons [->|Hb]%elem_of_cons; auto. }
  eapply (StronglySorted_unique_strong (λ a b, ¬ precedes b a)); [|done| |done].
  - intros a b Ha Hb H1 H2. rewrite Hp in Ha. destruct (Htot a b Ha Hb) as [?|[?|?]]; done.
  - clear Hl Hp Htot. induction Hops as [|x ops Hs IH Hx]; constructor.
    + apply IH. intros o Ho. apply Hcr. set_solver.
    + rewrite list.Forall_forall in *. intros b Hb Hbx. specialize (Hx b Hb). unfold precedes in *.
      pose proof (Hcr x ltac:(set_solver)). pose proof (Hcr b ltac:(set_solver)). lia.
Qed.
