(* ===== verification/KvRule.v ===== *)
(** * Sequential reasoning about the clients of the key/value service

    A client of [KvSys.v] may reason about its clerk as if each call ran at one
    moment: a [Get] returns what the service holds, a [Put] is applied or
    refused, and an applied [Put] may be answered [ErrMaybe].  The state of the
    service is the history of the [Put]s that were applied.  [ClientSpec] lists
    what a program has to keep at each call, which includes to [Put] only at
    versions the key has had, and [client_rule] concludes that every client keeps
    it, however the clients, retries, losses and late requests interleave. *)
From S2P Require Import Prelude Rpc KvSrv KvModel Clerk KvSys KvHist KvLate.

(** ** Histories *)

(** The applied [Put]s, each with the client that called it. *)
Abbreviation History := (list (nat * PutArgs)).

Definition kv_of (H : History) : KVServer :=
  foldl (λ kv p, (Put kv p.2).1) MakeKVServer H.

Definition on_key (k : string) (H : History) : History := filter (λ p, pa_Key p.2 = k) H.
Definition mine (c : nat) (H : History) : History := filter (λ p, p.1 = c) H.

(** Every [Put] of the history applied when its turn came. *)
Inductive hist_wf : History → Prop :=
| hist_wf_nil : hist_wf []
| hist_wf_snoc H c a :
    hist_wf H → put_applies (kv_of H) a → hist_wf (H ++ [(c, a)]).

Definition hist_ok (H : History) : Prop := hist_wf H ∧ len H < 2 ^ 63.

Lemma kv_of_snoc H c a : kv_of (H ++ [(c, a)]) = (Put (kv_of H) a).1.
Proof. unfold kv_of. by rewrite foldl_app. Qed.

Lemma len_snoc {A} (l : list A) x : len (l ++ [x]) = len l + 1.
Proof. unfold len. rewrite length_app. simpl. lia. Qed.

Lemma on_key_snoc k H c a :
  on_key k (H ++ [(c, a)]) = on_key k H ++ (if decide (pa_Key a = k) then [(c, a)] else []).
Proof. unfold on_key. rewrite list.filter_app, list.filter_cons. cbn. by case_decide. Qed.

Lemma mine_snoc c H c' a :
  mine c (H ++ [(c', a)]) = mine c H ++ (if decide (c' = c) then [(c', a)] else []).
Proof. unfold mine. rewrite list.filter_app, list.filter_cons. cbn. by case_decide. Qed.

Lemma on_key_len k H : 0 <= len (on_key k H) <= len H.
Proof. unfold len, on_key. pose proof (length_filter (λ p, pa_Key p.2 = k) H). lia. Qed.

Lemma on_key_all k H : Forall (λ q : nat * PutArgs, pa_Key q.2 = k) H → on_key k H = H.
Proof.
  unfold on_key. induction 1 as [|q H Hq _ IH]; [done|]. by rewrite filter_cons_True, IH.
Qed.

Lemma hist_wf_inv H c a : hist_wf (H ++ [(c, a)]) → hist_wf H ∧ put_applies (kv_of H) a.
Proof.
  inversion 1 as [Heq|H' c' a' Hwf Ha Heq]; [by destruct H|].
  apply app_inj_tail in Heq as [-> [= -> ->]]. done.
Qed.

(** The store holds the last [Put] of each key, at the number of its [Put]s. *)
Lemma kv_of_store H k :
  hist_wf H → len H < 2 ^ 64 - 1 →
  store (kv_of H) !! k =
    (λ p : nat * PutArgs, MkEntry (pa_Value p.2) (len (on_key k H))) <$> list.last (on_key k H).
Proof.
  induction 1 as [|H c a Hwf IH Ha]; intros Hlen; [by cbn; rewrite lookup_empty|].
  rewrite len_snoc in Hlen. specialize (IH ltac:(lia)).
  rewrite kv_of_snoc, put_applied, on_key_snoc by done. cbn [fst store].
  destruct (decide (pa_Key a = k)) as [<-|Hk].
  - rewrite lookup_insert_eq, list.last_snoc, len_snoc. cbn. do 2 f_equal.
    unfold cur_version. rewrite IH. pose proof (on_key_len (pa_Key a) H) as Hb.
    destruct (list.last (on_key (pa_Key a) H)) as [p|] eqn:Hl; cbn.
    + apply ver_succ_small. lia.
    + apply last_None in Hl as ->. done.
  - rewrite lookup_insert_ne, app_nil_r by done. done.
Qed.

Lemma kv_of_version H k :
  hist_wf H → len H < 2 ^ 64 - 1 → cur_version (kv_of H) k = len (on_key k H).
Proof.
  intros Hwf Hlen. unfold cur_version. rewrite kv_of_store by done.
  destruct (list.last (on_key k H)) as [p|] eqn:Hl; [done|]. by apply last_None in Hl as ->.
Qed.

(** A key holds the [Put] of version [i] as its [i]-th. *)
Lemma hist_versions H k i c a :
  hist_wf H → len H < 2 ^ 64 - 1 → on_key k H !! i = Some (c, a) → pa_Version a = Z.of_nat i.
Proof.
  intros Hwf. revert i c a. induction Hwf as [|H c' a' Hwf IH Ha]; intros i c a Hlen; [done|].
  rewrite len_snoc in Hlen. rewrite on_key_snoc. destruct (decide _) as [<-|].
  - intros [[_ Hi]|[-> [= <- <-]]]%lookup_snoc_Some; [by eapply IH; [lia|]|].
    unfold put_applies in Ha. by rewrite Ha, kv_of_version by (done || lia).
  - rewrite app_nil_r. apply IH. lia.
Qed.

Lemma hist_wf_key_exists H k :
  hist_wf H → len H < 2 ^ 64 - 1 → is_Some (store (kv_of H) !! k) ↔ 0 < len (on_key k H).
Proof.
  intros Hwf Hlen. rewrite kv_of_store, fmap_is_Some, list.last_is_Some by done.
  unfold len. destruct (on_key k H); simpl; split; try done; lia.
Qed.

(** ** The history of a run *)

Definition exec_put (x : Exec) : option (nat * PutArgs) :=
  match x_op x, x_rep x with
  | OpPut a, RepPut r => if decide (pr_Err r = OK) then Some (x_cid x, a) else None
  | _, _ => None
  end.

Section Rule.
Context {P : Type} `{!KVClient P}.

Definition hist (s : Sys P) : History := omap exec_put (s_execs s).

(** ** What a program keeps

    [J c p H t]: client [c] is between calls in state [p], the history is [H]
    and the time [t].  [Hinv] is what all clients keep of the history.  [R]
    restricts the steps of the system; in a [reliable] one no call fails. *)
Context (reliable : bool) (R : Sys P → Sys P → Prop)
  (Hinv : History → Prop) (J : nat → P → History → Z → Prop).

Record ClientSpec : Prop := {
  cs_fail s c p b left : R s (do_fail s c p b left) → reliable = false;
  cs_due c p H t a :
    hist_ok H → Hinv H → J c p H t → next_op p = Some (OpPut a) → due (kv_of H) (OpPut a);
  cs_time c p H t t' : t <= t' → J c p H t → J c p H t';
  cs_stable c p H t c' a :
    hist_ok (H ++ [(c', a)]) → Hinv (H ++ [(c', a)]) → c' ≠ c → J c p H t →
    J c p (H ++ [(c', a)]) t;
  cs_local s c p p' :
    (∀ c' q, s_clients s !! c' = Some (MkClient q None) → J c' q (hist s) (s_clock s)) →
    s_clients s !! c = Some (MkClient p None) → local_step p p' → R s (do_local s c p') →
    hist_ok (hist s) → Hinv (hist s) → J c p' (hist s) (s_clock s);
  cs_get c p H t g :
    hist_ok H → Hinv H → t < 2 ^ 63 - 1 → J c p H t → next_op p = Some (OpGet g) →
    let r := Get (kv_of H) g in
    J c (resume p (ResGet (gr_Value r) (gr_Version r) (gr_Err r))) H (t + 1);
  cs_put c p H t a :
    hist_ok (H ++ [(c, a)]) → Hinv H → t < 2 ^ 63 - 1 → J c p H t →
    next_op p = Some (OpPut a) → put_applies (kv_of H) a →
    Hinv (H ++ [(c, a)]) ∧ J c (resume p (ResPut OK)) (H ++ [(c, a)]) (t + 1) ∧
    (reliable = false → J c (resume p (ResPut ErrMaybe)) (H ++ [(c, a)]) (t + 1));
  cs_stale c p H t a :
    hist_ok H → Hinv H → J c p H t → next_op p = Some (OpPut a) →
    ¬ put_applies (kv_of H) a → is_Some (store (kv_of H) !! pa_Key a) →
    J c (resume p (ResPut ErrVersion)) H (t + 1) ∧
    (reliable = false → J c (resume p (ResPut ErrMaybe)) H (t + 1));
  cs_nokey c p H t a :
    hist_ok H → Hinv H → J c p H t → next_op p = Some (OpPut a) →
    ¬ put_applies (kv_of H) a → store (kv_of H) !! pa_Key a = None →
    J c (resume p (ResPut ErrNoKey)) H (t + 1);
}.

(** ** The invariant behind the rule *)

(** The call has had no effect; an answer it has had may be acted on. *)
Definition unapplied (c : nat) (p : P) (b : Busy) (H : History) (t : Z) : Prop :=
  J c p H t ∧
  ∀ r t0 res, b_net b = Executed r t0 → clerk_iter (b_retried b) (Some r) = Some res →
    J c (resume p res) H (t + 1).

(** The call is a [Put] that was applied. *)
Definition applied (c : nat) (p : P) (b : Busy) (H : History) (t : Z) : Prop :=
  ∃ a, b_op b = OpPut a ∧ pa_Version a < cur_version (kv_of H) (pa_Key a) ∧
    is_Some (store (kv_of H) !! pa_Key a) ∧
    (reliable = false → J c (resume p (ResPut ErrMaybe)) H (t + 1)) ∧
    match b_net b with
    | InFlight => b_retried b = true
    | Executed r _ =>
        r = RepPut (MkPutReply OK) ∧ J c (resume p (ResPut OK)) H (t + 1) ∨
        r = RepPut (MkPutReply ErrVersion) ∧ b_retried b = true
    end.

Definition client_ok (H : History) (t : Z) (c : nat) (cl : Client P) : Prop :=
  match c_clerk cl with
  | None => J c (c_prog cl) H t
  | Some b =>
      next_op (c_prog cl) = Some (b_op b) ∧ (b_retried b = true → reliable = false) ∧
      (unapplied c (c_prog cl) b H t ∨ applied c (c_prog cl) b H t)
  end.

Record rule_inv (s : Sys P) : Prop := {
  ri_srv : s_srv s = kv_of (hist s);
  ri_wf : hist_wf (hist s);
  ri_len : len (hist s) <= s_clock s;
  ri_cids p : p ∈ hist s → (p.1 < length (s_clients s))%nat;
  ri_hinv : Hinv (hist s);
  ri_clients c cl : s_clients s !! c = Some cl → client_ok (hist s) (s_clock s) c cl;
}.

Context (CS : ClientSpec).

Lemma rule_hist_ok s : rule_inv s → s_clock s < 2 ^ 63 → hist_ok (hist s).
Proof using All. intros [_ Hwf Hlen _ _ _] Hclk. split; [done|lia]. Qed.

Lemma client_ok_time H t t' c cl : t <= t' → client_ok H t c cl → client_ok H t' c cl.
Proof using All.
  intros Ht. unfold client_ok. destruct (c_clerk cl) as [b|]; [|by apply (cs_time CS)].
  assert (∀ q, J c q H (t + 1) → J c q H (t' + 1)) as Hmono.
  { intros q. apply (cs_time CS). lia. }
  intros (Hop & Hr & [[HJ Hans]|(a & Ha & Hver & He & Hm & Hnet)]); split_and!; [done|done|left|done|done|right].
  - split; [by eapply (cs_time CS)|eauto].
  - exists a. split_and!; [done..|auto|]. destruct (b_net b); [done|naive_solver].
Qed.

(** Steps that leave the history alone. *)
Lemma rule_frame s s' c cl :
  rule_inv s → s_srv s' = s_srv s → hist s' = hist s → s_clock s <= s_clock s' →
  s_clients s' = <[c := cl]> (s_clients s) → client_ok (hist s) (s_clock s') c cl → rule_inv s'.
Proof using All.
  intros [H1 H2 H3 H4 H5 H6] Hs Hh Hc Hcl Hok. split; rewrite ?Hh, ?Hs, ?Hcl; try done.
  - lia.
  - by rewrite length_insert.
  - intros c' cl'. rewrite list_lookup_insert_Some.
    intros [(<- & <- & _)|[_ Hl]]; [done|]. eapply client_ok_time; [done|by apply H6].
Qed.

(** No client moves. *)
Lemma rule_same s s' :
  rule_inv s → s_srv s' = s_srv s → hist s' = hist s → s_clock s <= s_clock s' →
  s_clients s' = s_clients s → rule_inv s'.
Proof using All.
  intros [H1 H2 H3 H4 H5 H6] Hs Hh Hc Hcl. split; rewrite ?Hh, ?Hs, ?Hcl; try done; [lia|].
  intros c cl Hl. eapply client_ok_time; [done|by apply H6].
Qed.

(** The call is tried again. *)
Lemma client_ok_again H t c p b b' :
  client_ok H t c (MkClient p (Some b)) → reliable = false → b_op b' = b_op b →
  b_net b' = InFlight → b_retried b' = true → client_ok H t c (MkClient p (Some b')).
Proof using.
  unfold client_ok. cbn. intros (Hop & _ & Hcase) Hrel Ho Hn Hr. rewrite Ho. split_and!; [done|done|].
  destruct Hcase as [[HJ _]|(a & Ha & Hver & He & Hm & _)]; [left|right].
  - split; [done|]. intros r t0 res Hb. congruence.
  - exists a. rewrite Ho, Hn. by split_and!.
Qed.

(** Another client's [Put] is applied. *)
Lemma client_ok_stable H t c cl c' a :
  hist_ok (H ++ [(c', a)]) → Hinv (H ++ [(c', a)]) → c' ≠ c →
  client_ok H t c cl → client_ok (H ++ [(c', a)]) t c cl.
Proof using All.
  intros Hok HH Hne. unfold client_ok. destruct (c_clerk cl) as [b|].
  2: { by apply (cs_stable CS). }
  intros (Hop & Hr & Hcase). split_and!; [done|done|].
  pose proof Hok as [Hwf Hlen]. pose proof (hist_wf_inv _ _ _ Hwf) as [Hwf0 _].
  rewrite len_snoc in Hlen.
  destruct Hcase as [[HJ Hans]|(a0 & Ha & Hver & [e He] & Hm & Hnet)]; [left|right].
  - split; [by apply (cs_stable CS)|]. intros r t0 res Hb Hi.
    apply (cs_stable CS); try done. by eapply Hans.
  - exists a0. split_and!; [done|..].
    + rewrite kv_of_version in * by (rewrite ?len_snoc; done || lia). rewrite on_key_snoc.
      case_decide; rewrite ?len_snoc, ?app_nil_r; lia.
    + rewrite kv_of_snoc. apply elem_of_dom. eapply put_keeps_keys. by eapply elem_of_dom_2.
    + intros Hrel. by apply (cs_stable CS); auto.
    + destruct (b_net b) as [|r t0]; [done|].
      destruct Hnet as [[-> HJ]|?]; [left; split; [done|by apply (cs_stable CS)]|by right].
Qed.

(** What a run adds to the history. *)
Definition new_puts (kv : KVServer) (c : nat) (op : KvOp) : History :=
  match op with
  | OpPut a => if decide (put_applies kv a) then [(c, a)] else []
  | OpGet _ => []
  end.

Lemma hist_run s s' x :
  s_execs s' = s_execs s ++ [x] → x_rep x = (srv_exec (s_srv s) (x_op x)).2 →
  hist s' = hist s ++ new_puts (s_srv s) (x_cid x) (x_op x).
Proof using.
  intros Hx Hrep. unfold hist. rewrite Hx, omap_app. f_equal. cbn. unfold exec_put. rewrite Hrep.
  destruct (x_op x) as [g|a]; cbn; [done|].
  pose proof (put_reply_ok_iff (s_srv s) a) as Hiff.
  destruct (Put (s_srv s) a) as [kv1 r1]. cbn in *.
  case_decide as Hd; case_decide as Hd'; try done; exfalso; tauto.
Qed.

Lemma hist_exec s c p b : hist (do_exec s c p b) = hist s ++ new_puts (s_srv s) c (b_op b).
Proof using.
  destruct (do_exec_view s c p b) as (_ & _ & _ & _ & Hx & _). by rewrite (hist_run _ _ _ Hx).
Qed.

Lemma hist_late s q l : hist (do_late s q l) = hist s ++ new_puts (s_srv s) (lr_cid q) (lr_op q).
Proof using.
  destruct (do_late_view s q l) as (_ & _ & _ & _ & Hx & _). by rewrite (hist_run _ _ _ Hx).
Qed.

(** ** A handler runs *)

Definition executed (c : nat) (p : P) (b : Busy) (r : KvRep) (t : Z) : Client P :=
  MkClient p (Some (MkBusy (b_op b) (b_call b) (b_retried b) (Executed r t))).

Lemma srv_exec_put kv a : srv_exec kv (OpPut a) = ((Put kv a).1, RepPut (Put kv a).2).
Proof using. cbn. by destruct (Put kv a). Qed.

(** The answer to a [Get]. *)
Lemma exec_get_ok H t0 t c p b g :
  hist_ok H → Hinv H → t < 2 ^ 63 - 1 → b_op b = OpGet g →
  client_ok H t c (MkClient p (Some b)) →
  client_ok H t c (executed c p b (RepGet (Get (kv_of H) g)) t0).
Proof using All.
  intros Hok HH Ht Hop (Hnext & Hr & Hcase). unfold client_ok. cbn in *.
  split_and!; [done|done|left]. destruct Hcase as [[HJ _]|(a & ? & _)]; [|congruence].
  split; [done|]. intros r t1 res [= <- _] [= <-]. apply (cs_get CS); congruence.
Qed.

(** The answer to a [Put] that does not apply. *)
Lemma exec_refused_ok H t0 t c p b a :
  hist_ok H → Hinv H → b_op b = OpPut a → b_net b = InFlight → ¬ put_applies (kv_of H) a →
  client_ok H t c (MkClient p (Some b)) →
  client_ok H t c (executed c p b (RepPut (Put (kv_of H) a).2) t0).
Proof using All.
  intros Hok HH Hop Hnet Ha (Hnext & Hr & Hcase). unfold client_ok. cbn in *.
  rewrite Hop in Hnext. rewrite put_rejected by done. cbn. split_and!; [congruence|done|].
  destruct Hcase as [[HJ _]|(a0 & Ha0 & Hver & [e He] & Hm & Hfly)].
  - left. split; [done|]. intros r t1 res [= <- _]. cbn.
    destruct (store (kv_of H) !! pa_Key a) as [e|] eqn:He.
    + destruct (cs_stale CS c p H t a) as [H1 H2]; try done.
      destruct (decide _) as [[_ Hret]|]; intros [= <-]; [apply H2; auto|done].
    + intros [= <-]. by apply (cs_nokey CS c p H t a).
  - assert (a0 = a) as -> by congruence. right. exists a. cbn. rewrite He, Hnet in *.
    split_and!; try done. right. by split.
Qed.

(** The answer to a [Put] that applies. *)
Lemma exec_applied_ok H t0 t c p b a :
  hist_ok (H ++ [(c, a)]) → Hinv H → t < 2 ^ 63 - 1 → b_op b = OpPut a →
  put_applies (kv_of H) a → client_ok H t c (MkClient p (Some b)) →
  Hinv (H ++ [(c, a)]) ∧
  client_ok (H ++ [(c, a)]) t c (executed c p b (RepPut (MkPutReply OK)) t0).
Proof using All.
  intros Hok' HH Ht Hop Ha (Hnext & Hr & Hcase). cbn in *.
  destruct Hcase as [[HJ _]|(a0 & Ha0 & Hver & _)].
  2: { assert (a0 = a) as -> by congruence. unfold put_applies in Ha. lia. }
  destruct (cs_put CS c p H t a) as (HH' & HJok & HJm); try done; [congruence|].
  split; [done|]. unfold client_ok. cbn. split_and!; [congruence|done|right].
  pose proof Hok' as [Hwf' Hlen']. pose proof (hist_wf_inv _ _ _ Hwf') as [Hwf _].
  rewrite len_snoc in Hlen'. exists a. split_and!; [done|..|done|by left].
  - rewrite kv_of_version by (rewrite ?len_snoc; done || lia).
    rewrite on_key_snoc, decide_True, len_snoc by done.
    unfold put_applies in Ha. rewrite Ha, kv_of_version by (done || lia). lia.
  - rewrite kv_of_snoc, (put_applied _ _ Ha). cbn. rewrite lookup_insert_eq. eauto.
Qed.

Lemma rule_exec s c p b :
  rule_inv s → s_clients s !! c = Some (MkClient p (Some b)) → b_net b = InFlight →
  s_clock s < 2 ^ 63 - 1 → rule_inv (do_exec s c p b).
Proof using All.
  intros Hi Hc Hnet Hclk. pose proof Hi as [Hsrv Hwf Hlen Hcids HH Hcl].
  pose proof (rule_hist_ok s Hi ltac:(lia)) as Hok. pose proof (Hcl c _ Hc) as Hold.
  pose proof (hist_exec s c p b) as Hhist. unfold new_puts in Hhist.
  destruct (do_exec_view s c p b) as (Hsrv' & Hcls & Hclk' & _).
  change (MkClient p _) with (executed c p b (srv_exec (s_srv s) (b_op b)).2 (s_clock s)) in Hcls.
  destruct (b_op b) as [g|a] eqn:Hbop; [|destruct (decide (put_applies (s_srv s) a)) as [Ha|Ha]].
  - rewrite app_nil_r in Hhist. eapply (rule_frame s); [done|done|done|lia|done|].
    rewrite Hclk'. eapply client_ok_time; [|cbn; rewrite Hsrv; by apply exec_get_ok]; lia.
  - rewrite srv_exec_put in Hcls, Hsrv'. cbn [fst snd] in Hcls, Hsrv'. rewrite Hsrv in Ha, Hsrv'.
    rewrite <-(kv_of_snoc _ c) in Hsrv'. rewrite Hsrv, (put_applied _ _ Ha) in Hcls. cbn in Hcls.
    assert (hist_ok (hist s ++ [(c, a)])) as Hok'.
    { split; [by constructor|]. rewrite len_snoc. lia. }
    destruct (exec_applied_ok (hist s) (s_clock s) (s_clock s) c p b a) as [HH' Hnew]; try done.
    split; rewrite ?Hhist, ?Hcls, ?Hclk'; [done|by destruct Hok'|rewrite len_snoc; lia| |done|].
    + intros q [Hq| ->%list_elem_of_singleton]%elem_of_app; rewrite length_insert; [by apply Hcids|].
      by eapply lookup_lt_Some.
    + intros c' cl'. rewrite list_lookup_insert_Some.
      intros [(<- & <- & _)|[Hne Hl]]; apply (client_ok_time _ (s_clock s)); [lia|done|lia|].
      apply client_ok_stable; auto.
  - rewrite srv_exec_put in Hcls, Hsrv'. cbn [fst snd] in Hcls, Hsrv'.
    rewrite app_nil_r in Hhist.
    eapply (rule_frame s); [done|by rewrite Hsrv', (put_rejected _ _ Ha)|done|lia|done|].
    rewrite Hclk', Hsrv in *. eapply client_ok_time; [|by apply exec_refused_ok]. lia.
Qed.

(** A request left running runs: it has lost its effect, or it does in place of
    its call what that would do now. *)
Lemma rule_late s q l1 l2 :
  rule_inv s → late_inv (λ _, True) s → s_late s = l1 ++ q :: l2 → s_clock s < 2 ^ 63 - 1 →
  rule_inv (do_late s q (l1 ++ l2)).
Proof using All.
  intros Hi Hlt Hq Hclk. destruct (do_late_view s q (l1 ++ l2)) as (F1 & F2 & F3 & _).
  pose proof (hist_late s q (l1 ++ l2)) as Hhist.
  destruct (li_late _ _ Hlt q ltac:(rewrite Hq; set_solver) I) as [Hsp|Hag].
  - apply (rule_same s); [done|by rewrite F1, spent_idle| |lia|done]. rewrite Hhist.
    destruct (lr_op q) as [g|a]; cbn; [by rewrite app_nil_r|].
    rewrite decide_False, app_nil_r; [done|]. unfold put_applies. cbn in Hsp. lia.
  - destruct (again_client s q Hag) as (p & b & Hc & Hop & Hnet & Hret).
    destruct (ri_clients _ Hi _ _ Hc) as (_ & Hrel & _). cbn in Hrel.
    destruct (do_exec_view s (lr_cid q) p b) as (E1 & E2 & E3 & _).
    pose proof (rule_exec s (lr_cid q) p b Hi Hc Hnet Hclk) as Hex.
    assert (lr_cid q < length (s_clients s))%nat as Hlen by (by eapply lookup_lt_Some).
    apply (rule_frame (do_exec s (lr_cid q) p b) _ (lr_cid q) (MkClient p (Some b))); [done|..].
    + by rewrite F1, E1, Hop.
    + by rewrite Hhist, hist_exec, Hop.
    + lia.
    + by rewrite F2, E2, list_insert_insert_eq, list_insert_id.
    + rewrite F3, <-E3.
      eapply client_ok_again; [|by apply Hrel| |done|done].
      * apply (ri_clients _ Hex (lr_cid q)). rewrite E2. by apply list_lookup_insert_eq.
      * done.
Qed.

Lemma rule_step s s' :
  rule_inv s → late_inv (λ _, True) s → step s s' → R s s' → s_clock s < 2 ^ 63 - 1 → rule_inv s'.
Proof using All.
  intros Hi Hlt Hstep HR Hclk. pose proof (rule_hist_ok s Hi ltac:(lia)) as Hok.
  pose proof Hi as [Hsrv Hwf Hlen Hcids HH Hcl].
  destruct Hstep as [c p p' Hc Hl|c p op Hc Hop|c p b Hc Hnet|c p b left Hc|c p b r t res Hc Hnet Hit|
    q l1 l2 Hq];
    [| |by apply rule_exec|pose proof (cs_fail CS _ _ _ _ _ HR) as Hrel| |by apply rule_late];
    (eapply (rule_frame s _ c); [done|done|done|cbn; lia|done|]); cbn [s_clock do_fail do_local
      do_invoke do_return].
  - eapply client_ok_time; [|eapply (cs_local CS); try done]; [lia|].
    intros c' q Hq. apply (Hcl c' _ Hq).
  - eapply client_ok_time; [|split_and!; [done|done|left]; split; [apply (Hcl c _ Hc)|done]]. lia.
  - eapply (client_ok_time _ (s_clock s)); [lia|]. by eapply client_ok_again; [apply (Hcl c _ Hc)|..].
  - destruct (Hcl c _ Hc) as (Hop & Hret & Hcase). unfold client_ok. cbn in *.
    destruct Hcase as [[_ Hans]|(a & Ha & Hver & He & Hm & Hn)]; [by eapply Hans|].
    rewrite Hnet in Hn. destruct Hn as [[-> HJ]|[-> Hr]]; cbn in Hit.
    + rewrite decide_False in Hit by (by intros [? _]). by injection Hit as <-.
    + rewrite decide_True in Hit by done. injection Hit as <-. auto.
Qed.

Lemma rule_puts_due s : rule_inv s → s_clock s < 2 ^ 63 → puts_due (λ _, True) s.
Proof using All.
  intros Hi Hclk c p a Hc Hop _. rewrite (ri_srv _ Hi).
  eapply (cs_due CS); [by apply rule_hist_ok|by apply (ri_hinv _ Hi)|apply (ri_clients _ Hi _ _ Hc)|done].
Qed.

(** A run whose steps all satisfy [R]. *)
Definition step_in (s s' : Sys P) : Prop := step s s' ∧ R s s'.

Definition reachable_in (ps : list P) (s : Sys P) : Prop := rtc step_in (init_sys ps) s.

Lemma reachable_in_reachable ps s : reachable_in ps s → reachable ps s.
Proof using. apply rtc_subrel. by intros x y [? _]. Qed.

(** The rule. *)
Theorem client_rule ps s :
  (∀ c p, ps !! c = Some p → J c p [] 0) → Hinv [] →
  reachable_in ps s → s_clock s < 2 ^ 63 → rule_inv s.
Proof using All.
  intros Hps H0 Hr Hclk. cut (rule_inv s ∧ late_inv (λ _, True) s); [by intros []|]. revert s Hr Hclk.
  refine (rtc_ind_r (λ s, s_clock s < 2 ^ 63 → rule_inv s ∧ late_inv (λ _, True) s) _ _ _).
  - intros _. split; [|apply late_inv_init].
    split; cbn; try done; [constructor|intros q Hq; by apply elem_of_nil in Hq|].
    intros c cl. rewrite list_lookup_fmap. intros (p & Hp & ->)%fmap_Some. by apply Hps.
  - intros s1 s2 Hr [Hstep HR] IH Hclk. rewrite (step_clock _ _ Hstep) in Hclk.
    destruct (IH ltac:(lia)) as [Hi Hl]. split.
    + apply (rule_step s1); [done|done|done|done|lia].
    + apply (late_inv_step _ s1); [done|lia|by apply rule_puts_due; [|lia]|done].
Qed.
End Rule.

(** A network without losses, and one with. *)
Definition no_loss {P} (s s' : Sys P) : Prop := ∀ c p b left, s' ≠ do_fail s c p b left.
Definition net_steps {P} (reliable : bool) (s s' : Sys P) : Prop :=
  reliable = true → no_loss s s'.
