(* ===== verification/Json.v ===== *)
(** * JSON texts of the test programs

    [encoding/json] as [src/src/kvtest1/kvtest.go] uses it: the text [Marshal]
    writes for a structure of two integer fields and for a slice of them, and
    [Unmarshal] of such a text.  [Unmarshal] of this file accepts the texts
    without blanks, with the fields in order, that [Marshal] writes. *)
From Stdlib Require Import Ascii.
From stdpp Require Import pretty.
From S2P Require Import Prelude Strs.

(** A type with its text, and the values the text can carry. *)
Class Json (A : Type) := {
  Marshal : A → string;
  Unmarshal : string → option A;
  json_ok : A → Prop;
}.

Class JsonLaws (A : Type) `{!Json A} : Prop := {
  Unmarshal_Marshal x : json_ok x → Unmarshal (Marshal x) = Some x;
}.

(** ** Tokens *)

(** A field name in double quotes (character 34) and the colon. *)
Definition json_key (name : string) : string :=
  String (ascii_of_nat 34) (name +:+ String (ascii_of_nat 34) ":").

Fixpoint expect (p s : string) : option string :=
  match p, s with
  | EmptyString, _ => Some s
  | String c p, String d s => if decide (c = d) then expect p s else None
  | String _ _, EmptyString => None
  end.

Definition is_digit (c : ascii) : bool :=
  bool_decide (48 ≤ N_of_ascii c ∧ N_of_ascii c ≤ 57)%N.

Definition is_num (c : ascii) : bool := is_digit c || bool_decide (c = "-"%char).

(** The longest prefix of characters of a number, and the rest. *)
Fixpoint span_num (s : string) : string * string :=
  match s with
  | EmptyString => ("", "")
  | String c t =>
      if is_num c then let '(d, rest) := span_num t in (String c d, rest) else ("", s)
  end.

Definition json_digits (s : string) : option Z :=
  if decide (s = "") then None else Z.of_N <$> parse_digits s 0.

Definition json_int (s : string) : option Z :=
  match s with
  | String c rest => if decide (c = "-"%char) then Z.opp <$> json_digits rest else json_digits s
  | EmptyString => None
  end.

Definition json_number (s : string) : option (Z * string) :=
  let '(d, rest) := span_num s in z ← json_int d; Some (z, rest).

(** ** Objects of two integers and arrays of them *)

Definition json_pair (k1 k2 : string) (p : Z * Z) : string :=
  "{" +:+ json_key k1 +:+ Itoa p.1 +:+ "," +:+ json_key k2 +:+ Itoa p.2 +:+ "}".

Definition read_pair (k1 k2 : string) (s : string) : option ((Z * Z) * string) :=
  s ← expect "{" s; s ← expect (json_key k1) s; '(x, s) ← json_number s;
  s ← expect "," s; s ← expect (json_key k2) s; '(y, s) ← json_number s;
  s ← expect "}" s; Some ((x, y), s).

Fixpoint read_items (fuel : nat) (k1 k2 : string) (s : string)
    : option (list (Z * Z) * string) :=
  match fuel with
  | O => None
  | S fuel =>
      '(p, s) ← read_pair k1 k2 s;
      match expect "," s with
      | Some s => '(l, s) ← read_items fuel k1 k2 s; Some (p :: l, s)
      | None => s ← expect "]" s; Some ([p], s)
      end
  end.

Definition json_array (k1 k2 : string) (l : list (Z * Z)) : string :=
  "[" +:+ strings_Join (json_pair k1 k2 <$> l) "," +:+ "]".

Definition read_array (k1 k2 : string) (s : string) : option (list (Z * Z) * string) :=
  t ← expect "[" s;
  match expect "]" t with
  | Some rest => Some ([], rest)
  | None => read_items (String.length s) k1 k2 t
  end.

(** A text is read to its end. *)
Definition read_all {A} (r : option (A * string)) : option A :=
  '(x, rest) ← r; if decide (rest = "") then Some x else None.

(** ** Reading back what was written *)

#[local] Arguments is_num : simpl never.

Lemma app_cons c (s t : string) : String c s +:+ t = String c (s +:+ t).
Proof. done. Qed.

Lemma app_nil_str (t : string) : "" +:+ t = t.
Proof. done. Qed.

Lemma expect_app p s : expect p (p +:+ s) = Some s.
Proof.
  induction p as [|c p IH]; [done|]. rewrite app_cons. cbn [expect]. by rewrite decide_True.
Qed.

Fixpoint all_num (s : string) : bool :=
  match s with EmptyString => true | String c s => is_num c && all_num s end.

Lemma parse_all_num s acc n : parse_digits s acc = Some n → all_num s = true.
Proof.
  revert acc. induction s as [|c s IH]; intros acc; [done|]. cbn.
  case_decide as Hc; [|done]. intros Hp. unfold is_num, is_digit.
  rewrite bool_decide_eq_true_2 by done. cbn. by eapply IH.
Qed.

Lemma Itoa_all_num z : all_num (Itoa z) = true.
Proof.
  destruct z as [|p|p]; [done|by eapply (parse_all_num _ _ _ (parse_pretty _))|].
  change (Itoa (Z.neg p)) with (String "-" (pretty (N.pos p))). cbn.
  by rewrite (parse_all_num _ _ _ (parse_pretty _)).
Qed.

Lemma span_num_app d c rest :
  all_num d = true → is_num c = false →
  span_num (d +:+ String c rest) = (d, String c rest).
Proof.
  intros Hd Hc. induction d as [|x d IH]; rewrite ?app_nil_str, ?app_cons; cbn [span_num].
  { by rewrite Hc. }
  cbn in Hd. apply andb_true_iff in Hd as [-> Hd]. by rewrite IH.
Qed.

Lemma json_digits_pretty (n : N) : json_digits (pretty n) = Some (Z.of_N n).
Proof.
  unfold json_digits. rewrite decide_False by apply pretty_N_ne_empty.
  by rewrite parse_pretty.
Qed.

Lemma json_int_Itoa z : json_int (Itoa z) = Some z.
Proof.
  assert (∀ n : N, json_int (pretty n) = Some (Z.of_N n)) as Hn.
  { intros n. pose proof (json_digits_pretty n) as Hd. pose proof (parse_pretty n) as Hp.
    pose proof (pretty_N_ne_empty n). destruct (pretty n) as [|c s]; [done|].
    unfold json_int. by rewrite decide_False by (by eapply parse_head). }
  destruct z as [|p|p]; [done|by apply (Hn (N.pos p))|].
  change (Itoa (Z.neg p)) with (String "-" (pretty (N.pos p))).
  unfold json_int. rewrite decide_True by done. by rewrite json_digits_pretty.
Qed.

Lemma json_number_Itoa z c rest :
  is_num c = false → json_number (Itoa z +:+ String c rest) = Some (z, String c rest).
Proof.
  intros Hc. unfold json_number. rewrite span_num_app by (done || apply Itoa_all_num).
  by rewrite json_int_Itoa.
Qed.

Lemma app_str_assoc (a b c : string) : (a +:+ b) +:+ c = a +:+ (b +:+ c).
Proof. induction a as [|x a IH]; [done|]. rewrite !app_cons. by f_equal. Qed.

Lemma app_str_nil_r (a : string) : a +:+ "" = a.
Proof. induction a as [|x a IH]; [done|]. rewrite app_cons. by f_equal. Qed.

Lemma read_pair_app k1 k2 p rest :
  read_pair k1 k2 (json_pair k1 k2 p +:+ rest) = Some (p, rest).
Proof.
  destruct p as [x y]. unfold read_pair, json_pair. cbn [fst snd].
  rewrite !app_str_assoc, expect_app. cbn [mbind option_bind].
  rewrite expect_app. cbn [mbind option_bind].
  change ("," +:+ ?s) with (String "," s). rewrite json_number_Itoa by done.
  cbn [mbind option_bind]. change (String "," ?s) with ("," +:+ s).
  rewrite expect_app. cbn [mbind option_bind]. rewrite expect_app. cbn [mbind option_bind].
  change ("}" +:+ ?s) with (String "}" s). rewrite json_number_Itoa by done.
  cbn [mbind option_bind]. change (String "}" ?s) with ("}" +:+ s). by rewrite expect_app.
Qed.

Lemma join_cons k1 k2 p q l :
  strings_Join (json_pair k1 k2 <$> p :: q :: l) "," =
    json_pair k1 k2 p +:+ "," +:+ strings_Join (json_pair k1 k2 <$> q :: l) ",".
Proof. done. Qed.

Lemma read_items_app fuel k1 k2 p l rest :
  (length l < fuel)%nat →
  read_items fuel k1 k2 (strings_Join (json_pair k1 k2 <$> p :: l) "," +:+ "]" +:+ rest)
    = Some (p :: l, rest).
Proof.
  revert p l. induction fuel as [|fuel IH]; intros p l Hf; [lia|].
  cbn [read_items]. destruct l as [|q l].
  - cbn [fmap list_fmap strings_Join]. by rewrite read_pair_app.
  - rewrite join_cons, !app_str_assoc, read_pair_app. cbn [mbind option_bind].
    rewrite expect_app, IH by (cbn in Hf; lia). done.
Qed.

Lemma length_app_str (a b : string) : String.length (a +:+ b) = (String.length a + String.length b)%nat.
Proof. induction a as [|x a IH]; [done|]. rewrite app_cons. cbn. by f_equal. Qed.

Lemma json_array_length k1 k2 l : (length l < String.length (json_array k1 k2 l))%nat.
Proof.
  unfold json_array. rewrite !length_app_str. cbn [String.length].
  assert (length l ≤ String.length (strings_Join (json_pair k1 k2 <$> l) ","))%nat as H; [|lia].
  induction l as [|p [|q l] IH]; cbn [fmap list_fmap strings_Join length] in *; [lia|..].
  - unfold json_pair. rewrite length_app_str. cbn. lia.
  - rewrite !length_app_str. cbn [String.length]. lia.
Qed.

Lemma read_array_app k1 k2 l rest :
  read_array k1 k2 (json_array k1 k2 l +:+ rest) = Some (l, rest).
Proof.
  assert (length l < String.length (json_array k1 k2 l +:+ rest))%nat as Hlen.
  { rewrite length_app_str. pose proof (json_array_length k1 k2 l). lia. }
  unfold read_array. generalize dependent (String.length (json_array k1 k2 l +:+ rest)).
  intros n Hn. unfold json_array. rewrite !app_str_assoc, expect_app. cbn [mbind option_bind].
  destruct l as [|p l].
  - cbn [fmap list_fmap strings_Join]. by rewrite app_nil_str, expect_app.
  - assert (∀ s, expect "]" (strings_Join (json_pair k1 k2 <$> p :: l) "," +:+ s) = None) as ->.
    { intros s. by destruct l. }
    apply read_items_app. cbn [length] in Hn. lia.
Qed.

(** ** Ranges of Go's integers *)

Definition in_int (z : Z) : Prop := - 2 ^ 63 <= z < 2 ^ 63.
Definition in_uint64 (z : Z) : Prop := 0 <= z < 2 ^ 64.
