(* ===== verification/KvTest.v ===== *)
(** * The test programs of the key/value store

    [src/src/kvtest1/kvtest.go] and the wrappers of [porcupine.go].  The loops
    of one tester goroutine are monadic programs ([TestM]) that run against the
    server of [KvSrv.v] through the clerk of [Clerk.v]; the clients that
    [SpawnClientsAndWait] starts, which race with each other, are client
    programs of [KvSys.v].  [Fatalf] ends a program with the message it prints;
    the annotations for the visualiser are left out. *)
From S2P Require Import Prelude Strs Rpc KvSrv KvModel Clerk KvSys KvRule Json.

(** ** Values the tests store *)

Record EntryV := MkEntryV { ev_Id : Z; ev_V : Tversion }.
Record entry := MkEntryN { en_Id : Z; en_N : Z }.

#[export] Instance EntryV_eq_dec : EqDecision EntryV.
Proof. solve_decision. Defined.
#[export] Instance entry_eq_dec : EqDecision entry.
Proof. solve_decision. Defined.

#[export] Instance EntryV_json : Json EntryV := {
  Marshal e := json_pair "Id" "V" (ev_Id e, ev_V e);
  Unmarshal s :=
    p ← read_all (read_pair "Id" "V" s);
    if decide (in_int p.1 ∧ in_uint64 p.2) then Some (MkEntryV p.1 p.2) else None;
  json_ok e := in_int (ev_Id e) ∧ in_uint64 (ev_V e);
}.

Definition entry_pair (e : entry) : Z * Z := (en_Id e, en_N e).
Definition entry_int (p : Z * Z) : Prop := in_int p.1 ∧ in_int p.2.

#[export] Instance entries_json : Json (list entry) := {
  Marshal es := json_array "Id" "N" (entry_pair <$> es);
  Unmarshal s :=
    l ← read_all (read_array "Id" "N" s);
    if decide (Forall (λ p : Z * Z, in_int p.1 ∧ in_int p.2) l)
    then Some ((λ p : Z * Z, MkEntryN p.1 p.2) <$> l) else None;
  json_ok es := Forall (λ e, in_int (en_Id e) ∧ in_int (en_N e)) es;
}.

(** ** What a test can end with *)

Inductive FatalMsg :=
| PutFails (key : string) (ver : Tversion) (err : Err)
| GetReturnsError (key : string) (err : Err)
| GetReturns (key : string) (val : string) (ver : Tversion) (value : string) (version : Tversion)
| UnmarshalErr (ver : Tversion)
| GetErr (me : Z) (key : string) (err : Err)
| WrongError (err : Err)
| WrongValue (id : Z) (v : Tversion)
| WrongPutsReliable (ver0 : Tversion)
| WrongPutsUnreliable (ver0 : Tversion)
| OldPut (id want got : Z)
| AppendsDiffer (appends : Z) (ver : Tversion)
| TooManySkipped (id skipped nmaybe : Z)
| TooManyPuts (id puts max : Z).

(** ** One goroutine of the tester

    [ts_net] holds, for each call of the clerk, what happens to its RPCs. *)
Record LogOp := MkLogOp {
  lo_Input : KvInput;
  lo_Output : KvOutput;
  lo_Call : Z;
  lo_Return : Z;
  lo_ClientId : Z;
}.

Record TestSt := MkTestSt {
  ts_kv : KVServer;
  ts_net : list (list CallOutcome);
  ts_ops : Z;
  ts_oplog : list LogOp;
  ts_now : Z;
}.

(** [Blocked]: a clerk whose RPCs were not answered is still waiting. *)
Inductive Outcome (A : Type) :=
| Ret (x : A) (s : TestSt)
| Fatal (msg : FatalMsg)
| Blocked.
Arguments Ret {A}.
Arguments Fatal {A}.
Arguments Blocked {A}.

Definition TestM (A : Type) : Type := TestSt → Outcome A.

Definition ret {A} (x : A) : TestM A := λ s, Ret x s.
Definition Fatalf {A} (msg : FatalMsg) : TestM A := λ _, Fatal msg.
Definition tbind {A B} (m : TestM A) (f : A → TestM B) : TestM B := λ s,
  match m s with
  | Ret x s => f x s
  | Fatal msg => Fatal msg
  | Blocked => Blocked
  end.

Declare Scope test_scope.
Delimit Scope test_scope with test.
Notation "x <- m ; k" := (tbind m (λ x, k))
  (at level 100, m at next level, right associativity) : test_scope.
Notation "' p <- m ; k" := (tbind m (λ x, match x with p => k end))
  (at level 100, p pattern, m at next level, right associativity) : test_scope.
Open Scope test_scope.

(** [time.Since(t0)] on the monotonic clock. *)
Definition now : TestM Z := λ s,
  Ret (ts_now s) (MkTestSt (ts_kv s) (ts_net s) (ts_ops s) (ts_oplog s) (ts_now s + 1)).

(** [Config.OpInc] on an [int32]. *)
Definition OpInc : TestM unit := λ s,
  Ret () (MkTestSt (ts_kv s) (ts_net s) ((ts_ops s + 1 + 2 ^ 31) `mod` 2 ^ 32 - 2 ^ 31)
            (ts_oplog s) (ts_now s)).

Definition Append (o : LogOp) : TestM unit := λ s,
  Ret () (MkTestSt (ts_kv s) (ts_net s) (ts_ops s) (ts_oplog s ++ [o]) (ts_now s)).

(** [IKVClerk.Get] and [Put] of the clerk under test. *)
Definition IKVClerk_Get (key : string) : TestM (string * Tversion * Err) := λ s,
  match ts_net s with
  | [] => Blocked
  | o :: net =>
      match Clerk_Get o (ts_kv s) key with
      | Some r => Ret (gr_Value r, gr_Version r, gr_Err r)
                    (MkTestSt (ts_kv s) net (ts_ops s) (ts_oplog s) (ts_now s))
      | None => Blocked
      end
  end.

Definition IKVClerk_Put (key value : string) (version : Tversion) : TestM Err := λ s,
  match ts_net s with
  | [] => Blocked
  | o :: net =>
      match Clerk_Put o (ts_kv s) key value version with
      | (kv, Some err) => Ret err (MkTestSt kv net (ts_ops s) (ts_oplog s) (ts_now s))
      | (_, None) => Blocked
      end
  end.

(** *** TestClerk *)

Definition TestClerk_Put (key value : string) (version : Tversion) : TestM Err :=
  _ <- OpInc; IKVClerk_Put key value version.

Definition TestClerk_Get (key : string) : TestM (string * Tversion * Err) :=
  _ <- OpInc; IKVClerk_Get key.

(** *** porcupine.go: [ts.Get], [ts.Put] and the functions [Get], [Put] *)

Definition get_op (key : string) (start fin cli : Z) (val : string) (ver : Tversion) (err : Err)
    : LogOp :=
  MkLogOp (MkKvInput 0 key "" 0) (MkKvOutput val ver err) start fin cli.

Definition put_op (key value : string) (version : Tversion) (start fin cli : Z) (err : Err)
    : LogOp :=
  MkLogOp (MkKvInput 1 key value version) (MkKvOutput "" 0 err) start fin cli.

Definition Test_Get (key : string) (cli : Z) : TestM (string * Tversion * Err) :=
  start <- now; '(val, ver, err) <- TestClerk_Get key; fin <- now; _ <- OpInc;
  _ <- Append (get_op key start fin cli val ver err); ret (val, ver, err).

Definition Test_Put (key value : string) (version : Tversion) (cli : Z) : TestM Err :=
  start <- now; err <- TestClerk_Put key value version; fin <- now;
  _ <- Append (put_op key value version start fin cli err); ret err.

(** With a log: [GetJson] and [PutJson] pass [ts.oplog]. *)
Definition kvtest_Get (key : string) (cli : Z) : TestM (string * Tversion * Err) :=
  start <- now; '(val, ver, err) <- TestClerk_Get key; fin <- now; _ <- OpInc;
  _ <- Append (get_op key start fin cli val ver err); ret (val, ver, err).

Definition kvtest_Put (key value : string) (version : Tversion) (cli : Z) : TestM Err :=
  start <- now; err <- TestClerk_Put key value version; fin <- now; _ <- OpInc;
  _ <- Append (put_op key value version start fin cli err); ret err.

(** *** kvtest.go *)

(** [GetJson] after the [Get]: the value, or the message of [Fatalf]. *)
Definition decode_get {A} `{!Json A} (key : string) (me : Z) (r : string * Tversion * Err)
    : A * Tversion + FatalMsg :=
  let '(val, ver, err) := r in
  if decide (err = OK) then
    match Unmarshal val with
    | Some v => inl (v, ver)
    | None => inr (UnmarshalErr ver)
    end
  else inr (GetErr me key err).

Definition GetJson {A} `{!Json A} (key : string) (me : Z) : TestM (A * Tversion) :=
  r <- kvtest_Get key me;
  match decode_get key me r with
  | inl x => ret x
  | inr msg => Fatalf msg
  end.

Definition PutJson {A} `{!Json A} (key : string) (v : A) (ver : Tversion) (me : Z) : TestM Err :=
  kvtest_Put key (Marshal v) ver me.

(** The loops call the clerk at least once a round: with [ts_net] as long as
    the fuel they never run out of it. *)
Fixpoint PutAtLeastOnce_loop (fuel : nat) (key value : string) (ver : Tversion) (me : Z)
    : TestM Tversion :=
  match fuel with
  | O => λ _, Blocked
  | S fuel =>
      err <- Test_Put key value ver me;
      if decide (err = OK) then ret (ver_succ ver)
      else if decide (err = ErrMaybe ∨ err = ErrVersion) then
        PutAtLeastOnce_loop fuel key value (ver_succ ver) me
      else if decide (ver ≠ 0) then Fatalf (PutFails key ver err)
      else PutAtLeastOnce_loop fuel key value ver me
  end.

Definition PutAtLeastOnce (key value : string) (ver : Tversion) (me : Z) : TestM Tversion :=
  λ s, PutAtLeastOnce_loop (S (length (ts_net s))) key value ver me s.

Fixpoint PutAtLeastOnceJson_loop {A} `{!Json A} (fuel : nat) (key : string) (value : A)
    (ver : Tversion) (me : Z) : TestM Tversion :=
  match fuel with
  | O => λ _, Blocked
  | S fuel =>
      err <- PutJson key value 0 me;
      if decide (err ≠ ErrMaybe) then ret ver
      else PutAtLeastOnceJson_loop fuel key value (ver_succ ver) me
  end.

Definition PutAtLeastOnceJson {A} `{!Json A} (key : string) (value : A) (ver : Tversion) (me : Z)
    : TestM Tversion :=
  λ s, PutAtLeastOnceJson_loop (S (length (ts_net s))) key value ver me s.

Definition CheckGet (key value : string) (version : Tversion) : TestM unit :=
  '(val, ver, err) <- Test_Get key 0;
  if decide (err ≠ OK) then Fatalf (GetReturnsError key err)
  else if decide (val ≠ value ∨ ver ≠ version) then
    Fatalf (GetReturns key val ver value version)
  else ret ().

Definition MakeKeys (n : Z) : list string := (λ i, "k" +:+ Itoa i) <$> seqZ 0 n.

(** [SpreadPutsSize]: [vals i] is the [i]-th random string. *)
Fixpoint spread_puts (kvs : list (string * string)) : TestM unit :=
  match kvs with
  | [] => ret ()
  | (k, v) :: kvs => _ <- TestClerk_Put k v 0; spread_puts kvs
  end.

Fixpoint spread_checks (kvs : list (string * string)) : TestM unit :=
  match kvs with
  | [] => ret ()
  | (k, v) :: kvs => _ <- CheckGet k v 1; spread_checks kvs
  end.

Definition SpreadPutsSize (n : Z) (vals : Z → string) : TestM (list string * list string) :=
  let ka := MakeKeys n in
  let va := vals <$> seqZ 0 n in
  _ <- spread_puts (zip ka va); _ <- spread_checks (zip ka va); ret (ka, va).

(** ** Results of the concurrent clients *)

Record ClntRes := MkClntRes { Nok : Z; Nmaybe : Z }.

Definition add_res (res r : ClntRes) : ClntRes := MkClntRes (Nok res + Nok r) (Nmaybe res + Nmaybe r).

Definition CheckPutConcurrent (key : string) (rs : list ClntRes) (res : ClntRes) (reliable : bool)
    : TestM ClntRes :=
  '(_, ver0) <- GetJson (A := EntryV) key (-1);
  let res := foldl add_res res rs in
  if reliable then
    if decide (ver0 ≠ u64 (Nok res)) then Fatalf (WrongPutsReliable ver0) else ret res
  else if decide (ver0 > u64 (Nok res + Nmaybe res)) then Fatalf (WrongPutsUnreliable ver0)
  else ret res.

(** [CheckAppends].  [None] is an index of [rs] out of range. *)
Record Appends := MkAppends { ap_expect : gmap Z Z; ap_skipped : gmap Z Z }.

Definition at_or_0 (m : gmap Z Z) (i : Z) : Z := default 0 (m !! i).

Definition appends_init (nclnt : Z) : Appends :=
  let zeros := list_to_map ((λ i, (i, 0)) <$> seqZ 0 nclnt) in MkAppends zeros zeros.

Definition appends_step (ap : Appends) (e : entry) : Appends + FatalMsg :=
  let want := at_or_0 (ap_expect ap) (en_Id e) in
  if decide (want > en_N e) then inr (OldPut (en_Id e) want (en_N e))
  else if decide (want = en_N e) then
    inl (MkAppends (<[en_Id e := want + 1]> (ap_expect ap)) (ap_skipped ap))
  else
    inl (MkAppends (<[en_Id e := en_N e + 1]> (ap_expect ap))
           (<[en_Id e := at_or_0 (ap_skipped ap) (en_Id e) + (en_N e - want)]> (ap_skipped ap))).

Fixpoint appends_loop (ap : Appends) (es : list entry) : Appends + FatalMsg :=
  match es with
  | [] => inl ap
  | e :: es => match appends_step ap e with inl ap => appends_loop ap es | inr m => inr m end
  end.

(** The last loop, over [expect] in the order the map is visited. *)
Fixpoint appends_clients (ap : Appends) (rs : list ClntRes) (visit : list (Z * Z))
    : option (unit + FatalMsg) :=
  match visit with
  | [] => Some (inl ())
  | (c, n) :: visit =>
      r ← go_index rs c;
      let sk := at_or_0 (ap_skipped ap) c in
      if decide (sk > Nmaybe r) then Some (inr (TooManySkipped c sk (Nmaybe r)))
      else if decide (n > Nok r + Nmaybe r) then Some (inr (TooManyPuts c n (Nok r + Nmaybe r)))
      else appends_clients ap rs visit
  end.

Definition CheckAppends (es : list entry) (nclnt : Z) (rs : list ClntRes) (ver : Tversion)
    (visit : gmap Z Z → list (Z * Z)) : option (unit + FatalMsg) :=
  match appends_loop (appends_init nclnt) es with
  | inr m => Some (inr m)
  | inl ap =>
      if decide (len es + 1 ≠ ver) then Some (inr (AppendsDiffer (len es) ver))
      else appends_clients ap rs (visit (ap_expect ap))
  end.

(** ** OneClientPut

    A client is at the [select] of its loop, in [PutJson] or in [GetJson] of
    [OnePut], or has returned. *)
Inductive PutPc :=
| QSelect
| QPut (k : string) (ver : Tversion)
| QGet (k : string) (ver : Tversion) (err : Err)
| QDone
| QFatal (msg : FatalMsg).

Record PutClient := MkPutClient {
  q_me : nat;
  q_ka : list string;
  q_randomkeys : bool;
  q_verm : gmap string Z;
  q_res : ClntRes;
  q_pc : PutPc;
}.

Definition q_at (p : PutClient) (pc : PutPc) : PutClient :=
  MkPutClient (q_me p) (q_ka p) (q_randomkeys p) (q_verm p) (q_res p) pc.

Definition OneClientPut (me : nat) (ka : list string) (randomkeys : bool) : PutClient :=
  MkPutClient me ka randomkeys (list_to_map ((λ k, (k, 0)) <$> ka)) (MkClntRes 0 0) QSelect.

(** Back in the loop of [OneClientPut] with what [OnePut] returned. *)
Definition OnePut_return (p : PutClient) (k : string) (ver : Tversion) (ok : bool) : PutClient :=
  MkPutClient (q_me p) (q_ka p) (q_randomkeys p) (<[k := ver]> (q_verm p))
    (if ok then MkClntRes (Nok (q_res p) + 1) (Nmaybe (q_res p))
     else MkClntRes (Nok (q_res p)) (Nmaybe (q_res p) + 1)) QSelect.

Definition OnePut_wrote (p : PutClient) (k : string) (ver : Tversion) (err : Err) : PutClient :=
  if decide (err = OK ∨ err = ErrVersion ∨ err = ErrMaybe) then q_at p (QGet k ver err)
  else q_at p (QFatal (WrongError err)).

Definition OnePut_read (p : PutClient) (k : string) (ver : Tversion) (err : Err)
    (r : string * Tversion * Err) : PutClient :=
  match decode_get (A := EntryV) k (Z.of_nat (q_me p)) r with
  | inr msg => q_at p (QFatal msg)
  | inl (e, ver0) =>
      if decide ((err = OK ∧ ver0 = ver_succ ver) ∧ ev_Id e ≠ Z.of_nat (q_me p) ∧ ev_V e ≠ ver)
      then q_at p (QFatal (WrongValue (ev_Id e) (ev_V e)))
      else if decide (err = OK ∨ err = ErrMaybe) then
        OnePut_return p k ver0 (bool_decide (err = OK))
      else q_at p (QPut k ver0)
  end.

Definition put_next (p : PutClient) : option KvOp :=
  match q_pc p with
  | QPut k ver => Some (OpPut (MkPutArgs k (Marshal (MkEntryV (Z.of_nat (q_me p)) ver)) ver))
  | QGet k _ _ => Some (OpGet (MkGetArgs k))
  | _ => None
  end.

Definition put_resume (p : PutClient) (res : KvRes) : PutClient :=
  match q_pc p, res with
  | QPut k ver, ResPut err => OnePut_wrote p k ver err
  | QGet k ver err, ResGet val ver0 gerr => OnePut_read p k ver err (val, ver0, gerr)
  | _, _ => p
  end.

(** At the [select]: the [done] signal, or the next key. *)
Inductive put_local : PutClient → PutClient → Prop :=
| put_done p : q_pc p = QSelect → put_local p (q_at p QDone)
| put_key p k :
    q_pc p = QSelect →
    (if q_randomkeys p then k ∈ q_ka p else head (q_ka p) = Some k) →
    put_local p (q_at p (QPut k (default 0 (q_verm p !! k)))).

#[export] Instance Put_client : KVClient PutClient := {
  next_op := put_next;
  resume := put_resume;
  local_step := put_local;
}.

(** ** OneClientAppend

    The states [AMainPut] and [AMainDone] are those of the tester itself, in
    [PutAtLeastOnceJson] ([append_writer] below); [AWait] is a client that has not
    been spawned. *)
Inductive AppendPc :=
| AWait
| ASelect
| AGet
| APut (es : list entry) (ver : Tversion)
| ADone
| AFatal (msg : FatalMsg)
| AMainPut (ver : Tversion)
| AMainDone (ver : Tversion).

Record AppendClient := MkAppendClient {
  a_me : nat;
  a_i : Z;
  a_res : ClntRes;
  a_pc : AppendPc;
}.

Definition a_at (p : AppendClient) (pc : AppendPc) : AppendClient :=
  MkAppendClient (a_me p) (a_i p) (a_res p) pc.

Definition append_key : string := "k".

(** [break] of the inner loop, and [i++]. *)
Definition append_ok (p : AppendClient) : AppendClient :=
  MkAppendClient (a_me p) (a_i p + 1) (MkClntRes (Nok (a_res p) + 1) (Nmaybe (a_res p))) ASelect.
Definition append_maybe (p : AppendClient) : AppendClient :=
  MkAppendClient (a_me p) (a_i p + 1) (MkClntRes (Nok (a_res p)) (Nmaybe (a_res p) + 1)) ASelect.

Definition append_read (p : AppendClient) (r : string * Tversion * Err) : AppendClient :=
  match decode_get append_key (Z.of_nat (a_me p)) r with
  | inr msg => a_at p (AFatal msg)
  | inl (es, ver) => a_at p (APut (es ++ [MkEntryN (Z.of_nat (a_me p)) (a_i p)]) ver)
  end.

Definition append_wrote (p : AppendClient) (err : Err) : AppendClient :=
  if decide (err = OK) then append_ok p
  else if decide (err = ErrMaybe) then append_maybe p
  else a_at p AGet.

Definition append_main (p : AppendClient) (ver : Tversion) (err : Err) : AppendClient :=
  if decide (err ≠ ErrMaybe) then a_at p (AMainDone ver) else a_at p (AMainPut (ver_succ ver)).

Definition append_next (p : AppendClient) : option KvOp :=
  match a_pc p with
  | AGet => Some (OpGet (MkGetArgs append_key))
  | APut es ver => Some (OpPut (MkPutArgs append_key (Marshal es) ver))
  | AMainPut _ => Some (OpPut (MkPutArgs append_key (Marshal (@nil entry)) 0))
  | _ => None
  end.

Definition append_resume (p : AppendClient) (res : KvRes) : AppendClient :=
  match a_pc p, res with
  | AGet, ResGet val ver err => append_read p (val, ver, err)
  | APut _ _, ResPut err => append_wrote p err
  | AMainPut ver, ResPut err => append_main p ver err
  | _, _ => p
  end.

Inductive append_local : AppendClient → AppendClient → Prop :=
| append_start p : a_pc p = AWait → append_local p (a_at p ASelect)
| append_done p : a_pc p = ASelect → append_local p (a_at p ADone)
| append_round p : a_pc p = ASelect → append_local p (a_at p AGet).

#[export] Instance Append_client : KVClient AppendClient := {
  next_op := append_next;
  resume := append_resume;
  local_step := append_local;
}.

(** ** SpawnClientsAndWait *)

Definition put_progs (nclnt : nat) (ka : list string) (randomkeys : bool) : list PutClient :=
  (λ me, OneClientPut me ka randomkeys) <$> seq 0 nclnt.

(** The results once every client has returned. *)
Definition put_results (s : Sys PutClient) : option (list ClntRes) :=
  mapM (λ cl, match q_pc (c_prog cl), c_clerk cl with
              | QDone, None => Some (q_res (c_prog cl))
              | _, _ => None
              end) (s_clients s).

Definition OneClientAppend (me : nat) : AppendClient := MkAppendClient me 0 (MkClntRes 0 0) AWait.

Definition append_progs (nclnt : nat) : list AppendClient := OneClientAppend <$> seq 0 nclnt.

(** [OneClientAppend] reads a list, so somebody has to have written one.  The tester
    does, with [PutAtLeastOnceJson] of the empty list at version 0, before it
    spawns the clients. *)
Definition append_writer (nclnt : nat) : AppendClient :=
  MkAppendClient nclnt 0 (MkClntRes 0 0) (AMainPut 0).

Definition append_test (nclnt : nat) : list AppendClient :=
  append_progs nclnt ++ [append_writer nclnt].

Definition append_results (nclnt : nat) (s : Sys AppendClient) : option (list ClntRes) :=
  mapM (λ cl, match a_pc (c_prog cl), c_clerk cl with
              | ADone, None => Some (a_res (c_prog cl))
              | _, _ => None
              end) (take nclnt (s_clients s)).

(** The clients start when the tester has written the key. *)
Definition spawned (nclnt : nat) (s s' : Sys AppendClient) : Prop :=
  ∀ c p, s_clients s !! c = Some (MkClient p None) → a_pc p = AWait →
    s_clients s' !! c = Some (MkClient p None) ∨
    ∃ q ver, s_clients s !! nclnt = Some (MkClient q None) ∧ a_pc q = AMainDone ver.

(** ** Partitioner

    One round: [draws] are the results of [rand.Int() % 2]. *)
Definition partition_side (draws : list Z) (i : Z) : list Z :=
  fst <$> filter (λ p : Z * Z, p.2 = i) (zip (seqZ 0 (len draws)) draws).
