(* ===== verification/KvTestProof.v ===== *)
(** * What the concurrent test clients keep

    The invariants of [OneClientPut] and [OneClientAppend] in the form
    [KvRule.v] asks for: what a client knows of the history of applied [Put]s
    between two calls of its clerk. *)
From S2P Require Import Prelude Strs Rpc KvSrv KvModel Clerk KvSys KvLate KvRule Json KvTest.

(** ** JSON values *)

#[export] Instance EntryV_laws : JsonLaws EntryV.
Proof.
  split. intros [i v] Hok. unfold Unmarshal, Marshal, EntryV_json. cbn [ev_Id ev_V].
  pose proof (read_pair_app "Id" "V" (i, v) "") as H. rewrite app_str_nil_r in H.
  rewrite H. unfold read_all. cbn [mbind option_bind fst snd].
  rewrite (decide_True (P := "" = "")) by done. cbn [mbind option_bind fst snd].
  by rewrite decide_True.
Qed.

#[export] Instance entries_laws : JsonLaws (list entry).
Proof.
  split. intros es Hok. unfold Unmarshal, Marshal, entries_json.
  pose proof (read_array_app "Id" "N" (entry_pair <$> es) "") as H. rewrite app_str_nil_r in H.
  rewrite H. unfold read_all. cbn [mbind option_bind].
  rewrite (decide_True (P := "" = "")) by done. cbn [mbind option_bind].
  rewrite decide_True.
  - f_equal. rewrite <-list_fmap_compose. rewrite <-(list_fmap_id es) at 2.
    apply list_fmap_ext. by intros ? [].
  - rewrite Forall_fmap. exact Hok.
Qed.

(** ** OneClientPut *)

Section Puts.
Context (reliable : bool) (n : nat) (ka : list string) (randomkeys : bool).
(** Every [Put] writes its client and its version, on a key of the test. *)
Definition put_of (q : nat * PutArgs) : Prop :=
  (q.1 < n)%nat ∧ pa_Key q.2 ∈ ka ∧
  pa_Value q.2 = Marshal (MkEntryV (Z.of_nat q.1) (pa_Version q.2)).

Definition puts_hist (H : History) : Prop := Forall put_of H.

(** The answer [err] to a [Put] that is being checked counts for [x] more. *)
Definition counted (res : ClntRes) (m : Z) : Prop :=
  0 <= Nok res <= m ∧ m <= Nok res + Nmaybe res ∧ (reliable = true → Nmaybe res = 0).

Definition written (k : string) (H : History) : Prop := 0 < len (on_key k H).

(** [v] is a version the key has had; it is not 0 when the key was written. *)
Definition had (k : string) (v : Tversion) (H : History) : Prop :=
  (v = 0 ∨ written k H) ∧ v <= len (on_key k H).

Definition put_pc_ok (c : nat) (p : PutClient) (H : History) : Prop :=
  let m := len (mine c H) in
  match q_pc p with
  | QSelect | QDone => counted (q_res p) m
  | QPut k ver => k ∈ ka ∧ had k ver H ∧ counted (q_res p) m
  | QGet k ver err =>
      k ∈ ka ∧ written k H ∧
      (err = OK ∧ (c, MkPutArgs k (Marshal (MkEntryV (Z.of_nat c) ver)) ver) ∈ H ∧
         counted (q_res p) (m - 1) ∨
       err = ErrMaybe ∧ reliable = false ∧
         counted (MkClntRes (Nok (q_res p)) (Nmaybe (q_res p) + 1)) m ∨
       err = ErrVersion ∧ counted (q_res p) m)
  | QFatal _ => False
  end.

Record put_ok (c : nat) (p : PutClient) (H : History) : Prop := {
  po_me : q_me p = c ∧ (c < n)%nat ∧ q_ka p = ka ∧ q_randomkeys p = randomkeys;
  po_verm k v : q_verm p !! k = Some v → had k v H;
  po_done : 0 < Nok (q_res p) + Nmaybe (q_res p) → randomkeys = false →
    ∃ k, head ka = Some k ∧ written k H;
  po_key k ver err : q_pc p = QPut k ver ∨ q_pc p = QGet k ver err →
    randomkeys = false → head ka = Some k;
  po_pc : put_pc_ok c p H;
}.

(** The history of no key gets shorter. *)
Definition grows (H H' : History) : Prop := ∀ k, len (on_key k H) <= len (on_key k H').

Lemma grows_refl H : grows H H.
Proof using. by intros k. Qed.

Lemma grows_snoc H q : grows H (H ++ [q]).
Proof using. intros k. destruct q as [c a]. rewrite on_key_snoc. unfold len. rewrite length_app. lia. Qed.

Lemma written_grows k H H' : grows H H' → written k H → written k H'.
Proof using. intros Hg. specialize (Hg k). unfold written. lia. Qed.

Lemma had_grows k v H H' : grows H H' → had k v H → had k v H'.
Proof using.
  intros Hg [Hv Hle]. split; [|specialize (Hg k); lia].
  destruct Hv; [by left|right; by eapply written_grows].
Qed.

Lemma written_new H c a : written (pa_Key a) (H ++ [(c, a)]).
Proof using.
  unfold written. rewrite on_key_snoc, decide_True, len_snoc by done.
  pose proof (on_key_len (pa_Key a) H). lia.
Qed.

Lemma mine_other c H c' a : c' ≠ c → mine c (H ++ [(c', a)]) = mine c H.
Proof using. intros Hne. by rewrite mine_snoc, decide_False, app_nil_r. Qed.

Lemma mine_own c H a : len (mine c (H ++ [(c, a)])) = len (mine c H) + 1.
Proof using. by rewrite mine_snoc, decide_True, len_snoc. Qed.

(** The history grows by a [Put] of another client. *)
Lemma put_ok_stable c p H c' a : c' ≠ c → put_ok c p H → put_ok c p (H ++ [(c', a)]).
Proof using.
  intros Hne [Hme Hverm Hdone Hkey Hpc].
  pose proof (grows_snoc H (c', a)) as Hg.
  pose proof (λ k, written_grows k _ _ Hg) as Hw. pose proof (λ k v, had_grows k v _ _ Hg) as Hh.
  split; [done|naive_solver|naive_solver|done|].
  unfold put_pc_ok in *. rewrite mine_other by done.
  destruct (q_pc p) as [|k ver|k ver err| |msg]; [done|naive_solver| |done|done].
  destruct Hpc as (H1 & H2 & H3). split_and!; [done|auto|].
  rewrite elem_of_app. naive_solver.
Qed.

(** The value a [Get] returns is that of the last [Put] of the key. *)
Lemma get_of_hist H k :
  hist_ok H → puts_hist H → written k H →
  ∃ c a, on_key k H !! (Z.to_nat (len (on_key k H) - 1)) = Some (c, a) ∧
    pa_Version a = len (on_key k H) - 1 ∧
    Get (kv_of H) (MkGetArgs k) =
      MkGetReply (Marshal (MkEntryV (Z.of_nat c) (pa_Version a))) (len (on_key k H)) OK.
Proof using.
  intros [Hwf Hlen] Hputs Hw. unfold written, len in Hw.
  destruct (on_key k H) as [|q0 l0] eqn:Hk; [by cbn in Hw|].
  rewrite <-Hk in *. pose proof (on_key_len k H) as Hb.
  destruct (list.last (on_key k H)) as [[c a]|] eqn:Hl.
  2: { apply last_None in Hl. congruence. }
  rewrite last_lookup in Hl. unfold len in *. exists c, a.
  replace (Z.to_nat (Z.of_nat (length (on_key k H)) - 1)) with (pred (length (on_key k H))) by lia.
  pose proof (hist_versions H k _ c a Hwf ltac:(unfold len; lia) Hl) as Hver.
  split_and!; [done|lia|].
  unfold Get. cbn [ga_Key]. rewrite kv_of_store by (done || unfold len; lia).
  rewrite last_lookup, Hl.
  cbn [fmap option_fmap option_map e_value e_version snd].
  apply list_elem_of_lookup_2, list_elem_of_filter in Hl as [_ Hin].
  unfold puts_hist in Hputs. rewrite list.Forall_forall in Hputs.
  destruct (Hputs _ Hin) as (_ & _ & Hv). cbn [fst snd] in Hv. by rewrite Hv.
Qed.

(** A client moves on within the loop. *)
Lemma put_ok_move c p H H' pc :
  put_ok c p H → grows H H' →
  (∀ k ver err, pc = QPut k ver ∨ pc = QGet k ver err → randomkeys = false →
     head ka = Some k) →
  put_pc_ok c (q_at p pc) H' → put_ok c (q_at p pc) H'.
Proof.
  intros [Hme Hverm Hdone Hkey Hpc] Hg Hk Hpc'.
  pose proof (λ k, written_grows k _ _ Hg) as Hw. pose proof (λ k v, had_grows k v _ _ Hg) as Hh.
  split; cbn; [done|naive_solver..].
Qed.

Lemma put_ok_return c p H k ver gver ok err :
  put_ok c p H → q_pc p = QGet k ver err → written k H → gver <= len (on_key k H) →
  counted (q_res (OnePut_return p k gver ok)) (len (mine c H)) →
  put_ok c (OnePut_return p k gver ok) H.
Proof.
  intros [Hme Hverm Hdone Hkey Hpc] Hq Hw Hv Hcnt. split; cbn.
  - done.
  - intros k' v. rewrite lookup_insert_Some. intros [[<- <-]|[_ Hv']]; [by split; [right|]|by eapply Hverm].
  - intros _ Hr. exists k. split; [by eapply Hkey; eauto|done].
  - intros k' ver' err' [?|?]; done.
  - done.
Qed.

Lemma put_next_inv c p H op :
  put_ok c p H → put_next p = Some op →
  match q_pc p with
  | QPut k ver =>
      op = OpPut (MkPutArgs k (Marshal (MkEntryV (Z.of_nat c) ver)) ver)
  | QGet k _ _ => op = OpGet (MkGetArgs k)
  | _ => False
  end.
Proof.
  intros Hp. destruct (po_me _ _ _ Hp) as [Hme _]. unfold put_next. rewrite <-Hme.
  by destruct (q_pc p); intros ?; simplify_eq.
Qed.

Context (Hn : Z.of_nat n < 2 ^ 63).

(** A [Get] finds the last [Put] of the key, with its client's name. *)
Lemma OnePut_read_spec c p H k ver err :
  hist_ok H → puts_hist H → put_ok c p H → q_pc p = QGet k ver err →
  let r := Get (kv_of H) (MkGetArgs k) in
  OnePut_read p k ver err (gr_Value r, gr_Version r, gr_Err r) =
    if decide (err = OK ∨ err = ErrMaybe)
    then OnePut_return p k (len (on_key k H)) (bool_decide (err = OK))
    else q_at p (QPut k (len (on_key k H))).
Proof.
  intros Hok Hinv Hp Hq r. pose proof (po_pc _ _ _ Hp) as Hpc.
  destruct (po_me _ _ _ Hp) as (Hme & Hlt & _). unfold put_pc_ok in Hpc. rewrite Hq in Hpc.
  destruct Hpc as (_ & Hw & Hcase). unfold r. clear r.
  destruct (get_of_hist H k Hok Hinv Hw) as (c0 & a0 & Hlast & Hver & ->).
  pose proof Hok as [Hwf Hlen]. pose proof (on_key_len k H) as Hb. unfold written in Hw.
  assert (c0 < n)%nat as Hc0.
  { apply list_elem_of_lookup_2, list_elem_of_filter in Hlast as [_ Hin].
    unfold puts_hist in Hinv. rewrite list.Forall_forall in Hinv. by apply Hinv in Hin as [? _]. }
  cbn [gr_Value gr_Version gr_Err]. unfold OnePut_read, decode_get. rewrite decide_True by done.
  rewrite Unmarshal_Marshal by (cbn; unfold in_int, in_uint64; lia).
  rewrite (decide_False (P := (_ ∧ _) ∧ _)); [done|].
  intros [[-> Hv0] [Hid _]]. cbn in Hid. destruct Hcase as [(_ & Hin & _)|[[? _]|[? _]]]; [|done..].
  assert (∃ i, on_key k H !! i =
    Some (c, MkPutArgs k (Marshal (MkEntryV (Z.of_nat c) ver)) ver)) as [i Hi].
  { apply list_elem_of_lookup, list_elem_of_filter. by split. }
  pose proof (hist_versions H k i _ _ Hwf ltac:(lia) Hi) as Hvi. cbn in Hvi.
  apply lookup_lt_Some in Hi as Hil. unfold len in *. rewrite ver_succ_small in Hv0 by lia.
  replace i with (Z.to_nat (Z.of_nat (length (on_key k H)) - 1)) in Hi by lia.
  rewrite Hlast in Hi. injection Hi as -> _. congruence.
Qed.

Lemma put_get c p H g :
  hist_ok H → puts_hist H → put_ok c p H → put_next p = Some (OpGet g) →
  let r := Get (kv_of H) g in
  put_ok c (put_resume p (ResGet (gr_Value r) (gr_Version r) (gr_Err r))) H.
Proof using Hn.
  intros Hok Hinv Hp Hop r. pose proof (put_next_inv c p H _ Hp Hop) as Hop'.
  pose proof (po_pc _ _ _ Hp) as Hpc. unfold put_pc_ok in Hpc. unfold put_resume.
  destruct (q_pc p) as [|k ver|k ver err| |msg] eqn:Hq; try done. injection Hop' as ->.
  unfold r. rewrite (OnePut_read_spec c p H) by done.
  destruct Hpc as (Hka & Hw & [(-> & Hin & Hcnt)|[(-> & Hrel & Hcnt)|(-> & Hcnt)]]).
  - rewrite decide_True, bool_decide_eq_true_2 by auto. eapply put_ok_return; [done|done|done|done|].
    unfold counted in *. cbn in *. naive_solver lia.
  - rewrite decide_True by auto. by eapply put_ok_return.
  - rewrite decide_False by (by intros [?|?]). apply (put_ok_move _ _ H); [done|apply grows_refl|..].
    + intros k' v e [[= <- _]|?]; [|done]. eapply (po_key _ _ _ Hp). by eauto.
    + unfold put_pc_ok. cbn. split_and!; [done| |done]. by split; [right|].
Qed.

(** [PutJson] answered [err]. *)
Lemma put_wrote c p H H' k ver err :
  put_ok c p H → q_pc p = QPut k ver → grows H H' →
  err = OK ∨ err = ErrVersion ∨ err = ErrMaybe →
  put_pc_ok c (q_at p (QGet k ver err)) H' →
  put_ok c (put_resume p (ResPut err)) H'.
Proof.
  intros Hp Hq Hw Herr Hpc. unfold put_resume. rewrite Hq. unfold OnePut_wrote.
  rewrite decide_True by done. apply (put_ok_move _ _ H); [done|done| |done].
  intros k' v e [?|[= <- _ _]]; [done|]. apply (po_key _ _ _ Hp k ver err). by left.
Qed.

Lemma put_applied_ok c p H a :
  puts_hist H → put_ok c p H → put_next p = Some (OpPut a) →
  puts_hist (H ++ [(c, a)]) ∧ put_ok c (put_resume p (ResPut OK)) (H ++ [(c, a)]) ∧
  (reliable = false → put_ok c (put_resume p (ResPut ErrMaybe)) (H ++ [(c, a)])).
Proof.
  intros Hinv Hp Hop. pose proof (put_next_inv c p H _ Hp Hop) as Hop'.
  pose proof (po_pc _ _ _ Hp) as Hpc. unfold put_pc_ok in Hpc.
  destruct (q_pc p) as [|k ver|k ver err| |msg] eqn:Hq; try done. injection Hop' as ->.
  set (a := MkPutArgs _ _ _). destruct Hpc as (Hka & Hw & Hcnt).
  pose proof (written_new H c a) as Hnew. cbn in Hnew.
  pose proof (grows_snoc H (c, a)) as Hws.
  split_and!.
  - apply Forall_app. split; [done|]. apply Forall_singleton. split_and!; [|done|done].
    by destruct (po_me _ _ _ Hp) as (_ & ? & _).
  - eapply put_wrote; [done|done|done|auto|]. unfold put_pc_ok. cbn.
    split_and!; [done|done|left]. rewrite mine_own.
    split_and!; [done|by apply elem_of_app; right; apply list_elem_of_singleton|].
    by rewrite Z.add_simpl_r.
  - intros Hrel. eapply put_wrote; [done|done|done|auto|]. unfold put_pc_ok. cbn.
    split_and!; [done|done|right; left]. rewrite mine_own.
    split_and!; [done|done|]. unfold counted in *. cbn. rewrite Hrel. split_and!; [lia..|done].
Qed.

Lemma put_stale_ok c p H a :
  hist_ok H → put_ok c p H → put_next p = Some (OpPut a) →
  is_Some (store (kv_of H) !! pa_Key a) →
  put_ok c (put_resume p (ResPut ErrVersion)) H ∧
  (reliable = false → put_ok c (put_resume p (ResPut ErrMaybe)) H).
Proof.
  intros [Hwf Hlen] Hp Hop Hs. pose proof (put_next_inv c p H _ Hp Hop) as Hop'.
  pose proof (po_pc _ _ _ Hp) as Hpc. unfold put_pc_ok in Hpc.
  destruct (q_pc p) as [|k ver|k ver err| |msg] eqn:Hq; try done. injection Hop' as ->.
  destruct Hpc as (Hka & _ & Hcnt). apply (hist_wf_key_exists H k) in Hs; [|done|lia].
  split; [|intros Hrel]; (eapply put_wrote; [done|done|apply grows_refl|auto|]); unfold put_pc_ok; cbn.
  - split_and!; [done|done|by right; right].
  - split_and!; [done|done|right; left].
    split_and!; [done|done|]. unfold counted in *. cbn. rewrite Hrel. split_and!; [lia..|done].
Qed.

Lemma put_local_ok c p p' H : put_ok c p H → put_local p p' → put_ok c p' H.
Proof.
  intros Hp Hl. pose proof (po_pc _ _ _ Hp) as Hpc.
  destruct (po_me _ _ _ Hp) as (_ & _ & Hka & Hrk).
  inversion Hl as [q Hq|q k Hq Hk]; subst; unfold put_pc_ok in Hpc; rewrite Hq in Hpc;
    (apply (put_ok_move _ _ H); [done|apply grows_refl|..]); try done.
  - by intros k ver err [?|?].
  - intros k' ver err [[= <- _]|?] Hr; [|done]. rewrite Hrk, Hr, Hka in Hk. done.
  - unfold put_pc_ok. cbn. split_and!; [| |done].
    + rewrite <-Hka. destruct (q_randomkeys p); [done|]. destruct (q_ka p) as [|k0 l]; [done|].
      injection Hk as ->. by apply elem_of_cons; left.
    + destruct (q_verm p !! k) as [v|] eqn:Hv; [by eapply (po_verm _ _ _ Hp)|].
      split; [by left|]. cbn. pose proof (on_key_len k H). lia.
Qed.

Lemma put_rule :
  ClientSpec (P := PutClient) reliable (net_steps reliable) puts_hist (λ c p H _, put_ok c p H).
Proof using Hn.
  split.
  - intros s c p b left HR. destruct reliable; [|done]. by destruct (HR eq_refl c p b left).
  - intros c p H t a [Hwf Hlen] _ Hp Hop. pose proof (put_next_inv c p H _ Hp Hop) as Hop'.
    pose proof (po_pc _ _ _ Hp) as Hpc. unfold put_pc_ok in Hpc.
    destruct (q_pc p) as [|k ver|k ver err| |msg]; try done. injection Hop' as ->. cbn.
    destruct Hpc as (_ & [_ Hle] & _). by rewrite kv_of_version by (done || lia).
  - done.
  - intros c p H t c' a _ _ Hne. by apply put_ok_stable.
  - intros s c p p' Hall Hc Hl _ _ _. eapply put_local_ok; [by apply Hall|done].
  - intros c p H t g Hok HH _. by apply put_get.
  - intros c p H t a _ HH _ Hp Hop _. by apply put_applied_ok.
  - intros c p H t a Hok _ Hp Hop _. by apply put_stale_ok.
  - intros c p H t a [Hwf Hlen] _ Hp Hop Ha Hs. exfalso.
    pose proof (put_next_inv c p H _ Hp Hop) as Hop'.
    pose proof (po_pc _ _ _ Hp) as Hpc. unfold put_pc_ok in Hpc.
    destruct (q_pc p) as [|k ver|k ver err| |msg]; try done. injection Hop' as ->. cbn in Hs.
    destruct Hpc as (_ & [[->|Hw] _] & _).
    + apply Ha. unfold put_applies, cur_version. cbn. by rewrite Hs.
    + apply (hist_wf_key_exists H k) in Hw as [e He]; [|done|lia]. congruence.
Qed.
End Puts.

(** ** OneClientAppend *)

Section Appends.
Context (n : nat).
Implicit Types es : list entry.

(** The history of the key, and the list it holds at the end. *)
Inductive list_hist : History → list entry → Prop :=
| lh_init : list_hist [(n, MkPutArgs append_key (Marshal (@nil entry)) 0)] []
| lh_snoc H es c N :
    list_hist H es → (c < n)%nat → 0 <= N < 2 ^ 63 →
    let es' := es ++ [MkEntryN (Z.of_nat c) N] in
    list_hist (H ++ [(c, MkPutArgs append_key (Marshal es') (len es + 1))]) es'.

Definition appends_hist (H : History) : Prop := H = [] ∨ ∃ es, list_hist H es.

(** The numbers client [c] has in the list. *)
Definition ns (c : nat) es : list Z := en_N <$> filter (λ e, en_Id e = Z.of_nat c) es.

(** They increase, and only numbers of a [Put] answered [ErrMaybe] are
    missing. *)
Definition ns_ok (l : list Z) (i : Z) (res : ClntRes) : Prop :=
  StronglySorted Z.lt l ∧ Forall (λ x, 0 <= x < i) l ∧ i = Nok res + Nmaybe res ∧
  0 <= Nok res <= len l ∧ 0 <= Nmaybe res.

Definition append_ok_at (c : nat) (p : AppendClient) (H : History) : Prop :=
  match a_pc p with
  | AWait => a_i p = 0 ∧ a_res p = MkClntRes 0 0 ∧ ∀ es, list_hist H es → ns c es = []
  | ASelect | AGet | ADone => ∃ es, list_hist H es ∧ ns_ok (ns c es) (a_i p) (a_res p)
  | APut es' ver =>
      ∃ es, list_hist H es ∧ ns_ok (ns c es) (a_i p) (a_res p) ∧
        ∃ es0, es0 `prefix_of` es ∧ ver = len es0 + 1 ∧
          es' = es0 ++ [MkEntryN (Z.of_nat c) (a_i p)]
  | AFatal _ | AMainPut _ | AMainDone _ => False
  end.

Definition append_inv (c : nat) (p : AppendClient) (H : History) (t : Z) : Prop :=
  a_me p = c ∧
  if decide (c = n) then
    match a_pc p with
    | AMainPut _ => True
    | AMainDone _ => ∃ es, list_hist H es
    | _ => False
    end
  else (c < n)%nat ∧ a_i p <= t ∧ append_ok_at c p H.

Lemma list_hist_key H es : list_hist H es → on_key append_key H = H.
Proof.
  induction 1 as [|H es c N Hl IH Hc HN es']; [done|].
  by rewrite on_key_snoc, decide_True, IH.
Qed.

Lemma list_hist_len H es : list_hist H es → len H = len es + 1.
Proof.
  induction 1 as [|H es c N Hl IH Hc HN es']; [done|]. unfold es'. rewrite !len_snoc. lia.
Qed.

Lemma list_hist_last H es :
  list_hist H es → ∃ c ver, list.last H = Some (c, MkPutArgs append_key (Marshal es) ver).
Proof. intros [|H' es' c N Hl Hc HN es'']; [by eauto|]. rewrite list.last_snoc. eauto. Qed.

Lemma ns_snoc c es c' N :
  ns c (es ++ [MkEntryN (Z.of_nat c') N]) = ns c es ++ (if decide (c' = c) then [N] else []).
Proof.
  unfold ns. rewrite list.filter_app, fmap_app, list.filter_cons. cbn. f_equal.
  destruct (decide (c' = c)) as [->|Hne]; [by rewrite decide_True|].
  rewrite decide_False; [done|lia].
Qed.

Context (Hn : Z.of_nat n < 2 ^ 63).

Lemma list_hist_json H es : list_hist H es → json_ok es.
Proof.
  induction 1 as [|H es c N Hl IH Hc HN es']; [by apply Forall_nil|]. apply Forall_app. split; [done|].
  apply Forall_singleton. unfold in_int. cbn. lia.
Qed.

Lemma list_hist_fun H es1 es2 : list_hist H es1 → list_hist H es2 → es1 = es2.
Proof.
  intros H1 H2. pose proof (list_hist_json _ _ H1) as J1. pose proof (list_hist_json _ _ H2) as J2.
  destruct (list_hist_last _ _ H1) as (c1 & v1 & L1), (list_hist_last _ _ H2) as (c2 & v2 & L2).
  assert (Marshal es1 = Marshal es2) as Hm by congruence.
  pose proof (Unmarshal_Marshal es1 J1) as E1. rewrite Hm, (Unmarshal_Marshal es2 J2) in E1. congruence.
Qed.

(** What [GetJson] returns. *)
Lemma get_of_list H es :
  hist_ok H → list_hist H es →
  Get (kv_of H) (MkGetArgs append_key) = MkGetReply (Marshal es) (len es + 1) OK.
Proof.
  intros [Hwf Hlen] Hl. destruct (list_hist_last _ _ Hl) as (c & v & Hlast).
  unfold Get. cbn [ga_Key]. rewrite kv_of_store by (done || lia).
  rewrite (list_hist_key _ _ Hl), Hlast, (list_hist_len _ _ Hl). done.
Qed.

(** A longer history holds a longer list. *)
Lemma list_hist_snoc_inv H c a es' :
  list_hist (H ++ [(c, a)]) es' →
  H = [] ∨ ∃ es N, list_hist H es ∧ es' = es ++ [MkEntryN (Z.of_nat c) N].
Proof.
  intros Hl. remember (H ++ [(c, a)]) as H' eqn:Heq.
  destruct Hl as [|H0 es c0 N Hl0 Hc HN es'].
  - left. by destruct H as [|? [|]].
  - apply app_inj_tail in Heq as [-> [= -> _]]. right. by exists es, N.
Qed.

Lemma list_hist_nil es : ¬ list_hist [] es.
Proof. intros Hl. apply list_hist_len in Hl. unfold len in Hl. cbn in Hl. lia. Qed.

Lemma list_hist_one q es : list_hist [q] es → es = [].
Proof.
  intros Hl. apply list_hist_len in Hl. destruct es; [done|]. unfold len in Hl. cbn in Hl. lia.
Qed.

Lemma append_stable c p H t c' a :
  hist_ok (H ++ [(c', a)]) → appends_hist (H ++ [(c', a)]) → c' ≠ c → append_inv c p H t →
  append_inv c p (H ++ [(c', a)]) t.
Proof.
  intros [Hwf _] [Hnil|[es' Hes']] Hne [Hme HJ]; [by destruct H|]. split; [done|].
  pose proof (list_hist_snoc_inv _ _ _ _ Hes') as Hcase.
  case_decide as Hcn; [destruct (a_pc p); try done; by exists es'|].
  destruct HJ as (Hlt & Ht & HJ). split_and!; [done|done|].
  assert (∀ es, list_hist H es → ns c es' = ns c es ∧ es `prefix_of` es') as Hext.
  { intros es Hes. destruct Hcase as [->|(es1 & N & Hes1 & ->)]; [by apply list_hist_nil in Hes|].
    rewrite (list_hist_fun _ _ _ Hes Hes1), ns_snoc, decide_False, app_nil_r by done.
    split; [done|by apply prefix_app_r]. }
  unfold append_ok_at in *. destruct (a_pc p) as [| | |es0' ver| | | |]; try done.
  - destruct HJ as (Hi & Hres & HJ). split_and!; [done|done|]. intros es Hes.
    rewrite (list_hist_fun _ _ _ Hes Hes'). destruct Hcase as [->|(es1 & N & Hes1 & ->)].
    + by rewrite (list_hist_one _ _ Hes').
    + destruct (Hext es1 Hes1) as [-> _]. by apply HJ.
  - destruct HJ as (es & Hes & HJ). exists es'. split; [done|]. by destruct (Hext es Hes) as [-> _].
  - destruct HJ as (es & Hes & HJ). exists es'. split; [done|]. by destruct (Hext es Hes) as [-> _].
  - destruct HJ as (es & Hes & HJ & es0 & Hpre & Hver & He). exists es'.
    destruct (Hext es Hes) as [-> Hp]. split_and!; [done|done|]. exists es0.
    split_and!; [by etrans|done|done].
  - destruct HJ as (es & Hes & HJ). exists es'. split; [done|]. by destruct (Hext es Hes) as [-> _].
Qed.

Lemma ns_ok_applied l i res res' :
  ns_ok l i res → Nok res' + Nmaybe res' = i + 1 → 0 <= Nok res' <= Nok res + 1 →
  0 <= Nmaybe res' → ns_ok (l ++ [i]) (i + 1) res'.
Proof.
  intros (Hs & Hall & Hi & Hok & Hm) H1 H2 H3. unfold ns_ok. rewrite len_snoc.
  split_and!; [| |lia..].
  - apply StronglySorted_app; split_and!; [|done|by repeat constructor].
    intros x y Hx ->%list_elem_of_singleton. rewrite list.Forall_forall in Hall. by apply Hall.
  - apply Forall_app. split; [|apply Forall_singleton; lia].
    eapply list.Forall_impl; [exact Hall|]. cbn. lia.
Qed.

Lemma ns_ok_skipped l i res :
  ns_ok l i res → ns_ok l (i + 1) (MkClntRes (Nok res) (Nmaybe res + 1)).
Proof.
  intros (Hs & Hall & Hi & Hok & Hm). unfold ns_ok. cbn. split_and!; [done| |lia..].
  eapply list.Forall_impl; [exact Hall|]. cbn. lia.
Qed.

(** The list a client holds is the current one when its [Put] applies. *)
Lemma put_applies_list H es es0 a :
  hist_ok H → list_hist H es → pa_Key a = append_key → pa_Version a = len es0 + 1 →
  es0 `prefix_of` es → put_applies (kv_of H) a → es0 = es.
Proof.
  intros [Hwf Hlen] Hl Hk Hv [l ->] Ha. unfold put_applies in Ha.
  rewrite Hk, kv_of_version, (list_hist_key _ _ Hl), (list_hist_len _ _ Hl) in Ha by (done || lia).
  rewrite Hv in Ha. unfold len in Ha. rewrite length_app in Ha.
  destruct l; [by rewrite app_nil_r|]. cbn in Ha. lia.
Qed.

Lemma append_key_exists H es : hist_ok H → list_hist H es → is_Some (store (kv_of H) !! append_key).
Proof.
  intros [Hwf Hlen] Hl. apply hist_wf_key_exists; [done|lia|].
  rewrite (list_hist_key _ _ Hl), (list_hist_len _ _ Hl). unfold len. lia.
Qed.

(** The current call of a client that is no longer waiting. *)
Lemma append_next_inv c p H t op :
  append_inv c p H t → append_next p = Some op →
  (c = n ∧ (∃ ver, a_pc p = AMainPut ver) ∧
     op = OpPut (MkPutArgs append_key (Marshal (@nil entry)) 0)) ∨
  ((c < n)%nat ∧ a_i p <= t ∧ ∃ es, list_hist H es ∧ ns_ok (ns c es) (a_i p) (a_res p) ∧
     (a_pc p = AGet ∧ op = OpGet (MkGetArgs append_key) ∨
      ∃ es0, es0 `prefix_of` es ∧
        let es' := es0 ++ [MkEntryN (Z.of_nat c) (a_i p)] in
        a_pc p = APut es' (len es0 + 1) ∧
        op = OpPut (MkPutArgs append_key (Marshal es') (len es0 + 1)))).
Proof.
  intros [Hme HJ] Hop. unfold append_next in Hop. case_decide as Hc.
  - left. destruct (a_pc p) eqn:Hpc; try done. injection Hop as <-. eauto.
  - right. destruct HJ as (Hlt & Ht & HJ). unfold append_ok_at in HJ.
    destruct (a_pc p) as [| | |es' ver| | | |] eqn:Hpc; try done; injection Hop as <-.
    + destruct HJ as (es & Hes & Hns). split_and!; [done|done|]. exists es. auto.
    + destruct HJ as (es & Hes & Hns & es0 & Hpre & -> & ->). split_and!; [done|done|].
      exists es. split_and!; [done|done|]. right. exists es0. auto.
Qed.

Lemma append_inv_client c p H t :
  a_me p = c → (c < n)%nat → a_i p <= t → append_ok_at c p H → append_inv c p H t.
Proof. intros. split; [done|]. rewrite decide_False by lia. done. Qed.

Lemma append_get c p H t g :
  hist_ok H → append_inv c p H t → append_next p = Some (OpGet g) →
  let r := Get (kv_of H) g in
  append_inv c (append_resume p (ResGet (gr_Value r) (gr_Version r) (gr_Err r))) H (t + 1).
Proof.
  intros Hok HJ Hop. pose proof HJ as [Hme _].
  destruct (append_next_inv _ _ _ _ _ HJ Hop)
    as [(_ & _ & ?)|(Hlt & Ht & es & Hes & Hns & [[Hpc [= ->]]|(es0 & _ & _ & ?)])]; [done| |done].
  rewrite (get_of_list H es Hok Hes). cbn [gr_Value gr_Version gr_Err].
  unfold append_resume. rewrite Hpc. unfold append_read, decode_get.
  rewrite decide_True, (Unmarshal_Marshal es) by (done || by eapply list_hist_json).
  apply append_inv_client; [done|done|cbn; lia|]. exists es. split_and!; [done|done|].
  exists es. by rewrite Hme.
Qed.

Lemma append_put c p H t a :
  hist_ok H → appends_hist H → t < 2 ^ 63 - 1 → append_inv c p H t →
  append_next p = Some (OpPut a) → put_applies (kv_of H) a →
  appends_hist (H ++ [(c, a)]) ∧
  append_inv c (append_resume p (ResPut OK)) (H ++ [(c, a)]) (t + 1) ∧
  append_inv c (append_resume p (ResPut ErrMaybe)) (H ++ [(c, a)]) (t + 1).
Proof.
  intros Hok HH Ht HJ Hop Ha. pose proof HJ as [Hme _].
  destruct (append_next_inv _ _ _ _ _ HJ Hop) as [(-> & [ver Hpc] & [= ->])|(Hlt & Hi & es & Hes &
    Hns & [[_ ?]|(es0 & Hpre & Hpc & [= ->])])]; [|done|]; unfold append_resume; rewrite Hpc.
  - destruct HH as [->|[es Hes]].
    2: { destruct (append_key_exists _ _ Hok Hes) as [e He]. destruct Hok as [Hwf Hlen].
      unfold put_applies in Ha. cbn [pa_Key pa_Version] in Ha.
      rewrite kv_of_version, (list_hist_key _ _ Hes), (list_hist_len _ _ Hes) in Ha by (done || lia).
      unfold len in Ha. lia. }
    pose proof lh_init as Hi. unfold append_main.
    split_and!; [right; by eexists|..]; (split; [done|]); rewrite decide_True by done; cbn.
    + by eexists.
    + done.
  - assert (es0 = es) as ->.
    { eapply (put_applies_list H); [done|done| | |done|exact Ha]; done. }
    assert (0 <= a_i p < 2 ^ 63) as Hir by (destruct Hns as (_ & _ & ? & ? & ?); lia).
    pose proof (lh_snoc H es c (a_i p) Hes Hlt Hir) as Hes'. cbn zeta in Hes'.
    change (append_wrote p OK) with (append_ok p).
    change (append_wrote p ErrMaybe) with (append_maybe p).
    split_and!; [right; by eexists|..]; (apply append_inv_client; [done|done|cbn; lia|]);
      (eexists; split; [exact Hes'|]); rewrite ns_snoc, decide_True by done; cbn;
      (eapply ns_ok_applied; [done|..]); destruct Hns as (_ & _ & ? & ? & ?); cbn; lia.
Qed.

Lemma append_refused c p H t a :
  appends_hist H → append_inv c p H t → append_next p = Some (OpPut a) →
  is_Some (store (kv_of H) !! pa_Key a) →
  append_inv c (append_resume p (ResPut ErrVersion)) H (t + 1) ∧
  append_inv c (append_resume p (ResPut ErrMaybe)) H (t + 1).
Proof.
  intros HH HJ Hop [e He]. pose proof HJ as [Hme _].
  destruct (append_next_inv _ _ _ _ _ HJ Hop) as [(-> & [ver Hpc] & [= ->])|(Hlt & Hi & es & Hes &
    Hns & [[_ ?]|(es0 & Hpre & Hpc & [= ->])])]; [|done|]; unfold append_resume; rewrite Hpc.
  - destruct HH as [->|Hes]; [by cbn in He; rewrite lookup_empty in He|]. unfold append_main.
    split; (split; [done|]); rewrite (decide_True (P := n = n)) by done; cbn; done.
  - change (append_wrote p ErrVersion) with (a_at p AGet).
    change (append_wrote p ErrMaybe) with (append_maybe p). split; (apply append_inv_client; [done|done|cbn; lia|]);
      exists es; (split; [done|]); [done|]. by apply ns_ok_skipped.
Qed.

Lemma append_local_ok s c p p' :
  (∀ c' q, s_clients s !! c' = Some (MkClient q None) → append_inv c' q (hist s) (s_clock s)) →
  s_clients s !! c = Some (MkClient p None) → append_local p p' →
  spawned n s (do_local s c p') → append_inv c p' (hist s) (s_clock s).
Proof.
  intros Hall Hc Hl Hsp. pose proof (Hall c p Hc) as [Hme HJ].
  destruct Hl as [p Hpc|p Hpc|p Hpc]; split; try done; rewrite Hpc in HJ; case_decide as Hcn; try done;
    destruct HJ as (Hlt & Ht & HJ); unfold append_ok_at in HJ; rewrite Hpc in HJ; try done.
  split_and!; [done|done|]. destruct HJ as (Hi & Hres & Hns).
  destruct (Hsp c p Hc Hpc) as [Hsame|(q & ver & Hq & Hqpc)].
  - cbn in Hsame. rewrite list_lookup_insert_eq in Hsame by (by eapply lookup_lt_Some).
    injection Hsame as Hp. rewrite <-Hp in Hpc. done.
  - destruct (Hall n q Hq) as [_ HJq]. rewrite decide_True, Hqpc in HJq by done.
    destruct HJq as [es Hes]. exists es. split; [done|]. cbn. rewrite Hi, Hres, (Hns es Hes).
    unfold ns_ok. cbn. split_and!; try done. constructor.
Qed.

Lemma append_rule :
  ClientSpec (P := AppendClient) false (spawned n) appends_hist append_inv.
Proof.
  split.
  - done.
  - intros c p H t a [Hwf Hlen] _ HJ Hop.
    destruct (append_next_inv _ _ _ _ _ HJ Hop) as [(_ & _ & [= ->])|(_ & _ & es & Hes &
      _ & [[_ ?]|(es0 & [l ->] & _ & [= ->])])]; [|done|]; cbn [due pa_Version pa_Key];
      rewrite kv_of_version by (done || lia).
    + pose proof (on_key_len append_key H). lia.
    + rewrite (list_hist_key _ _ Hes), (list_hist_len _ _ Hes). unfold len. rewrite length_app. lia.
  - intros c p H t t' Ht [Hme HJ]. split; [done|]. case_decide; [done|].
    destruct HJ as (? & ? & ?). split_and!; [done|lia|done].
  - intros c p H t c' a. apply append_stable.
  - intros s c p p' Hall Hc Hl Hsp _ _. by eapply append_local_ok.
  - intros c p H t g Hok _ _. by apply append_get.
  - intros c p H t a [Hwf Hlen] HH Ht HJ Hop Ha.
    pose proof (hist_wf_inv _ _ _ Hwf) as [Hwf0 _]. rewrite len_snoc in Hlen.
    destruct (append_put c p H t a) as (H1 & H2 & H3); try done. split; [done|lia].
  - intros c p H t a _ HH HJ Hop _ He. by destruct (append_refused c p H t a).
  - intros c p H t a Hok HH HJ Hop Ha He. exfalso.
    destruct (append_next_inv _ _ _ _ _ HJ Hop) as [(_ & _ & [= ->])|(_ & _ & es & Hes &
      _ & [[_ ?]|(es0 & _ & _ & [= ->])])]; [|done|].
    + apply Ha. unfold put_applies, cur_version. cbn [pa_Key] in *. by rewrite He.
    + destruct (append_key_exists _ _ Hok Hes) as [e Hs]. cbn [pa_Key] in He. congruence.
Qed.
End Appends.
