(* ===== verification/KvTestTheorems.v ===== *)
(** * The checks of the test programs

    A test of [kvtest.go] never blames a correct service: over any network and
    in any interleaving no client ends in [Fatalf], the checks at the end
    pass, and the loops of a lone goroutine return what they promise. *)
From S2P Require Import Prelude Strs Rpc KvSrv KvModel Clerk KvSys KvCareful KvRule Json KvTest KvTestProof.

(** ** Sums over the clients *)

Definition zsum (l : list Z) : Z := foldr Z.add 0 l.

Lemma zsum_add {A} (f g : A → Z) (l : list A) :
  zsum ((λ x, f x + g x) <$> l) = zsum (f <$> l) + zsum (g <$> l).
Proof. unfold zsum. induction l as [|x l IH]; [done|]. cbn in *. lia. Qed.

Lemma zsum_zero {A} (f : A → Z) (l : list A) : (∀ x, x ∈ l → f x = 0) → zsum (f <$> l) = 0.
Proof.
  unfold zsum. induction l as [|x l IH]; intros H; [done|]. cbn.
  rewrite (H x), IH by set_solver. done.
Qed.

Lemma zsum_one (c : nat) (l : list nat) :
  NoDup l → c ∈ l → zsum ((λ x, if decide (c = x) then 1 else 0) <$> l) = 1.
Proof.
  unfold zsum. induction 1 as [|x l Hx Hnd IH]; [by intros ?%elem_of_nil|].
  intros [->|Hc]%elem_of_cons; cbn.
  - rewrite decide_True by done. fold (zsum ((λ y, if decide (x = y) then 1 else 0) <$> l)).
    rewrite zsum_zero; [done|]. intros y Hy. rewrite decide_False; [done|]. by intros ->.
  - rewrite decide_False by (by intros ->). rewrite IH by done. done.
Qed.

(** Every [Put] of the history is of one client. *)
Lemma len_mine n H :
  (∀ q, q ∈ H → (q.1 < n)%nat) → len H = zsum ((λ c, len (mine c H)) <$> seq 0 n).
Proof.
  induction H as [|[c a] H IH] using rev_ind; intros Hc; [by rewrite zsum_zero|].
  rewrite len_snoc, IH by (intros; apply Hc; set_solver).
  assert ((λ x, len (mine x (H ++ [(c, a)]))) <$> seq 0 n =
    (λ x, len (mine x H) + (if decide (c = x) then 1 else 0)) <$> seq 0 n) as ->.
  { apply list_fmap_ext. intros i x _. rewrite mine_snoc.
    case_decide; rewrite ?app_nil_r, ?len_snoc; lia. }
  rewrite zsum_add, zsum_one; [done|apply NoDup_seq|].
  apply elem_of_seq. assert ((c, a).1 < n)%nat as Hlt by (apply Hc; set_solver). cbn in Hlt. lia.
Qed.

Lemma foldl_add_res rs res :
  Nok (foldl add_res res rs) = Nok res + zsum (Nok <$> rs) ∧
  Nmaybe (foldl add_res res rs) = Nmaybe res + zsum (Nmaybe <$> rs).
Proof.
  unfold zsum. revert res. induction rs as [|r rs IH]; intros res; cbn; [lia|].
  destruct (IH (add_res res r)) as [-> ->]. cbn. lia.
Qed.

(** ** A lone goroutine *)

Lemma kvtest_Get_result key cli st o net b :
  ts_net st = o :: net → reply_lost o = Some b →
  ∃ st', kvtest_Get key cli st =
    Ret (let r := Get (ts_kv st) (MkGetArgs key) in (gr_Value r, gr_Version r, gr_Err r)) st' ∧
    ts_kv st' = ts_kv st ∧ ts_net st' = net.
Proof.
  intros Hnet Ho. unfold kvtest_Get, TestClerk_Get, IKVClerk_Get, tbind, now, OpInc, Append, ret.
  cbn. rewrite Hnet, (Clerk_Get_result _ _ _ _ Ho). by eexists.
Qed.

Lemma Test_Get_result key cli st o net b :
  ts_net st = o :: net → reply_lost o = Some b →
  ∃ st', Test_Get key cli st =
    Ret (let r := Get (ts_kv st) (MkGetArgs key) in (gr_Value r, gr_Version r, gr_Err r)) st' ∧
    ts_kv st' = ts_kv st ∧ ts_net st' = net.
Proof. apply kvtest_Get_result. Qed.

Lemma GetJson_result {A} `{!Json A, !JsonLaws A} key me st o net b (x : A) ver :
  ts_net st = o :: net → reply_lost o = Some b →
  Get (ts_kv st) (MkGetArgs key) = MkGetReply (Marshal x) ver OK → json_ok x →
  ∃ st', GetJson key me st = Ret (x, ver) st'.
Proof.
  intros Hnet Ho Hg Hx. destruct (kvtest_Get_result key me st o net b Hnet Ho) as (st' & Hr & _ & _).
  exists st'. unfold GetJson, tbind. rewrite Hr, Hg. cbn [gr_Value gr_Version gr_Err].
  unfold decode_get. rewrite decide_True, Unmarshal_Marshal by done. done.
Qed.

(** ** OneClientPut and CheckPutConcurrent *)

Lemma put_progs_ok reliable n ka randomkeys c p :
  put_progs n ka randomkeys !! c = Some p → put_ok reliable n ka randomkeys c p [].
Proof.
  unfold put_progs. rewrite list_lookup_fmap. intros (c' & Hc & ->)%fmap_Some.
  apply lookup_seq in Hc as [-> Hlt]. cbn. split; cbn.
  - split_and!; [done|lia|done|done].
  - intros k v Hk. apply elem_of_list_to_map_2, list_elem_of_fmap in Hk as (k' & [= <- ->] & _).
    by split; [left|].
  - lia.
  - by intros k ver err [?|?].
  - unfold put_pc_ok, counted. cbn. split_and!; try done.
Qed.

(** The clients [Put] only at versions they have read. *)
Definition put_knows (p : PutClient) (k : string) (v : Tversion) : Prop :=
  v = 0 ∨ q_verm p !! k = Some v ∨ q_pc p = QPut k v.

#[export] Instance Put_careful : CarefulClient PutClient.
Proof.
  refine {| knows := put_knows |}; unfold put_knows.
  - intros p a. cbn. unfold put_next. destruct (q_pc p) eqn:Hpc; try done. intros [= <-]. cbn. auto.
  - intros p p' k v Hl. destruct Hl as [p Hpc|p k' Hpc _]; cbn; [naive_solver|].
    intros [?|[?|[= -> <-]]]; [auto..|]. destruct (q_verm p !! k); [left; auto|by right].
  - intros p g val ver err k v. cbn. unfold put_next, put_resume.
    destruct (q_pc p) as [| |k' ver' err'| |] eqn:Hpc; try done. intros [= <-].
    unfold OnePut_read, decode_get. destruct (decide (err = OK)) as [_|]; [|cbn; naive_solver].
    destruct (Unmarshal val) as [en|]; [|cbn; naive_solver].
    case_decide; [cbn; naive_solver|]. case_decide; cbn; [|naive_solver].
    intros [?|[Hv|?]]; [auto| |done]. apply lookup_insert_Some in Hv. naive_solver.
  - intros p a err k v. cbn. unfold put_next, put_resume.
    destruct (q_pc p) as [|k' ver'|k' ver' err'| |] eqn:Hpc; try done. intros _.
    unfold OnePut_wrote. case_decide; cbn; naive_solver.
Defined.

Lemma put_know_nothing n ka randomkeys : knows_nothing (put_progs n ka randomkeys).
Proof.
  intros p k v (me & -> & _)%list_elem_of_fmap. cbn. unfold put_knows. cbn.
  intros [?|[Hv|?]]; [done| |done].
  by apply elem_of_list_to_map_2, list_elem_of_fmap in Hv as (k' & [= _ ->] & _).
Qed.

Lemma put_run reliable n ka randomkeys s :
  Z.of_nat n < 2 ^ 63 → reachable_in (net_steps reliable) (put_progs n ka randomkeys) s →
  s_clock s < 2 ^ 63 →
  rule_inv reliable (puts_hist n ka) (λ c p H _, put_ok reliable n ka randomkeys c p H) s.
Proof.
  intros Hn Hr Hclk. eapply client_rule; [by apply put_rule| | |done|done].
  - intros c p Hp. by apply put_progs_ok.
  - by apply Forall_nil.
Qed.

Lemma put_never_fatal reliable n ka randomkeys s c cl msg :
  rule_inv reliable (puts_hist n ka) (λ c p H _, put_ok reliable n ka randomkeys c p H) s →
  s_clients s !! c = Some cl → q_pc (c_prog cl) ≠ QFatal msg.
Proof.
  intros Hi Hc Hf. pose proof (ri_clients _ _ _ _ Hi c cl Hc) as Hok. unfold client_ok in Hok.
  destruct (c_clerk cl) as [b|].
  - destruct Hok as (Hop & _). cbn in Hop. unfold put_next in Hop. by rewrite Hf in Hop.
  - pose proof (po_pc _ _ _ _ _ _ _ Hok) as Hpc. unfold put_pc_ok in Hpc. by rewrite Hf in Hpc.
Qed.

Lemma put_results_counted reliable n ka randomkeys s rs :
  rule_inv reliable (puts_hist n ka) (λ c p H _, put_ok reliable n ka randomkeys c p H) s →
  length (s_clients s) = n → put_results s = Some rs →
  Forall2 (λ r c, counted reliable r (len (mine c (hist s)))) rs (seq 0 n) ∧
  (Exists (λ r, 0 < Nok r + Nmaybe r) rs → randomkeys = false →
     ∃ k, head ka = Some k ∧ written k (hist s)).
Proof.
  intros Hi Hlen Hrs. unfold put_results in Hrs. apply mapM_Some in Hrs.
  assert (∀ i r, rs !! i = Some r → ∃ p,
    put_ok reliable n ka randomkeys i p (hist s) ∧ q_pc p = QDone ∧ r = q_res p) as Hall.
  { intros i r Hr. destruct (Forall2_lookup_r _ _ _ _ _ Hrs Hr) as (cl & Hcl & Hd).
    pose proof (ri_clients _ _ _ _ Hi i cl Hcl) as Hok. unfold client_ok in Hok.
    destruct (c_clerk cl) as [b|]; destruct (q_pc (c_prog cl)) eqn:Hpc; try done.
    exists (c_prog cl). split_and!; [done|done|congruence]. }
  split.
  - apply Forall2_same_length_lookup. split.
    { rewrite length_seq, <-Hlen. symmetry. by eapply Forall2_length. }
    intros i r c Hr [-> _]%lookup_seq. destruct (Hall i r Hr) as (p & Hp & Hpc & ->).
    pose proof (po_pc _ _ _ _ _ _ _ Hp) as Hcnt. unfold put_pc_ok in Hcnt. by rewrite Hpc in Hcnt.
  - intros (r & [i Hr]%list_elem_of_lookup & Hpos)%list.Exists_exists Hrk.
    destruct (Hall i r Hr) as (p & Hp & Hpc & ->). by apply (po_done _ _ _ _ _ _ _ Hp).
Qed.

Lemma counted_total reliable rs cs (f : nat → Z) :
  Forall2 (λ r c, counted reliable r (f c)) rs cs →
  counted reliable (foldl add_res (MkClntRes 0 0) rs) (zsum (f <$> cs)).
Proof.
  intros Hall. destruct (foldl_add_res rs (MkClntRes 0 0)) as [Hok Hm]. cbn in Hok, Hm.
  unfold counted. rewrite Hok, Hm. clear Hok Hm. unfold zsum.
  induction Hall as [|r c rs cs Hc Hall IH]; [done|]. unfold counted in Hc. cbn. naive_solver lia.
Qed.

(** [CheckPutConcurrent] on the counts and the version it compares. *)
Lemma CheckPutConcurrent_result key rs reliable st o net b e ver :
  ts_net st = o :: net → reply_lost o = Some b →
  Get (ts_kv st) (MkGetArgs key) = MkGetReply (Marshal (A := EntryV) e) ver OK → json_ok e →
  let res := foldl add_res (MkClntRes 0 0) rs in
  counted reliable res ver → Nok res + Nmaybe res < 2 ^ 63 →
  ∃ st', CheckPutConcurrent key rs (MkClntRes 0 0) reliable st = Ret res st'.
Proof.
  intros Hnet Ho Hg He res (H1 & H2 & H3) Hlt.
  destruct (GetJson_result key (-1) st o net b e ver Hnet Ho Hg He) as (st' & Hr).
  exists st'. unfold CheckPutConcurrent, tbind. rewrite Hr. fold res. destruct reliable.
  - specialize (H3 eq_refl). rewrite decide_False; [done|]. intros Hne. apply Hne.
    rewrite u64_small by lia. lia.
  - rewrite decide_False; [done|]. rewrite u64_small by lia. lia.
Qed.

Lemma put_test_result reliable n k s rs st o net b :
  Z.of_nat n < 2 ^ 63 → reachable_in (net_steps reliable) (put_progs n [k] false) s →
  s_clock s < 2 ^ 63 → put_results s = Some rs → Exists (λ r, 0 < Nok r + Nmaybe r) rs →
  let res := foldl add_res (MkClntRes 0 0) rs in
  Nok res + Nmaybe res < 2 ^ 63 →
  ts_kv st = s_srv s → ts_net st = o :: net → reply_lost o = Some b →
  ∃ st', CheckPutConcurrent k rs (MkClntRes 0 0) reliable st = Ret res st'.
Proof.
  intros Hn Hr Hclk Hrs Hex res Hlt Hkv Hnet Ho.
  pose proof (put_run _ _ _ _ _ Hn Hr Hclk) as Hi.
  assert (length (s_clients s) = n) as Hlen.
  { rewrite (reachable_length _ _ (reachable_in_reachable _ _ _ Hr)). unfold put_progs.
    by rewrite length_fmap, length_seq. }
  destruct (put_results_counted _ _ _ _ _ _ Hi Hlen Hrs) as [Hcnt Hw].
  destruct (Hw Hex eq_refl) as (k' & [= <-] & Hk). pose proof (ri_hinv _ _ _ _ Hi) as Hinv.
  assert (hist_ok (hist s)) as Hok.
  { split; [apply (ri_wf _ _ _ _ Hi)|]. pose proof (ri_len _ _ _ _ Hi). lia. }
  apply counted_total in Hcnt.
  rewrite <-(len_mine n) in Hcnt by (intros q Hq; unfold puts_hist in Hinv;
    rewrite list.Forall_forall in Hinv; by apply Hinv in Hq as [? _]).
  destruct (get_of_hist n [k] (hist s) k Hok Hinv Hk) as (c & a & Hlast & Hver & Hget).
  pose proof (on_key_len k (hist s)) as Hkl. unfold written in Hk.
  assert (0 < len (hist s)) as Hpos by lia. rewrite on_key_all in Hlast, Hver, Hget.
  2-4: eapply list.Forall_impl; [exact Hinv|]; intros q (_ & Hq & _); by apply list_elem_of_singleton in Hq.
  eapply CheckPutConcurrent_result; [done|done| | |done|done].
  - rewrite Hkv, (ri_srv _ _ _ _ Hi). exact Hget.
  - apply list_elem_of_lookup_2 in Hlast. unfold puts_hist in Hinv.
    rewrite list.Forall_forall in Hinv. destruct (Hinv _ Hlast) as (Hc & _). destruct Hok as [_ Hlen'].
    unfold json_ok, EntryV_json, in_int, in_uint64, written, len in *. cbn in *. lia.
Qed.

(** ** OneClientAppend and CheckAppends *)

Section CheckAppends.
Context (n : nat).
Implicit Types es : list entry.

(** The number [CheckAppends] waits for from a client, after its numbers [l]. *)
Definition want (l : list Z) : Z := from_option (λ x, x + 1) 0 (list.last l).

Definition loop_inv (ap : Appends) es : Prop :=
  ∀ c, (c < n)%nat →
    ap_expect ap !! Z.of_nat c = Some (want (ns c es)) ∧
    at_or_0 (ap_skipped ap) (Z.of_nat c) = want (ns c es) - len (ns c es).

Definition loop_dom (ap : Appends) : Prop :=
  ∀ i x, ap_expect ap !! i = Some x → 0 <= i < Z.of_nat n.

Lemma appends_init_inv : loop_inv (appends_init (Z.of_nat n)) [] ∧ loop_dom (appends_init (Z.of_nat n)).
Proof.
  set (l := (λ i, (i, 0)) <$> seqZ 0 (Z.of_nat n)).
  assert (∀ c : nat, (c < n)%nat → (list_to_map l : gmap Z Z) !! Z.of_nat c = Some 0) as Hin.
  { intros c Hc. apply elem_of_list_to_map_1.
    - unfold l. rewrite <-list_fmap_compose. rewrite list_fmap_id. apply NoDup_seqZ.
    - apply list_elem_of_fmap. exists (Z.of_nat c). split; [done|]. apply elem_of_seqZ. lia. }
  split.
  - intros c Hc. unfold appends_init, at_or_0. cbn [ap_expect ap_skipped]. fold l.
    by rewrite (Hin c Hc).
  - intros i x Hi. apply elem_of_list_to_map_2, list_elem_of_fmap in Hi as (j & [= <- _] & Hj).
    apply elem_of_seqZ in Hj. lia.
Qed.

(** An entry whose number increases is accepted. *)
Lemma appends_step_ok ap es c N :
  loop_inv ap es → loop_dom ap → (c < n)%nat → StronglySorted Z.lt (ns c es ++ [N]) → 0 <= N →
  ∃ ap', appends_step ap (MkEntryN (Z.of_nat c) N) = inl ap' ∧
    loop_inv ap' (es ++ [MkEntryN (Z.of_nat c) N]) ∧ loop_dom ap'.
Proof.
  intros Hinv Hdom Hc Hs HN. destruct (Hinv c Hc) as [He Hsk].
  assert (want (ns c es) <= N) as Hle.
  { unfold want. destruct (list.last (ns c es)) as [x|] eqn:Hl; [|done]. cbn.
    apply StronglySorted_app in Hs as (Hlt & _). apply list.last_Some in Hl as [l' Hl].
    specialize (Hlt x N). rewrite Hl in Hlt. specialize (Hlt ltac:(set_solver) ltac:(set_solver)). lia. }
  assert (∀ c', want (ns c' (es ++ [MkEntryN (Z.of_nat c) N])) =
      if decide (c = c') then N + 1 else want (ns c' es)) as Hwant.
  { intros c'. rewrite ns_snoc. destruct (decide (c = c')); [|by rewrite app_nil_r].
    unfold want. by rewrite list.last_snoc. }
  assert (∀ c', len (ns c' (es ++ [MkEntryN (Z.of_nat c) N])) =
      len (ns c' es) + if decide (c = c') then 1 else 0) as Hlen.
  { intros c'. rewrite ns_snoc. destruct (decide (c = c')); [by rewrite len_snoc|].
    rewrite app_nil_r. lia. }
  unfold appends_step. cbn [en_Id en_N].
  assert (at_or_0 (ap_expect ap) (Z.of_nat c) = want (ns c es)) as -> by (unfold at_or_0; by rewrite He).
  rewrite decide_False by lia. destruct (decide (want (ns c es) = N)) as [HeN|HneN]; eexists;
    (split; [done|]); (split; [intros c' Hc'; destruct (Hinv c' Hc') as [He' Hsk']; rewrite Hwant, Hlen;
      cbn; destruct (decide (c = c')) as [<-|Hne]|
      intros i x; cbn; rewrite lookup_insert_Some; intros [[<- _]|[_ Hi]]; [lia|by eapply Hdom]]).
  - rewrite lookup_insert_eq, Hsk. split; [by rewrite HeN|lia].
  - rewrite lookup_insert_ne by lia. split; [done|lia].
  - rewrite lookup_insert_eq. split; [done|]. unfold at_or_0 in *. rewrite lookup_insert_eq. cbn. lia.
  - rewrite lookup_insert_ne by lia. split; [done|]. unfold at_or_0 in *.
    rewrite lookup_insert_ne by lia. lia.
Qed.

Lemma appends_loop_ok ap H es es1 es2 :
  list_hist n H es → es = es1 ++ es2 → (∀ c, (c < n)%nat → StronglySorted Z.lt (ns c es)) →
  loop_inv ap es1 → loop_dom ap →
  ∃ ap', appends_loop ap es2 = inl ap' ∧ loop_inv ap' es ∧ loop_dom ap'.
Proof.
  intros Hl Heq Hs. revert ap es1 Heq. induction es2 as [|e es2 IH]; intros ap es1 -> Hinv Hdom.
  { exists ap. by rewrite app_nil_r. }
  assert (∃ c : nat, (c < n)%nat ∧ en_Id e = Z.of_nat c ∧ 0 <= en_N e) as (c & Hc & Hid & HN).
  { assert (e ∈ es1 ++ e :: es2) as Hin by set_solver. revert Hin. clear -Hl.
    induction Hl as [|H es c N Hl IH Hc HN es']; [by intros ?%elem_of_nil|].
    intros [Hin| ->%list_elem_of_singleton]%elem_of_app; [by apply IH|]. exists c. cbn. lia. }
  destruct e as [i N]. cbn in Hid, HN. subst i.
  destruct (appends_step_ok ap es1 c N) as (ap' & Hstep & Hinv' & Hdom'); try done.
  { specialize (Hs c Hc). rewrite cons_middle, app_assoc in Hs. unfold ns in Hs.
    rewrite list.filter_app, fmap_app in Hs. apply StronglySorted_app in Hs as (_ & Hs & _).
    change (StronglySorted Z.lt (ns c (es1 ++ [MkEntryN (Z.of_nat c) N]))) in Hs.
    by rewrite ns_snoc, decide_True in Hs. }
  cbn [appends_loop]. rewrite Hstep. apply (IH ap' (es1 ++ [MkEntryN (Z.of_nat c) N])).
  - by rewrite <-app_assoc.
  - done.
  - done.
Qed.

Lemma ns_ok_bounds l i res :
  ns_ok l i res → want l <= Nok res + Nmaybe res ∧ want l - len l <= Nmaybe res.
Proof.
  intros (_ & Hall & Hi & Hok & Hm). assert (want l <= i); [|lia]. unfold want.
  destruct (list.last l) as [x|] eqn:Hl; cbn; [|lia]. apply list.last_Some in Hl as [l' ->].
  rewrite list.Forall_forall in Hall. specialize (Hall x ltac:(set_solver)). lia.
Qed.

Lemma CheckAppends_ok H es rs visit :
  list_hist n H es → length rs = n →
  (∀ c r, rs !! c = Some r → ∃ i, ns_ok (ns c es) i r) →
  (∀ m, visit m ≡ₚ map_to_list m) →
  CheckAppends es (Z.of_nat n) rs (len es + 1) visit = Some (inl ()).
Proof.
  intros Hl Hlen Hrs Hvisit. unfold CheckAppends.
  destruct appends_init_inv as [Hinv Hdom].
  destruct (appends_loop_ok (appends_init (Z.of_nat n)) H es [] es Hl eq_refl) as (ap & -> & Hap & Hd);
    [|done|done|].
  { intros c Hc. destruct (lookup_lt_is_Some_2 rs c) as [r Hr]; [lia|].
    destruct (Hrs c r Hr) as (i & ? & _). done. }
  rewrite decide_False by lia.
  assert (∀ c x, (c, x) ∈ visit (ap_expect ap) → ap_expect ap !! c = Some x) as Hin.
  { intros c x. rewrite Hvisit. apply elem_of_map_to_list. }
  induction (visit (ap_expect ap)) as [|[i x] v IH]; [done|]. cbn.
  pose proof (Hin i x ltac:(set_solver)) as Hi. pose proof (Hd _ _ Hi) as Hb.
  destruct (Hap (Z.to_nat i)) as [He Hsk]; [lia|]. rewrite Z2Nat.id in * by lia.
  assert (x = want (ns (Z.to_nat i) es)) as -> by congruence.
  destruct (lookup_lt_is_Some_2 rs (Z.to_nat i)) as [r Hr]; [lia|].
  destruct (Hrs _ _ Hr) as (j & Hns). destruct (ns_ok_bounds _ _ _ Hns) as [H1 H2].
  unfold go_index. rewrite decide_True, Hr by lia. cbn [mbind option_bind].
  rewrite Hsk, !decide_False by lia. apply IH. intros c y Hy. apply Hin. set_solver.
Qed.
End CheckAppends.

(** *** The run *)

Lemma append_run n s :
  Z.of_nat n < 2 ^ 63 → reachable_in (spawned n) (append_test n) s → s_clock s < 2 ^ 63 →
  rule_inv false (appends_hist n) (append_inv n) s.
Proof.
  intros Hn Hr Hclk. eapply client_rule; [by apply append_rule| |by left|done|done].
  intros c p. unfold append_test, append_progs. intros [Hp|[Hge Hp]]%lookup_app_Some.
  - rewrite list_lookup_fmap in Hp. apply fmap_Some in Hp as (c' & [-> Hlt]%lookup_seq & ->).
    split; [done|]. cbn. rewrite decide_False by lia. split; [lia|]. split; [done|].
    split; [done|]. split; [done|]. intros es Hes. by apply list_hist_nil in Hes.
  - rewrite length_fmap, length_seq in *. apply list_lookup_singleton_Some in Hp as [Hc <-].
    assert (c = n) as -> by lia. split; [done|]. by rewrite decide_True.
Qed.

Lemma append_never_fatal n s c cl msg :
  rule_inv false (appends_hist n) (append_inv n) s → s_clients s !! c = Some cl →
  a_pc (c_prog cl) ≠ AFatal msg.
Proof.
  intros Hi Hc Hf. pose proof (ri_clients _ _ _ _ Hi c cl Hc) as Hok. unfold client_ok in Hok.
  destruct (c_clerk cl) as [b|].
  - destruct Hok as (Hop & _). cbn in Hop. unfold append_next in Hop. by rewrite Hf in Hop.
  - destruct Hok as [_ Hok]. rewrite Hf in Hok. case_decide; [done|].
    unfold append_ok_at in Hok. rewrite Hf in Hok. naive_solver.
Qed.

Lemma append_done_ns n s c cl :
  rule_inv false (appends_hist n) (append_inv n) s → s_clients s !! c = Some cl → (c < n)%nat →
  a_pc (c_prog cl) = ADone → c_clerk cl = None →
  ∃ es, list_hist n (hist s) es ∧ ns_ok (ns c es) (a_i (c_prog cl)) (a_res (c_prog cl)).
Proof.
  intros Hi Hc Hlt Hpc Hnone. pose proof (ri_clients _ _ _ _ Hi c cl Hc) as Hok.
  unfold client_ok in Hok. rewrite Hnone in Hok. destruct Hok as [_ Hok].
  rewrite decide_False in Hok by lia. destruct Hok as (_ & _ & Hok).
  unfold append_ok_at in Hok. by rewrite Hpc in Hok.
Qed.

Lemma append_test_result n s rs st o net b :
  Z.of_nat n < 2 ^ 63 → (0 < n)%nat → reachable_in (spawned n) (append_test n) s →
  s_clock s < 2 ^ 63 → append_results n s = Some rs →
  ts_kv st = s_srv s → ts_net st = o :: net → reply_lost o = Some b →
  ∃ es ver st', GetJson append_key (-1) st = Ret (es, ver) st' ∧
    ∀ visit, (∀ m, visit m ≡ₚ map_to_list m) →
      CheckAppends es (Z.of_nat n) rs ver visit = Some (inl ()).
Proof.
  intros Hn Hpos Hr Hclk Hrs Hkv Hnet Ho. pose proof (append_run _ _ Hn Hr Hclk) as Hi.
  assert (length (s_clients s) = S n) as Hlen.
  { rewrite (reachable_length _ _ (reachable_in_reachable _ _ _ Hr)). unfold append_test, append_progs.
    rewrite length_app, length_fmap, length_seq. cbn. lia. }
  unfold append_results in Hrs. apply mapM_Some in Hrs.
  assert (length rs = n) as Hrl.
  { apply Forall2_length in Hrs. rewrite length_take, Hlen in Hrs. lia. }
  assert (∀ c r, rs !! c = Some r → ∃ es i, list_hist n (hist s) es ∧ ns_ok (ns c es) i r) as Hall.
  { intros c r Hc. pose proof (lookup_lt_Some _ _ _ Hc) as Hlt. rewrite Hrl in Hlt.
    destruct (Forall2_lookup_r _ _ _ _ _ Hrs Hc) as (cl & Hcl & Hd).
    rewrite lookup_take_lt in Hcl by done.
    destruct (a_pc (c_prog cl)) eqn:Hpc; try done. destruct (c_clerk cl) eqn:Hck; [done|].
    injection Hd as <-. destruct (append_done_ns n s c cl Hi Hcl Hlt Hpc Hck) as (es & Hes & Hns).
    by exists es, (a_i (c_prog cl)). }
  destruct (lookup_lt_is_Some_2 rs 0) as [r0 Hr0]; [lia|].
  destruct (Hall _ _ Hr0) as (es & _ & Hes & _).
  assert (hist_ok (hist s)) as Hok.
  { split; [apply (ri_wf _ _ _ _ Hi)|]. pose proof (ri_len _ _ _ _ Hi). lia. }
  destruct (GetJson_result append_key (-1) st o net b es (len es + 1) Hnet Ho) as (st' & Hget).
  { rewrite Hkv, (ri_srv _ _ _ _ Hi). by apply (get_of_list n). }
  { by eapply list_hist_json. }
  exists es, (len es + 1), st'. split; [done|]. intros visit Hv.
  eapply CheckAppends_ok; [done|done| |done]. intros c r Hc.
  destruct (Hall c r Hc) as (es' & i & Hes' & Hns). exists i.
  by rewrite (list_hist_fun n Hn _ _ _ Hes Hes').
Qed.

(** ** PutAtLeastOnce *)

Lemma Test_Put_result key value ver me st o net kv err :
  ts_net st = o :: net → Clerk_Put o (ts_kv st) key value ver = (kv, Some err) →
  ∃ st', Test_Put key value ver me st = Ret err st' ∧ ts_kv st' = kv ∧ ts_net st' = net.
Proof.
  intros Hnet Ho. unfold Test_Put, TestClerk_Put, IKVClerk_Put, tbind, now, OpInc, Append, ret.
  cbn. rewrite Hnet, Ho. by eexists.
Qed.

Definition put_entry (kv : KVServer) (key value : string) (ver : Tversion) : KVServer :=
  MkKVServer (<[key := MkEntry value ver]> (store kv)).

Lemma put_entry_version kv key value ver : cur_version (put_entry kv key value ver) key = ver.
Proof. unfold cur_version, put_entry. cbn. by rewrite lookup_insert_eq. Qed.

Lemma put_entry_wf kv key value ver :
  srv_wf kv → 0 <= ver < 2 ^ 64 → srv_wf (put_entry kv key value ver).
Proof.
  intros Hwf Hv k e. cbn. rewrite lookup_insert_Some. intros [[_ <-]|[_ He]]; [done|by eapply Hwf].
Qed.

Lemma put_entry_twice kv key value v1 v2 :
  put_entry (put_entry kv key value v1) key value v2 = put_entry kv key value v2.
Proof. unfold put_entry. cbn. by rewrite insert_insert_eq. Qed.

(** The [Put]s that apply: all but the last lose a reply. *)
Lemma PutAtLeastOnce_apply m fuel key value me st kv0 net rest :
  map reply_lost (ts_net st) = replicate m (Some true) ++ Some false :: rest →
  (m < fuel)%nat → srv_wf (ts_kv st) → ts_net st = net →
  let v := cur_version (ts_kv st) key in
  0 <= v → v + Z.of_nat m + 1 < 2 ^ 64 - 1 →
  (∀ w, put_entry (ts_kv st) key value w = put_entry kv0 key value w) →
  ∃ st', PutAtLeastOnce_loop fuel key value v me st = Ret (v + Z.of_nat m + 1) st' ∧
    ts_kv st' = put_entry kv0 key value (v + Z.of_nat m + 1) ∧ ts_net st' = drop (S m) net.
Proof.
  revert fuel st net. induction m as [|m IH]; intros fuel st net Hnet Hf Hwf <- v Hv Hb Hkv0;
    (destruct fuel as [|fuel]; [lia|]); destruct (ts_net st) as [|o net] eqn:Hn; try done;
    cbn in Hnet; injection Hnet as Ho Hnet.
  - pose proof (Clerk_Put_applies o (ts_kv st) key value v false Ho Hwf ltac:(lia) eq_refl) as Hput.
    destruct (Test_Put_result key value v me st o net _ _ Hn Hput) as (st' & Hr & Hkv & Hn').
    exists st'. cbn [PutAtLeastOnce_loop]. unfold tbind. rewrite Hr.
    rewrite decide_True by done. rewrite ver_succ_small by lia. unfold ret.
    replace (v + Z.of_nat 0 + 1) with (v + 1) by lia. split_and!; [done| |done].
    rewrite Hkv. apply Hkv0.
  - pose proof (Clerk_Put_applies o (ts_kv st) key value v true Ho Hwf ltac:(lia) eq_refl) as Hput.
    destruct (Test_Put_result key value v me st o net _ _ Hn Hput) as (st' & Hr & Hkv & Hn').
    change (MkKVServer _) with (put_entry (ts_kv st) key value (v + 1)) in Hkv.
    destruct (IH fuel st' net) as (st2 & Hr2 & Hkv2 & Hn2);
      rewrite ?Hn', ?Hkv, ?put_entry_version; try done; try lia.
    { apply put_entry_wf; [done|lia]. }
    { intros w. rewrite put_entry_twice. apply Hkv0. }
    exists st2. cbn [PutAtLeastOnce_loop]. unfold tbind. rewrite Hr.
    rewrite decide_False, decide_True by (done || by left). rewrite ver_succ_small by lia.
    rewrite Hkv, put_entry_version in Hr2, Hkv2.
    replace (v + Z.of_nat (S m) + 1) with (v + 1 + Z.of_nat m + 1) by lia.
    split_and!; [done|done|]. by rewrite Hn2.
Qed.

(** The stale [Put]s before them. *)
Lemma PutAtLeastOnce_result k m fuel key value ver me st rest :
  map reply_lost (ts_net st) = k ++ replicate m (Some true) ++ Some false :: rest →
  Forall is_Some k → (length k + m < fuel)%nat → srv_wf (ts_kv st) →
  let v := cur_version (ts_kv st) key in
  0 <= ver → v = ver + len k → v + Z.of_nat m + 1 < 2 ^ 64 - 1 →
  ∃ st', PutAtLeastOnce_loop fuel key value ver me st = Ret (v + Z.of_nat m + 1) st' ∧
    ts_kv st' = put_entry (ts_kv st) key value (v + Z.of_nat m + 1) ∧
    ts_net st' = drop (length k + S m) (ts_net st).
Proof.
  revert fuel ver st. induction k as [|x k IH]; intros fuel ver st Hnet Hk Hf Hwf v Hver Hv Hb.
  { assert (ver = v) as -> by (unfold len in Hv; cbn in Hv; lia).
    apply (PutAtLeastOnce_apply m fuel key value me st (ts_kv st) _ rest); done || lia. }
  destruct fuel as [|fuel]; [lia|]. destruct (ts_net st) as [|o net] eqn:Hn; [done|].
  cbn in Hnet. injection Hnet as Ho Hnet. apply list.Forall_cons in Hk as [[b ->] Hk].
  unfold len in Hv. cbn [length] in *.
  assert (cur_version (ts_kv st) key = v) as Hve by done. clearbody v.
  assert (∃ e, store (ts_kv st) !! key = Some e) as [e He].
  { unfold cur_version in Hve. destruct (store (ts_kv st) !! key); [eauto|]. cbn in Hve. lia. }
  destruct (Clerk_Put_stale o (ts_kv st) key value ver b e) as (err & Hput & Herr); try done;
    [lia|lia|].
  destruct (Test_Put_result key value ver me st o net _ _ Hn Hput) as (st' & Hr & Hkv & Hn').
  destruct (IH fuel (ver + 1) st') as (st2 & Hr2 & Hkv2 & Hn2);
    rewrite ?Hn', ?Hkv, ?Hve; try done; try (unfold len; lia).
  rewrite Hkv, Hve in Hr2, Hkv2. rewrite Hn' in Hn2.
  exists st2. cbn [PutAtLeastOnce_loop]. unfold tbind. rewrite Hr.
  rewrite decide_False by (by destruct Herr as [->| ->]). rewrite decide_True by done.
  rewrite ver_succ_small by lia. by split_and!.
Qed.

(** ** SpreadPuts *)

Lemma CheckGet_result key value st o net b ver :
  ts_net st = o :: net → reply_lost o = Some b →
  store (ts_kv st) !! key = Some (MkEntry value ver) →
  ∃ st', CheckGet key value ver st = Ret () st' ∧ ts_kv st' = ts_kv st ∧ ts_net st' = net.
Proof.
  intros Hn Ho He. destruct (Test_Get_result key 0 st o net b Hn Ho) as (st' & Hr & Hkv & Hn').
  exists st'. unfold CheckGet, tbind. rewrite Hr. unfold Get. cbn [ga_Key]. rewrite He.
  cbn [gr_Value gr_Version gr_Err e_value e_version].
  rewrite !decide_False by (intros Hne; naive_solver). by split_and!.
Qed.

Lemma spread_puts_result kvs st nets rest :
  ts_net st = nets ++ rest → length nets = length kvs → Forall (λ o, is_Some (reply_lost o)) nets →
  NoDup kvs.*1 → (∀ k, k ∈ kvs.*1 → store (ts_kv st) !! k = None) → srv_wf (ts_kv st) →
  ∃ st', spread_puts kvs st = Ret () st' ∧ ts_net st' = rest ∧
    (∀ k v, (k, v) ∈ kvs → store (ts_kv st') !! k = Some (MkEntry v 1)) ∧
    (∀ k, k ∉ kvs.*1 → store (ts_kv st') !! k = store (ts_kv st) !! k).
Proof.
  revert st nets. induction kvs as [|[k v] kvs IH]; intros st nets Hn Hlen Hall Hnd Hno Hwf.
  { destruct nets; [|done]. exists st. split_and!; [done|done| |done]. by intros ? ? ?%elem_of_nil. }
  destruct nets as [|o nets]; [done|]. cbn in Hn, Hlen, Hnd.
  apply list.Forall_cons in Hall as [[b Ho] Hall]. apply list.NoDup_cons in Hnd as [Hk Hnd].
  assert (store (ts_kv st) !! k = None) as Hkn by (apply Hno; set_solver).
  pose proof (Clerk_Put_applies o (ts_kv st) k v 0 b Ho Hwf) as Hput.
  unfold cur_version in Hput. rewrite Hkn in Hput. specialize (Hput ltac:(lia) eq_refl).
  set (st1 := MkTestSt (put_entry (ts_kv st) k v 1) (nets ++ rest)
    ((ts_ops st + 1 + 2 ^ 31) `mod` 2 ^ 32 - 2 ^ 31) (ts_oplog st) (ts_now st)).
  assert (TestClerk_Put k v 0 st = Ret (if b then ErrMaybe else OK) st1) as Hr.
  { unfold TestClerk_Put, IKVClerk_Put, tbind, OpInc. cbn. rewrite Hn, Hput. by destruct b. }
  destruct (IH st1 nets) as (st' & Hr' & Hn' & Hin & Hout); try done; [lia| | |].
  - intros k' Hk'. cbn. rewrite lookup_insert_ne by (intros ->; done). apply Hno. set_solver.
  - by apply put_entry_wf.
  - exists st'. cbn [spread_puts]. unfold tbind. rewrite Hr. split_and!; [done|done|..].
    + intros k' v' [[= -> ->]|Hin']%elem_of_cons; [|by apply Hin].
      rewrite Hout by done. cbn. by rewrite lookup_insert_eq.
    + intros k' Hk'. rewrite Hout by set_solver. cbn. rewrite lookup_insert_ne; [done|set_solver].
Qed.

Lemma spread_checks_result kvs st nets rest :
  ts_net st = nets ++ rest → length nets = length kvs → Forall (λ o, is_Some (reply_lost o)) nets →
  (∀ k v, (k, v) ∈ kvs → store (ts_kv st) !! k = Some (MkEntry v 1)) →
  ∃ st', spread_checks kvs st = Ret () st' ∧ ts_net st' = rest ∧ ts_kv st' = ts_kv st.
Proof.
  revert st nets. induction kvs as [|[k v] kvs IH]; intros st nets Hn Hlen Hall Hin.
  { destruct nets; [|done]. by exists st. }
  destruct nets as [|o nets]; [done|]. cbn in Hn, Hlen.
  apply list.Forall_cons in Hall as [[b Ho] Hall].
  destruct (CheckGet_result k v st o _ b 1 Hn Ho) as (st1 & Hr & Hkv & Hn1).
  { apply Hin. set_solver. }
  destruct (IH st1 nets) as (st' & Hr' & Hn' & Hkv'); try done; [lia| |].
  - intros k' v' Hk. rewrite Hkv. apply Hin. set_solver.
  - exists st'. cbn [spread_checks]. unfold tbind. rewrite Hr. split_and!; [done|done|congruence].
Qed.

Lemma MakeKeys_NoDup n : NoDup (MakeKeys n).
Proof.
  unfold MakeKeys. apply NoDup_fmap_2; [|apply NoDup_seqZ].
  intros i j Hij. apply Itoa_inj. unfold String.append in Hij. by injection Hij.
Qed.
