(* ===== verification/KvTestChecks.v ===== *)
(** * The tests pass

    The properties of the test programs, with a run of each test: two clients
    race over a network that loses a request or a reply, and the checks at the
    end accept what the service holds. *)
From S2P Require Import Prelude Strs Rpc KvSrv KvModel Clerk KvSys KvRule Json.
From S2P Require Import KvTest KvTestProof KvTestTheorems.

(** ** Running a test *)

Section Run.
Context {P L : Type} `{!KVClient P}.
Context (choose : P → L → option P) (ok : Sys P → Sys P → bool) (R : Sys P → Sys P → Prop).

(** A step of the network, or a step a client chooses between its calls. *)
Definition run_test_move (s : Sys P) (m : Move + nat * L) : option (Sys P) :=
  s' ← match m with
       | inl m => run_move s m
       | inr (c, l) =>
           cl ← s_clients s !! c;
           match c_clerk cl with
           | None => p' ← choose (c_prog cl) l; Some (do_local s c p')
           | Some _ => None
           end
       end;
  if ok s s' then Some s' else None.

Fixpoint run_test (s : Sys P) (ms : list (Move + nat * L)) : option (Sys P) :=
  match ms with
  | [] => Some s
  | m :: ms => s' ← run_test_move s m; run_test s' ms
  end.

Lemma run_test_steps s ms s' :
  (∀ p l p', choose p l = Some p' → local_step p p') → (∀ s s', ok s s' = true → R s s') →
  run_test s ms = Some s' → rtc (step_in R) s s'.
Proof.
  intros Hch HR. revert s. induction ms as [|m ms IH]; intros s; cbn [run_test].
  { intros [= ->]. constructor. }
  intros (s1 & Hm & Hms)%bind_Some. eapply rtc_l; [|by apply IH].
  unfold run_test_move in Hm. apply bind_Some in Hm as (s2 & Hm & Hok).
  destruct (ok s s2) eqn:Hok'; [|done]. injection Hok as <-. split; [|by apply HR].
  destruct m as [m|[c l]]; [by eapply run_move_step|].
  apply bind_Some in Hm as ([p [b|]] & Hc & Hm); [done|]. cbn in Hm.
  apply bind_Some in Hm as (p' & Hp & [= <-]). eapply step_local; [done|by eapply Hch].
Qed.
End Run.

(** What a client does at its [select]: [None] is the [done] signal. *)
Definition put_choose (p : PutClient) (l : option string) : option PutClient :=
  match q_pc p, l with
  | QSelect, None => Some (q_at p QDone)
  | QSelect, Some k =>
      if (if q_randomkeys p then bool_decide (k ∈ q_ka p) else bool_decide (head (q_ka p) = Some k)) then
        Some (q_at p (QPut k (default 0 (q_verm p !! k))))
      else None
  | _, _ => None
  end.

Lemma put_choose_local p l p' : put_choose p l = Some p' → put_local p p'.
Proof.
  unfold put_choose. destruct (q_pc p) eqn:Hpc; try done. destruct l as [k|].
  - destruct (q_randomkeys p) eqn:Hr; case_bool_decide; try done; intros [= <-];
      apply put_key; by rewrite ?Hr.
  - intros [= <-]. by apply put_done.
Qed.

Definition append_choose (p : AppendClient) (go_on : bool) : option AppendClient :=
  match a_pc p with
  | AWait => Some (a_at p ASelect)
  | ASelect => Some (a_at p (if go_on then AGet else ADone))
  | _ => None
  end.

Lemma append_choose_local p l p' : append_choose p l = Some p' → append_local p p'.
Proof.
  unfold append_choose. destruct (a_pc p) eqn:Hpc; try done.
  - intros [= <-]. by apply append_start.
  - destruct l; intros [= <-]; [by apply append_round|by apply append_done].
Qed.

(** No client leaves [AWait] before the tester is done. *)
Definition waiting (cl : Client AppendClient) : bool :=
  match a_pc (c_prog cl), c_clerk cl with AWait, None => true | _, _ => false end.

Definition main_done (n : nat) (s : Sys AppendClient) : bool :=
  match s_clients s !! n with
  | Some cl => match a_pc (c_prog cl), c_clerk cl with AMainDone _, None => true | _, _ => false end
  | None => false
  end.

#[export] Instance AppendPc_eq_dec : EqDecision AppendPc.
Proof.
  assert (EqDecision FatalMsg) by solve_decision. solve_decision.
Defined.
#[export] Instance ClntRes_eq_dec : EqDecision ClntRes.
Proof. solve_decision. Defined.
#[export] Instance AppendClient_eq_dec : EqDecision AppendClient.
Proof. solve_decision. Defined.

Definition spawned_ok (n : nat) (s s' : Sys AppendClient) : bool :=
  main_done n s ||
  forallb (λ q : nat * Client AppendClient, negb (waiting q.2) ||
    match s_clients s' !! q.1 with
    | Some cl' => bool_decide (c_prog cl' = c_prog q.2) && waiting cl'
    | None => false
    end) (imap pair (s_clients s)).

Lemma spawned_ok_spec n s s' : spawned_ok n s s' = true → spawned n s s'.
Proof.
  unfold spawned_ok. intros [Hm|Hall]%orb_true_iff c p Hc Hpc.
  - right. unfold main_done in Hm. destruct (s_clients s !! n) as [[q b]|]; [|done]. cbn in Hm.
    destruct (a_pc q) eqn:Hq; try done. destruct b; [done|]. eauto.
  - left. rewrite forallb_forall in Hall. specialize (Hall (c, MkClient p None)).
    cbn in Hall. unfold waiting in Hall at 1. cbn in Hall. rewrite Hpc in Hall. cbn in Hall.
    assert (In (c, MkClient p None) (imap pair (s_clients s))) as Hin.
    { apply list_elem_of_In, list_elem_of_lookup. exists c.
      by rewrite list_lookup_imap, Hc. }
    specialize (Hall Hin). destruct (s_clients s' !! c) as [[p' b']|]; [|done].
    apply andb_true_iff in Hall as [He%bool_decide_eq_true Hw]. cbn in He. subst p'.
    unfold waiting in Hw. cbn in Hw. rewrite Hpc in Hw. by destruct b'.
Qed.

(** ** OneClientPut *)

(** The test of concurrent [Put]s never blames a correct service.  Over any
    network, with any keys and any number of clients, no client of
    [OneClientPut] ends in [Fatalf]; and when all have returned,
    [CheckPutConcurrent] over any answered [Get] accepts their counts: the
    version of the key is at most the number of [Put]s that may have been
    applied, and on a network without losses exactly the number of those
    answered [OK]. *)
Theorem put_test_passes reliable n ka randomkeys s :
  Z.of_nat n < 2 ^ 63 → reachable_in (net_steps reliable) (put_progs n ka randomkeys) s →
  s_clock s < 2 ^ 63 →
  (∀ c cl msg, s_clients s !! c = Some cl → q_pc (c_prog cl) ≠ QFatal msg) ∧
  ∀ k rs st o net b, ka = [k] → randomkeys = false →
    put_results s = Some rs → Exists (λ r, 0 < Nok r + Nmaybe r) rs →
    let res := foldl add_res (MkClntRes 0 0) rs in
    Nok res + Nmaybe res < 2 ^ 63 →
    ts_kv st = s_srv s → ts_net st = o :: net → reply_lost o = Some b →
    ∃ st', CheckPutConcurrent k rs (MkClntRes 0 0) reliable st = Ret res st'.
Proof.
  intros Hn Hr Hclk. split.
  - intros c cl msg. eapply put_never_fatal. by apply put_run.
  - intros k rs st o net b -> ->. intros. by eapply put_test_result.
Qed.

(** Two clients; the reply to a [Put] of the first is lost and the second is
    beaten once. *)
Definition put_demo_moves : list (Move + nat * option string) :=
  [inr (0%nat, Some "k"); inr (1%nat, Some "k"); inl (MInvoke 0); inl (MInvoke 1);
   inl (MExec 0); inl (MFail 0); inl (MExec 1); inl (MReturn 1); inl (MExec 0); inl (MReturn 0);
   inl (MInvoke 0); inl (MExec 0); inl (MReturn 0); inl (MInvoke 1); inl (MExec 1); inl (MReturn 1);
   inl (MInvoke 1); inl (MExec 1); inl (MReturn 1); inl (MInvoke 1); inl (MExec 1); inl (MReturn 1);
   inr (0%nat, None); inr (1%nat, None)].

Definition put_demo : Sys PutClient := Eval vm_compute in
  default (init_sys []) (run_test put_choose (λ _ _, true) (init_sys (put_progs 2 ["k"] false))
                           put_demo_moves).

Lemma put_demo_reachable : reachable_in (net_steps false) (put_progs 2 ["k"] false) put_demo.
Proof.
  eapply (run_test_steps put_choose (λ _ _, true) _ _ put_demo_moves);
    [apply put_choose_local|done|vm_compute; reflexivity].
Qed.

Lemma put_test_passes_witness :
  put_results put_demo = Some [MkClntRes 0 1; MkClntRes 1 0] ∧
  ∃ st', CheckPutConcurrent "k" [MkClntRes 0 1; MkClntRes 1 0] (MkClntRes 0 0) false
    (MkTestSt (s_srv put_demo) [[RequestLost; Delivered]] 0 [] 0) = Ret (MkClntRes 1 1) st'.
Proof.
  split; [reflexivity|].
  apply (proj2 (put_test_passes false 2 ["k"] false put_demo ltac:(reflexivity) put_demo_reachable
    ltac:(reflexivity)) "k" [MkClntRes 0 1; MkClntRes 1 0]
    (MkTestSt (s_srv put_demo) [[RequestLost; Delivered]] 0 [] 0) [RequestLost; Delivered] [] false);
    try reflexivity.
  apply Exists_cons_hd. reflexivity.
Defined.

(** ** OneClientAppend *)

(** C20: the test of concurrent appends never blames a correct service.  No
    client of [OneClientAppend] ends in [Fatalf], and when all have returned the
    list that [GetJson] reads satisfies [CheckAppends]: every client's numbers
    increase, at most as many are missing as it was answered [ErrMaybe], and the
    version counts the appends. *)
Theorem append_test_passes n s :
  Z.of_nat n < 2 ^ 63 → (0 < n)%nat → reachable_in (spawned n) (append_test n) s →
  s_clock s < 2 ^ 63 →
  (∀ c cl msg, s_clients s !! c = Some cl → a_pc (c_prog cl) ≠ AFatal msg) ∧
  ∀ rs st o net b, append_results n s = Some rs →
    ts_kv st = s_srv s → ts_net st = o :: net → reply_lost o = Some b →
    ∃ es ver st', GetJson append_key (-1) st = Ret (es, ver) st' ∧
      ∀ visit, (∀ m, visit m ≡ₚ map_to_list m) →
        CheckAppends es (Z.of_nat n) rs ver visit = Some (inl ()).
Proof.
  intros Hn Hpos Hr Hclk. split.
  - intros c cl msg. eapply append_never_fatal. by apply append_run.
  - intros. by eapply append_test_result.
Qed.

(** The tester writes the empty list; one client appends once and loses the
    reply, the other appends twice. *)
Definition call (c : nat) : list (Move + nat * bool) := [inl (MInvoke c); inl (MExec c); inl (MReturn c)].
Definition append_demo_moves : list (Move + nat * bool) :=
  call 2 ++ [inr (0%nat, true); inr (1%nat, true); inr (0%nat, true); inr (1%nat, true)] ++
  call 0 ++ call 1 ++ [inl (MInvoke 0); inl (MExec 0); inl (MFail 0)] ++ call 1 ++
  [inl (MExec 0); inl (MReturn 0); inr (0%nat, false)] ++ call 1 ++ call 1 ++
  [inr (1%nat, true)] ++ call 1 ++ call 1 ++ [inr (1%nat, false)].

Definition append_demo : Sys AppendClient := Eval vm_compute in
  default (init_sys []) (run_test append_choose (spawned_ok 2) (init_sys (append_test 2))
                           append_demo_moves).

Lemma append_demo_reachable : reachable_in (spawned 2) (append_test 2) append_demo.
Proof.
  eapply (run_test_steps append_choose (spawned_ok 2) _ _ append_demo_moves);
    [apply append_choose_local|apply spawned_ok_spec|vm_compute; reflexivity].
Qed.

Lemma append_test_passes_witness :
  append_results 2 append_demo = Some [MkClntRes 0 1; MkClntRes 2 0] ∧
  ∃ es ver st', GetJson append_key (-1) (MkTestSt (s_srv append_demo) [[Delivered]] 0 [] 0)
      = Ret (es, ver) st' ∧
    CheckAppends es 2 [MkClntRes 0 1; MkClntRes 2 0] ver map_to_list = Some (inl ()).
Proof.
  split; [reflexivity|].
  destruct (proj2 (append_test_passes 2 append_demo ltac:(reflexivity) ltac:(lia)
    append_demo_reachable ltac:(reflexivity)) [MkClntRes 0 1; MkClntRes 2 0]
    (MkTestSt (s_srv append_demo) [[Delivered]] 0 [] 0) [Delivered] [] false)
    as (es & ver & st' & Hget & Hcheck); [reflexivity..|].
  exists es, ver, st'. split; [exact Hget|]. apply Hcheck. done.
Defined.

(** ** PutAtLeastOnce *)

(** [PutAtLeastOnce] from a version [ver] the key has had returns the
    version the key then has, with the value stored under it.  The network
    answers every call: the first ones at stale versions, then [m] whose reply
    is lost once (each is applied and answered [ErrMaybe], and the loop puts
    again), then one that is answered [OK]. *)
Theorem PutAtLeastOnce_spec k m key value ver me st rest :
  map reply_lost (ts_net st) = k ++ replicate m (Some true) ++ Some false :: rest →
  Forall is_Some k → srv_wf (ts_kv st) →
  let v := cur_version (ts_kv st) key in
  0 <= ver → v = ver + len k → v + Z.of_nat m + 1 < 2 ^ 64 - 1 →
  ∃ st', PutAtLeastOnce key value ver me st = Ret (v + Z.of_nat m + 1) st' ∧
    ts_kv st' = put_entry (ts_kv st) key value (v + Z.of_nat m + 1) ∧
    ts_net st' = drop (length k + S m) (ts_net st).
Proof.
  intros Hnet Hk Hwf v Hver Hv Hb. unfold PutAtLeastOnce. eapply PutAtLeastOnce_result; try done.
  apply (f_equal length) in Hnet. rewrite length_map, !length_app, length_replicate in Hnet.
  cbn in Hnet. lia.
Qed.

(** A key at version 2, put from version 0 with one lost reply at the end. *)
Definition least_st : TestSt :=
  MkTestSt (put_entry MakeKVServer "x" "0" 2)
    [[Delivered]; [ReplyLost; Delivered]; [ReplyLost; Delivered]; [RequestLost; Delivered]] 0 [] 0.

Lemma PutAtLeastOnce_spec_witness :
  ∃ st', PutAtLeastOnce "x" "1" 0 (-1) least_st = Ret 4 st' ∧
    ts_kv st' = put_entry (ts_kv least_st) "x" "1" 4 ∧ ts_net st' = [].
Proof.
  apply (PutAtLeastOnce_spec [Some false; Some true] 1 "x" "1" 0 (-1) least_st []);
    [reflexivity|by repeat constructor|by apply put_entry_wf; [apply MakeKVServer_wf|]|lia|reflexivity|
     reflexivity].
Defined.

(** [PutAtLeastOnceJson] puts at version 0 in every round and returns [ver] plus
    the number of [ErrMaybe]: after an [OK] that is one less than the version
    of the key. *)
Theorem PutAtLeastOnceJson_returns_old :
  ∃ st', PutAtLeastOnceJson "k" (@nil entry) 0 (-1) (MkTestSt MakeKVServer [[Delivered]] 0 [] 0)
      = Ret 0 st' ∧ cur_version (ts_kv st') "k" = 1.
Proof. eexists. split; reflexivity. Qed.

(** ** Partitioner *)

(** The two sides of a round are all the servers. *)
Lemma partition_sides draws :
  Forall (λ d, d = 0 ∨ d = 1) draws →
  partition_side draws 0 ++ partition_side draws 1 ≡ₚ seqZ 0 (len draws).
Proof.
  intros Hd. unfold partition_side. set (l := zip (seqZ 0 (len draws)) draws).
  assert (l.*1 = seqZ 0 (len draws)) as <-.
  { unfold l. apply fst_zip. rewrite length_seqZ. unfold len. lia. }
  assert (Forall (λ p : Z * Z, p.2 = 0 ∨ p.2 = 1) l) as Hl.
  { apply list.Forall_forall. intros [i d] Hin. cbn. rewrite list.Forall_forall in Hd. apply Hd.
    by eapply elem_of_zip_r. }
  rewrite <-fmap_app. apply fmap_Permutation. clear Hd. clearbody l.
  induction Hl as [|[i d] l Hp _ IH]; [done|]. rewrite !list.filter_cons. cbn [snd] in *.
  destruct Hp as [->| ->].
  - rewrite decide_True, decide_False by done. cbn [app]. by rewrite IH.
  - rewrite decide_False, decide_True by done. by rewrite <-Permutation_middle, IH.
Qed.

(** ** SpreadPuts *)

(** [SpreadPutsSize] on a service without its keys never fails: it puts [n]
    different keys once each, whatever replies are lost, and finds each value at
    version 1. *)
Theorem SpreadPutsSize_spec n vals st nets1 nets2 rest :
  0 <= n → ts_net st = nets1 ++ nets2 ++ rest → len nets1 = n → len nets2 = n →
  Forall (λ o, is_Some (reply_lost o)) (nets1 ++ nets2) → srv_wf (ts_kv st) →
  (∀ k, k ∈ MakeKeys n → store (ts_kv st) !! k = None) →
  ∃ st', SpreadPutsSize n vals st = Ret (MakeKeys n, vals <$> seqZ 0 n) st' ∧
    ts_net st' = rest ∧
    ∀ i, 0 <= i < n → store (ts_kv st') !! ("k" +:+ Itoa i) = Some (MkEntry (vals i) 1).
Proof.
  intros Hn Hnet Hl1 Hl2 Hall Hwf Hno. apply Forall_app in Hall as [Ha1 Ha2].
  set (kvs := zip (MakeKeys n) (vals <$> seqZ 0 n)).
  assert (length kvs = Z.to_nat n) as Hlk.
  { unfold kvs, MakeKeys. rewrite length_zip_with, !length_fmap, length_seqZ. lia. }
  assert (kvs.*1 = MakeKeys n) as Hk.
  { unfold kvs. apply fst_zip. unfold MakeKeys. by rewrite !length_fmap. }
  destruct (spread_puts_result kvs st nets1 (nets2 ++ rest)) as (st1 & Hr1 & Hn1 & Hin & _);
    rewrite ?Hk; try done; [unfold len in *; lia|apply MakeKeys_NoDup|].
  destruct (spread_checks_result kvs st1 nets2 rest) as (st2 & Hr2 & Hn2 & Hkv2); try done;
    [unfold len in *; lia|].
  exists st2. unfold SpreadPutsSize, tbind. fold kvs. rewrite Hr1, Hr2. split_and!; [done|done|].
  intros i Hi. rewrite Hkv2. apply Hin. apply list_elem_of_lookup. exists (Z.to_nat i).
  unfold kvs, MakeKeys. rewrite lookup_zip_with, !list_lookup_fmap, lookup_seqZ_lt by lia.
  cbn. by rewrite Z2Nat.id by lia.
Qed.

Definition spread_nets : list (list CallOutcome) :=
  [[Delivered]; [ReplyLost; Delivered]; [RequestLost; Delivered]; [Delivered]].

Lemma SpreadPutsSize_spec_witness :
  ∃ st', SpreadPutsSize 2 Itoa (MkTestSt MakeKVServer spread_nets 0 [] 0)
      = Ret (["k0"; "k1"], ["0"; "1"]) st' ∧ ts_net st' = [] ∧
    ∀ i, 0 <= i < 2 → store (ts_kv st') !! ("k" +:+ Itoa i) = Some (MkEntry (Itoa i) 1).
Proof.
  apply (SpreadPutsSize_spec 2 Itoa (MkTestSt MakeKVServer spread_nets 0 [] 0)
    (take 2 spread_nets) (drop 2 spread_nets) []);
    [lia|reflexivity|reflexivity|reflexivity| |apply MakeKVServer_wf|].
  - repeat constructor; eauto.
  - intros k _. apply lookup_empty.
Defined.
