(* ===== verification/KvSpawn.v ===== *)
(** * Clients started and awaited

    [SpawnClientsAndWait] and [runClient] of [src/src/kvtest1/kvtest.go], and
    [checkPorcupine] of [porcupine.go].  The tester starts a goroutine per client,
    sleeps, sends [done] once per client on one unbuffered channel, and receives
    the results one after the other, each on the channel of its client.  The
    clients are programs of [KvSys.v]; what [SpawnClientsAndWait] needs of the
    function they run is the interface [SpawnClient]. *)
From S2P Require Import Prelude Strs Rpc KvSrv KvModel Clerk KvSys KvRule Json.
From S2P Require Import KvTest.

(** ** The function a client runs

    [at_select]: at the [select] with [<-done] and a [default]; [take_done]: it
    received; [fn_result]: the function has returned; [exited]: [Fatalf] ended the
    goroutine ([FailNow] is [runtime.Goexit]). *)
Class SpawnClient (P : Type) := {
  at_select : P → bool;
  take_done : P → P;
  fn_result : P → option ClntRes;
  exited : P → bool;
}.

Class SpawnLaws (P : Type) `{!KVClient P, !SpawnClient P} := {
  at_select_running p : at_select p = true → fn_result p = None ∧ exited p = false;
  take_done_step p : at_select p = true → local_step p (take_done p) ∧ is_Some (fn_result (take_done p));
  result_frozen p r : fn_result p = Some r →
    exited p = false ∧ next_op p = None ∧ ∀ p', ¬ local_step p p';
  exited_frozen p : exited p = true → next_op p = None ∧ ∀ p', ¬ local_step p p';
  local_result p p' : local_step p p' → is_Some (fn_result p') → at_select p = true ∧ p' = take_done p;
  resume_result p res : fn_result p = None → fn_result (resume p res) = None;
}.

(** ** SpawnClientsAndWait *)

(** Where the tester is: at [time.Sleep], before the send of [done] number [i],
    receiving with the results so far, or back with the results. *)
Inductive MainPc :=
| MSleep
| MSend (i : nat)
| MCollect (rs : list ClntRes)
| MBack (rs : list ClntRes).

Section Spawn.
Context {P : Type} `{!KVClient P, !SpawnClient P}.

Record Spawn := MkSpawn { sp_sys : Sys P; sp_main : MainPc }.

(** No client passes its [select] through [done] in this step. *)
Definition no_done (s s' : Sys P) : Prop :=
  ∀ c cl', s_clients s' !! c = Some cl' → is_Some (fn_result (c_prog cl')) →
    s_clients s !! c = Some cl'.

(** [R] restricts the steps of the clients, as in [step_in]; the first [nclnt]
    clients are those the tester starts. *)
Inductive spawn_step (R : Sys P → Sys P → Prop) (nclnt : nat) : Spawn → Spawn → Prop :=
| spawn_client s s' m :
    step_in R s s' → no_done s s' → spawn_step R nclnt (MkSpawn s m) (MkSpawn s' m)
| spawn_wake s : spawn_step R nclnt (MkSpawn s MSleep) (MkSpawn s (MSend 0))
| spawn_send s i c p :
    (i < nclnt)%nat → (c < nclnt)%nat →
    s_clients s !! c = Some (MkClient p None) → at_select p = true →
    R s (do_local s c (take_done p)) →
    spawn_step R nclnt (MkSpawn s (MSend i)) (MkSpawn (do_local s c (take_done p)) (MSend (S i)))
| spawn_sent s : spawn_step R nclnt (MkSpawn s (MSend nclnt)) (MkSpawn s (MCollect []))
| spawn_recv s rs p r :
    (length rs < nclnt)%nat → s_clients s !! length rs = Some (MkClient p None) →
    fn_result p = Some r →
    spawn_step R nclnt (MkSpawn s (MCollect rs)) (MkSpawn s (MCollect (rs ++ [r])))
| spawn_return s rs :
    length rs = nclnt → spawn_step R nclnt (MkSpawn s (MCollect rs)) (MkSpawn s (MBack rs)).

Definition spawn_reachable (R : Sys P → Sys P → Prop) (nclnt : nat) (ps : list P) (w : Spawn) : Prop :=
  rtc (spawn_step R nclnt) (MkSpawn (init_sys ps) MSleep) w.
End Spawn.

Arguments Spawn P : clear implicits.
Arguments MkSpawn {P}.

#[export] Instance Put_spawn : SpawnClient PutClient := {
  at_select p := match q_pc p with QSelect => true | _ => false end;
  take_done p := q_at p QDone;
  fn_result p := match q_pc p with QDone => Some (q_res p) | _ => None end;
  exited p := match q_pc p with QFatal _ => true | _ => false end;
}.

(** ** checkPorcupine *)

Inductive CheckResult := CkUnknown | CkOk | CkIllegal.

(** [VIS_ENABLE] and [VIS_FILE], and whether the file can be opened and written. *)
Record VisEnv := MkVisEnv { vis_enable : string; vis_file : string; open_ok : bool; visualize_ok : bool }.

(** What it prints, with the annotations it finalises, and whether it is fatal. *)
Inductive VisMsg := OpenFailed | WriteFailed | WroteHistory | TimedOut.

Record VisOut := MkVisOut { vo_title : option string; vo_msgs : list VisMsg; vo_fatal : bool }.

Definition visualize (env : VisEnv) (title : string) (msgs : list VisMsg) (fatal : bool) : VisOut :=
  MkVisOut (Some title) (msgs ++ [if visualize_ok env then WroteHistory else WriteFailed]) fatal.

(** After the verdict: the file for a test that passed. *)
Definition vis_passed (env : VisEnv) (finalized : bool) (msgs : list VisMsg) : VisOut :=
  if decide (vis_enable env = "always" ∧ finalized = true) then
    if open_ok env then visualize env "test passed" msgs false
    else MkVisOut None (msgs ++ [OpenFailed]) false
  else MkVisOut None msgs false.

(** [finalized] is [tester.GetAnnotationFinalized()]. *)
Definition checkPorcupine (env : VisEnv) (finalized : bool) (res : CheckResult) : VisOut :=
  match res with
  | CkIllegal =>
      if open_ok env then
        if decide (vis_enable env ≠ "never") then visualize env "test failed" [] true
        else MkVisOut None [] true
      else MkVisOut None [OpenFailed] true
  | CkUnknown => vis_passed env finalized [TimedOut]
  | CkOk => vis_passed env finalized []
  end.

Definition linearizabilityCheckTimeout : Z := 1000000000.

Section Porcupine.
Context (CheckOperationsVerbose : list Operation → Z → CheckResult).

Definition CheckPorcupineT (env : VisEnv) (finalized : bool) (nsec : Z) (oplog : list Operation) : VisOut :=
  checkPorcupine env finalized (CheckOperationsVerbose oplog nsec).

Definition CheckPorcupine (env : VisEnv) (finalized : bool) (oplog : list Operation) : VisOut :=
  CheckPorcupineT env finalized linearizabilityCheckTimeout oplog.
End Porcupine.
