(* ===== verification/KvSpawnTheorems.v ===== *)
(** * Theorems on clients started and awaited

    Every run of [SpawnClientsAndWait] is a run of its clients, it returns the
    results of the clients in their order, it can always return when no client
    has ended in [Fatalf], and never when one has.  The linearizability check at
    the end of a test blames no history of the service. *)
From S2P Require Import Prelude Strs Rpc KvSrv KvModel Clerk KvSys KvHist KvRule Json.
From S2P Require Import KvTheorems KvCareful KvTest KvTestProof KvTestTheorems KvTestChecks KvSpawn.

(** ** Any function *)

Section Spawn.
Context {P : Type} `{!KVClient P, !SpawnClient P, !SpawnLaws P}.
Context (R : Sys P → Sys P → Prop) (nclnt : nat).
Implicit Types (s : Sys P) (p : P) (w : Spawn P).

(** The result of a client whose function has returned. *)
Definition returned (cl : Client P) : option ClntRes :=
  match c_clerk cl with None => fn_result (c_prog cl) | Some _ => None end.

Definition returned_at s (c : nat) (r : ClntRes) : Prop :=
  ∃ cl, s_clients s !! c = Some cl ∧ returned cl = Some r.

(** A client that takes no step of its own stays as it is. *)
Lemma step_frozen s s' c p :
  step s s' → s_clients s !! c = Some (MkClient p None) →
  next_op p = None → (∀ p', ¬ local_step p p') →
  s_clients s' !! c = Some (MkClient p None).
Proof using.
  intros Hstep Hc Hn Hl.
  destruct Hstep as [c' q q' Hc' Hq|c' q op Hc' Hop|c' q b Hc' _|c' q b left Hc'|c' q b rp t res Hc' _ _|
    q l1 l2 Hq]; [destruct (decide (c' = c)) as [->|Hne]; try congruence..|].
  - rewrite Hc in Hc'. injection Hc' as <-. by destruct (Hl q').
  - cbn. by rewrite list_lookup_insert_ne.
  - cbn. by rewrite list_lookup_insert_ne.
  - unfold do_exec. destruct (srv_exec _ _). cbn. by rewrite list_lookup_insert_ne.
  - cbn. by rewrite list_lookup_insert_ne.
  - cbn. by rewrite list_lookup_insert_ne.
  - by destruct (do_late_view s q (l1 ++ l2)) as (_ & -> & _).
Qed.

Lemma returned_step s s' c r : step s s' → returned_at s c r → returned_at s' c r.
Proof.
  intros Hstep ([p [b|]] & Hc & Hr); [done|]. unfold returned in Hr. cbn in Hr.
  destruct (result_frozen p r Hr) as (_ & Hn & Hl). exists (MkClient p None).
  split; [by eapply step_frozen|done].
Qed.

Lemma returned_back s s' c r : no_done s s' → returned_at s' c r → returned_at s c r.
Proof using.
  intros Hd (cl & Hc & Hr). exists cl. split; [|done]. apply (Hd c cl Hc).
  unfold returned in Hr. destruct (c_clerk cl); [done|by eexists].
Qed.

(** [l] are the clients that received [done]. *)
Definition main_ok s (l : list nat) (m : MainPc) : Prop :=
  match m with
  | MSleep => l = []
  | MSend i => length l = i
  | MCollect rs | MBack rs =>
      length l = nclnt ∧ (∀ c r, rs !! c = Some r → returned_at s c r) ∧
      (length rs <= nclnt)%nat ∧ (if m is MBack _ then length rs = nclnt else True)
  end.

Definition spawn_inv w : Prop :=
  ∃ l, NoDup l ∧ (∀ c, c ∈ l → (c < nclnt)%nat) ∧
    (∀ c, (∃ r, returned_at (sp_sys w) c r) ↔ c ∈ l) ∧ main_ok (sp_sys w) l (sp_main w).

Lemma main_ok_step s s' l m : step s s' → main_ok s l m → main_ok s' l m.
Proof.
  intros Hs. destruct m as [|i|rs|rs]; cbn; [done|done|..];
    intros (Hl & Hr & Hlen & Hret); split_and!; try done; intros; by eapply returned_step, Hr.
Qed.

Lemma spawn_inv_init ps :
  Forall (λ p, fn_result p = None) ps → spawn_inv (MkSpawn (init_sys ps) MSleep).
Proof using.
  intros Hp. exists []. split; [constructor|]. split; [by intros c []%not_elem_of_nil|]. split; [|done].
  intros c. split; [|by intros []%not_elem_of_nil]. intros (r & cl & Hc & Hr). exfalso. cbn in Hc.
  rewrite list_lookup_fmap in Hc. apply fmap_Some in Hc as (p & Hc & ->). cbn in Hr.
  rewrite list.Forall_lookup in Hp. apply Hp in Hc. congruence.
Qed.

Lemma send_step s c p :
  s_clients s !! c = Some (MkClient p None) → at_select p = true →
  step s (do_local s c (take_done p)) ∧
  (∃ r, returned_at (do_local s c (take_done p)) c r) ∧ (∀ r, ¬ returned_at s c r) ∧
  ∀ c' r, c' ≠ c → returned_at (do_local s c (take_done p)) c' r → returned_at s c' r.
Proof.
  intros Hc Hsel. destruct (take_done_step p Hsel) as [Hl [r Hr]].
  destruct (at_select_running p Hsel) as [Hn _]. split; [by eapply step_local|]. split; [|split].
  - exists r, (MkClient (take_done p) None). split; [|done]. cbn.
    apply list_lookup_insert_eq. by eapply lookup_lt_Some.
  - intros r' (cl & Hc' & Hr'). rewrite Hc in Hc'. injection Hc' as <-. cbn in Hr'. congruence.
  - intros c' r' Hne (cl & Hc' & Hr'). exists cl. split; [|done]. cbn in Hc'.
    by rewrite list_lookup_insert_ne in Hc'.
Qed.

Lemma spawn_inv_step w w' : spawn_inv w → spawn_step R nclnt w w' → spawn_inv w'.
Proof.
  intros (l & Hnd & Hlt & Hl & Hm) Hstep. destruct Hstep as
    [s s' m [Hs _] Hd|s|s i c p Hi Hcn Hc Hsel _|s|s rs p r Hlen Hc Hr|s rs Hlen]; cbn in *.
  - exists l. refine (conj Hnd (conj Hlt (conj _ (main_ok_step _ _ _ _ Hs Hm)))). intros c.
    rewrite <- Hl. split; intros [r Hr]; exists r; [by eapply returned_back|by eapply returned_step].
  - exists l. refine (conj Hnd (conj Hlt (conj Hl _))). by subst.
  - destruct (send_step s c p Hc Hsel) as (Hs & Hnew & Hno & Hold). exists (c :: l).
    split; [|split; [|split]].
    + constructor; [|done]. intros [r Hr]%Hl. by eapply Hno.
    + intros c' [->|Hc']%elem_of_cons; [done|by apply Hlt].
    + intros c'. rewrite elem_of_cons, <- Hl. split.
      * intros [r Hr]. destruct (decide (c' = c)); [by left|right]. exists r. by eapply Hold.
      * intros [->|[r Hr]]; [done|]. exists r. by eapply returned_step.
    + cbn in Hm |- *. by rewrite Hm.
  - exists l. refine (conj Hnd (conj Hlt (conj Hl (conj Hm (conj _ (conj _ I)))))); [done|cbn; lia].
  - exists l. destruct Hm as (Hm & Hrs & _).
    refine (conj Hnd (conj Hlt (conj Hl (conj Hm (conj _ (conj _ I)))))); [|rewrite length_app; cbn; lia].
    intros c r' [[_ Hr']|[-> ->]]%lookup_snoc_Some; [by apply Hrs|].
    by exists (MkClient p None).
  - exists l. destruct Hm as (Hm & Hrs & _).
    refine (conj Hnd (conj Hlt (conj Hl (conj Hm (conj Hrs (conj _ Hlen)))))). lia.
Qed.

Lemma spawn_inv_steps w w' : rtc (spawn_step R nclnt) w w' → spawn_inv w → spawn_inv w'.
Proof. induction 1 as [|w1 w2 w3 Hs _ IH]; [done|]. intros Hi. by eapply IH, spawn_inv_step. Qed.

Lemma spawn_inv_reachable ps w :
  Forall (λ p, fn_result p = None) ps → spawn_reachable R nclnt ps w → spawn_inv w.
Proof. intros Hp Hw. eapply spawn_inv_steps; [exact Hw|by apply spawn_inv_init]. Qed.

(** Distinct clients, at most [nclnt], and no room for another one. *)
Lemma clients_room (l : list nat) :
  NoDup l → (∀ c, c ∈ l → (c < nclnt)%nat) → (length l <= nclnt)%nat.
Proof using.
  intros Hnd Hlt. rewrite <- (length_seq nclnt 0). apply submseteq_length, NoDup_submseteq; [done|].
  intros c Hc. apply elem_of_seq. specialize (Hlt c Hc). lia.
Qed.

Lemma clients_all (l : list nat) c :
  NoDup l → (∀ c, c ∈ l → (c < nclnt)%nat) → length l = nclnt → (c < nclnt)%nat → c ∈ l.
Proof using.
  intros Hnd Hlt Hlen Hc. destruct (decide (c ∈ l)) as [|Hn]; [done|exfalso].
  assert (length (c :: l) <= nclnt)%nat; [|cbn in *; lia].
  apply clients_room; [by constructor|]. intros c' [->|Hc']%elem_of_cons; auto.
Qed.

(** A returned [SpawnClientsAndWait] has one result per client, in order. *)
Lemma spawn_results w rs :
  spawn_inv w → sp_main w = MBack rs → (nclnt <= length (s_clients (sp_sys w)))%nat →
  mapM returned (take nclnt (s_clients (sp_sys w))) = Some rs.
Proof using.
  intros (l & _ & _ & _ & Hm) Hw Hn. rewrite Hw in Hm. destruct Hm as (_ & Hrs & _ & Hlen).
  apply mapM_Some, Forall2_same_length_lookup. split; [rewrite length_take; lia|].
  intros c cl r Hcl Hr. destruct (Hrs c r Hr) as (cl' & Hc' & Hret).
  apply lookup_take_Some in Hcl as [Hcl _]. by simplify_eq.
Qed.

(** A goroutine that [Fatalf] ended keeps [SpawnClientsAndWait] from returning. *)
Lemma exited_blocks w c p :
  spawn_inv w → (c < nclnt)%nat → s_clients (sp_sys w) !! c = Some (MkClient p None) →
  exited p = true → ∀ rs, sp_main w ≠ MCollect rs ∧ sp_main w ≠ MBack rs.
Proof.
  intros (l & Hnd & Hlt & Hl & Hm) Hc Hcl Hex rs.
  assert (length l ≠ nclnt) as Hlen.
  { intros Hlen. destruct (proj2 (Hl c)) as (r & cl & Hcl' & Hr); [by apply clients_all|].
    rewrite Hcl in Hcl'. injection Hcl' as <-. unfold returned in Hr. cbn in Hr.
    destruct (result_frozen p r Hr) as [? _]. congruence. }
  split; intros Hw; rewrite Hw in Hm; by destruct Hm as [? _].
Qed.

Lemma exited_step w w' c p :
  spawn_step R nclnt w w' → s_clients (sp_sys w) !! c = Some (MkClient p None) → exited p = true →
  s_clients (sp_sys w') !! c = Some (MkClient p None).
Proof.
  intros Hstep Hc Hex. destruct (exited_frozen p Hex) as [Hn Hl].
  destruct Hstep as [s s' m [Hs _] Hd|s|s i c' p' Hi Hcn Hc' Hsel _|s|s rs p' r _ _ _|s rs _]; try done.
  - by eapply step_frozen.
  - destruct (send_step s c' p' Hc' Hsel) as [Hs _]. by eapply step_frozen.
Qed.

Lemma exited_never_returns w w' c p :
  spawn_inv w → (c < nclnt)%nat → s_clients (sp_sys w) !! c = Some (MkClient p None) →
  exited p = true → rtc (spawn_step R nclnt) w w' → ∀ rs, sp_main w' ≠ MBack rs.
Proof.
  intros Hi Hn Hc Hex Hw. induction Hw as [w|w1 w2 w3 Hs _ IH].
  - intros rs. by apply (exited_blocks w c p).
  - apply IH; [by eapply spawn_inv_step|by eapply exited_step].
Qed.

(** The clients alone: a run of [SpawnClientsAndWait] is one of theirs. *)
Lemma spawn_clients_run w w' :
  rtc (spawn_step R nclnt) w w' → rtc (step_in R) (sp_sys w) (sp_sys w').
Proof.
  intros Hw. induction Hw as [w|w1 w2 w3 Hs _ IH]; [done|].
  destruct Hs as [s s' m Hs Hd|s|s i c p Hi Hcn Hc Hsel HR|s|s rs p r _ _ _|s rs _];
    try done; (eapply rtc_l; [|exact IH]); [done|].
  split; [by apply send_step|done].
Qed.

(** *** It can return

    Steps of the clients none of which passes its [select] through [done]. *)
Definition quiet_step s s' : Prop := step_in R s s' ∧ no_done s s'.

Lemma quiet_main m s s' :
  rtc quiet_step s s' → rtc (spawn_step R nclnt) (MkSpawn s m) (MkSpawn s' m).
Proof using. induction 1 as [|s1 s2 s3 [Hs Hd] _ IH]; [done|]. eapply rtc_l; [by apply spawn_client|done]. Qed.

Lemma quiet_steps s s' : rtc quiet_step s s' → rtc (step_in R) s s'.
Proof using. apply rtc_subrel. by intros x y [? _]. Qed.

Lemma someone_left (l : list nat) : (length l < nclnt)%nat → ∃ c, (c < nclnt)%nat ∧ c ∉ l.
Proof using.
  intros Hlen. destruct (decide (Forall (λ c, c ∈ l) (seq 0 nclnt))) as [Hall|Hn].
  - assert (nclnt <= length l)%nat; [|lia]. rewrite <- (length_seq nclnt 0) at 1.
    apply submseteq_length, NoDup_submseteq; [apply NoDup_seq|]. by apply list.Forall_forall.
  - apply not_Forall_Exists, list.Exists_exists in Hn as (c & Hc%elem_of_seq & Hn); [|intros ?; apply _].
    exists c. split; [lia|done].
Qed.

Section Progress.
Context (ps : list P) (cost : Z) (Hcost : 0 <= cost).
Context (Hps : (nclnt <= length ps)%nat).
Context (HR : ∀ s c p, s_clients s !! c = Some (MkClient p None) → at_select p = true →
  R s (do_local s c (take_done p))).

(** However far a client is, the clients can go on, with no [done], until it is
    at its [select], within [cost] ticks. *)
Context (Hselect : ∀ s c cl, reachable_in R ps s → s_clock s + cost < 2 ^ 63 → (c < nclnt)%nat →
  s_clients s !! c = Some cl → returned cl = None →
  ∃ s' p, rtc quiet_step s s' ∧ s_clients s' !! c = Some (MkClient p None) ∧ at_select p = true ∧
    s_clock s' <= s_clock s + cost).

Lemma collect_all s rs l :
  (∀ c, c ∈ l → (c < nclnt)%nat) → NoDup l → length l = nclnt →
  (∀ c, (∃ r, returned_at s c r) ↔ c ∈ l) → (length rs <= nclnt)%nat →
  ∃ rs', rtc (spawn_step R nclnt) (MkSpawn s (MCollect rs)) (MkSpawn s (MBack rs')).
Proof using All.
  intros Hlt Hnd Hlen Hl. remember (nclnt - length rs)%nat as k eqn:Hk. revert rs Hk.
  induction k as [|k IH]; intros rs Hk Hrs.
  - exists rs. apply rtc_once, spawn_return. lia.
  - destruct (proj2 (Hl (length rs))) as (r & [p [b|]] & Hc & Hr); [apply clients_all; auto; lia|done|].
    destruct (IH (rs ++ [r])) as [rs' Hrun]; [rewrite length_app; cbn; lia..|].
    exists rs'. eapply rtc_l; [|exact Hrun]. eapply spawn_recv; [lia|exact Hc|exact Hr].
Qed.

Lemma send_all k s i :
  (nclnt - i = k)%nat → (i <= nclnt)%nat → reachable_in R ps s → spawn_inv (MkSpawn s (MSend i)) →
  s_clock s + Z.of_nat k * (cost + 1) < 2 ^ 63 →
  ∃ s' rs, rtc (spawn_step R nclnt) (MkSpawn s (MSend i)) (MkSpawn s' (MBack rs)).
Proof using All.
  revert s i. induction k as [|k IH]; intros s i Hk Hi Hr Hinv Hclk.
  - assert (i = nclnt) as -> by lia. pose proof Hinv as (l & Hnd & Hlt & Hl & Hm). cbn in Hl, Hm.
    destruct (collect_all s [] l) as [rs Hrun]; [done|done|done|done|cbn; lia|].
    exists s, rs. eapply rtc_l; [apply spawn_sent|exact Hrun].
  - pose proof Hinv as (l & Hnd & Hlt & Hl & Hm). cbn in Hl, Hm.
    destruct (someone_left l) as (c & Hc & Hcl); [lia|].
    assert (is_Some (s_clients s !! c)) as [cl Hscl].
    { apply lookup_lt_is_Some. rewrite (reachable_length ps s); [lia|].
      by eapply reachable_in_reachable. }
    destruct (Hselect s c cl) as (s1 & p & Hq & Hp & Hsel & Hclk1); [done|nia|done|done| |].
    { destruct (returned cl) as [r|] eqn:Hret; [|done]. destruct Hcl. apply Hl. by exists r, cl. }
    destruct (send_step s1 c p Hp Hsel) as [Hs _].
    assert (spawn_step R nclnt (MkSpawn s1 (MSend i)) (MkSpawn (do_local s1 c (take_done p)) (MSend (S i))))
      as Hsend by (apply spawn_send; auto; lia).
    assert (rtc (spawn_step R nclnt) (MkSpawn s (MSend i)) (MkSpawn (do_local s1 c (take_done p)) (MSend (S i))))
      as Hrun by (eapply rtc_r; [by apply quiet_main|done]).
    destruct (IH (do_local s1 c (take_done p)) (S i)) as (s' & rs & Hrest); [lia|lia| | |cbn; nia|].
    + eapply rtc_r; [etrans; [exact Hr|by apply quiet_steps]|]. split; [done|by apply HR].
    + by eapply spawn_inv_steps.
    + exists s', rs. by etrans.
Qed.

Lemma can_return w :
  reachable_in R ps (sp_sys w) → spawn_inv w →
  s_clock (sp_sys w) + Z.of_nat nclnt * (cost + 1) < 2 ^ 63 →
  ∃ s' rs, rtc (spawn_step R nclnt) w (MkSpawn s' (MBack rs)).
Proof using All.
  destruct w as [s m]. cbn. intros Hr Hinv Hclk. destruct m as [|i|rs|rs].
  - destruct (send_all nclnt s 0) as (s' & rs & Hrun); [lia|lia|done| |done|].
    + eapply spawn_inv_step; [exact Hinv|apply spawn_wake].
    + exists s', rs. eapply rtc_l; [apply spawn_wake|done].
  - pose proof Hinv as (l & Hnd & Hlt & Hl & Hm). cbn in Hm.
    pose proof (clients_room l Hnd Hlt). apply (send_all (nclnt - i)); [done|lia|done|done|nia].
  - destruct Hinv as (l & Hnd & Hlt & Hl & Hm & _ & Hlen & _). cbn in Hl.
    destruct (collect_all s rs l) as [rs' Hrun]; [done..|]. by exists s, rs'.
  - by exists s, rs.
Qed.
End Progress.
End Spawn.

(** ** Calls of one client on any network *)

Section Calls.
Context {P : Type} `{!KVClient P, !SpawnClient P, !SpawnLaws P}.
Context (reliable : bool).
Implicit Types (s : Sys P) (p : P).

Abbreviation quiet := (rtc (quiet_step (net_steps reliable))).

Lemma no_done_at s s' c cl :
  s_clients s' = <[c := cl]> (s_clients s) → fn_result (c_prog cl) = None → no_done s s'.
Proof using.
  intros Hs Hn c' cl'. rewrite Hs, list_lookup_insert_Some.
  intros [(<- & <- & _)|[_ ?]] [r Hr]; [congruence|done].
Qed.

Lemma running p op : next_op p = Some op → fn_result p = None.
Proof.
  intros Hop. destruct (fn_result p) as [r|] eqn:Hr; [|done].
  destruct (result_frozen p r Hr) as (_ & Hn & _). congruence.
Qed.

Lemma quiet_invoke s c p op :
  s_clients s !! c = Some (MkClient p None) → next_op p = Some op →
  quiet_step (net_steps reliable) s (do_invoke s c p op).
Proof.
  intros Hc Hop. split; [split|].
  - by eapply step_invoke.
  - intros _ c' p' b left H. apply (f_equal s_clients) in H. cbn in H.
    apply (f_equal (lookup c)) in H. rewrite list_lookup_insert_eq in H by (by eapply lookup_lt_Some).
    destruct (decide (c' = c)) as [->|Hne].
    + rewrite list_lookup_insert_eq in H by (by eapply lookup_lt_Some). congruence.
    + rewrite list_lookup_insert_ne in H by done. congruence.
  - eapply no_done_at; [done|by eapply running].
Qed.

Lemma quiet_exec s c p b :
  s_clients s !! c = Some (MkClient p (Some b)) → b_net b = InFlight → fn_result p = None →
  quiet_step (net_steps reliable) s (do_exec s c p b).
Proof using.
  intros Hc Hb Hp. split; [split|].
  - by eapply step_exec.
  - intros _ c' p' b' left H. apply (f_equal (length ∘ s_execs)) in H. revert H. unfold do_exec.
    destruct (srv_exec _ _). cbn. rewrite length_app. cbn. lia.
  - unfold do_exec. destruct (srv_exec _ _). by eapply no_done_at.
Qed.

Lemma quiet_return s c p b r t res :
  s_clients s !! c = Some (MkClient p (Some b)) → b_net b = Executed r t →
  clerk_iter (b_retried b) (Some r) = Some res → fn_result p = None →
  quiet_step (net_steps reliable) s (do_return s c p b res).
Proof.
  intros Hc Hb Hres Hp. split; [split|].
  - by eapply step_return.
  - intros _ c' p' b' left H. apply (f_equal (length ∘ s_oplog)) in H. cbn in H.
    rewrite length_app in H. cbn in H. lia.
  - eapply no_done_at; [done|]. by apply resume_result.
Qed.

(** An answered call: the rest of it, and a whole one that nobody interrupts. *)
Lemma finish_call s c p b :
  s_clients s !! c = Some (MkClient p (Some b)) → fn_result p = None →
  ∃ s' res, quiet s s' ∧ s_clients s' !! c = Some (MkClient (resume p res) None) ∧
    s_clock s' <= s_clock s + 2.
Proof.
  intros Hc Hp. destruct (b_net b) as [|r t] eqn:Hb.
  - pose proof (quiet_exec s c p b Hc Hb Hp) as Hq. unfold do_exec in Hq.
    destruct (srv_exec (s_srv s) (b_op b)) as [kv' r].
    destruct (clerk_iter_answer (b_retried b) r) as [res Hres].
    pose proof (lookup_lt_Some _ _ _ Hc). do 2 eexists. split; [|split].
    + eapply rtc_l; [exact Hq|]. eapply rtc_once, quiet_return;
        [cbn; by apply list_lookup_insert_eq|done|exact Hres|done].
    + cbn. apply list_lookup_insert_eq. by rewrite length_insert.
    + cbn. lia.
  - destruct (clerk_iter_answer (b_retried b) r) as [res Hres].
    do 2 eexists. split; [by eapply rtc_once, quiet_return|].
    split; [cbn; apply list_lookup_insert_eq; by eapply lookup_lt_Some|cbn; lia].
Qed.

Lemma whole_call s c p op :
  s_clients s !! c = Some (MkClient p None) → next_op p = Some op →
  ∃ s' res, quiet s s' ∧ s_clients s' !! c = Some (MkClient (resume p res) None) ∧
    clerk_iter false (Some (srv_exec (s_srv s) op).2) = Some res ∧
    s_srv s' = (srv_exec (s_srv s) op).1 ∧ s_clock s' <= s_clock s + 3.
Proof.
  intros Hc Hop. pose proof (lookup_lt_Some _ _ _ Hc) as Hlt. pose proof (running p op Hop) as Hp.
  pose proof (quiet_invoke s c p op Hc Hop) as Hq1.
  assert (s_clients (do_invoke s c p op) !! c =
    Some (MkClient p (Some (MkBusy op (s_clock s) false InFlight)))) as Hc1
    by (cbn; by apply list_lookup_insert_eq).
  pose proof (quiet_exec _ _ _ _ Hc1 eq_refl Hp) as Hq2. unfold do_exec in Hq2. cbn in Hq2.
  destruct (srv_exec (s_srv s) op) as [kv' r].
  destruct (clerk_iter_answer false r) as [res Hres]. do 2 eexists. split; [|split; [|split; [|split]]].
  - eapply rtc_l; [exact Hq1|]. eapply rtc_l; [exact Hq2|].
    eapply rtc_once, quiet_return;
      [cbn; apply list_lookup_insert_eq; by rewrite length_insert|done|exact Hres|done].
  - cbn. apply list_lookup_insert_eq. by rewrite !length_insert.
  - exact Hres.
  - done.
  - cbn. lia.
Qed.
End Calls.

(** ** OneClientPut *)

Lemma put_local_inv p p' :
  put_local p p' → q_pc p = QSelect ∧ (p' = q_at p QDone ∨ ∃ k ver, q_pc p' = QPut k ver).
Proof. destruct 1 as [p Hp|p k Hp _]; (split; [done|]); [by left|right; by eexists _, _]. Qed.

#[export] Instance Put_spawn_laws : SpawnLaws PutClient.
Proof.
  split; cbn.
  - intros p. by destruct (q_pc p).
  - intros p. destruct (q_pc p) eqn:Hpc; try done. intros _. split; [by apply put_done|by eexists].
  - intros p r. unfold put_next. destruct (q_pc p) eqn:Hpc; try done. intros _. split; [done|].
    split; [done|]. intros p' [? _]%put_local_inv. congruence.
  - intros p. unfold put_next. destruct (q_pc p) eqn:Hpc; try done. intros _. split; [done|].
    intros p' [? _]%put_local_inv. congruence.
  - intros p p' [-> [->|(k & ver & ->)]]%put_local_inv; [done|by intros [? ?]].
  - intros p res. unfold put_resume. destruct (q_pc p) eqn:Hpc; rewrite ?Hpc; try done; intros _.
    + destruct res; [by rewrite Hpc|]. unfold OnePut_wrote. by case_decide.
    + destruct res; [|by rewrite Hpc]. unfold OnePut_read.
      destruct (decode_get _ _ _) as [[e ver0]|]; [|done]. by repeat case_decide.
Qed.

Section Puts.
Context (reliable : bool) (n : nat) (ka : list string) (randomkeys : bool).
Context (Hn : Z.of_nat n < 2 ^ 63).
Implicit Types s : Sys PutClient.

Abbreviation reach := (reachable_in (net_steps reliable) (put_progs n ka randomkeys)).
Abbreviation quiet := (rtc (quiet_step (net_steps reliable))).

Lemma quiet_reach s s' : reach s → quiet s s' → reach s'.
Proof using. intros Hr Hq. unfold reachable_in in *. etrans; [exact Hr|by apply quiet_steps]. Qed.

Lemma reach_not_fatal s c cl msg :
  reach s → s_clock s < 2 ^ 63 → s_clients s !! c = Some cl → q_pc (c_prog cl) ≠ QFatal msg.
Proof using Hn. intros Hr Hclk. eapply put_never_fatal. by apply put_run. Qed.

Lemma busy_running s c p b :
  reach s → s_clock s < 2 ^ 63 → s_clients s !! c = Some (MkClient p (Some b)) → next_op p = Some (b_op b).
Proof using Hn.
  intros Hr Hclk Hc. pose proof (put_run _ _ _ _ _ Hn Hr Hclk) as Hi.
  pose proof (ri_clients _ _ _ _ Hi c _ Hc) as Hok. unfold client_ok in Hok. cbn in Hok. by destruct Hok.
Qed.

(** What [OnePut] makes of what it read: the [select], unless it has to try the
    version it read. *)
Lemma OnePut_read_next p k ver err r p' :
  OnePut_read p k ver err r = p' → (∀ msg, q_pc p' ≠ QFatal msg) →
  q_pc p' = QSelect ∨ err ≠ OK ∧ r.2 = OK ∧ q_pc p' = QPut k r.1.2.
Proof using.
  intros <-. unfold OnePut_read. destruct r as [[val ver0] gerr]. unfold decode_get.
  destruct (decide (gerr = OK)) as [->|]; [|intros Hf; by destruct (Hf _ eq_refl)].
  destruct (Unmarshal val) as [e|]; [|intros Hf; by destruct (Hf _ eq_refl)].
  case_decide; [intros Hf; by destruct (Hf _ eq_refl)|]. intros _.
  destruct (decide (err = OK ∨ err = ErrMaybe)); [by left|right].
  split_and!; [naive_solver|done|done].
Qed.

(** The [GetJson] of [OnePut]: back at the [select], or a [Put] at the version
    the server has now. *)
Lemma get_round s c p k ver err :
  reach s → s_clock s + 3 < 2 ^ 63 → s_clients s !! c = Some (MkClient p None) →
  q_pc p = QGet k ver err →
  ∃ s' p', quiet s s' ∧ s_clients s' !! c = Some (MkClient p' None) ∧ s_clock s' <= s_clock s + 3 ∧
    (q_pc p' = QSelect ∨
     err ≠ OK ∧ ∃ e, store (s_srv s') !! k = Some e ∧ q_pc p' = QPut k (e_version e)).
Proof using Hn.
  intros Hr Hclk Hc Hpc.
  destruct (whole_call reliable s c p (OpGet (MkGetArgs k)) Hc) as (s' & res & Hq & Hc' & Hres & Hsrv & Hclk');
    [by cbn; unfold put_next; rewrite Hpc|].
  do 2 eexists. split; [exact Hq|]. split; [exact Hc'|]. split; [done|].
  pose proof (λ msg, reach_not_fatal s' c _ msg (quiet_reach _ _ Hr Hq) ltac:(lia) Hc') as Hnf.
  cbn in Hres, Hsrv. injection Hres as <-. rewrite Hsrv. cbn in Hnf |- *. unfold put_resume in *.
  rewrite Hpc in *. destruct (OnePut_read_next _ _ _ _ _ _ eq_refl Hnf) as [?|(He & Hok & ->)]; [by left|].
  right. split; [done|]. unfold Get in *. cbn in *. destruct (store (s_srv s) !! k) as [e|]; [|done].
  by exists e.
Qed.

(** After a [PutJson] that was answered. *)
Lemma put_round s c p k ver :
  reach s → s_clock s + 3 < 2 ^ 63 → s_clients s !! c = Some (MkClient p None) → q_pc p = QPut k ver →
  ∃ s' p' err, quiet s s' ∧ s_clients s' !! c = Some (MkClient p' None) ∧ s_clock s' <= s_clock s + 3 ∧
    q_pc p' = QGet k ver err ∧ (∀ e, store (s_srv s) !! k = Some e → ver = e_version e → err = OK).
Proof using Hn.
  intros Hr Hclk Hc Hpc.
  destruct (whole_call reliable s c p
    (OpPut (MkPutArgs k (Marshal (MkEntryV (Z.of_nat (q_me p)) ver)) ver)) Hc)
    as (s' & res & Hq & Hc' & Hres & Hsrv & Hclk'); [by cbn; unfold put_next; rewrite Hpc|].
  pose proof (λ msg, reach_not_fatal s' c _ msg (quiet_reach _ _ Hr Hq) ltac:(lia) Hc') as Hnf.
  cbn in Hres, Hnf. destruct (Put (s_srv s) _) as [kv' rep] eqn:Hput. cbn in Hres.
  rewrite decide_False in Hres by (by intros [_ ?]). injection Hres as <-.
  cbn in Hc'. unfold put_resume in *. rewrite Hpc in *. unfold OnePut_wrote in *. case_decide.
  - eexists s', _, _. split; [exact Hq|]. split; [exact Hc'|]. split; [done|]. split; [done|].
    intros e He ->. unfold Put in Hput. cbn in Hput. rewrite He in Hput.
    rewrite decide_False in Hput by (intros Hne; by apply Hne). by injection Hput as _ <-.
  - by destruct (Hnf _ eq_refl).
Qed.

(** From the [GetJson] of a round on: at most one more round. *)
Lemma get_select s c p k ver err :
  reach s → s_clock s + 9 < 2 ^ 63 → s_clients s !! c = Some (MkClient p None) → q_pc p = QGet k ver err →
  ∃ s' p', quiet s s' ∧ s_clients s' !! c = Some (MkClient p' None) ∧ at_select p' = true ∧
    s_clock s' <= s_clock s + 9.
Proof using Hn.
  intros Hr Hclk Hc Hpc.
  destruct (get_round s c p k ver err) as (s1 & p1 & Hq1 & Hc1 & Hclk1 & [Hp1|(_ & e & He & Hp1)]); try done; [lia|..].
  { exists s1, p1. cbn. rewrite Hp1. split_and!; [done..|lia]. }
  assert (reach s1) as Hr1 by (by eapply quiet_reach).
  destruct (put_round s1 c p1 k (e_version e)) as (s2 & p2 & err2 & Hq2 & Hc2 & Hclk2 & Hp2 & Hok);
    [done|lia|done|done|].
  rewrite (Hok e He eq_refl) in Hp2. assert (reach s2) as Hr2 by (by eapply quiet_reach).
  destruct (get_round s2 c p2 k (e_version e) OK) as (s3 & p3 & Hq3 & Hc3 & Hclk3 & [Hp3|[? _]]); try done; [lia|].
  exists s3, p3. cbn. rewrite Hp3. split_and!; [|done|done|lia].
  etrans; [exact Hq1|]. by etrans.
Qed.

Lemma idle_select s c p :
  reach s → s_clock s + 12 < 2 ^ 63 → s_clients s !! c = Some (MkClient p None) → fn_result p = None →
  ∃ s' p', quiet s s' ∧ s_clients s' !! c = Some (MkClient p' None) ∧ at_select p' = true ∧
    s_clock s' <= s_clock s + 12.
Proof using Hn.
  intros Hr Hclk Hc Hp. destruct (q_pc p) as [|k ver|k ver err| |msg] eqn:Hpc.
  - exists s, p. cbn. rewrite Hpc. split_and!; [done..|lia].
  - destruct (put_round s c p k ver) as (s1 & p1 & err & Hq1 & Hc1 & Hclk1 & Hp1 & _); try done; [lia|].
    destruct (get_select s1 c p1 k ver err) as (s2 & p2 & Hq2 & Hc2 & Hp2 & Hclk2); try done;
      [by eapply quiet_reach|lia|].
    exists s2, p2. split_and!; [by etrans|done|done|lia].
  - destruct (get_select s c p k ver err) as (s2 & p2 & Hq2 & Hc2 & Hp2 & Hclk2); try done; [lia|].
    exists s2, p2. split_and!; [done..|lia].
  - cbn in Hp. by rewrite Hpc in Hp.
  - by destruct (reach_not_fatal s c _ msg Hr ltac:(lia) Hc).
Qed.

(** Wherever a client is that has not returned, it comes back to its [select]. *)
Lemma put_select s c cl :
  reach s → s_clock s + 14 < 2 ^ 63 → s_clients s !! c = Some cl → returned cl = None →
  ∃ s' p, quiet s s' ∧ s_clients s' !! c = Some (MkClient p None) ∧ at_select p = true ∧
    s_clock s' <= s_clock s + 14.
Proof using Hn.
  intros Hr Hclk Hc Hret. destruct cl as [p [b|]].
  - pose proof (running p _ (busy_running s c p b Hr ltac:(lia) Hc)) as Hp.
    destruct (finish_call reliable s c p b Hc Hp) as (s1 & res & Hq1 & Hc1 & Hclk1).
    destruct (idle_select s1 c (resume p res)) as (s2 & p2 & Hq2 & Hc2 & Hp2 & Hclk2);
      [by eapply quiet_reach|lia|done|by apply resume_result|].
    exists s2, p2. split_and!; [by etrans|done|done|lia].
  - destruct (idle_select s c p) as (s2 & p2 & Hq2 & Hc2 & Hp2 & Hclk2); [done|lia|done|done|].
    exists s2, p2. split_and!; [done..|lia].
Qed.

(** A local step that does something is no loss. *)
Lemma done_no_loss s c p :
  s_clients s !! c = Some (MkClient p None) → at_select p = true →
  net_steps reliable s (do_local s c (take_done p)).
Proof using.
  intros Hc Hsel _ c' p' b left H. apply (f_equal s_clients), (f_equal (lookup c)) in H. cbn in H, Hsel.
  assert (c < length (s_clients s))%nat as Hlt by (by eapply lookup_lt_Some).
  rewrite list_lookup_insert_eq in H by done. destruct (decide (c' = c)) as [->|Hne].
  - rewrite list_lookup_insert_eq in H by done. congruence.
  - rewrite list_lookup_insert_ne, Hc in H by done. injection H as H.
    apply (f_equal q_pc) in H. cbn in H. by rewrite <- H in Hsel.
Qed.

Lemma put_progs_fresh : Forall (λ p, fn_result p = None) (put_progs n ka randomkeys).
Proof using. unfold put_progs. apply list.Forall_fmap, list.Forall_forall. by intros. Qed.
End Puts.

(** C19: the test of concurrent [Put]s, from the start of its clients to its
    check.  Whatever the network does, with any keys, at every point of a run of
    [SpawnClientsAndWait] no client has ended in [Fatalf] and the tester can still
    finish: some schedule brings every client to its [select] and the tester back
    with the results.  When it is back it has one result per client, in the order
    of the clients, each the counts with which that client's function returned;
    and with these [CheckPutConcurrent] over any answered [Get] accepts the
    version of the key. *)
Theorem spawn_put_clients reliable n ka randomkeys (w : Spawn PutClient) :
  Z.of_nat n < 2 ^ 63 →
  spawn_reachable (net_steps reliable) n (put_progs n ka randomkeys) w →
  s_clock (sp_sys w) + 15 * Z.of_nat n < 2 ^ 63 →
  (∀ c cl, s_clients (sp_sys w) !! c = Some cl → exited (c_prog cl) = false) ∧
  (∃ s rs, rtc (spawn_step (net_steps reliable) n) w (MkSpawn s (MBack rs))) ∧
  ∀ rs, sp_main w = MBack rs →
    length rs = n ∧ put_results (sp_sys w) = Some rs ∧
    ∀ k st o net b, ka = [k] → randomkeys = false → Exists (λ r, 0 < Nok r + Nmaybe r) rs →
      let res := foldl add_res (MkClntRes 0 0) rs in
      Nok res + Nmaybe res < 2 ^ 63 →
      ts_kv st = s_srv (sp_sys w) → ts_net st = o :: net → reply_lost o = Some b →
      ∃ st', CheckPutConcurrent k rs (MkClntRes 0 0) reliable st = Ret res st'.
Proof.
  intros Hn Hw Hclk. pose proof (spawn_inv_reachable _ _ _ _ (put_progs_fresh n ka randomkeys) Hw) as Hinv.
  assert (length (put_progs n ka randomkeys) = n) as Hlen.
  { unfold put_progs. by rewrite length_fmap, length_seq. }
  pose proof (spawn_clients_run _ _ _ _ Hw) as Hr. cbn in Hr.
  assert (length (s_clients (sp_sys w)) = n) as Hcl.
  { rewrite (reachable_length (put_progs n ka randomkeys)); [done|].
    by eapply reachable_in_reachable. }
  split; [|split].
  - intros c cl Hc. cbn. destruct (q_pc (c_prog cl)) eqn:Hpc; try done.
    by destruct (reach_not_fatal reliable n ka randomkeys Hn (sp_sys w) c cl msg Hr ltac:(lia) Hc).
  - eapply (can_return _ n (put_progs n ka randomkeys) 14); try done; [lia| | |lia].
    + intros s c p. by apply done_no_loss.
    + intros s c cl Hs Hclk' _. by apply (put_select reliable n ka randomkeys Hn).
  - intros rs Hrs. pose proof (spawn_results n w rs Hinv Hrs) as Hres. rewrite Hcl in Hres.
    specialize (Hres (le_n _)). rewrite take_ge in Hres by lia.
    assert (put_results (sp_sys w) = Some rs) as Hput.
    { rewrite <- Hres. unfold put_results. apply mapM_ext. intros [p ob]. unfold returned. cbn.
      by destruct (q_pc p), ob. }
    split; [|split; [done|]].
    + destruct Hinv as (l & _ & _ & _ & Hm). rewrite Hrs in Hm. by destruct Hm as (_ & _ & _ & ?).
    + intros k st o net b -> ->. intros. eapply (put_test_result reliable n k (sp_sys w)); try done. lia.
Qed.

(** A goroutine in which [Fatalf] was called never receives [done] and never
    sends a result: [SpawnClientsAndWait] does not return, whatever happens. *)
Theorem exited_client_blocks {P : Type} `{!KVClient P, !SpawnClient P, !SpawnLaws P}
    R nclnt (ps : list P) w w' c p :
  Forall (λ p, fn_result p = None) ps → spawn_reachable R nclnt ps w →
  (c < nclnt)%nat → s_clients (sp_sys w) !! c = Some (MkClient p None) → exited p = true →
  rtc (spawn_step R nclnt) w w' → ∀ rs, sp_main w' ≠ MBack rs.
Proof. intros Hp Hw. eapply exited_never_returns. by eapply spawn_inv_reachable. Qed.

(** ** checkPorcupine *)

Section Porcupine.
Context (CheckOperationsVerbose : list Operation → Z → CheckResult).

(** [porcupine] decides the history it is given, or runs out of time. *)
Definition checker_sound : Prop :=
  ∀ ops t, (CheckOperationsVerbose ops t = CkOk → history_ok ops) ∧
           (CheckOperationsVerbose ops t = CkIllegal → ¬ history_ok ops).

(** The linearizability check at the end of a test.  With a sound checker it
    is fatal only for a history that is not linearizable, and so never for the
    log of the service when its clients [Put] only at versions they have read,
    whatever the network and the environment do;
    when it is not fatal and did not run out of time the history is linearizable;
    and for a test whose annotations are not finalized it writes no file unless
    the history was refused, also when [VIS_ENABLE] is [always]. *)
Theorem porcupine_verdict env finalized nsec ops :
  checker_sound →
  let out := CheckPorcupineT CheckOperationsVerbose env finalized nsec ops in
  (vo_fatal out = true → ¬ history_ok ops) ∧
  (vo_fatal out = false → ¬ (TimedOut ∈ vo_msgs out) → history_ok ops) ∧
  (finalized = false → vo_fatal out = false → vo_title out = None) ∧
  ∀ {P : Type} `{!KVClient P, !CarefulClient P} (ps : list P) (s : Sys P),
    knows_nothing ps → reachable ps s → s_clock s < 2 ^ 63 → quiescent s → s_oplog s = ops →
    vo_fatal out = false.
Proof.
  intros Hck out. subst out. unfold CheckPorcupineT.
  assert (∀ b msgs, vo_fatal (vis_passed env b msgs) = false) as Hpass.
  { intros b msgs. unfold vis_passed. case_decide; [destruct (open_ok env)|]; done. }
  assert (vo_fatal (checkPorcupine env finalized (CheckOperationsVerbose ops nsec)) = true →
    ¬ history_ok ops) as Hfatal.
  { destruct (CheckOperationsVerbose ops nsec) eqn:Hr; cbn; rewrite ?Hpass; try done.
    intros _. by apply (Hck ops nsec). }
  split; [done|]. split; [|split].
  - destruct (CheckOperationsVerbose ops nsec) eqn:Hr; cbn.
    + intros _ Hin. destruct Hin. unfold vis_passed, visualize. case_decide; [destruct (open_ok env)|]; by left.
    + intros _ _. by apply (Hck ops nsec).
    + destruct (open_ok env); [case_decide|]; done.
  - intros -> Hf. destruct (CheckOperationsVerbose ops nsec); cbn in *.
    1,2: unfold vis_passed; rewrite decide_False by (by intros [_ ?]); done.
    revert Hf. destruct (open_ok env); [case_decide|]; done.
  - intros P HP HC ps s Hps Hr Hclk Hq <-.
    destruct (vo_fatal _) eqn:Hf; [|done]. destruct (Hfatal eq_refl). by eapply careful_history.
Qed.
End Porcupine.

(** ** A run *)

Inductive SpawnMove :=
| SMove (m : Move)
| SKey (c : nat) (k : string)
| SWake | SSend (c : nat) | SSent | SRecv | SReturn.

Definition with_sys (w : Spawn PutClient) (s : option (Sys PutClient)) : option (Spawn PutClient) :=
  s ← s; Some (MkSpawn s (sp_main w)).

(** The client that moves. *)
Definition move_client (m : Move) : option nat :=
  match m with MInvoke c | MExec c | MFail c | MLeave c | MReturn c => Some c | MLate _ => None end.

(** It has not returned. *)
Definition still_running (s : Sys PutClient) (m : Move) : bool :=
  match move_client m with
  | Some c =>
      match s_clients s !! c with Some cl => bool_decide (fn_result (c_prog cl) = None) | None => false end
  | None => true
  end.

Definition run_spawn_move (nclnt : nat) (w : Spawn PutClient) (m : SpawnMove) : option (Spawn PutClient) :=
  let s := sp_sys w in
  match m, sp_main w with
  | SMove m, _ =>
      s' ← run_move s m; if still_running s' m then Some (MkSpawn s' (sp_main w)) else None
  | SKey c k, _ =>
      cl ← s_clients s !! c;
      match c_clerk cl with
      | None => p ← put_choose (c_prog cl) (Some k); Some (MkSpawn (do_local s c p) (sp_main w))
      | Some _ => None
      end
  | SWake, MSleep => Some (MkSpawn s (MSend 0))
  | SSend c, MSend i =>
      cl ← s_clients s !! c;
      if bool_decide (i < nclnt ∧ c < nclnt)%nat && bool_decide (at_select (c_prog cl) = true) then
        match c_clerk cl with
        | None => Some (MkSpawn (do_local s c (take_done (c_prog cl))) (MSend (S i)))
        | Some _ => None
        end
      else None
  | SSent, MSend i => if bool_decide (i = nclnt) then Some (MkSpawn s (MCollect [])) else None
  | SRecv, MCollect rs =>
      cl ← s_clients s !! length rs;
      match c_clerk cl with
      | None => r ← fn_result (c_prog cl);
          if bool_decide (length rs < nclnt)%nat then Some (MkSpawn s (MCollect (rs ++ [r]))) else None
      | Some _ => None
      end
  | SReturn, MCollect rs => if bool_decide (length rs = nclnt) then Some (MkSpawn s (MBack rs)) else None
  | _, _ => None
  end.

Fixpoint run_spawn (nclnt : nat) (w : Spawn PutClient) (ms : list SpawnMove) : option (Spawn PutClient) :=
  match ms with
  | [] => Some w
  | m :: ms => w' ← run_spawn_move nclnt w m; run_spawn nclnt w' ms
  end.

Lemma run_move_at (s s' : Sys PutClient) m :
  run_move s m = Some s' →
  match move_client m with
  | Some c => ∃ cl, s_clients s' = <[c := cl]> (s_clients s)
  | None => s_clients s' = s_clients s
  end.
Proof.
  destruct m as [c|c|c|c|c|k]; cbn [run_move move_client];
    [intros ([p ob] & _ & H)%bind_Some; cbn in H..|].
  - destruct ob; [done|]. apply bind_Some in H as (op & _ & [= <-]). by eexists.
  - apply bind_Some in H as (b & -> & H). destruct (b_net b); [|done]. injection H as <-.
    unfold do_exec. destruct (srv_exec _ _). by eexists.
  - apply bind_Some in H as (b & -> & [= <-]). by eexists.
  - apply bind_Some in H as (b & -> & [= <-]). by eexists.
  - apply bind_Some in H as (b & -> & H). destruct (b_net b); [done|].
    apply bind_Some in H as (res & _ & [= <-]). by eexists.
  - intros (q & _ & [= <-])%bind_Some. by destruct (do_late_view s q (delete k (s_late s))) as (_ & -> & _).
Qed.

Lemma still_no_done (s s' : Sys PutClient) m :
  run_move s m = Some s' → still_running s' m = true → no_done s s'.
Proof.
  intros Hm%run_move_at. unfold still_running. destruct (move_client m) as [c|].
  - destruct Hm as [cl Hcl]. intros Hs. eapply no_done_at; [exact Hcl|]. rewrite Hcl in Hs.
    destruct (decide (c < length (s_clients s))%nat) as [Hlt|Hge].
    + rewrite list_lookup_insert_eq in Hs by done. by apply bool_decide_eq_true in Hs.
    + rewrite lookup_ge_None_2 in Hs by (rewrite length_insert; lia). done.
  - intros _ c cl. by rewrite Hm.
Qed.

Lemma run_spawn_move_step nclnt w m w' :
  run_spawn_move nclnt w m = Some w' → spawn_step (net_steps false) nclnt w w'.
Proof.
  destruct w as [s mn]. unfold run_spawn_move. cbn [sp_sys sp_main].
  destruct m as [m|c k| |c| | |]; intros H.
  - apply bind_Some in H as (s' & Hm & H). destruct (still_running s' m) eqn:Hs; [|done].
    injection H as <-. apply spawn_client; [split; [by eapply run_move_step|done]|].
    by eapply still_no_done.
  - apply bind_Some in H as ([p [b|]] & Hc & H); [done|]. cbn in H.
    apply bind_Some in H as (p' & Hp & [= <-]). apply spawn_client.
    + split; [|done]. eapply step_local; [exact Hc|]. by eapply put_choose_local.
    + eapply no_done_at; [done|]. cbn. unfold put_choose in Hp. destruct (q_pc p); try done.
      destruct (q_randomkeys p); case_bool_decide; try done; by injection Hp as <-.
  - destruct mn; try done. injection H as <-. apply spawn_wake.
  - destruct mn as [|i|rs|rs]; try done. apply bind_Some in H as ([p ob] & Hc & H). cbn [c_prog c_clerk] in H.
    destruct (bool_decide (i < nclnt ∧ c < nclnt)%nat && _) eqn:Hb; [|done].
    apply andb_true_iff in Hb as [[? ?]%bool_decide_eq_true Hsel%bool_decide_eq_true].
    destruct ob; [done|]. apply (inj Some) in H as <-. by apply (spawn_send _ nclnt s i c p).
  - destruct mn as [|i|rs|rs]; try done. case_bool_decide; [|done]. subst. injection H as <-. apply spawn_sent.
  - destruct mn as [|i|rs|rs]; try done. apply bind_Some in H as ([p [b|]] & Hc & H); [done|]. cbn [c_prog c_clerk] in H.
    apply bind_Some in H as (r & Hr & H). case_bool_decide; [|done]. injection H as <-. by eapply spawn_recv.
  - destruct mn as [|i|rs|rs]; try done. case_bool_decide; [|done]. injection H as <-. by apply spawn_return.
Qed.

Lemma run_spawn_steps nclnt w ms w' :
  run_spawn nclnt w ms = Some w' → rtc (spawn_step (net_steps false) nclnt) w w'.
Proof.
  revert w. induction ms as [|m ms IH]; intros w; cbn [run_spawn]; [intros [= ->]; constructor|].
  intros (w1 & Hm & Hms)%bind_Some. eapply rtc_l; [by eapply run_spawn_move_step|by apply IH].
Qed.

(** Two clients; the reply to a [Put] of the first is lost and the second is
    beaten once, and a request of the second runs after its call has returned; the
    tester wakes in the middle. *)
Definition spawn_demo_moves : list SpawnMove :=
  [SKey 0 "k"; SKey 1 "k"; SMove (MInvoke 0); SMove (MInvoke 1);
   SMove (MExec 0); SMove (MFail 0); SMove (MExec 1); SMove (MReturn 1); SWake; SMove (MExec 0);
   SMove (MReturn 0); SMove (MInvoke 0); SMove (MExec 0); SMove (MReturn 0); SSend 0;
   SMove (MInvoke 1); SMove (MExec 1); SMove (MReturn 1); SMove (MInvoke 1); SMove (MLeave 1);
   SMove (MExec 1); SMove (MReturn 1); SMove (MInvoke 1); SMove (MExec 1); SMove (MReturn 1);
   SMove (MLate 0); SSend 1; SSent; SRecv; SRecv; SReturn].

Definition spawn_demo : Spawn PutClient := Eval vm_compute in
  default (MkSpawn (init_sys []) MSleep)
    (run_spawn 2 (MkSpawn (init_sys (put_progs 2 ["k"] false)) MSleep) spawn_demo_moves).

Lemma spawn_demo_reachable : spawn_reachable (net_steps false) 2 (put_progs 2 ["k"] false) spawn_demo.
Proof. eapply (run_spawn_steps 2 _ spawn_demo_moves). vm_compute. reflexivity. Qed.

Lemma spawn_put_clients_witness :
  sp_main spawn_demo = MBack [MkClntRes 0 1; MkClntRes 1 0] ∧
  ∃ st', CheckPutConcurrent "k" [MkClntRes 0 1; MkClntRes 1 0] (MkClntRes 0 0) false
    (MkTestSt (s_srv (sp_sys spawn_demo)) [[RequestLost; Delivered]] 0 [] 0) = Ret (MkClntRes 1 1) st'.
Proof.
  split; [reflexivity|].
  destruct (spawn_put_clients false 2 ["k"] false spawn_demo ltac:(reflexivity) spawn_demo_reachable
    ltac:(reflexivity)) as (_ & _ & H).
  apply (H [MkClntRes 0 1; MkClntRes 1 0] eq_refl) with (o := [RequestLost; Delivered]) (net := []) (b := false);
    try reflexivity.
  apply Exists_cons_hd. reflexivity.
Defined.

(** A checker that decides two histories: the log of a run of the service, and a
    [Get] of a value nobody wrote. *)
Definition unwritten : list Operation :=
  [MkOperation 0 (MkKvInput 0 "k" "" 0) 1 (MkKvOutput "x" 1 OK) 2].

Lemma unwritten_refused : ¬ history_ok unwritten.
Proof.
  assert (KvModel_Partition unwritten = [unwritten]) as E by (vm_compute; reflexivity).
  unfold history_ok. rewrite E. intros H. apply list.Forall_cons in H as [(l & Hl & _ & Hacc) _].
  apply Permutation_singleton_r in Hl as ->. vm_compute in Hacc. discriminate.
Qed.

#[local] Instance KvInput_eq_dec : EqDecision KvInput.
Proof. solve_decision. Defined.
#[local] Instance KvOutput_eq_dec : EqDecision KvOutput.
Proof. solve_decision. Defined.
#[local] Instance Operation_eq_dec : EqDecision Operation.
Proof. solve_decision. Defined.

Definition demo_checker (ops : list Operation) (t : Z) : CheckResult :=
  if decide (ops = s_oplog (sp_sys spawn_demo)) then CkOk
  else if decide (ops = unwritten) then CkIllegal else CkUnknown.

Lemma spawn_demo_run : reachable (put_progs 2 ["k"] false) (sp_sys spawn_demo).
Proof.
  eapply reachable_in_reachable. exact (spawn_clients_run _ _ _ _ spawn_demo_reachable).
Qed.

Lemma spawn_demo_history : history_ok (s_oplog (sp_sys spawn_demo)).
Proof.
  apply (careful_history (put_progs 2 ["k"] false));
    [apply put_know_nothing|exact spawn_demo_run|reflexivity|repeat constructor].
Qed.

Lemma demo_checker_sound : checker_sound demo_checker.
Proof.
  intros ops t. unfold demo_checker. destruct (decide (ops = _)) as [->|].
  - split; [intros _; exact spawn_demo_history|done].
  - destruct (decide (ops = unwritten)) as [->|]; [|done]. split; [done|intros _; exact unwritten_refused].
Qed.

Lemma porcupine_verdict_witness :
  checker_sound demo_checker ∧
  vo_fatal (CheckPorcupineT demo_checker (MkVisEnv "" "" true true) false 1 unwritten) = true ∧
  ¬ history_ok unwritten ∧
  vo_fatal (CheckPorcupineT demo_checker (MkVisEnv "always" "" true true) false 1 (s_oplog (sp_sys spawn_demo))) = false ∧
  vo_title (CheckPorcupineT demo_checker (MkVisEnv "always" "" true true) false 1 (s_oplog (sp_sys spawn_demo))) = None.
Proof.
  split; [exact demo_checker_sound|].
  assert (E : vo_fatal (CheckPorcupineT demo_checker (MkVisEnv "" "" true true) false 1 unwritten) = true)
    by (vm_compute; reflexivity).
  split; [exact E|].
  split; [apply (porcupine_verdict demo_checker (MkVisEnv "" "" true true) false 1 unwritten
    demo_checker_sound), E|].
  destruct (porcupine_verdict demo_checker (MkVisEnv "always" "" true true) false 1 (s_oplog (sp_sys spawn_demo))
    demo_checker_sound) as (_ & _ & Hfile & Hsys).
  assert (F : vo_fatal (CheckPorcupineT demo_checker (MkVisEnv "always" "" true true) false 1
    (s_oplog (sp_sys spawn_demo))) = false).
  { apply (Hsys PutClient _ _ (put_progs 2 ["k"] false) (sp_sys spawn_demo));
      [apply put_know_nothing|exact spawn_demo_run|reflexivity|repeat constructor|reflexivity]. }
  split; [exact F|]. apply Hfile; [reflexivity|exact F].
Defined.
