(* ===== verification/Lock.v ===== *)
(** * The distributed lock

    [src/src/kvsrv1/lock/lock.go]: a lock kept in one key of the key/value
    service.  The methods are client programs of [KvSys]: each program counter
    is the clerk call the method is waiting in, and [resume] is the code from
    there to the next call.  Mutual exclusion, and that [Release] really
    releases and never spins, hold for any number of clients over the lossy
    network, also when requests run after their call has failed. *)

From S2P Require Import Prelude Rpc KvSrv KvModel Clerk KvSys KvHist KvLate KvProof.

(** ** Unique identifiers *)

Definition letterBytes : list Ascii.ascii :=
  String.list_ascii_of_string "abcdefghijklmnopqrstuvwxyzABCDEFGHIJKLMNOPQRSTUVWXYZ".

(** [RandValue(n)] over the [n] results of [rand.Int63] it draws. *)
Definition RandValue (draws : list Z) : string :=
  String.string_of_list_ascii
    ((λ r, default Ascii.zero (letterBytes !! Z.to_nat (r mod len letterBytes))) <$> draws).

Lemma RandValue_length draws : String.length (RandValue draws) = length draws.
Proof.
  unfold RandValue. induction draws as [|r draws IH]; [done|].
  cbn [fmap list_fmap String.string_of_list_ascii String.length length]. by f_equal.
Qed.

(** ** The lock object *)

Record Lock := MkLock {
  lk_key : string;
  lk_held : bool;
  lk_version : Tversion;
  lk_id : string;
}.

Definition set_held (lk : Lock) (v : Tversion) : Lock :=
  MkLock (lk_key lk) true v (lk_id lk).
Definition clear_held (lk : Lock) : Lock :=
  MkLock (lk_key lk) false (lk_version lk) (lk_id lk).

(** Where a client of the lock is: in a call of [MakeLock], [Acquire] or
    [Release], in a call of its own on some key, or between calls. *)
Inductive LockPc :=
| PMake
| PIdle
| PUser (op : KvOp)
| PAcqGet
| PAcqPut (version : Tversion)
| PAcqCheck
| PRelPut
| PRelCheck.

Record LockClient := MkLC { lc_lock : Lock; lc_pc : LockPc }.

(** [MakeLock] up to its [Put]. *)
Definition MakeLock (l : string) (id : string) : LockClient :=
  MkLC (MkLock l false 0 id) PMake.

Definition lock_next (lc : LockClient) : option KvOp :=
  let lk := lc_lock lc in
  match lc_pc lc with
  | PMake => Some (OpPut (MkPutArgs (lk_key lk) "available" 0))
  | PIdle => None
  | PUser op => Some op
  | PAcqGet => Some (OpGet (MkGetArgs (lk_key lk)))
  | PAcqPut version => Some (OpPut (MkPutArgs (lk_key lk) (lk_id lk) version))
  | PAcqCheck => Some (OpGet (MkGetArgs (lk_key lk)))
  | PRelPut => Some (OpPut (MkPutArgs (lk_key lk) "available" (lk_version lk)))
  | PRelCheck => Some (OpGet (MkGetArgs (lk_key lk)))
  end.

(** [Acquire] after its first [Get]. *)
Definition Acquire_read (lk : Lock) (value : string) (version : Tversion) (err : Err)
    : LockClient :=
  if decide (err ≠ OK) then MkLC lk PAcqGet
  else if decide (value = lk_id lk) then MkLC (set_held lk version) PIdle
  else if decide (value ≠ "available") then MkLC lk PAcqGet
  else MkLC lk (PAcqPut version).

(** [Acquire] after its [Put] at [version]. *)
Definition Acquire_wrote (lk : Lock) (version : Tversion) (err : Err) : LockClient :=
  if decide (err = OK) then MkLC (set_held lk (ver_succ version)) PIdle
  else if decide (err = ErrMaybe) then MkLC lk PAcqCheck
  else MkLC lk PAcqGet.

(** [Acquire] after the [Get] that follows [ErrMaybe]. *)
Definition Acquire_checked (lk : Lock) (value : string) (version : Tversion) (err : Err)
    : LockClient :=
  if decide (err = OK ∧ value = lk_id lk) then MkLC (set_held lk version) PIdle
  else MkLC lk PAcqGet.

Definition Release_wrote (lk : Lock) (err : Err) : LockClient :=
  if decide (err = OK) then MkLC (clear_held lk) PIdle
  else if decide (err = ErrMaybe) then MkLC lk PRelCheck
  else MkLC lk PRelPut.

Definition Release_checked (lk : Lock) (value : string) (err : Err) : LockClient :=
  if decide (err = OK ∧ value ≠ lk_id lk) then MkLC (clear_held lk) PIdle
  else MkLC lk PRelPut.

Definition lock_resume (lc : LockClient) (res : KvRes) : LockClient :=
  let lk := lc_lock lc in
  match lc_pc lc, res with
  | PMake, ResPut _ => MkLC lk PIdle
  | PUser _, _ => MkLC lk PIdle
  | PAcqGet, ResGet value version err => Acquire_read lk value version err
  | PAcqPut version, ResPut err => Acquire_wrote lk version err
  | PAcqCheck, ResGet value version err => Acquire_checked lk value version err
  | PRelPut, ResPut err => Release_wrote lk err
  | PRelCheck, ResGet value _ err => Release_checked lk value err
  | _, _ => lc
  end.

(** A method is entered.  [Release] without the lock only prints. *)
Definition enter_Acquire (lk : Lock) : LockClient := MkLC lk PAcqGet.
Definition enter_Release (lk : Lock) : LockClient :=
  if lk_held lk then MkLC lk PRelPut else MkLC lk PIdle.

(** Between calls the program may enter a method or call the service itself,
    on any key but that of the lock. *)
Inductive lock_local : LockClient → LockClient → Prop :=
| local_acquire lk : lock_local (MkLC lk PIdle) (enter_Acquire lk)
| local_release lk : lock_local (MkLC lk PIdle) (enter_Release lk)
| local_user lk op : op_arg_key op ≠ lk_key lk → lock_local (MkLC lk PIdle) (MkLC lk (PUser op)).

#[export] Instance Lock_client : KVClient LockClient := {
  next_op := lock_next;
  resume := lock_resume;
  local_step := lock_local;
}.

(** The clients of one lock, each with its own draws. *)
Definition lock_progs (l : string) (ids : list string) : list LockClient :=
  MakeLock l <$> ids.

(** In the critical section: [Acquire] returned and [Release] was not called. *)
Definition releasing (pc : LockPc) : bool :=
  match pc with PRelPut | PRelCheck => true | _ => false end.

Definition in_cs (lc : LockClient) : Prop :=
  lk_held (lc_lock lc) = true ∧ releasing (lc_pc lc) = false.

(** ** The lock's entry in the store *)

Abbreviation Entry := (option kvEntry).

Definition owned (id : string) (v : Tversion) (e : Entry) : Prop := e = Some (MkEntry id v).

(** The lock was [id]'s at version [v], and if it still is, at that version. *)
Definition was_owned (id : string) (v : Tversion) (e : Entry) : Prop :=
  owned id v e ∨ ∃ w u, e = Some (MkEntry w u) ∧ v < u ∧ w ≠ id.

(** The lock was available at version [v]. *)
Definition was_free (v : Tversion) (e : Entry) : Prop :=
  ∃ w u, e = Some (MkEntry w u) ∧ 1 <= v <= u ∧ (v = u → w = "available").

Definition not_owner (id : string) (e : Entry) : Prop := ∀ v, e ≠ Some (MkEntry id v).

(** What a client with identifier [id] can do to the entry. *)
Inductive entry_step (id : string) (e : Entry) : Entry → Prop :=
| es_same : entry_step id e e
| es_make : e = None → entry_step id e (Some (MkEntry "available" 1))
| es_acq v : e = Some (MkEntry "available" v) → entry_step id e (Some (MkEntry id (v + 1)))
| es_rel v : e = Some (MkEntry id v) → entry_step id e (Some (MkEntry "available" (v + 1))).

Section Frame.
Context (id id' : string) (e e' : Entry).
Context (Hid : id ≠ id') (Hav : id ≠ "available") (Hstep : entry_step id' e e').

Lemma owned_frame v : owned id v e → owned id v e'.
Proof using Hid Hav Hstep. unfold owned. destruct Hstep; naive_solver. Qed.

Lemma not_owner_frame : not_owner id e → not_owner id e'.
Proof using Hid Hav Hstep. unfold not_owner. destruct Hstep; naive_solver. Qed.

Lemma was_owned_frame v : was_owned id v e → was_owned id v e'.
Proof using Hid Hav Hstep.
  unfold was_owned, owned. destruct Hstep; [done|naive_solver|..]; subst.
  - intros [?|(w & u & ? & ? & ?)]; simplify_eq. right. do 2 eexists. split; [done|].
    split; [lia|done].
  - intros [?|(w & u & ? & ? & ?)]; simplify_eq. right. do 2 eexists. split; [done|].
    split; [lia|done].
Qed.
End Frame.

Lemma was_free_frame id' e e' v : entry_step id' e e' → was_free v e → was_free v e'.
Proof.
  unfold was_free. intros Hstep (w & u & -> & Hle & Hv). destruct Hstep; simplify_eq.
  - by exists w, u.
  - do 2 eexists. split; [done|]. split; lia.
  - do 2 eexists. split; [done|]. split; [lia|done].
Qed.

(** ** What holds at each program point *)

Definition answers (ob : option Busy) (Q : KvRep → bool → Prop) : Prop :=
  ∀ b r t, ob = Some b → b_net b = Executed r t → Q r (b_retried b).

Definition read_ok (id : string) (e : Entry) (g : GetReply) : Prop :=
  gr_Err g = OK →
  (gr_Value g = id → owned id (gr_Version g) e) ∧
  (gr_Value g = "available" → was_free (gr_Version g) e).

Definition held_ok (lk : Lock) (e : Entry) : Prop :=
  if lk_held lk then owned (lk_id lk) (lk_version lk) e else not_owner (lk_id lk) e.

(** The first request of [Release] has not been answered. *)
Definition first_try (ob : option Busy) : Prop :=
  match ob with
  | None => True
  | Some b => b_retried b = false ∧ b_net b = InFlight
  end.

Definition pc_ok (lc : LockClient) (ob : option Busy) (e : Entry) : Prop :=
  let lk := lc_lock lc in
  match lc_pc lc with
  | PMake | PIdle | PUser _ => held_ok lk e
  | PAcqGet =>
      (lk_held lk = true → owned (lk_id lk) (lk_version lk) e) ∧
      answers ob (λ r _, ∃ g, r = RepGet g ∧ read_ok (lk_id lk) e g ∧
        (lk_held lk = true → g = MkGetReply (lk_id lk) (lk_version lk) OK))
  | PAcqPut version =>
      lk_held lk = false ∧ was_free version e ∧
      answers ob (λ r _, ∃ p, r = RepPut p ∧
        (pr_Err p = OK → owned (lk_id lk) (version + 1) e))
  | PAcqCheck =>
      lk_held lk = false ∧
      answers ob (λ r _, ∃ g, r = RepGet g ∧ read_ok (lk_id lk) e g)
  | PRelPut =>
      lk_held lk = true ∧ was_owned (lk_id lk) (lk_version lk) e ∧
      (first_try ob → owned (lk_id lk) (lk_version lk) e) ∧
      answers ob (λ r retried, ∃ p, r = RepPut p ∧
        (pr_Err p = OK ∧ not_owner (lk_id lk) e ∨ pr_Err p = ErrVersion ∧ retried = true))
  | PRelCheck =>
      lk_held lk = true ∧ was_owned (lk_id lk) (lk_version lk) e ∧
      answers ob (λ r _, ∃ g, r = RepGet g ∧ gr_Err g = OK ∧
        (gr_Value g = lk_id lk → owned (lk_id lk) (lk_version lk) e) ∧
        (gr_Value g ≠ lk_id lk → not_owner (lk_id lk) e))
  end.

Lemma answers_mono ob (Q Q' : KvRep → bool → Prop) :
  (∀ r b, Q r b → Q' r b) → answers ob Q → answers ob Q'.
Proof. unfold answers. naive_solver. Qed.

Lemma answers_none (Q : KvRep → bool → Prop) : answers None Q.
Proof. by intros b r t. Qed.

Lemma read_ok_frame id id' e e' g :
  id ≠ id' → id ≠ "available" → entry_step id' e e' → read_ok id e g → read_ok id e' g.
Proof.
  intros Hid Hav Hstep Hg Hok. destruct (Hg Hok) as [Hown Hfree]. split.
  - intros H. apply (owned_frame id id' e); auto.
  - intros H. eapply was_free_frame; eauto.
Qed.

(** The steps of another client leave all this alone. *)
Lemma pc_ok_frame lc ob id' e e' :
  lk_id (lc_lock lc) ≠ id' → lk_id (lc_lock lc) ≠ "available" → entry_step id' e e' →
  pc_ok lc ob e → pc_ok lc ob e'.
Proof.
  intros Hid Hav Hstep. destruct lc as [lk pc]. simpl in *.
  pose proof (λ v, owned_frame _ _ _ _ Hid Hav Hstep v) as Hown.
  pose proof (not_owner_frame _ _ _ _ Hid Hav Hstep) as Hno.
  pose proof (λ g, read_ok_frame _ _ _ _ g Hid Hav Hstep) as Hread.
  assert (held_ok lk e → held_ok lk e') as Hheld.
  { unfold held_ok. destruct (lk_held lk); auto. }
  destruct pc; unfold pc_ok; cbn [lc_pc lc_lock]; try exact Hheld.
  - intros [H1 H2]. split; [auto|]. eapply answers_mono; [|exact H2].
    intros r _ (g & -> & ? & ?). eauto 10.
  - intros (H1 & H2 & H3). split_and!; [done|by eapply was_free_frame|].
    eapply answers_mono; [|exact H3]. intros r _ (p & -> & ?). eauto.
  - intros [H1 H2]. split; [done|]. eapply answers_mono; [|exact H2].
    intros r _ (g & -> & ?). eauto.
  - intros (H1 & H2 & H3 & H4).
    split_and!; [done|by apply (was_owned_frame _ id' e)|auto|].
    eapply answers_mono; [|exact H4].
    intros r b (p & -> & [[? ?]|?]); exists p; split; [done|left; auto|done|by right].
  - intros (H1 & H2 & H3). split_and!; [done|by apply (was_owned_frame _ id' e)|].
    eapply answers_mono; [|exact H3]. intros r _ (g & -> & ? & ? & ?). eauto 10.
Qed.

(** ** The client's own steps *)

Definition get_rep (e : Entry) : GetReply :=
  match e with
  | None => MkGetReply "" 0 ErrNoKey
  | Some en => MkGetReply (e_value en) (e_version en) OK
  end.

Definition entry_ok (e : Entry) : Prop :=
  ∀ en, e = Some en → 1 <= e_version en < 2 ^ 64 - 1.

Definition entry_pos (e : Entry) : Prop := ∀ en, e = Some en → 1 <= e_version en.

(** [Put] seen at the key it names. *)
Lemma put_at kv l val w :
  entry_ok (store kv !! l) →
  let e := store kv !! l in
  let '(kv', r) := Put kv (MkPutArgs l val w) in
  (w = from_option e_version 0 e ∧ r = MkPutReply OK ∧
     store kv' !! l = Some (MkEntry val (w + 1))) ∨
  (w ≠ from_option e_version 0 e ∧ store kv' !! l = e ∧
     r = MkPutReply (if e is Some _ then ErrVersion else ErrNoKey)).
Proof.
  intros Hb e. set (a := MkPutArgs l val w).
  destruct (decide (put_applies kv a)) as [Ha|Ha].
  - rewrite (put_applied kv a Ha). left. unfold put_applies, cur_version in Ha. simpl in Ha.
    split_and!; [done|done|]. simpl. rewrite lookup_insert_eq. do 2 f_equal.
    unfold cur_version. simpl. rewrite <-Ha. apply ver_succ_small.
    rewrite Ha. destruct (store kv !! l) as [en|]; simpl; [|lia].
    specialize (Hb en eq_refl). lia.
  - rewrite (put_rejected kv a Ha). right. by split_and!.
Qed.

Lemma answers_executed op call retried r t (Q : KvRep → bool → Prop) :
  Q r retried → answers (Some (MkBusy op call retried (Executed r t))) Q.
Proof. intros HQ b r' t' [= <-] [= <- <-]. done. Qed.

Lemma read_ok_get_rep id e : entry_pos e → read_ok id e (get_rep e).
Proof.
  intros Hpos. destruct e as [[w u]|]; intros H; [|done]. specialize (Hpos _ eq_refl).
  simpl in *. split.
  - by intros ->.
  - intros ->. exists "available", u. split; [done|]. split; [lia|done].
Qed.

Section Own.
Context (lc : LockClient) (b : Busy) (kv : KVServer) (t : Z).
Abbreviation lk := (lc_lock lc).
Abbreviation e := (store kv !! lk_key lk).
Context (Hav : lk_id lk ≠ "available") (Hentry : entry_ok e)
  (Hpc : pc_ok lc (Some b) e) (Hnet : b_net b = InFlight)
  (Hop : lock_next lc = Some (b_op b))
  (Huser : ∀ op, lc_pc lc = PUser op → op_arg_key op ≠ lk_key lk).

Definition exec_ok : Prop :=
  let '(kv', r) := srv_exec kv (b_op b) in
  let e' := store kv' !! lk_key lk in
  entry_step (lk_id lk) e e' ∧ entry_pos e' ∧
  pc_ok lc (Some (MkBusy (b_op b) (b_call b) (b_retried b) (Executed r t))) e'.

Lemma entry_ok_pos : entry_pos e.
Proof using Hentry. intros en Hen. specialize (Hentry en Hen). lia. Qed.

Lemma exec_ok_get :
  lc_pc lc = PAcqGet ∨ lc_pc lc = PAcqCheck ∨ lc_pc lc = PRelCheck → exec_ok.
Proof using All.
  intros Hc. unfold exec_ok.
  assert (b_op b = OpGet (MkGetArgs (lk_key lk))) as ->.
  { unfold lock_next in Hop. destruct Hc as [Hc|[Hc|Hc]]; rewrite Hc in Hop; congruence. }
  cbn [srv_exec]. change (Get kv (MkGetArgs (lk_key lk))) with (get_rep e).
  split; [constructor|]. split; [apply entry_ok_pos|].
  unfold pc_ok in *. destruct Hc as [Hc|[Hc|Hc]]; rewrite Hc in *.
  - destruct Hpc as [Hheld _]. split; [done|]. apply answers_executed.
    eexists. split; [done|]. split; [apply read_ok_get_rep, entry_ok_pos|].
    intros H. rewrite (Hheld H). done.
  - destruct Hpc as [Hheld _]. split; [done|]. apply answers_executed.
    eexists. split; [done|]. apply read_ok_get_rep, entry_ok_pos.
  - destruct Hpc as (Hheld & Hwas & _). split_and!; [done|done|]. apply answers_executed.
    eexists. split; [done|]. destruct Hwas as [Hown|(w & u & He & Hlt & Hw)].
    + rewrite Hown. unfold owned. simpl. done.
    + rewrite He. simpl. split_and!; [done|done|]. intros _ v. congruence.
Qed.

Lemma exec_ok_make : lc_pc lc = PMake → exec_ok.
Proof using All.
  intros Hc. unfold exec_ok.
  assert (b_op b = OpPut (MkPutArgs (lk_key lk) "available" 0)) as ->.
  { unfold lock_next in Hop. rewrite Hc in Hop. congruence. }
  cbn [srv_exec]. pose proof (put_at kv (lk_key lk) "available" 0 Hentry) as Hput.
  destruct (Put kv _) as [kv' r]. unfold pc_ok in *. rewrite Hc in *.
  destruct Hput as [(H0 & -> & He')|(_ & -> & _)].
  - rewrite He'. destruct e as [en|] eqn:He; simpl in H0.
    { specialize (Hentry en eq_refl). lia. }
    split; [by apply es_make|]. split.
    + intros en [= <-]. simpl. lia.
    + unfold held_ok in *. destruct (lk_held lk); [done|]. intros v. congruence.
  - split; [constructor|]. split; [apply entry_ok_pos|done].
Qed.

Lemma exec_ok_user op : lc_pc lc = PUser op → exec_ok.
Proof using All.
  intros Hc. pose proof (Huser op Hc) as Hk. unfold exec_ok.
  assert (b_op b = op) as ->.
  { unfold lock_next in Hop. rewrite Hc in Hop. congruence. }
  unfold pc_ok in *. rewrite Hc in *. destruct op as [g|a]; cbn [srv_exec].
  - split; [constructor|]. split; [apply entry_ok_pos|done].
  - pose proof (put_other_key kv a (lk_key lk) ltac:(done)) as Hs.
    destruct (Put kv a) as [kv' r]. simpl in Hs. rewrite Hs.
    split; [constructor|]. split; [apply entry_ok_pos|done].
Qed.

Lemma exec_ok_acq w : lc_pc lc = PAcqPut w → exec_ok.
Proof using All.
  intros Hc. unfold exec_ok.
  assert (b_op b = OpPut (MkPutArgs (lk_key lk) (lk_id lk) w)) as ->.
  { unfold lock_next in Hop. rewrite Hc in Hop. congruence. }
  cbn [srv_exec]. pose proof (put_at kv (lk_key lk) (lk_id lk) w Hentry) as Hput.
  destruct (Put kv _) as [kv' r]. unfold pc_ok in *. rewrite Hc in *.
  destruct Hpc as (Hheld & (val & u & He & Hle & Hfree) & _).
  rewrite He in Hput. simpl in Hput. destruct Hput as [(-> & -> & ->)|(Hne & -> & ->)].
  - rewrite He, (Hfree eq_refl). split; [by constructor|]. split.
    + intros en [= <-]. simpl. specialize (Hentry _ He). simpl in Hentry. lia.
    + split_and!; [done| |].
      * do 2 eexists. split; [done|]. split; lia.
      * apply answers_executed. by eexists.
  - split; [rewrite He; constructor|]. split; [rewrite <-He; apply entry_ok_pos|].
    split_and!; [done|by exists val, u|]. apply answers_executed. eexists. by split.
Qed.

Lemma exec_ok_rel : lc_pc lc = PRelPut → exec_ok.
Proof using All.
  intros Hc. unfold exec_ok.
  assert (b_op b = OpPut (MkPutArgs (lk_key lk) "available" (lk_version lk))) as ->.
  { unfold lock_next in Hop. rewrite Hc in Hop. congruence. }
  cbn [srv_exec].
  pose proof (put_at kv (lk_key lk) "available" (lk_version lk) Hentry) as Hput.
  destruct (Put kv _) as [kv' r]. unfold pc_ok in *. rewrite Hc in *.
  destruct Hpc as (Hheld & Hwas & Hfirst & _).
  destruct Hput as [(Hv & -> & He')|(Hne & -> & ->)].
  - rewrite He'. destruct Hwas as [Hown|(w & u & He & Hlt & Hw)].
    + rewrite Hown. split; [by constructor|]. split.
      { intros en [= <-]. simpl. specialize (Hentry _ Hown). simpl in Hentry. lia. }
      split_and!; [done| |by intros [_ ?]|].
      * right. do 2 eexists. split_and!; [done|lia|done].
      * apply answers_executed. eexists. split; [done|]. left. split; [done|].
        intros v. congruence.
    + rewrite He in Hv. simpl in Hv. lia.
  - assert (¬ owned (lk_id lk) (lk_version lk) e) as Hno.
    { intros Hown. rewrite Hown in Hne. done. }
    assert (b_retried b = true) as Hret.
    { destruct (b_retried b) eqn:Hr; [done|]. destruct Hno. by apply Hfirst. }
    split; [constructor|]. split; [apply entry_ok_pos|].
    split_and!; [done|done|by intros [_ ?]|].
    apply answers_executed. eexists. split; [done|]. right. split; [|done].
    destruct Hwas as [?|(w & u & -> & _)]; done.
Qed.

Lemma pc_ok_exec : exec_ok.
Proof using All.
  case_eq (lc_pc lc).
  - apply exec_ok_make.
  - intros Hc. pose proof Hop as H. unfold lock_next in H. by rewrite Hc in H.
  - apply exec_ok_user.
  - intros Hc. apply exec_ok_get. auto.
  - apply exec_ok_acq.
  - intros Hc. apply exec_ok_get. auto.
  - apply exec_ok_rel.
  - intros Hc. apply exec_ok_get. auto.
Qed.
End Own.

(** ** A method's code between two calls *)

Lemma was_free_bound v e : entry_ok e → was_free v e → ver_succ v = v + 1.
Proof.
  intros He (w & u & -> & Hle & _). specialize (He _ eq_refl). simpl in He.
  apply ver_succ_small. lia.
Qed.

Lemma Acquire_read_ok lk e val ver err :
  (lk_held lk = true → owned (lk_id lk) (lk_version lk) e) →
  read_ok (lk_id lk) e (MkGetReply val ver err) →
  (lk_held lk = true → MkGetReply val ver err = MkGetReply (lk_id lk) (lk_version lk) OK) →
  pc_ok (Acquire_read lk val ver err) None e.
Proof.
  intros Hheld Hread Hrep. unfold Acquire_read.
  destruct (decide (err ≠ OK)) as [|Herr]; [split; [done|apply answers_none]|].
  apply dec_stable in Herr as ->. destruct (Hread eq_refl) as [Hown Hfree]. simpl in *.
  destruct (decide (val = lk_id lk)) as [Hid|Hid].
  { by apply Hown. }
  destruct (decide (val ≠ "available")) as [|Hav]; [split; [done|apply answers_none]|].
  apply dec_stable in Hav as ->. split_and!; [|by apply Hfree|apply answers_none].
  cbn [lc_lock]. destruct (lk_held lk); [|done]. exfalso. specialize (Hrep eq_refl). congruence.
Qed.

Lemma Acquire_checked_ok lk e val ver err :
  lk_held lk = false → read_ok (lk_id lk) e (MkGetReply val ver err) →
  pc_ok (Acquire_checked lk val ver err) None e.
Proof.
  intros Hheld Hread. unfold Acquire_checked. case_decide as Hd.
  - destruct Hd as [-> ->]. by apply (Hread eq_refl).
  - split; [by cbn [lc_lock]; rewrite Hheld|apply answers_none].
Qed.

Lemma Acquire_wrote_ok lk e w err :
  ver_succ w = w + 1 → lk_held lk = false → (err = OK → owned (lk_id lk) (w + 1) e) →
  pc_ok (Acquire_wrote lk w err) None e.
Proof.
  intros Hw Hheld Hown. unfold Acquire_wrote. case_decide.
  { unfold pc_ok, held_ok. simpl. rewrite Hw. by apply Hown. }
  case_decide; (split; [by cbn [lc_lock]; rewrite Hheld|apply answers_none]).
Qed.

Lemma Release_wrote_ok lk e err :
  lk_held lk = true → was_owned (lk_id lk) (lk_version lk) e →
  err = OK ∧ not_owner (lk_id lk) e ∨ err = ErrMaybe →
  pc_ok (Release_wrote lk err) None e.
Proof.
  intros Hheld Hwas [[-> Hno]| ->]; [done|]. split_and!; [done|done|apply answers_none].
Qed.

Lemma Release_checked_ok lk e val :
  lk_held lk = true →
  (val = lk_id lk → owned (lk_id lk) (lk_version lk) e) →
  (val ≠ lk_id lk → not_owner (lk_id lk) e) →
  pc_ok (Release_checked lk val OK) None e.
Proof.
  intros Hheld Hown Hno. unfold Release_checked. case_decide as Hd.
  { apply Hno, Hd. }
  assert (val = lk_id lk) as Hval by (apply dec_stable; naive_solver).
  split_and!; [done|left; auto|auto|apply answers_none].
Qed.

Lemma lock_resume_const lc res :
  lk_key (lc_lock (lock_resume lc res)) = lk_key (lc_lock lc) ∧
  lk_id (lc_lock (lock_resume lc res)) = lk_id (lc_lock lc).
Proof.
  destruct lc as [lk pc], res; unfold lock_resume; simpl; destruct pc; try done;
    unfold Acquire_read, Acquire_wrote, Acquire_checked, Release_wrote, Release_checked;
    repeat case_decide; done.
Qed.


Lemma pc_ok_return lc b e r t res :
  entry_ok e → pc_ok lc (Some b) e → b_net b = Executed r t →
  clerk_iter (b_retried b) (Some r) = Some res → pc_ok (lock_resume lc res) None e.
Proof.
  intros He Hpc Hnet Hres. destruct lc as [lk pc]. unfold pc_ok in Hpc. simpl in Hpc.
  destruct pc; unfold lock_resume; cbn [lc_pc lc_lock] in *.
  - by destruct res.
  - by destruct res.
  - done.
  - destruct Hpc as [Hheld Ha].
    destruct (Ha b r t eq_refl Hnet) as ([val ver err] & -> & Hread & Hrep).
    cbn in Hres. injection Hres as <-. by apply Acquire_read_ok.
  - destruct Hpc as (Hheld & Hfree & Ha).
    destruct (Ha b r t eq_refl Hnet) as ([err] & -> & Hown).
    cbn [clerk_iter put_iter pr_Err] in Hres. pose proof (was_free_bound _ _ He Hfree) as Hw.
    case_decide as Hd; injection Hres as <-; apply Acquire_wrote_ok; done.
  - destruct Hpc as [Hheld Ha].
    destruct (Ha b r t eq_refl Hnet) as ([val ver err] & -> & Hread).
    cbn in Hres. injection Hres as <-. by apply Acquire_checked_ok.
  - destruct Hpc as (Hheld & Hwas & _ & Ha).
    destruct (Ha b r t eq_refl Hnet) as ([err] & -> & Hcase).
    cbn [clerk_iter put_iter pr_Err] in *.
    destruct Hcase as [[-> Hno]|[-> Hret]].
    + rewrite decide_False in Hres by (by intros [? _]). injection Hres as <-.
      apply Release_wrote_ok; auto.
    + rewrite decide_True in Hres by done. injection Hres as <-.
      apply Release_wrote_ok; auto.
  - destruct Hpc as (Hheld & Hwas & Ha).
    destruct (Ha b r t eq_refl Hnet) as ([val ver err] & -> & Herr & Hown & Hno).
    simpl in Herr. subst err. cbn in Hres. injection Hres as <-.
    by apply Release_checked_ok.
Qed.

(** ** The invariant of the system *)

Section LockSystem.
Context (l : string) (ids : list string).
Context (Hnodup : NoDup ids) (Hids : Forall (λ id, id ≠ "available") ids).
Implicit Types s : Sys LockClient.

Definition client_ok s (c : nat) (cl : Client LockClient) : Prop :=
  let lc := c_prog cl in
  lk_key (lc_lock lc) = l ∧ ids !! c = Some (lk_id (lc_lock lc)) ∧
  (∀ op, lc_pc lc = PUser op → op_arg_key op ≠ l) ∧
  (∀ b, c_clerk cl = Some b → lock_next lc = Some (b_op b)) ∧
  pc_ok lc (c_clerk cl) (store (s_srv s) !! l).

Definition lock_inv s : Prop :=
  entry_pos (store (s_srv s) !! l) ∧
  ∀ c cl, s_clients s !! c = Some cl → client_ok s c cl.

Lemma entry_bound s :
  hist_inv s → lock_inv s → s_clock s < 2 ^ 64 - 1 → entry_ok (store (s_srv s) !! l).
Proof.
  intros Hh [Hpos _] Hclk en Hen. split; [by apply Hpos|].
  pose proof (vo_bound _ _ (hi_versions _ Hh) l) as Hb. unfold cur_version in Hb.
  rewrite Hen in Hb. simpl in Hb. pose proof (hi_len _ Hh). lia.
Qed.

Lemma id_available c id : ids !! c = Some id → id ≠ "available".
Proof using Hids. intros H. rewrite list.Forall_lookup in Hids. by eapply Hids. Qed.

(** Client [c] moves; the entry makes one of its steps. *)
Lemma lock_inv_step s s' c cl cl' :
  lock_inv s → s_clients s !! c = Some cl → s_clients s' = <[c := cl']> (s_clients s) →
  entry_step (lk_id (lc_lock (c_prog cl))) (store (s_srv s) !! l) (store (s_srv s') !! l) →
  entry_pos (store (s_srv s') !! l) → client_ok s' c cl' → lock_inv s'.
Proof using Hnodup Hids.
  intros [_ Hcl] Hc Hs Hstep Hpos Hok. split; [done|].
  intros c' cl0. rewrite Hs. intros [[-> ->]|[Hne Hc']]%client_upd; [done|].
  destruct (Hcl c' cl0 Hc') as (Hk & Hid & Hu & Hb & Hpc).
  destruct (Hcl c cl Hc) as (_ & Hidc & _). split_and!; try done.
  eapply pc_ok_frame; [|by eapply id_available|exact Hstep|done].
  intros Heq. apply Hne. rewrite Heq in Hid. by eapply NoDup_lookup.
Qed.

Lemma lock_inv_init : lock_inv (init_sys (lock_progs l ids)).
Proof.
  split; [by intros en; simpl; rewrite lookup_empty|].
  intros c cl. simpl. unfold lock_progs. rewrite <-list_fmap_compose, list_lookup_fmap.
  intros (id & Hid & ->)%fmap_Some. by split_and!.
Qed.

Lemma local_ok s s' c lc lc' :
  client_ok s c (MkClient lc None) → lock_local lc lc' → s_srv s' = s_srv s →
  client_ok s' c (MkClient lc' None).
Proof.
  intros (Hk & Hid & Hu & _ & Hpc) Hloc Hs. simpl in *. unfold client_ok. rewrite Hs.
  destruct Hloc as [lk|lk|lk op Hop]; simpl in *; unfold pc_ok, held_ok in Hpc;
    cbn [lc_pc lc_lock] in Hpc.
  - split_and!; try done. split; [|apply answers_none].
    unfold enter_Acquire. cbn [lc_lock]. intros Hh. by rewrite Hh in Hpc.
  - unfold enter_Release. destruct (lk_held lk) eqn:Hh; simpl.
    + split_and!; try done. split_and!; [done|by left|done|apply answers_none].
    + split_and!; try done. unfold pc_ok, held_ok. simpl. by rewrite Hh.
  - split_and!; try done. intros op' [= <-]. congruence.
Qed.

(** The lock's key alone: its clients [Put] it only at versions it has had. *)
Abbreviation lock_late := (late_inv (λ k, k = l)).

Lemma lock_puts_due s : lock_inv s → s_clock s < 2 ^ 63 → puts_due (λ k, k = l) s.
Proof.
  intros [Hpos Hcl] Hclk c [lk pc] a Hc Hop Hk. destruct (Hcl c _ Hc) as (Hlk & _ & Hu & _ & Hpc).
  cbn in *. rewrite Hk. unfold cur_version.
  unfold lock_next in Hop. unfold pc_ok in Hpc. cbn [lc_pc lc_lock] in *.
  destruct pc as [| |op| |v| | |]; try done; injection Hop as Hop.
  - subst a. cbn in *. destruct (store (s_srv s) !! l) as [en|]; cbn; [|done].
    specialize (Hpos _ eq_refl). lia.
  - destruct (Hu op eq_refl). by rewrite Hop.
  - subst a. cbn in *. destruct Hpc as (_ & (w & u & -> & Hle & _) & _). cbn. lia.
  - subst a. cbn in *. destruct Hpc as (_ & [Hown|(w & u & -> & Hlt & _)] & _); cbn; [|lia].
    unfold owned in Hown. rewrite Hown. cbn. lia.
Qed.

(** The answer of a call is forgotten. *)
Lemma pc_ok_again lc b e op call :
  pc_ok lc (Some b) e → pc_ok lc (Some (MkBusy op call true InFlight)) e.
Proof.
  assert (∀ Q, answers (Some (MkBusy op call true InFlight)) Q) as Ha by (by intros Q b' r t [= <-] ?).
  unfold pc_ok. destruct (lc_pc lc); naive_solver.
Qed.

(** The handler runs what the call of client [c] is waiting for. *)
Lemma lock_exec_ok s c p b t :
  inv s → lock_inv s → s_clock s < 2 ^ 64 - 1 → s_clients s !! c = Some (MkClient p (Some b)) →
  b_net b = InFlight →
  let r := srv_exec (s_srv s) (b_op b) in
  entry_step (lk_id (lc_lock p)) (store (s_srv s) !! l) (store r.1 !! l) ∧
  entry_pos (store r.1 !! l) ∧
  pc_ok p (Some (MkBusy (b_op b) (b_call b) (b_retried b) (Executed r.2 t))) (store r.1 !! l).
Proof using Hids.
  intros [Hh _] Hl Hclk Hc Hnet. pose proof (entry_bound s Hh Hl Hclk) as He.
  destruct (proj2 Hl c _ Hc) as (Hk & Hid & Hu & Hb & Hpc). simpl in *. rewrite <-Hk in He, Hpc, Hu.
  pose proof (pc_ok_exec p b (s_srv s) t (id_available _ _ Hid) He Hpc Hnet (Hb b eq_refl) Hu) as Hex.
  unfold exec_ok in Hex. rewrite Hk in Hex. by destruct (srv_exec (s_srv s) (b_op b)).
Qed.

(** A request left running touches other keys only, or has lost its effect, or does
    in place of its call what that would do now. *)
Lemma lock_inv_late s q l1 l2 :
  inv s → lock_inv s → lock_late s → s_clock s < 2 ^ 64 - 1 → s_late s = l1 ++ q :: l2 →
  lock_inv (do_late s q (l1 ++ l2)).
Proof using Hnodup Hids.
  intros Hi Hl Hlt Hclk Hq. destruct (do_late_view s q (l1 ++ l2)) as (F1 & F2 & _).
  pose proof Hl as [Hpos Hcl].
  assert (store (srv_exec (s_srv s) (lr_op q)).1 !! l = store (s_srv s) !! l ∨ in_flight_again s q)
    as [Hsame|Hag].
  { destruct (decide (op_arg_key (lr_op q) = l)) as [Hk|Hk].
    - destruct (late_effect _ s q l1 l2 Hlt Hq Hk) as [->|?]; [by left|by right].
    - left. destruct (lr_op q) as [g|a]; [done|]. cbn in *.
      pose proof (put_other_key (s_srv s) a l ltac:(done)). by destruct (Put (s_srv s) a). }
  - unfold lock_inv, client_ok. by rewrite F1, F2, Hsame.
  - destruct (again_client s q Hag) as (p & b & Hc & Hop & Hnet & Hret).
    pose proof (lock_exec_ok s _ p b 0 Hi Hl Hclk Hc Hnet) as (Hes & Hp & Hpc). rewrite Hop in Hes, Hp, Hpc.
    destruct (Hcl _ _ Hc) as (Hk & Hid & Hu & Hb & _).
    apply (lock_inv_step s _ (lr_cid q) (MkClient p (Some b)) (MkClient p (Some b))); try done.
    + by rewrite F2, list_insert_id.
    + by rewrite F1.
    + by rewrite F1.
    + split_and!; try done. rewrite F1. cbn.
      replace b with (MkBusy (lr_op q) (b_call b) true InFlight); [by eapply pc_ok_again|].
      destruct b. cbn in *. by subst.
Qed.

Lemma lock_inv_preserved s s' :
  inv s → lock_inv s → lock_late s → step s s' → s_clock s < 2 ^ 64 - 1 → lock_inv s'.
Proof using Hnodup Hids.
  intros Hi Hl Hlt Hstep Hclk. pose proof (entry_bound s (proj1 Hi) Hl Hclk) as He.
  pose proof Hl as [Hpos Hcl].
  destruct Hstep as [c p p' Hc Hloc|c p op Hc Hop|c p b Hc Hnet|c p b left Hc|
    c p b r t res Hc Hnet Hres|q l1 l2 Hq]; [pose proof (Hcl c _ Hc) as Hok..|by apply lock_inv_late].
  - eapply lock_inv_step; [done|done|done|constructor|done|]. by eapply local_ok.
  - eapply lock_inv_step; [done|done|done|constructor|done|].
    destruct Hok as (Hk & Hid & Hu & _ & Hpc). split_and!; try done.
    + intros b [= <-]. done.
    + simpl in *. unfold pc_ok in *.
      assert (∀ Q, answers (Some (MkBusy op (s_clock s) false InFlight)) Q) as Ha
        by (by intros Q b r t [= <-] ?).
      destruct (lc_pc p); naive_solver.
  - pose proof (lock_exec_ok s c p b (s_clock s) Hi Hl Hclk Hc Hnet) as (Hes & Hp & Hpc).
    destruct (do_exec_view s c p b) as (E1 & E2 & _). destruct Hok as (Hk & Hid & Hu & Hb & _).
    eapply lock_inv_step; [done|done|exact E2|by rewrite E1|by rewrite E1|]. rewrite <-E1 in Hpc.
    split_and!; try done. intros b' [= <-]. simpl. by apply Hb.
  - eapply lock_inv_step; [done|done|done|constructor|done|].
    destruct Hok as (Hk & Hid & Hu & Hb & Hpc). split_and!; try done.
    + intros b' [= <-]. simpl. by apply Hb.
    + simpl in *. by eapply pc_ok_again.
  - eapply lock_inv_step; [done|done|done|constructor|done|].
    destruct Hok as (Hk & Hid & Hu & Hb & Hpc). simpl in *.
    destruct (lock_resume_const p res) as [Hk' Hid']. split_and!; simpl.
    + congruence.
    + congruence.
    + destruct p as [lk pc]. unfold lock_resume. destruct pc, res; simpl in *; try done;
        try (by intros op'; apply Hu); unfold Acquire_read, Acquire_wrote,
        Acquire_checked, Release_wrote, Release_checked; repeat case_decide; done.
    + done.
    + by eapply pc_ok_return.
Qed.

Lemma lock_reachable_inv s :
  reachable (lock_progs l ids) s → s_clock s < 2 ^ 63 → lock_inv s.
Proof using Hnodup Hids.
  intros Hr Hclk. cut (lock_inv s ∧ lock_late s); [by intros []|]. revert s Hr Hclk.
  refine (rtc_ind_r (λ s, s_clock s < 2 ^ 63 → lock_inv s ∧ lock_late s) _ _ _).
  - intros _. split; [apply lock_inv_init|apply late_inv_init].
  - intros s1 s2 Hr Hstep IH Hclk. rewrite (step_clock _ _ Hstep) in Hclk.
    destruct (IH ltac:(lia)) as [Hl Hlt]. split.
    + eapply lock_inv_preserved; [|done|done|done|lia]. eapply reachable_inv; [done|lia].
    + apply (late_inv_step _ s1); [done|lia|by apply lock_puts_due; [|lia]|done].
Qed.
End LockSystem.

(** ** The properties *)

Definition random_ids (draws : list (list Z)) : list string := RandValue <$> draws.

Lemma random_ids_not_available draws :
  Forall (λ d, length d = 16%nat) draws → Forall (λ id, id ≠ "available") (random_ids draws).
Proof.
  rewrite !list.Forall_forall. intros H id (d & -> & Hd%H)%list_elem_of_fmap Heq. pose proof (RandValue_length d) as Hl.
  rewrite Heq, Hd in Hl. done.
Qed.

Lemma lock_inv_at l ids s c lc ob :
  lock_inv l ids s → s_clients s !! c = Some (MkClient lc ob) → client_ok l ids s c (MkClient lc ob).
Proof. intros [_ H] Hc. by apply H. Qed.

Lemma in_cs_owned l ids s c lc ob :
  client_ok l ids s c (MkClient lc ob) → in_cs lc →
  owned (lk_id (lc_lock lc)) (lk_version (lc_lock lc)) (store (s_srv s) !! l).
Proof.
  intros (_ & _ & _ & _ & Hpc) [Hheld Hrel]. simpl in Hpc. unfold pc_ok, held_ok in Hpc.
  rewrite Hheld in Hpc. destruct (lc_pc lc); try done; destruct Hpc; auto; done.
Qed.

Lemma lock_exclusion l draws (s : Sys LockClient) c1 c2 lc1 lc2 ob1 ob2 :
  NoDup (random_ids draws) → Forall (λ d, length d = 16%nat) draws →
  reachable (lock_progs l (random_ids draws)) s → s_clock s < 2 ^ 63 →
  s_clients s !! c1 = Some (MkClient lc1 ob1) → s_clients s !! c2 = Some (MkClient lc2 ob2) →
  in_cs lc1 → in_cs lc2 → c1 = c2.
Proof.
  intros Hnd Hlen Hr Hclk H1 H2 Hcs1 Hcs2.
  pose proof (lock_reachable_inv l _ Hnd (random_ids_not_available _ Hlen) s Hr Hclk)
    as Hinv.
  pose proof (lock_inv_at _ _ _ _ _ _ Hinv H1) as Hok1.
  pose proof (lock_inv_at _ _ _ _ _ _ Hinv H2) as Hok2.
  pose proof (in_cs_owned _ _ _ _ _ _ Hok1 Hcs1) as Ho1.
  pose proof (in_cs_owned _ _ _ _ _ _ Hok2 Hcs2) as Ho2.
  destruct Hok1 as (_ & Hid1 & _), Hok2 as (_ & Hid2 & _). simpl in *.
  unfold owned in *. assert (lk_id (lc_lock lc1) = lk_id (lc_lock lc2)) as Heq by congruence.
  rewrite Heq in Hid1. by eapply NoDup_lookup.
Qed.

(** C12: mutual exclusion.  However many clients contend for the lock, whatever
    the network loses, whichever requests it runs after the clerk has given up on
    them, and whatever the clients do with other keys, at any time
    at most one of them is past [Acquire] and not yet in [Release], provided
    their random 16-letter identifiers differ. *)
Theorem lock_mutual_exclusion l draws (s : Sys LockClient) c1 c2 lc1 lc2 ob1 ob2 :
  NoDup (random_ids draws) → Forall (λ d, length d = 16%nat) draws →
  reachable (lock_progs l (random_ids draws)) s → s_clock s < 2 ^ 63 →
  s_clients s !! c1 = Some (MkClient lc1 ob1) → s_clients s !! c2 = Some (MkClient lc2 ob2) →
  in_cs lc1 → in_cs lc2 → c1 = c2.
Proof. apply lock_exclusion. Qed.

(** A run in which client 0 acquires the lock, the first request of its acquiring
    [Put] left running until the clerk has returned and the next losing its reply,
    and client 1 keeps reading. *)
Definition demo_draws : list (list Z) := [replicate 16 7; replicate 16 60].
Definition lock_demo1 : Sys LockClient := Eval vm_compute in
  let s := init_sys (lock_progs "l" (random_ids demo_draws)) in
  default s (run_moves s [MInvoke 0; MExec 0; MReturn 0; MInvoke 1; MExec 1; MReturn 1]).
Definition lock_demo2 : Sys LockClient := Eval vm_compute in
  match s_clients lock_demo1 !! 0%nat with
  | Some cl => do_local lock_demo1 0 (enter_Acquire (lc_lock (c_prog cl)))
  | None => lock_demo1
  end.
Definition lock_demo3 : Sys LockClient := Eval vm_compute in
  default lock_demo2 (run_moves lock_demo2
    [MInvoke 0; MExec 0; MReturn 0; MInvoke 0; MLeave 0; MExec 0; MFail 0; MExec 0; MReturn 0;
     MLate 0; MInvoke 0; MExec 0; MReturn 0]).

(** ... and then releases it, again losing a reply. *)
Definition lock_demo4 : Sys LockClient := Eval vm_compute in
  match s_clients lock_demo3 !! 0%nat with
  | Some cl => do_local lock_demo3 0 (enter_Release (lc_lock (c_prog cl)))
  | None => lock_demo3
  end.
Definition lock_demo5 : Sys LockClient := Eval vm_compute in
  default lock_demo4 (run_moves lock_demo4 [MInvoke 0; MExec 0; MFail 0; MExec 0]).

Lemma lock_demo3_reachable : reachable (lock_progs "l" (random_ids demo_draws)) lock_demo3.
Proof.
  unfold reachable. transitivity lock_demo1.
  { apply (run_moves_steps _ [MInvoke 0; MExec 0; MReturn 0; MInvoke 1; MExec 1; MReturn 1]).
    vm_compute. reflexivity. }
  transitivity lock_demo2.
  { apply rtc_once. eapply (step_local lock_demo1 0); [reflexivity|apply local_acquire]. }
  apply (run_moves_steps _ [MInvoke 0; MExec 0; MReturn 0; MInvoke 0; MLeave 0; MExec 0; MFail 0;
    MExec 0; MReturn 0; MLate 0; MInvoke 0; MExec 0; MReturn 0]).
  vm_compute. reflexivity.
Qed.

Lemma lock_demo5_reachable : reachable (lock_progs "l" (random_ids demo_draws)) lock_demo5.
Proof.
  unfold reachable. etransitivity; [exact lock_demo3_reachable|].
  transitivity lock_demo4.
  { apply rtc_once.
    eapply (step_local lock_demo3 0 (MkLC (MkLock "l" true 2 (RandValue (replicate 16 7))) PIdle));
      [reflexivity|apply local_release]. }
  apply (run_moves_steps _ [MInvoke 0; MExec 0; MFail 0; MExec 0]). vm_compute. reflexivity.
Qed.

Lemma demo_ids_distinct : NoDup (random_ids demo_draws).
Proof. apply (bool_decide_unpack _). vm_compute. exact I. Qed.

Lemma demo_draws_length : Forall (λ d : list Z, length d = 16%nat) demo_draws.
Proof. repeat constructor. Qed.

Lemma lock_mutual_exclusion_witness :
  0%nat = 0%nat ∧ ∃ lc, s_clients lock_demo3 !! 0%nat = Some (MkClient lc None) ∧ in_cs lc.
Proof.
  split; [|by eexists].
  eapply (lock_mutual_exclusion "l" demo_draws lock_demo3);
    [exact demo_ids_distinct|exact demo_draws_length|exact lock_demo3_reachable|
     reflexivity|reflexivity|reflexivity|by split|by split].
Defined.

(** C17: [held] tells the truth.  A client that is between calls has its [held]
    flag set exactly when the lock's key holds its identifier, then at the
    version it remembers: [Acquire] returns only with the lock, and [Release]
    only once the lock is given up. *)
Theorem lock_held_iff_owner l draws (s : Sys LockClient) c lk :
  NoDup (random_ids draws) → Forall (λ d, length d = 16%nat) draws →
  reachable (lock_progs l (random_ids draws)) s → s_clock s < 2 ^ 63 →
  s_clients s !! c = Some (MkClient (MkLC lk PIdle) None) →
  if lk_held lk then store (s_srv s) !! l = Some (MkEntry (lk_id lk) (lk_version lk))
  else cur_value (s_srv s) l ≠ lk_id lk ∨ store (s_srv s) !! l = None.
Proof.
  intros Hnd Hlen Hr Hclk Hc.
  pose proof (lock_reachable_inv l _ Hnd (random_ids_not_available _ Hlen) s Hr Hclk)
    as Hinv.
  destruct (lock_inv_at _ _ _ _ _ _ Hinv Hc) as (_ & _ & _ & _ & Hpc).
  unfold pc_ok, held_ok in Hpc. cbn [c_prog c_clerk lc_pc lc_lock] in Hpc.
  destruct (lk_held lk); [done|]. unfold cur_value.
  destruct (store (s_srv s) !! l) as [[w u]|]; [left|by right].
  simpl. intros ->. by apply (Hpc u).
Qed.

Lemma lock_held_iff_owner_witness :
  store (s_srv lock_demo3) !! "l" = Some (MkEntry (RandValue (replicate 16 7)) 2).
Proof.
  apply (lock_held_iff_owner "l" demo_draws lock_demo3 0
    (MkLock "l" true 2 (RandValue (replicate 16 7))));
    [exact demo_ids_distinct|exact demo_draws_length|exact lock_demo3_reachable|
     reflexivity|reflexivity].
Defined.

(** C18: [Release] does not spin.  When the [Put] of [Release] is answered, the
    clerk never returns [ErrVersion] or [ErrNoKey], on which the loop would
    send the same stale [Put] forever: it returns [OK], and [Release] returns,
    or [ErrMaybe], and [Release] reads the key. *)
Theorem lock_release_progress l draws (s : Sys LockClient) c lk b r t res :
  NoDup (random_ids draws) → Forall (λ d, length d = 16%nat) draws →
  reachable (lock_progs l (random_ids draws)) s → s_clock s < 2 ^ 63 →
  s_clients s !! c = Some (MkClient (MkLC lk PRelPut) (Some b)) → b_net b = Executed r t →
  clerk_iter (b_retried b) (Some r) = Some res →
  (res = ResPut OK ∧ lock_resume (MkLC lk PRelPut) res = MkLC (clear_held lk) PIdle) ∨
  (res = ResPut ErrMaybe ∧ lock_resume (MkLC lk PRelPut) res = MkLC lk PRelCheck).
Proof.
  intros Hnd Hlen Hr Hclk Hc Hnet Hres.
  pose proof (lock_reachable_inv l _ Hnd (random_ids_not_available _ Hlen) s Hr Hclk)
    as Hinv.
  destruct (lock_inv_at _ _ _ _ _ _ Hinv Hc) as (_ & _ & _ & _ & Hpc).
  unfold pc_ok in Hpc. cbn [c_prog c_clerk lc_pc lc_lock] in Hpc.
  destruct Hpc as (_ & _ & _ & Ha).
  destruct (Ha b r t eq_refl Hnet) as ([err] & -> & Hcase).
  cbn [clerk_iter put_iter pr_Err] in *. destruct Hcase as [[-> _]|[-> Hret]].
  - rewrite decide_False in Hres by (by intros [? _]). injection Hres as <-. by left.
  - rewrite decide_True in Hres by done. injection Hres as <-. by right.
Qed.

Lemma lock_release_progress_witness :
  let lk := MkLock "l" true 2 (RandValue (replicate 16 7)) in
  (ResPut ErrMaybe = ResPut OK ∧
     lock_resume (MkLC lk PRelPut) (ResPut ErrMaybe) = MkLC (clear_held lk) PIdle) ∨
  (ResPut ErrMaybe = ResPut ErrMaybe ∧
     lock_resume (MkLC lk PRelPut) (ResPut ErrMaybe) = MkLC lk PRelCheck).
Proof.
  intros lk.
  eapply (lock_release_progress "l" demo_draws lock_demo5 0 lk);
    [exact demo_ids_distinct|exact demo_draws_length|exact lock_demo5_reachable|
     reflexivity|reflexivity|reflexivity|reflexivity].
Defined.
