(* ===== verification/Persister.v ===== *)
(** * Persistent storage

    [src/src/tester1/persister.go]: the bytes a Raft peer and its service save
    and read back after a crash.  Every method copies, so a caller that changes
    a slice it passed or received does not reach the saved bytes: values are
    enough here.  A read never returns nil. *)
From S2P Require Import Prelude.

(** A byte is a number below 256; a byte slice is a list of them. *)
Abbreviation bytes := (list Z).

Record Persister := MkPersister { ps_raftstate : bytes; ps_snapshot : bytes }.

Definition MakePersister : Persister := MkPersister [] [].

(** [make] and [copy]. *)
Definition clone (orig : bytes) : bytes := take (length orig) (orig ++ replicate (length orig) 0).

Lemma clone_id (b : bytes) : clone b = b.
Proof. unfold clone. by rewrite take_app_length. Qed.

Definition ReadRaftState (ps : Persister) : bytes := clone (ps_raftstate ps).
Definition RaftStateSize (ps : Persister) : Z := len (ps_raftstate ps).
Definition ReadSnapshot (ps : Persister) : bytes := clone (ps_snapshot ps).
Definition SnapshotSize (ps : Persister) : Z := len (ps_snapshot ps).

Definition Save (ps : Persister) (raftstate snapshot : bytes) : Persister :=
  MkPersister (clone raftstate) (clone snapshot).

Definition Checkpoint (ps : Persister) : Persister :=
  MkPersister (clone (ps_raftstate ps)) (clone (ps_snapshot ps)).

Lemma Checkpoint_id ps : Checkpoint ps = ps.
Proof. destruct ps. unfold Checkpoint. simpl. by rewrite !clone_id. Qed.

Lemma ReadRaftState_Save ps rs sn : ReadRaftState (Save ps rs sn) = rs.
Proof. unfold ReadRaftState, Save. simpl. by rewrite !clone_id. Qed.

Lemma ReadSnapshot_Save ps rs sn : ReadSnapshot (Save ps rs sn) = sn.
Proof. unfold ReadSnapshot, Save. simpl. by rewrite !clone_id. Qed.

Lemma Save_id ps rs sn : Save ps rs sn = MkPersister rs sn.
Proof. unfold Save. by rewrite !clone_id. Qed.

Create Rewrite HintDb persister.
#[export] Hint Rewrite clone_id Checkpoint_id ReadRaftState_Save ReadSnapshot_Save : persister.
