(* ===== verification/Raft.v ===== *)
(** * A Raft peer

    [src/src/raft1/raft.go]: the state of one peer, its RPC handlers, the reply
    halves of its outgoing calls, the election timer, the apply goroutine, and
    [Make].  Every function below runs under [rf.mu] from its first to its last
    statement, so it is one atomic function of the peer.  [None] is an index or
    slice bound out of range.  The time and the random draw of a call are
    arguments, in nanoseconds. *)
From S2P Require Import Prelude Persister.

Inductive Role := Follower | Candidate | Leader.

#[export] Instance Role_eq_dec : EqDecision Role.
Proof. solve_decision. Defined.

(** The sentinel at offset 0 has a nil command. *)
Record LogEntry (Cmd : Type) := MkLogEntry { le_Term : Z; le_Command : option Cmd }.
Arguments MkLogEntry {Cmd}.
Arguments le_Term {Cmd}.
Arguments le_Command {Cmd}.

#[export] Instance LogEntry_eq_dec {Cmd} `{!EqDecision Cmd} : EqDecision (LogEntry Cmd).
Proof. solve_decision. Defined.

(** ** Messages *)

Record RequestVoteArgs := MkRVArgs {
  rv_Term : Z;
  rv_CandidateId : Z;
  rv_LastLogIndex : Z;
  rv_LastLogTerm : Z;
}.

Record RequestVoteReply := MkRVReply { rvr_Term : Z; rvr_VoteGranted : bool }.

Record AppendEntriesArgs (Cmd : Type) := MkAEArgs {
  ae_Term : Z;
  ae_LeaderId : Z;
  ae_PrevLogIndex : Z;
  ae_PrevLogTerm : Z;
  ae_Entries : list (LogEntry Cmd);
  ae_LeaderCommit : Z;
}.
Arguments MkAEArgs {Cmd}.
Arguments ae_Term {Cmd}.
Arguments ae_LeaderId {Cmd}.
Arguments ae_PrevLogIndex {Cmd}.
Arguments ae_PrevLogTerm {Cmd}.
Arguments ae_Entries {Cmd}.
Arguments ae_LeaderCommit {Cmd}.

Record AppendEntriesReply := MkAEReply {
  aer_Term : Z;
  aer_Success : bool;
  aer_ConflictTerm : Z;
  aer_ConflictIndex : Z;
  aer_XLen : Z;
}.

(** [Data] is nil when an empty slice went through the encoder. *)
Record InstallSnapshotArgs := MkISArgs {
  is_Term : Z;
  is_LeaderId : Z;
  is_LastIncludedIndex : Z;
  is_LastIncludedTerm : Z;
  is_Data : option bytes;
}.

Record InstallSnapshotReply := MkISReply { isr_Term : Z }.

(** [raftapi.ApplyMsg]: exactly one of [CommandValid] and [SnapshotValid]. *)
Inductive ApplyMsg (Cmd : Type) :=
| CommandMsg (Command : option Cmd) (CommandIndex : Z)
| SnapshotMsg (Snapshot : bytes) (SnapshotIndex SnapshotTerm : Z).
Arguments CommandMsg {Cmd}.
Arguments SnapshotMsg {Cmd}.

(** ** The peer

    Goroutines a handler started that have not run yet. *)
Inductive Goroutine :=
| GoBroadcast
| GoReplicate (peer : Z)
| GoRequestVote (peer : Z) (args : RequestVoteArgs).

(** Where the apply goroutine is: at the top of its loop, waiting on
    [applyCond], sending [msg] with the lock released, past the send and about
    to take the lock again, or gone.  [k] is the index the loop will record. *)
Inductive ApplierPc (Cmd : Type) :=
| ApTop
| ApWait
| ApSend (msg : ApplyMsg Cmd) (k : Z)
| ApSent (k : Z)
| ApDone.
Arguments ApTop {Cmd}.
Arguments ApWait {Cmd}.
Arguments ApSend {Cmd}.
Arguments ApSent {Cmd}.
Arguments ApDone {Cmd}.

(** [peers] is only used for its length; [votes] is the counter that the
    goroutines of the latest election share. *)
Record Raft (Cmd : Type) := MkRaft {
  me : Z;
  npeers : Z;
  persister : Persister;
  dead : bool;
  currentTerm : Z;
  votedFor : Z;
  log : list (LogEntry Cmd);
  lastIncludedIndex : Z;
  lastIncludedTerm : Z;
  commitIndex : Z;
  lastApplied : Z;
  nextIndex : list Z;
  matchIndex : list Z;
  role : Role;
  lastHeardAt : Z;
  electionReset : Z;
  pendingSnapshot : option bytes;
  pendingSnapshotIndex : Z;
  pendingSnapshotTerm : Z;
  votes : Z;
  applier_pc : ApplierPc Cmd;
  started : list Goroutine;
}.
Arguments MkRaft {Cmd}.
Arguments me {Cmd}.
Arguments npeers {Cmd}.
Arguments persister {Cmd}.
Arguments dead {Cmd}.
Arguments currentTerm {Cmd}.
Arguments votedFor {Cmd}.
Arguments log {Cmd}.
Arguments lastIncludedIndex {Cmd}.
Arguments lastIncludedTerm {Cmd}.
Arguments commitIndex {Cmd}.
Arguments lastApplied {Cmd}.
Arguments nextIndex {Cmd}.
Arguments matchIndex {Cmd}.
Arguments role {Cmd}.
Arguments lastHeardAt {Cmd}.
Arguments electionReset {Cmd}.
Arguments pendingSnapshot {Cmd}.
Arguments pendingSnapshotIndex {Cmd}.
Arguments pendingSnapshotTerm {Cmd}.
Arguments votes {Cmd}.
Arguments applier_pc {Cmd}.
Arguments started {Cmd}.

(** Assignments to single fields. *)
Section Setters.
Context {Cmd : Type}.
Implicit Types rf : Raft Cmd.

Definition set_persister (v : Persister) rf : Raft Cmd :=
  MkRaft (me rf) (npeers rf) v (dead rf) (currentTerm rf) (votedFor rf) (log rf)
    (lastIncludedIndex rf) (lastIncludedTerm rf) (commitIndex rf) (lastApplied rf)
    (nextIndex rf) (matchIndex rf) (role rf) (lastHeardAt rf) (electionReset rf)
    (pendingSnapshot rf) (pendingSnapshotIndex rf) (pendingSnapshotTerm rf) (votes rf)
    (applier_pc rf) (started rf).
Definition set_dead (v : bool) rf : Raft Cmd :=
  MkRaft (me rf) (npeers rf) (persister rf) v (currentTerm rf) (votedFor rf) (log rf)
    (lastIncludedIndex rf) (lastIncludedTerm rf) (commitIndex rf) (lastApplied rf)
    (nextIndex rf) (matchIndex rf) (role rf) (lastHeardAt rf) (electionReset rf)
    (pendingSnapshot rf) (pendingSnapshotIndex rf) (pendingSnapshotTerm rf) (votes rf)
    (applier_pc rf) (started rf).
Definition set_currentTerm (v : Z) rf : Raft Cmd :=
  MkRaft (me rf) (npeers rf) (persister rf) (dead rf) v (votedFor rf) (log rf)
    (lastIncludedIndex rf) (lastIncludedTerm rf) (commitIndex rf) (lastApplied rf)
    (nextIndex rf) (matchIndex rf) (role rf) (lastHeardAt rf) (electionReset rf)
    (pendingSnapshot rf) (pendingSnapshotIndex rf) (pendingSnapshotTerm rf) (votes rf)
    (applier_pc rf) (started rf).
Definition set_votedFor (v : Z) rf : Raft Cmd :=
  MkRaft (me rf) (npeers rf) (persister rf) (dead rf) (currentTerm rf) v (log rf)
    (lastIncludedIndex rf) (lastIncludedTerm rf) (commitIndex rf) (lastApplied rf)
    (nextIndex rf) (matchIndex rf) (role rf) (lastHeardAt rf) (electionReset rf)
    (pendingSnapshot rf) (pendingSnapshotIndex rf) (pendingSnapshotTerm rf) (votes rf)
    (applier_pc rf) (started rf).
Definition set_log (v : list (LogEntry Cmd)) rf : Raft Cmd :=
  MkRaft (me rf) (npeers rf) (persister rf) (dead rf) (currentTerm rf) (votedFor rf) v
    (lastIncludedIndex rf) (lastIncludedTerm rf) (commitIndex rf) (lastApplied rf)
    (nextIndex rf) (matchIndex rf) (role rf) (lastHeardAt rf) (electionReset rf)
    (pendingSnapshot rf) (pendingSnapshotIndex rf) (pendingSnapshotTerm rf) (votes rf)
    (applier_pc rf) (started rf).
Definition set_lastIncludedIndex (v : Z) rf : Raft Cmd :=
  MkRaft (me rf) (npeers rf) (persister rf) (dead rf) (currentTerm rf) (votedFor rf) (log rf) v
    (lastIncludedTerm rf) (commitIndex rf) (lastApplied rf) (nextIndex rf) (matchIndex rf)
    (role rf) (lastHeardAt rf) (electionReset rf) (pendingSnapshot rf)
    (pendingSnapshotIndex rf) (pendingSnapshotTerm rf) (votes rf) (applier_pc rf) (started rf).
Definition set_lastIncludedTerm (v : Z) rf : Raft Cmd :=
  MkRaft (me rf) (npeers rf) (persister rf) (dead rf) (currentTerm rf) (votedFor rf) (log rf)
    (lastIncludedIndex rf) v (commitIndex rf) (lastApplied rf) (nextIndex rf) (matchIndex rf)
    (role rf) (lastHeardAt rf) (electionReset rf) (pendingSnapshot rf)
    (pendingSnapshotIndex rf) (pendingSnapshotTerm rf) (votes rf) (applier_pc rf) (started rf).
Definition set_commitIndex (v : Z) rf : Raft Cmd :=
  MkRaft (me rf) (npeers rf) (persister rf) (dead rf) (currentTerm rf) (votedFor rf) (log rf)
    (lastIncludedIndex rf) (lastIncludedTerm rf) v (lastApplied rf) (nextIndex rf)
    (matchIndex rf) (role rf) (lastHeardAt rf) (electionReset rf) (pendingSnapshot rf)
    (pendingSnapshotIndex rf) (pendingSnapshotTerm rf) (votes rf) (applier_pc rf) (started rf).
Definition set_lastApplied (v : Z) rf : Raft Cmd :=
  MkRaft (me rf) (npeers rf) (persister rf) (dead rf) (currentTerm rf) (votedFor rf) (log rf)
    (lastIncludedIndex rf) (lastIncludedTerm rf) (commitIndex rf) v (nextIndex rf)
    (matchIndex rf) (role rf) (lastHeardAt rf) (electionReset rf) (pendingSnapshot rf)
    (pendingSnapshotIndex rf) (pendingSnapshotTerm rf) (votes rf) (applier_pc rf) (started rf).
Definition set_nextIndex (v : list Z) rf : Raft Cmd :=
  MkRaft (me rf) (npeers rf) (persister rf) (dead rf) (currentTerm rf) (votedFor rf) (log rf)
    (lastIncludedIndex rf) (lastIncludedTerm rf) (commitIndex rf) (lastApplied rf) v
    (matchIndex rf) (role rf) (lastHeardAt rf) (electionReset rf) (pendingSnapshot rf)
    (pendingSnapshotIndex rf) (pendingSnapshotTerm rf) (votes rf) (applier_pc rf) (started rf).
Definition set_matchIndex (v : list Z) rf : Raft Cmd :=
  MkRaft (me rf) (npeers rf) (persister rf) (dead rf) (currentTerm rf) (votedFor rf) (log rf)
    (lastIncludedIndex rf) (lastIncludedTerm rf) (commitIndex rf) (lastApplied rf)
    (nextIndex rf) v (role rf) (lastHeardAt rf) (electionReset rf) (pendingSnapshot rf)
    (pendingSnapshotIndex rf) (pendingSnapshotTerm rf) (votes rf) (applier_pc rf) (started rf).
Definition set_role (v : Role) rf : Raft Cmd :=
  MkRaft (me rf) (npeers rf) (persister rf) (dead rf) (currentTerm rf) (votedFor rf) (log rf)
    (lastIncludedIndex rf) (lastIncludedTerm rf) (commitIndex rf) (lastApplied rf)
    (nextIndex rf) (matchIndex rf) v (lastHeardAt rf) (electionReset rf) (pendingSnapshot rf)
    (pendingSnapshotIndex rf) (pendingSnapshotTerm rf) (votes rf) (applier_pc rf) (started rf).
Definition set_lastHeardAt (v : Z) rf : Raft Cmd :=
  MkRaft (me rf) (npeers rf) (persister rf) (dead rf) (currentTerm rf) (votedFor rf) (log rf)
    (lastIncludedIndex rf) (lastIncludedTerm rf) (commitIndex rf) (lastApplied rf)
    (nextIndex rf) (matchIndex rf) (role rf) v (electionReset rf) (pendingSnapshot rf)
    (pendingSnapshotIndex rf) (pendingSnapshotTerm rf) (votes rf) (applier_pc rf) (started rf).
Definition set_electionReset (v : Z) rf : Raft Cmd :=
  MkRaft (me rf) (npeers rf) (persister rf) (dead rf) (currentTerm rf) (votedFor rf) (log rf)
    (lastIncludedIndex rf) (lastIncludedTerm rf) (commitIndex rf) (lastApplied rf)
    (nextIndex rf) (matchIndex rf) (role rf) (lastHeardAt rf) v (pendingSnapshot rf)
    (pendingSnapshotIndex rf) (pendingSnapshotTerm rf) (votes rf) (applier_pc rf) (started rf).
Definition set_pendingSnapshot (v : option bytes) rf : Raft Cmd :=
  MkRaft (me rf) (npeers rf) (persister rf) (dead rf) (currentTerm rf) (votedFor rf) (log rf)
    (lastIncludedIndex rf) (lastIncludedTerm rf) (commitIndex rf) (lastApplied rf)
    (nextIndex rf) (matchIndex rf) (role rf) (lastHeardAt rf) (electionReset rf) v
    (pendingSnapshotIndex rf) (pendingSnapshotTerm rf) (votes rf) (applier_pc rf) (started rf).
Definition set_pendingSnapshotIndex (v : Z) rf : Raft Cmd :=
  MkRaft (me rf) (npeers rf) (persister rf) (dead rf) (currentTerm rf) (votedFor rf) (log rf)
    (lastIncludedIndex rf) (lastIncludedTerm rf) (commitIndex rf) (lastApplied rf)
    (nextIndex rf) (matchIndex rf) (role rf) (lastHeardAt rf) (electionReset rf)
    (pendingSnapshot rf) v (pendingSnapshotTerm rf) (votes rf) (applier_pc rf) (started rf).
Definition set_pendingSnapshotTerm (v : Z) rf : Raft Cmd :=
  MkRaft (me rf) (npeers rf) (persister rf) (dead rf) (currentTerm rf) (votedFor rf) (log rf)
    (lastIncludedIndex rf) (lastIncludedTerm rf) (commitIndex rf) (lastApplied rf)
    (nextIndex rf) (matchIndex rf) (role rf) (lastHeardAt rf) (electionReset rf)
    (pendingSnapshot rf) (pendingSnapshotIndex rf) v (votes rf) (applier_pc rf) (started rf).
Definition set_votes (v : Z) rf : Raft Cmd :=
  MkRaft (me rf) (npeers rf) (persister rf) (dead rf) (currentTerm rf) (votedFor rf) (log rf)
    (lastIncludedIndex rf) (lastIncludedTerm rf) (commitIndex rf) (lastApplied rf)
    (nextIndex rf) (matchIndex rf) (role rf) (lastHeardAt rf) (electionReset rf)
    (pendingSnapshot rf) (pendingSnapshotIndex rf) (pendingSnapshotTerm rf) v (applier_pc rf)
    (started rf).
Definition set_applier_pc (v : ApplierPc Cmd) rf : Raft Cmd :=
  MkRaft (me rf) (npeers rf) (persister rf) (dead rf) (currentTerm rf) (votedFor rf) (log rf)
    (lastIncludedIndex rf) (lastIncludedTerm rf) (commitIndex rf) (lastApplied rf)
    (nextIndex rf) (matchIndex rf) (role rf) (lastHeardAt rf) (electionReset rf)
    (pendingSnapshot rf) (pendingSnapshotIndex rf) (pendingSnapshotTerm rf) (votes rf) v
    (started rf).
Definition set_started (v : list Goroutine) rf : Raft Cmd :=
  MkRaft (me rf) (npeers rf) (persister rf) (dead rf) (currentTerm rf) (votedFor rf) (log rf)
    (lastIncludedIndex rf) (lastIncludedTerm rf) (commitIndex rf) (lastApplied rf)
    (nextIndex rf) (matchIndex rf) (role rf) (lastHeardAt rf) (electionReset rf)
    (pendingSnapshot rf) (pendingSnapshotIndex rf) (pendingSnapshotTerm rf) (votes rf)
    (applier_pc rf) v.
End Setters.

(** ** Encoding

    What the peer and its service use of [encoding/gob]: a stream of integers,
    logs and lists of commands.  The
    bytes are those of a fresh encoder after one [Encode] per value, and
    decoding yields the values of a stream up to the first one that does not
    decode. *)
Inductive GobVal (Cmd : Type) :=
| GobInt (z : Z)
| GobLog (l : list (LogEntry Cmd))
| GobCmds (l : list (option Cmd)).
Arguments GobInt {Cmd}.
Arguments GobLog {Cmd}.
Arguments GobCmds {Cmd}.

Class Gob (Cmd : Type) := {
  gob_encode : list (GobVal Cmd) → bytes;
  gob_decode : bytes → list (GobVal Cmd);
}.

Class GobLaws (Cmd : Type) `{!Gob Cmd} := {
  gob_roundtrip vs : gob_decode (gob_encode vs) = vs;
  gob_nonempty v vs : gob_encode (v :: vs) ≠ [];
}.

Section Raft.
Context {Cmd : Type} `{!Gob Cmd}.
Implicit Types rf : Raft Cmd.

(** ** State and log access *)

Definition GetState rf : Z * bool := (currentTerm rf, bool_decide (role rf = Leader)).

Definition lastLogIndex rf : Z := lastIncludedIndex rf + len (log rf) - 1.

Definition lastLogTerm rf : option Z := le_Term <$> go_index (log rf) (len (log rf) - 1).

Definition termAt rf (index : Z) : option Z :=
  le_Term <$> go_index (log rf) (index - lastIncludedIndex rf).

(** ** Persistence *)

Definition raftstate rf : bytes :=
  gob_encode [GobInt (currentTerm rf); GobInt (votedFor rf); GobLog (log rf);
              GobInt (lastIncludedIndex rf); GobInt (lastIncludedTerm rf)].

Definition persist rf : Raft Cmd :=
  set_persister (Save (persister rf) (raftstate rf) (ReadSnapshot (persister rf))) rf.

Definition persistWithSnapshot (snapshot : bytes) rf : Raft Cmd :=
  set_persister (Save (persister rf) (raftstate rf) snapshot) rf.

Definition readPersist (data : bytes) rf : Raft Cmd :=
  if decide (len data < 1) then rf
  else match gob_decode data with
       | GobInt term :: GobInt vote :: GobLog lg :: GobInt idx :: GobInt lterm :: _ =>
           set_lastApplied idx (set_commitIndex idx
             (set_lastIncludedTerm lterm (set_lastIncludedIndex idx
               (set_log lg (set_votedFor vote (set_currentTerm term rf))))))
       | _ => rf
       end.

Definition PersistBytes rf : Z := RaftStateSize (persister rf).

(** ** Condition variable *)

(** [applyCond.Signal] and [Broadcast] wake the apply goroutine if it waits. *)
Definition signal rf : Raft Cmd :=
  match applier_pc rf with
  | ApWait => set_applier_pc ApTop rf
  | _ => rf
  end.

Definition go rf (g : Goroutine) : Raft Cmd := set_started (started rf ++ [g]) rf.

(** ** Snapshot *)

(** The part of [rf.log] after [index], under a new sentinel. *)
Definition log_after rf (index : Z) (term : Z) : option (list (LogEntry Cmd)) :=
  rest ← go_from (log rf) (index - lastIncludedIndex rf + 1);
  Some (MkLogEntry term None :: rest).

Definition Snapshot (index : Z) (snapshot : bytes) rf : option (Raft Cmd) :=
  if decide (index <= lastIncludedIndex rf) then Some rf
  else if decide (index > lastLogIndex rf) then Some rf
  else
    newLastTerm ← termAt rf index;
    (* make([]LogEntry, 1, cap) panics when cap < 1 *)
    if decide (len (log rf) - (index - lastIncludedIndex rf) < 1) then None
    else
      newLog ← log_after rf index newLastTerm;
      Some (persistWithSnapshot snapshot
              (set_lastIncludedTerm newLastTerm (set_lastIncludedIndex index
                 (set_log newLog rf)))).

(** ** Role changes *)

Definition becomeFollower (term : Z) rf : Raft Cmd :=
  let rf := set_role Follower rf in
  if decide (term > currentTerm rf) then
    persist (set_votedFor (-1) (set_currentTerm term rf))
  else rf.

(** [for i := range rf.peers { a[i] = v }] *)
Definition set_all (l : list Z) (n : Z) (v : Z) : option (list Z) :=
  foldl (λ ol i, l ← ol; go_set l i v) (Some l) (seqZ 0 n).

Definition becomeLeader rf : option (Raft Cmd) :=
  let rf := set_role Leader rf in
  let last := lastLogIndex rf in
  next ← set_all (nextIndex rf) (npeers rf) (last + 1);
  mtch ← set_all (matchIndex rf) (npeers rf) 0;
  mtch ← go_set mtch (me rf) last;
  Some (go (set_matchIndex mtch (set_nextIndex next rf)) GoBroadcast).

(** ** RequestVote *)

(** [if args.Term > rf.currentTerm { rf.becomeFollower(args.Term) }] *)
Definition observe_term (term : Z) rf : Raft Cmd :=
  if decide (term > currentTerm rf) then becomeFollower term rf else rf.

Definition upToDate rf (args : RequestVoteArgs) : option bool :=
  myLastTerm ← lastLogTerm rf;
  Some (bool_decide (rv_LastLogTerm args > myLastTerm ∨
    (rv_LastLogTerm args = myLastTerm ∧ rv_LastLogIndex args >= lastLogIndex rf))).

Definition RequestVote (args : RequestVoteArgs) (now : Z) rf
    : option (Raft Cmd * RequestVoteReply) :=
  if decide (rv_Term args < currentTerm rf) then
    Some (rf, MkRVReply (currentTerm rf) false)
  else
    let rf := observe_term (rv_Term args) rf in
    ok ← upToDate rf args;
    if decide ((votedFor rf = -1 ∨ votedFor rf = rv_CandidateId args) ∧ ok = true) then
      Some (persist (set_lastHeardAt now (set_votedFor (rv_CandidateId args) rf)),
            MkRVReply (currentTerm rf) true)
    else Some (rf, MkRVReply (currentTerm rf) false).

(** ** AppendEntries *)

Definition follow_commit (leaderCommit : Z) rf : Raft Cmd :=
  if decide (leaderCommit > commitIndex rf) then
    let newCommit :=
      if decide (leaderCommit > lastLogIndex rf) then lastLogIndex rf else leaderCommit in
    if decide (newCommit > commitIndex rf) then signal (set_commitIndex newCommit rf) else rf
  else rf.

(** The first index of the conflicting term, going back from [idx]; [n] bounds
    the distance to the snapshot. *)
Fixpoint conflict_start rf (term : Z) (n : nat) (idx : Z) : option Z :=
  match n with
  | O => Some idx
  | S n =>
      if decide (idx > lastIncludedIndex rf) then
        t ← termAt rf (idx - 1);
        if decide (t = term) then conflict_start rf term n (idx - 1) else Some idx
      else Some idx
  end.

(** The merge loop from entry number [i] of the request on. *)
Fixpoint merge_entries (prev i : Z) (entries : list (LogEntry Cmd)) rf : option (Raft Cmd) :=
  match entries with
  | [] => Some rf
  | e :: rest =>
      let absIdx := prev + 1 + i in
      if decide (absIdx > lastLogIndex rf) then Some (set_log (log rf ++ entries) rf)
      else
        t ← termAt rf absIdx;
        if decide (t ≠ le_Term e) then
          kept ← go_to (log rf) (absIdx - lastIncludedIndex rf);
          Some (set_log (kept ++ entries) rf)
        else merge_entries prev (i + 1) rest rf
  end.

(** From [Reject if we don't have args.PrevLogIndex] on. *)
Definition ae_append (prev prevTerm : Z) (entries : list (LogEntry Cmd)) (leaderCommit xlen : Z)
    rf : option (Raft Cmd * AppendEntriesReply) :=
  if decide (prev > lastLogIndex rf) then
    Some (rf, MkAEReply (currentTerm rf) false (-1) (lastLogIndex rf + 1) xlen)
  else
    t ← termAt rf prev;
    if decide (t ≠ prevTerm) then
      idx ← conflict_start rf t (Z.to_nat (prev - lastIncludedIndex rf)) prev;
      Some (rf, MkAEReply (currentTerm rf) false t idx xlen)
    else
      rf ← merge_entries prev 0 entries rf;
      let rf := follow_commit leaderCommit (persist rf) in
      Some (rf, MkAEReply (currentTerm rf) true (-1) (-1) xlen).

Definition AppendEntries (args : AppendEntriesArgs Cmd) (now : Z) rf
    : option (Raft Cmd * AppendEntriesReply) :=
  let xlen := lastLogIndex rf + 1 in
  if decide (ae_Term args < currentTerm rf) then
    Some (rf, MkAEReply (currentTerm rf) false (-1) (-1) xlen)
  else
    let rf := observe_term (ae_Term args) rf in
    let rf := set_lastHeardAt now (set_role Follower rf) in
    if decide (ae_PrevLogIndex args < lastIncludedIndex rf) then
      let startAt := lastIncludedIndex rf - ae_PrevLogIndex args in
      if decide (startAt > len (ae_Entries args)) then
        let rf := follow_commit (ae_LeaderCommit args) rf in
        Some (rf, MkAEReply (currentTerm rf) true (-1) (-1) xlen)
      else
        entries ← go_from (ae_Entries args) startAt;
        ae_append (lastIncludedIndex rf) (lastIncludedTerm rf) entries
          (ae_LeaderCommit args) xlen rf
    else
      ae_append (ae_PrevLogIndex args) (ae_PrevLogTerm args) (ae_Entries args)
        (ae_LeaderCommit args) xlen rf.

(** ** InstallSnapshot *)

Definition snapshot_log (args : InstallSnapshotArgs) rf : option (list (LogEntry Cmd)) :=
  if decide (is_LastIncludedIndex args <= lastLogIndex rf) then
    t ← termAt rf (is_LastIncludedIndex args);
    if decide (t = is_LastIncludedTerm args) then
      log_after rf (is_LastIncludedIndex args) (is_LastIncludedTerm args)
    else Some [MkLogEntry (is_LastIncludedTerm args) None]
  else Some [MkLogEntry (is_LastIncludedTerm args) None].

Definition InstallSnapshot (args : InstallSnapshotArgs) (now : Z) rf
    : option (Raft Cmd * InstallSnapshotReply) :=
  if decide (is_Term args < currentTerm rf) then Some (rf, MkISReply (currentTerm rf))
  else
    let rf := observe_term (is_Term args) rf in
    let reply := MkISReply (currentTerm rf) in
    let rf := set_lastHeardAt now (set_role Follower rf) in
    let idx := is_LastIncludedIndex args in
    if decide (idx <= lastIncludedIndex rf) then Some (rf, reply)
    else
      newLog ← snapshot_log args rf;
      let rf := set_lastIncludedTerm (is_LastIncludedTerm args)
                  (set_lastIncludedIndex idx (set_log newLog rf)) in
      let rf := if decide (commitIndex rf < idx) then set_commitIndex idx rf else rf in
      let rf := if decide (lastApplied rf < idx) then set_lastApplied idx rf else rf in
      let rf := persistWithSnapshot (default [] (is_Data args)) rf in
      let rf := set_pendingSnapshotTerm (is_LastIncludedTerm args)
                  (set_pendingSnapshotIndex idx (set_pendingSnapshot (is_Data args) rf)) in
      Some (signal rf, reply).

(** ** Start *)

Definition Start (command : Cmd) rf : option (Raft Cmd * (Z * Z * bool)) :=
  if decide (role rf ≠ Leader) then Some (rf, (-1, currentTerm rf, false))
  else
    let rf := set_log (log rf ++ [MkLogEntry (currentTerm rf) (Some command)]) rf in
    let index := lastLogIndex rf in
    mtch ← go_set (matchIndex rf) (me rf) index;
    next ← go_set (nextIndex rf) (me rf) (index + 1);
    let rf := persist (set_nextIndex next (set_matchIndex mtch rf)) in
    Some (go rf GoBroadcast, (index, currentTerm rf, true)).

(** ** Elections *)

(** [draw] is [rand.Intn(300)]. *)
Definition resetElectionTimer (now draw : Z) rf : Raft Cmd :=
  set_electionReset ((400 + draw) * 1000000) (set_lastHeardAt now rf).

(** The peers but the caller, in the order of the loop. *)
Definition others rf : list Z := filter (λ i, i ≠ me rf) (seqZ 0 (npeers rf)).

Definition startElection (now draw : Z) rf : option (Raft Cmd) :=
  let rf := set_role Candidate rf in
  let rf := set_currentTerm (currentTerm rf + 1) rf in
  let rf := set_votedFor (me rf) rf in
  let rf := persist (resetElectionTimer now draw rf) in
  lastTerm ← lastLogTerm rf;
  let args := MkRVArgs (currentTerm rf) (me rf) (lastLogIndex rf) lastTerm in
  let rf := set_votes 1 rf in
  Some (foldl (λ rf peer, go rf (GoRequestVote peer args)) rf (others rf)).

(** One round of the ticker under the lock. *)
Definition tick (now draw : Z) rf : option (Raft Cmd) :=
  if decide (role rf ≠ Leader ∧ now - lastHeardAt rf >= electionReset rf) then
    startElection now draw rf
  else Some rf.

(** The vote goroutine after its call; [term] is the term it was started in. *)
Definition vote_reply (term : Z) (reply : RequestVoteReply) rf : option (Raft Cmd) :=
  if decide (currentTerm rf ≠ term ∨ role rf ≠ Candidate) then Some rf
  else if decide (rvr_Term reply > currentTerm rf) then
    Some (becomeFollower (rvr_Term reply) rf)
  else if rvr_VoteGranted reply then
    let rf := set_votes (votes rf + 1) rf in
    if decide (votes rf * 2 > npeers rf ∧ role rf = Candidate) then becomeLeader rf
    else Some rf
  else Some rf.

(** ** Replication *)

Inductive Request :=
| ReqVote (args : RequestVoteArgs)
| ReqAppend (args : AppendEntriesArgs Cmd)
| ReqInstall (args : InstallSnapshotArgs).

Definition broadcastAppendEntries rf : Raft Cmd :=
  if decide (role rf ≠ Leader) then rf
  else foldl (λ rf peer, go rf (GoReplicate peer)) rf (others rf).

(** One round of the heartbeat loop. *)
Definition heartbeat rf : Raft Cmd :=
  if bool_decide (role rf = Leader) then broadcastAppendEntries rf else rf.

(** [replicateTo] up to its call: the request it sends, if any. *)
Definition replicate_args (peer : Z) rf : option (option Request) :=
  if decide (role rf ≠ Leader) then Some None
  else
    next ← go_index (nextIndex rf) peer;
    if decide (next <= lastIncludedIndex rf) then
      Some (Some (ReqInstall (MkISArgs (currentTerm rf) (me rf) (lastIncludedIndex rf)
        (lastIncludedTerm rf) (Some (ReadSnapshot (persister rf))))))
    else
      let prevIdx := next - 1 in
      prevTerm ← termAt rf prevIdx;
      (* make([]LogEntry, n) panics for negative n *)
      if decide (len (log rf) - (next - lastIncludedIndex rf) < 0) then None
      else
        entries ← go_from (log rf) (next - lastIncludedIndex rf);
        Some (Some (ReqAppend (MkAEArgs (currentTerm rf) (me rf) prevIdx prevTerm entries
          (commitIndex rf)))).

(** [if v > a[i] { a[i] = v }] *)
Definition raise (l : list Z) (i v : Z) : option (list Z) :=
  x ← go_index l i; if decide (v > x) then go_set l i v else Some l.

Definition install_reply (peer : Z) (args : InstallSnapshotArgs)
    (reply : InstallSnapshotReply) rf : option (Raft Cmd) :=
  if decide (currentTerm rf ≠ is_Term args ∨ role rf ≠ Leader) then Some rf
  else if decide (isr_Term reply > currentTerm rf) then
    Some (becomeFollower (isr_Term reply) rf)
  else
    next ← raise (nextIndex rf) peer (is_LastIncludedIndex args + 1);
    mtch ← raise (matchIndex rf) peer (is_LastIncludedIndex args);
    Some (set_matchIndex mtch (set_nextIndex next rf)).

(** [count] after the loop over the peers in [advanceCommit]. *)
Definition count_acks rf (N : Z) : option Z :=
  foldl (λ oc i, c ← oc; m ← go_index (matchIndex rf) i;
                 Some (if decide (m >= N) then c + 1 else c)) (Some 1) (others rf).

(** The loop of [advanceCommit] from [N] down; [n] bounds its length. *)
Fixpoint advance_from (n : nat) (N : Z) rf : option (Raft Cmd) :=
  match n with
  | O => Some rf
  | S n =>
      if decide (N > commitIndex rf) then
        if decide (N <= lastIncludedIndex rf) then Some rf
        else
          t ← termAt rf N;
          if decide (t ≠ currentTerm rf) then advance_from n (N - 1) rf
          else
            count ← count_acks rf N;
            if decide (count * 2 > npeers rf) then Some (signal (set_commitIndex N rf))
            else advance_from n (N - 1) rf
      else Some rf
  end.

Definition advanceCommit rf : option (Raft Cmd) :=
  advance_from (Z.to_nat (lastLogIndex rf - commitIndex rf)) (lastLogIndex rf) rf.

(** [found]: the last index of [term] after the snapshot, from [i] down. *)
Fixpoint last_of_term (n : nat) (term i : Z) rf : option Z :=
  match n with
  | O => Some (-1)
  | S n =>
      if decide (i > lastIncludedIndex rf) then
        t ← termAt rf i;
        if decide (t = term) then Some i else last_of_term n term (i - 1) rf
      else Some (-1)
  end.

(** Where to go on after a rejected request. *)
Definition backup_next (reply : AppendEntriesReply) (next : Z) rf : option Z :=
  if decide (aer_ConflictTerm reply = -1) then
    Some (if decide (aer_ConflictIndex reply > 0) then aer_ConflictIndex reply
          else if decide (aer_XLen reply > 0) then aer_XLen reply else next)
  else
    found ← last_of_term (Z.to_nat (lastLogIndex rf - lastIncludedIndex rf))
              (aer_ConflictTerm reply) (lastLogIndex rf) rf;
    Some (if decide (found ≠ -1) then found + 1 else aer_ConflictIndex reply).

Definition append_reply (peer : Z) (args : AppendEntriesArgs Cmd)
    (reply : AppendEntriesReply) rf : option (Raft Cmd) :=
  if decide (currentTerm rf ≠ ae_Term args ∨ role rf ≠ Leader) then Some rf
  else if decide (aer_Term reply > currentTerm rf) then
    Some (becomeFollower (aer_Term reply) rf)
  else if aer_Success reply then
    let newMatch := ae_PrevLogIndex args + len (ae_Entries args) in
    mtch ← raise (matchIndex rf) peer newMatch;
    next ← raise (nextIndex rf) peer (newMatch + 1);
    advanceCommit (set_nextIndex next (set_matchIndex mtch rf))
  else
    next ← go_index (nextIndex rf) peer;
    next ← backup_next reply next rf;
    nexts ← go_set (nextIndex rf) peer (if decide (next < 1) then 1 else next);
    Some (go (set_nextIndex nexts rf) (GoReplicate peer)).

(** ** The apply goroutine *)

(** From the top of the loop to a send, a wait or the end. *)
Definition applier_top rf : option (Raft Cmd) :=
  if dead rf then Some (set_applier_pc ApDone rf)
  else match pendingSnapshot rf with
  | Some data =>
      let idx := pendingSnapshotIndex rf in
      Some (set_applier_pc (ApSend (SnapshotMsg data idx (pendingSnapshotTerm rf)) idx)
              (set_pendingSnapshot None rf))
  | None =>
      if decide (lastApplied rf < commitIndex rf ∧ lastApplied rf >= lastIncludedIndex rf) then
        let next := lastApplied rf + 1 in
        if decide (next <= lastIncludedIndex rf) then
          Some (set_lastApplied (lastIncludedIndex rf) rf)
        else
          entry ← go_index (log rf) (next - lastIncludedIndex rf);
          Some (set_applier_pc (ApSend (CommandMsg (le_Command entry) next) next) rf)
      else Some (set_applier_pc ApWait rf)
  end.

(** After the send, with the lock taken again. *)
Definition applier_sent (k : Z) rf : Raft Cmd :=
  let rf := if decide (k > lastApplied rf) then set_lastApplied k rf else rf in
  set_applier_pc ApTop rf.

(** ** Kill and Make *)

Definition Kill rf : Raft Cmd := signal (set_dead true rf).

Definition killed rf : bool := dead rf.

(** [&Raft{}] with the assignments of [Make] up to [readPersist]. *)
Definition fresh_raft (n me : Z) (ps : Persister) : Raft Cmd :=
  MkRaft me n ps false 0 (-1) [MkLogEntry 0 None] 0 0 0 0
    (replicate (Z.to_nat n) 0) (replicate (Z.to_nat n) 0) Follower 0 0
    None 0 0 0 ApTop [].

Definition Make (n me : Z) (ps : Persister) (now draw : Z) : Raft Cmd :=
  let rf := readPersist (ReadRaftState ps) (fresh_raft n me ps) in
  let rf := resetElectionTimer now draw rf in
  if decide (lastIncludedIndex rf > 0) then
    let snap := ReadSnapshot ps in
    if decide (len snap > 0) then
      set_pendingSnapshotTerm (lastIncludedTerm rf)
        (set_pendingSnapshotIndex (lastIncludedIndex rf) (set_pendingSnapshot (Some snap) rf))
    else rf
  else rf.
End Raft.

Arguments Request : clear implicits.
