(* ===== verification/RaftNode.v ===== *)
(** * One Raft peer, any input

    Every way the state of a peer changes is an [Input]; [handle] dispatches to
    the operations of [Raft.v].  The invariant [raft_wf] of one peer is
    preserved by every input that meets the conditions the protocol promises
    ([input_ok]), and no operation then indexes out of range. *)
From S2P Require Import Prelude Persister Raft.

Section Node.
Context {Cmd : Type} `{!Gob Cmd}.
Implicit Types rf : Raft Cmd.

(** ** Inputs *)

Inductive Input :=
| InRequestVote (args : RequestVoteArgs) (now : Z)
| InAppendEntries (args : AppendEntriesArgs Cmd) (now : Z)
| InInstallSnapshot (args : InstallSnapshotArgs) (now : Z)
| InSnapshot (index : Z) (snapshot : bytes)
| InStart (command : Cmd)
| InTick (now draw : Z)
| InHeartbeat
| InBroadcast
| InVoteReply (term : Z) (reply : RequestVoteReply)
| InInstallReply (peer : Z) (args : InstallSnapshotArgs) (reply : InstallSnapshotReply)
| InAppendReply (peer : Z) (args : AppendEntriesArgs Cmd) (reply : AppendEntriesReply)
| InApplierTop
| InApplierReceived
| InApplierSent
| InKill
| InRestart (now draw : Z).

Definition handle (i : Input) rf : option (Raft Cmd) :=
  match i with
  | InRequestVote args now => fst <$> RequestVote args now rf
  | InAppendEntries args now => fst <$> AppendEntries args now rf
  | InInstallSnapshot args now => fst <$> InstallSnapshot args now rf
  | InSnapshot index snapshot => Snapshot index snapshot rf
  | InStart command => fst <$> Start command rf
  | InTick now draw => tick now draw rf
  | InHeartbeat => Some (heartbeat rf)
  | InBroadcast => Some (broadcastAppendEntries rf)
  | InVoteReply term reply => vote_reply term reply rf
  | InInstallReply peer args reply => install_reply peer args reply rf
  | InAppendReply peer args reply => append_reply peer args reply rf
  | InApplierTop => match applier_pc rf with ApTop => applier_top rf | _ => Some rf end
  | InApplierReceived =>
      match applier_pc rf with ApSend _ k => Some (set_applier_pc (ApSent k) rf) | _ => Some rf end
  | InApplierSent =>
      match applier_pc rf with ApSent k => Some (applier_sent k rf) | _ => Some rf end
  | InKill => Some (Kill rf)
  | InRestart now draw =>
      (* a crash: only the persister's contents survive *)
      Some (Make (npeers rf) (me rf) (Checkpoint (persister rf)) now draw)
  end.

(** ** Log access *)

Lemma termAt_some rf i :
  lastIncludedIndex rf <= i <= lastLogIndex rf → is_Some (termAt rf i).
Proof.
  intros Hi. unfold termAt, lastLogIndex in *. apply fmap_is_Some, go_index_some. lia.
Qed.

Lemma lastLogTerm_some rf : 1 <= len (log rf) → is_Some (lastLogTerm rf).
Proof. intros. unfold lastLogTerm. apply fmap_is_Some, go_index_some. lia. Qed.

Lemma set_all_replicate (l : list Z) (n v : Z) :
  len l = n → set_all l n v = Some (replicate (Z.to_nat n) v).
Proof.
  intros Hn. unfold set_all.
  assert (∀ k m l', len l' = n → 0 <= k → k + Z.of_nat m = n →
    foldl (λ ol i, l ← ol; go_set l i v) (Some l') (seqZ k (Z.of_nat m)) =
      Some (take (Z.to_nat k) l' ++ replicate m v)) as H.
  { intros k m. revert k. induction m as [|m IH]; intros k l' Hl Hk Hkm.
    - simpl. rewrite app_nil_r, take_ge; [done|]. unfold len in Hl. lia.
    - rewrite seqZ_cons by lia. cbn [foldl]. simpl (Some l' ≫= _).
      rewrite go_set_some by lia.
      replace (Z.pred (Z.of_nat (S m))) with (Z.of_nat m) by lia.
      rewrite IH; [|unfold len in *; rewrite length_insert; lia|lia|lia].
      f_equal. replace (Z.to_nat (Z.succ k)) with (S (Z.to_nat k)) by lia.
      rewrite (take_S_r _ _ v).
      + rewrite take_insert_ge by lia. by rewrite <-app_assoc.
      + apply list_lookup_insert_eq. unfold len in Hl. lia. }
  specialize (H 0 (length l) l Hn). rewrite <-Hn at 1. unfold len at 1.
  rewrite H; [|lia|unfold len in Hn; lia]. simpl. do 2 f_equal. unfold len in Hn. lia.
Qed.

(** ** The invariant of one peer *)

(** The highest index the service has seen through [applyCh]. *)
Definition delivered rf : Z :=
  match applier_pc rf with ApSent k => Z.max (lastApplied rf) k | _ => lastApplied rf end.

Definition pc_index rf : option Z :=
  match applier_pc rf with ApSend _ k | ApSent k => Some k | _ => None end.

Record raft_wf rf : Prop := {
  wf_me : 0 <= me rf < npeers rf;
  wf_sentinel : log rf !! 0%nat = Some (MkLogEntry (lastIncludedTerm rf) None);
  wf_lii : 0 <= lastIncludedIndex rf <= delivered rf;
  wf_applied : lastApplied rf <= commitIndex rf <= lastLogIndex rf;
  wf_pc k : pc_index rf = Some k → k <= commitIndex rf;
  wf_pending data :
    pendingSnapshot rf = Some data → pendingSnapshotIndex rf <= lastIncludedIndex rf;
  wf_next : len (nextIndex rf) = npeers rf;
  wf_match : len (matchIndex rf) = npeers rf;
  wf_leader i n :
    role rf = Leader → nextIndex rf !! i = Some n → 1 <= n <= lastLogIndex rf + 1;
  wf_zero : lastIncludedIndex rf = 0 → lastIncludedTerm rf = 0;
}.

(** What a peer may assume of an input. *)
Definition input_ok (i : Input) rf : Prop :=
  match i with
  | InAppendEntries args _ =>
      (* entries never contradict a committed entry *)
      ∀ j e, ae_Entries args !! j = Some e →
        lastIncludedIndex rf < ae_PrevLogIndex args + 1 + Z.of_nat j <= commitIndex rf →
        termAt rf (ae_PrevLogIndex args + 1 + Z.of_nat j) = Some (le_Term e)
  | InInstallSnapshot args _ =>
      (* nor does a snapshot *)
      lastIncludedIndex rf < is_LastIncludedIndex args <= commitIndex rf →
      termAt rf (is_LastIncludedIndex args) = Some (is_LastIncludedTerm args)
  | InSnapshot index _ => index <= delivered rf
  | InVoteReply _ _ => True
  | InInstallReply peer args _ =>
      0 <= peer < npeers rf ∧
      (currentTerm rf = is_Term args → role rf = Leader →
         0 <= is_LastIncludedIndex args <= lastLogIndex rf)
  | InAppendReply peer args reply =>
      0 <= peer < npeers rf ∧
      (currentTerm rf = ae_Term args → role rf = Leader →
         0 <= ae_PrevLogIndex args ∧
         ae_PrevLogIndex args + len (ae_Entries args) <= lastLogIndex rf ∧
         (aer_Success reply = false → aer_Term reply <= currentTerm rf →
            aer_ConflictIndex reply <= lastLogIndex rf + 1 ∧
            (aer_ConflictTerm reply = -1 → 0 < aer_ConflictIndex reply)))
  | _ => True
  end.

Lemma wf_len rf : raft_wf rf → 1 <= len (log rf).
Proof.
  intros H. pose proof (lookup_lt_Some _ _ _ (wf_sentinel _ H)). unfold len. lia.
Qed.

Lemma wf_last rf : raft_wf rf → 0 <= lastIncludedIndex rf <= lastLogIndex rf.
Proof.
  intros H. pose proof (wf_len _ H). pose proof (wf_lii _ H). unfold lastLogIndex. lia.
Qed.

Lemma wf_termAt_lii rf :
  raft_wf rf → termAt rf (lastIncludedIndex rf) = Some (lastIncludedTerm rf).
Proof.
  intros H. unfold termAt, go_index. rewrite Z.sub_diag, decide_True by lia.
  change (Z.to_nat 0) with 0%nat. by rewrite (wf_sentinel _ H).
Qed.

(** Two peers that agree on everything the invariant reads. *)
Definition wf_same rf rf' : Prop :=
  me rf = me rf' ∧ npeers rf = npeers rf' ∧ log rf = log rf' ∧
  lastIncludedIndex rf = lastIncludedIndex rf' ∧ lastIncludedTerm rf = lastIncludedTerm rf' ∧
  commitIndex rf = commitIndex rf' ∧ lastApplied rf = lastApplied rf' ∧
  nextIndex rf = nextIndex rf' ∧ matchIndex rf = matchIndex rf' ∧
  (role rf' = Leader → role rf = Leader) ∧
  pendingSnapshot rf = pendingSnapshot rf' ∧
  pendingSnapshotIndex rf = pendingSnapshotIndex rf' ∧
  delivered rf = delivered rf' ∧ pc_index rf = pc_index rf'.

Lemma wf_same_wf rf rf' : wf_same rf rf' → raft_wf rf → raft_wf rf'.
Proof.
  intros (E1 & E2 & E3 & E4 & E5 & E6 & E7 & E8 & E9 & Hl & E10 & E11 & E12 & E13).
  assert (lastLogIndex rf = lastLogIndex rf') as E14 by (unfold lastLogIndex; congruence).
  intros [H1 H2 H3 H4 H5 H6 H7 H8 H9 H10]. rewrite E1, E2, E3, E4, E5, E6, E7, E8, E9, E10, E11,
    E12, E13, E14 in *. split; eauto.
Qed.

(** What does not matter to the invariant. *)
Lemma wf_persist rf : raft_wf rf → raft_wf (persist rf).
Proof. by apply wf_same_wf. Qed.

Lemma signal_pc rf : delivered (signal rf) = delivered rf ∧ pc_index (signal rf) = pc_index rf.
Proof. unfold signal, delivered, pc_index. by destruct (applier_pc rf) eqn:Hpc; simpl; rewrite ?Hpc. Qed.

Lemma wf_signal rf : raft_wf rf → raft_wf (signal rf).
Proof.
  apply wf_same_wf. destruct (signal_pc rf) as [H1 H2]. unfold wf_same. rewrite H1, H2.
  unfold signal. by destruct (applier_pc rf).
Qed.

Lemma wf_becomeFollower term rf : raft_wf rf → raft_wf (becomeFollower term rf).
Proof.
  intros H. unfold becomeFollower. case_decide.
  - apply wf_persist. by apply (wf_same_wf rf).
  - by apply (wf_same_wf rf).
Qed.

Lemma wf_observe term rf : raft_wf rf → raft_wf (observe_term term rf).
Proof. intros H. unfold observe_term. case_decide; [by apply wf_becomeFollower|done]. Qed.

Lemma wf_follower now rf : raft_wf rf → raft_wf (set_lastHeardAt now (set_role Follower rf)).
Proof. by apply wf_same_wf. Qed.

Lemma wf_go rf g : raft_wf rf → raft_wf (go rf g).
Proof. by apply wf_same_wf. Qed.

Lemma wf_foldl_go (f : Z → Goroutine) (l : list Z) rf :
  raft_wf rf → raft_wf (foldl (λ rf i, go rf (f i)) rf l).
Proof. revert rf. induction l as [|i l IH]; intros rf H; [done|]. apply IH, wf_go, H. Qed.

Lemma wf_raise_commit N rf :
  commitIndex rf <= N <= lastLogIndex rf → raft_wf rf → raft_wf (set_commitIndex N rf).
Proof.
  intros HN [H1 H2 H3 H4 H5 H6 H7 H8 H9 H10].
  split; try done; unfold pc_index, delivered, lastLogIndex in *; simpl; [lia|].
  intros k Hk. specialize (H5 k Hk). lia.
Qed.

Lemma wf_follow_commit c rf : raft_wf rf → raft_wf (follow_commit c rf).
Proof.
  intros H. unfold follow_commit. case_decide; [|done]. case_decide as Hc; [|done].
  apply wf_signal, wf_raise_commit; [|done]. pose proof (wf_applied _ H). case_decide; lia.
Qed.

(** ** The merge loop *)

(** What the merge does to the log after [prev]: keep it as long as the terms
    agree, take over the request from the first difference. *)
Fixpoint merge_ref (tail entries : list (LogEntry Cmd)) : list (LogEntry Cmd) :=
  match entries, tail with
  | [], _ => tail
  | _, [] => entries
  | e :: es, x :: tl => if decide (le_Term x = le_Term e) then x :: merge_ref tl es else entries
  end.

Lemma merge_ref_nil tail : merge_ref tail [] = tail.
Proof. by destruct tail. Qed.

Lemma set_log_id rf : set_log (log rf) rf = rf.
Proof. by destruct rf. Qed.

Lemma merge_entries_ref prev i entries rf :
  lastIncludedIndex rf <= prev → 0 <= i → prev + 1 + i <= lastLogIndex rf + 1 →
  let p := Z.to_nat (prev + 1 + i - lastIncludedIndex rf) in
  merge_entries prev i entries rf =
    Some (set_log (take p (log rf) ++ merge_ref (drop p (log rf)) entries) rf).
Proof.
  intros Hprev. revert i. induction entries as [|e es IH]; intros i Hi Hlast p.
  - by rewrite merge_ref_nil, take_drop, set_log_id.
  - cbn [merge_entries]. unfold lastLogIndex, len in Hlast.
    case_decide as Hend.
    + assert (p = length (log rf)) as Hp by (unfold lastLogIndex, len in Hend; lia).
      by rewrite Hp, firstn_all, drop_all.
    + assert (p < length (log rf))%nat as Hp.
      { unfold lastLogIndex, len in Hend. lia. }
      destruct (lookup_lt_is_Some_2 _ _ Hp) as [x Hx].
      assert (termAt rf (prev + 1 + i) = Some (le_Term x)) as ->.
      { unfold termAt. rewrite (proj2 (go_index_lookup _ _ x)); [done|]. split; [lia|done]. }
      cbn [option_bind mbind]. rewrite (drop_S _ _ _ Hx). cbn [merge_ref].
      destruct (decide (le_Term x = le_Term e)) as [Heq|Hne].
      * rewrite (decide_False (P := le_Term x ≠ le_Term e)) by naive_solver.
        rewrite IH; [|lia|unfold lastLogIndex, len; lia].
        replace (Z.to_nat _) with (S p) by lia.
        by rewrite (take_S_r _ _ _ Hx), <-app_assoc.
      * rewrite decide_True by done. unfold go_to. rewrite decide_True; [done|].
        unfold len. lia.
Qed.

(** Where the terms agree the entries stay. *)
Lemma merge_ref_keeps tail entries (k : nat) :
  (∀ j e, (j < k)%nat → entries !! j = Some e → le_Term <$> tail !! j = Some (le_Term e)) →
  ∀ j x, (j < k)%nat → tail !! j = Some x → merge_ref tail entries !! j = Some x.
Proof.
  revert entries k. induction tail as [|y tail IH]; intros entries k Hag j x Hj Hx; [done|].
  destruct entries as [|e es]; [done|]. destruct k as [|k]; [lia|]. cbn [merge_ref].
  pose proof (Hag 0%nat e ltac:(lia) eq_refl) as Hy. simpl in Hy.
  rewrite decide_True by congruence. destruct j as [|j]; [done|].
  simpl in *. apply (IH es k); [|lia|done].
  intros j' e' Hj' He'. apply (Hag (S j') e'); [lia|done].
Qed.

Lemma termAt_set_log_lookup rf i t :
  termAt rf i = Some t →
  ∃ e, log rf !! Z.to_nat (i - lastIncludedIndex rf) = Some e ∧ le_Term e = t ∧
    0 <= i - lastIncludedIndex rf.
Proof.
  unfold termAt. intros (e & [Hi He]%go_index_lookup & ->)%fmap_Some. by exists e.
Qed.

(** The merged log keeps what was committed. *)
Lemma wf_merge prev entries rf :
  raft_wf rf → role rf = Follower → lastIncludedIndex rf <= prev <= lastLogIndex rf →
  (∀ j e, entries !! j = Some e → prev + 1 + Z.of_nat j <= commitIndex rf →
     termAt rf (prev + 1 + Z.of_nat j) = Some (le_Term e)) →
  ∃ rf', merge_entries prev 0 entries rf = Some rf' ∧ raft_wf rf' ∧ role rf' = Follower ∧
    commitIndex rf' = commitIndex rf.
Proof.
  intros Hwf Hrole Hprev Hag. rewrite merge_entries_ref by lia.
  set (p := Z.to_nat (prev + 1 + 0 - lastIncludedIndex rf)).
  set (l := take p (log rf) ++ merge_ref (drop p (log rf)) entries).
  eexists. split; [done|]. split; [|done].
  pose proof (wf_applied _ Hwf) as Happ. pose proof (wf_lii _ Hwf) as Hlii.
  assert (1 <= p <= length (log rf))%nat as Hp.
  { unfold lastLogIndex, len in Hprev. lia. }
  assert (commitIndex rf - lastIncludedIndex rf < len l) as Hlen.
  { destruct (decide (commitIndex rf <= prev)) as [|Hc].
    - unfold l. rewrite len_app. pose proof (len_nonneg (merge_ref (drop p (log rf)) entries)).
      unfold len. rewrite length_take. lia.
    - set (j := Z.to_nat (commitIndex rf - prev - 1)).
      destruct (lookup_lt_is_Some_2 (drop p (log rf)) j) as [x Hx].
      { rewrite length_drop. unfold lastLogIndex, len in Happ. lia. }
      assert (merge_ref (drop p (log rf)) entries !! j = Some x) as Hj.
      { apply (merge_ref_keeps _ _ (S j)); [|lia|done]. intros j' e Hj' He.
        rewrite lookup_drop. specialize (Hag j' e He ltac:(lia)).
        apply termAt_set_log_lookup in Hag as (y & Hy & <- & _).
        replace (p + j')%nat with (Z.to_nat (prev + 1 + Z.of_nat j' - lastIncludedIndex rf))
          by lia. by rewrite Hy. }
      apply lookup_lt_Some in Hj. unfold l. rewrite len_app. unfold len.
      rewrite length_take. lia. }
  destruct Hwf as [H1 H2 H3 H4 H5 H6 H7 H8 H9 H10]. split; try done.
  - simpl. unfold l. rewrite lookup_app_l by (rewrite length_take; lia).
    rewrite lookup_take_lt by lia. done.
  - unfold lastLogIndex. simpl. lia.
  - simpl. congruence.
Qed.

(** ** Every operation, one at a time *)

Definition safe (o : option (Raft Cmd)) : Prop := ∃ rf, o = Some rf ∧ raft_wf rf.

Lemma safe_some rf : raft_wf rf → safe (Some rf).
Proof. intros. by exists rf. Qed.

Lemma safe_RequestVote args now rf : raft_wf rf → safe (handle (InRequestVote args now) rf).
Proof.
  intros Hwf. simpl. unfold RequestVote. case_decide; [by apply safe_some|].
  pose proof (wf_observe (rv_Term args) rf Hwf) as Hwf'.
  destruct (lastLogTerm_some _ (wf_len _ Hwf')) as [t Ht].
  unfold upToDate. rewrite Ht. cbn [option_bind mbind].
  case_decide; apply safe_some; [|done]. apply wf_persist. by eapply wf_same_wf in Hwf'.
Qed.

Lemma conflict_start_some rf term n idx :
  lastIncludedIndex rf <= idx - Z.of_nat n → idx <= lastLogIndex rf + 1 →
  ∃ i, conflict_start rf term n idx = Some i ∧ idx - Z.of_nat n <= i <= idx.
Proof.
  revert idx. induction n as [|n IH]; intros idx Hn Hidx; cbn [conflict_start].
  - exists idx. split; [done|lia].
  - rewrite decide_True by lia. destruct (termAt_some rf (idx - 1)) as [t ->]; [lia|].
    cbn [option_bind mbind]. case_decide.
    + destruct (IH (idx - 1)) as (i & -> & Hi); [lia|lia|]. exists i. split; [done|lia].
    + exists idx. split; [done|lia].
Qed.

Lemma safe_ae_append prev prevTerm entries c xlen rf :
  raft_wf rf → role rf = Follower → lastIncludedIndex rf <= prev →
  (∀ j e, entries !! j = Some e → prev + 1 + Z.of_nat j <= commitIndex rf →
     termAt rf (prev + 1 + Z.of_nat j) = Some (le_Term e)) →
  ∃ rf' reply, ae_append prev prevTerm entries c xlen rf = Some (rf', reply) ∧ raft_wf rf'.
Proof.
  intros Hwf Hrole Hprev Hag. unfold ae_append. case_decide; [by eauto|].
  destruct (termAt_some rf prev) as [t ->]; [lia|]. cbn [option_bind mbind]. case_decide.
  - destruct (conflict_start_some rf t (Z.to_nat (prev - lastIncludedIndex rf)) prev)
      as (i & -> & _); [lia|lia|]. cbn. by eauto.
  - destruct (wf_merge prev entries rf) as (rf' & -> & Hwf' & _); [done|done|lia|done|].
    cbn. do 2 eexists. split; [done|]. by apply wf_follow_commit, wf_persist.
Qed.

Lemma observe_term_same term rf :
  log (observe_term term rf) = log rf ∧
  lastIncludedIndex (observe_term term rf) = lastIncludedIndex rf ∧
  lastIncludedTerm (observe_term term rf) = lastIncludedTerm rf ∧
  commitIndex (observe_term term rf) = commitIndex rf.
Proof. unfold observe_term, becomeFollower. by repeat case_decide. Qed.

Lemma safe_AppendEntries args now rf :
  raft_wf rf → input_ok (InAppendEntries args now) rf →
  safe (handle (InAppendEntries args now) rf).
Proof.
  intros Hwf Hok. simpl. unfold AppendEntries. case_decide; [by apply safe_some|].
  pose proof (observe_term_same (ae_Term args) rf) as (Elog & Elii & Elit & Ecom).
  set (rf1 := observe_term (ae_Term args) rf) in *.
  assert (raft_wf (set_lastHeardAt now (set_role Follower rf1))) as Hwf'
    by (by apply wf_follower, wf_observe).
  set (rf2 := set_lastHeardAt now (set_role Follower rf1)) in *.
  assert (∀ i, termAt rf2 i = termAt rf i) as Hterm.
  { intros i. unfold termAt. unfold rf2. simpl. by rewrite Elog, Elii. }
  assert (lastIncludedIndex rf2 = lastIncludedIndex rf) as Elii2 by done.
  assert (commitIndex rf2 = commitIndex rf) as Ecom2 by done.
  case_decide as Hprev.
  - case_decide as Hstart; [by apply safe_some, wf_follow_commit|].
    rewrite go_from_some by (rewrite Elii2 in *; lia). cbn [option_bind mbind].
    destruct (safe_ae_append (lastIncludedIndex rf2) (lastIncludedTerm rf2)
      (drop (Z.to_nat (lastIncludedIndex rf2 - ae_PrevLogIndex args)) (ae_Entries args))
      (ae_LeaderCommit args) (lastLogIndex rf + 1) rf2) as (rf' & r & -> & Hw);
      [done|done|lia| |by exists rf'].
    intros j e. rewrite lookup_drop. intros He Hc. rewrite Hterm.
    specialize (Hok _ e He ltac:(lia)). rewrite <-Hok. f_equal. lia.
  - destruct (safe_ae_append (ae_PrevLogIndex args) (ae_PrevLogTerm args) (ae_Entries args)
      (ae_LeaderCommit args) (lastLogIndex rf + 1) rf2) as (rf' & r & -> & Hw);
      [done|done|lia| |by exists rf'].
    intros j e He Hc. rewrite Hterm. apply Hok; [done|lia].
Qed.

(** Cutting the log at [index] under a new sentinel. *)
Lemma log_after_some rf index term :
  lastIncludedIndex rf <= index <= lastLogIndex rf →
  ∃ l, log_after rf index term = Some (MkLogEntry term None :: l) ∧
    l = drop (Z.to_nat (index - lastIncludedIndex rf + 1)) (log rf) ∧
    len l = lastLogIndex rf - index.
Proof.
  intros Hi. unfold log_after, lastLogIndex in *. rewrite go_from_some by lia.
  cbn. eexists. split; [done|]. split; [done|]. rewrite len_drop by lia. lia.
Qed.

Lemma safe_Snapshot index snapshot rf :
  raft_wf rf → input_ok (InSnapshot index snapshot) rf →
  safe (handle (InSnapshot index snapshot) rf).
Proof.
  intros Hwf Hok. simpl in *. unfold Snapshot.
  case_decide; [by apply safe_some|]. case_decide; [by apply safe_some|].
  destruct (termAt_some rf index) as [t ->]; [lia|]. cbn [option_bind mbind].
  rewrite decide_False by (unfold lastLogIndex in *; lia).
  destruct (log_after_some rf index t) as (l & -> & _ & Hl); [lia|]. cbn [option_bind mbind].
  apply safe_some. destruct Hwf as [H1 H2 H3 H4 H5 H6 H7 H8 H9 H10].
  assert (index <= commitIndex rf) as Hc.
  { unfold delivered, pc_index in *. destruct (applier_pc rf); try lia.
    specialize (H5 k eq_refl). lia. }
  assert (lastLogIndex (persistWithSnapshot snapshot (set_lastIncludedTerm t
    (set_lastIncludedIndex index (set_log (MkLogEntry t None :: l) rf)))) = lastLogIndex rf)
    as Hlast.
  { unfold lastLogIndex at 1. cbn [lastIncludedIndex log persistWithSnapshot set_persister
      set_lastIncludedTerm set_lastIncludedIndex set_log]. rewrite len_cons. lia. }
  split; rewrite ?Hlast; try done; unfold delivered in *; simpl in *; [lia| |lia].
  intros d Hd. specialize (H6 d Hd). lia.
Qed.

Lemma snapshot_log_some args rf :
  raft_wf rf → lastIncludedIndex rf < is_LastIncludedIndex args →
  (is_LastIncludedIndex args <= commitIndex rf →
     termAt rf (is_LastIncludedIndex args) = Some (is_LastIncludedTerm args)) →
  ∃ l, snapshot_log args rf = Some (MkLogEntry (is_LastIncludedTerm args) None :: l) ∧
    Z.max (commitIndex rf) (is_LastIncludedIndex args) <= is_LastIncludedIndex args + len l.
Proof.
  intros Hwf Hlii Hc. pose proof (wf_applied _ Hwf). pose proof (wf_lii _ Hwf).
  unfold snapshot_log. case_decide as Hlast.
  - destruct (termAt_some rf (is_LastIncludedIndex args)) as [t Ht]; [lia|].
    rewrite Ht in *. cbn [option_bind mbind]. case_decide as Heq.
    + destruct (log_after_some rf (is_LastIncludedIndex args) (is_LastIncludedTerm args))
        as (l & -> & _ & Hl); [lia|]. exists l. split; [done|lia].
    + exists []. split; [done|]. unfold len. simpl.
      destruct (decide (is_LastIncludedIndex args <= commitIndex rf)); [|lia].
      exfalso. apply Heq. specialize (Hc ltac:(lia)). congruence.
  - exists []. split; [done|]. unfold len. simpl. lia.
Qed.

Lemma wf_install idx t l data rf :
  raft_wf rf → role rf = Follower → lastIncludedIndex rf < idx →
  Z.max (commitIndex rf) idx <= idx + len l →
  raft_wf (set_pendingSnapshotTerm t (set_pendingSnapshotIndex idx (set_pendingSnapshot data
    (persistWithSnapshot (default [] data)
      (set_lastApplied (Z.max (lastApplied rf) idx) (set_commitIndex (Z.max (commitIndex rf) idx)
        (set_lastIncludedTerm t (set_lastIncludedIndex idx
          (set_log (MkLogEntry t None :: l) rf))))))))).
Proof.
  intros [H1 H2 H3 H4 H5 H6 H7 H8 H9 H10] Hrole Hidx Hl.
  split; unfold delivered, lastLogIndex, pc_index in *; simpl in *; try done.
  - destruct (applier_pc rf); lia.
  - rewrite len_cons. lia.
  - intros k Hk. specialize (H5 k Hk). lia.
  - congruence.
  - lia.
Qed.

Lemma raise_commit_max idx rf :
  (if decide (commitIndex rf < idx) then set_commitIndex idx rf else rf) =
    set_commitIndex (Z.max (commitIndex rf) idx) rf.
Proof. case_decide; [by rewrite Z.max_r by lia|]. rewrite Z.max_l by lia. by destruct rf. Qed.

Lemma raise_applied_max idx rf :
  (if decide (lastApplied rf < idx) then set_lastApplied idx rf else rf) =
    set_lastApplied (Z.max (lastApplied rf) idx) rf.
Proof. case_decide; [by rewrite Z.max_r by lia|]. rewrite Z.max_l by lia. by destruct rf. Qed.

Lemma safe_InstallSnapshot args now rf :
  raft_wf rf → input_ok (InInstallSnapshot args now) rf →
  safe (handle (InInstallSnapshot args now) rf).
Proof.
  intros Hwf Hok. simpl in *. unfold InstallSnapshot. case_decide; [by apply safe_some|].
  pose proof (observe_term_same (is_Term args) rf) as (Elog & Elii & Elit & Ecom).
  set (rf1 := observe_term (is_Term args) rf) in *.
  assert (raft_wf (set_lastHeardAt now (set_role Follower rf1))) as Hwf'
    by (by apply wf_follower, wf_observe).
  set (rf2 := set_lastHeardAt now (set_role Follower rf1)) in *.
  case_decide as Hidx; [by apply safe_some|].
  assert (lastIncludedIndex rf2 = lastIncludedIndex rf) as Elii2 by done.
  assert (commitIndex rf2 = commitIndex rf) as Ecom2 by done.
  destruct (snapshot_log_some args rf2 Hwf') as (l & -> & Hl); [lia| |].
  { intros Hc. unfold termAt in *. unfold rf2 in *. simpl in *. rewrite Elog, Elii.
    apply Hok. lia. }
  cbn [option_bind mbind fmap option_fmap option_map fst].
  rewrite raise_commit_max, raise_applied_max. apply safe_some, wf_signal.
  by apply (wf_install (is_LastIncludedIndex args) (is_LastIncludedTerm args) l
    (is_Data args) rf2 Hwf' eq_refl ltac:(lia)).
Qed.

Lemma safe_Start command rf : raft_wf rf → safe (handle (InStart command) rf).
Proof.
  intros Hwf. simpl. unfold Start. case_decide as Hrole; [by apply safe_some|].
  pose proof (wf_last _ Hwf) as Hpos.
  destruct Hwf as [H1 H2 H3 H4 H5 H6 H7 H8 H9 H10].
  set (rf1 := set_log _ rf). change (matchIndex rf1) with (matchIndex rf).
  change (nextIndex rf1) with (nextIndex rf). change (me rf1) with (me rf).
  rewrite !go_set_some by lia. cbn [option_bind mbind fmap option_fmap option_map fst].
  apply safe_some, wf_go, wf_persist.
  assert (lastLogIndex rf1 = lastLogIndex rf + 1) as Hlast.
  { unfold lastLogIndex, rf1. simpl. rewrite len_app. unfold len. simpl. lia. }
  rewrite Hlast. set (rf2 := set_nextIndex _ _).
  assert (lastLogIndex rf2 = lastLogIndex rf + 1) as Hlast2 by exact Hlast.
  split; rewrite ?Hlast2; try done.
  - by apply lookup_app_l_Some.
  - change (lastApplied rf2) with (lastApplied rf).
    change (commitIndex rf2) with (commitIndex rf). lia.
  - unfold rf2, len in *. simpl. by rewrite length_insert.
  - unfold rf2, len in *. simpl. by rewrite length_insert.
  - intros i n _. unfold rf2. cbn [nextIndex set_nextIndex].
    rewrite list_lookup_insert_Some. intros [(_ & <- & _)|[_ Hn]].
    + lia.
    + specialize (H9 i n Hrole Hn). lia.
Qed.

Lemma safe_startElection now draw rf : raft_wf rf → safe (startElection now draw rf).
Proof.
  intros Hwf. unfold startElection.
  set (rf1 := persist _).
  assert (raft_wf rf1) as Hwf1.
  { apply wf_persist. by apply (wf_same_wf rf). }
  destruct (lastLogTerm_some _ (wf_len _ Hwf1)) as [t ->]. cbn [option_bind mbind].
  apply safe_some. change (others (set_votes 1 rf1)) with (others rf).
  apply (wf_foldl_go (λ peer, GoRequestVote peer _)). by apply (wf_same_wf rf1).
Qed.

Lemma safe_becomeLeader rf : raft_wf rf → safe (becomeLeader rf).
Proof.
  intros Hwf. unfold becomeLeader. pose proof (wf_last _ Hwf) as Hpos. pose proof Hwf as [H1 H2 H3 H4 H5 H6 H7 H8 H9 H10].
  set (rf1 := set_role Leader rf). change (nextIndex rf1) with (nextIndex rf).
  change (matchIndex rf1) with (matchIndex rf). change (npeers rf1) with (npeers rf).
  change (me rf1) with (me rf). change (lastLogIndex rf1) with (lastLogIndex rf).
  rewrite (set_all_replicate (nextIndex rf)), (set_all_replicate (matchIndex rf)) by done.
  cbn [option_bind mbind].
  assert (len (replicate (Z.to_nat (npeers rf)) 0) = npeers rf) as Hlen.
  { unfold len. rewrite length_replicate. lia. }
  rewrite go_set_some by lia. cbn [option_bind mbind]. apply safe_some, wf_go.
  split; try done; cbn [me npeers nextIndex matchIndex role set_matchIndex set_nextIndex].
  - change (npeers rf1) with (npeers rf). unfold len. rewrite length_replicate. lia.
  - change (npeers rf1) with (npeers rf). unfold len in *. by rewrite length_insert.
  - intros i n _ [-> _]%lookup_replicate. change (lastLogIndex _) with (lastLogIndex rf).
    lia.
Qed.

Lemma safe_vote_reply term reply rf : raft_wf rf → safe (vote_reply term reply rf).
Proof.
  intros Hwf. unfold vote_reply. case_decide; [by apply safe_some|].
  case_decide; [by apply safe_some, wf_becomeFollower|].
  assert (raft_wf (set_votes (votes rf + 1) rf)) by (by apply (wf_same_wf rf)).
  destruct (rvr_VoteGranted reply); [|by apply safe_some].
  case_decide; [by apply safe_becomeLeader|by apply safe_some].
Qed.

Lemma raise_spec (l : list Z) (i v : Z) :
  0 <= i < len l →
  ∃ l', raise l i v = Some l' ∧ len l' = len l ∧
    (∀ j x, l' !! j = Some x → l !! j = Some x ∨ x = v).
Proof.
  intros Hi. unfold raise. destruct (go_index_some l i Hi) as [x ->]. cbn [option_bind mbind].
  case_decide.
  - rewrite go_set_some by done. eexists. split; [done|]. split.
    + unfold len. by rewrite length_insert.
    + intros j y. rewrite list_lookup_insert_Some. naive_solver.
  - exists l. split; [done|]. split; [done|]. auto.
Qed.

(** New leader arrays. *)
Lemma wf_arrays next mtch rf :
  raft_wf rf → len next = npeers rf → len mtch = npeers rf →
  (∀ i n, role rf = Leader → next !! i = Some n → 1 <= n <= lastLogIndex rf + 1) →
  raft_wf (set_matchIndex mtch (set_nextIndex next rf)).
Proof. intros [H1 H2 H3 H4 H5 H6 H7 H8 H9 H10] Hn Hm Hl. by split. Qed.

Lemma safe_install_reply peer args reply rf :
  raft_wf rf → input_ok (InInstallReply peer args reply) rf →
  safe (install_reply peer args reply rf).
Proof.
  intros Hwf [Hpeer Hidx]. unfold install_reply.
  destruct (decide (currentTerm rf ≠ is_Term args ∨ role rf ≠ Leader)) as [|Hcur];
    [by apply safe_some|].
  case_decide; [by apply safe_some, wf_becomeFollower|].
  destruct (raise_spec (nextIndex rf) peer (is_LastIncludedIndex args + 1))
    as (next & -> & Hnl & Hn); [by rewrite wf_next|].
  destruct (raise_spec (matchIndex rf) peer (is_LastIncludedIndex args))
    as (mtch & -> & Hml & _); [by rewrite wf_match|].
  cbn. apply safe_some, wf_arrays; [done|by rewrite Hnl, wf_next|by rewrite Hml, wf_match|].
  intros i n Hl Hi. specialize (Hidx ltac:(lia) Hl).
  destruct (Hn i n Hi) as [Hold| ->]; [by eapply wf_leader|lia].
Qed.

Lemma count_acks_some rf N : raft_wf rf → is_Some (count_acks rf N).
Proof.
  intros Hwf. unfold count_acks.
  assert (∀ l c, Forall (λ i, 0 <= i < npeers rf) l →
    is_Some (foldl (λ oc i, c ← oc; m ← go_index (matchIndex rf) i;
      Some (if decide (m >= N) then c + 1 else c)) (Some c) l)) as H.
  { induction l as [|i l IH]; intros c Hl; [by eauto|]. apply list.Forall_cons in Hl as [Hi Hl].
    cbn [foldl]. destruct (go_index_some (matchIndex rf) i) as [m ->].
    { by rewrite wf_match. }
    by apply IH. }
  apply H. unfold others. apply list.Forall_forall.
  intros i [_ Hi]%list_elem_of_filter. apply elem_of_seqZ in Hi. lia.
Qed.

Lemma safe_advance_from n N rf :
  raft_wf rf → N <= lastLogIndex rf → safe (advance_from n N rf).
Proof.
  revert N. induction n as [|n IH]; intros N Hwf HN; cbn [advance_from]; [by apply safe_some|].
  case_decide as Hc; [|by apply safe_some]. case_decide; [by apply safe_some|].
  destruct (termAt_some rf N) as [t ->]; [lia|]. cbn [option_bind mbind].
  case_decide; [apply IH; [done|lia]|].
  destruct (count_acks_some rf N Hwf) as [c ->]. cbn [option_bind mbind].
  case_decide; [|apply IH; [done|lia]].
  apply safe_some, wf_signal, wf_raise_commit; [lia|done].
Qed.

Lemma safe_advanceCommit rf : raft_wf rf → safe (advanceCommit rf).
Proof. intros Hwf. by apply safe_advance_from. Qed.

Lemma last_of_term_some n term i rf :
  raft_wf rf → i <= lastLogIndex rf → i - Z.of_nat n <= lastIncludedIndex rf →
  ∃ f, last_of_term n term i rf = Some f ∧
    (f = -1 ∨ (lastIncludedIndex rf < f <= i ∧ termAt rf f = Some term)).
Proof.
  intros Hwf. pose proof (wf_last _ Hwf). revert i. induction n as [|n IH];
    intros i Hi Hn; cbn [last_of_term]; [by eauto|].
  case_decide; [|by eauto]. destruct (termAt_some rf i) as [t Ht]; [lia|].
  rewrite Ht. cbn [option_bind mbind]. case_decide as Heq.
  - exists i. split; [done|]. right. split; [lia|congruence].
  - destruct (IH (i - 1)) as (f & -> & Hf); [lia|lia|]. exists f. split; [done|].
    destruct Hf as [|[? ?]]; [by left|right]. split; [lia|done].
Qed.

Lemma backup_next_some reply next rf :
  raft_wf rf → aer_ConflictIndex reply <= lastLogIndex rf + 1 →
  (aer_ConflictTerm reply = -1 → 0 < aer_ConflictIndex reply) →
  ∃ n, backup_next reply next rf = Some n ∧ n <= lastLogIndex rf + 1.
Proof.
  intros Hwf Hci Hct. pose proof (wf_last _ Hwf). unfold backup_next. case_decide as Hc.
  - eexists. split; [done|]. rewrite decide_True by (specialize (Hct Hc); lia). done.
  - destruct (last_of_term_some (Z.to_nat (lastLogIndex rf - lastIncludedIndex rf))
      (aer_ConflictTerm reply) (lastLogIndex rf) rf Hwf) as (f & -> & Hf); [lia|lia|].
    cbn. eexists. split; [done|]. case_decide; [|done].
    destruct Hf as [|[? _]]; [done|lia].
Qed.

Lemma safe_append_reply peer args reply rf :
  raft_wf rf → input_ok (InAppendReply peer args reply) rf →
  safe (append_reply peer args reply rf).
Proof.
  intros Hwf [Hpeer Hargs]. unfold append_reply.
  destruct (decide (currentTerm rf ≠ ae_Term args ∨ role rf ≠ Leader)) as [|Hcur];
    [by apply safe_some|].
  case_decide as Ht; [by apply safe_some, wf_becomeFollower|].
  destruct (decide (role rf = Leader)) as [Hl|]; [|tauto].
  destruct (Hargs ltac:(lia) Hl) as (Hprev & Hlast & Hrej).
  pose proof (len_nonneg (ae_Entries args)).
  destruct (aer_Success reply) eqn:Hs.
  - destruct (raise_spec (matchIndex rf) peer (ae_PrevLogIndex args + len (ae_Entries args)))
      as (mtch & -> & Hml & _); [by rewrite wf_match|]. cbn [option_bind mbind].
    destruct (raise_spec (nextIndex rf) peer
      (ae_PrevLogIndex args + len (ae_Entries args) + 1)) as (next & -> & Hnl & Hn);
      [by rewrite wf_next|]. cbn [option_bind mbind].
    apply safe_advanceCommit. change (raft_wf (set_matchIndex mtch (set_nextIndex next rf))).
    apply wf_arrays; [done|by rewrite Hnl, wf_next|by rewrite Hml, wf_match|].
    intros i n _ Hi. destruct (Hn i n Hi) as [Hold| ->]; [by eapply wf_leader|lia].
  - destruct (go_index_some (nextIndex rf) peer) as [nx ->]; [by rewrite wf_next|].
    cbn [option_bind mbind].
    destruct (Hrej eq_refl ltac:(lia)) as [Hci Hct].
    destruct (backup_next_some reply nx rf Hwf Hci Hct) as (n & -> & Hn).
    cbn [option_bind mbind]. rewrite go_set_some by (by rewrite wf_next). cbn.
    apply safe_some, wf_go. pose proof Hwf as [H1 H2 H3 H4 H5 H6 H7 H8 H9 H10].
    pose proof (wf_last _ Hwf).
    split; try done; cbn [nextIndex set_nextIndex].
    + unfold len in *. by rewrite length_insert.
    + intros i m _. change (lastLogIndex (set_nextIndex _ _)) with (lastLogIndex rf).
      rewrite list_lookup_insert_Some. intros [(_ & <- & _)|[_ Hm]]; [|by eapply H9].
      case_decide; lia.
Qed.

Lemma wf_lookup_index rf i :
  raft_wf rf → lastIncludedIndex rf <= i <= lastLogIndex rf →
  is_Some (go_index (log rf) (i - lastIncludedIndex rf)).
Proof. intros Hwf Hi. apply go_index_some. unfold lastLogIndex in Hi. lia. Qed.

Lemma safe_applier_top rf :
  raft_wf rf → applier_pc rf = ApTop → safe (applier_top rf).
Proof.
  intros Hwf Hpc. unfold applier_top. pose proof (wf_applied _ Hwf). pose proof (wf_lii _ Hwf).
  pose proof Hwf as [H1 H2 H3 H4 H5 H6 H7 H8 H9 H10]. unfold delivered in *. rewrite Hpc in *.
  destruct (dead rf).
  { apply safe_some. by split. }
  destruct (pendingSnapshot rf) as [data|] eqn:Hp.
  { apply safe_some. specialize (H6 data eq_refl).
    split; try done. unfold pc_index. simpl. intros k [= <-]. lia. }
  case_decide as Hc.
  - rewrite decide_False by lia.
    destruct (wf_lookup_index rf (lastApplied rf + 1)) as [e ->]; [done|lia|]. cbn.
    apply safe_some. split; try done; unfold pc_index; simpl; try congruence.
    intros k [= <-]. lia.
  - apply safe_some. split; try done; unfold pc_index; simpl; congruence.
Qed.

(** All of them. *)
Lemma handle_safe (i : Input) rf :
  match i with InRestart _ _ => False | _ => True end →
  raft_wf rf → input_ok i rf → safe (handle i rf).
Proof.
  intros Hi Hwf Hok. destruct i; [..|done].
  - by apply safe_RequestVote.
  - by apply safe_AppendEntries.
  - by apply safe_InstallSnapshot.
  - by apply safe_Snapshot.
  - by apply safe_Start.
  - simpl. unfold tick. case_decide; [by apply safe_startElection|by apply safe_some].
  - apply safe_some. unfold heartbeat, broadcastAppendEntries.
    case_bool_decide; [|done]. case_decide; [done|]. by apply wf_foldl_go.
  - apply safe_some. unfold broadcastAppendEntries. case_decide; [done|]. by apply wf_foldl_go.
  - by apply safe_vote_reply.
  - by apply safe_install_reply.
  - by apply safe_append_reply.
  - simpl. destruct (applier_pc rf) eqn:Hpc; try by apply safe_some.
    by apply safe_applier_top.
  - simpl. destruct (applier_pc rf) eqn:Hpc; try by apply safe_some.
    apply safe_some. destruct Hwf as [H1 H2 H3 H4 H5 H6 H7 H8 H9 H10].
    unfold delivered, pc_index in *. rewrite Hpc in *.
    split; try done; unfold delivered, pc_index; simpl; lia.
  - simpl. destruct (applier_pc rf) eqn:Hpc; try by apply safe_some.
    apply safe_some. destruct Hwf as [H1 H2 H3 H4 H5 H6 H7 H8 H9 H10].
    unfold delivered, pc_index in *. rewrite Hpc in *. specialize (H5 k eq_refl).
    unfold applier_sent. case_decide;
      split; try done; unfold delivered, pc_index, lastLogIndex in *; simpl in *; lia.
  - simpl. apply safe_some. unfold Kill. apply wf_signal. by apply (wf_same_wf rf).
Qed.

(** ** What is on disk

    After every operation the saved state is the current one, or nothing was
    ever saved and the peer is as [Make] created it. *)
Definition unsaved rf : Prop :=
  ps_raftstate (persister rf) = [] ∧ currentTerm rf = 0 ∧ votedFor rf = -1 ∧
  log rf = [MkLogEntry 0 None] ∧ lastIncludedIndex rf = 0 ∧ lastIncludedTerm rf = 0.

Definition persisted rf : Prop :=
  ps_raftstate (persister rf) = raftstate rf ∨ unsaved rf.

Definition pers_same rf rf' : Prop :=
  ps_raftstate (persister rf) = ps_raftstate (persister rf') ∧
  currentTerm rf = currentTerm rf' ∧ votedFor rf = votedFor rf' ∧ log rf = log rf' ∧
  lastIncludedIndex rf = lastIncludedIndex rf' ∧ lastIncludedTerm rf = lastIncludedTerm rf'.

#[local] Instance pers_same_preorder : PreOrder pers_same.
Proof.
  split; [by intros ?|]. intros x y z (?&?&?&?&?&?) (?&?&?&?&?&?).
  by split_and!; etransitivity.
Qed.

Lemma pers_same_persisted rf rf' : pers_same rf rf' → persisted rf → persisted rf'.
Proof.
  intros (E1 & E2 & E3 & E4 & E5 & E6). unfold persisted, unsaved, raftstate.
  by rewrite E1, E2, E3, E4, E5, E6.
Qed.

Lemma persisted_save rf snapshot : persisted (persistWithSnapshot snapshot rf).
Proof. left. unfold persistWithSnapshot. by rewrite Save_id. Qed.

Lemma persisted_persist rf : persisted (persist rf).
Proof. apply persisted_save. Qed.

Lemma pers_signal rf : pers_same rf (signal rf).
Proof. unfold signal. by destruct (applier_pc rf). Qed.

Lemma pers_foldl_go (f : Z → Goroutine) (l : list Z) rf :
  pers_same rf (foldl (λ rf i, go rf (f i)) rf l).
Proof.
  revert rf. induction l as [|i l IH]; intros rf; [done|]. simpl. by etransitivity; [|apply IH].
Qed.

Lemma pers_follow_commit c rf : pers_same rf (follow_commit c rf).
Proof.
  unfold follow_commit. repeat case_decide; try done; by etransitivity; [|apply pers_signal].
Qed.

Lemma persisted_becomeFollower term rf : persisted rf → persisted (becomeFollower term rf).
Proof.
  intros H. unfold becomeFollower. case_decide; [apply persisted_persist|].
  by apply (pers_same_persisted rf).
Qed.

Lemma persisted_observe term rf : persisted rf → persisted (observe_term term rf).
Proof.
  intros H. unfold observe_term. case_decide; [by apply persisted_becomeFollower|done].
Qed.

Lemma persisted_ae_append prev prevTerm entries c xlen rf rf' reply :
  persisted rf → ae_append prev prevTerm entries c xlen rf = Some (rf', reply) → persisted rf'.
Proof.
  intros Hp. unfold ae_append. case_decide; [by intros [= <- _]|].
  intros (t & _ & Ht)%bind_Some. case_decide.
  - apply bind_Some in Ht as (i & _ & [= <- _]). done.
  - apply bind_Some in Ht as (rf1 & _ & [= <- _]).
    eapply pers_same_persisted; [apply pers_follow_commit|apply persisted_persist].
Qed.

Lemma pers_becomeLeader rf rf' : becomeLeader rf = Some rf' → pers_same rf rf'.
Proof.
  unfold becomeLeader. intros (n & _ & (m & _ & (m' & _ & [= <-])%bind_Some)%bind_Some)%bind_Some.
  done.
Qed.

Lemma pers_advance_from n N rf rf' : advance_from n N rf = Some rf' → pers_same rf rf'.
Proof.
  revert N. induction n as [|n IH]; intros N; cbn [advance_from]; [by intros [= <-]|].
  case_decide; [|by intros [= <-]]. case_decide; [by intros [= <-]|].
  intros (t & _ & Ht)%bind_Some. case_decide; [by eapply IH|].
  apply bind_Some in Ht as (k & _ & Hk). case_decide; [|by eapply IH].
  injection Hk as <-. by etransitivity; [|apply pers_signal].
Qed.

Lemma persisted_append_reply peer args reply rf rf' :
  persisted rf → append_reply peer args reply rf = Some rf' → persisted rf'.
Proof.
  intros Hp. unfold append_reply. case_decide; [by intros [= <-]|].
  case_decide; [intros [= <-]; by apply persisted_becomeFollower|].
  destruct (aer_Success reply).
  - intros (m & _ & (n & _ & Hadv)%bind_Some)%bind_Some. apply pers_advance_from in Hadv.
    eapply pers_same_persisted; [exact Hadv|]. by apply (pers_same_persisted rf).
  - intros (n & _ & (k & _ & (l & _ & [= <-])%bind_Some)%bind_Some)%bind_Some.
    by apply (pers_same_persisted rf).
Qed.

Lemma pers_applier_top rf rf' : applier_top rf = Some rf' → pers_same rf rf'.
Proof.
  unfold applier_top. destruct (dead rf); [by intros [= <-]|].
  destruct (pendingSnapshot rf); [by intros [= <-]|].
  case_decide; [|by intros [= <-]]. case_decide; [by intros [= <-]|].
  by intros (e & _ & [= <-])%bind_Some.
Qed.

Lemma persisted_handlers i rf rf' :
  match i with
  | InRequestVote _ _ | InAppendEntries _ _ | InInstallSnapshot _ _ => True
  | _ => False
  end → persisted rf → handle i rf = Some rf' → persisted rf'.
Proof.
  intros Hi Hp. destruct i; try done; simpl; intros ([rf1 reply] & H & ->)%fmap_Some; simpl.
  - unfold RequestVote in H. case_decide; [by injection H as <- _|].
    apply bind_Some in H as (ok & _ & H).
    case_decide; injection H as <- _; [apply persisted_persist|by apply persisted_observe].
  - unfold AppendEntries in H. case_decide; [by injection H as <- _|].
    assert (persisted (set_lastHeardAt now (set_role Follower (observe_term (ae_Term args) rf))))
      as Hp2.
    { apply (pers_same_persisted (observe_term (ae_Term args) rf)); [done|].
      by apply persisted_observe. }
    case_decide; [|by eapply persisted_ae_append].
    case_decide; [injection H as <- _|].
    + eapply pers_same_persisted; [apply pers_follow_commit|done].
    + apply bind_Some in H as (es & _ & H). by eapply persisted_ae_append.
  - unfold InstallSnapshot in H. case_decide; [by injection H as <- _|].
    case_decide.
    + injection H as <- _. apply (pers_same_persisted (observe_term (is_Term args) rf)); [done|].
      by apply persisted_observe.
    + apply bind_Some in H as (l & _ & [= <- _]).
      eapply pers_same_persisted; [apply pers_signal|].
      eapply pers_same_persisted; [|apply persisted_save]. by split_and!.
Qed.
End Node.

Arguments Input : clear implicits.
