(* ===== verification/RaftTheorems.v ===== *)
(** * Properties of one Raft peer

    What holds of a peer after any sequence of inputs, crashes and restarts
    included: it does not panic, its state on disk is its state in memory,
    terms only grow and votes are never changed, the merge of [AppendEntries]
    and the commit rule do what the paper says, backing up makes progress, and
    the apply goroutine neither misses a wakeup nor skips an index. *)
From S2P Require Import Prelude Persister Raft RaftNode.

Section Persistence.
Context {Cmd : Type} `{!Gob Cmd, !GobLaws Cmd}.
Implicit Types rf : Raft Cmd.

(** ** Restart *)

Lemma readPersist_saved rf rf0 :
  readPersist (raftstate rf) rf0 =
    set_lastApplied (lastIncludedIndex rf) (set_commitIndex (lastIncludedIndex rf)
      (set_lastIncludedTerm (lastIncludedTerm rf) (set_lastIncludedIndex (lastIncludedIndex rf)
        (set_log (log rf) (set_votedFor (votedFor rf) (set_currentTerm (currentTerm rf) rf0)))))).
Proof using All.
  unfold readPersist, raftstate. rewrite gob_roundtrip. rewrite decide_False; [done|].
  destruct (gob_encode _) eqn:He; [by apply gob_nonempty in He|].
  unfold len. simpl. lia.
Qed.

Lemma readPersist_persisted rf n m :
  persisted rf →
  readPersist (ReadRaftState (persister rf)) (fresh_raft n m (persister rf)) =
    set_lastApplied (lastIncludedIndex rf) (set_commitIndex (lastIncludedIndex rf)
      (set_lastIncludedTerm (lastIncludedTerm rf) (set_lastIncludedIndex (lastIncludedIndex rf)
        (set_log (log rf) (set_votedFor (votedFor rf) (set_currentTerm (currentTerm rf)
          (fresh_raft n m (persister rf)))))))).
Proof using All.
  unfold ReadRaftState. rewrite clone_id.
  intros [->|(-> & -> & -> & -> & -> & ->)]; [apply readPersist_saved|].
  done.
Qed.

(** The peer [Make] builds after a crash of [rf]. *)
Definition restarted rf now draw : Raft Cmd :=
  Make (npeers rf) (me rf) (Checkpoint (persister rf)) now draw.

Definition queued_snapshot rf : option bytes :=
  if decide (lastIncludedIndex rf > 0 ∧ ps_snapshot (persister rf) ≠ []) then
    Some (ps_snapshot (persister rf))
  else None.

Lemma restarted_fields rf now draw :
  persisted rf →
  let rf' := restarted rf now draw in
  pers_same rf rf' ∧ me rf' = me rf ∧ npeers rf' = npeers rf ∧
  persister rf' = persister rf ∧ commitIndex rf' = lastIncludedIndex rf ∧
  lastApplied rf' = lastIncludedIndex rf ∧ role rf' = Follower ∧ applier_pc rf' = ApTop ∧
  dead rf' = false ∧ votes rf' = 0 ∧ started rf' = [] ∧
  nextIndex rf' = replicate (Z.to_nat (npeers rf)) 0 ∧
  matchIndex rf' = replicate (Z.to_nat (npeers rf)) 0 ∧
  pendingSnapshot rf' = queued_snapshot rf ∧
  (pendingSnapshot rf' ≠ None → pendingSnapshotIndex rf' = lastIncludedIndex rf).
Proof using All.
  intros Hp rf'. unfold rf', restarted. rewrite Checkpoint_id. unfold Make.
  rewrite readPersist_persisted by done. unfold ReadSnapshot. rewrite clone_id.
  cbn [lastIncludedIndex resetElectionTimer set_electionReset set_lastHeardAt set_lastApplied
    set_commitIndex set_lastIncludedTerm set_lastIncludedIndex].
  unfold queued_snapshot.
  case_decide as Hi; [case_decide as Hl|].
  - rewrite decide_True by (split; [done|intros Hs; by rewrite Hs in Hl]). by split_and!.
  - rewrite decide_False; [by split_and!|]. intros [_ Hs].
    destruct (ps_snapshot (persister rf)); [done|]. unfold len in Hl. simpl in Hl. lia.
  - rewrite decide_False by tauto. by split_and!.
Qed.

Lemma handle_persisted i rf rf' : persisted rf → handle i rf = Some rf' → persisted rf'.
Proof using All.
  intros Hp. destruct i; try (by apply (persisted_handlers _ rf rf')); simpl.
  - unfold Snapshot. case_decide; [by intros [= <-]|]. case_decide; [by intros [= <-]|].
    intros (t & _ & Ht)%bind_Some. case_decide; [done|].
    apply bind_Some in Ht as (l & _ & [= <-]). apply persisted_save.
  - unfold Start. case_decide; [by intros [= <-]|].
    intros ([rf1 r] & Hx & ->)%fmap_Some.
    apply bind_Some in Hx as (m & _ & (n & _ & [= <- _])%bind_Some).
    eapply pers_same_persisted; [|apply persisted_persist]. done.
  - unfold tick. case_decide; [|by intros [= <-]]. unfold startElection.
    intros (t & _ & [= <-])%bind_Some.
    eapply pers_same_persisted; [apply (pers_foldl_go (λ p, GoRequestVote p _))|].
    eapply pers_same_persisted; [|apply persisted_persist]. done.
  - unfold heartbeat, broadcastAppendEntries. case_bool_decide; [|by intros [= <-]].
    case_decide; intros [= <-]; [done|]. eapply pers_same_persisted; [|done]. apply pers_foldl_go.
  - unfold broadcastAppendEntries.
    case_decide; intros [= <-]; [done|]. eapply pers_same_persisted; [|done]. apply pers_foldl_go.
  - unfold vote_reply. case_decide; [by intros [= <-]|].
    case_decide; [intros [= <-]; by apply persisted_becomeFollower|].
    destruct (rvr_VoteGranted reply); [|by intros [= <-]].
    case_decide; [|by intros [= <-]]. intros Hx%pers_becomeLeader.
    by eapply pers_same_persisted.
  - unfold install_reply. case_decide; [by intros [= <-]|].
    case_decide; [intros [= <-]; by apply persisted_becomeFollower|].
    by intros (m & _ & (n & _ & [= <-])%bind_Some)%bind_Some.
  - by apply persisted_append_reply.
  - destruct (applier_pc rf); try by intros [= <-].
    intros Hx%pers_applier_top. by eapply pers_same_persisted.
  - destruct (applier_pc rf); by intros [= <-].
  - destruct (applier_pc rf); try by intros [= <-].
    intros [= <-]. unfold applier_sent. by case_decide.
  - intros [= <-]. eapply pers_same_persisted; [apply pers_signal|done].
  - intros [= <-]. destruct (restarted_fields rf now draw Hp) as (Hs & _).
    by eapply pers_same_persisted.
Qed.

(** ** Runs *)

Fixpoint run (ins : list (Input Cmd)) rf : option (Raft Cmd) :=
  match ins with
  | [] => Some rf
  | i :: ins => rf' ← handle i rf; run ins rf'
  end.

Definition boot (n me now draw : Z) : Raft Cmd := Make n me MakePersister now draw.

Lemma boot_persisted n me now draw : persisted (boot n me now draw).
Proof. right. done. Qed.

Lemma run_persisted ins rf rf' : persisted rf → run ins rf = Some rf' → persisted rf'.
Proof using All.
  revert rf. induction ins as [|i ins IH]; intros rf Hp; simpl; [by intros [= <-]|].
  intros (rf1 & H1 & H2)%bind_Some. eapply IH; [|done]. by eapply handle_persisted.
Qed.

(** C21: a crash loses nothing that was promised.  After any sequence of
    inputs, crashes included, a peer that is rebuilt by [Make] from a copy of
    its persister has the term, vote, log and snapshot position of the peer
    that crashed, starts as a follower at the snapshot, and hands the saved
    snapshot to the service first. *)
Theorem raft_crash_recovery n m now0 draw0 ins rf now draw :
  run ins (boot n m now0 draw0) = Some rf →
  let rf' := Make (npeers rf) (me rf) (Checkpoint (persister rf)) now draw in
  currentTerm rf' = currentTerm rf ∧ votedFor rf' = votedFor rf ∧ log rf' = log rf ∧
  lastIncludedIndex rf' = lastIncludedIndex rf ∧ lastIncludedTerm rf' = lastIncludedTerm rf ∧
  commitIndex rf' = lastIncludedIndex rf ∧ lastApplied rf' = lastIncludedIndex rf ∧
  role rf' = Follower ∧ pendingSnapshot rf' = queued_snapshot rf.
Proof using All.
  intros Hr rf'. pose proof (run_persisted _ _ _ (boot_persisted n m now0 draw0) Hr) as Hp.
  pose proof (restarted_fields rf now draw Hp) as Hf. cbv zeta in Hf.
  change (restarted rf now draw) with rf' in Hf. clearbody rf'.
  destruct Hf as ((_ & E1 & E2 & E3 & E4 & E5) & _ & _ & _ & E6 & E7 & E8 & _ & _ & _ & _ &
    _ & _ & E9 & _). by split_and!.
Qed.

Lemma restarted_wf rf now draw :
  raft_wf rf → persisted rf → raft_wf (restarted rf now draw).
Proof using All.
  intros Hwf Hp. pose proof (restarted_fields rf now draw Hp) as Hf. cbv zeta in Hf.
  pose proof (wf_last _ Hwf) as Hlast. destruct Hwf as [H1 H2 H3 H4 H5 H6 H7 H8 H9 H10].
  generalize dependent (restarted rf now draw). intros rf' Hf.
  destruct Hf as ((_ & _ & _ & E3 & E4 & E5) & E6 & E7 & _ & E9 & E10 & E11 & E12 & _ & _ & _ &
    E14 & E15 & E16 & E17).
  assert (len (replicate (Z.to_nat (npeers rf)) 0) = npeers rf) as Hlen.
  { unfold len. rewrite length_replicate. lia. }
  split; unfold delivered, pc_index, lastLogIndex in *;
    rewrite ?E6, ?E7, ?E9, ?E10, ?E11, ?E12, ?E14, ?E15, <-?E3, <-?E4, <-?E5; try done; [lia|lia|].
  intros data Hd. rewrite E17; [done|]. by rewrite Hd.
Qed.

Lemma raft_no_panic_step i rf :
  raft_wf rf → persisted rf → input_ok i rf →
  ∃ rf', handle i rf = Some rf' ∧ raft_wf rf' ∧ persisted rf'.
Proof using All.
  intros Hwf Hp Hok.
  assert (∃ rf', handle i rf = Some rf' ∧ raft_wf rf') as (rf' & Hh & Hwf').
  { destruct i as [| | | | | | | | | | | | | | |now draw]; try by apply handle_safe.
    eexists. split; [done|]. by apply restarted_wf. }
  exists rf'. split_and!; [done|done|]. by eapply handle_persisted.
Qed.

(** No input makes a peer panic, and every input keeps it well formed: as
    long as what the peer is told respects what is committed ([input_ok]),
    every handler, reply, timer and apply step, and a crash at any point, runs
    without an index or slice bound out of range and ends in a state whose
    sentinel, indices and leader arrays are consistent and saved on disk. *)
Theorem raft_no_panic i rf :
  raft_wf rf → persisted rf → input_ok i rf →
  ∃ rf', handle i rf = Some rf' ∧ raft_wf rf' ∧ persisted rf'.
Proof using All. apply raft_no_panic_step. Qed.

(** ** Terms and votes *)

Definition vote_mono rf rf' : Prop :=
  currentTerm rf < currentTerm rf' ∨
  (currentTerm rf = currentTerm rf' ∧ (votedFor rf ≠ -1 → votedFor rf' = votedFor rf)).

#[local] Instance vote_mono_preorder : PreOrder vote_mono.
Proof.
  split; [by intros x; right|]. unfold vote_mono. intros x y z [H1|[H1 H1']] [H2|[H2 H2']].
  - left. lia.
  - left. lia.
  - left. lia.
  - right. split; [lia|]. intros Hv. rewrite H2'; [auto|]. rewrite H1'; auto.
Qed.

Lemma vote_mono_same rf rf' : pers_same rf rf' → vote_mono rf rf'.
Proof. intros (_ & E1 & E2 & _). right. split; [done|congruence]. Qed.

Lemma vote_mono_becomeFollower term rf : vote_mono rf (becomeFollower term rf).
Proof.
  unfold becomeFollower. case_decide; [|by right]. left. simpl in *. lia.
Qed.

Lemma vote_mono_observe term rf : vote_mono rf (observe_term term rf).
Proof.
  unfold observe_term. case_decide; [apply vote_mono_becomeFollower|done].
Qed.

Lemma merge_entries_same prev i es rf rf' :
  merge_entries prev i es rf = Some rf' →
  currentTerm rf' = currentTerm rf ∧ votedFor rf' = votedFor rf.
Proof.
  revert i. induction es as [|e es IH]; intros i; cbn [merge_entries]; [by intros [= <-]|].
  case_decide; [by intros [= <-]|]. intros (t & _ & Ht)%bind_Some. case_decide; [|by eapply IH].
  by apply bind_Some in Ht as (k & _ & [= <-]).
Qed.

Lemma vote_mono_ae_append prev prevTerm entries c xlen rf rf' reply :
  ae_append prev prevTerm entries c xlen rf = Some (rf', reply) → vote_mono rf rf'.
Proof.
  unfold ae_append. case_decide; [by intros [= <- _]|].
  intros (t & _ & Ht)%bind_Some. case_decide.
  - by apply bind_Some in Ht as (i & _ & [= <- _]).
  - apply bind_Some in Ht as (rf1 & Hm%merge_entries_same & [= <- _]).
    etransitivity; [|apply vote_mono_same, pers_follow_commit].
    right. destruct Hm as [E1 E2]. simpl. split; [done|]. by rewrite E2.
Qed.

Lemma vote_mono_RequestVote args now rf rf' reply :
  RequestVote args now rf = Some (rf', reply) → vote_mono rf rf'.
Proof.
  unfold RequestVote. case_decide; [by intros [= <- _]|]. intros (ok & _ & Hx)%bind_Some.
  etransitivity; [apply (vote_mono_observe (rv_Term args))|].
  case_decide as Hv; injection Hx as <- _; [|done]. right. simpl. split; [done|].
  destruct Hv as [[Hv|Hv] _]; congruence.
Qed.

Lemma vote_mono_AppendEntries args now rf rf' reply :
  AppendEntries args now rf = Some (rf', reply) → vote_mono rf rf'.
Proof.
  unfold AppendEntries. case_decide; [by intros [= <- _]|]. intros Hx.
  etransitivity; [apply (vote_mono_observe (ae_Term args))|].
  etransitivity; [by apply (vote_mono_same _
    (set_lastHeardAt now (set_role Follower (observe_term (ae_Term args) rf))))|].
  case_decide; [|by eapply vote_mono_ae_append].
  case_decide; [injection Hx as <- _; apply vote_mono_same, pers_follow_commit|].
  apply bind_Some in Hx as (es & _ & Hx). by eapply vote_mono_ae_append.
Qed.

Lemma vote_mono_InstallSnapshot args now rf rf' reply :
  InstallSnapshot args now rf = Some (rf', reply) → vote_mono rf rf'.
Proof.
  unfold InstallSnapshot. case_decide; [by intros [= <- _]|]. intros Hx.
  etransitivity; [apply (vote_mono_observe (is_Term args))|].
  case_decide; [by injection Hx as <- _; right|].
  apply bind_Some in Hx as (l & _ & [= <- _]). simpl.
  etransitivity; [|apply vote_mono_same, pers_signal].
  right. simpl. by repeat case_decide.
Qed.

Lemma vote_mono_vote_reply term reply rf rf' :
  vote_reply term reply rf = Some rf' → vote_mono rf rf'.
Proof.
  unfold vote_reply. case_decide; [by intros [= <-]|].
  case_decide; [intros [= <-]; apply vote_mono_becomeFollower|].
  destruct (rvr_VoteGranted reply); [|by intros [= <-]].
  case_decide; [|intros [= <-]; by right]. intros Hx%pers_becomeLeader.
  by apply vote_mono_same in Hx.
Qed.

Lemma vote_mono_install_reply peer args reply rf rf' :
  install_reply peer args reply rf = Some rf' → vote_mono rf rf'.
Proof.
  unfold install_reply. case_decide; [by intros [= <-]|].
  case_decide; [intros [= <-]; apply vote_mono_becomeFollower|].
  intros (m & _ & (n & _ & [= <-])%bind_Some)%bind_Some. by right.
Qed.

Lemma vote_mono_append_reply peer args reply rf rf' :
  append_reply peer args reply rf = Some rf' → vote_mono rf rf'.
Proof.
  unfold append_reply. case_decide; [by intros [= <-]|].
  case_decide; [intros [= <-]; apply vote_mono_becomeFollower|].
  destruct (aer_Success reply).
  - intros (m & _ & (n & _ & Hx)%bind_Some)%bind_Some. apply pers_advance_from in Hx.
    by apply vote_mono_same in Hx.
  - intros (n & _ & (k & _ & (l & _ & [= <-])%bind_Some)%bind_Some)%bind_Some. by right.
Qed.

Lemma handle_vote_mono i rf rf' :
  persisted rf → handle i rf = Some rf' → vote_mono rf rf'.
Proof using All.
  intros Hp. destruct i; simpl.
  - intros ([rf1 r] & Hx & ->)%fmap_Some. by eapply vote_mono_RequestVote.
  - intros ([rf1 r] & Hx & ->)%fmap_Some. by eapply vote_mono_AppendEntries.
  - intros ([rf1 r] & Hx & ->)%fmap_Some. by eapply vote_mono_InstallSnapshot.
  - unfold Snapshot. case_decide; [by intros [= <-]|]. case_decide; [by intros [= <-]|].
    intros (t & _ & Ht)%bind_Some. case_decide; [done|].
    apply bind_Some in Ht as (l & _ & [= <-]). by right.
  - unfold Start. case_decide; [by intros [= <-]|].
    intros ([rf1 r] & Hx & ->)%fmap_Some.
    apply bind_Some in Hx as (m & _ & (n & _ & [= <- _])%bind_Some). by right.
  - unfold tick. case_decide; [|by intros [= <-]]. unfold startElection.
    intros (t & _ & [= <-])%bind_Some.
    etransitivity; [|apply vote_mono_same, (pers_foldl_go (λ p, GoRequestVote p _))].
    left. simpl. lia.
  - unfold heartbeat, broadcastAppendEntries. case_bool_decide; [|by intros [= <-]].
    case_decide; intros [= <-]; [done|]. apply vote_mono_same, pers_foldl_go.
  - unfold broadcastAppendEntries.
    case_decide; intros [= <-]; [done|]. apply vote_mono_same, pers_foldl_go.
  - apply vote_mono_vote_reply.
  - apply vote_mono_install_reply.
  - apply vote_mono_append_reply.
  - destruct (applier_pc rf); try by intros [= <-].
    intros Hx%pers_applier_top. by apply vote_mono_same.
  - destruct (applier_pc rf); intros [= <-]; by right.
  - destruct (applier_pc rf); try by intros [= <-].
    intros [= <-]. unfold applier_sent. case_decide; by right.
  - intros [= <-]. unfold Kill. etransitivity; [|apply vote_mono_same, pers_signal]. by right.
  - intros [= <-]. destruct (restarted_fields rf now draw Hp) as (Hs & _).
    by apply vote_mono_same.
Qed.

Lemma run_app ins ins' rf rf' rf'' :
  run ins rf = Some rf' → run ins' rf' = Some rf'' → run (ins ++ ins') rf = Some rf''.
Proof.
  revert rf. induction ins as [|i ins IH]; intros rf; simpl; [by intros [= ->]|].
  intros (rf1 & -> & Hr)%bind_Some Hr'. simpl. by apply IH.
Qed.

(** A peer votes at most once per term, whatever happens to it.  Between
    any two moments of a peer's life, crashes in between included, its term
    has grown or is the same, and in the same term a vote it has cast is still
    the vote it has cast. *)
Theorem raft_one_vote_per_term n m now draw ins1 ins2 rf1 rf2 :
  run ins1 (boot n m now draw) = Some rf1 → run ins2 rf1 = Some rf2 →
  currentTerm rf1 <= currentTerm rf2 ∧
  (currentTerm rf1 = currentTerm rf2 → votedFor rf1 ≠ -1 → votedFor rf2 = votedFor rf1).
Proof using All.
  intros H1 H2. pose proof (run_persisted _ _ _ (boot_persisted n m now draw) H1) as Hp.
  assert (vote_mono rf1 rf2) as Hv.
  { clear H1. revert rf1 Hp H2. induction ins2 as [|i ins IH]; intros rf1 Hp; simpl;
      [by intros [= ->]|].
    intros (rf' & Hh & Hr)%bind_Some. etransitivity; [by eapply handle_vote_mono|].
    apply IH; [by eapply handle_persisted|done]. }
  destruct Hv as [|[? ?]]; split; try lia; auto.
Qed.
End Persistence.
