(* ===== verification/RaftSpec.v ===== *)
(** * What the Raft operations compute

    Reference descriptions of the log merge of [AppendEntries], wherever the
    request starts, of its rejections, of the commit rule and of the leader's
    backing up, each proved equal to what the loops of [Raft.v] do. *)
From S2P Require Import Prelude Persister Raft RaftNode.

Section Spec.
Context {Cmd : Type} `{!Gob Cmd}.
Implicit Types rf : Raft Cmd.

(** ** The merge *)

(** Every entry of the request is in the merged log, by term. *)
Lemma merge_ref_has (tail entries : list (LogEntry Cmd)) j e :
  entries !! j = Some e → le_Term <$> merge_ref tail entries !! j = Some (le_Term e).
Proof.
  revert entries j. induction tail as [|x tail IH]; intros [|y entries] j He; try done.
  - simpl. by rewrite He.
  - cbn [merge_ref]. case_decide as Hxy; [|by rewrite He].
    destruct j as [|j]; simpl in *; [congruence|by apply IH].
Qed.

(** A request that does not contradict the log never shortens it. *)
Lemma merge_ref_prefix (tail entries : list (LogEntry Cmd)) :
  (∀ j x e, tail !! j = Some x → entries !! j = Some e → le_Term x = le_Term e) →
  tail `prefix_of` merge_ref tail entries.
Proof.
  revert entries. induction tail as [|x tail IH]; intros entries Hag; [apply prefix_nil|].
  destruct entries as [|e entries]; [done|]. cbn [merge_ref].
  rewrite decide_True by (by apply (Hag 0%nat)).
  apply prefix_cons, IH. intros j y z Hy Hz. by apply (Hag (S j)).
Qed.

Lemma merge_entries_fields prev i es rf rf' :
  merge_entries prev i es rf = Some rf' → ∃ l, rf' = set_log l rf.
Proof.
  revert i. induction es as [|e es IH]; intros i; cbn [merge_entries].
  - intros [= <-]. exists (log rf). by rewrite set_log_id.
  - case_decide; [intros [= <-]; by eexists|]. intros (t & _ & Ht)%bind_Some.
    case_decide; [|by eapply IH]. apply bind_Some in Ht as (k & _ & [= <-]). by eexists.
Qed.

Lemma follow_commit_fields c rf :
  log (follow_commit c rf) = log rf ∧ currentTerm (follow_commit c rf) = currentTerm rf ∧
  role (follow_commit c rf) = role rf ∧ lastLogIndex (follow_commit c rf) = lastLogIndex rf ∧
  commitIndex (follow_commit c rf) = Z.max (commitIndex rf) (Z.min c (lastLogIndex rf)).
Proof.
  unfold follow_commit. case_decide; [|split_and!; try done; lia].
  case_decide as Hn; [|split_and!; try done; case_decide; lia].
  assert (∀ rf0, log (signal rf0) = log rf0 ∧ currentTerm (signal rf0) = currentTerm rf0 ∧
    role (signal rf0) = role rf0 ∧ lastLogIndex (signal rf0) = lastLogIndex rf0 ∧
    commitIndex (signal rf0) = commitIndex rf0) as Hs.
  { intros rf0. unfold signal. by destruct (applier_pc rf0). }
  match goal with |- context [signal ?x] => destruct (Hs x) as (-> & -> & -> & -> & ->) end.
  split_and!; try done. simpl. case_decide; lia.
Qed.

(** The state after the common prologue of [AppendEntries]. *)
Definition as_follower (term now : Z) rf : Raft Cmd :=
  set_lastHeardAt now (set_role Follower (observe_term term rf)).

Lemma as_follower_fields term now rf :
  currentTerm rf <= term →
  currentTerm (as_follower term now rf) = term ∧
  log (as_follower term now rf) = log rf ∧
  lastIncludedIndex (as_follower term now rf) = lastIncludedIndex rf ∧
  lastIncludedTerm (as_follower term now rf) = lastIncludedTerm rf ∧
  commitIndex (as_follower term now rf) = commitIndex rf ∧
  lastLogIndex (as_follower term now rf) = lastLogIndex rf ∧
  (∀ i, termAt (as_follower term now rf) i = termAt rf i) ∧
  role (as_follower term now rf) = Follower.
Proof.
  intros Hle. unfold as_follower, observe_term, becomeFollower.
  repeat case_decide; split_and!; try done; simpl in *; lia.
Qed.

Lemma termAt_lookup rf (i : Z) (j : nat) :
  i = lastIncludedIndex rf + Z.of_nat j → termAt rf i = le_Term <$> log rf !! j.
Proof.
  intros ->. unfold termAt, go_index. rewrite decide_True by lia. do 2 f_equal. lia.
Qed.

(** The part of the handler after the previous entry is settled. *)
Lemma ae_append_merges prev prevTerm es leaderCommit xlen rf :
  lastIncludedIndex rf <= prev <= lastLogIndex rf → termAt rf prev = Some prevTerm →
  let p := Z.to_nat (prev + 1 - lastIncludedIndex rf) in
  ∃ rf', ae_append prev prevTerm es leaderCommit xlen rf =
      Some (rf', MkAEReply (currentTerm rf) true (-1) (-1) xlen) ∧
    role rf' = role rf ∧ currentTerm rf' = currentTerm rf ∧
    lastIncludedIndex rf' = lastIncludedIndex rf ∧
    log rf' = take p (log rf) ++ merge_ref (drop p (log rf)) es ∧
    commitIndex rf' = Z.max (commitIndex rf) (Z.min leaderCommit (lastLogIndex rf')).
Proof.
  intros Hprev Hmatch p. unfold ae_append. rewrite decide_False by lia.
  rewrite Hmatch. cbn [option_bind mbind]. rewrite decide_False by auto.
  rewrite merge_entries_ref by lia. cbn [option_bind mbind].
  replace (Z.to_nat (prev + 1 + 0 - lastIncludedIndex rf)) with p by lia.
  set (l := take p (log rf) ++ _).
  destruct (follow_commit_fields leaderCommit (persist (set_log l rf))) as (F1 & F2 & F3 & F4 & F5).
  assert (lastIncludedIndex (follow_commit leaderCommit (persist (set_log l rf))) =
    lastIncludedIndex rf) as F6.
  { unfold lastLogIndex in F4. rewrite F1 in F4. simpl in F4. lia. }
  rewrite F2. eexists. split; [done|]. rewrite F3, F2, F1, F5, F6.
  split_and!; [done..|]. by rewrite F4.
Qed.

(** The request is from a leader at least as new as the peer, and continues its
    log: at an entry they share, or below the snapshot, where the log is that of
    any leader. *)
Definition continues rf (args : AppendEntriesArgs Cmd) : Prop :=
  currentTerm rf <= ae_Term args ∧
  (ae_PrevLogIndex args < lastIncludedIndex rf ∨
   termAt rf (ae_PrevLogIndex args) = Some (ae_PrevLogTerm args)).

#[export] Instance continues_dec rf args : Decision (continues rf args).
Proof. unfold continues. apply _. Defined.

(** The index the merge starts after, and the entries of the request from there
    on. *)
Definition merge_base rf (args : AppendEntriesArgs Cmd) : Z :=
  Z.max (ae_PrevLogIndex args) (lastIncludedIndex rf).

Definition merged_entries rf (args : AppendEntriesArgs Cmd) : list (LogEntry Cmd) :=
  drop (Z.to_nat (merge_base rf args - ae_PrevLogIndex args)) (ae_Entries args).

Lemma continues_base rf args :
  raft_wf rf → continues rf args →
  lastIncludedIndex rf <= merge_base rf args <= lastLogIndex rf.
Proof.
  intros Hwf [_ Hc]. pose proof (wf_last _ Hwf) as Hlast. unfold merge_base.
  destruct Hc as [?|Hm]; [lia|]. apply termAt_set_log_lookup in Hm as (e & He%lookup_lt_Some & _ & ?).
  unfold lastLogIndex, len in *. lia.
Qed.

Lemma AppendEntries_merges args now rf :
  raft_wf rf → continues rf args →
  let p := Z.to_nat (merge_base rf args + 1 - lastIncludedIndex rf) in
  ∃ rf', AppendEntries args now rf =
      Some (rf', MkAEReply (ae_Term args) true (-1) (-1) (lastLogIndex rf + 1)) ∧
    role rf' = Follower ∧ currentTerm rf' = ae_Term args ∧
    lastIncludedIndex rf' = lastIncludedIndex rf ∧
    log rf' = take p (log rf) ++ merge_ref (drop p (log rf)) (merged_entries rf args) ∧
    commitIndex rf' = Z.max (commitIndex rf) (Z.min (ae_LeaderCommit args) (lastLogIndex rf')).
Proof.
  intros Hwf Hcont. cbn zeta. pose proof (continues_base rf args Hwf Hcont) as Hbase.
  destruct Hcont as [Hterm Hcase]. pose proof (wf_last _ Hwf) as Hlast.
  unfold AppendEntries. rewrite decide_False by lia.
  fold (as_follower (ae_Term args) now rf).
  destruct (as_follower_fields (ae_Term args) now rf Hterm)
    as (E1 & E2 & E3 & E4 & E5 & E6 & E7 & E8).
  set (rf2 := as_follower (ae_Term args) now rf) in *. clearbody rf2.
  unfold merged_entries, merge_base in *.
  case_decide as Hbelow; [case_decide as Hall|].
  - destruct (follow_commit_fields (ae_LeaderCommit args) rf2) as (F1 & F2 & F3 & F4 & F5).
    rewrite F2, E1. eexists. split; [done|]. rewrite F3, F2, F1, F5, E2.
    split_and!; [done|done|unfold lastLogIndex in F4, E6; rewrite F1, E2 in F4; lia| |by rewrite F4, E5].
    rewrite (drop_ge (ae_Entries args)) by (unfold len in Hall; lia). by rewrite merge_ref_nil, take_drop.
  - unfold go_from. rewrite decide_True by lia. cbn [option_bind mbind]. rewrite E3, E4.
    destruct (ae_append_merges (lastIncludedIndex rf) (lastIncludedTerm rf)
      (drop (Z.to_nat (lastIncludedIndex rf - ae_PrevLogIndex args)) (ae_Entries args))
      (ae_LeaderCommit args) (lastLogIndex rf + 1) rf2) as (rf' & -> & H1 & H2 & H3 & H4 & H5);
      [lia|rewrite E7; by apply wf_termAt_lii|].
    rewrite E1. eexists. split; [done|]. rewrite H1, H2, H3, H4, H5, E1, E2, E3, E5, E8.
    replace (Z.max (ae_PrevLogIndex args) (lastIncludedIndex rf)) with (lastIncludedIndex rf) in * by lia.
    by split_and!.
  - destruct Hcase as [?|Hmatch]; [lia|].
    replace (Z.max (ae_PrevLogIndex args) (lastIncludedIndex rf)) with (ae_PrevLogIndex args) in * by lia.
    destruct (ae_append_merges (ae_PrevLogIndex args) (ae_PrevLogTerm args) (ae_Entries args)
      (ae_LeaderCommit args) (lastLogIndex rf + 1) rf2) as (rf' & -> & H1 & H2 & H3 & H4 & H5);
      [lia|by rewrite E7|].
    rewrite E1. eexists. split; [done|]. rewrite H1, H2, H3, H4, H5, E1, E2, E3, E5, E8, Z.sub_diag.
    split_and!; done.
Qed.

Lemma merge_base_lookup rf args (j : nat) :
  lastIncludedIndex rf <= merge_base rf args →
  termAt rf (merge_base rf args + 1 + Z.of_nat j) =
    le_Term <$> drop (Z.to_nat (merge_base rf args + 1 - lastIncludedIndex rf)) (log rf) !! j.
Proof. intros Hb. rewrite lookup_drop. apply termAt_lookup. lia. Qed.

Lemma AppendEntries_turned_away args now rf :
  raft_wf rf → ¬ continues rf args →
  ∃ rf' reply, AppendEntries args now rf = Some (rf', reply) ∧ aer_Success reply = false.
Proof.
  intros Hwf Hn. pose proof (wf_last _ Hwf) as Hlast.
  unfold AppendEntries. case_decide as Hterm; [by do 2 eexists|].
  fold (as_follower (ae_Term args) now rf).
  destruct (as_follower_fields (ae_Term args) now rf ltac:(lia))
    as (E1 & E2 & E3 & E4 & E5 & E6 & E7 & E8).
  set (rf2 := as_follower (ae_Term args) now rf) in *. clearbody rf2.
  rewrite decide_False by (intros ?; apply Hn; split; lia).
  unfold ae_append. case_decide as Hlast2; [by do 2 eexists|].
  assert (lastIncludedIndex rf <= ae_PrevLogIndex args) as Hlii.
  { destruct (decide (ae_PrevLogIndex args < lastIncludedIndex rf)); [|lia].
    destruct Hn. split; lia. }
  destruct (termAt_some rf (ae_PrevLogIndex args)) as [t Ht]; [lia|].
  rewrite E7, Ht. cbn [option_bind mbind]. case_decide as Htt.
  - destruct (conflict_start_some rf2 t (Z.to_nat (ae_PrevLogIndex args - lastIncludedIndex rf2))
      (ae_PrevLogIndex args)) as (i & -> & _); [lia|lia|]. by do 2 eexists.
  - destruct Hn. split; [lia|]. right. rewrite Ht. f_equal. destruct (decide (t = ae_PrevLogTerm args)); done.
Qed.

(** C22: [AppendEntries] accepts exactly the requests that continue the log, and
    an accepted one merges as the protocol asks, wherever it starts.  What the
    snapshot covers is skipped, the log up to there is untouched and the rest is
    the reference merge; every entry of the request above the snapshot is in the
    log afterwards, and a request that agrees with the log (a duplicate or a
    re-ordered older one) does not shorten it.  The commit index becomes the
    leader's, capped by the last entry, and never falls. *)
Theorem AppendEntries_accept args now rf :
  raft_wf rf →
  ∃ rf' reply, AppendEntries args now rf = Some (rf', reply) ∧
    (aer_Success reply = true ↔ continues rf args) ∧
    (continues rf args →
      let p := Z.to_nat (merge_base rf args + 1 - lastIncludedIndex rf) in
      reply = MkAEReply (ae_Term args) true (-1) (-1) (lastLogIndex rf + 1) ∧
      role rf' = Follower ∧ currentTerm rf' = ae_Term args ∧
      log rf' = take p (log rf) ++ merge_ref (drop p (log rf)) (merged_entries rf args) ∧
      commitIndex rf' = Z.max (commitIndex rf) (Z.min (ae_LeaderCommit args) (lastLogIndex rf')) ∧
      (∀ j e, ae_Entries args !! j = Some e →
         lastIncludedIndex rf < ae_PrevLogIndex args + 1 + Z.of_nat j →
         termAt rf' (ae_PrevLogIndex args + 1 + Z.of_nat j) = Some (le_Term e)) ∧
      ((∀ j e t, ae_Entries args !! j = Some e →
          lastIncludedIndex rf < ae_PrevLogIndex args + 1 + Z.of_nat j →
          termAt rf (ae_PrevLogIndex args + 1 + Z.of_nat j) = Some t → t = le_Term e) →
       log rf `prefix_of` log rf')).
Proof.
  intros Hwf. destruct (decide (continues rf args)) as [Hc|Hc].
  2:{ destruct (AppendEntries_turned_away args now rf Hwf Hc) as (rf' & reply & -> & Hs).
      exists rf', reply. split; [done|]. split; [|done]. rewrite Hs. by split. }
  pose proof (continues_base rf args Hwf Hc) as Hbase.
  destruct (AppendEntries_merges args now rf Hwf Hc) as (rf' & -> & Hrole & Hterm & Hlii & Hlog & Hcommit).
  do 2 eexists. split; [done|]. split; [done|]. intros _ p. fold p in Hlog.
  split_and!; [done..| |].
  - intros j e He Hj. set (k := Z.to_nat (merge_base rf args - ae_PrevLogIndex args)).
    assert (merged_entries rf args !! (j - k)%nat = Some e) as Hm.
    { unfold merged_entries. fold k. rewrite lookup_drop. rewrite <-He. f_equal.
      unfold k, merge_base. lia. }
    assert (ae_PrevLogIndex args + 1 + Z.of_nat j = merge_base rf args + 1 + Z.of_nat (j - k)) as ->
      by (unfold k, merge_base in *; lia).
    rewrite (termAt_lookup rf' _ (p + (j - k))) by (unfold p; lia). rewrite Hlog.
    assert (length (take p (log rf)) = p) as Hp.
    { rewrite length_take. unfold lastLogIndex, len in Hbase. unfold p. lia. }
    rewrite lookup_app_r by lia.
    replace (p + (j - k) - length (take p (log rf)))%nat with (j - k)%nat by lia.
    by apply merge_ref_has.
  - intros Hag. rewrite Hlog. rewrite <-(take_drop p (log rf)) at 1. apply prefix_app.
    apply merge_ref_prefix. intros j x e Hx He. unfold merged_entries in He. rewrite lookup_drop in He.
    apply (Hag _ _ _ He); [unfold merge_base in *; lia|].
    replace (ae_PrevLogIndex args + 1 + _) with (merge_base rf args + 1 + Z.of_nat j)
      by (unfold merge_base in *; lia).
    rewrite merge_base_lookup by lia. fold p. by rewrite Hx.
Qed.

(** ** Rejections *)

(** [i] is where the run of entries of [term] that ends at [prev] begins. *)
Definition run_start rf (term prev i : Z) : Prop :=
  lastIncludedIndex rf <= i <= prev ∧
  (∀ k, i <= k <= prev → termAt rf k = Some term) ∧
  (i = lastIncludedIndex rf ∨ termAt rf (i - 1) ≠ Some term).

Lemma conflict_start_spec rf term n prev :
  termAt rf prev = Some term → Z.of_nat n = prev - lastIncludedIndex rf →
  prev <= lastLogIndex rf →
  ∃ i, conflict_start rf term n prev = Some i ∧ run_start rf term prev i.
Proof.
  revert prev. induction n as [|n IH]; intros prev Hp Hn Hlast; cbn [conflict_start].
  - exists prev. split; [done|]. split_and!; [lia|lia| |left; lia].
    intros k Hk. by replace k with prev by lia.
  - rewrite decide_True by lia. destruct (termAt_some rf (prev - 1)) as [t Ht]; [lia|].
    rewrite Ht. cbn [option_bind mbind]. case_decide as Heq.
    + subst t. destruct (IH (prev - 1)) as (i & -> & (Hi & Hrun & Hend)); [done|lia|lia|].
      exists i. split; [done|]. split_and!; [lia|lia| |done].
      intros k Hk. destruct (decide (k = prev)) as [->|]; [done|]. apply Hrun. lia.
    + exists prev. split; [done|]. split_and!; [lia|lia| |right; congruence].
      intros k Hk. by replace k with prev by lia.
Qed.

Lemma AppendEntries_backs_up args now rf :
  raft_wf rf → currentTerm rf <= ae_Term args →
  lastIncludedIndex rf <= ae_PrevLogIndex args →
  termAt rf (ae_PrevLogIndex args) ≠ Some (ae_PrevLogTerm args) →
  ∃ rf' ct ci, AppendEntries args now rf =
      Some (rf', MkAEReply (ae_Term args) false ct ci (lastLogIndex rf + 1)) ∧
    log rf' = log rf ∧ commitIndex rf' = commitIndex rf ∧
    (lastLogIndex rf < ae_PrevLogIndex args ∧ ct = -1 ∧ ci = lastLogIndex rf + 1 ∨
     ae_PrevLogIndex args <= lastLogIndex rf ∧ ct ≠ ae_PrevLogTerm args ∧
       run_start rf ct (ae_PrevLogIndex args) ci).
Proof.
  intros Hwf Hterm Hprev Hmis. unfold AppendEntries. rewrite decide_False by lia.
  fold (as_follower (ae_Term args) now rf).
  destruct (as_follower_fields (ae_Term args) now rf Hterm)
    as (E1 & E2 & E3 & E4 & E5 & E6 & E7 & E8).
  set (rf2 := as_follower (ae_Term args) now rf) in *. clearbody rf2.
  rewrite decide_False by lia. unfold ae_append. rewrite E1, E6.
  case_decide as Hlast.
  - do 3 eexists. split; [done|]. split_and!; [done|done|]. left. split; [lia|done].
  - destruct (termAt_some rf (ae_PrevLogIndex args)) as [t Ht]; [lia|].
    rewrite E7, Ht. cbn [option_bind mbind]. rewrite decide_True by congruence.
    destruct (conflict_start_spec rf2 t
      (Z.to_nat (ae_PrevLogIndex args - lastIncludedIndex rf2)) (ae_PrevLogIndex args))
      as (i & -> & Hi); [by rewrite E7|lia|lia|].
    cbn. do 3 eexists. split; [done|]. split_and!; [done|done|]. right.
    split; [lia|]. split; [congruence|].
    destruct Hi as (Hi & Hrun & Hend). rewrite E3 in *. split_and!; [lia|lia| |].
    + intros k Hk. rewrite <-E7. by apply Hrun.
    + by rewrite <-E7.
Qed.

(** A rejected [AppendEntries] tells the leader where to look.  A log too
    short answers its length; a different term at the previous entry answers
    that term and the first index of the run of entries that have it.  The log
    does not change. *)
Theorem AppendEntries_reject args now rf :
  raft_wf rf → currentTerm rf <= ae_Term args →
  lastIncludedIndex rf <= ae_PrevLogIndex args →
  termAt rf (ae_PrevLogIndex args) ≠ Some (ae_PrevLogTerm args) →
  ∃ rf' ct ci, AppendEntries args now rf =
      Some (rf', MkAEReply (ae_Term args) false ct ci (lastLogIndex rf + 1)) ∧
    log rf' = log rf ∧ commitIndex rf' = commitIndex rf ∧
    (lastLogIndex rf < ae_PrevLogIndex args ∧ ct = -1 ∧ ci = lastLogIndex rf + 1 ∨
     ae_PrevLogIndex args <= lastLogIndex rf ∧ ct ≠ ae_PrevLogTerm args ∧
       run_start rf ct (ae_PrevLogIndex args) ci).
Proof. apply AppendEntries_backs_up. Qed.

(** ** The commit rule *)

(** The leader itself and the other peers whose [matchIndex] reaches [N]. *)
Definition acks rf (N : Z) : Z :=
  1 + len (filter (λ i, default (N - 1) (go_index (matchIndex rf) i) >= N) (others rf)).

Definition committable rf (N : Z) : Prop :=
  termAt rf N = Some (currentTerm rf) ∧ acks rf N * 2 > npeers rf.

Lemma count_acks_spec rf N : raft_wf rf → count_acks rf N = Some (acks rf N).
Proof.
  intros Hwf. unfold count_acks, acks.
  assert (∀ l c, Forall (λ i, 0 <= i < npeers rf) l →
    foldl (λ oc i, c ← oc; m ← go_index (matchIndex rf) i;
      Some (if decide (m >= N) then c + 1 else c)) (Some c) l =
    Some (c + len (filter (λ i, default (N - 1) (go_index (matchIndex rf) i) >= N) l))) as H.
  { induction l as [|i l IH]; intros c Hl.
    - simpl. f_equal. unfold len. simpl. lia.
    - apply list.Forall_cons in Hl as [Hi Hl]. cbn [foldl].
      destruct (go_index_some (matchIndex rf) i) as [m Hm]; [by rewrite wf_match|].
      rewrite Hm. cbn [option_bind mbind]. rewrite IH by done.
      destruct (decide (m >= N)).
      + rewrite filter_cons_True by (by rewrite Hm). rewrite len_cons. f_equal. lia.
      + by rewrite filter_cons_False by (by rewrite Hm). }
  apply H. unfold others. apply list.Forall_forall.
  intros i [_ Hi]%list_elem_of_filter. apply elem_of_seqZ in Hi. lia.
Qed.

Lemma advance_from_spec rf n N :
  raft_wf rf → N <= lastLogIndex rf → N - Z.of_nat n <= commitIndex rf →
  let lo := Z.max (commitIndex rf) (lastIncludedIndex rf) in
  (∃ M, advance_from n N rf = Some (signal (set_commitIndex M rf)) ∧ lo < M <= N ∧
     committable rf M ∧ ∀ K, M < K <= N → ¬ committable rf K) ∨
  (advance_from n N rf = Some rf ∧ ∀ K, lo < K <= N → ¬ committable rf K).
Proof.
  intros Hwf HN Hn lo. pose proof (wf_last _ Hwf) as Hlast.
  revert N HN Hn. induction n as [|n IH]; intros N HN Hn; cbn [advance_from].
  { right. split; [done|]. intros K HK. lia. }
  case_decide; [|right; split; [done|intros K HK; lia]].
  case_decide; [right; split; [done|intros K HK; lia]|].
  destruct (termAt_some rf N) as [t Ht]; [lia|]. rewrite Ht. cbn [option_bind mbind].
  assert (¬ committable rf N →
    (∃ M, advance_from n (N - 1) rf = Some (signal (set_commitIndex M rf)) ∧ lo < M <= N ∧
       committable rf M ∧ ∀ K, M < K <= N → ¬ committable rf K) ∨
    (advance_from n (N - 1) rf = Some rf ∧ ∀ K, lo < K <= N → ¬ committable rf K)) as Hrec.
  { intros HnN. destruct (IH (N - 1)) as [(M & HM & Hlo & Hc & Hmax)|[HM Hmax]]; [lia|lia|..].
    - left. exists M. split_and!; [done|lia|lia|done|]. intros K HK.
      destruct (decide (K = N)) as [->|]; [done|]. apply Hmax. lia.
    - right. split; [done|]. intros K HK.
      destruct (decide (K = N)) as [->|]; [done|]. apply Hmax. lia. }
  case_decide; [apply Hrec; intros [Hc _]; congruence|].
  rewrite count_acks_spec by done. cbn [option_bind mbind].
  case_decide; [|apply Hrec; by intros [_ Hc]].
  left. exists N. split_and!; [done|lia|lia| |intros K HK; lia].
  split; [|done]. rewrite Ht. f_equal. lia.
Qed.

(** C23: the commit rule.  [advanceCommit] moves the commit index to the highest
    index above it that holds an entry of the current term and is acknowledged
    by a majority, and leaves the peer alone when there is none; in particular
    an entry of an older term is never committed by counting. *)
Theorem advanceCommit_spec rf :
  raft_wf rf →
  (∃ N, advanceCommit rf = Some (signal (set_commitIndex N rf)) ∧
     commitIndex rf < N <= lastLogIndex rf ∧ committable rf N ∧
     ∀ K, N < K <= lastLogIndex rf → ¬ committable rf K) ∨
  (advanceCommit rf = Some rf ∧
     ∀ K, Z.max (commitIndex rf) (lastIncludedIndex rf) < K <= lastLogIndex rf →
       ¬ committable rf K).
Proof.
  intros Hwf. unfold advanceCommit. pose proof (wf_last _ Hwf).
  destruct (advance_from_spec rf (Z.to_nat (lastLogIndex rf - commitIndex rf)) (lastLogIndex rf)
    Hwf) as [(N & -> & HN & Hc & Hmax)|[-> Hmax]]; [lia|lia|..].
  - left. exists N. split_and!; [done|lia|lia|done|done].
  - by right.
Qed.

(** ** Backing up *)

Lemma replicate_append peer args rf :
  replicate_args peer rf = Some (Some (ReqAppend args)) →
  ∃ nx, role rf = Leader ∧ go_index (nextIndex rf) peer = Some nx ∧
    lastIncludedIndex rf < nx ∧ ae_Term args = currentTerm rf ∧
    ae_PrevLogIndex args = nx - 1 ∧ termAt rf (nx - 1) = Some (ae_PrevLogTerm args) ∧
    ae_PrevLogIndex args + len (ae_Entries args) = lastLogIndex rf ∧
    ae_LeaderCommit args = commitIndex rf.
Proof.
  unfold replicate_args. case_decide; [done|]. intros (nx & Hnx & Ha)%bind_Some.
  case_decide as Hlii; [done|]. apply bind_Some in Ha as (t & Ht & Ha).
  case_decide as Hneg; [done|]. apply bind_Some in Ha as (es & Hes & [= <-]).
  unfold go_from in Hes. case_decide as Hle; [|done]. injection Hes as <-.
  exists nx. simpl. split_and!; try done; [lia|].
  rewrite len_drop by lia. unfold lastLogIndex. lia.
Qed.

(** A rejection in the follower's present term. *)
Lemma AppendEntries_rejected args now rf rf' reply :
  raft_wf rf → AppendEntries args now rf = Some (rf', reply) → aer_Success reply = false →
  aer_Term reply <= ae_Term args →
  lastIncludedIndex rf <= ae_PrevLogIndex args ∧
  termAt rf (ae_PrevLogIndex args) ≠ Some (ae_PrevLogTerm args) ∧
  (lastLogIndex rf < ae_PrevLogIndex args ∧ aer_ConflictTerm reply = -1 ∧
     aer_ConflictIndex reply = lastLogIndex rf + 1 ∨
   ae_PrevLogIndex args <= lastLogIndex rf ∧ aer_ConflictTerm reply ≠ ae_PrevLogTerm args ∧
     run_start rf (aer_ConflictTerm reply) (ae_PrevLogIndex args) (aer_ConflictIndex reply)).
Proof.
  intros Hwf Hae Hs Ht. pose proof (wf_last _ Hwf) as Hlast.
  destruct (decide (ae_Term args < currentTerm rf)) as [Hold|Hterm].
  { unfold AppendEntries in Hae. rewrite decide_True in Hae by done.
    injection Hae as <- <-. simpl in Ht. lia. }
  destruct (decide (ae_PrevLogIndex args < lastIncludedIndex rf)) as [Hp|Hp].
  { unfold AppendEntries in Hae. rewrite decide_False in Hae by done.
    fold (as_follower (ae_Term args) now rf) in Hae.
    destruct (as_follower_fields (ae_Term args) now rf ltac:(lia))
      as (E1 & E2 & E3 & E4 & E5 & E6 & E7 & E8).
    set (rf2 := as_follower (ae_Term args) now rf) in *. clearbody rf2.
    rewrite decide_True in Hae by lia. case_decide.
    - injection Hae as <- <-. done.
    - apply bind_Some in Hae as (es & _ & Hae). unfold ae_append in Hae.
      rewrite decide_False in Hae by lia. rewrite E3, E7, wf_termAt_lii, E4 in Hae by done.
      cbn [option_bind mbind] in Hae. rewrite decide_False in Hae by auto.
      apply bind_Some in Hae as (rf3 & _ & [= <- <-]). done. }
  destruct (decide (termAt rf (ae_PrevLogIndex args) = Some (ae_PrevLogTerm args))) as [Hm|Hm].
  { exfalso. destruct (AppendEntries_merges args now rf Hwf) as (rf3 & Heq & _); [split; [lia|by right]|].
    rewrite Hae in Heq. by injection Heq as _ ->. }
  destruct (AppendEntries_backs_up args now rf Hwf) as (rf3 & ct & ci & Heq & _ & _ & Hcase);
    [lia|lia|done|].
  rewrite Hae in Heq. injection Heq as _ ->. simpl. split_and!; [lia|done|done].
Qed.

(** A rejection that names an index up to the previous entry, or a term the
    leader does not have from there on, brings the next index down to there, and
    another request is on its way. *)
Lemma append_reply_backs_up leader peer args reply :
  raft_wf leader → 0 <= peer < npeers leader → role leader = Leader →
  currentTerm leader = ae_Term args → aer_Term reply <= ae_Term args → aer_Success reply = false →
  0 < ae_PrevLogIndex args → aer_ConflictIndex reply <= ae_PrevLogIndex args →
  (aer_ConflictTerm reply = -1 → 0 < aer_ConflictIndex reply) →
  (aer_ConflictTerm reply ≠ -1 → ∀ i, ae_PrevLogIndex args <= i →
     termAt leader i ≠ Some (aer_ConflictTerm reply)) →
  ∃ leader' nx', append_reply peer args reply leader = Some leader' ∧
    go_index (nextIndex leader') peer = Some nx' ∧ 1 <= nx' <= ae_PrevLogIndex args ∧
    started leader' = started leader ++ [GoReplicate peer].
Proof.
  intros Hl Hpeer Hrole Hterm Ht Hs Hprev Hci Hct1 Hct2. pose proof (wf_last _ Hl) as Hlast.
  rewrite <-(wf_next _ Hl) in Hpeer. destruct (go_index_some (nextIndex leader) peer Hpeer) as [nx Hnx].
  assert (∃ m, backup_next reply nx leader = Some m ∧ m <= ae_PrevLogIndex args) as (m & Hm & Hmle).
  { unfold backup_next. case_decide as Hct.
    - specialize (Hct1 Hct). eexists. split; [done|]. rewrite decide_True by lia. done.
    - destruct (last_of_term_some (Z.to_nat (lastLogIndex leader - lastIncludedIndex leader))
        (aer_ConflictTerm reply) (lastLogIndex leader) leader Hl) as (f & -> & Hfnd); [lia|lia|].
      cbn. eexists. split; [done|]. case_decide as Hf1; [|lia].
      destruct Hfnd as [|[Hfr Hft]]; [done|].
      destruct (decide (ae_PrevLogIndex args <= f)); [by destruct (Hct2 Hct f)|lia]. }
  unfold append_reply. rewrite decide_False by (intros [?|?]; [lia|done]).
  rewrite decide_False by lia. rewrite Hs, Hnx. cbn [option_bind mbind]. rewrite Hm.
  cbn [option_bind mbind]. rewrite go_set_some by done. cbn [option_bind mbind]. do 2 eexists.
  split; [done|]. cbn [go set_started started nextIndex set_nextIndex].
  split.
  - apply go_index_lookup. split; [lia|]. apply list_lookup_insert_eq. unfold len in Hpeer. lia.
  - split; [case_decide; lia|done].
Qed.
End Spec.
