(* ===== verification/GobString.v ===== *)
(** * A concrete encoder

    An instance of the encoder of [Raft.v] for commands that are strings: the
    values are numbered and the number is written out bit by bit.  It stands in
    for [encoding/gob] where a property is applied to a concrete run, and shows
    that the laws [GobLaws] can be met. *)
From S2P Require Import Prelude Persister Raft.

#[local] Instance entry_countable : Countable (LogEntry string).
Proof.
  refine (inj_countable' (λ e, (le_Term e, le_Command e)) (λ p, MkLogEntry p.1 p.2) _).
  by intros [].
Defined.

#[local] Instance GobVal_eq_dec : EqDecision (GobVal string).
Proof. solve_decision. Defined.

#[local] Instance GobVal_countable : Countable (GobVal string).
Proof.
  refine (inj_countable'
    (λ v, match v with GobInt z => inl z | GobLog l => inr (inl l) | GobCmds l => inr (inr l) end)
    (λ s, match s with inl z => GobInt z | inr (inl l) => GobLog l | inr (inr l) => GobCmds l end) _).
  by intros [].
Defined.

Fixpoint bits (p : positive) : bytes :=
  match p with
  | xH => [2]
  | xO p => 0 :: bits p
  | xI p => 1 :: bits p
  end.

Fixpoint unbits (b : bytes) : option positive :=
  match b with
  | [] => None
  | x :: b =>
      if decide (x = 2) then Some xH
      else p ← unbits b; Some (if decide (x = 1) then xI p else xO p)
  end.

Lemma unbits_bits p : unbits (bits p) = Some p.
Proof. induction p as [p IH|p IH|]; simpl; rewrite ?IH; done. Qed.

#[export] Instance gob_string : Gob string := {
  gob_encode vs := match vs with [] => [] | _ => bits (encode vs) end;
  gob_decode b := default [] (unbits b ≫= decode);
}.

#[export] Instance gob_string_laws : GobLaws string.
Proof.
  split.
  - intros [|v vs]; [done|]. unfold gob_decode, gob_encode, gob_string.
    rewrite unbits_bits. cbn [mbind option_bind]. by rewrite decode_encode.
  - intros v vs. unfold gob_encode, gob_string. by destruct (encode (v :: vs)).
Qed.
