(* ===== verification/RaftApply.v ===== *)
(** * The apply goroutine

    What reaches the service through [applyCh]: the goroutine never sleeps on
    work, and hands out commands one by one in index order as long as no stale
    snapshot is installed; a stale snapshot, which [InstallSnapshot] lets
    through, breaks the order. *)
From S2P Require Import Prelude Persister Raft RaftNode RaftTheorems GobString.

Section Apply.
Context {Cmd : Type} `{!Gob Cmd}.
Implicit Types rf : Raft Cmd.

(** ** No lost wakeup *)

(** What the loop would do something about. *)
Definition has_work rf : Prop :=
  dead rf = true ∨ pendingSnapshot rf ≠ None ∨
  (lastApplied rf < commitIndex rf ∧ lastApplied rf >= lastIncludedIndex rf).

Definition no_missed rf : Prop := applier_pc rf = ApWait → ¬ has_work rf.

(** No new work for a goroutine that waits. *)
Definition calm rf rf' : Prop :=
  applier_pc rf' = ApWait →
  applier_pc rf = ApWait ∧ dead rf' = dead rf ∧ pendingSnapshot rf' = pendingSnapshot rf ∧
  lastApplied rf' = lastApplied rf ∧ commitIndex rf' = commitIndex rf ∧
  lastIncludedIndex rf <= lastIncludedIndex rf'.

#[local] Instance calm_preorder : PreOrder calm.
Proof.
  split; [intros x Hx; by split_and!; try lia|].
  intros x y z Hxy Hyz Hz. destruct (Hyz Hz) as (Hy & E1 & E2 & E3 & E4 & E5).
  destruct (Hxy Hy) as (Hx & F1 & F2 & F3 & F4 & F5).
  split_and!; [done|congruence..|lia].
Qed.

Lemma calm_no_missed rf rf' : calm rf rf' → no_missed rf → no_missed rf'.
Proof.
  intros Hc Hm Hw. destruct (Hc Hw) as (Hw0 & E1 & E2 & E3 & E4 & E5). specialize (Hm Hw0).
  unfold has_work in *. rewrite E1, E2, E3, E4. intros [?|[?|[? ?]]]; apply Hm; auto.
  right. right. lia.
Qed.

Lemma calm_signal rf rf' : calm rf (signal rf').
Proof. unfold signal, calm. by destruct (applier_pc rf') eqn:Hpc; rewrite ?Hpc. Qed.

Lemma calm_foldl_go (f : Z → Goroutine) (l : list Z) rf :
  calm rf (foldl (λ rf i, go rf (f i)) rf l).
Proof.
  revert rf. induction l as [|i l IH]; intros rf; [done|]. simpl.
  etransitivity; [|apply IH]. by intros H; split_and!; try lia.
Qed.

Ltac calm_fields := intros ?; split_and!; try done; simpl; lia.

Lemma calm_follower now rf : calm rf (set_lastHeardAt now (set_role Follower rf)).
Proof. calm_fields. Qed.

Lemma calm_becomeFollower term rf : calm rf (becomeFollower term rf).
Proof. unfold becomeFollower. case_decide; calm_fields. Qed.

Lemma calm_observe term rf : calm rf (observe_term term rf).
Proof. unfold observe_term. case_decide; [apply calm_becomeFollower|done]. Qed.

Lemma calm_follow_commit c rf : calm rf (follow_commit c rf).
Proof. unfold follow_commit. repeat case_decide; try done; apply calm_signal. Qed.

Lemma calm_merge prev i es rf rf' : merge_entries prev i es rf = Some rf' → calm rf rf'.
Proof.
  revert i. induction es as [|e es IH]; intros i; cbn [merge_entries]; [by intros [= <-]|].
  case_decide; [intros [= <-]; calm_fields|]. intros (t & _ & Ht)%bind_Some.
  case_decide; [|by eapply IH]. apply bind_Some in Ht as (k & _ & [= <-]). calm_fields.
Qed.

Lemma calm_ae_append prev prevTerm es c xlen rf rf' reply :
  ae_append prev prevTerm es c xlen rf = Some (rf', reply) → calm rf rf'.
Proof.
  unfold ae_append. case_decide; [by intros [= <- _]|].
  intros (t & _ & Ht)%bind_Some. case_decide.
  - by apply bind_Some in Ht as (i & _ & [= <- _]).
  - apply bind_Some in Ht as (rf1 & Hm%calm_merge & [= <- _]).
    etransitivity; [exact Hm|]. etransitivity; [|apply calm_follow_commit]. calm_fields.
Qed.

Lemma calm_advance n N rf rf' : advance_from n N rf = Some rf' → calm rf rf'.
Proof.
  revert N. induction n as [|n IH]; intros N; cbn [advance_from]; [by intros [= <-]|].
  case_decide; [|by intros [= <-]]. case_decide; [by intros [= <-]|].
  intros (t & _ & Ht)%bind_Some. case_decide; [by eapply IH|].
  apply bind_Some in Ht as (k & _ & Hk). case_decide; [|by eapply IH].
  injection Hk as <-. apply calm_signal.
Qed.

Lemma calm_handlers i rf rf' :
  match i with
  | InRequestVote _ _ | InAppendEntries _ _ | InInstallSnapshot _ _ => True
  | _ => False
  end → handle i rf = Some rf' → calm rf rf'.
Proof.
  intros Hi. destruct i; try done; simpl; intros ([rf1 reply] & Hx & ->)%fmap_Some; simpl.
  - unfold RequestVote in Hx. case_decide; [by injection Hx as <- _|].
    apply bind_Some in Hx as (ok & _ & Hx). etransitivity; [apply (calm_observe (rv_Term args))|].
    case_decide; injection Hx as <- _; [calm_fields|done].
  - unfold AppendEntries in Hx. case_decide; [by injection Hx as <- _|].
    etransitivity; [apply (calm_observe (ae_Term args))|].
    etransitivity; [apply (calm_follower now)|].
    case_decide; [|by eapply calm_ae_append].
    case_decide; [injection Hx as <- _; apply calm_follow_commit|].
    apply bind_Some in Hx as (es & _ & Hx). by eapply calm_ae_append.
  - unfold InstallSnapshot in Hx. case_decide; [by injection Hx as <- _|].
    etransitivity; [apply (calm_observe (is_Term args))|].
    etransitivity; [apply (calm_follower now)|].
    case_decide; [by injection Hx as <- _|].
    apply bind_Some in Hx as (l & _ & [= <- _]). apply calm_signal.
Qed.

Lemma calm_replies i rf rf' :
  match i with
  | InVoteReply _ _ | InInstallReply _ _ _ | InAppendReply _ _ _ | InTick _ _ => True
  | _ => False
  end → handle i rf = Some rf' → calm rf rf'.
Proof.
  intros Hi. destruct i; try done; simpl.
  - unfold tick. case_decide; [|by intros [= <-]]. unfold startElection.
    intros (t & _ & [= <-])%bind_Some.
    etransitivity; [|apply (calm_foldl_go (λ p, GoRequestVote p _))]. calm_fields.
  - unfold vote_reply. case_decide; [by intros [= <-]|].
    case_decide; [intros [= <-]; apply calm_becomeFollower|].
    destruct (rvr_VoteGranted reply); [|by intros [= <-]].
    case_decide; [|intros [= <-]; calm_fields]. unfold becomeLeader.
    intros (m & _ & (n & _ & (k & _ & [= <-])%bind_Some)%bind_Some)%bind_Some. calm_fields.
  - unfold install_reply. case_decide; [by intros [= <-]|].
    case_decide; [intros [= <-]; apply calm_becomeFollower|].
    intros (m & _ & (n & _ & [= <-])%bind_Some)%bind_Some. calm_fields.
  - unfold append_reply. case_decide; [by intros [= <-]|].
    case_decide; [intros [= <-]; apply calm_becomeFollower|].
    destruct (aer_Success reply).
    + intros (m & _ & (n & _ & Hx)%bind_Some)%bind_Some. apply calm_advance in Hx.
      etransitivity; [|exact Hx]. calm_fields.
    + intros (n & _ & (k & _ & (l & _ & [= <-])%bind_Some)%bind_Some)%bind_Some. calm_fields.
Qed.

Lemma no_missed_top rf rf' : applier_top rf = Some rf' → no_missed rf'.
Proof.
  unfold applier_top. destruct (dead rf) eqn:Hd; [by intros [= <-]|].
  destruct (pendingSnapshot rf) eqn:Hp; [by intros [= <-]|].
  case_decide as Hc.
  - case_decide as Hl; [exfalso; lia|]. by intros (e & _ & [= <-])%bind_Some.
  - intros [= <-] _. unfold has_work. simpl. rewrite Hd, Hp. intros [?|[?|?]]; done.
Qed.

Lemma no_missed_handle i rf rf' : no_missed rf → handle i rf = Some rf' → no_missed rf'.
Proof.
  intros Hm. destruct i; try (intros Hh; eapply calm_no_missed; [|done];
    first [by eapply calm_handlers in Hh|by eapply calm_replies in Hh]); simpl.
  - unfold Snapshot. case_decide; [by intros [= <-]|]. case_decide; [by intros [= <-]|].
    intros (t & _ & Ht)%bind_Some. case_decide; [done|].
    apply bind_Some in Ht as (l & _ & [= <-]). eapply calm_no_missed; [|done]. calm_fields.
  - unfold Start. case_decide; [by intros [= <-]|].
    intros ([rf1 r] & Hx & ->)%fmap_Some.
    apply bind_Some in Hx as (m & _ & (n & _ & [= <- _])%bind_Some).
    eapply calm_no_missed; [|done]. calm_fields.
  - unfold heartbeat, broadcastAppendEntries. case_bool_decide; [|by intros [= <-]].
    case_decide; intros [= <-]; [done|]. eapply calm_no_missed; [apply calm_foldl_go|done].
  - unfold broadcastAppendEntries.
    case_decide; intros [= <-]; [done|]. eapply calm_no_missed; [apply calm_foldl_go|done].
  - destruct (applier_pc rf) eqn:Hpc; try by intros [= <-]. by apply no_missed_top.
  - destruct (applier_pc rf) eqn:Hpc; by intros [= <-].
  - destruct (applier_pc rf) eqn:Hpc; by intros [= <-].
  - intros [= <-]. eapply calm_no_missed; [apply calm_signal|done].
  - intros [= <-]. unfold Make, readPersist.
    repeat (case_decide || case_match); by intros ?.
Qed.
End Apply.

(** ** Lives of a peer *)

(** What a peer can be after inputs that respect the protocol. *)
Inductive lives {Cmd} `{!Gob Cmd} : Raft Cmd → Prop :=
| lives_boot n m now draw : 0 <= m < n → lives (boot n m now draw)
| lives_step rf i rf' : lives rf → input_ok i rf → handle i rf = Some rf' → lives rf'.

Lemma boot_wf {Cmd} `{!Gob Cmd} n m now draw :
  0 <= m < n → raft_wf (Cmd := Cmd) (boot n m now draw).
Proof.
  intros Hm. assert (len (replicate (Z.to_nat n) 0) = n) as Hlen.
  { unfold len. rewrite length_replicate. lia. }
  by split.
Qed.

Lemma lives_wf {Cmd} `{!Gob Cmd, !GobLaws Cmd} (rf : Raft Cmd) :
  lives rf → raft_wf rf ∧ persisted rf ∧ no_missed rf.
Proof.
  induction 1 as [n m now draw Hm|rf i rf' _ (Hwf & Hp & Hn) Hok Hh].
  - split_and!; [by apply boot_wf|apply boot_persisted|done].
  - destruct (raft_no_panic_step i rf Hwf Hp Hok) as (rf1 & Hh1 & Hwf1 & Hp1).
    rewrite Hh in Hh1. injection Hh1 as <-. split_and!; [done|done|].
    by eapply no_missed_handle.
Qed.

(** C25: no lost wakeup.  Whenever the apply goroutine of a peer waits on its
    condition variable, there is nothing left for it to do: the peer is not
    killed, no snapshot is queued, and everything committed has been applied. *)
Theorem apply_no_lost_wakeup {Cmd} `{!Gob Cmd, !GobLaws Cmd} (rf : Raft Cmd) :
  lives rf → applier_pc rf = ApWait →
  dead rf = false ∧ pendingSnapshot rf = None ∧ lastApplied rf = commitIndex rf.
Proof.
  intros Hl Hpc. destruct (lives_wf rf Hl) as (Hwf & _ & Hn). specialize (Hn Hpc).
  unfold has_work in Hn. pose proof (wf_lii _ Hwf) as Hlii. unfold delivered in Hlii.
  rewrite Hpc in Hlii. pose proof (wf_applied _ Hwf). split_and!.
  - destruct (dead rf); [|done]. exfalso. apply Hn. by left.
  - destruct (pendingSnapshot rf); [|done]. exfalso. apply Hn. by right; left.
  - destruct (decide (lastApplied rf = commitIndex rf)); [done|]. exfalso. apply Hn.
    right. right. lia.
Qed.

(** ** Order of delivery *)

Section Order.
Context {Cmd : Type} `{!Gob Cmd}.
Implicit Types rf : Raft Cmd.

(** The message an input hands to the service, if any. *)
Definition received (i : Input Cmd) rf : list (ApplyMsg Cmd) :=
  match i, applier_pc rf with
  | InApplierReceived, ApSend msg _ => [msg]
  | _, _ => []
  end.

Fixpoint deliveries (ins : list (Input Cmd)) rf : list (ApplyMsg Cmd) :=
  match ins with
  | [] => []
  | i :: ins =>
      received i rf ++
      match handle i rf with Some rf' => deliveries ins rf' | None => [] end
  end.

(** Commands come one by one; a snapshot never goes back. *)
Fixpoint in_order (applied : Z) (msgs : list (ApplyMsg Cmd)) : Prop :=
  match msgs with
  | [] => True
  | CommandMsg _ k :: msgs => k = applied + 1 ∧ in_order k msgs
  | SnapshotMsg _ k _ :: msgs => applied <= k ∧ in_order k msgs
  end.

(** The highest index that was applied or is on its way to the service. *)
Definition sending rf : Z :=
  match applier_pc rf with ApSend _ k | ApSent k => Z.max (lastApplied rf) k | _ => lastApplied rf end.

(** No snapshot is installed that the service is already past, or without its
    data; no crash. *)
Definition not_stale (i : Input Cmd) rf : Prop :=
  match i with
  | InInstallSnapshot args _ =>
      currentTerm rf <= is_Term args → lastIncludedIndex rf < is_LastIncludedIndex args →
      sending rf <= is_LastIncludedIndex args ∧ is_Data args ≠ None
  | InRestart _ _ => False
  | _ => True
  end.

Fixpoint never_stale (ins : list (Input Cmd)) rf : Prop :=
  match ins with
  | [] => True
  | i :: ins =>
      not_stale i rf ∧
      match handle i rf with Some rf' => never_stale ins rf' | None => True end
  end.

(** [D] is the last index the service saw. *)
Definition base (D : Z) rf : Z :=
  match applier_pc rf with ApSend _ k | ApSent k => k | _ => D end.

Definition next_msg_ok (D : Z) rf : Prop :=
  match applier_pc rf with
  | ApSend (CommandMsg _ i) k => i = k ∧ k = D + 1
  | ApSend (SnapshotMsg _ i _) k => i = k ∧ D <= k
  | ApSent k => k = D
  | _ => True
  end.

Definition order_inv (D : Z) rf : Prop :=
  next_msg_ok D rf ∧
  match pendingSnapshot rf with
  | Some _ => pendingSnapshotIndex rf = lastApplied rf ∧ base D rf <= lastApplied rf
  | None =>
      lastApplied rf <= base D rf ∧
      match applier_pc rf with ApSend _ _ | ApSent _ => True | _ => lastApplied rf = D end
  end.

(** What does not touch the apply goroutine, or only wakes it. *)
Definition same_apply rf rf' : Prop :=
  (applier_pc rf' = applier_pc rf ∨ applier_pc rf = ApWait ∧ applier_pc rf' = ApTop) ∧
  lastApplied rf' = lastApplied rf ∧ pendingSnapshot rf' = pendingSnapshot rf ∧
  pendingSnapshotIndex rf' = pendingSnapshotIndex rf.

#[export] Instance same_apply_preorder : PreOrder same_apply.
Proof.
  split; [by intros x; split_and!; auto|].
  intros x y z (H1 & E1 & E2 & E3) (H2 & F1 & F2 & F3). split_and!; [|congruence..].
  destruct H1 as [H1|[H1 H1']], H2 as [H2|[H2 H2']]; rewrite ?H1 in *; auto.
  - right. by rewrite H2.
Qed.

Lemma same_apply_inv D rf rf' : same_apply rf rf' → order_inv D rf → order_inv D rf'.
Proof.
  intros (Hpc & E1 & E2 & E3). unfold order_inv, next_msg_ok, base. rewrite E1, E2, E3.
  destruct Hpc as [->|[-> ->]]; done.
Qed.

Lemma same_apply_signal rf : same_apply rf (signal rf).
Proof. unfold signal, same_apply. destruct (applier_pc rf) eqn:Hpc; simpl; rewrite ?Hpc; auto. Qed.

Lemma same_apply_foldl_go (f : Z → Goroutine) (l : list Z) rf :
  same_apply rf (foldl (λ rf i, go rf (f i)) rf l).
Proof.
  revert rf. induction l as [|i l IH]; intros rf; [done|]. simpl.
  etransitivity; [|apply IH]. by split_and!; auto.
Qed.

Ltac same_fields := split_and!; [by left|done|done|done].

Lemma same_apply_becomeFollower term rf : same_apply rf (becomeFollower term rf).
Proof. unfold becomeFollower. case_decide; same_fields. Qed.

Lemma same_apply_observe term rf : same_apply rf (observe_term term rf).
Proof. unfold observe_term. case_decide; [apply same_apply_becomeFollower|done]. Qed.

Lemma same_apply_follow_commit c rf : same_apply rf (follow_commit c rf).
Proof.
  unfold follow_commit. repeat case_decide; try done;
    (etransitivity; [|apply same_apply_signal]); same_fields.
Qed.

Lemma same_apply_merge prev i es rf rf' : merge_entries prev i es rf = Some rf' → same_apply rf rf'.
Proof.
  revert i. induction es as [|e es IH]; intros i; cbn [merge_entries]; [by intros [= <-]|].
  case_decide; [intros [= <-]; same_fields|]. intros (t & _ & Ht)%bind_Some.
  case_decide; [|by eapply IH]. apply bind_Some in Ht as (k & _ & [= <-]). same_fields.
Qed.

Lemma same_apply_ae_append prev prevTerm es c xlen rf rf' reply :
  ae_append prev prevTerm es c xlen rf = Some (rf', reply) → same_apply rf rf'.
Proof.
  unfold ae_append. case_decide; [by intros [= <- _]|].
  intros (t & _ & Ht)%bind_Some. case_decide.
  - by apply bind_Some in Ht as (i & _ & [= <- _]).
  - apply bind_Some in Ht as (rf1 & Hm%same_apply_merge & [= <- _]).
    etransitivity; [exact Hm|]. etransitivity; [|apply same_apply_follow_commit]. same_fields.
Qed.

Lemma same_apply_advance n N rf rf' : advance_from n N rf = Some rf' → same_apply rf rf'.
Proof.
  revert N. induction n as [|n IH]; intros N; cbn [advance_from]; [by intros [= <-]|].
  case_decide; [|by intros [= <-]]. case_decide; [by intros [= <-]|].
  intros (t & _ & Ht)%bind_Some. case_decide; [by eapply IH|].
  apply bind_Some in Ht as (k & _ & Hk). case_decide; [|by eapply IH].
  injection Hk as <-. etransitivity; [|apply same_apply_signal]. same_fields.
Qed.

Definition apply_input (i : Input Cmd) : bool :=
  match i with
  | InInstallSnapshot _ _ | InApplierTop | InApplierReceived | InApplierSent | InRestart _ _ => true
  | _ => false
  end.

Lemma same_apply_handle i rf rf' :
  apply_input i = false → handle i rf = Some rf' → same_apply rf rf'.
Proof.
  intros Hi. destruct i; try done; simpl.
  - intros ([rf1 r] & Hx & ->)%fmap_Some. unfold RequestVote in Hx.
    case_decide; [by injection Hx as <- _|]. apply bind_Some in Hx as (ok & _ & Hx).
    etransitivity; [apply (same_apply_observe (rv_Term args))|].
    case_decide; injection Hx as <- _; [same_fields|done].
  - intros ([rf1 r] & Hx & ->)%fmap_Some. unfold AppendEntries in Hx.
    case_decide; [by injection Hx as <- _|].
    etransitivity; [apply (same_apply_observe (ae_Term args))|].
    transitivity (set_lastHeardAt now (set_role Follower (observe_term (ae_Term args) rf)));
      [same_fields|].
    case_decide; [|by eapply same_apply_ae_append].
    case_decide; [injection Hx as <- _; apply same_apply_follow_commit|].
    apply bind_Some in Hx as (es & _ & Hx). by eapply same_apply_ae_append.
  - unfold Snapshot. case_decide; [by intros [= <-]|]. case_decide; [by intros [= <-]|].
    intros (t & _ & Ht)%bind_Some. case_decide; [done|].
    apply bind_Some in Ht as (l & _ & [= <-]). same_fields.
  - unfold Start. case_decide; [by intros [= <-]|].
    intros ([rf1 r] & Hx & ->)%fmap_Some.
    apply bind_Some in Hx as (m & _ & (n & _ & [= <- _])%bind_Some). same_fields.
  - unfold tick. case_decide; [|by intros [= <-]]. unfold startElection.
    intros (t & _ & [= <-])%bind_Some.
    etransitivity; [|apply (same_apply_foldl_go (λ p, GoRequestVote p _))]. same_fields.
  - unfold heartbeat, broadcastAppendEntries. case_bool_decide; [|by intros [= <-]].
    case_decide; intros [= <-]; [done|]. apply same_apply_foldl_go.
  - unfold broadcastAppendEntries.
    case_decide; intros [= <-]; [done|]. apply same_apply_foldl_go.
  - unfold vote_reply. case_decide; [by intros [= <-]|].
    case_decide; [intros [= <-]; apply same_apply_becomeFollower|].
    destruct (rvr_VoteGranted reply); [|by intros [= <-]].
    case_decide; [|intros [= <-]; same_fields]. unfold becomeLeader.
    intros (m & _ & (n & _ & (k & _ & [= <-])%bind_Some)%bind_Some)%bind_Some. same_fields.
  - unfold install_reply. case_decide; [by intros [= <-]|].
    case_decide; [intros [= <-]; apply same_apply_becomeFollower|].
    intros (m & _ & (n & _ & [= <-])%bind_Some)%bind_Some. same_fields.
  - unfold append_reply. case_decide; [by intros [= <-]|].
    case_decide; [intros [= <-]; apply same_apply_becomeFollower|].
    destruct (aer_Success reply).
    + intros (m & _ & (n & _ & Hx)%bind_Some)%bind_Some. apply same_apply_advance in Hx.
      etransitivity; [|exact Hx]. same_fields.
    + intros (n & _ & (k & _ & (l & _ & [= <-])%bind_Some)%bind_Some)%bind_Some. same_fields.
  - intros [= <-]. unfold Kill. etransitivity; [|apply same_apply_signal]. same_fields.
Qed.

Lemma install_apply args now rf rf' :
  handle (InInstallSnapshot args now) rf = Some rf' →
  same_apply rf rf' ∨
  currentTerm rf <= is_Term args ∧ lastIncludedIndex rf < is_LastIncludedIndex args ∧
  ∃ rf1, same_apply rf1 rf' ∧ applier_pc rf1 = applier_pc rf ∧
    lastApplied rf1 = Z.max (lastApplied rf) (is_LastIncludedIndex args) ∧
    pendingSnapshot rf1 = is_Data args ∧ pendingSnapshotIndex rf1 = is_LastIncludedIndex args.
Proof.
  simpl. intros ([rf1 r] & Hx & ->)%fmap_Some. unfold InstallSnapshot in Hx.
  case_decide; [left; by injection Hx as <- _|].
  set (rf2 := set_lastHeardAt now _) in Hx.
  assert (same_apply rf rf2 ∧ lastIncludedIndex rf2 = lastIncludedIndex rf ∧
    applier_pc rf2 = applier_pc rf ∧ lastApplied rf2 = lastApplied rf) as (Hs & E1 & E2 & E3).
  { unfold rf2, observe_term, becomeFollower. repeat case_decide; (split; [same_fields|done]). }
  clearbody rf2. case_decide; [left; by injection Hx as <- _|].
  right. split; [lia|]. split; [lia|]. apply bind_Some in Hx as (l & _ & [= <- _]).
  eexists. split; [apply same_apply_signal|]. simpl.
  split_and!; [by repeat case_decide| |done|done].
  rewrite <-E3. repeat case_decide; simpl in *; lia.
Qed.

Lemma order_install D args now rf rf' :
  not_stale (InInstallSnapshot args now) rf → handle (InInstallSnapshot args now) rf = Some rf' →
  order_inv D rf → order_inv D rf'.
Proof.
  intros Hns Hh Hinv.
  destruct (install_apply _ _ _ _ Hh) as [Hs|(Ht & Hlii & rf1 & Hs & Epc & Ela & Ep & Ei)].
  { by eapply same_apply_inv. }
  eapply same_apply_inv; [exact Hs|]. destruct (Hns Ht Hlii) as [Hsend Hdata].
  destruct Hinv as [Hmsg Hpend]. unfold order_inv, next_msg_ok, base, sending in *.
  rewrite Epc, Ela, Ep, Ei. split; [done|].
  destruct (is_Data args); [|done].
  destruct (applier_pc rf), (pendingSnapshot rf); lia.
Qed.

Lemma order_top D rf rf' :
  applier_pc rf = ApTop → applier_top rf = Some rf' → order_inv D rf → order_inv D rf'.
Proof.
  intros Hpc Htop [_ Hinv]. unfold applier_top in Htop. unfold base in Hinv.
  rewrite Hpc in Hinv. destruct (dead rf).
  { injection Htop as <-. by split. }
  destruct (pendingSnapshot rf) as [data|] eqn:Hp.
  { injection Htop as <-. destruct Hinv as [Hi Hd].
    split; unfold next_msg_ok, base; simpl; [split; [done|lia]|]. split; [lia|done]. }
  case_decide as Hc.
  - case_decide; [exfalso; lia|]. apply bind_Some in Htop as (e & _ & [= <-]).
    split; unfold next_msg_ok, base; simpl; [split; [done|lia]|]. rewrite Hp. split; [lia|done].
  - injection Htop as <-. split; unfold base; simpl; [done|]. by rewrite Hp.
Qed.

(** The service's view after an input. *)
Definition seen (D : Z) (msgs : list (ApplyMsg Cmd)) : Z :=
  match msgs with
  | [] => D
  | CommandMsg _ k :: _ | SnapshotMsg _ k _ :: _ => k
  end.

Lemma order_step D i rf rf' :
  not_stale i rf → handle i rf = Some rf' → order_inv D rf →
  in_order D (received i rf) ∧ order_inv (seen D (received i rf)) rf'.
Proof.
  intros Hns Hh Hinv. destruct (apply_input i) eqn:Hi.
  - destruct i; try done.
    + split; [done|]. by eapply order_install.
    + split; [done|]. simpl in Hh. destruct (applier_pc rf) eqn:Hpc; try by injection Hh as <-.
      by eapply order_top.
    + unfold received. simpl in Hh.
      destruct (applier_pc rf) as [| |msg k|k|] eqn:Hpc; try by injection Hh as <-.
      injection Hh as <-. destruct Hinv as [Hmsg Hpend].
      unfold next_msg_ok, base in Hmsg, Hpend. rewrite Hpc in Hmsg, Hpend.
      unfold order_inv, next_msg_ok, base. simpl.
      destruct msg as [c n|b n t]; destruct Hmsg as [-> Hk]; simpl; split_and!; try done;
        by destruct (pendingSnapshot rf).
    + split; [done|]. simpl in *.
      destruct (applier_pc rf) as [| |msg k|k|] eqn:Hpc; try by injection Hh as <-.
      injection Hh as <-. destruct Hinv as [Hmsg Hpend].
      unfold next_msg_ok, base in Hmsg, Hpend. rewrite Hpc in Hmsg, Hpend. subst k.
      unfold order_inv, next_msg_ok, base, applier_sent.
      case_decide; simpl; destruct (pendingSnapshot rf); split; try done; lia.
  - assert (received i rf = []) as -> by (by destruct i).
    split; [done|]. eapply same_apply_inv; [by eapply same_apply_handle|done].
Qed.

Lemma in_order_app D msgs msgs' :
  (length msgs <= 1)%nat → in_order D msgs → in_order (seen D msgs) msgs' → in_order D (msgs ++ msgs').
Proof.
  destruct msgs as [|[c k|b k t] [|? ?]]; simpl; intros Hl H H'; try done; try lia;
    by destruct H.
Qed.

Lemma received_le1 i rf : (length (received i rf) <= 1)%nat.
Proof. unfold received. destruct i; simpl; try lia. destruct (applier_pc rf); simpl; lia. Qed.

Lemma order_run D ins rf : never_stale ins rf → order_inv D rf → in_order D (deliveries ins rf).
Proof.
  revert D rf. induction ins as [|i ins IH]; intros D rf; [done|]. cbn [never_stale deliveries].
  intros [Hns Hrest] Hinv. destruct (handle i rf) as [rf'|] eqn:Hh.
  - destruct (order_step D i rf rf' Hns Hh Hinv) as [H1 H2].
    apply in_order_app; [by apply received_le1|done|by apply IH].
  - rewrite app_nil_r. unfold received. destruct i; try done. simpl in Hh.
    by destruct (applier_pc rf).
Qed.

(** C26: commands are applied in order.  From the start of a peer, as long as no
    snapshot older than what the service already has is installed, the service
    receives commands at consecutive indices, and a snapshot only to move
    forward, after which the commands continue right behind it. *)
Theorem apply_in_order n m now draw ins :
  never_stale ins (boot n m now draw) → in_order 0 (deliveries ins (boot n m now draw)).
Proof. intros H. apply order_run; [done|]. by split. Qed.
End Order.

(** ** A snapshot that is already applied *)

(** Inputs that respect the protocol, all along a run. *)
Fixpoint run_ok {Cmd} `{!Gob Cmd} (ins : list (Input Cmd)) (rf : Raft Cmd) : Prop :=
  match ins with
  | [] => True
  | i :: ins =>
      input_ok i rf ∧ match handle i rf with Some rf' => run_ok ins rf' | None => False end
  end.

(** An executable check of the conditions on the inputs that runs below use. *)
Definition entry_okb {Cmd} (rf : Raft Cmd) (prev : Z) (j : nat) (e : LogEntry Cmd) : bool :=
  let i := prev + 1 + Z.of_nat j in
  bool_decide (¬ (lastIncludedIndex rf < i <= commitIndex rf) ∨ termAt rf i = Some (le_Term e)).

Definition input_okb {Cmd} (i : Input Cmd) (rf : Raft Cmd) : bool :=
  match i with
  | InAppendEntries args _ =>
      forallb (λ p, entry_okb rf (ae_PrevLogIndex args) p.1 p.2)
        (zip (seq 0 (length (ae_Entries args))) (ae_Entries args))
  | InInstallSnapshot args _ =>
      bool_decide (¬ (lastIncludedIndex rf < is_LastIncludedIndex args <= commitIndex rf) ∨
        termAt rf (is_LastIncludedIndex args) = Some (is_LastIncludedTerm args))
  | InSnapshot index _ => bool_decide (index <= delivered rf)
  | InInstallReply _ _ _ | InAppendReply _ _ _ => false
  | _ => true
  end.

Lemma input_okb_ok {Cmd} (i : Input Cmd) rf : input_okb i rf = true → input_ok i rf.
Proof.
  destruct i; try done; simpl.
  - intros Hall j e He Hj. rewrite forallb_forall in Hall.
    specialize (Hall (j, e)). unfold entry_okb in Hall. simpl in Hall.
    assert (In (j, e) (zip (seq 0 (length (ae_Entries args))) (ae_Entries args))) as Hin.
    { apply list_elem_of_In. apply (list_elem_of_lookup_2 _ j). apply lookup_zip_with_Some.
      exists j, e. split_and!; [done| |done]. apply lookup_seq.
      split; [lia|by eapply lookup_lt_Some]. }
    specialize (Hall Hin). apply bool_decide_eq_true in Hall. tauto.
  - intros H%bool_decide_eq_true. tauto.
  - by intros H%bool_decide_eq_true.
Qed.

Fixpoint run_okb {Cmd} `{!Gob Cmd} (ins : list (Input Cmd)) (rf : Raft Cmd) : bool :=
  match ins with
  | [] => true
  | i :: ins =>
      input_okb i rf && match handle i rf with Some rf' => run_okb ins rf' | None => false end
  end.

Lemma run_okb_ok {Cmd} `{!Gob Cmd} (ins : list (Input Cmd)) rf :
  run_okb ins rf = true → run_ok ins rf.
Proof.
  revert rf. induction ins as [|i ins IH]; intros rf; [done|]. cbn [run_okb run_ok].
  intros [Hi Hr]%andb_true_iff. split; [by apply input_okb_ok|].
  destruct (handle i rf); [by apply IH|done].
Qed.

Lemma run_ok_lives {Cmd} `{!Gob Cmd} (ins : list (Input Cmd)) rf rf' :
  lives rf → run_ok ins rf → run ins rf = Some rf' → lives rf'.
Proof.
  revert rf. induction ins as [|i ins IH]; intros rf Hl; cbn [run run_ok]; [by intros _ [= <-]|].
  intros [Hi Hr] (rf1 & Hh & Hrun)%bind_Some. rewrite Hh in Hr.
  eapply IH; [by eapply lives_step|done|done].
Qed.

Definition apply_round {Cmd} : list (Input Cmd) := [InApplierTop; InApplierReceived; InApplierSent].

(** Follower 1 of three gets two entries from leader 0 and applies them, but
    the leader never hears of it, compacts its log to index 1 and sends the
    snapshot; then a third entry. *)
Definition entry (t : Z) (c : string) : LogEntry string := MkLogEntry t (Some c).
Definition lagging_reply : list (Input string) :=
  [InAppendEntries (MkAEArgs 1 0 0 0 [entry 1 "a"; entry 1 "b"] 2) 1] ++
  apply_round ++ apply_round ++
  [InInstallSnapshot (MkISArgs 1 0 1 1 (Some [7])) 2] ++ apply_round ++
  [InAppendEntries (MkAEArgs 1 0 2 1 [entry 1 "c"] 3) 3] ++ apply_round.

(** A snapshot can move the service backwards.  [InstallSnapshot] only
    compares with the follower's own snapshot, so a snapshot that is older
    than what the follower has applied is queued; the service then receives
    index 2, the snapshot at 1, and index 3 next. *)
Theorem stale_snapshot_goes_back :
  run_ok lagging_reply (boot 3 1 0 0) ∧
  deliveries lagging_reply (boot 3 1 0 0) =
    [CommandMsg (Some "a") 1; CommandMsg (Some "b") 2; SnapshotMsg [7] 1 1;
     CommandMsg (Some "c") 3] ∧
  ¬ in_order 0 (deliveries lagging_reply (boot 3 1 0 0)).
Proof.
  assert (deliveries lagging_reply (boot 3 1 0 0) =
    [CommandMsg (Some "a") 1; CommandMsg (Some "b") 2; SnapshotMsg [7] 1 1;
     CommandMsg (Some "c") 3]) as Hd by (vm_compute; reflexivity).
  split; [apply run_okb_ok; vm_compute; reflexivity|]. split; [done|].
  rewrite Hd. simpl. lia.
Qed.
