(* ===== verification/RaftDemo.v ===== *)
(** * Raft peers in concrete states

    Short runs of the operations of [Raft.v] with string commands, and the
    properties of the other Raft files applied to them. *)
From S2P Require Import Prelude Persister Raft RaftNode RaftTheorems RaftSpec RaftApply GobString.

(** Follower 1 with two entries, nothing committed. *)
Definition entry_inputs : list (Input string) :=
  [InAppendEntries (MkAEArgs 1 0 0 0 [entry 1 "a"; entry 1 "b"] 0) 1].
Definition follower_demo : Raft string := Eval vm_compute in
  default (boot 3 1 0 0) (run entry_inputs (boot 3 1 0 0)).

(** Peer 0 has one entry of term 1 and is elected for term 2. *)
Definition election_inputs : list (Input string) :=
  [InAppendEntries (MkAEArgs 1 2 0 0 [entry 1 "a"] 0) 1; InTick 1000000000 0;
   InVoteReply 2 (MkRVReply 2 true)].
Definition leader_demo : Raft string := Eval vm_compute in
  default (boot 3 0 0 0) (run election_inputs (boot 3 0 0 0)).

(** ... takes a command, which peer 1 acknowledges. *)
Definition commit_inputs : list (Input string) := election_inputs ++ [InStart "b"].
Definition leader_demo2 : Raft string := Eval vm_compute in
  set_matchIndex [2; 2; 0] (default (boot 3 0 0 0) (run commit_inputs (boot 3 0 0 0))).

Lemma follower_demo_lives : lives follower_demo.
Proof.
  apply (run_ok_lives entry_inputs (boot 3 1 0 0)).
  - by apply lives_boot.
  - apply run_okb_ok. vm_compute. reflexivity.
  - vm_compute. reflexivity.
Qed.

Lemma leader_demo_lives : lives leader_demo.
Proof.
  apply (run_ok_lives election_inputs (boot 3 0 0 0)).
  - by apply lives_boot.
  - apply run_okb_ok. vm_compute. reflexivity.
  - vm_compute. reflexivity.
Qed.

Lemma follower_demo_wf : raft_wf follower_demo.
Proof. apply lives_wf, follower_demo_lives. Qed.

Lemma leader_demo_wf : raft_wf leader_demo.
Proof. apply lives_wf, leader_demo_lives. Qed.

Lemma leader_demo2_wf : raft_wf leader_demo2.
Proof.
  assert (lives (default (boot 3 0 0 0) (run commit_inputs (boot 3 0 0 0)))) as Hl.
  { apply (run_ok_lives commit_inputs (boot 3 0 0 0)).
    - by apply lives_boot.
    - apply run_okb_ok. vm_compute. reflexivity.
    - vm_compute. reflexivity. }
  apply lives_wf in Hl as [[H1 H2 H3 H4 H5 H6 H7 H8 H9 H10] _]. by split.
Qed.

(** ** The witnesses *)

Lemma raft_no_panic_witness :
  ∃ rf', handle (InSnapshot 0 [7]) follower_demo = Some rf' ∧ raft_wf rf' ∧ persisted rf'.
Proof.
  apply (raft_no_panic (InSnapshot 0 [7]) follower_demo).
  - exact follower_demo_wf.
  - exact (proj1 (proj2 (lives_wf _ follower_demo_lives))).
  - vm_compute. discriminate.
Defined.

Lemma raft_crash_recovery_witness :
  currentTerm (Make 3 1 (Checkpoint (persister follower_demo)) 9 9) = 1 ∧
  log (Make 3 1 (Checkpoint (persister follower_demo)) 9 9) = log follower_demo.
Proof.
  destruct (raft_crash_recovery 3 1 0 0 entry_inputs follower_demo 9 9) as (Ht & _ & Hl & _).
  - vm_compute. reflexivity.
  - split; [exact Ht|exact Hl].
Defined.

Definition voted_inputs : list (Input string) := [InRequestVote (MkRVArgs 5 2 0 0) 1].
Definition voted_demo : Raft string := Eval vm_compute in
  default (boot 3 1 0 0) (run voted_inputs (boot 3 1 0 0)).
(** A second candidate of the same term, and a crash in between. *)
Definition asked_again : list (Input string) := [InRestart 4 4; InRequestVote (MkRVArgs 5 0 0 0) 5].
Definition asked_demo : Raft string := Eval vm_compute in
  default voted_demo (run asked_again voted_demo).

Lemma raft_one_vote_per_term_witness :
  votedFor voted_demo = 2 ∧ currentTerm asked_demo = 5 ∧ votedFor asked_demo = votedFor voted_demo.
Proof.
  split; [reflexivity|]. split; [reflexivity|].
  apply (raft_one_vote_per_term 3 1 0 0 voted_inputs asked_again voted_demo asked_demo).
  - vm_compute. reflexivity.
  - vm_compute. reflexivity.
  - reflexivity.
  - discriminate.
Defined.

Definition conflicting : AppendEntriesArgs string := MkAEArgs 2 0 1 1 [entry 2 "c"; entry 2 "d"] 1.

Definition mismatched : AppendEntriesArgs string := MkAEArgs 3 0 2 2 [] 0.

Lemma AppendEntries_reject_witness :
  ∃ rf' ct ci, AppendEntries mismatched 5 follower_demo =
    Some (rf', MkAEReply 3 false ct ci 3) ∧ log rf' = log follower_demo.
Proof.
  destruct (AppendEntries_reject mismatched 5 follower_demo follower_demo_wf)
    as (rf' & ct & ci & Hae & Hlog & _).
  - vm_compute. discriminate.
  - vm_compute. discriminate.
  - vm_compute. discriminate.
  - exists rf', ct, ci. split; [exact Hae|exact Hlog].
Defined.

Lemma advanceCommit_spec_witness :
  ∃ N, advanceCommit leader_demo2 = Some (signal (set_commitIndex N leader_demo2)) ∧ N = 2.
Proof.
  destruct (advanceCommit_spec leader_demo2 leader_demo2_wf)
    as [(N & Ha & HN & _ & _)|[_ Hmax]].
  - exists N. split; [exact Ha|].
    assert (Some (signal (set_commitIndex N leader_demo2)) =
      Some (signal (set_commitIndex 2 leader_demo2))) as Heq
      by (rewrite <-Ha; vm_compute; reflexivity).
    exact (f_equal (λ o, from_option commitIndex 0 o) Heq).
  - exfalso. apply (Hmax 2); [vm_compute; split; [reflexivity|discriminate]|].
    split; vm_compute; reflexivity.
Defined.

(** The follower's apply goroutine asleep after applying one entry. *)
Definition sleeping_inputs : list (Input string) :=
  [InAppendEntries (MkAEArgs 1 0 0 0 [entry 1 "a"; entry 1 "b"] 1) 1] ++ apply_round ++
  [InApplierTop].
Definition sleeping_demo : Raft string := Eval vm_compute in
  default (boot 3 1 0 0) (run sleeping_inputs (boot 3 1 0 0)).

(** ... which then takes a snapshot of it; a request that starts below. *)
Definition compacted_inputs : list (Input string) := sleeping_inputs ++ [InSnapshot 1 [7]].
Definition compacted_demo : Raft string := Eval vm_compute in
  default (boot 3 1 0 0) (run compacted_inputs (boot 3 1 0 0)).
Definition overlapping : AppendEntriesArgs string :=
  MkAEArgs 2 0 0 0 [entry 1 "a"; entry 1 "b"; entry 2 "c"] 2.

Lemma compacted_demo_wf : raft_wf compacted_demo.
Proof.
  apply lives_wf, (run_ok_lives compacted_inputs (boot 3 1 0 0)).
  - by apply lives_boot.
  - apply run_okb_ok. vm_compute. reflexivity.
  - vm_compute. reflexivity.
Qed.

Lemma AppendEntries_accept_witness :
  (∃ rf', AppendEntries conflicting 5 follower_demo = Some (rf', MkAEReply 2 true (-1) (-1) 3) ∧
    log rf' = take 2 (log follower_demo) ++
      merge_ref (drop 2 (log follower_demo)) [entry 2 "c"; entry 2 "d"]) ∧
  ∃ rf', AppendEntries overlapping 5 compacted_demo = Some (rf', MkAEReply 2 true (-1) (-1) 3) ∧
    log rf' = [MkLogEntry 1 None] ++ merge_ref [entry 1 "b"] [entry 1 "b"; entry 2 "c"] ∧
    termAt rf' 3 = Some 2.
Proof.
  split.
  - destruct (AppendEntries_accept conflicting 5 follower_demo follower_demo_wf)
      as (rf' & reply & Hae & _ & Hacc).
    destruct Hacc as (-> & _ & _ & Hlog & _); [split; [vm_compute; discriminate|right; reflexivity]|].
    exists rf'. split; [exact Hae|exact Hlog].
  - destruct (AppendEntries_accept overlapping 5 compacted_demo compacted_demo_wf)
      as (rf' & reply & Hae & _ & Hacc).
    destruct Hacc as (-> & _ & _ & Hlog & _ & Hhas & _); [split; [vm_compute; discriminate|left; reflexivity]|].
    exists rf'. split; [exact Hae|]. split; [exact Hlog|].
    apply (Hhas 2%nat (entry 2 "c")); vm_compute; reflexivity.
Defined.

Lemma apply_no_lost_wakeup_witness :
  dead sleeping_demo = false ∧ pendingSnapshot sleeping_demo = None ∧
  lastApplied sleeping_demo = commitIndex sleeping_demo.
Proof.
  apply (apply_no_lost_wakeup sleeping_demo).
  - apply (run_ok_lives sleeping_inputs (boot 3 1 0 0)).
    + by apply lives_boot.
    + apply run_okb_ok. vm_compute. reflexivity.
    + vm_compute. reflexivity.
  - reflexivity.
Defined.

Lemma apply_in_order_witness :
  deliveries sleeping_inputs (boot 3 1 0 0) = [CommandMsg (Some "a") 1] ∧
  in_order 0 (deliveries sleeping_inputs (boot 3 1 0 0)).
Proof.
  split; [vm_compute; reflexivity|].
  apply (apply_in_order 3 1 0 0 sleeping_inputs). vm_compute. repeat split.
Defined.
