(* ===== verification/RaftNet.v ===== *)
(** * A cluster of Raft peers

    Peers that call each other over a network which delays, drops and reorders
    calls and loses replies, that crash and restart from their persisters, and
    whose goroutines run in any order.  Each call runs its handler at most once
    and its reply is processed at most once, which is what [labrpc] provides. *)
From S2P Require Import Prelude Persister Raft RaftNode RaftTheorems.

Section Cluster.
Context {Cmd : Type} `{!Gob Cmd}.
Implicit Types rf : Raft Cmd.

Inductive Reply :=
| RepVote (r : RequestVoteReply)
| RepAppend (r : AppendEntriesReply)
| RepInstall (r : InstallSnapshotReply).

(** An empty byte slice is nil after it went through the encoder. *)
Definition transit (data : option bytes) : option bytes :=
  match data with Some [] => None | _ => data end.

Definition decode_install (args : InstallSnapshotArgs) : InstallSnapshotArgs :=
  MkISArgs (is_Term args) (is_LeaderId args) (is_LastIncludedIndex args)
    (is_LastIncludedTerm args) (transit (is_Data args)).

(** The dispatch of a request to its handler. *)
Definition serve (req : Request Cmd) (now : Z) rf : option (Raft Cmd * Reply) :=
  match req with
  | ReqVote args => '(rf, r) ← RequestVote args now rf; Some (rf, RepVote r)
  | ReqAppend args => '(rf, r) ← AppendEntries args now rf; Some (rf, RepAppend r)
  | ReqInstall args =>
      '(rf, r) ← InstallSnapshot (decode_install args) now rf; Some (rf, RepInstall r)
  end.

(** What the caller does with the reply. *)
Definition absorb (peer : Z) (req : Request Cmd) (rep : Reply) rf : option (Raft Cmd) :=
  match req, rep with
  | ReqVote args, RepVote r => vote_reply (rv_Term args) r rf
  | ReqAppend args, RepAppend r => append_reply peer args r rf
  | ReqInstall args, RepInstall r => install_reply peer args r rf
  | _, _ => Some rf
  end.

(** A call from its start to the processing of its reply.  When the caller
    crashes the request may still arrive, but nobody waits for the reply. *)
Record Call := MkCall {
  c_from : Z;
  c_to : Z;
  c_req : Request Cmd;
  c_rep : option Reply;
  c_live : bool;
}.

Definition orphan (i : Z) (c : Call) : Call :=
  if decide (c_from c = i) then MkCall (c_from c) (c_to c) (c_req c) (c_rep c) false else c.

Record Cluster := MkCluster {
  nodes : gmap Z (Raft Cmd);
  calls : list Call;
}.

Definition init_cluster (n : Z) (times draws : Z → Z) : Cluster :=
  MkCluster (list_to_map ((λ i, (i, boot n i (times i) (draws i))) <$> seqZ 0 n)) [].

Definition set_node (s : Cluster) (i : Z) rf : Cluster :=
  MkCluster (<[i := rf]> (nodes s)) (calls s).

(** Inputs from the service, the timers and the apply goroutine. *)
Definition local_input (i : Input Cmd) : bool :=
  match i with
  | InSnapshot _ _ | InStart _ | InTick _ _ | InHeartbeat | InApplierTop | InApplierReceived
  | InApplierSent | InKill => true
  | _ => false
  end.

(** Running a started goroutine up to its call, if it makes one. *)
Definition run_goroutine (g : Goroutine) rf : option (Raft Cmd * option (Z * Request Cmd)) :=
  match g with
  | GoBroadcast => Some (broadcastAppendEntries rf, None)
  | GoReplicate peer =>
      match replicate_args peer rf with
      | Some (Some req) => Some (rf, Some (peer, req))
      | Some None => Some (rf, None)
      | None => None
      end
  | GoRequestVote peer args => Some (rf, Some (peer, ReqVote args))
  end.

(** What the services above the peers do is a parameter.  Any service, and
    services that keep the contract of [Snapshot]: [index] is one the service
    has been handed. *)
Definition any_service (i : Input Cmd) rf : bool := true.

Definition snapshot_contract (i : Input Cmd) rf : bool :=
  match i with InSnapshot index _ => bool_decide (index <= delivered rf) | _ => true end.

Section Steps.
Context (ok : Input Cmd → Raft Cmd → bool).

Inductive step (s : Cluster) : Cluster → Prop :=
| step_local i rf inp rf' :
    nodes s !! i = Some rf → local_input inp = true → ok inp rf = true →
    handle inp rf = Some rf' →
    step s (set_node s i rf')
| step_go i rf g l1 l2 rf' out :
    nodes s !! i = Some rf → started rf = l1 ++ g :: l2 →
    run_goroutine g (set_started (l1 ++ l2) rf) = Some (rf', out) →
    step s (MkCluster (<[i := rf']> (nodes s))
              (calls s ++ match out with
                          | Some (peer, req) => [MkCall i peer req None true]
                          | None => []
                          end))
| step_serve c l1 l2 rf now rf' rep :
    calls s = l1 ++ c :: l2 → c_rep c = None → nodes s !! c_to c = Some rf →
    serve (c_req c) now rf = Some (rf', rep) →
    step s (MkCluster (<[c_to c := rf']> (nodes s))
              (l1 ++ MkCall (c_from c) (c_to c) (c_req c) (Some rep) (c_live c) :: l2))
| step_reply c l1 l2 rf rep rf' :
    calls s = l1 ++ c :: l2 → c_rep c = Some rep → c_live c = true → nodes s !! c_from c = Some rf →
    absorb (c_to c) (c_req c) rep rf = Some rf' →
    step s (MkCluster (<[c_from c := rf']> (nodes s)) (l1 ++ l2))
| step_lose c l1 l2 :
    calls s = l1 ++ c :: l2 → step s (MkCluster (nodes s) (l1 ++ l2))
| step_crash i rf now draw rf' :
    nodes s !! i = Some rf → handle (InRestart now draw) rf = Some rf' →
    step s (MkCluster (<[i := rf']> (nodes s)) (orphan i <$> calls s)).

Definition reachable (n : Z) (times draws : Z → Z) (s : Cluster) : Prop :=
  rtc step (init_cluster n times draws) s.
(** ** Running a schedule *)

Inductive CMove :=
| CLocal (i : Z) (inp : Input Cmd)
| CGo (i : Z) (k : nat)
| CServe (k : nat) (now : Z)
| CReply (k : nat)
| CLose (k : nat)
| CCrash (i now draw : Z).

Definition run_cmove (s : Cluster) (m : CMove) : option Cluster :=
  match m with
  | CLocal i inp =>
      rf ← nodes s !! i;
      if local_input inp && ok inp rf then rf' ← handle inp rf; Some (set_node s i rf') else None
  | CGo i k =>
      rf ← nodes s !! i; g ← started rf !! k;
      '(rf', out) ← run_goroutine g
        (set_started (take k (started rf) ++ drop (S k) (started rf)) rf);
      Some (MkCluster (<[i := rf']> (nodes s))
              (calls s ++ match out with
                          | Some (peer, req) => [MkCall i peer req None true]
                          | None => []
                          end))
  | CServe k now =>
      c ← calls s !! k; rf ← nodes s !! c_to c;
      match c_rep c with
      | None =>
          '(rf', rep) ← serve (c_req c) now rf;
          Some (MkCluster (<[c_to c := rf']> (nodes s))
                  (take k (calls s) ++
                   MkCall (c_from c) (c_to c) (c_req c) (Some rep) (c_live c) ::
                   drop (S k) (calls s)))
      | Some _ => None
      end
  | CReply k =>
      c ← calls s !! k; rf ← nodes s !! c_from c;
      match c_rep c, c_live c with
      | Some rep, true =>
          rf' ← absorb (c_to c) (c_req c) rep rf;
          Some (MkCluster (<[c_from c := rf']> (nodes s)) (take k (calls s) ++ drop (S k) (calls s)))
      | _, _ => None
      end
  | CLose k =>
      _ ← calls s !! k;
      Some (MkCluster (nodes s) (take k (calls s) ++ drop (S k) (calls s)))
  | CCrash i now draw =>
      rf ← nodes s !! i; rf' ← handle (InRestart now draw) rf;
      Some (MkCluster (<[i := rf']> (nodes s)) (orphan i <$> calls s))
  end.

Fixpoint run_cmoves (s : Cluster) (ms : list CMove) : option Cluster :=
  match ms with
  | [] => Some s
  | m :: ms => s' ← run_cmove s m; run_cmoves s' ms
  end.

Lemma run_cmove_step s m s' : run_cmove s m = Some s' → step s s'.
Proof.
  destruct m; cbn [run_cmove].
  - intros (rf & Hi & H)%bind_Some. destruct (local_input inp && ok inp rf) eqn:Hl; [|done].
    apply andb_true_iff in Hl as [Hl Hok].
    apply bind_Some in H as (rf' & Hh & [= <-]). by eapply step_local.
  - intros (rf & Hi & (g & Hg & ([rf' out] & Hr & [= <-])%bind_Some)%bind_Some)%bind_Some.
    eapply step_go; [done| |done]. symmetry. by apply take_drop_middle.
  - intros (c & Hc & (rf & Hi & H)%bind_Some)%bind_Some.
    destruct (c_rep c) eqn:Hrep; [done|]. apply bind_Some in H as ([rf' rep] & Hs & [= <-]).
    eapply step_serve; [|done|done|done]. symmetry. by apply take_drop_middle.
  - intros (c & Hc & (rf & Hi & H)%bind_Some)%bind_Some.
    destruct (c_rep c) eqn:Hrep; [|done]. destruct (c_live c) eqn:Hlive; [|done].
    apply bind_Some in H as (rf' & Hs & [= <-]).
    eapply step_reply; [|done|done|done|done]. symmetry. by apply take_drop_middle.
  - intros (c & Hc & [= <-])%bind_Some. eapply step_lose. symmetry. by apply take_drop_middle.
  - intros (rf & Hi & (rf' & Hh & [= <-])%bind_Some)%bind_Some. by eapply step_crash.
Qed.

Lemma run_cmoves_steps ms s s' : run_cmoves s ms = Some s' → rtc step s s'.
Proof.
  revert s. induction ms as [|m ms IH]; intros s; simpl.
  - intros [= ->]. constructor.
  - intros (s1 & Hm & Hms)%bind_Some. eapply rtc_l; [by eapply run_cmove_step|by apply IH].
Qed.

Lemma run_cmoves_reachable n times draws ms s :
  run_cmoves (init_cluster n times draws) ms = Some s → reachable n times draws s.
Proof. apply run_cmoves_steps. Qed.
End Steps.
End Cluster.

Arguments Call : clear implicits.
Arguments Cluster : clear implicits.
Arguments CMove : clear implicits.
