(* ===== verification/RaftElection.v ===== *)
(** * Election safety

    No term ever has two leaders: an invariant of the cluster of [RaftNet.v]
    that follows every vote from the voter's disk through the network into the
    candidate's counter. *)
From S2P Require Import Prelude Persister Raft RaftNode RaftTheorems RaftNet GobString.

Section Quiet.
Context {Cmd : Type} `{!Gob Cmd, !GobLaws Cmd}.
Implicit Types rf : Raft Cmd.

Definition vote_go (g : Goroutine) : option (Z * RequestVoteArgs) :=
  match g with GoRequestVote peer args => Some (peer, args) | _ => None end.

(** The requests for votes that were not sent yet. *)
Definition vote_gos rf : list (Z * RequestVoteArgs) := omap vote_go (started rf).

(** A change that casts no vote and counts none. *)
Definition quiet rf rf' : Prop :=
  me rf' = me rf ∧ npeers rf' = npeers rf ∧ vote_gos rf' ⊆+ vote_gos rf ∧
  (role rf' = Follower ∨
   role rf' = role rf ∧ currentTerm rf' = currentTerm rf ∧ votes rf' = votes rf) ∧
  (currentTerm rf < currentTerm rf' ∧ votedFor rf' = -1 ∨
   currentTerm rf = currentTerm rf' ∧ votedFor rf' = votedFor rf).

#[export] Instance quiet_preorder : PreOrder quiet.
Proof.
  split.
  - intros x. split_and!; [done|done|done|by right|by right].
  - intros x y z (E1 & E2 & G & R & T) (F1 & F2 & G' & R' & T'). split_and!; [congruence|congruence|by etransitivity| |].
    + destruct R' as [R'|(R1 & R2 & R3)]; [by left|]. destruct R as [R|(S1 & S2 & S3)].
      * left. congruence.
      * right. split_and!; congruence.
    + destruct T as [[T1 T2]|[T1 T2]], T' as [[T3 T4]|[T3 T4]].
      * left. split; [lia|done].
      * left. split; [lia|congruence].
      * left. split; [lia|done].
      * right. split; congruence.
Qed.

Ltac quiet_fields :=
  split_and!; [done|done|done|first [by left|by right]|by right].

Lemma quiet_follower now rf : quiet rf (set_lastHeardAt now (set_role Follower rf)).
Proof. quiet_fields. Qed.

Lemma quiet_becomeFollower term rf : quiet rf (becomeFollower term rf).
Proof.
  unfold becomeFollower. case_decide; [|quiet_fields].
  split_and!; [done|done|done|by left|left]. simpl in *. split; [lia|done].
Qed.

Lemma quiet_observe term rf : quiet rf (observe_term term rf).
Proof. unfold observe_term. case_decide; [apply quiet_becomeFollower|done]. Qed.

Lemma quiet_signal rf : quiet rf (signal rf).
Proof. unfold signal. destruct (applier_pc rf); try done. quiet_fields. Qed.

Lemma quiet_go rf g : vote_go g = None → quiet rf (go rf g).
Proof.
  intros Hg. unfold go. split_and!; [done|done| |by right|by right].
  unfold vote_gos. simpl. rewrite omap_app. simpl. by rewrite Hg, app_nil_r.
Qed.

Lemma quiet_foldl_go (f : Z → Goroutine) (l : list Z) rf :
  (∀ i, vote_go (f i) = None) → quiet rf (foldl (λ rf i, go rf (f i)) rf l).
Proof.
  intros Hf. revert rf. induction l as [|i l IH]; intros rf; [done|]. simpl.
  etransitivity; [|apply IH]. apply quiet_go, Hf.
Qed.

Lemma quiet_broadcast rf : quiet rf (broadcastAppendEntries rf).
Proof. unfold broadcastAppendEntries. case_decide; [done|]. by apply quiet_foldl_go. Qed.

Lemma quiet_follow_commit c rf : quiet rf (follow_commit c rf).
Proof.
  unfold follow_commit. repeat case_decide; try done;
    (etransitivity; [|apply quiet_signal]); quiet_fields.
Qed.

Lemma quiet_merge prev i es rf rf' : merge_entries prev i es rf = Some rf' → quiet rf rf'.
Proof.
  revert i. induction es as [|e es IH]; intros i; cbn [merge_entries]; [by intros [= <-]|].
  case_decide; [intros [= <-]; quiet_fields|]. intros (t & _ & Ht)%bind_Some.
  case_decide; [|by eapply IH]. apply bind_Some in Ht as (k & _ & [= <-]). quiet_fields.
Qed.

Lemma quiet_ae_append prev prevTerm es c xlen rf rf' reply :
  ae_append prev prevTerm es c xlen rf = Some (rf', reply) → quiet rf rf'.
Proof.
  unfold ae_append. case_decide; [by intros [= <- _]|].
  intros (t & _ & Ht)%bind_Some. case_decide.
  - by apply bind_Some in Ht as (i & _ & [= <- _]).
  - apply bind_Some in Ht as (rf1 & Hm%quiet_merge & [= <- _]).
    etransitivity; [exact Hm|]. etransitivity; [|apply quiet_follow_commit]. quiet_fields.
Qed.

Lemma quiet_advance n N rf rf' : advance_from n N rf = Some rf' → quiet rf rf'.
Proof.
  revert N. induction n as [|n IH]; intros N; cbn [advance_from]; [by intros [= <-]|].
  case_decide; [|by intros [= <-]]. case_decide; [by intros [= <-]|].
  intros (t & _ & Ht)%bind_Some. case_decide; [by eapply IH|].
  apply bind_Some in Ht as (k & _ & Hk). case_decide; [|by eapply IH].
  injection Hk as <-. etransitivity; [|apply quiet_signal]. quiet_fields.
Qed.

Lemma quiet_AppendEntries args now rf rf' reply :
  AppendEntries args now rf = Some (rf', reply) → quiet rf rf'.
Proof.
  unfold AppendEntries. case_decide; [by intros [= <- _]|]. intros Hx.
  etransitivity; [apply (quiet_observe (ae_Term args))|].
  etransitivity; [apply (quiet_follower now)|].
  case_decide; [|by eapply quiet_ae_append].
  case_decide; [injection Hx as <- _; apply quiet_follow_commit|].
  apply bind_Some in Hx as (es & _ & Hx). by eapply quiet_ae_append.
Qed.

Lemma quiet_InstallSnapshot args now rf rf' reply :
  InstallSnapshot args now rf = Some (rf', reply) → quiet rf rf'.
Proof.
  unfold InstallSnapshot. case_decide; [by intros [= <- _]|]. intros Hx.
  etransitivity; [apply (quiet_observe (is_Term args))|].
  etransitivity; [apply (quiet_follower now)|].
  case_decide; [by injection Hx as <- _|]. apply bind_Some in Hx as (l & _ & [= <- _]).
  etransitivity; [|apply quiet_signal].
  split_and!; simpl; repeat case_decide; try done; first [by left|by right].
Qed.

Lemma quiet_append_reply peer args reply rf rf' :
  append_reply peer args reply rf = Some rf' → quiet rf rf'.
Proof.
  unfold append_reply. case_decide; [by intros [= <-]|].
  case_decide; [intros [= <-]; apply quiet_becomeFollower|].
  destruct (aer_Success reply).
  - intros (m & _ & (n & _ & Hx)%bind_Some)%bind_Some. apply quiet_advance in Hx.
    etransitivity; [|exact Hx]. quiet_fields.
  - intros (n & _ & (k & _ & (l & _ & [= <-])%bind_Some)%bind_Some)%bind_Some.
    etransitivity; [|by apply quiet_go]. quiet_fields.
Qed.

Lemma quiet_install_reply peer args reply rf rf' :
  install_reply peer args reply rf = Some rf' → quiet rf rf'.
Proof.
  unfold install_reply. case_decide; [by intros [= <-]|].
  case_decide; [intros [= <-]; apply quiet_becomeFollower|].
  intros (m & _ & (n & _ & [= <-])%bind_Some)%bind_Some. quiet_fields.
Qed.

Lemma quiet_applier_top rf rf' : applier_top rf = Some rf' → quiet rf rf'.
Proof.
  unfold applier_top. destruct (dead rf); [intros [= <-]; quiet_fields|].
  destruct (pendingSnapshot rf); [intros [= <-]; quiet_fields|].
  case_decide; [|intros [= <-]; quiet_fields]. case_decide; [intros [= <-]; quiet_fields|].
  intros (e & _ & [= <-])%bind_Some. quiet_fields.
Qed.

Lemma quiet_restart now draw rf : persisted rf → quiet rf (restarted rf now draw).
Proof using All.
  intros Hp. pose proof (restarted_fields rf now draw Hp) as Hf. cbv zeta in Hf.
  generalize dependent (restarted rf now draw). intros rf' Hf.
  destruct Hf as ((_ & E1 & E2 & _) & E3 & E4 & _ & _ & _ & E5 & _ & _ & _ & E6 & _).
  split_and!; [done|done| |by left|right; by rewrite E1, E2].
  unfold vote_gos. rewrite E6. apply submseteq_nil_l.
Qed.

Lemma quiet_local i rf rf' :
  local_input i = true → (∀ now draw, i ≠ InTick now draw) → handle i rf = Some rf' →
  quiet rf rf'.
Proof.
  intros Hi Hnt. destruct i; try done; simpl.
  - unfold Snapshot. case_decide; [by intros [= <-]|]. case_decide; [by intros [= <-]|].
    intros (t & _ & Ht)%bind_Some. case_decide; [done|].
    apply bind_Some in Ht as (l & _ & [= <-]). quiet_fields.
  - unfold Start. case_decide; [by intros [= <-]|].
    intros ([rf1 r] & Hx & ->)%fmap_Some.
    apply bind_Some in Hx as (m & _ & (n & _ & [= <- _])%bind_Some).
    etransitivity; [|by apply quiet_go]. quiet_fields.
  - by destruct (Hnt now draw).
  - unfold heartbeat. case_bool_decide; intros [= <-]; [apply quiet_broadcast|done].
  - destruct (applier_pc rf); try by intros [= <-]. apply quiet_applier_top.
  - destruct (applier_pc rf); intros [= <-]; try done. quiet_fields.
  - destruct (applier_pc rf); try by intros [= <-].
    intros [= <-]. unfold applier_sent. case_decide; quiet_fields.
  - intros [= <-]. unfold Kill. etransitivity; [|apply quiet_signal]. quiet_fields.
Qed.
End Quiet.

(** ** The invariant *)

Section Election.
Context {Cmd : Type} `{!Gob Cmd, !GobLaws Cmd}.
Context (n : Z) (allowed : Input Cmd → Raft Cmd → bool).
Implicit Types rf : Raft Cmd.
Implicit Types s : Cluster Cmd.
(** The candidate a peer voted for in a term, if it voted. *)
Implicit Types V : Z → Z → option Z.

(** Calls for votes in term [T] that [i] waits for, and those not yet sent. *)
Definition pend_call (i T : Z) (c : Call Cmd) : option Z :=
  match c_req c with
  | ReqVote a =>
      if decide (c_live c = true ∧ c_from c = i ∧ rv_Term a = T) then Some (c_to c) else None
  | _ => None
  end.

Definition pend_go (T : Z) (p : Z * RequestVoteArgs) : option Z :=
  if decide (rv_Term p.2 = T) then Some p.1 else None.

Definition pending (cs : list (Call Cmd)) rf (i T : Z) : list Z :=
  omap (pend_call i T) cs ++ omap (pend_go T) (vote_gos rf).

Definition cand_ok V (cs : list (Call Cmd)) (i : Z) rf : Prop :=
  role rf = Candidate →
  ∃ S, len S = votes rf ∧ NoDup (S ++ pending cs rf i (currentTerm rf)) ∧
    ∀ v, v ∈ S → V v (currentTerm rf) = Some i.

Definition lead_ok V (i : Z) rf : Prop :=
  role rf = Leader →
  ∃ S, NoDup S ∧ len S * 2 > n ∧ ∀ v, v ∈ S → V v (currentTerm rf) = Some i.

Definition gos_ok (i : Z) rf : Prop :=
  ∀ p a, (p, a) ∈ vote_gos rf → rv_CandidateId a = i ∧ rv_Term a <= currentTerm rf.

Definition node_ok V (i : Z) rf : Prop :=
  0 <= i < n ∧ me rf = i ∧ npeers rf = n ∧ persisted rf ∧ gos_ok i rf ∧ lead_ok V i rf ∧
  (votedFor rf ≠ -1 → V i (currentTerm rf) = Some (votedFor rf)).

Definition call_ok V (ns : gmap Z (Raft Cmd)) (c : Call Cmd) : Prop :=
  ∀ a, c_req c = ReqVote a →
    rv_CandidateId a = c_from c ∧ 0 <= c_from c ∧
    (∀ rf, ns !! c_from c = Some rf → rv_Term a <= currentTerm rf) ∧
    (∀ r, c_rep c = Some (RepVote r) → rvr_VoteGranted r = true →
       V (c_to c) (rv_Term a) = Some (c_from c)).

Record election_inv V s : Prop := {
  ei_node i rf : nodes s !! i = Some rf → node_ok V i rf;
  ei_cand i rf : nodes s !! i = Some rf → cand_ok V (calls s) i rf;
  ei_hist v T c :
    V v T = Some c →
    0 <= c ∧ ∃ rf, nodes s !! v = Some rf ∧ T <= currentTerm rf ∧
      (T = currentTerm rf → votedFor rf = c);
  ei_call c : c ∈ calls s → call_ok V (nodes s) c;
}.

Definition V_ext V V' : Prop := ∀ v T c, V v T = Some c → V' v T = Some c.

(** Peer [i] changes from [rf] to [rf'] and casts at most its present vote. *)
Lemma election_update V V' s s' i rf rf' :
  election_inv V s → nodes s !! i = Some rf → nodes s' = <[i := rf']> (nodes s) →
  vote_mono rf rf' → V_ext V V' →
  (∀ v T c, V' v T = Some c →
     V v T = Some c ∨ v = i ∧ T = currentTerm rf' ∧ c = votedFor rf' ∧ 0 <= c) →
  node_ok V' i rf' → cand_ok V' (calls s') i rf' →
  (∀ j T, j ≠ i → omap (pend_call j T) (calls s') ⊆+ omap (pend_call j T) (calls s)) →
  (∀ c, c ∈ calls s' → call_ok V' (nodes s') c) →
  election_inv V' s'.
Proof.
  intros [Hn Hc Hh Hcl] Hi Hs' Hmono Hext Hback Hn' Hc' Hsub Hcl'. split; [| | |done].
  - intros j rfj. rewrite Hs', lookup_insert_Some. intros [[<- <-]|[Hne Hj]]; [done|].
    destruct (Hn j rfj Hj) as (H1 & H2 & H3 & H4 & H5 & H6 & H7).
    split; [done|]. split; [done|]. split; [done|]. split; [done|]. split; [done|]. split.
    + intros Hl. destruct (H6 Hl) as (S & HS1 & HS2 & HS3). exists S.
      split_and!; [done|done|]. intros v Hv. by apply Hext, HS3.
    + intros Hv. by apply Hext, H7.
  - intros j rfj. rewrite Hs', lookup_insert_Some. intros [[<- <-]|[Hne Hj]]; [done|].
    intros Hl. destruct (Hc j rfj Hj Hl) as (S & HS1 & HS2 & HS3). exists S.
    split_and!; [done| |intros v Hv; by apply Hext, HS3].
    eapply submseteq_NoDup; [|exact HS2]. unfold pending.
    apply submseteq_app; [done|]. apply submseteq_app; [|done]. by apply Hsub.
  - intros v T c HV. rewrite Hs'. destruct (Hback v T c HV) as [Hold|(-> & -> & -> & Hc0)].
    + destruct (Hh v T c Hold) as (Hc0 & rfv & Hv & Hle & Heq). split; [done|].
      destruct (decide (v = i)) as [->|Hne].
      * exists rf'. rewrite lookup_insert_eq. split; [done|].
        assert (rfv = rf) as -> by congruence. destruct Hmono as [Hlt|[Ht Hvf]].
        -- split; [lia|]. lia.
        -- split; [lia|]. intros ->. rewrite Hvf; [apply Heq; lia|].
           rewrite Heq by lia. lia.
      * exists rfv. by rewrite lookup_insert_ne.
    + split; [done|]. exists rf'. rewrite lookup_insert_eq. split; [done|]. split; [lia|done].
Qed.

(** A call keeps its meaning when terms grow and votes are added. *)
Lemma call_ok_mono V V' (ns : gmap Z (Raft Cmd)) i rf rf' c :
  ns !! i = Some rf → currentTerm rf <= currentTerm rf' → V_ext V V' →
  call_ok V ns c → call_ok V' (<[i := rf']> ns) c.
Proof.
  intros Hi Hle Hext Hc a Ha. destruct (Hc a Ha) as (H1 & H2 & H3 & H4).
  split_and!; [done|done| |].
  - intros rf0. rewrite lookup_insert_Some. intros [[-> <-]|[_ H0]]; [|by apply H3].
    specialize (H3 rf Hi). lia.
  - intros r Hr Hg. by eapply Hext, H4.
Qed.

(** A quiet change of one peer, with calls that only disappear or carry no
    vote. *)
Lemma election_quiet V s s' i rf rf' :
  election_inv V s → nodes s !! i = Some rf → nodes s' = <[i := rf']> (nodes s) →
  quiet rf rf' → persisted rf' →
  (∀ j T, omap (pend_call j T) (calls s') ⊆+ omap (pend_call j T) (calls s)) →
  (∀ c, c ∈ calls s' → call_ok V (nodes s) c) →
  election_inv V s'.
Proof.
  intros Hinv Hi Hs' (E1 & E2 & Hg & Hr & Ht) Hp Hsub Hcl.
  destruct (ei_node _ _ Hinv i rf Hi) as (H1 & H2 & H3 & H4 & H5 & H6 & H7).
  assert (vote_mono rf rf') as Hmono.
  { destruct Ht as [[? ?]|[? ?]]; [by left|right]. split; [done|congruence]. }
  assert (currentTerm rf <= currentTerm rf') as Hle by (destruct Hmono as [|[]]; lia).
  eapply (election_update V V s s' i rf rf'); try done.
  - by intros v T c Hv.
  - by left.
  - split; [done|]. split; [congruence|]. split; [congruence|]. split; [done|].
    split; [|split].
    + intros p a Hpa. destruct (H5 p a) as [? ?]; [|split; [done|lia]].
      eapply elem_of_submseteq; [exact Hpa|done].
    + intros Hl. destruct Hr as [|(R1 & R2 & R3)]; [congruence|]. rewrite R2. apply H6. congruence.
    + intros Hv. destruct Ht as [[? ?]|[T1 T2]]; [done|]. rewrite <-T1, T2. apply H7. congruence.
  - intros Hl. destruct Hr as [|(R1 & R2 & R3)]; [congruence|].
    destruct (ei_cand _ _ Hinv i rf Hi) as (S & HS1 & HS2 & HS3); [congruence|].
    exists S. rewrite R2, R3. split_and!; [done| |done].
    eapply submseteq_NoDup; [|exact HS2]. unfold pending.
    apply submseteq_app; [done|]. apply submseteq_app; [apply Hsub|by apply omap_submseteq].
  - intros c Hc. rewrite Hs'. apply (call_ok_mono V V _ i rf); [done|done|by intros v T c0 Hv|by apply Hcl].
Qed.

(** ** The steps *)

Lemma omap_none {A B} (f : A → option B) (l : list A) :
  (∀ x, x ∈ l → f x = None) → omap f l = [].
Proof.
  intros H. induction l as [|x l IH]; [done|]. simpl. rewrite (H x) by set_solver.
  apply IH. intros y Hy. apply H. set_solver.
Qed.

Lemma omap_fewer {A B} (f g : A → option B) (l : list A) :
  (∀ x, g x = f x ∨ g x = None) → omap g l ⊆+ omap f l.
Proof.
  intros H. induction l as [|x l IH]; [done|]. simpl.
  destruct (H x) as [->| ->]; destruct (f x); try done; by constructor.
Qed.

Lemma omap_map {A B C} (f : B → option C) (g : A → B) (l : list A) :
  omap f (g <$> l) = omap (λ x, f (g x)) l.
Proof. induction l as [|x l IH]; [done|]. simpl. destruct (f (g x)); [by f_equal|done]. Qed.

Lemma omap_delete {A B} (f : A → option B) (l1 l2 : list A) (x : A) :
  omap f (l1 ++ l2) ⊆+ omap f (l1 ++ x :: l2).
Proof.
  apply omap_submseteq. apply submseteq_app; [done|]. by apply submseteq_cons.
Qed.

Lemma omap_middle {A B} (f : A → option B) (l1 l2 : list A) (x : A) :
  omap f (l1 ++ x :: l2) ≡ₚ omap f [x] ++ omap f (l1 ++ l2).
Proof.
  rewrite !omap_app. simpl. destruct (f x); simpl; [|done]. by rewrite Permutation_middle.
Qed.

Lemma election_lose V s cs :
  election_inv V s → (∀ j T, omap (pend_call j T) cs ⊆+ omap (pend_call j T) (calls s)) →
  (∀ c, c ∈ cs → c ∈ calls s) → election_inv V (MkCluster (nodes s) cs).
Proof.
  intros [Hn Hc Hh Hcl] Hsub Hin. split; simpl; try done; [|intros c Hx; by apply Hcl, Hin].
  intros i rf Hi Hl. destruct (Hc i rf Hi Hl) as (S & HS1 & HS2 & HS3). exists S.
  split_and!; [done| |done]. eapply submseteq_NoDup; [|exact HS2]. unfold pending.
  apply submseteq_app; [done|]. by apply submseteq_app.
Qed.

Lemma pend_rep i T c rep :
  pend_call i T (MkCall (c_from c) (c_to c) (c_req c) rep (c_live c)) = pend_call i T c.
Proof. done. Qed.

Lemma pend_replaced i T (l1 l2 : list (Call Cmd)) c rep :
  omap (pend_call i T) (l1 ++ MkCall (c_from c) (c_to c) (c_req c) rep (c_live c) :: l2) =
  omap (pend_call i T) (l1 ++ c :: l2).
Proof. by rewrite !omap_app. Qed.

(** A vote is cast: by the candidate itself, or on request. *)
Definition cast V (v T c : Z) : Z → Z → option Z :=
  λ v' T', if decide (v' = v ∧ T' = T) then Some c else V v' T'.

Lemma cast_ext V v T c : (∀ c', V v T = Some c' → c' = c) → V_ext V (cast V v T c).
Proof.
  intros H v' T' c' HV. unfold cast. case_decide as Hd; [|done].
  destruct Hd as [-> ->]. by rewrite (H c').
Qed.

Lemma cast_back V v T c v' T' c' :
  cast V v T c v' T' = Some c' → V v' T' = Some c' ∨ v' = v ∧ T' = T ∧ c' = c.
Proof. unfold cast. case_decide as Hd; [|by left]. intros [= <-]. right. tauto. Qed.

Lemma cast_here V v T c : cast V v T c v T = Some c.
Proof. unfold cast. by rewrite decide_True. Qed.

Lemma startElection_fields now draw rf rf' :
  startElection now draw rf = Some rf' →
  ∃ args, me rf' = me rf ∧ npeers rf' = npeers rf ∧ currentTerm rf' = currentTerm rf + 1 ∧
    votedFor rf' = me rf ∧ role rf' = Candidate ∧ votes rf' = 1 ∧
    rv_Term args = currentTerm rf + 1 ∧ rv_CandidateId args = me rf ∧
    vote_gos rf' = vote_gos rf ++ ((λ p, (p, args)) <$> others rf).
Proof.
  unfold startElection. intros (t & _ & [= <-])%bind_Some.
  set (args := MkRVArgs _ _ _ _). exists args.
  assert (∀ l rf0, let rf1 := foldl (λ r p, go r (GoRequestVote p args)) rf0 l in
    me rf1 = me rf0 ∧ npeers rf1 = npeers rf0 ∧ currentTerm rf1 = currentTerm rf0 ∧
    votedFor rf1 = votedFor rf0 ∧ role rf1 = role rf0 ∧ votes rf1 = votes rf0 ∧
    vote_gos rf1 = vote_gos rf0 ++ ((λ p, (p, args)) <$> l)) as Hf.
  { induction l as [|p l IH]; intros rf0; simpl.
    - split_and!; try done. by rewrite app_nil_r.
    - specialize (IH (go rf0 (GoRequestVote p args))). cbn zeta in IH.
      destruct IH as (-> & -> & -> & -> & -> & -> & ->). split_and!; try done.
      unfold vote_gos. simpl. rewrite omap_app. simpl. by rewrite <-app_assoc. }
  match goal with |- context [foldl _ ?r (others ?q)] =>
    destruct (Hf (others q) r) as (-> & -> & -> & -> & -> & -> & ->) end.
  done.
Qed.

Lemma pending_fresh V s i rf T :
  election_inv V s → nodes s !! i = Some rf → currentTerm rf < T →
  omap (pend_call i T) (calls s) = [] ∧ omap (pend_go T) (vote_gos rf) = [].
Proof.
  intros Hinv Hi HT. split.
  - apply omap_nil_all. intros c Hc. pose proof (ei_call _ _ Hinv c Hc) as Hok.
    unfold pend_call. destruct (c_req c) as [a| |] eqn:Ha; try done.
    rewrite decide_False; [done|]. intros (_ & Hfrom & Hterm).
    destruct (Hok a Ha) as (_ & _ & Hle & _). rewrite Hfrom in Hle. specialize (Hle rf Hi). lia.
  - apply omap_nil_all. intros [p a] Hpa.
    destruct (ei_node _ _ Hinv i rf Hi) as (_ & _ & _ & _ & Hg & _).
    destruct (Hg p a Hpa) as [_ Hle]. unfold pend_go. simpl. by rewrite decide_False by lia.
Qed.

Lemma others_NoDup rf : NoDup (me rf :: others rf).
Proof.
  unfold others. constructor.
  - rewrite list_elem_of_filter. tauto.
  - apply list.NoDup_filter, NoDup_seqZ.
Qed.

Lemma election_start V s i rf now draw rf' :
  election_inv V s → nodes s !! i = Some rf → startElection now draw rf = Some rf' →
  persisted rf' → election_inv (cast V i (currentTerm rf + 1) i) (set_node s i rf').
Proof.
  intros Hinv Hi Hst Hp.
  destruct (startElection_fields _ _ _ _ Hst)
    as (args & E1 & E2 & E3 & E4 & E5 & E6 & E7 & E8 & E9).
  destruct (ei_node _ _ Hinv i rf Hi) as (H1 & H2 & H3 & H4 & H5 & H6 & H7).
  eapply (election_update V _ s _ i rf rf'); try done.
  - left. lia.
  - apply cast_ext. intros c' HV. destruct (ei_hist _ _ Hinv _ _ _ HV) as (_ & rf0 & Hr & Hle & _).
    assert (rf0 = rf) as -> by congruence. lia.
  - intros v T c [HV|(-> & -> & ->)]%cast_back; [by left|right].
    split_and!; try done; [congruence|lia].
  - split; [done|]. split; [congruence|]. split; [congruence|]. split; [done|].
    split; [|split].
    + intros p a. rewrite E9, elem_of_app, list_elem_of_fmap.
      intros [Hold|(q & [= -> ->] & _)]; [|split; [congruence|lia]].
      destruct (H5 p a Hold). split; [done|lia].
    + intros Hl. congruence.
    + intros _. rewrite E3, E4, H2. apply cast_here.
  - intros _. exists [i]. rewrite E3, E6. split_and!.
    + done.
    + destruct (pending_fresh V s i rf (currentTerm rf + 1) Hinv Hi) as [Hc Hg]; [lia|].
      unfold pending. cbn [calls set_node]. rewrite Hc, E9, omap_app, Hg. simpl.
      assert (omap (pend_go (currentTerm rf + 1)) ((λ p, (p, args)) <$> others rf) = others rf)
        as ->.
      { generalize (others rf). induction l as [|p l IH]; [done|]. simpl.
        unfold pend_go at 1. simpl. rewrite decide_True by done. by f_equal. }
      rewrite <-H2. apply others_NoDup.
    + intros v ->%list_elem_of_singleton. apply cast_here.
  - intros c Hc. simpl. apply (call_ok_mono V _ _ i rf); [done|lia| |by apply (ei_call _ _ Hinv)].
    apply cast_ext. intros c' HV. destruct (ei_hist _ _ Hinv _ _ _ HV) as (_ & rf0 & Hr & Hle & _).
    assert (rf0 = rf) as -> by congruence. lia.
Qed.

(** A peer grants its vote. *)
Lemma RequestVote_cases args now rf rf' r :
  RequestVote args now rf = Some (rf', r) →
  (quiet rf rf' ∧ rvr_VoteGranted r = false) ∨
  (∃ rf1, quiet rf rf1 ∧ (persisted rf → persisted rf1) ∧ currentTerm rf1 = rv_Term args ∧
     (votedFor rf1 = -1 ∨ votedFor rf1 = rv_CandidateId args) ∧
     currentTerm rf' = rv_Term args ∧ votedFor rf' = rv_CandidateId args ∧
     me rf' = me rf1 ∧ npeers rf' = npeers rf1 ∧ vote_gos rf' = vote_gos rf1 ∧
     role rf' = role rf1 ∧ votes rf' = votes rf1).
Proof.
  unfold RequestVote. case_decide as Hold; [intros [= <- <-]; left; by split|].
  intros (ok & _ & Hx)%bind_Some.
  case_decide as Hg; injection Hx as <- <-.
  - right. exists (observe_term (rv_Term args) rf). split; [apply quiet_observe|].
    assert (currentTerm (observe_term (rv_Term args) rf) = rv_Term args) as Ht.
    { unfold observe_term, becomeFollower. repeat case_decide; simpl in *; lia. }
    destruct Hg as [Hg _]. split; [apply persisted_observe|]. by split_and!.
  - left. split; [apply quiet_observe|done].
Qed.

Lemma election_grant V s c l1 l2 rf rf1 rf' a rep :
  election_inv V s → calls s = l1 ++ c :: l2 → nodes s !! c_to c = Some rf →
  c_req c = ReqVote a → quiet rf rf1 → currentTerm rf1 = rv_Term a →
  (votedFor rf1 = -1 ∨ votedFor rf1 = rv_CandidateId a) →
  currentTerm rf' = rv_Term a → votedFor rf' = rv_CandidateId a →
  me rf' = me rf1 → npeers rf' = npeers rf1 → vote_gos rf' = vote_gos rf1 →
  role rf' = role rf1 → votes rf' = votes rf1 → persisted rf' → persisted rf1 →
  election_inv (cast V (c_to c) (rv_Term a) (c_from c))
    (MkCluster (<[c_to c := rf']> (nodes s))
       (l1 ++ MkCall (c_from c) (c_to c) (c_req c) rep (c_live c) :: l2)).
Proof.
  intros Hinv Hcs Hi Ha Hq Ht1 Hv1 Ht' Hv' E1 E2 E3 E4 E5 Hp' Hp1.
  assert (c ∈ calls s) as Hc by (rewrite Hcs; set_solver).
  destruct (ei_call _ _ Hinv c Hc a Ha) as (Hcand & Hpos & Hterm & _).
  (* first the quiet part *)
  assert (election_inv V (set_node s (c_to c) rf1)) as Hinv1.
  { eapply (election_quiet V s _ (c_to c) rf rf1); try done. by apply (ei_call _ _ Hinv). }
  set (s1 := set_node s (c_to c) rf1) in *.
  assert (nodes s1 !! c_to c = Some rf1) as Hi1 by (simpl; by rewrite lookup_insert_eq).
  destruct (ei_node _ _ Hinv1 _ rf1 Hi1) as (H1 & H2 & H3 & H4 & H5 & H6 & H7).
  assert (∀ x, V (c_to c) (rv_Term a) = Some x → x = c_from c) as Hsame.
  { intros x HV. destruct (ei_hist _ _ Hinv1 _ _ _ HV) as (Hx & rf0 & Hr0 & _ & Heq).
    assert (rf0 = rf1) as -> by congruence. rewrite <-Hcand.
    specialize (Heq (eq_sym Ht1)). destruct Hv1 as [Hv1|Hv1]; [lia|congruence]. }
  pose proof (cast_ext _ _ _ _ Hsame) as Hext.
  eapply (election_update V _ s1 _ (c_to c) rf1 rf'); try done.
  - simpl. by rewrite insert_insert_eq.
  - right. split; [congruence|]. intros Hne. destruct Hv1; congruence.
  - intros v T x [HV|(-> & -> & ->)]%cast_back; [by left|right].
    split_and!; try done; congruence.
  - split; [done|]. split; [congruence|]. split; [congruence|]. split; [done|].
    split; [|split].
    + intros p b. rewrite E3. intros Hpb. destruct (H5 p b Hpb). split; [done|lia].
    + intros Hl. rewrite E4 in Hl. destruct (H6 Hl) as (S & HS1 & HS2 & HS3). exists S.
      split_and!; [done|done|]. intros v Hv. apply Hext. rewrite Ht', <-Ht1. by apply HS3.
    + intros _. rewrite Ht', Hv', Hcand. apply cast_here.
  - intros Hl. rewrite E4 in Hl. destruct (ei_cand _ _ Hinv1 _ rf1 Hi1 Hl) as (S & HS1 & HS2 & HS3).
    exists S. rewrite E5, Ht'. rewrite Ht1 in HS2, HS3.
    split_and!; [done| |by intros v Hv; apply Hext, HS3]. unfold pending in *. rewrite E3. cbn [calls]. rewrite pend_replaced, <-Hcs. done.
  - intros j T _. cbn [calls]. by rewrite pend_replaced, <-Hcs.
  - intros c'. cbn [calls nodes]. assert (<[c_to c := rf']> (nodes s) = <[c_to c := rf']> (nodes s1)) as ->
      by (simpl; by rewrite insert_insert_eq).
    intros Hc'. apply (call_ok_mono (cast V (c_to c) (rv_Term a) (c_from c)) _ _ _ rf1);
      [done|lia|by intros v T x Hx|].
    assert (c' ∈ calls s ∨ c' = MkCall (c_from c) (c_to c) (c_req c) rep (c_live c))
      as [Hold| ->].
    { rewrite Hcs. set_solver. }
    + intros b Hb. destruct (ei_call _ _ Hinv1 c' Hold b Hb) as (G1 & G2 & G3 & G4).
      split_and!; [done|done|done|]. intros r Hr Hg. by apply Hext, (G4 r).
    + intros b. simpl. rewrite Ha. intros [= <-].
      destruct (ei_call _ _ Hinv1 c Hc a Ha) as (G1 & G2 & G3 & G4).
      split_and!; [done|done|done|]. intros r _ _. apply cast_here.
Qed.

(** A candidate counts a vote. *)
Lemma election_count V s c l1 l2 rf a rf' :
  election_inv V s → calls s = l1 ++ c :: l2 → nodes s !! c_from c = Some rf →
  c_live c = true → c_req c = ReqVote a → V (c_to c) (rv_Term a) = Some (c_from c) →
  currentTerm rf = rv_Term a → role rf = Candidate →
  me rf' = me rf → npeers rf' = npeers rf → vote_gos rf' = vote_gos rf →
  currentTerm rf' = currentTerm rf → votedFor rf' = votedFor rf → votes rf' = votes rf + 1 →
  (role rf' = Candidate ∨ role rf' = Leader ∧ votes rf' * 2 > npeers rf) → persisted rf' →
  election_inv V (MkCluster (<[c_from c := rf']> (nodes s)) (l1 ++ l2)).
Proof.
  intros Hinv Hcs Hi Hlive Ha HV Ht Hrole E1 E2 E3 E4 E5 E6 Hr' Hp'.
  destruct (ei_node _ _ Hinv _ rf Hi) as (H1 & H2 & H3 & H4 & H5 & H6 & H7).
  destruct (ei_cand _ _ Hinv _ rf Hi Hrole) as (S & HS1 & HS2 & HS3).
  assert (NoDup ((c_to c :: S) ++ pending (l1 ++ l2) rf (c_from c) (currentTerm rf))) as HS2'.
  { eapply submseteq_NoDup; [|exact HS2]. unfold pending. rewrite Hcs.
    rewrite (omap_middle (pend_call _ _) l1 l2 c). simpl. unfold pend_call at 2. rewrite Ha.
    rewrite decide_True by done. simpl. by rewrite Permutation_middle. }
  assert (∀ v, v ∈ c_to c :: S → V v (currentTerm rf) = Some (c_from c)) as HS3'.
  { intros v [->|Hv]%elem_of_cons; [by rewrite Ht|by apply HS3]. }
  eapply (election_update V V s _ (c_from c) rf rf'); try done.
  - right. split; [done|]. by rewrite E5.
  - by intros v T x Hx.
  - by left.
  - split; [done|]. split; [congruence|]. split; [congruence|]. split; [done|].
    split; [|split].
    + intros p b. rewrite E3, E4. apply H5.
    + intros Hl. exists (c_to c :: S). rewrite E4. split_and!; [|destruct Hr' as [|[_ Hm]]|done].
      * by apply list.NoDup_app in HS2' as [? _].
      * congruence.
      * rewrite E6, H3 in Hm. rewrite len_cons. lia.
    + intros Hv. rewrite E4, E5 in *. by apply H7.
  - intros Hc. exists (c_to c :: S). rewrite E4, E6. split_and!; [rewrite len_cons; lia| |done].
    unfold pending in *. by rewrite E3.
  - intros j T _. cbn [calls]. rewrite Hcs. apply omap_delete.
  - intros c' Hc'. cbn [nodes calls] in *.
    apply (call_ok_mono V V _ _ rf); [done|lia|by intros v T x Hx|].
    apply (ei_call _ _ Hinv). rewrite Hcs. set_solver.
Qed.

(** Handlers that count no vote, as steps of the cluster. *)
Lemma election_serve_quiet V s c l1 l2 rf rf' rep :
  election_inv V s → calls s = l1 ++ c :: l2 → nodes s !! c_to c = Some rf →
  quiet rf rf' → persisted rf' →
  (∀ a r, c_req c = ReqVote a → rep = RepVote r → rvr_VoteGranted r = false) →
  election_inv V (MkCluster (<[c_to c := rf']> (nodes s))
    (l1 ++ MkCall (c_from c) (c_to c) (c_req c) (Some rep) (c_live c) :: l2)).
Proof.
  intros Hinv Hcs Hi Hq Hp Hng. eapply (election_quiet V s _ (c_to c) rf rf'); try done.
  - intros j T. cbn [calls]. by rewrite pend_replaced, <-Hcs.
  - intros c' Hc'. cbn [calls] in Hc'.
    assert (c ∈ calls s) as Hc by (rewrite Hcs; set_solver).
    assert (c' ∈ calls s ∨ c' = MkCall (c_from c) (c_to c) (c_req c) (Some rep) (c_live c))
      as [Hold| ->] by (rewrite Hcs; set_solver).
    + by apply (ei_call _ _ Hinv).
    + intros a Ha. destruct (ei_call _ _ Hinv c Hc a Ha) as (G1 & G2 & G3 & _).
      split_and!; [done|done|done|]. simpl in *. intros r [= ->] Hg.
      rewrite (Hng a r Ha eq_refl) in Hg. done.
Qed.

Lemma election_reply_quiet V s c l1 l2 rf rf' :
  election_inv V s → calls s = l1 ++ c :: l2 → nodes s !! c_from c = Some rf →
  quiet rf rf' → persisted rf' →
  election_inv V (MkCluster (<[c_from c := rf']> (nodes s)) (l1 ++ l2)).
Proof.
  intros Hinv Hcs Hi Hq Hp. eapply (election_quiet V s _ (c_from c) rf rf'); try done.
  - intros j T. cbn [calls]. rewrite Hcs. apply omap_delete.
  - intros c' Hc'. apply (ei_call _ _ Hinv). rewrite Hcs. set_solver.
Qed.

Lemma node_persisted V s i rf : election_inv V s → nodes s !! i = Some rf → persisted rf.
Proof. intros Hinv Hi. by destruct (ei_node _ _ Hinv i rf Hi) as (_ & _ & _ & ? & _). Qed.

Lemma becomeLeader_fields rf rf' :
  becomeLeader rf = Some rf' →
  me rf' = me rf ∧ npeers rf' = npeers rf ∧ vote_gos rf' = vote_gos rf ∧
  currentTerm rf' = currentTerm rf ∧ votedFor rf' = votedFor rf ∧ votes rf' = votes rf ∧
  role rf' = Leader.
Proof.
  unfold becomeLeader. intros (a & _ & (b & _ & (d & _ & [= <-])%bind_Some)%bind_Some)%bind_Some.
  split_and!; try done. unfold vote_gos. simpl. rewrite omap_app. simpl. by rewrite app_nil_r.
Qed.

Lemma election_vote_reply V s c l1 l2 rf a r rf' :
  election_inv V s → calls s = l1 ++ c :: l2 → nodes s !! c_from c = Some rf →
  c_live c = true → c_req c = ReqVote a → c_rep c = Some (RepVote r) →
  vote_reply (rv_Term a) r rf = Some rf' → persisted rf' →
  election_inv V (MkCluster (<[c_from c := rf']> (nodes s)) (l1 ++ l2)).
Proof.
  intros Hinv Hcs Hi Hlive Ha Hrep Hx Hp'.
  assert (c ∈ calls s) as Hc by (rewrite Hcs; set_solver).
  destruct (ei_call _ _ Hinv c Hc a Ha) as (_ & _ & _ & Hgr).
  unfold vote_reply in Hx.
  destruct (decide (currentTerm rf ≠ rv_Term a ∨ role rf ≠ Candidate)) as [Hst|Hcur].
  { injection Hx as <-. by eapply election_reply_quiet. }
  destruct (decide (rvr_Term r > currentTerm rf)).
  { injection Hx as <-. eapply election_reply_quiet; try done. apply quiet_becomeFollower. }
  assert (currentTerm rf = rv_Term a ∧ role rf = Candidate) as [Ht Hrole].
  { destruct (decide (role rf = Candidate)); [split; [lia|done]|tauto]. }
  destruct (rvr_VoteGranted r) eqn:Hg.
  - specialize (Hgr r Hrep Hg).
    case_decide as Hmaj.
    + destruct (becomeLeader_fields _ _ Hx) as (E1 & E2 & E3 & E4 & E5 & E6 & E7).
      eapply (election_count V s c l1 l2 rf a rf'); try done.
      right. split; [done|]. rewrite E6. tauto.
    + injection Hx as <-. eapply (election_count V s c l1 l2 rf a); try done. by left.
  - injection Hx as <-. by eapply election_reply_quiet.
Qed.

Lemma vote_gos_started l rf : vote_gos (set_started l rf) = omap vote_go l.
Proof. done. Qed.

Lemma quiet_unstart l1 g l2 rf : started rf = l1 ++ g :: l2 → quiet rf (set_started (l1 ++ l2) rf).
Proof.
  intros Hs. split_and!; try done; [|by right|by right].
  rewrite vote_gos_started. unfold vote_gos. rewrite Hs. apply omap_delete.
Qed.

(** A goroutine sends its request for a vote. *)
Lemma election_ask V s i rf l1 l2 peer a :
  election_inv V s → nodes s !! i = Some rf → started rf = l1 ++ GoRequestVote peer a :: l2 →
  election_inv V (MkCluster (<[i := set_started (l1 ++ l2) rf]> (nodes s))
    (calls s ++ [MkCall i peer (ReqVote a) None true])).
Proof.
  intros Hinv Hi Hs. set (rf' := set_started (l1 ++ l2) rf).
  destruct (ei_node _ _ Hinv i rf Hi) as (H1 & H2 & H3 & H4 & H5 & H6 & H7).
  assert (vote_gos rf ≡ₚ (peer, a) :: vote_gos rf') as Hgos.
  { unfold rf'. rewrite vote_gos_started. unfold vote_gos. rewrite Hs.
    by rewrite (omap_middle vote_go). }
  destruct (H5 peer a) as [Hcand Hterm]; [rewrite Hgos; set_solver|].
  eapply (election_update V V s _ i rf rf'); try done.
  - by right.
  - by intros v T x Hx.
  - by left.
  - split; [done|]. split; [done|]. split; [done|]. split; [done|]. split; [|by split].
    intros p b Hpb. apply (H5 p b). rewrite Hgos. set_solver.
  - intros Hl. destruct (ei_cand _ _ Hinv i rf Hi Hl) as (S & HS1 & HS2 & HS3). exists S.
    split_and!; [done| |done]. eapply submseteq_NoDup; [|exact HS2].
    apply submseteq_app; [done|]. unfold pending. cbn [calls].
    change (currentTerm rf') with (currentTerm rf). rewrite Hgos, omap_app. simpl.
    unfold pend_go at 2, pend_call at 2. simpl.
    destruct (decide (rv_Term a = currentTerm rf)).
    + rewrite decide_True by done. simpl. by rewrite <-app_assoc.
    + rewrite decide_False by tauto. simpl. by rewrite app_nil_r.
  - intros j T Hj. cbn [calls]. rewrite omap_app. simpl. unfold pend_call at 2. simpl.
    rewrite decide_False by naive_solver. by rewrite app_nil_r.
  - intros c [Hc|Hc]%elem_of_app.
    + apply (call_ok_mono V V _ _ rf); [done|done|by intros v T x Hx|by apply (ei_call _ _ Hinv)].
    + apply list_elem_of_singleton in Hc as ->. intros b [= <-]. simpl. split_and!; try done; [lia|].
      intros rf0. rewrite lookup_insert_eq. by intros [= <-].
Qed.

(** New votes are those the peers now hold. *)
Definition votes_grow V V' s' : Prop :=
  V_ext V V' ∧
  ∀ v T c, V' v T = Some c → V v T = Some c ∨
    ∃ rf', nodes s' !! v = Some rf' ∧ T = currentTerm rf' ∧ c = votedFor rf' ∧ 0 <= c.

Lemma votes_grow_refl V s' : votes_grow V V s'.
Proof. split; [by intros v T c|by left]. Qed.

Lemma votes_kept V s' : election_inv V s' → ∃ V', election_inv V' s' ∧ votes_grow V V' s'.
Proof. intros H. exists V. split; [done|apply votes_grow_refl]. Qed.

Lemma votes_grow_cast V s' v T c rf' :
  (∀ c', V v T = Some c' → c' = c) → nodes s' !! v = Some rf' → T = currentTerm rf' →
  c = votedFor rf' → 0 <= c → votes_grow V (cast V v T c) s'.
Proof.
  intros Hsame Hv HT Hc Hpos. split; [by apply cast_ext|].
  intros v' T' c' [HV|(-> & -> & ->)]%cast_back; [by left|right]. by exists rf'.
Qed.

(** Each kind of step, one lemma. *)
Definition votes_step V s' : Prop := ∃ V', election_inv V' s' ∧ votes_grow V V' s'.

Lemma votes_local V s i rf inp rf' :
  election_inv V s → nodes s !! i = Some rf → local_input inp = true → handle inp rf = Some rf' →
  votes_step V (set_node s i rf').
Proof using All.
  intros Hinv Hi Hloc Hh. pose proof (node_persisted _ _ _ _ Hinv Hi) as Hp.
  pose proof (handle_persisted inp rf rf' Hp Hh) as Hp'.
  assert ((∃ now draw, inp = InTick now draw) ∨ (∀ now draw, inp ≠ InTick now draw))
    as [(now & draw & ->)|Hnt] by (destruct inp; eauto; by right).
  - simpl in Hh. unfold tick in Hh. case_decide.
    + eexists. split; [by eapply election_start|].
      destruct (startElection_fields _ _ _ _ Hh) as (a & _ & _ & E3 & E4 & _).
      destruct (ei_node _ _ Hinv i rf Hi) as (H1 & H2 & _).
      apply (votes_grow_cast _ _ _ _ _ rf'); [|simpl; by rewrite lookup_insert_eq|done|by rewrite E4|lia].
      intros c' HV. destruct (ei_hist _ _ Hinv _ _ _ HV) as (_ & rf0 & Hr & Hle & _).
      assert (rf0 = rf) as -> by congruence. lia.
    + injection Hh as <-. apply votes_kept. eapply (election_quiet V s _ i rf rf); try done.
      by apply (ei_call _ _ Hinv).
  - apply votes_kept. eapply (election_quiet V s _ i rf rf'); try done.
    + by eapply quiet_local.
    + by apply (ei_call _ _ Hinv).
Qed.

(** A goroutine that sends nothing, or a request that asks for no vote. *)
Lemma election_send V s i rf rf' cs :
  election_inv V s → nodes s !! i = Some rf → quiet rf rf' → persisted rf' →
  (∀ c a, c ∈ cs → c_req c ≠ ReqVote a) →
  election_inv V (MkCluster (<[i := rf']> (nodes s)) (calls s ++ cs)).
Proof using All.
  intros Hinv Hi Hq Hp Hcs. eapply (election_quiet V s _ i rf rf'); try done.
  - intros j T. cbn [calls]. rewrite omap_app. rewrite (omap_none (pend_call j T) cs), app_nil_r; [done|].
    intros c Hc. unfold pend_call. destruct (c_req c) as [a|a|a] eqn:E; [|done..]. by destruct (Hcs c a Hc).
  - cbn [calls]. intros c [Hc|Hc]%elem_of_app; [by apply (ei_call _ _ Hinv)|].
    intros a Ha. by destruct (Hcs c a Hc).
Qed.

Lemma replicate_no_vote peer rf (req : Request Cmd) a :
  replicate_args peer rf = Some (Some req) → req ≠ ReqVote a.
Proof.
  intros Hreq ->. unfold replicate_args in Hreq. case_decide; [done|].
  apply bind_Some in Hreq as (nx & _ & Hreq). case_decide; [done|].
  apply bind_Some in Hreq as (t & _ & Hreq). case_decide; [done|].
  by apply bind_Some in Hreq as (es & _ & [= ?]).
Qed.

Lemma votes_go V s i rf g l1 l2 rf' out :
  election_inv V s → nodes s !! i = Some rf → started rf = l1 ++ g :: l2 →
  run_goroutine g (set_started (l1 ++ l2) rf) = Some (rf', out) →
  election_inv V (MkCluster (<[i := rf']> (nodes s))
    (calls s ++ match out with Some (peer, req) => [MkCall i peer req None true] | None => [] end)).
Proof using All.
  intros Hinv Hi Hs Hrun. pose proof (node_persisted _ _ _ _ Hinv Hi) as Hp.
  destruct g as [|peer|peer a]; simpl in Hrun.
  - injection Hrun as <- <-. apply (election_send V s i rf); [done|done| | |by intros c a ?%elem_of_nil].
    + etransitivity; [by eapply quiet_unstart|apply quiet_broadcast].
    + eapply (handle_persisted InBroadcast (set_started (l1 ++ l2) rf)); done.
  - destruct (replicate_args peer _) as [[req|]|] eqn:Hreq; [| |done]; injection Hrun as <- <-;
      (apply (election_send V s i rf); [done|done|by eapply quiet_unstart|done|]).
    + intros c a ->%list_elem_of_singleton. by eapply replicate_no_vote.
    + by intros c a ?%elem_of_nil.
  - injection Hrun as <- <-. by eapply election_ask.
Qed.

Lemma votes_serve V s c l1 l2 rf now rf' rep :
  election_inv V s → calls s = l1 ++ c :: l2 → c_rep c = None → nodes s !! c_to c = Some rf →
  serve (c_req c) now rf = Some (rf', rep) →
  votes_step V (MkCluster (<[c_to c := rf']> (nodes s))
    (l1 ++ MkCall (c_from c) (c_to c) (c_req c) (Some rep) (c_live c) :: l2)).
Proof using All.
  intros Hinv Hcs Hnone Hi Hserve. pose proof (node_persisted _ _ _ _ Hinv Hi) as Hp.
  destruct (c_req c) as [a|a|a] eqn:Ha; simpl in Hserve;
    apply bind_Some in Hserve as ([rf1 r] & Hx & [= <- <-]); rewrite <-Ha.
  - assert (persisted rf1) as Hp1.
    { eapply (handle_persisted (InRequestVote a now) rf); [done|]. simpl. by rewrite Hx. }
    destruct (RequestVote_cases _ _ _ _ _ Hx) as [[Hq Hg]|
      (rf0 & Hq & E0 & E1 & E2 & E3 & E4 & E5 & E6 & E7 & E8 & E9)].
    + apply votes_kept. eapply election_serve_quiet; try done. intros b r0 _ [= <-]. done.
    + destruct (ei_call _ _ Hinv c ltac:(rewrite Hcs; set_solver) a Ha) as (Hcand & Hpos & _).
      eexists. split; [eapply (election_grant V s c l1 l2 rf rf0 rf1 a); try done; by apply E0|].
      apply (votes_grow_cast _ _ _ _ _ rf1);
        [|simpl; by rewrite lookup_insert_eq|done|congruence|lia].
      intros x HV. destruct (ei_hist _ _ Hinv _ _ _ HV) as (Hx0 & rf2 & Hr & Hle & Heq).
      assert (rf2 = rf) as -> by congruence. destruct Hq as (_ & _ & _ & _ & [[T1 T2]|[T1 T2]]).
      { lia. } specialize (Heq ltac:(lia)). destruct E2 as [E2|E2]; [lia|congruence].
  - apply votes_kept. eapply election_serve_quiet; try done.
    + by eapply quiet_AppendEntries.
    + eapply (handle_persisted (InAppendEntries a now) rf); [done|]. simpl. by rewrite Hx.
  - apply votes_kept. eapply election_serve_quiet; try done.
    + by eapply quiet_InstallSnapshot.
    + eapply (handle_persisted (InInstallSnapshot (decode_install a) now) rf); [done|].
      simpl. by rewrite Hx.
Qed.

Lemma votes_reply V s c l1 l2 rf rep rf' :
  election_inv V s → calls s = l1 ++ c :: l2 → c_rep c = Some rep → c_live c = true →
  nodes s !! c_from c = Some rf → absorb (c_to c) (c_req c) rep rf = Some rf' →
  election_inv V (MkCluster (<[c_from c := rf']> (nodes s)) (l1 ++ l2)).
Proof using All.
  intros Hinv Hcs Hrep Hlive Hi Habs. pose proof (node_persisted _ _ _ _ Hinv Hi) as Hp.
  destruct (c_req c) as [a|a|a] eqn:Ha, rep as [r|r|r]; simpl in Habs;
    try (injection Habs as <-; by eapply election_reply_quiet).
  - eapply (election_vote_reply V s c l1 l2 rf a r); try done.
    by eapply (handle_persisted (InVoteReply (rv_Term a) r) rf).
  - eapply election_reply_quiet; try done; [by eapply quiet_append_reply|].
    by eapply (handle_persisted (InAppendReply (c_to c) a r) rf).
  - eapply election_reply_quiet; try done; [by eapply quiet_install_reply|].
    by eapply (handle_persisted (InInstallReply (c_to c) a r) rf).
Qed.

Lemma votes_crash V s i rf now draw rf' :
  election_inv V s → nodes s !! i = Some rf → handle (InRestart now draw) rf = Some rf' →
  election_inv V (MkCluster (<[i := rf']> (nodes s)) (orphan i <$> calls s)).
Proof using All.
  intros Hinv Hi Hh. pose proof (node_persisted _ _ _ _ Hinv Hi) as Hp.
  pose proof (handle_persisted (InRestart now draw) rf rf' Hp Hh) as Hp'. injection Hh as <-.
  eapply (election_quiet V s _ i rf _); try done.
  - by apply quiet_restart.
  - intros j T. cbn [calls]. rewrite omap_map. apply omap_fewer. intros c.
    unfold orphan, pend_call. simpl. case_decide; [|by left]. simpl.
    destruct (c_req c); try by left. right. done.
  - intros c (c0 & -> & Hc0)%list_elem_of_fmap. pose proof (ei_call _ _ Hinv c0 Hc0) as Hok.
    unfold orphan. by case_decide.
Qed.

Lemma election_step_votes V s s' :
  election_inv V s → step allowed s s' → ∃ V', election_inv V' s' ∧ votes_grow V V' s'.
Proof using All.
  intros Hinv [i rf inp rf' Hi Hloc _ Hh|i rf g l1 l2 rf' out Hi Hs Hrun|
    c l1 l2 rf now rf' rep Hcs Hnone Hi Hserve|c l1 l2 rf rep rf' Hcs Hrep Hlive Hi Habs|
    c l1 l2 Hcs|i rf now draw rf' Hi Hh].
  - by eapply votes_local.
  - by eapply votes_kept, votes_go.
  - by eapply votes_serve.
  - by eapply votes_kept, votes_reply.
  - apply votes_kept, (election_lose V s (l1 ++ l2)); [done| |].
    + intros j T. rewrite Hcs. apply omap_delete.
    + intros c'. rewrite Hcs. set_solver.
  - by eapply votes_kept, votes_crash.
Qed.

Lemma election_step V s s' :
  election_inv V s → step allowed s s' → ∃ V', election_inv V' s'.
Proof using All.
  intros Hinv Hstep. destruct (election_step_votes V s s' Hinv Hstep) as (V' & HV & _).
  by exists V'.
Qed.

Lemma election_init0 times draws : election_inv (λ _ _, None) (init_cluster n times draws).
Proof.
  assert (∀ i rf, nodes (init_cluster n times draws) !! i = Some rf →
    0 <= i < n ∧ rf = boot n i (times i) (draws i)) as Hb.
  { intros i rf Hi. apply elem_of_list_to_map_2 in Hi.
    apply list_elem_of_fmap in Hi as (j & [= -> ->] & Hj%elem_of_seqZ). split; [lia|done]. }
  split.
  - intros i rf Hi. apply Hb in Hi as [Hi ->].
    split; [done|]. split; [done|]. split; [done|]. split; [apply boot_persisted|].
    split; [|by split]. intros p a Hpa. by apply elem_of_nil in Hpa.
  - intros i rf Hi Hl. by apply Hb in Hi as [Hi ->].
  - done.
  - intros c Hc. by apply elem_of_nil in Hc.
Qed.

Lemma election_init times draws : ∃ V, election_inv V (init_cluster n times draws).
Proof. eexists. apply election_init0. Qed.

Lemma reachable_election times draws s :
  reachable allowed n times draws s → ∃ V, election_inv V s.
Proof using All.
  revert s. refine (rtc_ind_r (λ s, ∃ V, election_inv V s) _ _ _).
  - apply election_init.
  - intros s1 s2 _ Hstep [V HV]. by eapply election_step.
Qed.
End Election.

Lemma leaders_unique {Cmd} `{!Gob Cmd, !GobLaws Cmd} allowed n times draws
    (s : Cluster Cmd) i j rf rf' :
  reachable allowed n times draws s →
  nodes s !! i = Some rf → nodes s !! j = Some rf' →
  role rf = Leader → role rf' = Leader → currentTerm rf = currentTerm rf' → i = j.
Proof.
  intros Hr Hi Hj Hli Hlj Ht. destruct (reachable_election n allowed times draws s Hr) as [V HV].
  destruct (ei_node _ _ _ HV i rf Hi) as (Hpos & _ & _ & _ & _ & H1 & _).
  destruct (ei_node _ _ _ HV j rf' Hj) as (_ & _ & _ & _ & _ & H2 & _).
  destruct (H1 Hli) as (S1 & Hn1 & Hm1 & HV1), (H2 Hlj) as (S2 & Hn2 & Hm2 & HV2).
  assert (∀ v T c, V v T = Some c → 0 <= v < n) as Hrange.
  { intros v T c Hc. destruct (ei_hist _ _ _ HV v T c Hc) as (_ & rf0 & Hv & _).
    by destruct (ei_node _ _ _ HV v rf0 Hv). }
  destruct (majorities_meet n S1 S2) as (v & Hv1 & Hv2); try done; [lia|..].
  - intros v Hv. by eapply Hrange, HV1.
  - intros v Hv. by eapply Hrange, HV2.
  - specialize (HV1 v Hv1). specialize (HV2 v Hv2). congruence.
Qed.

(** C9: election safety.  In a cluster of any size, whatever calls are lost,
    delayed or reordered, whichever peers crash and restart, and however the
    goroutines interleave, two peers that are leaders of the same term are the
    same peer. *)
Theorem election_safety {Cmd} `{!Gob Cmd, !GobLaws Cmd} allowed n times draws
    (s : Cluster Cmd) i j rf rf' :
  reachable allowed n times draws s →
  nodes s !! i = Some rf → nodes s !! j = Some rf' →
  role rf = Leader → role rf' = Leader → currentTerm rf = currentTerm rf' → i = j.
Proof. apply leaders_unique. Qed.

(** Peer 0 of three times out, asks peer 1, and is elected. *)
Definition elect_moves : list (CMove string) :=
  [CLocal 0 (InTick 1000000000 0); CGo 0 0; CServe 0 2; CReply 0].
Definition elected : Cluster string :=
  default (MkCluster ∅ [])
    (run_cmoves any_service (init_cluster 3 (λ _, 0) (λ _, 0)) elect_moves).
Definition elected_leader : Raft string := Eval vm_compute in
  default (boot 3 0 0 0) (nodes elected !! 0).

Lemma election_safety_witness :
  role elected_leader = Leader ∧ currentTerm elected_leader = 1 ∧ 0 = 0.
Proof.
  split; [reflexivity|]. split; [reflexivity|].
  apply (election_safety any_service 3 (λ _, 0) (λ _, 0) elected 0 0 elected_leader elected_leader).
  - apply (run_cmoves_reachable any_service 3 _ _ elect_moves). vm_compute. reflexivity.
  - vm_compute. reflexivity.
  - vm_compute. reflexivity.
  - reflexivity.
  - reflexivity.
  - reflexivity.
Defined.
