(* ===== verification/RaftProtocol.v ===== *)
(** * Raft without messages

    The protocol behind [raft1/raft.go], as a transition system on what the
    peers know and on a record of the past: the log of the leader of each term,
    what every candidate stood with, who voted for whom, and how much of each
    leader's log each peer has acknowledged.  Logs are whole logs, compaction is
    below this level.  The argument for safety is made here; [RaftSafety.v]
    shows that the cluster of [RaftNet.v] follows this protocol. *)
From S2P Require Import Prelude Persister Raft.

Section Protocol.
Context {Cmd : Type}.
Implicit Types L P : list (LogEntry Cmd).
Implicit Types e : LogEntry Cmd.

(** ** States

    [a_hist T] is the log of the leader of term [T], empty while [T] has none;
    [a_lead T] is that leader.  [a_cand c T] is the log with which [c] stood for
    term [T].  [a_ack v T] is the highest index of [a_hist T] that [v] took over
    in term [T]. *)
Record Proto := MkProto {
  a_term : Z → Z;
  a_log : Z → list (LogEntry Cmd);
  a_vote : Z → Z → option Z;
  a_cand : Z → Z → list (LogEntry Cmd);
  a_hist : Z → list (LogEntry Cmd);
  a_lead : Z → Z;
  a_ack : Z → Z → nat;
}.
Implicit Types g : Proto.

Definition sentinel : LogEntry Cmd := MkLogEntry 0 None.

Definition proto_init : Proto :=
  MkProto (λ _, 0) (λ _, [sentinel]) (λ _ _, None) (λ _ _, []) (λ _, []) (λ _, 0) (λ _ _, 0%nat).

(** The term of the last entry. *)
Definition last_term L : Z := default 0 (le_Term <$> list.last L).

Definition at_least_up_to_date L L' : Prop :=
  last_term L > last_term L' ∨
  last_term L = last_term L' ∧ (length L' <= length L)%nat.

(** More than half of the [n] peers. *)
Definition quorum (n : Z) (Q : list Z) : Prop :=
  NoDup Q ∧ (∀ v, v ∈ Q → 0 <= v < n) ∧ len Q * 2 > n.

Definition put2 {B} (i T : Z) (b : B) (f : Z → Z → B) : Z → Z → B := <[i := <[T := b]> (f i)]> f.

(** What a peer's log becomes when it takes over the first [k + 1] entries of
    [L]: unchanged if it has them already, which the term of the last one tells. *)
Definition adopt L (k : nat) L' : list (LogEntry Cmd) :=
  if decide (le_Term <$> L !! k = le_Term <$> L' !! k) then L' else take (S k) L.

Definition with_term i T g : Proto :=
  MkProto (<[i := T]> (a_term g)) (a_log g) (a_vote g) (a_cand g) (a_hist g) (a_lead g) (a_ack g).

Definition with_vote i c g : Proto :=
  MkProto (a_term g) (a_log g) (put2 i (a_term g i) (Some c) (a_vote g)) (a_cand g) (a_hist g)
    (a_lead g) (a_ack g).

Definition with_stand i g : Proto :=
  let T := a_term g i + 1 in
  MkProto (<[i := T]> (a_term g)) (a_log g) (put2 i T (Some i) (a_vote g))
    (put2 i T (a_log g i) (a_cand g)) (a_hist g) (a_lead g) (a_ack g).

Definition with_leader i g : Proto :=
  let T := a_term g i in
  MkProto (a_term g) (a_log g) (a_vote g) (a_cand g) (<[T := a_log g i]> (a_hist g))
    (<[T := i]> (a_lead g)) (a_ack g).

Definition with_entry i e g : Proto :=
  let T := a_term g i in
  MkProto (a_term g) (<[i := a_log g i ++ [e]]> (a_log g)) (a_vote g) (a_cand g)
    (<[T := a_log g i ++ [e]]> (a_hist g)) (a_lead g) (put2 i T (length (a_log g i)) (a_ack g)).

Definition with_adopted i (k : nat) g : Proto :=
  let T := a_term g i in
  MkProto (a_term g) (<[i := adopt (a_hist g T) k (a_log g i)]> (a_log g)) (a_vote g) (a_cand g)
    (a_hist g) (a_lead g) (put2 i T (max (a_ack g i T) k) (a_ack g)).

(** What peer [i] may do. *)
Inductive pstep (n i : Z) (g : Proto) : Proto → Prop :=
| p_bump T :
    a_term g i <= T → pstep n i g (with_term i T g)
| p_stand :
    pstep n i g (with_stand i g)
| p_grant c :
    a_vote g i (a_term g i) = None → a_cand g c (a_term g i) ≠ [] →
    at_least_up_to_date (a_cand g c (a_term g i)) (a_log g i) →
    pstep n i g (with_vote i c g)
| p_elect Q :
    a_hist g (a_term g i) = [] → a_cand g i (a_term g i) = a_log g i → quorum n Q →
    (∀ v, v ∈ Q → a_vote g v (a_term g i) = Some i) →
    pstep n i g (with_leader i g)
| p_append e :
    le_Term e = a_term g i → a_hist g (a_term g i) ≠ [] → a_lead g (a_term g i) = i →
    a_log g i = a_hist g (a_term g i) →
    pstep n i g (with_entry i e g)
| p_adopt k :
    (k < length (a_hist g (a_term g i)))%nat → pstep n i g (with_adopted i k g).

(** ** The invariant *)

(** Every entry agrees, with all that comes before it, with the log of the
    leader of its term. *)
Definition log_ok g L : Prop :=
  L !! 0%nat = Some sentinel ∧
  ∀ k e, (0 < k)%nat → L !! k = Some e → take (S k) L = take (S k) (a_hist g (le_Term e)).

Definition terms_le L T : Prop := ∀ e, e ∈ L → le_Term e <= T.

(** [v] has acknowledged, in term [T], the prefix [P] that ends in an entry of
    term [T]. *)
Definition acked g v T P : Prop :=
  ∃ k e, (0 < k <= a_ack g v T)%nat ∧ a_hist g T !! k = Some e ∧ le_Term e = T ∧
    P = take (S k) (a_hist g T).

(** A leader of a term between [T] and [U] does not have [P]. *)
Definition overridden g T P U : Prop :=
  ∃ W, T < W < U ∧ a_hist g W ≠ [] ∧ ¬ P `prefix_of` a_hist g W.

Record proto_inv (n : Z) g : Prop := {
  pi_peers : 0 <= n;
  pi_term i : 0 <= a_term g i;
  pi_log i : log_ok g (a_log g i) ∧ terms_le (a_log g i) (a_term g i);
  pi_hist T : a_hist g T ≠ [] → 0 < T ∧ log_ok g (a_hist g T) ∧ terms_le (a_hist g T) T;
  pi_cand c T :
    a_cand g c T ≠ [] → T <= a_term g c ∧ log_ok g (a_cand g c T) ∧ terms_le (a_cand g c T) (T - 1);
  pi_vote v T c : a_vote g v T = Some c → T <= a_term g v ∧ a_cand g c T ≠ [];
  pi_ack v T :
    (0 < a_ack g v T)%nat → T <= a_term g v ∧ (a_ack g v T < length (a_hist g T))%nat;
  pi_own T k e :
    a_hist g T !! k = Some e → le_Term e = T → (k <= a_ack g (a_lead g T) T)%nat;
  pi_kept v T P :
    acked g v T P → P `prefix_of` a_log g v ∨ overridden g T P (a_term g v + 1);
  pi_voted v U c T P :
    a_vote g v U = Some c → a_hist g U = [] → T < U → acked g v T P →
    P `prefix_of` a_cand g c U ∨ overridden g T P U;
  pi_elected U :
    a_hist g U ≠ [] → ∃ Q, quorum n Q ∧ (∀ v, v ∈ Q → a_vote g v U = Some (a_lead g U)) ∧
      ∀ v T P, v ∈ Q → T < U → acked g v T P → P `prefix_of` a_hist g U ∨ overridden g T P U;
}.

(** ** Logs *)

Lemma take_eq_lookup {A} (l1 l2 : list A) (m j : nat) :
  take m l1 = take m l2 → (j < m)%nat → l1 !! j = l2 !! j.
Proof.
  intros H Hj. rewrite <-(lookup_take_lt l1 m), <-(lookup_take_lt l2 m) by done. by rewrite H.
Qed.

Lemma take_eq_less {A} (l1 l2 : list A) (m j : nat) :
  take m l1 = take m l2 → (j <= m)%nat → take j l1 = take j l2.
Proof.
  intros H Hj. replace j with (min j m) by lia. rewrite <-!take_take. by rewrite H.
Qed.

Lemma prefix_take_iff {A} (l1 l2 : list A) : l1 `prefix_of` l2 ↔ take (length l1) l2 = l1.
Proof.
  split.
  - intros [k ->]. by rewrite take_app_length.
  - intros <-. apply prefix_take.
Qed.

Lemma take_S_prefix {A} (l1 l2 : list A) k :
  (k < length l1)%nat → take (S k) l1 `prefix_of` l2 ↔ take (S k) l2 = take (S k) l1.
Proof. intros Hk. rewrite prefix_take_iff, length_take, Nat.min_l by lia. done. Qed.

Lemma take_S_prefix_eq {A} (l1 l2 : list A) k :
  l1 `prefix_of` l2 → (k < length l1)%nat → take (S k) l2 = take (S k) l1.
Proof. intros [r ->] Hk. by rewrite take_app_le by lia. Qed.

Section Logs.
Context (n : Z) (g : Proto) (Hg : proto_inv n g).
#[local] Set Default Proof Using "Hg".

Lemma log_ok_nonempty L : log_ok g L → L ≠ [].
Proof using Type. intros [H0 _] ->. done. Qed.

Lemma log_ok_hist L k e :
  log_ok g L → (0 < k)%nat → L !! k = Some e →
  take (S k) L `prefix_of` a_hist g (le_Term e) ∧ a_hist g (le_Term e) !! k = Some e ∧
  a_hist g (le_Term e) ≠ [].
Proof.
  intros [_ Hok] Hk He. specialize (Hok k e Hk He).
  assert (a_hist g (le_Term e) !! k = Some e) as Hh.
  { rewrite <-(take_eq_lookup _ _ _ k Hok) by lia. done. }
  split_and!; [rewrite Hok; apply prefix_take|done|]. intros Hn. by rewrite Hn in Hh.
Qed.

Lemma log_ok_pos L k e : log_ok g L → (0 < k)%nat → L !! k = Some e → 0 < le_Term e.
Proof.
  intros Hok Hk He. destruct (log_ok_hist L k e Hok Hk He) as (_ & _ & Hn).
  by destruct (pi_hist _ _ Hg _ Hn).
Qed.

(** Terms never decrease along a log. *)
Lemma log_ok_sorted L j k e1 e2 :
  log_ok g L → (j <= k)%nat → L !! j = Some e1 → L !! k = Some e2 → le_Term e1 <= le_Term e2.
Proof.
  intros Hok Hjk H1 H2. destruct (decide (k = 0%nat)) as [->|Hk].
  { assert (j = 0%nat) as -> by lia. rewrite H1 in H2. by injection H2 as ->. }
  destruct (log_ok_hist L k e2 Hok) as (_ & _ & Hn); [lia|done|].
  destruct (pi_hist _ _ Hg _ Hn) as (_ & _ & Hle). apply Hle.
  destruct Hok as [_ Hok]. specialize (Hok k e2 ltac:(lia) H2).
  apply (list_elem_of_lookup_2 _ j).
  rewrite <-(take_eq_lookup _ _ _ j Hok) by lia. done.
Qed.

(** Log matching: two logs with an entry of the same term at the same index
    are equal up to it. *)
Lemma log_matching L L' k e e' :
  log_ok g L → log_ok g L' → L !! k = Some e → L' !! k = Some e' → le_Term e = le_Term e' →
  take (S k) L = take (S k) L'.
Proof.
  intros Hok Hok' He He' Ht. destruct (decide (k = 0%nat)) as [->|Hk].
  - destruct Hok as [H0 _], Hok' as [H0' _]. destruct L, L'; try done.
    injection H0 as ->. injection H0' as ->. done.
  - destruct Hok as [_ Hok], Hok' as [_ Hok'].
    rewrite (Hok k e), (Hok' k e') by (done || lia). by rewrite Ht.
Qed.

(** To have a prefix is to have the term of its last entry. *)
Lemma has_prefix L L' k e :
  log_ok g L → log_ok g L' → L !! k = Some e →
  take (S k) L `prefix_of` L' ↔ le_Term <$> L' !! k = Some (le_Term e).
Proof.
  intros Hok Hok' He. pose proof (lookup_lt_Some _ _ _ He) as Hlen.
  rewrite take_S_prefix by done. split.
  - intros Heq. rewrite (take_eq_lookup _ _ _ k Heq) by lia. by rewrite He.
  - intros (e' & He' & Ht)%fmap_Some. symmetry. by eapply log_matching.
Qed.

Lemma has_prefix_dec L L' k :
  log_ok g L → log_ok g L' → (k < length L)%nat →
  take (S k) L `prefix_of` L' ∨ ¬ take (S k) L `prefix_of` L'.
Proof.
  intros Hok Hok' [e He]%lookup_lt_is_Some_2.
  pose proof (has_prefix L L' k e Hok Hok' He) as Hiff.
  destruct (decide (le_Term <$> L' !! k = Some (le_Term e))); [left|right]; tauto.
Qed.

Lemma log_ok_take L k : log_ok g L → log_ok g (take (S k) L).
Proof using Type.
  intros [H0 Hok]. split; [by rewrite lookup_take_lt by lia|].
  intros j e Hj He. apply lookup_take_Some in He as [He Hlt].
  rewrite take_take, Nat.min_l by lia. by apply Hok.
Qed.

Lemma terms_le_take L T m : terms_le L T → terms_le (take m L) T.
Proof using Type. intros H e He. apply H. by eapply elem_of_prefix, prefix_take. Qed.

Lemma log_ok_last L : log_ok g L → ∃ e, L !! (length L - 1)%nat = Some e ∧ last_term L = le_Term e.
Proof.
  intros Hok%log_ok_nonempty. destruct (lookup_lt_is_Some_2 L (length L - 1)) as [e He].
  { destruct L; [done|]. simpl. lia. }
  exists e. split; [done|]. unfold last_term. rewrite last_lookup.
  replace (Init.Nat.pred (length L)) with (length L - 1)%nat by lia. by rewrite He.
Qed.

(** The comparison of [RequestVote]: a log that is at least as up to date as
    one with the prefix [P] has it too, unless a leader in between lacks it. *)
(** A log that ends in a later term either holds the common prefix of term [T]
    or the history of its last term has left it. *)
Lemma later_term_prefix L T U k x :
  log_ok g L → L !! (length L - 1)%nat = Some x → L `prefix_of` a_hist g (le_Term x) →
  a_hist g (le_Term x) ≠ [] → T < le_Term x → le_Term x <= U - 1 →
  (k < length (a_hist g T))%nat →
  take (S k) (a_hist g T) `prefix_of` L ∨ overridden g T (take (S k) (a_hist g T)) U.
Proof.
  intros HL Hx HpL HhL HTx HxU Hlen.
  assert (a_hist g T ≠ []) as Hn by (intros Hn; rewrite Hn in Hlen; simpl in Hlen; lia).
  destruct (pi_hist n g Hg T Hn) as (_ & HokT & Hto).
  assert (log_ok g (a_hist g (le_Term x))) as Hokx by (by apply (pi_hist _ _ Hg)).
  destruct (has_prefix_dec (a_hist g T) (a_hist g (le_Term x)) k HokT Hokx Hlen) as [Hd|Hd].
  2:{ right. exists (le_Term x). split_and!; [lia|lia|done|done]. }
  apply take_S_prefix in Hd; [|done].
  left. apply take_S_prefix; [done|]. rewrite <-Hd.
  assert (k < length L)%nat as HkL.
  { destruct (decide (k < length L)%nat); [done|]. exfalso.
    assert (a_hist g T !! (length L - 1)%nat = Some x) as Hbad.
    { rewrite <-(take_eq_lookup _ _ _ _ Hd) by lia. by eapply prefix_lookup_Some. }
    apply list_elem_of_lookup_2 in Hbad. specialize (Hto x Hbad). lia. }
  symmetry. by apply take_S_prefix_eq.
Qed.

Lemma up_to_date_prefix L L' P T U k e :
  log_ok g L → log_ok g L' → terms_le L (U - 1) → at_least_up_to_date L L' →
  P `prefix_of` L' → P = take (S k) (a_hist g T) → a_hist g T !! k = Some e → le_Term e = T →
  (0 < k)%nat → P `prefix_of` L ∨ overridden g T P U.
Proof.
  intros HL HL' Hle Hup HP -> Hk He Hk0.
  assert (k < length (a_hist g T))%nat as Hlen by (by eapply lookup_lt_Some).
  assert (L' !! k = Some e) as HL'k.
  { apply (take_S_prefix _ L' k Hlen) in HP.
    rewrite (take_eq_lookup _ _ _ k HP) by lia. done. }
  destruct (log_ok_last L HL) as (x & Hx & Htx), (log_ok_last L' HL') as (y & Hy & Hty).
  assert (k <= length L' - 1)%nat as Hkl by (apply lookup_lt_Some in HL'k; lia).
  pose proof (log_ok_sorted L' k (length L' - 1) e y HL' Hkl HL'k Hy) as Hty'.
  assert (x ∈ L) as HxL by (by eapply list_elem_of_lookup_2).
  pose proof (Hle x HxL) as HxU.
  assert (L ≠ []) as HLn by (by eapply log_ok_nonempty).
  assert (0 < length L)%nat as HL0 by (destruct L; [done|simpl; lia]).
  unfold at_least_up_to_date in Hup. rewrite Htx, Hty in Hup.
  assert (0 < T) as HT.
  { destruct (pi_hist n g Hg T) as [HT _]; [|lia]. intros Hn. by rewrite Hn in Hk. }
  assert (0 < length L - 1)%nat as Hl1.
  { destruct (decide (length L - 1 = 0)%nat) as [E|]; [|lia].
    rewrite E in Hx. destruct HL as [H0 _]. rewrite H0 in Hx. injection Hx as <-.
    simpl in *. lia. }
  destruct (log_ok_hist L (length L - 1) x HL Hl1 Hx) as (HpL & HhL & HnL).
  rewrite take_ge in HpL by lia.
  destruct (decide (le_Term x = le_Term y)) as [Heq|Hne].
  - left. assert (length L' <= length L)%nat as Hll by (destruct Hup as [|[]]; lia).
    assert (0 < length L' - 1)%nat as Hl1' by lia.
    destruct (log_ok_hist L' (length L' - 1) y HL' Hl1' Hy) as (HpL' & _ & _).
    rewrite take_ge in HpL' by lia. rewrite Heq in HpL.
    etransitivity; [exact HP|].
    destruct (prefix_weak_total _ _ _ HpL HpL') as [HLL|]; [|done].
    by rewrite (prefix_length_eq _ _ HLL Hll).
  - apply (later_term_prefix L T U k x); try done; lia.
Qed.
End Logs.

(** ** Growing histories *)

(** The log of a leader only grows, by entries of its own term. *)
Definition hist_ext g g' : Prop :=
  ∀ T, a_hist g T `prefix_of` a_hist g' T ∧
    (a_hist g T ≠ [] → ∀ k e, (length (a_hist g T) <= k)%nat → a_hist g' T !! k = Some e →
       le_Term e = T).

Lemma hist_ext_same g g' : a_hist g' = a_hist g → hist_ext g g'.
Proof.
  intros E T. rewrite E. split; [done|]. intros _ k e Hk He%lookup_lt_Some. lia.
Qed.

Lemma hist_ext_nonempty g g' T : hist_ext g g' → a_hist g T ≠ [] → a_hist g' T ≠ [].
Proof. intros H Hn Hn'. destruct (H T) as [Hp _]. rewrite Hn' in Hp. by apply prefix_nil_inv in Hp. Qed.

Lemma log_ok_ext g g' L : hist_ext g g' → log_ok g L → log_ok g' L.
Proof.
  intros Hext [H0 Hok]. split; [done|]. intros k e Hk He. specialize (Hok k e Hk He).
  assert (k < length (a_hist g (le_Term e)))%nat as Hlen.
  { eapply lookup_lt_Some. rewrite <-(take_eq_lookup _ _ _ k Hok) by lia. done. }
  rewrite Hok. destruct (Hext (le_Term e)) as [Hp _]. symmetry. by apply take_S_prefix_eq.
Qed.

Lemma overridden_ext g g' T P U k e :
  hist_ext g g' → P !! k = Some e → le_Term e = T → (length P <= S k)%nat →
  overridden g T P U → overridden g' T P U.
Proof.
  intros Hext Hk He Hlen (W & HW & Hn & Hno). exists W.
  split_and!; [lia|lia|by eapply hist_ext_nonempty|]. intros Hp.
  destruct (Hext W) as [Hpre Hnew].
  destruct (decide (k < length (a_hist g W))%nat) as [Hlt|Hge].
  - apply Hno. destruct (prefix_weak_total _ _ _ Hp Hpre) as [|Hle]; [done|].
    rewrite (prefix_length_eq _ _ Hle); [done|lia].
  - assert (le_Term e = W); [|lia]. apply (Hnew Hn k); [lia|]. by eapply prefix_lookup_Some.
Qed.

Lemma acked_last g v T P :
  acked g v T P → ∃ k e, P !! k = Some e ∧ le_Term e = T ∧ (length P <= S k)%nat.
Proof.
  intros (k & e & Hk & He & Ht & ->). exists k, e. rewrite lookup_take_lt by lia.
  split_and!; [done|done|]. rewrite length_take. lia.
Qed.

Lemma acked_prefix g v T P : acked g v T P → P `prefix_of` a_hist g T.
Proof. intros (k & e & _ & _ & _ & ->). apply prefix_take. Qed.

Lemma acked_overridden g g' v T P U :
  hist_ext g g' → acked g v T P → overridden g T P U → overridden g' T P U.
Proof. intros Hext (k & e & H1 & H2 & H3)%acked_last. by apply (overridden_ext g g' T P U k e). Qed.

(** What was acknowledged before is still all that is acknowledged. *)
Lemma acked_back n g g' v T P :
  proto_inv n g → hist_ext g g' → a_ack g' v T = a_ack g v T → acked g' v T P → acked g v T P.
Proof.
  intros Hg Hext Ha (k & e & Hk & He & Ht & ->). rewrite Ha in Hk.
  destruct (pi_ack _ _ Hg v T) as [_ Hlen]; [lia|]. destruct (Hext T) as [Hp _].
  assert (k < length (a_hist g T))%nat as Hkl by lia.
  exists k, e. split_and!; [lia|lia| |done|by apply take_S_prefix_eq].
  rewrite <-(take_eq_lookup _ _ (S k) k (take_S_prefix_eq _ _ k Hp Hkl)) by lia. done.
Qed.

Lemma overridden_later g T P U U' : U <= U' → overridden g T P U → overridden g T P U'.
Proof. intros HU (W & HW & Hn & Hp). exists W. split_and!; [lia|lia|done|done]. Qed.

(** ** Every action keeps the invariant *)

(** Actions that change terms, votes and candidacies only. *)
Lemma inv_votes n g g' :
  proto_inv n g →
  a_log g' = a_log g → a_hist g' = a_hist g → a_lead g' = a_lead g → a_ack g' = a_ack g →
  (∀ v, a_term g v <= a_term g' v) →
  (∀ v T c, a_vote g v T = Some c → a_vote g' v T = Some c) →
  (∀ c T, a_cand g c T ≠ [] → a_cand g' c T = a_cand g c T) →
  (∀ c T, a_cand g' c T ≠ [] → a_cand g c T ≠ [] ∨
     T = a_term g c + 1 ∧ T <= a_term g' c ∧ a_cand g' c T = a_log g c) →
  (∀ v U c, a_vote g' v U = Some c → a_vote g v U = Some c ∨
     U <= a_term g' v ∧ a_cand g' c U ≠ [] ∧
     (a_hist g U = [] → ∀ T P, T < U → acked g v T P →
        P `prefix_of` a_cand g' c U ∨ overridden g T P U)) →
  proto_inv n g'.
Proof.
  intros Hg El Eh Ed Ea Ht Hv Hc Hc' Hv'.
  assert (∀ L, log_ok g L → log_ok g' L) as Hok.
  { intros L. by apply log_ok_ext, hist_ext_same. }
  assert (∀ v T P, acked g' v T P → acked g v T P) as Hack.
  { intros v T P. unfold acked. by rewrite Ea, Eh. }
  assert (∀ T P U, overridden g T P U → overridden g' T P U) as Hover.
  { intros T P U. unfold overridden. by rewrite Eh. }
  split; rewrite ?El, ?Eh, ?Ed, ?Ea; try by apply Hg.
  - intros i. pose proof (pi_term _ _ Hg i). specialize (Ht i). lia.
  - intros i. destruct (pi_log _ _ Hg i) as [H1 H2]. split; [by apply Hok|].
    intros e He. specialize (H2 e He). specialize (Ht i). lia.
  - intros T HT. destruct (pi_hist _ _ Hg T HT) as (H1 & H2 & H3). auto.
  - intros c T HT. destruct (Hc' c T HT) as [Hold|(-> & Hle & Eq)].
    + rewrite Hc by done. destruct (pi_cand _ _ Hg c T Hold) as (H1 & H2 & H3).
      specialize (Ht c). split_and!; [lia|auto|done].
    + rewrite Eq. destruct (pi_log _ _ Hg c) as [H1 H2]. split_and!; [lia|auto|].
      intros e He. specialize (H2 e He). lia.
  - intros v T c HT. destruct (Hv' v T c HT) as [Hold|(H1 & H2 & _)]; [|done].
    destruct (pi_vote _ _ Hg v T c Hold) as [H1 H2]. specialize (Ht v).
    split; [lia|]. by rewrite Hc.
  - intros v T HT. destruct (pi_ack _ _ Hg v T HT) as [H1 H2]. specialize (Ht v). split; [lia|done].
  - intros v T P HP%Hack. specialize (Ht v).
    destruct (pi_kept _ _ Hg v T P HP) as [|Ho]; [by left|right].
    apply Hover. eapply overridden_later; [|done]. lia.
  - intros v U c T P Hvote HU HTU HP%Hack.
    destruct (Hv' v U c Hvote) as [Hold|(_ & _ & Hnew)].
    + destruct (pi_vote _ _ Hg v U c Hold) as [_ Hn]. rewrite Hc by done.
      destruct (pi_voted _ _ Hg v U c T P Hold HU HTU HP); [by left|right; auto].
    + destruct (Hnew HU T P HTU HP); [by left|right; auto].
  - intros U HU. destruct (pi_elected _ _ Hg U HU) as (Q & HQ & HV & HP).
    exists Q. split_and!; [done|intros v Hq; by apply Hv, HV|].
    intros v T P Hq HTU Hak%Hack. destruct (HP v T P Hq HTU Hak); [by left|right; auto].
Qed.

Lemma put2_here {B} i T (b : B) f : put2 i T b f i T = b.
Proof. unfold put2. by rewrite !fn_lookup_insert. Qed.

Lemma put2_other {B} i T (b : B) f v U : (v ≠ i ∨ U ≠ T) → put2 i T b f v U = f v U.
Proof.
  intros H. unfold put2. destruct (decide (v = i)) as [->|].
  - rewrite fn_lookup_insert. apply fn_lookup_insert_ne. naive_solver.
  - by rewrite fn_lookup_insert_ne.
Qed.

Lemma put2_cases {B} i T (b : B) f v U :
  v = i ∧ U = T ∧ put2 i T b f v U = b ∨ (v ≠ i ∨ U ≠ T) ∧ put2 i T b f v U = f v U.
Proof.
  destruct (decide (v = i)) as [->|]; [destruct (decide (U = T)) as [->|]|].
  - left. by rewrite put2_here.
  - right. rewrite put2_other; auto.
  - right. rewrite put2_other; auto.
Qed.

Lemma insert_cases {B} i (b : B) (f : Z → B) v :
  v = i ∧ (<[i := b]> f) v = b ∨ v ≠ i ∧ (<[i := b]> f) v = f v.
Proof.
  destruct (decide (v = i)) as [->|].
  - left. by rewrite fn_lookup_insert.
  - right. by rewrite fn_lookup_insert_ne.
Qed.

Lemma inv_bump n i T g : proto_inv n g → a_term g i <= T → proto_inv n (with_term i T g).
Proof.
  intros Hg HT. apply (inv_votes n g); try done; simpl; auto.
  intros v. destruct (insert_cases i T (a_term g) v) as [[-> ->]|[_ ->]]; lia.
Qed.

Lemma fresh_vote n g i T : proto_inv n g → a_term g i < T → a_vote g i T = None.
Proof.
  intros Hg HT. destruct (a_vote g i T) as [c|] eqn:Hv; [|done].
  destruct (pi_vote _ _ Hg i T c Hv). lia.
Qed.

Lemma fresh_cand n g i T : proto_inv n g → a_term g i < T → a_cand g i T = [].
Proof.
  intros Hg HT. destruct (a_cand g i T) as [|e L] eqn:Hv; [done|].
  destruct (pi_cand _ _ Hg i T) as [? _]; [by rewrite Hv|]. lia.
Qed.

Lemma log_nonempty n g i : proto_inv n g → a_log g i ≠ [].
Proof. intros Hg. destruct (pi_log _ _ Hg i) as [Hok _]. by eapply log_ok_nonempty. Qed.

Lemma inv_stand n i g : proto_inv n g → proto_inv n (with_stand i g).
Proof.
  intros Hg. set (T := a_term g i + 1).
  pose proof (fresh_vote n g i T Hg ltac:(lia)) as Hfv.
  pose proof (fresh_cand n g i T Hg ltac:(lia)) as Hfc.
  apply (inv_votes n g); try done; cbn [a_term a_vote a_cand with_stand]; fold T.
  - intros v. destruct (insert_cases i T (a_term g) v) as [[-> ->]|[_ ->]]; lia.
  - intros v U c Hv. destruct (put2_cases i T (Some i) (a_vote g) v U) as [(-> & -> & _)|[_ ->]];
      [congruence|done].
  - intros c U Hc. destruct (put2_cases i T (a_log g i) (a_cand g) c U) as [(-> & -> & _)|[_ ->]];
      [congruence|done].
  - intros c U. destruct (put2_cases i T (a_log g i) (a_cand g) c U) as [(-> & -> & ->)|[_ ->]];
      [|by left]. intros _. right. rewrite fn_lookup_insert. split_and!; [done|lia|done].
  - intros v U c. destruct (put2_cases i T (Some i) (a_vote g) v U) as [(-> & -> & ->)|[_ ->]];
      [|by left]. intros [= <-]. right. rewrite fn_lookup_insert, put2_here.
    split_and!; [lia|by eapply log_nonempty|]. intros _ T0 P _ HP. by apply (pi_kept _ _ Hg i).
Qed.

Lemma inv_grant n i c g :
  proto_inv n g → a_vote g i (a_term g i) = None → a_cand g c (a_term g i) ≠ [] →
  at_least_up_to_date (a_cand g c (a_term g i)) (a_log g i) → proto_inv n (with_vote i c g).
Proof.
  intros Hg Hnone Hc Hup.
  apply (inv_votes n g); try done; cbn [a_term a_vote a_cand with_vote].
  - intros v U x Hv.
    destruct (put2_cases i (a_term g i) (Some c) (a_vote g) v U) as [(-> & -> & _)|[_ ->]];
      [congruence|done].
  - intros x U Hx. by left.
  - intros v U x.
    destruct (put2_cases i (a_term g i) (Some c) (a_vote g) v U) as [(-> & -> & ->)|[_ ->]];
      [|by left]. intros [= <-]. right. split_and!; [lia|done|].
    intros HU T P HT HP.
    destruct (pi_kept _ _ Hg i T P HP) as [HPl|(W & HW & Hn & Hno)].
    + destruct (pi_cand _ _ Hg c _ Hc) as (_ & H2 & H3), (pi_log _ _ Hg i) as [H4 _].
      destruct HP as (k & e & Hk & He & Hte & ->).
      eapply (up_to_date_prefix n g Hg _ (a_log g i) _ T _ k e); try done. lia.
    + right. exists W. split_and!; [lia| |done|done].
      destruct (decide (W = a_term g i)) as [->|]; [done|lia].
Qed.

Lemma leader_hist_ext i g : a_hist g (a_term g i) = [] → hist_ext g (with_leader i g).
Proof.
  intros Hnone U. cbn [a_hist with_leader].
  destruct (insert_cases (a_term g i) (a_log g i) (a_hist g) U) as [[-> ->]|[_ ->]].
  - rewrite Hnone. split; [apply prefix_nil|done].
  - split; [done|]. intros _ k e Hk He%lookup_lt_Some. lia.
Qed.

Lemma entry_hist_ext i e g :
  le_Term e = a_term g i → a_log g i = a_hist g (a_term g i) → hist_ext g (with_entry i e g).
Proof.
  intros He Hlog U. cbn [a_hist with_entry]. rewrite Hlog.
  destruct (insert_cases (a_term g i) (a_hist g (a_term g i) ++ [e]) (a_hist g) U)
    as [[-> ->]|[_ ->]].
  - split; [by apply prefix_app_r|]. intros _ k x Hk Hx.
    rewrite lookup_app_r in Hx by lia. apply list_lookup_singleton_Some in Hx as [_ <-]. done.
  - split; [done|]. intros _ k x Hk Hx%lookup_lt_Some. lia.
Qed.

(** Actions that change the log of a peer, the history and what the peer has
    acknowledged in its term. *)
Section Logs_change.
Context (n i : Z) (g g' : Proto).
Context (Hg : proto_inv n g) (Hext : hist_ext g g').
Context (Et : a_term g' = a_term g) (Ev : a_vote g' = a_vote g) (Ec : a_cand g' = a_cand g).
Context (Ha : ∀ v U, v ≠ i ∨ U ≠ a_term g i → a_ack g' v U = a_ack g v U).

Lemma changed_acked v U P :
  v ≠ i ∨ U ≠ a_term g i → acked g' v U P → acked g v U P.
Proof using Hg Hext Ha. intros Hne. apply (acked_back n g g' v U P Hg Hext). by apply Ha. Qed.

(** Who voted in a later term has acknowledged nothing new. *)
Lemma voter_acked v U c U0 P :
  a_vote g v U = Some c → U0 < U → acked g' v U0 P → acked g v U0 P.
Proof using Hg Hext Ha.
  intros Hv HU. apply changed_acked. destruct (decide (v = i)) as [->|]; [|by left].
  right. destruct (pi_vote _ _ Hg i U c Hv). lia.
Qed.

Lemma hist_was_empty U : a_hist g' U = [] → a_hist g U = [].
Proof using Hext. intros HU. destruct (Hext U) as [Hp _]. rewrite HU in Hp. by apply prefix_nil_inv. Qed.

Lemma inv_logs :
  (∀ j, log_ok g' (a_log g' j) ∧ terms_le (a_log g' j) (a_term g j)) →
  (∀ U, a_hist g' U ≠ [] → 0 < U ∧ log_ok g' (a_hist g' U) ∧ terms_le (a_hist g' U) U) →
  (0 < a_ack g' i (a_term g i) →
     a_ack g' i (a_term g i) < length (a_hist g' (a_term g i)))%nat →
  (∀ U k e, a_hist g' U !! k = Some e → le_Term e = U → (k <= a_ack g' (a_lead g' U) U)%nat) →
  (∀ v U P, acked g' v U P → P `prefix_of` a_log g' v ∨ overridden g' U P (a_term g v + 1)) →
  (∀ U, a_hist g' U ≠ [] → a_hist g U ≠ [] ∧ a_lead g' U = a_lead g U ∨
     a_hist g U = [] ∧ ∃ Q, quorum n Q ∧ (∀ v, v ∈ Q → a_vote g v U = Some (a_lead g' U)) ∧
       a_cand g (a_lead g' U) U `prefix_of` a_hist g' U) →
  proto_inv n g'.
Proof using All.
  intros Hlog Hhist Hack Hown Hkept Hnew. split; rewrite ?Et, ?Ev, ?Ec; try done; try by apply Hg.
  - intros c U HU. destruct (pi_cand _ _ Hg c U HU) as (H1 & H2 & H3).
    split_and!; [done|by eapply log_ok_ext|done].
  - intros v U Hv. destruct (decide (v = i ∧ U = a_term g i)) as [[-> ->]|Hne].
    { split; [done|by apply Hack]. }
    assert (v ≠ i ∨ U ≠ a_term g i) as Hne' by (destruct (decide (v = i)); naive_solver).
    rewrite (Ha v U Hne') in Hv |- *.
    destruct (pi_ack _ _ Hg v U Hv) as [H1 H2]. split; [done|].
    destruct (Hext U) as [Hp%prefix_length _]. lia.
  - intros v U c U0 P Hv HU%hist_was_empty HlU HP.
    eapply voter_acked in HP; [|done|done].
    destruct (pi_voted _ _ Hg v U c U0 P Hv HU HlU HP) as [|Ho]; [by left|right].
    by eapply acked_overridden.
  - intros U HU. destruct (Hnew U HU) as [[HU' El]|(HU' & Q & HQ & HV & Hc)].
    + destruct (pi_elected _ _ Hg U HU') as (Q & HQ & HV & HP). exists Q. rewrite El.
      split_and!; [done|done|]. intros v U0 P Hq HlU Hak.
      eapply voter_acked in Hak; [|by apply HV|done].
      destruct (HP v U0 P Hq HlU Hak) as [Hp|Ho]; [left|right; by eapply acked_overridden].
      etransitivity; [done|]. by destruct (Hext U).
    + exists Q. split_and!; [done|done|]. intros v U0 P Hq HlU Hak.
      eapply voter_acked in Hak; [|by apply HV|done].
      destruct (pi_voted _ _ Hg v U _ U0 P (HV v Hq) HU' HlU Hak) as [Hp|Ho];
        [left; by etransitivity|right; by eapply acked_overridden].
Qed.
End Logs_change.

Lemma inv_leader n i g Q :
  proto_inv n g → a_hist g (a_term g i) = [] → a_cand g i (a_term g i) = a_log g i →
  quorum n Q → (∀ v, v ∈ Q → a_vote g v (a_term g i) = Some i) → proto_inv n (with_leader i g).
Proof.
  intros Hg Hnone Hcand HQ HV. set (T := a_term g i) in *.
  pose proof (log_nonempty n g i Hg) as Hln.
  destruct (pi_cand _ _ Hg i T) as (_ & Hok & Hle); [by rewrite Hcand|].
  rewrite Hcand in Hok, Hle.
  pose proof (leader_hist_ext i g Hnone) as Hext.
  apply (inv_logs n i g); try done.
  - intros j. destruct (pi_log _ _ Hg j). split; [by eapply log_ok_ext|done].
  - intros U. cbn [a_hist with_leader]. fold T.
    destruct (insert_cases T (a_log g i) (a_hist g) U) as [[-> ->]|[_ ->]].
    + intros _. split_and!; [|by eapply log_ok_ext|].
      * destruct Hok as [H0 _]. apply list_elem_of_lookup_2 in H0. specialize (Hle _ H0).
        simpl in Hle. lia.
      * intros e He. specialize (Hle e He). lia.
    + intros HU. destruct (pi_hist _ _ Hg U HU) as (H1 & H2 & H3).
      split_and!; [done|by eapply log_ok_ext|done].
  - cbn [a_ack with_leader]. intros Hv. destruct (pi_ack _ _ Hg i (a_term g i) Hv) as [_ H2].
    fold T in H2. rewrite Hnone in H2. simpl in H2. lia.
  - intros U k e. cbn [a_hist a_lead a_ack with_leader]. fold T.
    destruct (insert_cases T (a_log g i) (a_hist g) U) as [[-> ->]|[Hne ->]].
    + intros He%list_elem_of_lookup_2 Ht. specialize (Hle e He). lia.
    + rewrite fn_lookup_insert_ne by done. apply (pi_own _ _ Hg).
  - intros v U P HP%(acked_back n g); [|done|done|done].
    destruct (pi_kept _ _ Hg v U P HP) as [|Ho]; [by left|right].
    by eapply acked_overridden.
  - intros U. cbn [a_hist a_lead with_leader]. fold T.
    destruct (insert_cases T (a_log g i) (a_hist g) U) as [[-> ->]|[Hne ->]].
    + intros _. right. split; [done|]. exists Q. rewrite fn_lookup_insert, Hcand. by split_and!.
    + intros HU. left. by rewrite fn_lookup_insert_ne.
Qed.

(** The log of a leader with one more entry. *)
Lemma entry_log_ok n i g e :
  proto_inv n g → le_Term e = a_term g i → a_hist g (a_term g i) ≠ [] →
  a_log g i = a_hist g (a_term g i) →
  log_ok (with_entry i e g) (a_hist g (a_term g i) ++ [e]) ∧
  terms_le (a_hist g (a_term g i) ++ [e]) (a_term g i).
Proof.
  intros Hg He Hn Hlog. destruct (pi_hist _ _ Hg _ Hn) as (HT & Hok & Hle). split.
  - destruct (log_ok_ext _ _ _ (entry_hist_ext i e g He Hlog) Hok) as [H0 Hrest].
    split; [by apply lookup_app_l_Some|].
    intros k x Hk [Hx|[Hge Hx]]%lookup_app_Some.
    + rewrite take_app_le by (apply lookup_lt_Some in Hx; lia). by apply Hrest.
    + apply list_lookup_singleton_Some in Hx as [_ <-]. cbn [a_hist with_entry].
      by rewrite Hlog, He, fn_lookup_insert.
  - intros x [Hx|Hx]%elem_of_app; [by apply Hle|].
    apply list_elem_of_singleton in Hx as ->. lia.
Qed.

Lemma inv_entry n i g e :
  proto_inv n g → le_Term e = a_term g i → a_hist g (a_term g i) ≠ [] →
  a_lead g (a_term g i) = i → a_log g i = a_hist g (a_term g i) →
  proto_inv n (with_entry i e g).
Proof.
  intros Hg He Hn Hlead Hlog.
  destruct (entry_log_ok n i g e Hg He Hn Hlog) as [Hok' Hle'].
  pose proof (entry_hist_ext i e g He Hlog) as Hext. set (T := a_term g i) in *.
  destruct (pi_hist _ _ Hg T Hn) as (HT & _ & _).
  assert (∀ v U, v ≠ i ∨ U ≠ T → a_ack (with_entry i e g) v U = a_ack g v U) as Ha.
  { intros v U. apply put2_other. }
  apply (inv_logs n i g); try done.
  - intros j. cbn [a_log with_entry].
    destruct (insert_cases i (a_log g i ++ [e]) (a_log g) j) as [[-> ->]|[_ ->]].
    + rewrite Hlog. by split.
    + destruct (pi_log _ _ Hg j). split; [by eapply log_ok_ext|done].
  - intros U. cbn [a_hist with_entry]. fold T. rewrite Hlog.
    destruct (insert_cases T (a_hist g T ++ [e]) (a_hist g) U) as [[-> ->]|[_ ->]];
      [intros _; by split_and!|].
    intros HU. destruct (pi_hist _ _ Hg U HU) as (H1 & H2 & H3).
    split_and!; [done|by eapply log_ok_ext|done].
  - intros _. cbn [a_ack a_hist with_entry]. fold T.
    rewrite put2_here, fn_lookup_insert, length_app. simpl. lia.
  - intros U k x. cbn [a_ack a_lead a_hist with_entry]. fold T. rewrite Hlog.
    destruct (insert_cases T (a_hist g T ++ [e]) (a_hist g) U) as [[-> ->]|[Hne ->]].
    + intros Hx _. rewrite Hlead, put2_here. apply lookup_lt_Some in Hx.
      rewrite length_app in Hx. simpl in Hx. lia.
    + rewrite put2_other by auto. apply (pi_own _ _ Hg).
  - intros v U P HP. destruct (decide (v = i ∧ U = T)) as [[-> ->]|Hne].
    + left. apply acked_prefix in HP. cbn [a_log a_hist with_entry] in *. fold T in HP.
      by rewrite fn_lookup_insert in *.
    + eapply (changed_acked n i g) in HP; try done; [|destruct (decide (v = i)); naive_solver].
      destruct (pi_kept _ _ Hg v U P HP) as [Hp|Ho]; [left|right; by eapply acked_overridden].
      cbn [a_log with_entry].
      destruct (insert_cases i (a_log g i ++ [e]) (a_log g) v) as [[-> ->]|[_ ->]]; [|done].
      by apply prefix_app_r.
  - intros U HU. left. split; [|done]. intros HU'. apply HU. cbn [a_hist with_entry]. fold T.
    rewrite fn_lookup_insert_ne; [done|]. intros <-. done.
Qed.

(** ** Adopting a prefix *)

Lemma adopt_prefix n g L L' k :
  proto_inv n g → log_ok g L → log_ok g L' → (k < length L)%nat →
  take (S k) L `prefix_of` adopt L k L'.
Proof.
  intros Hg Hok Hok' [e He]%lookup_lt_is_Some_2. unfold adopt. case_decide as Hd; [|done].
  apply (has_prefix n g Hg _ _ _ _ Hok Hok' He). by rewrite <-Hd, He.
Qed.

Lemma adopt_cases n g L L' k :
  proto_inv n g → log_ok g L → log_ok g L' → (k < length L)%nat →
  adopt L k L' = L' ∧ take (S k) L `prefix_of` L' ∨
  adopt L k L' = take (S k) L ∧ ¬ take (S k) L `prefix_of` L'.
Proof.
  intros Hg Hok Hok' Hk. pose proof (adopt_prefix n g L L' k Hg Hok Hok' Hk) as Hp.
  apply lookup_lt_is_Some_2 in Hk as [e He]. unfold adopt in *. case_decide as Hd; [by left|right].
  split; [done|]. rewrite (has_prefix n g Hg _ _ _ _ Hok Hok' He). rewrite He in Hd.
  intros Hx. apply Hd. by rewrite Hx.
Qed.

(** What is in both logs survives. *)
Lemma adopt_keeps n g L L' k P :
  proto_inv n g → log_ok g L → log_ok g L' → (k < length L)%nat →
  P `prefix_of` L → P `prefix_of` L' → P `prefix_of` adopt L k L'.
Proof.
  intros Hg Hok Hok' Hk HP HP'.
  destruct (adopt_cases n g L L' k Hg Hok Hok' Hk) as [[-> _]|[-> Hno]]; [done|].
  destruct (prefix_weak_total _ _ L HP (prefix_take L (S k))) as [|Hp]; [done|].
  exfalso. apply Hno. by etransitivity.
Qed.

(** What the peer has acknowledged it still has, or a leader in between lacks. *)
Lemma adopted_kept n i g k U P :
  proto_inv n g → (k < length (a_hist g (a_term g i)))%nat → acked g i U P →
  P `prefix_of` adopt (a_hist g (a_term g i)) k (a_log g i) ∨ overridden g U P (a_term g i + 1).
Proof.
  intros Hg Hk HP. set (T := a_term g i) in *.
  assert (a_hist g T ≠ []) as Hn by (intros E; rewrite E in Hk; simpl in Hk; lia).
  destruct (pi_hist _ _ Hg T Hn) as (_ & Hok & _), (pi_log _ _ Hg i) as [Hli _].
  destruct (pi_kept _ _ Hg i U P HP) as [HPl|Ho]; [|by right].
  assert (U <= T ∧ (P `prefix_of` a_hist g T ∨ ¬ P `prefix_of` a_hist g T)) as [HUT HPh].
  { destruct HP as (j & x & Hj & Hx & _ & ->). split.
    - destruct (pi_ack _ _ Hg i U) as [? _]; [lia|done].
    - apply (has_prefix_dec n g Hg); [|done|by eapply lookup_lt_Some].
      apply (pi_hist _ _ Hg U). intros E. by rewrite E in Hx. }
  destruct HPh as [HPh|HPh]; [left; by eapply adopt_keeps|].
  right. exists T. split_and!; [|lia|done|done].
  destruct (decide (U = T)) as [->|]; [|lia]. by destruct HPh; eapply acked_prefix.
Qed.

(** What it acknowledges now, or acknowledged before. *)
Lemma adopted_acked n i g k U P :
  proto_inv n g → acked (with_adopted i k g) i U P →
  acked g i U P ∨ U = a_term g i ∧ P `prefix_of` take (S k) (a_hist g (a_term g i)).
Proof.
  intros Hg HP. set (T := a_term g i) in *.
  destruct HP as (k' & x & Hk' & Hx & Htx & ->). cbn [a_ack a_hist with_adopted] in *. fold T in Hk'.
  destruct (put2_cases i T (max (a_ack g i T) k) (a_ack g) i U) as [(_ & -> & E)|[_ E]];
    rewrite E in Hk'; [destruct (decide (k' <= k)%nat)|].
  - right. split; [done|]. apply prefix_take_iff. rewrite take_take, length_take.
    apply lookup_lt_Some in Hx. f_equal. lia.
  - left. exists k', x. split_and!; [lia|lia|done|done|done].
  - left. exists k', x. by split_and!; [lia|lia|..].
Qed.

Lemma inv_adopted n i g k :
  proto_inv n g → (k < length (a_hist g (a_term g i)))%nat → proto_inv n (with_adopted i k g).
Proof.
  intros Hg Hk. set (T := a_term g i) in *.
  assert (a_hist g T ≠ []) as Hn by (intros E; rewrite E in Hk; simpl in Hk; lia).
  destruct (pi_hist _ _ Hg T Hn) as (HT & Hok & Hle), (pi_log _ _ Hg i) as [Hli Hti].
  assert (hist_ext g (with_adopted i k g)) as Hext by (by apply hist_ext_same).
  assert (∀ L, log_ok g L → log_ok (with_adopted i k g) L) as Hoke by (intros L; by apply log_ok_ext).
  apply (inv_logs n i g); try done.
  - intros v U. apply put2_other.
  - intros j. cbn [a_log with_adopted]. fold T.
    destruct (insert_cases i (adopt (a_hist g T) k (a_log g i)) (a_log g) j) as [[-> ->]|[_ ->]].
    + unfold adopt. case_decide; [by split; [apply Hoke|]|].
      split; [apply Hoke; by eapply log_ok_take|by apply terms_le_take].
    + destruct (pi_log _ _ Hg j). by split; [apply Hoke|].
  - intros U HU. destruct (pi_hist _ _ Hg U HU) as (H1 & H2 & H3). split_and!; [done|by apply Hoke|done].
  - intros _. cbn [a_ack a_hist with_adopted]. fold T. rewrite put2_here.
    destruct (decide (0 < a_ack g i T)%nat) as [Ha|]; [|lia]. destruct (pi_ack _ _ Hg i T Ha). lia.
  - intros U j x Hx Htx. pose proof (pi_own _ _ Hg U j x Hx Htx) as Hown.
    cbn [a_ack a_lead with_adopted]. fold T.
    destruct (put2_cases i T (max (a_ack g i T) k) (a_ack g) (a_lead g U) U)
      as [(E1 & E2 & ->)|[_ ->]]; [|done]. rewrite E1, E2 in Hown. lia.
  - intros v U P HP. cbn [a_log with_adopted]. fold T.
    destruct (decide (v = i)) as [->|Hne].
    + rewrite fn_lookup_insert. apply (adopted_acked n) in HP as [HP|[-> HP]]; [| |done].
      * destruct (adopted_kept n i g k U P Hg Hk HP); auto.
      * left. etransitivity; [done|]. by apply (adopt_prefix n g).
    + rewrite fn_lookup_insert_ne by done. apply (pi_kept _ _ Hg).
      apply (acked_back n g _ v U P Hg Hext); [|done]. apply put2_other. by left.
  - intros U HU. by left.
Qed.

Lemma pstep_inv n i g g' : proto_inv n g → pstep n i g g' → proto_inv n g'.
Proof.
  intros Hg [T HT| |c H1 H2 H3|Q H1 H2 H3 H4|e H1 H2 H3 H4|k Hk].
  - by apply inv_bump.
  - by apply inv_stand.
  - by apply inv_grant.
  - by eapply inv_leader.
  - by apply inv_entry.
  - by apply inv_adopted.
Qed.

Lemma psteps_inv n i g g' : rtc (pstep n i) g g' → proto_inv n g → proto_inv n g'.
Proof. induction 1; [done|]. intros Hg. apply IHrtc. by eapply pstep_inv. Qed.

Lemma proto_init_inv n : 0 <= n → proto_inv n proto_init.
Proof.
  intros Hn. split; simpl; try done.
  - intros _. split.
    + split; [done|]. intros [|k] e Hk He; [lia|done].
    + intros e He%list_elem_of_singleton. by subst.
  - intros v T. lia.
  - intros v T P (k & e & Hk & _). simpl in Hk. lia.
Qed.
End Protocol.
Arguments Proto : clear implicits.
