(* ===== verification/RaftCommit.v ===== *)
(** * What is committed stays

    Consequences of the invariant of [RaftProtocol.v]: the leader of every later
    term has what is committed, two committed prefixes are never in conflict,
    and what one peer does leaves alone what the others rely on. *)
From S2P Require Import Prelude Persister Raft RaftProtocol.

Section Commit.
Context {Cmd : Type} (n : Z).
Implicit Types L P : list (LogEntry Cmd).
Implicit Types g : Proto Cmd.

(** [P] is covered by an entry of a term, up to [T], that a majority
    acknowledged in that term. *)
Definition committed g (T : Z) P : Prop :=
  P `prefix_of` [sentinel] ∨
  ∃ T0 k e Q, T0 <= T ∧ quorum n Q ∧ a_hist g T0 !! k = Some e ∧ le_Term e = T0 ∧
    (∀ v, v ∈ Q → (k <= a_ack g v T0)%nat) ∧ P `prefix_of` take (S k) (a_hist g T0).

Lemma committed_prefix g T P P' : committed g T P → P' `prefix_of` P → committed g T P'.
Proof.
  intros [HP|(T0 & k & e & Q & HT & HQ & Hk & He & Hack & HP)] Hp.
  - left. by etransitivity.
  - right. exists T0, k, e, Q. split_and!; try done. by etransitivity.
Qed.

Lemma committed_later g T T' P : T <= T' → committed g T P → committed g T' P.
Proof.
  intros HT [HP|(T0 & k & e & Q & HT0 & HQ & Hk & He & Hack & HP)]; [by left|right].
  exists T0, k, e, Q. split_and!; try done. lia.
Qed.

Lemma log_ok_sentinel g L : log_ok g L → [sentinel] `prefix_of` L.
Proof.
  intros [H0 _]. destruct L as [|x L]; [done|]. injection H0 as ->. by exists L.
Qed.

Lemma hist_ok g U : proto_inv n g → a_hist g U ≠ [] → log_ok g (a_hist g U).
Proof. intros Hg HU. by apply (pi_hist _ _ Hg U). Qed.

(** An acknowledged prefix reaches every later leader: by induction on the
    term, because the majority that elected it met the one that acknowledged. *)
Lemma acked_reaches g T k e Q :
  proto_inv n g → quorum n Q → a_hist g T !! k = Some e → le_Term e = T →
  (∀ v, v ∈ Q → (k <= a_ack g v T)%nat) →
  ∀ U, T < U → a_hist g U ≠ [] → take (S k) (a_hist g T) `prefix_of` a_hist g U.
Proof.
  intros Hg (HQ1 & HQ2 & HQ3) Hk He Hack U HTU.
  assert (a_hist g T ≠ []) as HTn by (intros E; by rewrite E in Hk).
  destruct (pi_hist _ _ Hg T HTn) as (HT0 & HokT & _).
  assert (0 < k)%nat as Hk0.
  { destruct k; [|lia]. destruct HokT as [H0 _]. rewrite H0 in Hk. injection Hk as <-.
    simpl in He. lia. }
  assert (k < length (a_hist g T))%nat as Hlen by (by eapply lookup_lt_Some).
  assert (0 <= U) as HU0 by lia. revert U HU0 HTU.
  refine (Zlt_0_ind _ _). intros U IH _ HTU HU.
  destruct (pi_elected _ _ Hg U HU) as (Q' & (HQ1' & HQ2' & HQ3') & HV & HP).
  destruct (majorities_meet n Q Q') as (v & Hv & Hv'); try done; [by apply (pi_peers _ _ Hg)|].
  destruct (HP v T (take (S k) (a_hist g T)) Hv' HTU) as [|(W & HW & HWn & Hno)]; [|done|].
  - exists k, e. specialize (Hack v Hv). by split_and!.
  - destruct Hno. apply IH; [lia|lia|done].
Qed.

(** Leader completeness. *)
Lemma leader_has_committed g T P U :
  proto_inv n g → committed g T P → T <= U → a_hist g U ≠ [] → P `prefix_of` a_hist g U.
Proof.
  intros Hg [HP|(T0 & k & e & Q & HT & HQ & Hk & He & Hack & HP)] HTU HU.
  - etransitivity; [done|]. by eapply log_ok_sentinel, hist_ok.
  - etransitivity; [done|]. destruct (decide (T0 = U)) as [->|]; [apply prefix_take|].
    eapply (acked_reaches g T0 k e Q); try done. lia.
Qed.

(** Two committed prefixes agree. *)
Lemma committed_agree g T T' P P' :
  proto_inv n g → committed g T P → committed g T' P' → P `prefix_of` P' ∨ P' `prefix_of` P.
Proof.
  intros Hg.
  assert (∀ T P P' T0 k e, committed g T P → T <= T0 → a_hist g T0 !! k = Some e →
    P' `prefix_of` take (S k) (a_hist g T0) → P `prefix_of` P' ∨ P' `prefix_of` P) as Hone.
  { clear T T' P P'. intros T P P' T0 k e HP HT Hk HP'.
    apply (prefix_weak_total _ _ (a_hist g T0)); [|by etransitivity; [|apply prefix_take]].
    eapply leader_has_committed; try done. intros E. by rewrite E in Hk. }
  intros HP HP'.
  destruct HP as [HP|(T0 & k & e & Q & HT & HQ & Hk & He & Hack & HPk)];
    destruct HP' as [HP'|(T0' & k' & e' & Q' & HT' & HQ' & Hk' & He' & Hack' & HPk')].
  - by apply (prefix_weak_total _ _ [sentinel]).
  - apply (Hone T0' P P' T0' k' e'); try done. by left.
  - apply or_comm, (Hone T0 P' P T0 k e); try done. by left.
  - destruct (decide (T0 <= T0')).
    + apply (Hone T0 P P' T0' k' e'); try done. right. by exists T0, k, e, Q.
    + apply or_comm, (Hone T0' P' P T0 k e); try done; [|lia]. right.
      by exists T0', k', e', Q'.
Qed.

Lemma committed_same_entry g T T' P P' k e e' :
  proto_inv n g → committed g T P → committed g T' P' → P !! k = Some e → P' !! k = Some e' →
  e = e'.
Proof.
  intros Hg HP HP' He He'. destruct (committed_agree g T T' P P' Hg HP HP') as [H|H].
  - pose proof (prefix_lookup_Some _ _ _ _ He H). congruence.
  - pose proof (prefix_lookup_Some _ _ _ _ He' H). congruence.
Qed.

(** What a peer has committed survives what it takes over from a leader. *)
Lemma adopt_committed g T P U L k :
  proto_inv n g → committed g T P → T <= U → (k < length (a_hist g U))%nat → log_ok g L →
  P `prefix_of` L → P `prefix_of` adopt (a_hist g U) k L.
Proof.
  intros Hg HP HT Hk HL HPL.
  assert (a_hist g U ≠ []) as HU by (intros E; rewrite E in Hk; simpl in Hk; lia).
  apply (adopt_keeps n g); try done; [by apply hist_ok|by eapply leader_has_committed].
Qed.

(** ** What a peer's actions leave alone *)

Record pext (i : Z) g g' : Prop := {
  px_term j : a_term g j <= a_term g' j;
  px_other j : j ≠ i →
    a_term g' j = a_term g j ∧ a_log g' j = a_log g j ∧
    (∀ T, a_vote g' j T = a_vote g j T) ∧ (∀ T, a_cand g' j T = a_cand g j T);
  px_vote v T c : a_vote g v T = Some c → a_vote g' v T = Some c;
  px_cand c T : a_cand g c T ≠ [] → a_cand g' c T = a_cand g c T;
  px_hist : hist_ext g g';
  px_lead T : a_hist g' T = a_hist g T ∧ a_lead g' T = a_lead g T ∨
    a_lead g' T = i ∧ (a_hist g T ≠ [] → a_lead g T = i);
  px_ack v T : (a_ack g v T <= a_ack g' v T)%nat;
}.

#[export] Instance hist_ext_refl : Reflexive (hist_ext (Cmd := Cmd)).
Proof. intros g. by apply hist_ext_same. Qed.

Lemma hist_ext_trans g1 g2 g3 : hist_ext g1 g2 → hist_ext g2 g3 → hist_ext g1 g3.
Proof.
  intros H12 H23 T. destruct (H12 T) as [P12 N12], (H23 T) as [P23 N23].
  split; [by etransitivity|]. intros Hn k e Hk He.
  destruct (decide (k < length (a_hist g2 T))%nat) as [Hlt|Hge].
  - apply (N12 Hn k); [done|]. apply lookup_lt_is_Some_2 in Hlt as [e' He'].
    pose proof (prefix_lookup_Some _ _ _ _ He' P23). congruence.
  - apply (N23 (hist_ext_nonempty _ _ _ H12 Hn) k); [lia|done].
Qed.

#[export] Instance pext_refl i : Reflexive (pext i).
Proof. intros g. split; try done; auto. Qed.

#[export] Instance pext_trans i : Transitive (pext i).
Proof.
  intros g1 g2 g3 [A1 A2 A3 A4 A5 A6 A7] [B1 B2 B3 B4 B5 B6 B7]. split.
  - intros j. specialize (A1 j). specialize (B1 j). lia.
  - intros j Hj. destruct (A2 j Hj) as (E1 & E2 & EV & EC), (B2 j Hj) as (F1 & F2 & FV & FC).
    split_and!; [congruence|congruence|intros T; by rewrite FV, EV|intros T; by rewrite FC, EC].
  - auto.
  - intros c T Hc. rewrite B4, A4; [done|done|]. by rewrite A4.
  - by eapply hist_ext_trans.
  - intros T. destruct (A6 T) as [[E1 E2]|[E1 E2]], (B6 T) as [[F1 F2]|[F1 F2]].
    + left. split; congruence.
    + right. split; [done|]. rewrite <-E1, <-E2. done.
    + right. split; [congruence|done].
    + by right.
  - intros v T. specialize (A7 v T). specialize (B7 v T). lia.
Qed.

Lemma pext_votes i g g' :
  (∀ j, a_term g j <= a_term g' j) → (∀ j, j ≠ i → a_term g' j = a_term g j) →
  a_log g' = a_log g → a_hist g' = a_hist g → a_lead g' = a_lead g → a_ack g' = a_ack g →
  (∀ j T, j ≠ i → a_vote g' j T = a_vote g j T) → (∀ j T, j ≠ i → a_cand g' j T = a_cand g j T) →
  (∀ v T c, a_vote g v T = Some c → a_vote g' v T = Some c) →
  (∀ c T, a_cand g c T ≠ [] → a_cand g' c T = a_cand g c T) →
  pext i g g'.
Proof.
  intros Ht Ht' El Eh Ed Ea Hv Hc Hv' Hc'. split; rewrite ?El, ?Eh, ?Ed, ?Ea; auto.
  by apply hist_ext_same.
Qed.

Lemma stand_ext i g : proto_inv n g → pext i g (with_stand i g).
Proof.
  intros Hg.
  pose proof (fresh_vote n g i (a_term g i + 1) Hg ltac:(lia)) as Hfv.
  pose proof (fresh_cand n g i (a_term g i + 1) Hg ltac:(lia)) as Hfc.
  apply pext_votes; try done; cbn [a_term a_vote a_cand with_stand].
  - intros v. destruct (insert_cases i (a_term g i + 1) (a_term g) v) as [[-> ->]|[_ ->]]; lia.
  - intros v Hv. by rewrite fn_lookup_insert_ne.
  - intros v T Hv. by rewrite put2_other by auto.
  - intros v T Hv. by rewrite put2_other by auto.
  - intros v T x Hv.
    destruct (put2_cases i (a_term g i + 1) (Some i) (a_vote g) v T) as [(-> & -> & _)|[_ ->]];
      [congruence|done].
  - intros v T Hv.
    destruct (put2_cases i (a_term g i + 1) (a_log g i) (a_cand g) v T) as [(-> & -> & _)|[_ ->]];
      [congruence|done].
Qed.

Lemma entry_ext i e g :
  proto_inv n g → le_Term e = a_term g i → a_lead g (a_term g i) = i →
  a_log g i = a_hist g (a_term g i) →
  pext i g (with_entry i e g).
Proof.
  intros Hg H1 H3 H4.
  pose proof (entry_hist_ext i e g H1 H4) as Hext.
  split; try done.
  - intros j Hj. cbn [a_log with_entry]. by rewrite fn_lookup_insert_ne.
  - intros T. cbn [a_hist a_lead with_entry].
    destruct (decide (T = a_term g i)) as [->|Hne]; [by right|left].
    by rewrite !fn_lookup_insert_ne.
  - intros v T. cbn [a_ack with_entry].
    destruct (put2_cases i (a_term g i) (length (a_log g i)) (a_ack g) v T)
      as [(-> & -> & ->)|[_ ->]]; [|done].
    destruct (decide (0 < a_ack g i (a_term g i))%nat) as [Ha|]; [|lia].
    destruct (pi_ack _ _ Hg i (a_term g i) Ha) as [_ Hlt]. rewrite H4. lia.
Qed.

Lemma pstep_ext i g g' : proto_inv n g → pstep n i g g' → pext i g g'.
Proof.
  intros Hg [T HT| |c H1 H2 H3|Q H1 H2 H3 H4|e H1 H2 H3 H4|k Hk].
  - apply pext_votes; try done; simpl.
    + intros v. destruct (insert_cases i T (a_term g) v) as [[-> ->]|[_ ->]]; lia.
    + intros v Hv. by rewrite fn_lookup_insert_ne.
  - by apply stand_ext.
  - apply pext_votes; try done; cbn [a_term a_vote a_cand with_vote].
    + intros v T Hv. by rewrite put2_other by auto.
    + intros v T x Hv.
      destruct (put2_cases i (a_term g i) (Some c) (a_vote g) v T) as [(-> & -> & _)|[_ ->]];
        [congruence|done].
  - split; try done.
    + by apply leader_hist_ext.
    + intros T. cbn [a_hist a_lead with_leader].
      destruct (decide (T = a_term g i)) as [->|Hne].
      * right. rewrite fn_lookup_insert. by rewrite H1.
      * left. by rewrite !fn_lookup_insert_ne.
  - by apply entry_ext.
  - split; try done.
    + intros j Hj. cbn [a_log with_adopted]. by rewrite fn_lookup_insert_ne.
    + by apply hist_ext_same.
    + intros T. by left.
    + intros v T. cbn [a_ack with_adopted].
      destruct (put2_cases i (a_term g i) (max (a_ack g i (a_term g i)) k) (a_ack g) v T)
        as [(-> & -> & ->)|[_ ->]]; lia.
Qed.

Lemma psteps_ext i g g' : rtc (pstep n i) g g' → proto_inv n g → pext i g g'.
Proof.
  induction 1 as [|g1 g2 g3 H12 H23 IH]; [done|]. intros Hg.
  etransitivity; [by apply pstep_ext|]. apply IH. by eapply pstep_inv.
Qed.

Lemma committed_ext i g g' T P : proto_inv n g → pext i g g' → committed g T P → committed g' T P.
Proof.
  intros Hg Hx [HP|(T0 & k & e & Q & HT & HQ & Hk & He & Hack & HP)]; [by left|right].
  destruct (px_hist _ _ _ Hx T0) as [Hp _].
  assert (k < length (a_hist g T0))%nat as Hlen by (by eapply lookup_lt_Some).
  exists T0, k, e, Q. split_and!; try done.
  - by eapply prefix_lookup_Some.
  - intros v Hv. specialize (Hack v Hv). pose proof (px_ack _ _ _ Hx v T0). lia.
  - by rewrite (take_S_prefix_eq _ _ _ Hp Hlen).
Qed.
End Commit.
