(* ===== verification/RaftRefine.v ===== *)
(** * What the peers' states mean for the protocol

    The relation between a peer of [Raft.v] and its part of a state of
    [RaftProtocol.v], the meaning of the messages, and how both survive changes.
    A peer holds the end of its log: entry 0 of [log] stands for everything up
    to [lastIncludedIndex]. *)
From S2P Require Import Prelude Persister Raft RaftNode RaftTheorems RaftSpec RaftNet.
From S2P Require Import RaftProtocol RaftCommit.

Section Relation.
Context {Cmd : Type} `{!Gob Cmd, !GobLaws Cmd} (n : Z).
Implicit Types rf : Raft Cmd.
Implicit Types L P : list (LogEntry Cmd).
Implicit Types g : Proto Cmd.

(** The entries up to index [k]. *)
Definition upto (k : Z) L : list (LogEntry Cmd) := take (S (Z.to_nat k)) L.

(** [L] is the whole log of which [rf] holds the end. *)
Record log_rel L rf : Prop := {
  lr_pos : 0 <= lastIncludedIndex rf;
  lr_term : le_Term <$> L !! Z.to_nat (lastIncludedIndex rf) = Some (lastIncludedTerm rf);
  lr_log : log rf =
    MkLogEntry (lastIncludedTerm rf) None :: drop (S (Z.to_nat (lastIncludedIndex rf))) L;
}.

Lemma log_rel_last L rf : log_rel L rf → lastLogIndex rf = len L - 1.
Proof.
  intros [H1 (e & He & _)%fmap_Some H3]. apply lookup_lt_Some in He.
  unfold lastLogIndex. rewrite H3, len_cons. unfold len. rewrite length_drop. lia.
Qed.

Lemma log_rel_entry L rf k :
  log_rel L rf → lastIncludedIndex rf < k →
  go_index (log rf) (k - lastIncludedIndex rf) = L !! Z.to_nat k.
Proof.
  intros [H1 H2 H3] Hk. unfold go_index. rewrite decide_True by lia. rewrite H3.
  replace (Z.to_nat (k - lastIncludedIndex rf))
    with (S (Z.to_nat (k - lastIncludedIndex rf - 1))) by lia.
  transitivity (drop (S (Z.to_nat (lastIncludedIndex rf))) L !!
    Z.to_nat (k - lastIncludedIndex rf - 1)); [done|]. rewrite lookup_drop. f_equal. lia.
Qed.

Lemma log_rel_termAt L rf k :
  log_rel L rf → lastIncludedIndex rf <= k → termAt rf k = le_Term <$> L !! Z.to_nat k.
Proof.
  intros Hr Hk. unfold termAt. destruct (decide (k = lastIncludedIndex rf)) as [->|].
  - destruct Hr as [H1 H2 H3]. unfold go_index. rewrite Z.sub_diag, decide_True by lia.
    rewrite H3, H2. done.
  - rewrite (log_rel_entry L) by (done || lia). done.
Qed.

Lemma log_rel_lastTerm L rf :
  log_rel L rf → lastLogTerm rf = Some (last_term L).
Proof.
  intros Hr. pose proof (log_rel_last L rf Hr) as Hl.
  assert (lastLogTerm rf = termAt rf (lastLogIndex rf)) as ->.
  { unfold lastLogTerm, termAt, lastLogIndex. do 2 f_equal. lia. }
  pose proof (lr_pos _ _ Hr). destruct (lr_term _ _ Hr) as [].
  assert (lastIncludedIndex rf <= lastLogIndex rf) as Hle.
  { unfold lastLogIndex. rewrite (lr_log _ _ Hr), len_cons.
    pose proof (len_nonneg (drop (S (Z.to_nat (lastIncludedIndex rf))) L)). lia. }
  rewrite (log_rel_termAt L) by done. unfold last_term. rewrite last_lookup.
  rewrite Hl. unfold len in *.
  replace (Z.to_nat (Z.of_nat (length L) - 1)) with (Init.Nat.pred (length L)) by lia.
  destruct (lookup_lt_is_Some_2 L (Init.Nat.pred (length L))) as [e ->]; [|done].
  lia.
Qed.

(** ** Messages *)

Definition vote_msg g (c : Z) (a : RequestVoteArgs) : Prop :=
  rv_CandidateId a = c ∧ 0 <= c ∧ a_cand g c (rv_Term a) ≠ [] ∧
  rv_LastLogIndex a = len (a_cand g c (rv_Term a)) - 1 ∧
  rv_LastLogTerm a = last_term (a_cand g c (rv_Term a)).

(** A stretch of the log of the leader of its term, and a committed index
    within it. *)
Definition append_msg g (a : AppendEntriesArgs Cmd) : Prop :=
  (∃ A B, a_hist g (ae_Term a) = A ++ ae_Entries a ++ B ∧ len A = ae_PrevLogIndex a + 1) ∧
  0 <= ae_PrevLogIndex a ∧
  le_Term <$> a_hist g (ae_Term a) !! Z.to_nat (ae_PrevLogIndex a) = Some (ae_PrevLogTerm a) ∧
  0 <= ae_LeaderCommit a <= ae_PrevLogIndex a + len (ae_Entries a) ∧
  committed n g (ae_Term a) (upto (ae_LeaderCommit a) (a_hist g (ae_Term a))).

(** A rejection in the present term names an index to go on from, or a term that
    is not the leader's at the previous entry but that of the follower's entry
    there, which is then in the log of that term. *)
Definition append_rep g (v : Z) (a : AppendEntriesArgs Cmd) (r : AppendEntriesReply) : Prop :=
  if aer_Success r then
    (Z.to_nat (ae_PrevLogIndex a + len (ae_Entries a)) <= a_ack g v (ae_Term a))%nat
  else
    aer_Term r <= ae_Term a →
    0 < ae_PrevLogIndex a ∧ aer_ConflictIndex r <= ae_PrevLogIndex a ∧
    (aer_ConflictTerm r = -1 → 0 < aer_ConflictIndex r) ∧
    (aer_ConflictTerm r ≠ -1 → aer_ConflictTerm r ≠ ae_PrevLogTerm a ∧
       le_Term <$> a_hist g (aer_ConflictTerm r) !! Z.to_nat (ae_PrevLogIndex a) =
         Some (aer_ConflictTerm r)).

Definition install_msg g (a : InstallSnapshotArgs) : Prop :=
  0 <= is_LastIncludedIndex a ∧
  le_Term <$> a_hist g (is_Term a) !! Z.to_nat (is_LastIncludedIndex a) =
    Some (is_LastIncludedTerm a) ∧
  committed n g (is_Term a) (upto (is_LastIncludedIndex a) (a_hist g (is_Term a))).

Definition install_rep g (v : Z) (a : InstallSnapshotArgs) (r : InstallSnapshotReply) : Prop :=
  isr_Term r <= is_Term a → (Z.to_nat (is_LastIncludedIndex a) <= a_ack g v (is_Term a))%nat.

Definition req_rel g (from : Z) (req : Request Cmd) : Prop :=
  match req with
  | ReqVote a => vote_msg g from a
  | ReqAppend a => append_msg g a
  | ReqInstall a => install_msg g a
  end.

Definition rep_rel g (to : Z) (req : Request Cmd) (rep : Reply) : Prop :=
  match req, rep with
  | ReqAppend a, RepAppend r => append_rep g to a r
  | ReqInstall a, RepInstall r => install_rep g to a r
  | _, _ => True
  end.

Definition call_rel g (c : Call Cmd) : Prop :=
  0 <= c_to c < n ∧ req_rel g (c_from c) (c_req c) ∧
  ∀ rep, c_rep c = Some rep → rep_rel g (c_to c) (c_req c) rep.

Definition go_rel g (i : Z) (x : Goroutine) : Prop :=
  match x with
  | GoBroadcast => True
  | GoReplicate peer => 0 <= peer < n
  | GoRequestVote peer a => 0 <= peer < n ∧ vote_msg g i a
  end.

(** ** Peers *)

(** A candidate still has the log it stood with, and has not led this term. *)
Definition cand_rel g i rf : Prop :=
  role rf = Candidate →
  a_cand g i (currentTerm rf) = a_log g i ∧
  (a_lead g (currentTerm rf) = i → a_hist g (currentTerm rf) = []).

(** A leader's log is the log of its term, and its [matchIndex] is covered by
    acknowledgements. *)
Definition lead_rel g i rf : Prop :=
  role rf = Leader →
  a_hist g (currentTerm rf) = a_log g i ∧ a_lead g (currentTerm rf) = i ∧
  ∀ j m, 0 <= j → j ≠ i → matchIndex rf !! Z.to_nat j = Some m →
    (Z.to_nat m <= a_ack g j (currentTerm rf))%nat.

(** A command on its way to the service is a committed one. *)
Definition sending_rel g i rf : Prop :=
  ∀ c k k', applier_pc rf = ApSend (CommandMsg c k) k' →
    0 < k <= commitIndex rf ∧ ∃ e, a_log g i !! Z.to_nat k = Some e ∧ le_Command e = c.

Record node_rel g i rf : Prop := {
  nr_wf : raft_wf rf;
  nr_persisted : persisted rf;
  nr_me : me rf = i;
  nr_peers : npeers rf = n;
  nr_term : a_term g i = currentTerm rf;
  nr_vote : a_vote g i (currentTerm rf) =
    if decide (votedFor rf = -1) then None else Some (votedFor rf);
  nr_log : log_rel (a_log g i) rf;
  nr_commit : committed n g (currentTerm rf) (upto (commitIndex rf) (a_log g i));
  nr_cand : cand_rel g i rf;
  nr_lead : lead_rel g i rf;
  nr_sending : sending_rel g i rf;
  nr_gos x : x ∈ started rf → go_rel g i x;
}.

Lemma node_last g i rf : node_rel g i rf → lastLogIndex rf = len (a_log g i) - 1.
Proof. intros H. apply log_rel_last, H. Qed.

Lemma node_commit_len g i rf :
  node_rel g i rf → 0 <= commitIndex rf < len (a_log g i) ∧
    length (upto (commitIndex rf) (a_log g i)) = S (Z.to_nat (commitIndex rf)) ∧
    lastIncludedIndex rf <= commitIndex rf.
Proof.
  intros H. pose proof (nr_wf _ _ _ H) as Hwf. pose proof (wf_applied _ Hwf) as Ha.
  pose proof (wf_lii _ Hwf) as Hl. rewrite (node_last _ _ _ H) in Ha.
  assert (lastIncludedIndex rf <= commitIndex rf) as Hlc.
  { unfold delivered in Hl. pose proof (wf_pc _ Hwf) as Hpc. unfold pc_index in Hpc.
    destruct (applier_pc rf); try lia. specialize (Hpc k eq_refl). lia. }
  split; [lia|]. split; [|done]. unfold upto. rewrite length_take. unfold len in Ha. lia.
Qed.

Lemma node_me_range g i rf : node_rel g i rf → 0 <= i < n.
Proof.
  intros H. pose proof (wf_me _ (nr_wf _ _ _ H)) as Hm.
  by rewrite (nr_me _ _ _ H), (nr_peers _ _ _ H) in Hm.
Qed.

(** ** What the other peers' actions leave of it *)

Section Ext.
Context (i : Z) (g g' : Proto Cmd) (Hg : proto_inv n g) (Hx : pext i g g').

Lemma hist_grows T : a_hist g T `prefix_of` a_hist g' T.
Proof using Hx. by destruct (px_hist _ _ _ Hx T). Qed.

Lemma hist_lookup T k e : a_hist g T !! k = Some e → a_hist g' T !! k = Some e.
Proof using Hx. intros He. by eapply prefix_lookup_Some, hist_grows. Qed.

Lemma hist_termAt T k t :
  le_Term <$> a_hist g T !! k = Some t → le_Term <$> a_hist g' T !! k = Some t.
Proof using Hx.
  intros (e & He & ->)%fmap_Some. by rewrite (hist_lookup _ _ _ He).
Qed.

Lemma hist_upto T k :
  0 <= k < len (a_hist g T) → upto k (a_hist g' T) = upto k (a_hist g T).
Proof using Hx.
  intros Hk. unfold upto. apply take_S_prefix_eq; [apply hist_grows|]. unfold len in Hk. lia.
Qed.

Lemma vote_msg_ext c a : vote_msg g c a → vote_msg g' c a.
Proof using Hx.
  intros (H1 & H2 & H3 & H4 & H5). unfold vote_msg. by rewrite (px_cand _ _ _ Hx).
Qed.

Lemma append_msg_ext a : append_msg g a → append_msg g' a.
Proof using Hg Hx.
  intros ((A & B & HH & HA) & H1 & H2 & H3 & H4).
  split; [|split; [done|split; [by apply hist_termAt|split; [done|]]]].
  - destruct (hist_grows (ae_Term a)) as [r Hr]. exists A, (B ++ r). split; [|done].
    rewrite Hr, HH. by rewrite <-!app_assoc.
  - rewrite hist_upto; [by eapply committed_ext|]. rewrite HH, !len_app.
    pose proof (len_nonneg B). lia.
Qed.

Lemma install_msg_ext a : install_msg g a → install_msg g' a.
Proof using Hg Hx.
  intros (H1 & H2 & H3). split; [done|]. split; [by apply hist_termAt|].
  rewrite hist_upto; [by eapply committed_ext|].
  apply fmap_Some in H2 as (e & He%lookup_lt_Some & _). unfold len. lia.
Qed.

Lemma rep_rel_ext v req rep : rep_rel g v req rep → rep_rel g' v req rep.
Proof using Hx.
  destruct req as [a|a|a], rep as [r|r|r]; try done; simpl.
  - unfold append_rep. destruct (aer_Success r).
    + pose proof (px_ack _ _ _ Hx v (ae_Term a)). lia.
    + intros H Ht. destruct (H Ht) as (H1 & H2 & H3 & H4). split_and!; [done..|].
      intros Hct. destruct (H4 Hct). split; [done|by apply hist_termAt].
  - intros H Ht. specialize (H Ht). pose proof (px_ack _ _ _ Hx v (is_Term a)). lia.
Qed.

Lemma req_rel_ext from req : req_rel g from req → req_rel g' from req.
Proof using Hg Hx.
  destruct req; [apply vote_msg_ext|apply append_msg_ext|apply install_msg_ext].
Qed.

Lemma call_rel_ext c : call_rel g c → call_rel g' c.
Proof using Hg Hx.
  intros (H1 & H2 & H3). split; [done|]. split; [by apply req_rel_ext|].
  intros rep Hrep. by apply rep_rel_ext, H3.
Qed.

Lemma go_rel_ext j x : go_rel g j x → go_rel g' j x.
Proof using Hx. destruct x; simpl; [done|done|]. intros [H1 H2]. split; [done|by apply vote_msg_ext]. Qed.

Lemma node_rel_other j rf : j ≠ i → node_rel g j rf → node_rel g' j rf.
Proof using Hg Hx.
  intros Hj H. destruct (px_other _ _ _ Hx j Hj) as (Et & El & Ev & Ec).
  assert (a_hist g (currentTerm rf) = [] ∨ a_lead g (currentTerm rf) = j →
    a_hist g (currentTerm rf) ≠ [] ∨ a_lead g' (currentTerm rf) = j →
    a_hist g' (currentTerm rf) = a_hist g (currentTerm rf) ∧
    a_lead g' (currentTerm rf) = a_lead g (currentTerm rf)) as Hled.
  { intros [H0|H0] H1; destruct (px_lead _ _ _ Hx (currentTerm rf)) as [[? ?]|[H2 H3]];
      try done; exfalso; destruct H1 as [H1|H1]; try congruence.
    - specialize (H3 H1). congruence. }
  destruct H as [H1 H2 H3 H4 H5 H6 H7 H8 H9 H10 H11 H12].
  split; try done; rewrite ?Et, ?El, ?Ev; try done.
  - by eapply committed_ext.
  - intros Hr. rewrite Ec, El. destruct (H9 Hr) as [Hc Hl]. split; [done|].
    intros Hl'. destruct (px_lead _ _ _ Hx (currentTerm rf)) as [[E1 E2]|[E1 _]]; [|congruence].
    rewrite E1. apply Hl. congruence.
  - intros Hr. rewrite El. destruct (H10 Hr) as (Hh & Hl & Hm).
    destruct Hled as [E1 E2]; [by right| |].
    { left. rewrite Hh. by eapply log_nonempty. }
    rewrite E1, E2. split_and!; [done|done|]. intros v m Hv Hne Hvm. specialize (Hm v m Hv Hne Hvm).
    pose proof (px_ack _ _ _ Hx v (currentTerm rf)). lia.
  - intros c k k' Hpc. rewrite El. by apply (H11 c k k').
  - intros x Hxs. by apply go_rel_ext, H12.
Qed.
End Ext.

(** ** Changes of the peer itself *)

(** From a related peer to one that changed together with the protocol. *)
Lemma node_change g g' i rf rf' :
  proto_inv n g → pext i g g' → node_rel g i rf →
  raft_wf rf' → persisted rf' → me rf' = me rf → npeers rf' = npeers rf →
  a_term g' i = currentTerm rf' →
  a_vote g' i (currentTerm rf') = (if decide (votedFor rf' = -1) then None else Some (votedFor rf')) →
  log_rel (a_log g' i) rf' →
  committed n g' (currentTerm rf') (upto (commitIndex rf') (a_log g' i)) →
  upto (commitIndex rf) (a_log g i) `prefix_of` a_log g' i →
  cand_rel g' i rf' → lead_rel g' i rf' →
  (∀ m k, applier_pc rf' = ApSend m k →
     applier_pc rf = ApSend m k ∧ commitIndex rf <= commitIndex rf') →
  (∀ x, x ∈ started rf' → x ∈ started rf ∨ go_rel g' i x) →
  node_rel g' i rf'.
Proof using All.
  intros Hg Hx H Hwf Hp E1 E2 Et Ev Hlog Hcom Hpre Hcand Hlead Hpc Hgos.
  split; try done; [by rewrite E1, (nr_me _ _ _ H)|by rewrite E2, (nr_peers _ _ _ H)| |].
  - intros c k k' Hs. destruct (Hpc _ _ Hs) as [Hs' Hle].
    destruct (nr_sending _ _ _ H c k k' Hs') as (Hk & e & He & Hc). split; [lia|].
    exists e. split; [|done]. eapply prefix_lookup_Some; [|exact Hpre].
    unfold upto. rewrite lookup_take_lt; [done|lia].
  - intros x Hs. destruct (Hgos x Hs) as [Hold|]; [|done].
    eapply go_rel_ext; [done|]. by apply (nr_gos _ _ _ H).
Qed.

(** A change that the protocol does not see. *)
Definition keeps g i rf rf' : Prop :=
  me rf' = me rf ∧ npeers rf' = npeers rf ∧ currentTerm rf' = currentTerm rf ∧
  votedFor rf' = votedFor rf ∧ log rf' = log rf ∧
  lastIncludedIndex rf' = lastIncludedIndex rf ∧ lastIncludedTerm rf' = lastIncludedTerm rf ∧
  commitIndex rf' = commitIndex rf ∧
  (role rf' = Follower ∨ role rf' = role rf ∧ matchIndex rf' = matchIndex rf) ∧
  (∀ m k, applier_pc rf' = ApSend m k → applier_pc rf = ApSend m k) ∧
  (∀ x, x ∈ started rf' → x ∈ started rf ∨ go_rel g i x).

#[export] Instance keeps_preorder g i : PreOrder (keeps g i).
Proof.
  split.
  - intros rf. unfold keeps. split_and!; try done; auto.
  - intros x y z (A1 & A2 & A3 & A4 & A5 & A6 & A7 & A8 & A9 & A10 & A11)
      (B1 & B2 & B3 & B4 & B5 & B6 & B7 & B8 & B9 & B10 & B11).
    unfold keeps. split_and!; try congruence; auto.
    + destruct B9 as [|[R1 R2]]; [by left|]. destruct A9 as [|[R3 R4]]; [left; congruence|].
      right. split; congruence.
    + intros w Hw. destruct (B11 w Hw); auto.
Qed.

Lemma log_rel_same L rf rf' :
  log rf' = log rf → lastIncludedIndex rf' = lastIncludedIndex rf →
  lastIncludedTerm rf' = lastIncludedTerm rf → log_rel L rf → log_rel L rf'.
Proof. intros E1 E2 E3 [H1 H2 H3]. split; by rewrite ?E1, ?E2, ?E3. Qed.

Lemma node_keeps g i rf rf' :
  proto_inv n g → node_rel g i rf → keeps g i rf rf' → raft_wf rf' → persisted rf' →
  node_rel g i rf'.
Proof using All.
  intros Hg H (E1 & E2 & E3 & E4 & E5 & E6 & E7 & E8 & Hr & Hpc & Hgo) Hwf Hp.
  apply (node_change g g i rf rf'); try done; rewrite ?E3, ?E4, ?E8; try apply H.
  - by eapply log_rel_same, H.
  - apply prefix_take.
  - intros Hc. destruct Hr as [|[Hr _]]; [congruence|]. rewrite E3. apply H. congruence.
  - intros Hc. destruct Hr as [|[Hr Hm]]; [congruence|]. rewrite E3, Hm. apply H. congruence.
  - intros m k Hs. split; [by apply Hpc|done].
Qed.
End Relation.
