(* ===== verification/RaftSim.v ===== *)
(** * The handlers follow the protocol

    Each RPC handler of [Raft.v], on a peer and a message that mean what
    [RaftRefine.v] says, amounts to actions of [RaftProtocol.v] by that peer,
    and its reply means what it should. *)
From S2P Require Import Prelude Persister Raft RaftNode RaftTheorems RaftSpec RaftNet.
From S2P Require Import RaftProtocol RaftCommit RaftRefine.

Section Handlers.
Context {Cmd : Type} `{!Gob Cmd, !GobLaws Cmd} (n : Z).
Implicit Types rf : Raft Cmd.
Implicit Types L P A B : list (LogEntry Cmd).
Implicit Types g : Proto Cmd.

(** Peer [i] moves from [rf] to [rf'] as the protocol allows, and then [Q]. *)
Definition follows g i rf' (Q : Proto Cmd → Prop) : Prop :=
  ∃ g', rtc (pstep n i) g g' ∧ node_rel n g' i rf' ∧ Q g'.

Lemma follows_same g i rf' (Q : Proto Cmd → Prop) : node_rel n g i rf' → Q g → follows g i rf' Q.
Proof. intros H HQ. by exists g. Qed.

Lemma follows_step g g' i rf' (Q : Proto Cmd → Prop) :
  pstep n i g g' → node_rel n g' i rf' → Q g' → follows g i rf' Q.
Proof. intros Hs H HQ. exists g'. split_and!; [by apply rtc_once|done|done]. Qed.

Lemma handle_result inp rf rf' :
  raft_wf rf → persisted rf → input_ok inp rf → handle inp rf = Some rf' →
  raft_wf rf' ∧ persisted rf'.
Proof using All.
  intros Hwf Hp Hok Hh. destruct (raft_no_panic_step inp rf Hwf Hp Hok) as (rf1 & Hh1 & H).
  rewrite Hh in Hh1. by injection Hh1 as <-.
Qed.

(** ** A new term *)

Lemma observe_new T rf :
  T > currentTerm rf →
  observe_term T rf = persist (set_votedFor (-1) (set_currentTerm T (set_role Follower rf))).
Proof.
  intros HT. unfold observe_term, becomeFollower. rewrite decide_True by done.
  by rewrite decide_True by done.
Qed.

Lemma node_bump g i rf T :
  proto_inv n g → node_rel n g i rf → T > currentTerm rf →
  node_rel n (with_term i T g) i
    (persist (set_votedFor (-1) (set_currentTerm T (set_role Follower rf)))).
Proof using All.
  intros Hg H HT. pose proof (nr_term _ _ _ _ H) as Et.
  assert (pstep n i g (with_term i T g)) as Hs by (apply p_bump; lia).
  apply (node_change n g _ i rf); try done.
  - by eapply pstep_ext.
  - rewrite <-observe_new by done. apply wf_observe, H.
  - apply persisted_persist.
  - simpl. by rewrite fn_lookup_insert.
  - simpl. apply (fresh_vote n); [done|lia].
  - by eapply log_rel_same, H.
  - simpl. eapply committed_later; [|apply (nr_commit _ _ _ _ H)]. lia.
  - apply prefix_take.
  - simpl. auto.
Qed.

Lemma observe_follows g i rf T :
  proto_inv n g → node_rel n g i rf →
  follows g i (observe_term T rf) (λ g', currentTerm (observe_term T rf) = Z.max T (currentTerm rf)).
Proof using All.
  intros Hg H. destruct (decide (T > currentTerm rf)) as [HT|HT].
  - rewrite observe_new by done. eapply follows_step.
    + apply (p_bump n i g T). rewrite (nr_term _ _ _ _ H). lia.
    + by apply node_bump.
    + simpl. lia.
  - unfold observe_term. rewrite decide_False by done. apply follows_same; [done|]. lia.
Qed.

(** ** RequestVote *)

Lemma upToDate_spec g i rf c args :
  node_rel n g i rf → vote_msg g c args →
  upToDate rf args = Some true → at_least_up_to_date (a_cand g c (rv_Term args)) (a_log g i).
Proof.
  intros H (_ & _ & _ & Hi & Ht). unfold upToDate.
  rewrite (log_rel_lastTerm (a_log g i)) by apply H. cbn [option_bind mbind].
  rewrite Ht, Hi, (node_last _ _ _ _ H). intros [= [Hd|[Hd Hl]]%bool_decide_eq_true]; [by left|right].
  split; [done|]. unfold len in Hl. lia.
Qed.

Lemma node_grant g i rf c args now :
  proto_inv n g → node_rel n g i rf → vote_msg g c args → currentTerm rf = rv_Term args →
  votedFor rf = -1 ∨ votedFor rf = rv_CandidateId args → upToDate rf args = Some true →
  raft_wf (persist (set_lastHeardAt now (set_votedFor (rv_CandidateId args) rf))) →
  follows g i (persist (set_lastHeardAt now (set_votedFor (rv_CandidateId args) rf))) (λ _, True).
Proof using All.
  intros Hg H Hm HT Hv Hup Hwf. pose proof (nr_term _ _ _ _ H) as Et.
  pose proof (nr_vote _ _ _ _ H) as Ev. destruct Hm as (Hc & Hpos & Hne & Hm).
  destruct Hv as [Hv|Hv].
  - rewrite decide_True in Ev by done.
    assert (pstep n i g (with_vote i c g)) as Hs.
    { rewrite <-Et in *. apply p_grant; [done|by rewrite HT|]. rewrite HT.
      by eapply upToDate_spec. }
    eapply follows_step; [done| |done].
    apply (node_change n g _ i rf); try done; simpl.
    + by eapply pstep_ext.
    + apply persisted_persist.
    + rewrite <-Et. rewrite put2_here, Hc. by rewrite decide_False by lia.
    + by eapply log_rel_same, H.
    + apply (nr_commit _ _ _ _ H).
    + apply prefix_take.
    + apply (nr_cand _ _ _ _ H).
    + apply (nr_lead _ _ _ _ H).
    + auto.
  - apply follows_same; [|done]. apply (node_keeps n g i rf); try done; [|apply persisted_persist].
    unfold keeps. split_and!; try done; auto.
Qed.

Lemma follows_trans g g1 i rf' (Q : Proto Cmd → Prop) :
  rtc (pstep n i) g g1 → follows g1 i rf' Q → follows g i rf' Q.
Proof. intros Hs (g2 & Hs2 & H). exists g2. split; [by etransitivity|done]. Qed.

Lemma follows_weaken g i rf' (Q Q' : Proto Cmd → Prop) :
  (∀ g', Q g' → Q' g') → follows g i rf' Q → follows g i rf' Q'.
Proof. intros HQ (g2 & Hs2 & H & Hq). exists g2. auto. Qed.

Lemma follows_RequestVote g i rf args now rf' r c :
  proto_inv n g → node_rel n g i rf → vote_msg g c args →
  RequestVote args now rf = Some (rf', r) → follows g i rf' (λ _, True).
Proof using All.
  intros Hg H Hm Hx.
  assert (raft_wf rf' ∧ persisted rf') as [Hwf Hp].
  { apply (handle_result (InRequestVote args now) rf); [apply H|apply H|done|]. simpl. by rewrite Hx. }
  unfold RequestVote in Hx. case_decide as Hold.
  { injection Hx as <- _. by apply follows_same. }
  destruct (observe_follows g i rf (rv_Term args) Hg H) as (g1 & Hs1 & H1 & Ht1).
  set (rf1 := observe_term (rv_Term args) rf) in *. clearbody rf1.
  pose proof (psteps_inv _ _ _ _ Hs1 Hg) as Hg1.
  eapply follows_trans; [done|].
  apply bind_Some in Hx as (ok & Hup & Hx). case_decide as Hv; injection Hx as <- _.
  - destruct Hv as [Hv ->]. apply (node_grant g1 i rf1 c); try done; [|lia].
    eapply vote_msg_ext; [by eapply psteps_ext|done].
  - by apply follows_same.
Qed.

(** ** AppendEntries *)

(** The merge is [adopt], on logs that match. *)
Lemma merge_adopt g T L A es B :
  proto_inv n g → log_ok g L → a_hist g T = A ++ es ++ B → A ≠ [] → A `prefix_of` L →
  A ++ merge_ref (drop (length A) L) es = adopt (a_hist g T) (length A + length es - 1) L.
Proof.
  intros Hg HL HH. assert (a_hist g T ≠ [] → log_ok g (a_hist g T)) as Hok0 by (by apply (hist_ok n)).
  revert A HH. induction es as [|e es IH]; intros A HH HA [r ->].
  - rewrite merge_ref_nil, drop_app_length. unfold adopt. rewrite decide_True; [done|].
    assert (0 < length A)%nat by (destruct A; [done|simpl; lia]). simpl.
    rewrite HH, !lookup_app_l by lia. done.
  - assert (log_ok g (a_hist g T)) as Hok.
    { apply Hok0. rewrite HH. by destruct A. }
    assert (take (S (length A + length (e :: es) - 1)) (a_hist g T) = A ++ e :: es) as Htake.
    { rewrite HH, app_assoc, take_app_length'; [done|]. rewrite length_app. simpl. lia. }
    assert (a_hist g T !! length A = Some e) as He.
    { rewrite HH, lookup_app_r, Nat.sub_diag by lia. done. }
    rewrite drop_app_length. destruct r as [|x r]; cbn [merge_ref].
    { unfold adopt. rewrite decide_False; [by rewrite Htake|].
      rewrite app_nil_r. simpl. rewrite (lookup_ge_None_2 A) by lia. rewrite HH. simpl.
      intros Hbad. apply fmap_None, lookup_ge_None in Hbad.
      rewrite !length_app in Hbad. simpl in Hbad. rewrite length_app in Hbad. lia. }
    assert ((A ++ x :: r) !! length A = Some x) as Hx.
    { rewrite lookup_app_r, Nat.sub_diag by lia. done. }
    case_decide as Hd.
    + pose proof (log_matching n g Hg _ _ _ _ _ HL Hok Hx He Hd) as Hm.
      assert (x = e) as ->.
      { rewrite (take_eq_lookup _ _ _ (length A) Hm) in Hx by lia. congruence. }
      specialize (IH (A ++ [e])). rewrite length_app in IH. simpl in IH.
      rewrite <-!app_assoc in IH. simpl in IH.
      specialize (IH HH ltac:(by destruct A)).
      assert (A ++ [e] `prefix_of` A ++ e :: r) as Hpre by (exists r; by rewrite <-app_assoc).
      specialize (IH Hpre). replace (length A + 1)%nat with (length (A ++ [e])) in IH
        by (rewrite length_app; simpl; lia).
      replace (A ++ e :: r) with ((A ++ [e]) ++ r) in IH at 1 by (by rewrite <-app_assoc).
      rewrite drop_app_length in IH. rewrite IH. simpl. f_equal. rewrite length_app. simpl. lia.
    + unfold adopt. rewrite decide_False; [by rewrite Htake|]. intros Hbad.
      destruct (a_hist g T !! (length A + length (e :: es) - 1)%nat) as [y|] eqn:Hy.
      * symmetry in Hbad. apply fmap_Some in Hbad as (z & Hz & Hyz).
        pose proof (log_matching n g Hg _ _ _ _ _ Hok HL Hy Hz Hyz) as Hm.
        apply Hd. rewrite (take_eq_lookup _ _ _ (length A) Hm) in He by (simpl; lia). congruence.
      * rewrite HH in Hy. apply lookup_ge_None in Hy. rewrite length_app in Hy. simpl in Hy.
        rewrite length_app in Hy. lia.
Qed.

(** Where the merge goes in the part of the log that the peer holds. *)
Lemma log_rel_merge L rf A M :
  log_rel L rf → A `prefix_of` L → (Z.to_nat (lastIncludedIndex rf) < length A)%nat →
  let p := (length A - Z.to_nat (lastIncludedIndex rf))%nat in
  drop p (log rf) = drop (length A) L ∧ log_rel (A ++ M) (set_log (take p (log rf) ++ M) rf).
Proof.
  intros [H1 H2 H3] [r ->] Hlii p. set (m := Z.to_nat (lastIncludedIndex rf)) in *.
  assert (p = S (p - 1)) as Hp by lia.
  assert (m + p = length A)%nat as Hmp by lia. split.
  - rewrite H3, Hp. cbn [drop]. rewrite drop_drop. f_equal. lia.
  - split; simpl; [done| |].
    + fold m. rewrite lookup_app_l in * by lia. done.
    + fold m. rewrite H3, Hp. cbn [take]. rewrite <-app_comm_cons. f_equal.
      rewrite !drop_app_le by lia.
      rewrite take_app_length'; [done|]. rewrite length_drop. lia.
Qed.

Lemma signal_eq rf :
  ∃ pc, signal rf = set_applier_pc pc rf ∧ ∀ m k, pc = ApSend m k → applier_pc rf = ApSend m k.
Proof.
  exists (match applier_pc rf with ApWait => ApTop | pc => pc end).
  unfold signal. destruct (applier_pc rf) eqn:E; (split; [|done]); try done;
    destruct rf; simpl in *; by rewrite E.
Qed.

Lemma follow_commit_eq c rf :
  ∃ N pc, follow_commit c rf = set_applier_pc pc (set_commitIndex N rf) ∧
    N = Z.max (commitIndex rf) (Z.min c (lastLogIndex rf)) ∧
    ∀ m k, pc = ApSend m k → applier_pc rf = ApSend m k.
Proof.
  assert (rf = set_applier_pc (applier_pc rf) (set_commitIndex (commitIndex rf) rf)) as Hid
    by (by destruct rf).
  unfold follow_commit. case_decide as H1; [case_decide as H2|].
  - match goal with |- context [signal ?x] => destruct (signal_eq x) as (pc & -> & Hpc) end.
    do 2 eexists. split; [done|]. split; [|done]. case_decide; lia.
  - do 2 eexists. split; [exact Hid|]. split; [|done]. case_decide; lia.
  - do 2 eexists. split; [exact Hid|]. split; [lia|done].
Qed.

(** The peer takes over the leader's log up to index [k] and learns how much of
    it is committed. *)
Lemma node_adopted g i rf rf' (k : nat) :
  proto_inv n g → node_rel n g i rf →
  let T := currentTerm rf in
  (k < length (a_hist g T))%nat → role rf' = Follower →
  me rf' = me rf → npeers rf' = npeers rf → currentTerm rf' = T → votedFor rf' = votedFor rf →
  log_rel (adopt (a_hist g T) k (a_log g i)) rf' →
  commitIndex rf <= commitIndex rf' →
  (commitIndex rf' = commitIndex rf ∨
   commitIndex rf' <= Z.of_nat k ∧ committed n g T (upto (commitIndex rf') (a_hist g T))) →
  (∀ m k, applier_pc rf' = ApSend m k → applier_pc rf = ApSend m k) →
  started rf' = started rf → raft_wf rf' → persisted rf' →
  pstep n i g (with_adopted i k g) ∧ node_rel n (with_adopted i k g) i rf' ∧
  (k <= a_ack (with_adopted i k g) i T)%nat.
Proof using All.
  intros Hg H T Hk Hrole E1 E2 E3 E4 Hlog Hle Hcom Hpc Hst Hwf Hp.
  pose proof (nr_term _ _ _ _ H) as Et. fold T in Et.
  assert (pstep n i g (with_adopted i k g)) as Hs by (apply p_adopt; by rewrite Et).
  pose proof (pstep_ext n i _ _ Hg Hs) as Hx.
  destruct (pi_log _ _ Hg i) as [HokL _].
  assert (log_ok g (a_hist g T)) as HokH.
  { apply (hist_ok n); [done|]. intros E. rewrite E in Hk. simpl in Hk. lia. }
  assert (a_log (with_adopted i k g) i = adopt (a_hist g T) k (a_log g i)) as El.
  { cbn [a_log with_adopted]. by rewrite fn_lookup_insert, Et. }
  assert (upto (commitIndex rf) (a_log g i) `prefix_of` adopt (a_hist g T) k (a_log g i)) as Hpre.
  { eapply adopt_committed; [done|apply (nr_commit _ _ _ _ H)|done|done|done|apply prefix_take]. }
  split; [done|]. split.
  2:{ cbn [a_ack with_adopted]. rewrite Et, put2_here. lia. }
  apply (node_change n g _ i rf); try done; rewrite ?El, ?E3, ?E4; try done.
  - apply (nr_vote _ _ _ _ H).
  - eapply committed_ext; [done|done|]. destruct Hcom as [->|[Hck Hcom]].
    + destruct (node_commit_len _ _ _ _ H) as (Hc & Hlen & _).
      apply prefix_take_iff in Hpre. rewrite Hlen in Hpre.
      unfold upto at 1. rewrite Hpre. apply (nr_commit _ _ _ _ H).
    + unfold upto in *.
      assert (take (S (Z.to_nat (commitIndex rf'))) (adopt (a_hist g T) k (a_log g i)) =
        take (S (Z.to_nat (commitIndex rf'))) (a_hist g T)) as ->; [|done].
      eapply take_eq_less; [|instantiate (1 := S k); lia].
      apply take_S_prefix; [done|]. by eapply (adopt_prefix n).
  - intros Hc. congruence.
  - intros Hc. congruence.
  - intros m k' Hs'. split; [by apply Hpc|done].
  - rewrite Hst. auto.
Qed.

Lemma as_follower_follows g i rf T now :
  proto_inv n g → node_rel n g i rf → currentTerm rf <= T →
  follows g i (as_follower T now rf) (λ _, True).
Proof using All.
  intros Hg H HT. destruct (observe_follows g i rf T Hg H) as (g1 & Hs1 & H1 & _).
  exists g1. split_and!; [done| |done]. apply (node_keeps n g1 i (observe_term T rf)); try done.
  - by eapply psteps_inv.
  - unfold keeps. split_and!; try done; auto.
  - apply wf_follower, H1.
  - apply (pers_same_persisted (observe_term T rf)); [done|apply H1].
Qed.

(** From the check of the previous entry on. *)
(** Where the term at [prev] is the leader's, so is everything up to it. *)
Lemma matched_prefix g i T prev A R x y :
  proto_inv n g → a_hist g T = A ++ R → len A = prev + 1 → 0 <= prev →
  a_log g i !! Z.to_nat prev = Some x → a_hist g T !! Z.to_nat prev = Some y →
  le_Term x = le_Term y → A `prefix_of` a_log g i.
Proof using All.
  intros Hg HH HA Hpos Hx Hy Hxy. destruct (pi_log _ _ Hg i) as [HokL _].
  assert (log_ok g (a_hist g T)) as HokH.
  { apply (hist_ok n); [done|]. intros E. by rewrite E in Hy. }
  pose proof (log_matching n g Hg _ _ _ _ _ HokL HokH Hx Hy Hxy) as Hm.
  rewrite HH, take_app_length' in Hm by (unfold len in HA; lia).
  rewrite <-Hm. apply prefix_take.
Qed.

Lemma ae_append_follows g i rf prev prevTerm es A B c xlen rf' r :
  proto_inv n g → node_rel n g i rf → role rf = Follower →
  let T := currentTerm rf in
  a_hist g T = A ++ es ++ B → len A = prev + 1 → lastIncludedIndex rf <= prev →
  le_Term <$> a_hist g T !! Z.to_nat prev = Some prevTerm →
  0 <= c <= prev + len es → committed n g T (upto c (a_hist g T)) →
  ae_append prev prevTerm es c xlen rf = Some (rf', r) → raft_wf rf' → persisted rf' →
  follows g i rf' (λ g', aer_Success r = true →
    (Z.to_nat (prev + len es) <= a_ack g' i T)%nat).
Proof using All.
  intros Hg H Hrole T HH HA Hlii Hprev Hc Hcom Hx Hwf Hp.
  pose proof (nr_log _ _ _ _ H) as Hlog. pose proof (lr_pos _ _ Hlog) as Hpos.
  unfold ae_append in Hx. case_decide as Hlast.
  { injection Hx as <- <-. apply follows_same; [done|by intros]. }
  apply bind_Some in Hx as (t & Ht & Hx). case_decide as Htp.
  { apply bind_Some in Hx as (x & _ & [= <- <-]). apply follows_same; [done|by intros]. }
  assert (t = prevTerm) as -> by (destruct (decide (t = prevTerm)); [done|tauto]). clear Htp.
  apply bind_Some in Hx as (rf1 & Hm & [= <- <-]).
  rewrite (log_rel_termAt (a_log g i)) in Ht by done.
  apply fmap_Some in Ht as (x & Hxl & ->), Hprev as (y & Hyh & Hxy).
  destruct (pi_log _ _ Hg i) as [HokL _].
  assert (log_ok g (a_hist g T)) as HokH.
  { apply (hist_ok n); [done|]. intros E. by rewrite E in Hyh. }
  assert (A `prefix_of` a_log g i) as HAL by (eapply matched_prefix; eauto; lia).
  assert (A ≠ []) as HAn by (intros ->; unfold len in HA; simpl in HA; lia).
  assert (Z.to_nat (lastIncludedIndex rf) < length A)%nat as Hla by (unfold len in HA; lia).
  pose proof (merge_adopt g T (a_log g i) A es B Hg HokL HH HAn HAL) as Hmerge.
  set (k := (length A + length es - 1)%nat) in *.
  assert (Z.of_nat k = prev + len es) as Hk by (unfold k, len in *; lia).
  assert (k < length (a_hist g T))%nat as Hkh.
  { rewrite HH, !length_app. lia. }
  destruct (log_rel_merge _ _ A (merge_ref (drop (length A) (a_log g i)) es) Hlog HAL Hla)
    as [Hdrop Hrel].
  rewrite merge_entries_ref in Hm by lia.
  replace (Z.to_nat (prev + 1 + 0 - lastIncludedIndex rf))
    with (length A - Z.to_nat (lastIncludedIndex rf))%nat in Hm by (unfold len in HA; lia).
  rewrite Hdrop in Hm. injection Hm as <-. rewrite Hmerge in Hrel.
  set (rf1 := set_log _ rf) in *.
  destruct (follow_commit_eq c (persist rf1)) as (N & pc & Heq & HN & Hpc).
  assert (lastLogIndex rf1 = len (adopt (a_hist g T) k (a_log g i)) - 1) as Hl1
    by (by apply log_rel_last).
  change (lastLogIndex (persist rf1)) with (lastLogIndex rf1) in HN. rewrite Hl1 in HN.
  change (commitIndex (persist rf1)) with (commitIndex rf) in HN.
  assert (Z.of_nat k < len (adopt (a_hist g T) k (a_log g i))) as Hkl.
  { pose proof (prefix_length _ _ (adopt_prefix n g _ _ k Hg HokH HokL Hkh)) as Hpl.
    rewrite length_take in Hpl. unfold len. lia. }
  rewrite Heq in *.
  destruct (node_adopted g i rf (set_applier_pc pc (set_commitIndex N (persist rf1))) k)
    as (Hs & Hn & Hack); try done.
  - by apply (log_rel_same _ rf1).
  - simpl. lia.
  - simpl. destruct (decide (c <= commitIndex rf)); [left; lia|right].
    assert (N = c) as -> by lia. split; [lia|done].
  - eapply follows_step; [done|done|]. intros _. fold T in Hack. lia.
Qed.

(** Up to its commit index a peer agrees with every leader of its term or a
    later one. *)
Lemma node_committed_hist g i rf T k :
  proto_inv n g → node_rel n g i rf → currentTerm rf <= T → a_hist g T ≠ [] →
  0 <= k <= commitIndex rf →
  ∃ e, a_log g i !! Z.to_nat k = Some e ∧ a_hist g T !! Z.to_nat k = Some e.
Proof.
  intros Hg H HT Hn Hk. destruct (node_commit_len _ _ _ _ H) as (Hc & Hlen & _).
  destruct (lookup_lt_is_Some_2 (a_log g i) (Z.to_nat k)) as [e He]; [unfold len in Hc; lia|].
  exists e. split; [done|].
  eapply prefix_lookup_Some;
    [|exact (leader_has_committed n g _ _ T Hg (nr_commit _ _ _ _ H) HT Hn)].
  unfold upto. rewrite lookup_take_lt; [done|lia].
Qed.

Lemma append_input_ok g i rf args now :
  proto_inv n g → node_rel n g i rf → append_msg n g args → currentTerm rf <= ae_Term args →
  input_ok (InAppendEntries args now) rf.
Proof.
  intros Hg H ((A & B & HH & HA) & Hprev & Ht & _) HT j e He Hj.
  assert (a_hist g (ae_Term args) ≠ []) as Hn.
  { intros E. by rewrite E in Ht. }
  set (k := ae_PrevLogIndex args + 1 + Z.of_nat j) in *.
  destruct (node_committed_hist g i rf _ k Hg H HT Hn) as (x & Hx & Hxh).
  { pose proof (lr_pos _ _ (nr_log _ _ _ _ H)). lia. }
  rewrite (log_rel_termAt (a_log g i)) by (apply H || lia). rewrite Hx.
  rewrite HH in Hxh. replace (Z.to_nat k) with (length A + j)%nat in Hxh
    by (unfold k, len in *; lia).
  rewrite lookup_app_r in Hxh by lia.
  replace (length A + j - length A)%nat with j in Hxh by lia.
  rewrite (lookup_app_l_Some _ _ _ _ He) in Hxh. by injection Hxh as <-.
Qed.

Lemma log_term_nonneg g L k e : proto_inv n g → log_ok g L → L !! k = Some e → 0 <= le_Term e.
Proof.
  intros Hg HL He. destruct (decide (k = 0%nat)) as [->|Hk].
  - destruct HL as [H0 _]. rewrite H0 in He. by injection He as <-.
  - pose proof (log_ok_pos n g Hg L k e HL). assert (0 < le_Term e); [|lia]. apply H; [lia|done].
Qed.

Lemma append_rejected_rep g i rf args now rf' r :
  proto_inv n g → node_rel n g i rf → append_msg n g args →
  AppendEntries args now rf = Some (rf', r) → aer_Success r = false → append_rep g i args r.
Proof.
  intros Hg H (_ & Hpp & Hpt & _) Hx Hs. unfold append_rep. rewrite Hs. intros Ht.
  pose proof (nr_wf _ _ _ _ H) as Hwf. pose proof (wf_last _ Hwf) as Hlast.
  destruct (pi_log _ _ Hg i) as [HL _].
  destruct (AppendEntries_rejected _ _ _ _ _ Hwf Hx Hs Ht) as (Hprev & Hmis & Hcase).
  assert (0 < ae_PrevLogIndex args) as Hpos.
  { destruct (decide (ae_PrevLogIndex args = 0)) as [E0|]; [exfalso|lia]. apply Hmis.
    rewrite (log_rel_termAt (a_log g i)) by (apply H || lia). rewrite <-Hpt, E0. change (Z.to_nat 0) with 0%nat.
    assert (log_ok g (a_hist g (ae_Term args))) as [-> _].
    { apply (hist_ok n); [done|]. intros E. by rewrite E in Hpt. }
    by destruct HL as [-> _]. }
  split; [done|]. destruct Hcase as [(Hl & -> & ->)|(Hl & Hct & Hr1 & Hr2 & _)]; [split_and!; lia|].
  specialize (Hr2 (ae_PrevLogIndex args) ltac:(lia)).
  rewrite (log_rel_termAt (a_log g i)) in Hr2 by (apply H || lia).
  apply fmap_Some in Hr2 as (e & He & Hte).
  split; [lia|]. split; [intros Hm1; pose proof (log_term_nonneg g _ _ _ Hg HL He); lia|].
  intros _. split; [done|]. rewrite Hte. destruct HL as [_ HL].
  specialize (HL (Z.to_nat (ae_PrevLogIndex args)) e ltac:(lia) He). apply (f_equal (.!! Z.to_nat (ae_PrevLogIndex args))) in HL.
  rewrite !lookup_take_lt, He in HL by lia. by rewrite <-HL.
Qed.

(** A request that ends before the peer's snapshot. *)
Lemma append_below_snapshot g i rf args rf' :
  proto_inv n g → node_rel n g i rf → role rf = Follower → append_msg n g args →
  currentTerm rf = ae_Term args →
  lastIncludedIndex rf - ae_PrevLogIndex args > len (ae_Entries args) →
  rf' = follow_commit (ae_LeaderCommit args) rf → raft_wf rf' → persisted rf' →
  follows g i rf' (λ g',
    (Z.to_nat (ae_PrevLogIndex args + len (ae_Entries args)) <= a_ack g' i (ae_Term args))%nat).
Proof using All.
  intros Hg H Hrole ((A & B & HH & HA) & Hprev & Ht & Hc & _) HT Hlii Hrf' Hwf Hp.
  destruct (follow_commit_eq (ae_LeaderCommit args) rf) as (N & pc & Heq & HN & Hpc).
  rewrite Hrf', Heq in *. clear Hrf' Heq rf'.
  destruct (node_commit_len _ _ _ _ H) as (Hcl & _ & Hlc).
  set (k := Z.to_nat (ae_PrevLogIndex args + len (ae_Entries args))).
  pose proof (len_nonneg (ae_Entries args)) as Hes.
  assert (a_hist g (ae_Term args) ≠ []) as Hn by (intros E; by rewrite E in Ht).
  destruct (node_committed_hist g i rf (ae_Term args)
    (ae_PrevLogIndex args + len (ae_Entries args)) Hg H) as (e & He & Heh); [lia|done|lia|].
  fold k in He, Heh. rewrite <-HT in *.
  destruct (node_adopted g i rf (set_applier_pc pc (set_commitIndex N rf)) k)
    as (Hs & Hnode & Hack); try done.
  - by eapply lookup_lt_Some.
  - unfold adopt. rewrite decide_True by (by rewrite He, Heh).
    by apply (log_rel_same _ rf), H.
  - simpl. lia.
  - left. simpl. lia.
  - by eapply follows_step.
Qed.

(** A rejection changes only the role and the term. *)
Lemma rejected_same args now rf rf' r :
  AppendEntries args now rf = Some (rf', r) → currentTerm rf <= ae_Term args →
  aer_Success r = false → rf' = as_follower (ae_Term args) now rf.
Proof.
  intros Hx HT Hs. unfold AppendEntries in Hx. rewrite decide_False in Hx by lia.
  fold (as_follower (ae_Term args) now rf) in Hx.
  set (rf2 := as_follower (ae_Term args) now rf) in *. clearbody rf2.
  assert (∀ p pt es c x, ae_append p pt es c x rf2 = Some (rf', r) → rf' = rf2) as Happ.
  { clear Hx. intros p pt es c x. unfold ae_append. case_decide; [by intros [= <- _]|].
    intros (t & _ & Ht)%bind_Some. case_decide.
    - by apply bind_Some in Ht as (? & _ & [= <- _]).
    - apply bind_Some in Ht as (? & _ & [= _ <-]). done. }
  case_decide; [|by eapply Happ]. case_decide; [injection Hx as _ <-; done|].
  apply bind_Some in Hx as (es & _ & Hx). by eapply Happ.
Qed.

(** The part after the snapshot of a request that begins before it. *)
Lemma append_across_snapshot g i rf args es xlen rf' r :
  proto_inv n g → node_rel n g i rf → role rf = Follower → append_msg n g args →
  currentTerm rf = ae_Term args → ae_PrevLogIndex args < lastIncludedIndex rf →
  go_from (ae_Entries args) (lastIncludedIndex rf - ae_PrevLogIndex args) = Some es →
  ae_append (lastIncludedIndex rf) (lastIncludedTerm rf) es (ae_LeaderCommit args) xlen rf =
    Some (rf', r) → raft_wf rf' → persisted rf' →
  follows g i rf' (λ g', aer_Success r = true →
    (Z.to_nat (ae_PrevLogIndex args + len (ae_Entries args)) <= a_ack g' i (ae_Term args))%nat).
Proof using All.
  intros Hg H Hrole ((A & B & HH & HA) & Hpp & Ht & Hc & Hcom) HT Hprev Hes Hx Hwf Hp.
  unfold go_from in Hes. case_decide as Hstart; [|done]. injection Hes as <-.
  set (m := Z.to_nat (lastIncludedIndex rf - ae_PrevLogIndex args)) in *.
  assert (len (drop m (ae_Entries args)) = len (ae_Entries args) - Z.of_nat m) as Hld
    by (unfold len; rewrite length_drop; unfold len in Hstart; lia).
  rewrite <-HT in *.
  eapply follows_weaken; [|apply (ae_append_follows g i rf _ _ _
    (A ++ take m (ae_Entries args)) B _ _ _ _ Hg H Hrole) in Hx; try done].
  - simpl. intros g' Hq Hsr. specialize (Hq Hsr). rewrite Hld in Hq.
    replace (ae_PrevLogIndex args + len (ae_Entries args))
      with (lastIncludedIndex rf + (len (ae_Entries args) - Z.of_nat m)) by lia. done.
  - rewrite <-app_assoc, (app_assoc (take m _)), take_drop. done.
  - rewrite len_app. unfold len at 2. rewrite length_take. unfold len in Hstart. lia.
  - destruct (node_committed_hist g i rf (currentTerm rf) (lastIncludedIndex rf) Hg H)
      as (e & He & Heh); [lia|by intros E; rewrite E in Ht| |].
    { pose proof (node_commit_len _ _ _ _ H) as (_ & _ & ?).
      pose proof (lr_pos _ _ (nr_log _ _ _ _ H)). lia. }
    rewrite Heh, <-(lr_term _ _ (nr_log _ _ _ _ H)), He. done.
  - rewrite Hld. lia.
Qed.

Lemma follows_AppendEntries g i rf args now rf' r :
  proto_inv n g → node_rel n g i rf → append_msg n g args →
  AppendEntries args now rf = Some (rf', r) → follows g i rf' (λ g', append_rep g' i args r).
Proof using All.
  intros Hg H Hm Hx. pose proof Hx as Hx0. unfold AppendEntries in Hx.
  case_decide as Hold.
  { injection Hx as <- <-. apply follows_same; [done|]. unfold append_rep. simpl. lia. }
  assert (raft_wf rf' ∧ persisted rf') as [Hwf Hp].
  { apply (handle_result (InAppendEntries args now) rf); [apply H|apply H| |simpl; by rewrite Hx0].
    apply (append_input_ok g i); try done. lia. }
  destruct (as_follower_follows g i rf (ae_Term args) now Hg H) as (g1 & Hs1 & H1 & _); [lia|].
  pose proof (psteps_inv _ _ _ _ Hs1 Hg) as Hg1.
  pose proof (append_msg_ext n i g g1 Hg (psteps_ext _ _ _ _ Hs1 Hg) _ Hm) as Hm1.
  destruct (aer_Success r) eqn:Hs.
  2:{ rewrite (rejected_same _ _ _ _ _ Hx0 ltac:(lia) Hs). exists g1. split_and!; [done|done|].
      apply (rep_rel_ext i g g1 (psteps_ext _ _ _ _ Hs1 Hg) i (ReqAppend args) (RepAppend r)).
      by eapply append_rejected_rep. }
  eapply follows_trans; [done|].
  apply (follows_weaken _ _ _ (λ g', aer_Success r = true →
    (Z.to_nat (ae_PrevLogIndex args + len (ae_Entries args)) <= a_ack g' i (ae_Term args))%nat)).
  { intros g' Hq. unfold append_rep. rewrite Hs. auto. }
  fold (as_follower (ae_Term args) now rf) in Hx.
  destruct (as_follower_fields (ae_Term args) now rf ltac:(lia))
    as (E1 & E2 & E3 & E4 & E5 & E6 & E7 & E8).
  set (rf2 := as_follower (ae_Term args) now rf) in *. clearbody rf2.
  case_decide as Hprev; [case_decide as Hstart|].
  - injection Hx as <- <-. eapply follows_weaken; [|by eapply append_below_snapshot].
    intros g' Hq _. exact Hq.
  - apply bind_Some in Hx as (es & Hes & Hx). by eapply append_across_snapshot.
  - destruct Hm1 as ((A & B & HH & HA) & Hpp & Ht & Hc & Hcom). rewrite <-E1 in *.
    eapply (ae_append_follows g1 i rf2) in Hx; try done. lia.
Qed.

(** ** InstallSnapshot *)

(** Cutting the log at [idx] keeps the whole log. *)
Lemma log_after_rel L rf idx t l rf' :
  log_rel L rf → lastIncludedIndex rf < idx → le_Term <$> L !! Z.to_nat idx = Some t →
  log_after rf idx t = Some l → log rf' = l → lastIncludedIndex rf' = idx →
  lastIncludedTerm rf' = t → log_rel L rf'.
Proof.
  intros [H1 H2 H3] Hidx Ht Hl E1 E2 E3. split; rewrite ?E1, ?E2, ?E3; [lia|done|].
  unfold log_after in Hl. apply bind_Some in Hl as (rest & Hr & [= <-]).
  unfold go_from in Hr. case_decide; [|done]. injection Hr as <-. f_equal. rewrite H3.
  replace (Z.to_nat (idx - lastIncludedIndex rf + 1))
    with (S (Z.to_nat idx - Z.to_nat (lastIncludedIndex rf))) by lia.
  cbn [drop]. rewrite drop_drop. f_equal. lia.
Qed.

(** The log of a peer after a snapshot of the leader was installed. *)
Lemma snapshot_log_rel g i rf args l rf' :
  proto_inv n g → node_rel n g i rf → install_msg n g args → currentTerm rf = is_Term args →
  lastIncludedIndex rf < is_LastIncludedIndex args → snapshot_log args rf = Some l →
  log rf' = l → lastIncludedIndex rf' = is_LastIncludedIndex args →
  lastIncludedTerm rf' = is_LastIncludedTerm args →
  log_rel (adopt (a_hist g (is_Term args)) (Z.to_nat (is_LastIncludedIndex args)) (a_log g i)) rf'.
Proof.
  intros Hg H (Hpos & Ht & _) HT Hidx Hl E1 E2 E3. pose proof (nr_log _ _ _ _ H) as Hlog.
  set (idx := is_LastIncludedIndex args) in *. unfold adopt. rewrite Ht.
  unfold snapshot_log in Hl. fold idx in Hl. case_decide as Hlast.
  - apply bind_Some in Hl as (t & Hti & Hl). rewrite (log_rel_termAt (a_log g i)) in Hti
      by (done || lia). rewrite Hti. case_decide as Heq.
    + subst t. rewrite decide_True by done.
      by eapply (log_after_rel _ rf idx (is_LastIncludedTerm args)).
    + rewrite decide_False by congruence. injection Hl as <-.
      split; rewrite ?E1, ?E2, ?E3; [done| |].
      * rewrite lookup_take_lt by lia. done.
      * by rewrite drop_ge by (rewrite length_take; lia).
  - rewrite (node_last _ _ _ _ H) in Hlast. rewrite (lookup_ge_None_2 (a_log g i))
      by (unfold len in Hlast; lia).
    rewrite decide_False by done. injection Hl as <-. split; rewrite ?E1, ?E2, ?E3; [done| |].
    + rewrite lookup_take_lt by lia. done.
    + by rewrite drop_ge by (rewrite length_take; lia).
Qed.

Lemma install_input_ok g i rf args now :
  proto_inv n g → node_rel n g i rf → install_msg n g args → currentTerm rf <= is_Term args →
  input_ok (InInstallSnapshot args now) rf.
Proof.
  intros Hg H (Hpos & Ht & _) HT Hj.
  assert (a_hist g (is_Term args) ≠ []) as Hn by (intros E; by rewrite E in Ht).
  destruct (node_committed_hist g i rf _ (is_LastIncludedIndex args) Hg H HT Hn)
    as (x & Hx & Hxh); [lia|].
  rewrite (log_rel_termAt (a_log g i)) by (apply H || lia). by rewrite Hx, <-Ht, Hxh.
Qed.

Lemma follows_InstallSnapshot g i rf args now rf' r :
  proto_inv n g → node_rel n g i rf → install_msg n g args →
  (currentTerm rf <= is_Term args → raft_wf rf' ∧ persisted rf') →
  InstallSnapshot args now rf = Some (rf', r) → follows g i rf' (λ g', install_rep g' i args r).
Proof using All.
  intros Hg H Hm Hwp Hx. unfold InstallSnapshot in Hx. case_decide as Hold.
  { injection Hx as <- <-. apply follows_same; [done|]. unfold install_rep. simpl. lia. }
  destruct Hwp as [Hwf Hp]; [lia|].
  destruct (as_follower_follows g i rf (is_Term args) now Hg H) as (g1 & Hs1 & H1 & _); [lia|].
  pose proof (psteps_inv _ _ _ _ Hs1 Hg) as Hg1.
  pose proof (install_msg_ext n i g g1 Hg (psteps_ext _ _ _ _ Hs1 Hg) _ Hm) as Hm1.
  eapply follows_trans; [done|].
  fold (as_follower (is_Term args) now rf) in Hx.
  destruct (as_follower_fields (is_Term args) now rf ltac:(lia))
    as (E1 & E2 & E3 & E4 & E5 & E6 & E7 & E8).
  set (rf2 := as_follower (is_Term args) now rf) in *. clearbody rf2.
  destruct Hm1 as (Hpos & Ht & Hcom). pose proof Ht as (e & He & Hte)%fmap_Some.
  assert (Z.to_nat (is_LastIncludedIndex args) < length (a_hist g1 (is_Term args)))%nat as Hk
    by (by eapply lookup_lt_Some).
  destruct (node_commit_len _ _ _ _ H1) as (Hcl & _ & Hlc).
  apply (follows_weaken _ _ _ (λ g', (Z.to_nat (is_LastIncludedIndex args) <=
    a_ack g' i (is_Term args))%nat)); [by intros g' Hq _|].
  case_decide as Hidx.
  - injection Hx as <- <-.
    destruct (node_committed_hist g1 i rf2 (is_Term args) (is_LastIncludedIndex args) Hg1 H1)
      as (x & Hxl & Hxh); [lia|by intros E; rewrite E in He|lia|]. rewrite <-E1 in *.
    destruct (node_adopted g1 i rf2 rf2 (Z.to_nat (is_LastIncludedIndex args)))
      as (Hs & Hn & Hack); try done; [|by left|by eapply follows_step].
    unfold adopt. rewrite decide_True by (by rewrite Hxl, Hxh). apply H1.
  - apply bind_Some in Hx as (l & Hl & Hx).
    rewrite raise_commit_max, raise_applied_max in Hx. injection Hx as <- <-.
    match type of Hwf with raft_wf (signal ?x) => destruct (signal_eq x) as (pc & Heq & Hpc) end.
    rewrite Heq in *.
    match type of Hwf with raft_wf ?x => set (rf3 := x) in * end.
    pose proof (snapshot_log_rel g1 i rf2 args l rf3 Hg1 H1 ltac:(by split_and!) E1 ltac:(lia) Hl
      eq_refl eq_refl eq_refl) as Hrel. rewrite <-E1 in *.
    destruct (node_adopted g1 i rf2 rf3 (Z.to_nat (is_LastIncludedIndex args)))
      as (Hs & Hn & Hack); try done; [| |by eapply follows_step].
    + unfold rf3. simpl. lia.
    + unfold rf3. simpl. destruct (decide (is_LastIncludedIndex args <= commitIndex rf2));
        [left; lia|right]. rewrite Z.max_r by lia. split; [lia|done].
Qed.

(** ** The service takes a snapshot *)

Lemma follows_Snapshot g i rf index snapshot rf' :
  proto_inv n g → node_rel n g i rf → input_ok (InSnapshot index snapshot) rf →
  Snapshot index snapshot rf = Some rf' → node_rel n g i rf'.
Proof using All.
  intros Hg H Hok Hx.
  destruct (handle_result (InSnapshot index snapshot) rf rf') as [Hwf Hp]; try done; try apply H.
  unfold Snapshot in Hx. case_decide; [by injection Hx as <-|]. case_decide; [by injection Hx as <-|].
  apply bind_Some in Hx as (t & Ht & Hx). case_decide; [done|].
  apply bind_Some in Hx as (l & Hl & [= <-]).
  rewrite (log_rel_termAt (a_log g i)) in Ht by (apply H || lia).
  apply (node_change n g g i rf); try done; try apply H.
  - eapply (log_after_rel _ rf index t); [apply H|lia|done..].
  - apply prefix_take.
  - auto.
Qed.
End Handlers.
