(* ===== verification/RaftSimLocal.v ===== *)
(** * The peers' own steps follow the protocol

    Timers, calls of the service, replies, the apply goroutine and crashes:
    what a peer does on its own is what [RaftProtocol.v] allows, and the
    requests it sends mean what [RaftRefine.v] says. *)
From S2P Require Import Prelude Persister Raft RaftNode RaftTheorems RaftSpec RaftNet.
From S2P Require Import RaftProtocol RaftCommit RaftRefine RaftSim.

Section Local.
Context {Cmd : Type} `{!Gob Cmd, !GobLaws Cmd} (n : Z).
Implicit Types rf : Raft Cmd.
Implicit Types L P A B : list (LogEntry Cmd).
Implicit Types g : Proto Cmd.

Lemma foldl_go_eq (f : Z → Goroutine) (l : list Z) rf :
  foldl (λ rf i, go rf (f i)) rf l = set_started (started rf ++ (f <$> l)) rf.
Proof.
  revert rf. induction l as [|i l IH]; intros rf; simpl.
  - rewrite app_nil_r. by destruct rf.
  - rewrite IH. unfold go. simpl. by rewrite <-app_assoc.
Qed.

Lemma others_range g i rf p : node_rel n g i rf → p ∈ others rf → 0 <= p < n.
Proof.
  intros H [_ Hp%elem_of_seqZ]%list_elem_of_filter. rewrite (nr_peers _ _ _ _ H) in Hp. lia.
Qed.

(** ** Start *)

Lemma log_rel_append L rf e rf' :
  log_rel L rf → log rf' = log rf ++ [e] → lastIncludedIndex rf' = lastIncludedIndex rf →
  lastIncludedTerm rf' = lastIncludedTerm rf → log_rel (L ++ [e]) rf'.
Proof.
  intros [H1 H2 H3] E1 E2 E3. pose proof H2 as (x & Hx%lookup_lt_Some & _)%fmap_Some.
  split; rewrite ?E1, ?E2, ?E3; [done| |].
  - rewrite lookup_app_l by done. done.
  - rewrite H3, drop_app_le by lia. done.
Qed.

Lemma node_hist_lead g i rf :
  proto_inv n g → node_rel n g i rf → role rf = Leader →
  a_hist g (currentTerm rf) = a_log g i ∧ a_hist g (currentTerm rf) ≠ [].
Proof.
  intros Hg H Hr. destruct (nr_lead _ _ _ _ H Hr) as (Hh & _). split; [done|].
  rewrite Hh. by eapply log_nonempty.
Qed.

Lemma follows_Start g i rf c rf' r :
  proto_inv n g → node_rel n g i rf → Start c rf = Some (rf', r) → follows n g i rf' (λ _, True).
Proof using All.
  intros Hg H Hx.
  assert (raft_wf rf' ∧ persisted rf') as [Hwf Hp].
  { apply (handle_result n (InStart c) rf); [apply H|apply H|done|]. simpl. by rewrite Hx. }
  unfold Start in Hx. case_decide as Hr.
  { injection Hx as <- _. by apply follows_same. }
  assert (role rf = Leader) as Hlead by (destruct (decide (role rf = Leader)); tauto). clear Hr.
  apply bind_Some in Hx as (m & Hm & (nx & _ & [= <- _])%bind_Some).
  set (e := MkLogEntry (currentTerm rf) (Some c)) in *.
  destruct (nr_lead _ _ _ _ H Hlead) as (Hh & Hl & Hmatch).
  destruct (node_hist_lead g i rf Hg H Hlead) as [_ Hne].
  pose proof (nr_term _ _ _ _ H) as Et.
  assert (pstep n i g (with_entry i e g)) as Hs by (apply p_append; rewrite Et; done).
  pose proof (pstep_ext n i _ _ Hg Hs) as Hx.
  eapply follows_step; [done| |done].
  assert (a_log (with_entry i e g) i = a_log g i ++ [e]) as El
    by (cbn [a_log with_entry]; by rewrite fn_lookup_insert).
  apply (node_change n g _ i rf); try done; rewrite ?El.
  - apply (nr_vote _ _ _ _ H).
  - apply (log_rel_append _ rf); [apply H|done..].
  - simpl. destruct (node_commit_len _ _ _ _ H) as (Hc & _).
    unfold upto. rewrite take_app_le by (unfold len in Hc; lia).
    eapply committed_ext; [done|done|apply H].
  - etransitivity; [apply prefix_take|by apply prefix_app_r].
  - intros Hr. simpl in Hr. congruence.
  - intros _. simpl. rewrite Et, !fn_lookup_insert.
    split_and!; [done|done|]. intros j x Hj Hji Hjm.
    assert (matchIndex rf !! Z.to_nat j = Some x) as Hold.
    { unfold go_set in Hm. case_decide as Hme; [|done]. injection Hm as <-.
      rewrite (nr_me _ _ _ _ H) in Hjm. simpl in Hjm, Hme.
      rewrite list_lookup_insert_ne in Hjm; [done|]. rewrite (nr_me _ _ _ _ H) in Hme. lia. }
    rewrite put2_other by auto. by apply Hmatch.
  - simpl. intros x [Hold|Hnew]%elem_of_app; [by left|right].
    apply list_elem_of_singleton in Hnew as ->. done.
Qed.

(** ** Standing for election *)

Lemma startElection_result now draw rf rf' :
  startElection now draw rf = Some rf' →
  ∃ args, me rf' = me rf ∧ npeers rf' = npeers rf ∧ currentTerm rf' = currentTerm rf + 1 ∧
    votedFor rf' = me rf ∧ log rf' = log rf ∧ lastIncludedIndex rf' = lastIncludedIndex rf ∧
    lastIncludedTerm rf' = lastIncludedTerm rf ∧ commitIndex rf' = commitIndex rf ∧
    role rf' = Candidate ∧ applier_pc rf' = applier_pc rf ∧
    started rf' = started rf ++ ((λ p, GoRequestVote p args) <$> others rf) ∧
    rv_Term args = currentTerm rf + 1 ∧ rv_CandidateId args = me rf ∧
    rv_LastLogIndex args = lastLogIndex rf ∧ lastLogTerm rf = Some (rv_LastLogTerm args).
Proof.
  unfold startElection. intros (t & Ht & [= <-])%bind_Some. rewrite foldl_go_eq.
  set (args := MkRVArgs _ _ _ _). exists args. by split_and!.
Qed.

Lemma follows_tick g i rf now draw rf' :
  proto_inv n g → node_rel n g i rf → tick now draw rf = Some rf' → follows n g i rf' (λ _, True).
Proof using All.
  intros Hg H Hx.
  assert (raft_wf rf' ∧ persisted rf') as [Hwf Hp].
  { by apply (handle_result n (InTick now draw) rf); [apply H|apply H| |]. }
  unfold tick in Hx. case_decide; [|injection Hx as <-; by apply follows_same].
  apply startElection_result in Hx as (args & E1 & E2 & E3 & E4 & E5 & E6 & E7 & E8 & E9 & E10 &
    E11 & A1 & A2 & A3 & A4).
  rewrite (log_rel_lastTerm (a_log g i)) in A4 by apply H. injection A4 as A4.
  pose proof (nr_term _ _ _ _ H) as Et. pose proof (nr_me _ _ _ _ H) as Em.
  pose proof (node_me_range n g i rf H) as Hi.
  assert (pstep n i g (with_stand i g)) as Hs by apply p_stand.
  pose proof (pstep_ext n i _ _ Hg Hs) as Hx.
  assert (a_cand (with_stand i g) i (currentTerm rf + 1) = a_log g i) as Ec.
  { cbn [a_cand with_stand]. by rewrite Et, put2_here. }
  assert (vote_msg (with_stand i g) i args) as Hmsg.
  { unfold vote_msg. rewrite A1, Ec, A2, A3, A4. rewrite (node_last n g i rf H).
    split_and!; [exact Em|lia|by eapply log_nonempty|done|done]. }
  eapply follows_step; [done| |done].
  apply (node_change n g _ i rf); try done; rewrite ?E3, ?E4, ?E8, ?E10, ?E11.
  - cbn [a_term with_stand]. by rewrite Et, fn_lookup_insert.
  - cbn [a_vote with_stand]. rewrite Et, put2_here, Em. by rewrite decide_False by lia.
  - eapply log_rel_same; [..|apply (nr_log _ _ _ _ H)]; done.
  - eapply committed_later; [|eapply committed_ext; [done|done|apply H]]. lia.
  - apply prefix_take.
  - intros _. rewrite E3, Ec. split; [done|].
    cbn [a_lead a_hist with_stand]. intros Hl.
    destruct (a_hist g (currentTerm rf + 1)) as [|x l] eqn:Hh; [done|exfalso].
    destruct (pi_elected _ _ Hg (currentTerm rf + 1)) as (Q & (HQ1 & HQ2 & HQ3) & HV & _);
      [by rewrite Hh|].
    destruct Q as [|v Q]; [pose proof (pi_peers _ _ Hg); unfold len in HQ3; simpl in HQ3; lia|].
    destruct (pi_vote _ _ Hg v (currentTerm rf + 1) i) as [_ Hc].
    { rewrite <-Hl. apply HV. by left. }
    destruct (pi_cand _ _ Hg i _ Hc) as [Hle _]. lia.
  - intros Hr. congruence.
  - intros m k Hpc. by split.
  - intros x [Hold|Hnew]%elem_of_app; [by left|right].
    apply list_elem_of_fmap in Hnew as (p & -> & Hp'). split; [by eapply others_range|done].
Qed.

(** ** Replication rounds *)

Lemma keeps_broadcast g i rf : node_rel n g i rf → keeps n g i rf (broadcastAppendEntries rf).
Proof.
  intros H. unfold broadcastAppendEntries. case_decide; [done|]. rewrite foldl_go_eq.
  unfold keeps. simpl. split_and!; try done; [by right|].
  intros x [Hx|Hx]%elem_of_app; [by left|right].
  apply list_elem_of_fmap in Hx as (p & -> & Hp). by eapply others_range.
Qed.

Lemma node_broadcast g i rf :
  proto_inv n g → node_rel n g i rf → node_rel n g i (broadcastAppendEntries rf).
Proof using All.
  intros Hg H. destruct (handle_result n InBroadcast rf (broadcastAppendEntries rf)) as [Hwf Hp];
    try done; try apply H.
  apply (node_keeps n g i rf); try done. by apply keeps_broadcast.
Qed.

(** What a leader sends. *)
Lemma replicate_req g i rf peer req :
  proto_inv n g → node_rel n g i rf → replicate_args peer rf = Some (Some req) →
  req_rel n g i req.
Proof.
  intros Hg H Hx. unfold replicate_args in Hx. case_decide as Hr; [done|].
  assert (role rf = Leader) as Hlead by (destruct (decide (role rf = Leader)); tauto). clear Hr.
  destruct (node_hist_lead g i rf Hg H Hlead) as [Hh Hne].
  pose proof (nr_log _ _ _ _ H) as Hlog. pose proof (lr_pos _ _ Hlog) as Hpos.
  destruct (node_commit_len _ _ _ _ H) as (Hc & _ & Hlc).
  apply bind_Some in Hx as (nx & Hnx & Hx). case_decide as Hlii.
  - injection Hx as <-. simpl. split; [done|]. simpl. rewrite Hh. split; [apply Hlog|].
    eapply committed_prefix; [apply (nr_commit _ _ _ _ H)|].
    unfold upto. apply prefix_take_iff. rewrite take_take, length_take. f_equal. unfold len in Hc. lia.
  - apply bind_Some in Hx as (t & Ht & Hx). case_decide as Hneg; [done|].
    apply bind_Some in Hx as (es & Hes & [= <-]).
    rewrite (log_rel_termAt (a_log g i)) in Ht by (done || lia).
    unfold go_from in Hes. case_decide as Hrange; [|done]. injection Hes as <-.
    assert (drop (Z.to_nat (nx - lastIncludedIndex rf)) (log rf) = drop (Z.to_nat nx) (a_log g i))
      as Hes.
    { rewrite (lr_log _ _ Hlog).
      replace (Z.to_nat (nx - lastIncludedIndex rf))
        with (S (Z.to_nat nx - S (Z.to_nat (lastIncludedIndex rf)))) by lia.
      cbn [drop]. rewrite drop_drop. f_equal. lia. }
    rewrite Hes. simpl. pose proof Ht as (e & He%lookup_lt_Some & _)%fmap_Some.
    unfold append_msg. cbn [ae_Term ae_PrevLogIndex ae_Entries ae_PrevLogTerm ae_LeaderCommit].
    rewrite Hh. split_and!; [|lia|done|lia| |apply H].
    + exists (take (Z.to_nat nx) (a_log g i)), []. rewrite app_nil_r, take_drop. split; [done|].
      unfold len. rewrite length_take. lia.
    + unfold len in *. rewrite length_drop. lia.
Qed.

(** ** Counting votes *)

Lemma becomeLeader_result rf rf' :
  becomeLeader rf = Some rf' →
  me rf' = me rf ∧ npeers rf' = npeers rf ∧ currentTerm rf' = currentTerm rf ∧
  votedFor rf' = votedFor rf ∧ log rf' = log rf ∧
  lastIncludedIndex rf' = lastIncludedIndex rf ∧ lastIncludedTerm rf' = lastIncludedTerm rf ∧
  commitIndex rf' = commitIndex rf ∧ role rf' = Leader ∧ applier_pc rf' = applier_pc rf ∧
  started rf' = started rf ++ [GoBroadcast] ∧
  (len (matchIndex rf) = npeers rf →
     ∀ j m, 0 <= j → j ≠ me rf → matchIndex rf' !! Z.to_nat j = Some m → m = 0).
Proof.
  unfold becomeLeader. intros (a & _ & (b & Hb & (d & Hd & [= <-])%bind_Some)%bind_Some)%bind_Some.
  split_and!; try done. simpl. intros Hlen j m Hj Hne Hm.
  rewrite set_all_replicate in Hb by done. injection Hb as <-.
  unfold go_set in Hd. case_decide as Hme; [|done]. injection Hd as <-. simpl in *.
  rewrite list_lookup_insert_ne in Hm by lia. by apply lookup_replicate in Hm as [-> _].
Qed.

Lemma node_elect g i rf rf' Q :
  proto_inv n g → node_rel n g i rf → role rf = Candidate → becomeLeader rf = Some rf' →
  raft_wf rf' → persisted rf' → quorum n Q →
  (∀ v, v ∈ Q → a_vote g v (currentTerm rf) = Some i) →
  follows n g i rf' (λ _, True).
Proof using All.
  intros Hg H Hr Hx Hwf Hp HQ HV.
  apply becomeLeader_result in Hx as (E1 & E2 & E3 & E4 & E5 & E6 & E7 & E8 & E9 & E10 & E11 & Em).
  specialize (Em ltac:(by apply wf_match, H)).
  destruct (nr_cand _ _ _ _ H Hr) as [Hc Hl]. pose proof (nr_term _ _ _ _ H) as Et.
  assert (a_hist g (currentTerm rf) = []) as Hh.
  { destruct (a_hist g (currentTerm rf)) as [|x l] eqn:Hh; [done|exfalso].
    destruct (pi_elected _ _ Hg (currentTerm rf)) as (Q' & HQ' & HV' & _); [by rewrite Hh|].
    destruct HQ as (HQ1 & HQ2 & HQ3), HQ' as (HQ1' & HQ2' & HQ3').
    destruct (majorities_meet n Q Q') as (v & Hv & Hv'); try done; [by apply (pi_peers _ _ Hg)|].
    specialize (HV v Hv). specialize (HV' v Hv'). rewrite HV in HV'. injection HV' as HV'.
    specialize (Hl (eq_sym HV')). congruence. }
  assert (pstep n i g (with_leader i g)) as Hs by (apply (p_elect _ _ _ Q); rewrite ?Et; done).
  pose proof (pstep_ext n i _ _ Hg Hs) as Hx.
  eapply follows_step; [done| |done].
  apply (node_change n g _ i rf); try done; rewrite ?E3, ?E4, ?E8, ?E10, ?E11; try apply H.
  - eapply log_rel_same; [..|apply (nr_log _ _ _ _ H)]; done.
  - eapply committed_ext; [done|done|apply H].
  - apply prefix_take.
  - intros ?. congruence.
  - intros _. rewrite E3. cbn [a_hist a_lead a_log a_ack with_leader]. rewrite Et, !fn_lookup_insert.
    split_and!; [done|done|]. intros j m Hj Hne Hm.
    rewrite (Em j m Hj) by (done || by rewrite (nr_me _ _ _ _ H)). lia.
  - intros m k Hpc. by split.
  - intros x [Hold|Hnew]%elem_of_app; [by left|right].
    by apply list_elem_of_singleton in Hnew as ->.
Qed.

Lemma node_becomeFollower g i rf T :
  proto_inv n g → node_rel n g i rf → T > currentTerm rf →
  follows n g i (becomeFollower T rf) (λ _, True).
Proof using All.
  intros Hg H HT. assert (becomeFollower T rf = observe_term T rf) as ->
    by (unfold observe_term; by rewrite decide_True).
  eapply follows_weaken; [|by apply observe_follows]. done.
Qed.

Lemma follows_vote_reply g i rf T r rf' :
  proto_inv n g → node_rel n g i rf → vote_reply T r rf = Some rf' →
  (role rf = Candidate → role rf' = Leader → ∃ Q, quorum n Q ∧
     ∀ v, v ∈ Q → a_vote g v (currentTerm rf) = Some i) →
  follows n g i rf' (λ _, True).
Proof using All.
  intros Hg H Hx HQ.
  assert (raft_wf rf' ∧ persisted rf') as [Hwf Hp].
  { by apply (handle_result n (InVoteReply T r) rf); [apply H|apply H| |]. }
  unfold vote_reply in Hx.
  destruct (decide (currentTerm rf ≠ T ∨ role rf ≠ Candidate)) as [|Hcur];
    [injection Hx as <-; by apply follows_same|].
  assert (role rf = Candidate) as Hr by (destruct (decide (role rf = Candidate)); tauto).
  case_decide; [injection Hx as <-; by apply node_becomeFollower|].
  destruct (rvr_VoteGranted r); [|injection Hx as <-; by apply follows_same].
  assert (node_rel n g i (set_votes (votes rf + 1) rf)) as H1.
  { apply (node_keeps n g i rf); try done.
    - unfold keeps. simpl. split_and!; try done; [by right|auto].
    - apply (wf_same_wf rf); [done|apply H].
    - apply (pers_same_persisted rf); [done|apply H]. }
  case_decide; [|injection Hx as <-; by apply follows_same].
  destruct (HQ Hr) as (Q & HQ1 & HQ2); [apply becomeLeader_result in Hx; tauto|].
  by apply (node_elect g i (set_votes (votes rf + 1) rf) rf' Q).
Qed.

(** ** Replies to a leader *)

Lemma raise_lookup (l l' : list Z) i v j m :
  raise l i v = Some l' → l' !! j = Some m → l !! j = Some m ∨ j = Z.to_nat i ∧ m = v.
Proof.
  unfold raise. intros (x & _ & H)%bind_Some Hj. case_decide; [|left; congruence].
  unfold go_set in H. case_decide as Hi; [|done]. injection H as <-.
  apply list_lookup_insert_Some in Hj as [(-> & -> & _)|[_ Hj]]; [by right|by left].
Qed.

Lemma raise_len (l l' : list Z) i v : raise l i v = Some l' → len l' = len l.
Proof.
  unfold raise. intros (x & _ & H)%bind_Some. case_decide; [|congruence].
  unfold go_set in H. case_decide; [|done]. injection H as <-. unfold len. by rewrite length_insert.
Qed.

Lemma install_reply_ok g i rf peer a r :
  proto_inv n g → node_rel n g i rf → 0 <= peer < n → install_msg n g a →
  input_ok (InInstallReply peer a r) rf.
Proof.
  intros Hg H Hpeer (Hpos & Ht & _). simpl. rewrite (nr_peers _ _ _ _ H).
  split; [done|]. intros HT Hl.
  destruct (node_hist_lead g i rf Hg H Hl) as [Hh _].
  rewrite (node_last _ _ _ _ H). rewrite <-HT, Hh in Ht.
  apply fmap_Some in Ht as (e & He%lookup_lt_Some & _). unfold len. lia.
Qed.

Lemma follows_install_reply g i rf peer a r rf' :
  proto_inv n g → node_rel n g i rf → 0 <= peer < n → install_msg n g a → install_rep g peer a r →
  install_reply peer a r rf = Some rf' → follows n g i rf' (λ _, True).
Proof using All.
  intros Hg H Hpeer Hm Hrep Hx.
  assert (raft_wf rf' ∧ persisted rf') as [Hwf Hp].
  { apply (handle_result n (InInstallReply peer a r) rf); [apply H|apply H| |done].
    by apply (install_reply_ok g i). }
  unfold install_reply in Hx.
  destruct (decide (currentTerm rf ≠ is_Term a ∨ role rf ≠ Leader)) as [|Hcur];
    [injection Hx as <-; by apply follows_same|].
  case_decide as Hterm; [injection Hx as <-; by apply node_becomeFollower|].
  assert (currentTerm rf = is_Term a ∧ role rf = Leader) as [HT Hl].
  { destruct (decide (role rf = Leader)); [split; [lia|done]|tauto]. }
  apply bind_Some in Hx as (nx & _ & (m & Hmt & [= <-])%bind_Some).
  apply follows_same; [|done].
  apply (node_change n g g i rf); try done; try apply H.
  - apply (log_rel_same _ rf); try done. apply H.
  - apply prefix_take.
  - intros _. simpl. destruct (nr_lead _ _ _ _ H Hl) as (Hh & Hld & Hmatch).
    split_and!; [done|done|]. intros j x Hj Hne Hjx.
    destruct (raise_lookup _ _ _ _ _ _ Hmt Hjx) as [Hold|[Hjp ->]]; [by apply Hmatch|].
    assert (j = peer) as -> by lia. rewrite HT. apply Hrep. lia.
  - auto.
Qed.

(** A majority stands behind what the leader commits. *)
Lemma committable_committed g i rf N :
  proto_inv n g → node_rel n g i rf → role rf = Leader → 0 <= N →
  lastIncludedIndex rf <= N → committable rf N →
  committed n g (currentTerm rf) (upto N (a_log g i)).
Proof.
  intros Hg H Hr HN Hlii [Ht Hacks].
  destruct (nr_lead _ _ _ _ H Hr) as (Hh & Hl & Hmatch).
  rewrite (log_rel_termAt (a_log g i)) in Ht by (apply H || done).
  apply fmap_Some in Ht as (e & He & Hte).
  pose proof (node_me_range n g i rf H) as Hi.
  right. exists (currentTerm rf), (Z.to_nat N), e.
  eexists (me rf :: filter (λ j, default (N - 1) (go_index (matchIndex rf) j) >= N) (others rf)).
  rewrite Hh. split_and!; [done| |done|done| |done].
  - rewrite (nr_peers _ _ _ _ H) in Hacks. unfold acks in Hacks. split_and!.
    + constructor.
      * intros [_ [Hne _]%list_elem_of_filter]%list_elem_of_filter. done.
      * unfold others. apply list.NoDup_filter, list.NoDup_filter, NoDup_seqZ.
    + intros v [->|Hv]%elem_of_cons; [by rewrite (nr_me _ _ _ _ H)|].
      apply list_elem_of_filter in Hv as [_ Hv]. by eapply others_range.
    + rewrite len_cons. lia.
  - intros v [->|Hv]%elem_of_cons.
    + rewrite (nr_me _ _ _ _ H), <-Hl.
      assert (a_hist g (currentTerm rf) !! Z.to_nat N = Some e) as Hhe by (by rewrite Hh).
      by apply (pi_own _ _ Hg _ _ _ Hhe).
    + apply list_elem_of_filter in Hv as [Hge Ho]. pose proof (others_range g i rf v H Ho) as Hv.
      apply list_elem_of_filter in Ho as [Hne _].
      destruct (go_index_some (matchIndex rf) v) as [m Hm].
      { rewrite (wf_match _ (nr_wf _ _ _ _ H)), (nr_peers _ _ _ _ H). lia. }
      rewrite Hm in Hge. simpl in Hge. apply go_index_lookup in Hm as [_ Hm].
      rewrite (nr_me _ _ _ _ H) in Hne.
      specialize (Hmatch v m ltac:(lia) Hne Hm). lia.
Qed.

Lemma node_advance g i rf rf' :
  proto_inv n g → node_rel n g i rf → role rf = Leader → advanceCommit rf = Some rf' →
  raft_wf rf' → persisted rf' → node_rel n g i rf'.
Proof using All.
  intros Hg H Hr Hx Hwf Hp. pose proof (nr_wf _ _ _ _ H) as Hwf0.
  pose proof (wf_last _ Hwf0) as Hlast. destruct (node_commit_len _ _ _ _ H) as (Hc & _ & Hlc).
  unfold advanceCommit in Hx.
  destruct (advance_from_spec rf (Z.to_nat (lastLogIndex rf - commitIndex rf)) (lastLogIndex rf)
    Hwf0) as [(N & Heq & HN & Hcom & _)|[Heq _]]; [lia|lia|..]; rewrite Heq in Hx; clear Heq;
    injection Hx as <-; [|done].
  destruct (signal_eq (set_commitIndex N rf)) as (pc & Heq & Hpc). rewrite Heq in *.
  apply (node_change n g g i rf); try done; try apply H.
  - apply (log_rel_same _ rf); try done. apply H.
  - simpl. apply committable_committed; try done; lia.
  - apply prefix_take.
  - simpl. intros m k Hs. apply Hpc in Hs. simpl in Hs. split; [done|lia].
  - auto.
Qed.

Lemma append_reply_ok g i rf peer a r :
  proto_inv n g → node_rel n g i rf → 0 <= peer < n → append_msg n g a → append_rep g peer a r →
  input_ok (InAppendReply peer a r) rf.
Proof.
  intros Hg H Hpeer ((A & B & HH & HA) & Hprev & Ht & _) Hrep. simpl.
  rewrite (nr_peers _ _ _ _ H). split; [done|]. intros HT Hl.
  destruct (node_hist_lead g i rf Hg H Hl) as [Hh _].
  rewrite (node_last _ _ _ _ H). rewrite <-HT in *. rewrite Hh in *.
  assert (len (a_log g i) = ae_PrevLogIndex a + 1 + len (ae_Entries a) + len B) as Hlen.
  { rewrite HH, !len_app. lia. }
  pose proof (len_nonneg B). pose proof (len_nonneg (ae_Entries a)).
  split; [done|]. split; [lia|]. intros Hs Hterm. unfold append_rep in Hrep. rewrite Hs in Hrep.
  destruct Hrep as (_ & Hci & Hct & _); [lia|]. split; [lia|done].
Qed.

Lemma follows_append_reply g i rf peer a r rf' :
  proto_inv n g → node_rel n g i rf → 0 <= peer < n → append_msg n g a → append_rep g peer a r →
  append_reply peer a r rf = Some rf' → follows n g i rf' (λ _, True).
Proof using All.
  intros Hg H Hpeer Hm Hrep Hx. pose proof (append_reply_ok g i rf peer a r Hg H Hpeer Hm Hrep) as Hok.
  assert (raft_wf rf' ∧ persisted rf') as [Hwf Hp].
  { by apply (handle_result n (InAppendReply peer a r) rf); [apply H|apply H| |]. }
  unfold append_reply in Hx.
  destruct (decide (currentTerm rf ≠ ae_Term a ∨ role rf ≠ Leader)) as [|Hcur];
    [injection Hx as <-; by apply follows_same|].
  case_decide as Hterm; [injection Hx as <-; by apply node_becomeFollower|].
  assert (currentTerm rf = ae_Term a ∧ role rf = Leader) as [HT Hl].
  { destruct (decide (role rf = Leader)); [split; [lia|done]|tauto]. }
  destruct (nr_lead _ _ _ _ H Hl) as (Hh & Hld & Hmatch).
  apply follows_same; [|done].
  unfold append_rep in Hrep. destruct (aer_Success r) eqn:Hs.
  - apply bind_Some in Hx as (m & Hm' & (nx & Hnx & Hx)%bind_Some).
    set (rf1 := set_nextIndex nx (set_matchIndex m rf)) in *.
    assert (raft_wf rf1) as Hwf1.
    { destruct Hok as [Hpr Hok]. destruct (Hok HT Hl) as (Hpv & Hlast & _).
      pose proof (len_nonneg (ae_Entries a)) as Hes. pose proof (nr_wf _ _ _ _ H) as Hw.
      apply wf_arrays; [done| | |].
      - etransitivity; [by eapply raise_len|]. by apply wf_next.
      - etransitivity; [by eapply raise_len|]. by apply wf_match.
      - intros j x _ Hj. destruct (raise_lookup _ _ _ _ _ _ Hnx Hj) as [Hold|[_ ->]]; [|lia].
        by apply (wf_leader _ Hw j). }
    assert (persisted rf1) as Hp1 by (apply (pers_same_persisted rf); [done|apply H]).
    apply (node_advance g i rf1); try done.
    apply (node_change n g g i rf); try done; try apply H.
    + apply (log_rel_same _ rf); try done. apply H.
    + apply prefix_take.
    + intros _. simpl. split_and!; [done|done|]. intros j x Hj Hne Hjx.
      destruct (raise_lookup _ _ _ _ _ _ Hm' Hjx) as [Hold|[Hjp ->]]; [by apply Hmatch|].
      assert (j = peer) as -> by lia. by rewrite HT.
    + auto.
  - apply bind_Some in Hx as (nx & _ & (nx' & _ & (nxs & _ & [= <-])%bind_Some)%bind_Some).
    apply (node_keeps n g i rf); try done. unfold keeps. simpl. split_and!; try done; [by right|].
    intros x [Hold|Hnew]%elem_of_app; [by left|right].
    by apply list_elem_of_singleton in Hnew as ->.
Qed.

(** ** The apply goroutine, Kill and crashes *)

(** Changes of what the apply goroutine works with. *)
Lemma node_apply g i rf rf' :
  proto_inv n g → node_rel n g i rf → raft_wf rf' → persisted rf' →
  me rf' = me rf → npeers rf' = npeers rf → currentTerm rf' = currentTerm rf →
  votedFor rf' = votedFor rf → log rf' = log rf →
  lastIncludedIndex rf' = lastIncludedIndex rf → lastIncludedTerm rf' = lastIncludedTerm rf →
  commitIndex rf' = commitIndex rf → role rf' = role rf → matchIndex rf' = matchIndex rf →
  started rf' = started rf → sending_rel g i rf' → node_rel n g i rf'.
Proof.
  intros Hg [H1 H2 H3 H4 H5 H6 H7 H8 H9 H10 H11 H12] Hwf Hp
    E1 E2 E3 E4 E5 E6 E7 E8 E9 E10 E11 Hs.
  split; try done; rewrite ?E1, ?E2, ?E3, ?E4, ?E8, ?E11; try done.
  - by apply (log_rel_same _ rf).
  - unfold cand_rel. by rewrite E9, E3.
  - unfold lead_rel. by rewrite E9, E3, E10.
Qed.

Lemma node_applier g i rf inp rf' :
  proto_inv n g → node_rel n g i rf →
  inp = InApplierTop ∨ inp = InApplierReceived ∨ inp = InApplierSent ∨ inp = InKill →
  handle inp rf = Some rf' → node_rel n g i rf'.
Proof using All.
  intros Hg H Hinp Hx.
  assert (raft_wf rf' ∧ persisted rf') as [Hwf Hp].
  { apply (handle_result n inp rf); [apply H|apply H| |done]. by destruct Hinp as [->|[->|[->| ->]]]. }
  destruct Hinp as [->|[->|[->| ->]]]; simpl in Hx.
  - destruct (applier_pc rf) eqn:Hpc; try by injection Hx as <-.
    unfold applier_top in Hx. destruct (dead rf).
    { injection Hx as <-. by apply (node_apply g i rf). }
    destruct (pendingSnapshot rf).
    { injection Hx as <-. by apply (node_apply g i rf). }
    case_decide as Hc; [|injection Hx as <-; by apply (node_apply g i rf)].
    case_decide as Hn.
    { injection Hx as <-. apply (node_apply g i rf); try done.
      intros c k k' Hs. simpl in Hs. congruence. }
    apply bind_Some in Hx as (e & He & [= <-]). apply (node_apply g i rf); try done.
    rewrite (log_rel_entry (a_log g i)) in He by (apply H || lia).
    pose proof (lr_pos _ _ (nr_log _ _ _ _ H)) as Hpos.
    intros c k k' Hs. simpl in Hs. injection Hs as <- <- <-. split; [simpl; lia|]. by exists e.
  - destruct (applier_pc rf) eqn:Hpc; try by injection Hx as <-.
    injection Hx as <-. by apply (node_apply g i rf).
  - destruct (applier_pc rf) eqn:Hpc; try by injection Hx as <-.
    injection Hx as <-. unfold applier_sent in *. case_decide; by apply (node_apply g i rf).
  - injection Hx as <-. unfold Kill in *. destruct (signal_eq (set_dead true rf)) as (pc & Heq & Hpc).
    rewrite Heq in *. apply (node_apply g i rf); try done.
    intros c k k' Hs. simpl in Hs. apply Hpc in Hs. by apply (nr_sending _ _ _ _ H c k k').
Qed.

Lemma node_restart g i rf now draw :
  proto_inv n g → node_rel n g i rf → node_rel n g i (restarted rf now draw).
Proof using All.
  intros Hg H. pose proof (nr_persisted _ _ _ _ H) as Hp.
  pose proof (restarted_fields rf now draw Hp) as Hf.
  pose proof (restarted_wf rf now draw (nr_wf _ _ _ _ H) Hp) as Hwf.
  assert (persisted (restarted rf now draw)) as Hp'.
  { eapply pers_same_persisted; [apply Hf|done]. }
  cbv zeta in Hf. generalize dependent (restarted rf now draw). intros rf' Hf Hwf Hp'.
  destruct Hf as ((_ & E1 & E2 & E3 & E4 & E5) & E6 & E7 & _ & E8 & _ & E9 & E10 & _ & _ & E11 & _).
  destruct (node_commit_len _ _ _ _ H) as (Hc & _ & Hlc).
  pose proof (lr_pos _ _ (nr_log _ _ _ _ H)) as Hpos.
  apply (node_change n g g i rf); try done; rewrite <-?E1, <-?E2, ?E8, ?E11; try apply H.
  - apply (log_rel_same _ rf); try done. apply H.
  - eapply committed_prefix; [apply H|]. unfold upto. apply prefix_take_iff.
    rewrite take_take, length_take. f_equal. unfold len in Hc. lia.
  - apply prefix_take.
  - intros Hr. congruence.
  - intros Hr. congruence.
  - intros m k Hs. congruence.
  - intros x Hx. by apply elem_of_nil in Hx.
Qed.

(** ** Every local input, and the goroutines a handler started *)

Lemma follows_local g i rf inp rf' :
  proto_inv n g → node_rel n g i rf → local_input inp = true → snapshot_contract inp rf = true →
  handle inp rf = Some rf' → follows n g i rf' (λ _, True).
Proof using All.
  intros Hg H Hloc Hok Hx. destruct inp; try done; simpl in Hx.
  - apply follows_same; [|done]. eapply follows_Snapshot; try done.
    simpl in *. by apply bool_decide_eq_true in Hok.
  - apply fmap_Some in Hx as ([rf1 r] & Hx & ->). by eapply follows_Start.
  - by eapply follows_tick.
  - apply follows_same; [|done]. unfold heartbeat in Hx.
    case_bool_decide; injection Hx as <-; [by apply node_broadcast|done].
  - apply follows_same; [|done]. apply (node_applier g i rf InApplierTop); auto.
  - apply follows_same; [|done]. apply (node_applier g i rf InApplierReceived); auto.
  - apply follows_same; [|done]. apply (node_applier g i rf InApplierSent); auto.
  - apply follows_same; [|done]. apply (node_applier g i rf InKill); auto.
Qed.

Lemma node_unstart g i rf l1 x l2 :
  proto_inv n g → node_rel n g i rf → started rf = l1 ++ x :: l2 →
  node_rel n g i (set_started (l1 ++ l2) rf).
Proof.
  intros Hg H Hs. apply (node_keeps n g i rf); try done.
  - unfold keeps. simpl. split_and!; try done; [by right|].
    intros y Hy. left. rewrite Hs. set_solver.
  - apply (wf_same_wf rf); [done|apply H].
  - apply (pers_same_persisted rf); [done|apply H].
Qed.

Lemma goroutine_rel g i rf l1 x l2 rf' out :
  proto_inv n g → node_rel n g i rf → started rf = l1 ++ x :: l2 →
  run_goroutine x (set_started (l1 ++ l2) rf) = Some (rf', out) →
  node_rel n g i rf' ∧
  ∀ peer req, out = Some (peer, req) → 0 <= peer < n ∧ req_rel n g i req.
Proof using All.
  intros Hg H Hs Hx. pose proof (node_unstart g i rf l1 x l2 Hg H Hs) as H1.
  assert (go_rel n g i x) as Hgo by (apply (nr_gos _ _ _ _ H); rewrite Hs; set_solver).
  destruct x as [|peer|peer a]; simpl in Hx.
  - injection Hx as <- <-. split; [by apply node_broadcast|done].
  - destruct (replicate_args peer _) as [[req|]|] eqn:Hr; [| |done]; injection Hx as <- <-;
      (split; [done|]); [|done].
    intros p q [= <- <-]. split; [done|]. by eapply replicate_req.
  - injection Hx as <- <-. split; [done|]. intros p q [= <- <-]. destruct Hgo. by split.
Qed.
End Local.
