(* ===== verification/RaftSafety.v ===== *)
(** * The cluster is safe

    The cluster of [RaftNet.v] follows the protocol of [RaftProtocol.v], so what
    is committed anywhere is committed for good: no two peers ever hand
    different commands for one index to their services, a later leader has
    every committed entry, logs that agree on one term agree before it, and no
    handler of any peer indexes out of range.  From that follows that a leader
    backing up on a rejection gets nearer to where the logs agree
    ([backup_progress]).  The services keep the contract of [Snapshot]
    ([snapshot_contract]). *)
From S2P Require Import Prelude Persister Raft RaftNode RaftTheorems RaftSpec RaftNet RaftElection RaftApply.
From S2P Require Import RaftProtocol RaftCommit RaftRefine RaftSim RaftSimLocal GobString.

Section Safety.
Context {Cmd : Type} `{!Gob Cmd, !GobLaws Cmd} (n : Z).
Implicit Types rf : Raft Cmd.
Implicit Types s : Cluster Cmd.
Implicit Types g : Proto Cmd.

Abbreviation cstep := (step snapshot_contract).

(** A state of the protocol that explains a state of the cluster. *)
Record cluster_rel g s : Prop := {
  cr_inv : proto_inv n g;
  cr_votes : ∃ V, election_inv n V s ∧ ∀ v T c, V v T = Some c → a_vote g v T = Some c;
  cr_node i rf : nodes s !! i = Some rf → node_rel n g i rf;
  cr_call c : c ∈ calls s → call_rel n g c;
}.

(** One peer and the calls changed, as the protocol allows. *)
Lemma cluster_update g g' s s' i rf rf' :
  cluster_rel g s → cstep s s' → rtc (pstep n i) g g' →
  nodes s !! i = Some rf → nodes s' = <[i := rf']> (nodes s) → node_rel n g' i rf' →
  (∀ c, c ∈ calls s' → call_rel n g' c) → cluster_rel g' s'.
Proof using All.
  intros [Hg (V & HV & HVg) Hn Hc] Hstep Hs Hi Hs' Hn' Hc'.
  pose proof (psteps_inv _ _ _ _ Hs Hg) as Hg'. pose proof (psteps_ext _ _ _ _ Hs Hg) as Hx.
  assert (∀ j rfj, nodes s' !! j = Some rfj → node_rel n g' j rfj) as Hnodes.
  { intros j rfj. rewrite Hs', lookup_insert_Some. intros [[<- <-]|[Hne Hj]]; [done|].
    apply (node_rel_other n i g g' Hg Hx j rfj); [done|by apply Hn]. }
  split; [done| |done|done].
  destruct (election_step_votes n snapshot_contract V s s' HV Hstep) as (V' & HV' & _ & Hgrow).
  exists V'. split; [done|]. intros v T c Hv.
  destruct (Hgrow v T c Hv) as [Hold|(rfv & Hrfv & -> & -> & Hpos)].
  - by apply (px_vote _ _ _ Hx), HVg.
  - rewrite (nr_vote _ _ _ _ (Hnodes _ _ Hrfv)). by rewrite decide_False by lia.
Qed.

Lemma call_kept g g' s i c :
  cluster_rel g s → rtc (pstep n i) g g' → c ∈ calls s → call_rel n g' c.
Proof.
  intros H Hs Hc. eapply call_rel_ext; [apply (cr_inv _ _ H)| |by apply (cr_call _ _ H)].
  eapply psteps_ext; [done|apply (cr_inv _ _ H)].
Qed.

(** A peer that becomes leader has the votes of a majority. *)
Lemma elected_quorum g s s' i rf rf' :
  cluster_rel g s → cstep s s' → nodes s !! i = Some rf → nodes s' = <[i := rf']> (nodes s) →
  role rf' = Leader → currentTerm rf' = currentTerm rf → votedFor rf' = votedFor rf →
  ∃ Q, quorum n Q ∧ ∀ v, v ∈ Q → a_vote g v (currentTerm rf) = Some i.
Proof using All.
  intros [Hg (V & HV & HVg) Hn Hc] Hstep Hi Hs' Hr Ht Hvf.
  destruct (election_step_votes n snapshot_contract V s s' HV Hstep) as (V' & HV' & _ & Hgrow).
  assert (nodes s' !! i = Some rf') as Hi' by (by rewrite Hs', lookup_insert_eq).
  destruct (ei_node _ _ _ HV' i rf' Hi') as (_ & _ & _ & _ & _ & Hlead & _).
  destruct (Hlead Hr) as (Q & HQ1 & HQ2 & HQ3). exists Q. split; [split_and!; try done|].
  - intros v Hv. destruct (ei_hist _ _ _ HV' _ _ _ (HQ3 v Hv)) as (_ & rfv & Hrfv & _).
    by destruct (ei_node _ _ _ HV' v rfv Hrfv).
  - intros v Hv. specialize (HQ3 v Hv). rewrite Ht in HQ3.
    destruct (Hgrow _ _ _ HQ3) as [Hold|(rfv & Hrfv & Htv & Hcv & Hpos)]; [by apply HVg|].
    rewrite Hs', lookup_insert_Some in Hrfv. destruct Hrfv as [[<- <-]|[Hne Hrfv]].
    + rewrite (nr_vote _ _ _ _ (Hn i rf Hi)), <-Hvf, <-Hcv. by rewrite decide_False by lia.
    + rewrite Htv, (nr_vote _ _ _ _ (Hn v rfv Hrfv)), <-Hcv. by rewrite decide_False by lia.
Qed.

Lemma vote_reply_leader T r rf rf' :
  vote_reply T r rf = Some rf' → role rf = Candidate → role rf' = Leader →
  currentTerm rf' = currentTerm rf ∧ votedFor rf' = votedFor rf.
Proof.
  unfold vote_reply. intros Hx Hr Hl. case_decide; [injection Hx as <-; congruence|].
  case_decide.
  { injection Hx as <-. unfold becomeFollower in Hl. by case_decide. }
  destruct (rvr_VoteGranted r); [|injection Hx as <-; congruence].
  case_decide; [|injection Hx as <-; simpl in Hl; congruence].
  apply becomeLeader_result in Hx. simpl in Hx. tauto.
Qed.

(** ** Every step *)

Definition simulated g s' : Prop :=
  ∃ i g', rtc (pstep n i) g g' ∧ cluster_rel g' s'.

Lemma sim_local g s i rf inp rf' :
  cluster_rel g s → cstep s (set_node s i rf') → nodes s !! i = Some rf →
  local_input inp = true → snapshot_contract inp rf = true → handle inp rf = Some rf' →
  simulated g (set_node s i rf').
Proof using All.
  intros H Hstep Hi Hloc Hok Hh.
  destruct (follows_local n g i rf inp rf' (cr_inv _ _ H) (cr_node _ _ H i rf Hi) Hloc Hok Hh)
    as (g' & Hs & Hn & _).
  exists i, g'. split; [done|]. eapply cluster_update; try done.
  intros c Hc. by eapply call_kept.
Qed.

Lemma sim_go g s i rf x l1 l2 rf' out :
  let s' := MkCluster (<[i := rf']> (nodes s))
    (calls s ++ match out with Some (peer, req) => [MkCall i peer req None true] | None => [] end) in
  cluster_rel g s → cstep s s' → nodes s !! i = Some rf → started rf = l1 ++ x :: l2 →
  run_goroutine x (set_started (l1 ++ l2) rf) = Some (rf', out) → simulated g s'.
Proof using All.
  intros s' H Hstep Hi Hst Hrun.
  destruct (goroutine_rel n g i rf l1 x l2 rf' out (cr_inv _ _ H) (cr_node _ _ H i rf Hi) Hst Hrun)
    as [Hn Hout].
  exists i, g. split; [done|]. eapply cluster_update; try done.
  intros c [Hc|Hc]%elem_of_app; [by apply (cr_call _ _ H)|].
  destruct out as [[peer req]|]; [|by apply elem_of_nil in Hc].
  apply list_elem_of_singleton in Hc as ->. destruct (Hout peer req eq_refl).
  split; [done|]. split; [done|done].
Qed.

Lemma serve_follows g i rf from req now rf' rep :
  proto_inv n g → node_rel n g i rf → req_rel n g from req → serve req now rf = Some (rf', rep) →
  follows n g i rf' (λ g', rep_rel g' i req rep).
Proof using All.
  intros Hg H Hreq Hx. destruct req as [a|a|a]; simpl in Hreq, Hx;
    apply bind_Some in Hx as ([rf1 r] & Hx & [= <- <-]).
  - eapply follows_weaken; [|by eapply follows_RequestVote]. done.
  - by eapply follows_AppendEntries.
  - apply (follows_InstallSnapshot n g i rf (decode_install a) now rf1 r); try done.
    intros Ht. apply (handle_result n (InInstallSnapshot (decode_install a) now) rf);
      [apply H|apply H| |simpl; by rewrite Hx].
    by apply (install_input_ok n g i).
Qed.

Lemma sim_serve g s c l1 l2 rf now rf' rep :
  let s' := MkCluster (<[c_to c := rf']> (nodes s))
    (l1 ++ MkCall (c_from c) (c_to c) (c_req c) (Some rep) (c_live c) :: l2) in
  cluster_rel g s → cstep s s' → calls s = l1 ++ c :: l2 → nodes s !! c_to c = Some rf →
  serve (c_req c) now rf = Some (rf', rep) → simulated g s'.
Proof using All.
  intros s' H Hstep Hcs Hi Hserve.
  assert (c ∈ calls s) as Hc by (rewrite Hcs; set_solver).
  destruct (cr_call _ _ H c Hc) as (Hto & Hreq & _).
  destruct (serve_follows g (c_to c) rf (c_from c) (c_req c) now rf' rep (cr_inv _ _ H)
    (cr_node _ _ H _ rf Hi) Hreq Hserve) as (g' & Hs & Hn & Hrep).
  exists (c_to c), g'. split; [done|]. eapply cluster_update; try done.
  intros c' Hc'. assert (c' ∈ calls s ∨
    c' = MkCall (c_from c) (c_to c) (c_req c) (Some rep) (c_live c)) as [Hold| ->]
    by (rewrite Hcs; simpl in Hc'; set_solver).
  - by eapply call_kept.
  - destruct (call_kept _ _ _ _ _ H Hs Hc) as (_ & Hreq' & _).
    split; [done|]. split; [done|]. by intros rep' [= <-].
Qed.

Lemma sim_reply g s c l1 l2 rf rep rf' :
  let s' := MkCluster (<[c_from c := rf']> (nodes s)) (l1 ++ l2) in
  cluster_rel g s → cstep s s' → calls s = l1 ++ c :: l2 → c_rep c = Some rep →
  nodes s !! c_from c = Some rf → absorb (c_to c) (c_req c) rep rf = Some rf' → simulated g s'.
Proof using All.
  intros s' H Hstep Hcs Hrep Hi Habs.
  assert (c ∈ calls s) as Hc by (rewrite Hcs; set_solver).
  destruct (cr_call _ _ H c Hc) as (Hto & Hreq & Hr). specialize (Hr rep Hrep).
  pose proof (cr_inv _ _ H) as Hg. pose proof (cr_node _ _ H _ rf Hi) as Hn0.
  assert (follows n g (c_from c) rf' (λ _, True)) as (g' & Hs & Hn & _).
  { destruct (c_req c) as [a|a|a] eqn:Ha, rep as [r|r|r]; simpl in Habs, Hreq, Hr;
      try (injection Habs as <-; by apply follows_same).
    - eapply follows_vote_reply; try done. intros Hcand Hlead.
      destruct (vote_reply_leader _ _ _ _ Habs Hcand Hlead) as [Et Ev].
      by eapply elected_quorum.
    - by eapply follows_append_reply.
    - by eapply follows_install_reply. }
  exists (c_from c), g'. split; [done|]. eapply cluster_update; try done.
  intros c' Hc'. eapply call_kept; try done. rewrite Hcs. simpl in Hc'. set_solver.
Qed.

Lemma cluster_step g s s' : cluster_rel g s → cstep s s' → simulated g s'.
Proof using All.
  intros H Hstep. pose proof Hstep as Hstep0.
  destruct Hstep as [i rf inp rf' Hi Hloc Hok Hh|i rf x l1 l2 rf' out Hi Hs Hrun|
    c l1 l2 rf now rf' rep Hcs Hnone Hi Hserve|c l1 l2 rf rep rf' Hcs Hrep Hlive Hi Habs|
    c l1 l2 Hcs|i rf now draw rf' Hi Hh].
  - by eapply sim_local.
  - by eapply sim_go.
  - by eapply sim_serve.
  - by eapply sim_reply.
  - exists 0, g. split; [done|]. destruct H as [Hg (V & HV & HVg) Hn Hc]. split; try done.
    + destruct (election_step_votes n snapshot_contract V s _ HV Hstep0) as (V' & HV' & _ & Hgrow).
      exists V'. split; [done|]. intros v T x Hv.
      destruct (Hgrow v T x Hv) as [|(rfv & Hrfv & -> & -> & Hpos)]; [by apply HVg|].
      rewrite (nr_vote _ _ _ _ (Hn _ _ Hrfv)). by rewrite decide_False by lia.
    + intros c' Hc'. apply Hc. rewrite Hcs. simpl in Hc'. set_solver.
  - injection Hh as <-. exists i, g. split; [done|].
    eapply (cluster_update g g s _ i rf); try done.
    + apply node_restart; [apply (cr_inv _ _ H)|by apply (cr_node _ _ H)].
    + intros c (c0 & -> & Hc0)%list_elem_of_fmap. pose proof (cr_call _ _ H c0 Hc0) as Hcall.
      unfold orphan. by case_decide.
Qed.

(** ** The start *)

Lemma init_node times draws i rf :
  nodes (init_cluster n times draws) !! i = Some rf → 0 <= i < n ∧ rf = boot n i (times i) (draws i).
Proof.
  intros Hi. apply elem_of_list_to_map_2 in Hi.
  apply list_elem_of_fmap in Hi as (j & [= -> ->] & Hj%elem_of_seqZ). split; [lia|done].
Qed.

Lemma boot_node i now draw : 0 <= i < n → node_rel n proto_init i (boot n i now draw).
Proof.
  intros Hi. split; try done.
  - apply boot_wf. lia.
  - apply boot_persisted.
  - by left.
  - intros x Hx. by apply elem_of_nil in Hx.
Qed.

Lemma cluster_init times draws :
  0 <= n → cluster_rel proto_init (init_cluster n times draws).
Proof using All.
  intros Hn. split.
  - by apply proto_init_inv.
  - exists (λ _ _, None). split; [|done]. by apply election_init0.
  - intros i rf [Hi ->]%init_node. by apply boot_node.
  - intros c Hc. by apply elem_of_nil in Hc.
Qed.

(** ** Runs *)

(** One action of some peer. *)
Definition pstep_any (g g' : Proto Cmd) : Prop := ∃ i, pstep n i g g'.

Lemma psteps_any i g g' : rtc (pstep n i) g g' → rtc pstep_any g g'.
Proof. induction 1; [done|]. eapply rtc_l; [by eexists|done]. Qed.

Lemma cluster_steps g s s' :
  rtc cstep s s' → cluster_rel g s →
  ∃ g', cluster_rel g' s' ∧ rtc pstep_any g g' ∧ ∀ T P, committed n g T P → committed n g' T P.
Proof using All.
  intros Hs. revert g. induction Hs as [s|s1 s2 s3 H12 _ IH]; intros g H.
  - exists g. by split_and!.
  - destruct (cluster_step g s1 s2 H H12) as (i & g2 & Hp & H2).
    destruct (IH g2 H2) as (g3 & H3 & Hp3 & Hc3). exists g3. split; [done|].
    split; [etransitivity; [by eapply psteps_any|done]|].
    intros T P HP. apply Hc3. eapply committed_ext; [apply (cr_inv _ _ H)| |done].
    eapply psteps_ext; [done|apply (cr_inv _ _ H)].
Qed.

Lemma reachable_rel times draws s :
  0 <= n → reachable snapshot_contract n times draws s →
  ∃ g, cluster_rel g s ∧ rtc pstep_any proto_init g.
Proof using All.
  intros Hn Hr. destruct (cluster_steps _ _ _ Hr (cluster_init times draws Hn)) as (g & H & Hp & _).
  by exists g.
Qed.

Lemma reachable_peers times draws s i rf :
  reachable snapshot_contract n times draws s → nodes s !! i = Some rf → 0 <= i < n.
Proof using All.
  intros Hr Hi. destruct (reachable_election n snapshot_contract times draws s Hr) as [V HV].
  by destruct (ei_node _ _ _ HV i rf Hi).
Qed.

(** The entry at an index up to the commit index is committed. *)
Lemma committed_entry g s i rf k e :
  cluster_rel g s → nodes s !! i = Some rf → 0 <= k <= commitIndex rf →
  a_log g i !! Z.to_nat k = Some e →
  committed n g (currentTerm rf) (upto (commitIndex rf) (a_log g i)) ∧
  upto (commitIndex rf) (a_log g i) !! Z.to_nat k = Some e.
Proof.
  intros H Hi Hk He. split; [apply (cr_node _ _ H i rf Hi)|].
  unfold upto. rewrite lookup_take_lt; [done|lia].
Qed.
End Safety.

(** ** The theorems *)

Section Theorems.
Context {Cmd : Type} `{!Gob Cmd, !GobLaws Cmd} (n : Z) (times draws : Z → Z).
Implicit Types rf : Raft Cmd.
Implicit Types s : Cluster Cmd.

(** What two peers hand up for one index, then or later. *)
Lemma commands_agree s1 s2 i j rf1 rf2 c1 c2 k k1 k2 :
  reachable snapshot_contract n times draws s1 → rtc (step snapshot_contract) s1 s2 →
  nodes s1 !! i = Some rf1 → nodes s2 !! j = Some rf2 →
  applier_pc rf1 = ApSend (CommandMsg c1 k) k1 → applier_pc rf2 = ApSend (CommandMsg c2 k) k2 →
  c1 = c2.
Proof using All.
  intros Hr H12 Hi Hj Hs1 Hs2. pose proof (reachable_peers n times draws s1 i rf1 Hr Hi) as Hn.
  destruct (reachable_rel n times draws s1 ltac:(lia) Hr) as (g1 & H1 & _).
  destruct (cluster_steps n g1 s1 s2 H12 H1) as (g2 & H2 & _ & Hcom).
  destruct (nr_sending _ _ _ _ (cr_node _ _ _ H1 i rf1 Hi) _ _ _ Hs1) as (Hk1 & e1 & He1 & <-).
  destruct (nr_sending _ _ _ _ (cr_node _ _ _ H2 j rf2 Hj) _ _ _ Hs2) as (Hk2 & e2 & He2 & <-).
  destruct (committed_entry n g1 s1 i rf1 k e1 H1 Hi ltac:(lia) He1) as [HP1 Hl1].
  destruct (committed_entry n g2 s2 j rf2 k e2 H2 Hj ltac:(lia) He2) as [HP2 Hl2].
  f_equal. eapply (committed_same_entry n g2); [apply (cr_inv _ _ _ H2)|by apply Hcom|done|done|done].
Qed.

(** C6: state machine safety.  If a peer, at some moment of a run, hands the
    service a command for an index, then whatever any peer hands its service
    for that index, then or later, is the same command: whatever messages are
    lost, delayed or reordered, whichever peers crash and restart, however
    often logs are compacted and snapshots installed. *)
Theorem state_machine_safety s1 s2 i j rf1 rf2 c1 c2 k k1 k2 :
  reachable snapshot_contract n times draws s1 → rtc (step snapshot_contract) s1 s2 →
  nodes s1 !! i = Some rf1 → nodes s2 !! j = Some rf2 →
  applier_pc rf1 = ApSend (CommandMsg c1 k) k1 → applier_pc rf2 = ApSend (CommandMsg c2 k) k2 →
  c1 = c2.
Proof using All. apply commands_agree. Qed.

(** C11: leader completeness.  An entry that is committed at some peer at some
    moment is in the log of every leader, then or later, whose term is at least
    that peer's, unless the leader has compacted it away. *)
Theorem leader_completeness s1 s2 i j rf1 rf2 k e :
  reachable snapshot_contract n times draws s1 → rtc (step snapshot_contract) s1 s2 →
  nodes s1 !! i = Some rf1 → nodes s2 !! j = Some rf2 →
  lastIncludedIndex rf1 < k <= commitIndex rf1 →
  go_index (log rf1) (k - lastIncludedIndex rf1) = Some e →
  role rf2 = Leader → currentTerm rf1 <= currentTerm rf2 → lastIncludedIndex rf2 < k →
  go_index (log rf2) (k - lastIncludedIndex rf2) = Some e.
Proof using All.
  intros Hr H12 Hi Hj Hk He Hl Ht Hlii. pose proof (reachable_peers n times draws s1 i rf1 Hr Hi) as Hn.
  destruct (reachable_rel n times draws s1 ltac:(lia) Hr) as (g1 & H1 & _).
  destruct (cluster_steps n g1 s1 s2 H12 H1) as (g2 & H2 & _ & Hcom).
  pose proof (cr_node _ _ _ H1 i rf1 Hi) as N1. pose proof (cr_node _ _ _ H2 j rf2 Hj) as N2.
  pose proof (lr_pos _ _ (nr_log _ _ _ _ N1)) as Hpos.
  rewrite (log_rel_entry (a_log g1 i)) in He by (apply N1 || lia).
  rewrite (log_rel_entry (a_log g2 j)) by (apply N2 || lia).
  destruct (committed_entry n g1 s1 i rf1 k e H1 Hi ltac:(lia) He) as [HP1 Hl1].
  destruct (node_hist_lead n g2 j rf2 (cr_inv _ _ _ H2) N2 Hl) as [Hh Hne].
  pose proof (leader_has_committed n g2 _ _ _ (cr_inv _ _ _ H2) (Hcom _ _ HP1) Ht Hne) as Hp.
  rewrite <-Hh. by eapply prefix_lookup_Some.
Qed.

(** C27: log matching.  If two peers hold entries of the same term at the same
    index, their logs are the same up to that index, as far as both still hold
    them. *)
Theorem log_matching_cluster s i j rf1 rf2 k t :
  reachable snapshot_contract n times draws s →
  nodes s !! i = Some rf1 → nodes s !! j = Some rf2 →
  lastIncludedIndex rf1 <= k → lastIncludedIndex rf2 <= k →
  termAt rf1 k = Some t → termAt rf2 k = Some t →
  ∀ m, lastIncludedIndex rf1 < m → lastIncludedIndex rf2 < m → m <= k →
    go_index (log rf1) (m - lastIncludedIndex rf1) =
      go_index (log rf2) (m - lastIncludedIndex rf2).
Proof using All.
  intros Hr Hi Hj Hk1 Hk2 Ht1 Ht2 m Hm1 Hm2 Hm. pose proof (reachable_peers n times draws s i rf1 Hr Hi) as Hn.
  destruct (reachable_rel n times draws s ltac:(lia) Hr) as (g & H & _).
  pose proof (cr_node _ _ _ H i rf1 Hi) as N1. pose proof (cr_node _ _ _ H j rf2 Hj) as N2.
  pose proof (cr_inv _ _ _ H) as Hg.
  rewrite (log_rel_termAt (a_log g i)) in Ht1 by (apply N1 || lia).
  rewrite (log_rel_termAt (a_log g j)) in Ht2 by (apply N2 || lia).
  rewrite (log_rel_entry (a_log g i)) by (apply N1 || lia).
  rewrite (log_rel_entry (a_log g j)) by (apply N2 || lia).
  apply fmap_Some in Ht1 as (e1 & He1 & ->), Ht2 as (e2 & He2 & Heq).
  destruct (pi_log _ _ Hg i) as [L1 _], (pi_log _ _ Hg j) as [L2 _].
  pose proof (log_matching n g Hg _ _ _ _ _ L1 L2 He1 He2 Heq) as Hmatch.
  apply (take_eq_lookup _ _ _ _ Hmatch). lia.
Qed.

(** C8: the cluster follows the protocol: every reachable state is explained by
    a run of [RaftProtocol.v] in which each peer has the term and the whole log
    of which it holds the end, a leader's log is the log of its term, and what
    a peer believes to be committed is committed. *)
Theorem follows_protocol s :
  0 <= n → reachable snapshot_contract n times draws s →
  ∃ g, rtc (pstep_any n) proto_init g ∧ ∀ i rf, nodes s !! i = Some rf →
    a_term g i = currentTerm rf ∧ log_rel (a_log g i) rf ∧
    (role rf = Leader → a_hist g (currentTerm rf) = a_log g i ∧ a_lead g (currentTerm rf) = i) ∧
    committed n g (currentTerm rf) (upto (commitIndex rf) (a_log g i)).
Proof using All.
  intros Hn Hr. destruct (reachable_rel n times draws s Hn Hr) as (g & H & Hp). exists g.
  split; [done|]. intros i rf Hi. pose proof (cr_node _ _ _ H i rf Hi) as N.
  split; [apply N|]. split; [apply N|]. split; [|apply N].
  intros Hl. destruct (nr_lead _ _ _ _ N Hl) as (? & ? & _). by split.
Qed.

Lemma serve_runs g i rf from req now :
  proto_inv n g → node_rel n g i rf → req_rel n g from req → is_Some (serve req now rf).
Proof using All.
  intros Hg H Hreq. destruct req as [a|a|a]; simpl in *.
  - destruct (raft_no_panic_step (InRequestVote a now) rf) as (rf' & Hh & _);
      [apply H|apply H|done|]. simpl in Hh. destruct (RequestVote a now rf) as [[]|]; [by eexists|done].
  - destruct (decide (ae_Term a < currentTerm rf)) as [Hold|Hnew].
    { unfold AppendEntries. rewrite decide_True by done. by eexists. }
    pose proof (append_input_ok n g i rf a now Hg H Hreq ltac:(lia)) as Hok.
    destruct (raft_no_panic_step _ rf (nr_wf _ _ _ _ H) (nr_persisted _ _ _ _ H) Hok)
      as (rf' & Hh & _). simpl in Hh. destruct (AppendEntries a now rf) as [[]|]; [by eexists|done].
  - destruct (decide (is_Term a < currentTerm rf)) as [Hold|Hnew].
    { unfold InstallSnapshot. rewrite decide_True by done. by eexists. }
    pose proof (install_input_ok n g i rf (decode_install a) now Hg H Hreq ltac:(simpl; lia)) as Hok.
    destruct (raft_no_panic_step _ rf (nr_wf _ _ _ _ H) (nr_persisted _ _ _ _ H) Hok)
      as (rf' & Hh & _). simpl in Hh. destruct (InstallSnapshot (decode_install a) now rf) as [[]|]; [by eexists|done].
Qed.

Lemma absorb_runs g i rf peer req rep :
  proto_inv n g → node_rel n g i rf → 0 <= peer < n → req_rel n g i req → rep_rel g peer req rep →
  is_Some (absorb peer req rep rf).
Proof using All.
  intros Hg H Hpeer Hreq Hrep. destruct req as [a|a|a], rep as [r|r|r]; simpl in *; try by eexists.
  - destruct (raft_no_panic_step (InVoteReply (rv_Term a) r) rf) as (rf' & Hh & _);
      [apply H|apply H|done|by eexists].
  - destruct (raft_no_panic_step (InAppendReply peer a r) rf) as (rf' & Hh & _);
      [apply H|apply H|by apply (append_reply_ok n g i)|by eexists].
  - destruct (raft_no_panic_step (InInstallReply peer a r) rf) as (rf' & Hh & _);
      [apply H|apply H|by apply (install_reply_ok n g i)|by eexists].
Qed.

Lemma goroutine_runs g i rf l1 x l2 :
  proto_inv n g → node_rel n g i rf → started rf = l1 ++ x :: l2 →
  is_Some (run_goroutine x (set_started (l1 ++ l2) rf)).
Proof using All.
  intros Hg H Hs. destruct x as [|peer|peer a]; simpl; [by eexists| |by eexists].
  assert (go_rel n g i (GoReplicate peer)) as Hp by (apply (nr_gos _ _ _ _ H); rewrite Hs; set_solver).
  set (rf0 := set_started (l1 ++ l2) rf).
  assert (is_Some (replicate_args peer rf0)) as [o ->]; [|by destruct o; eexists].
  unfold replicate_args. case_decide as Hr; [by eexists|].
  assert (role rf = Leader) as Hl by (destruct (decide (role rf = Leader)); [done|by destruct Hr]).
  pose proof (nr_wf _ _ _ _ H) as Hwf. simpl in Hp.
  destruct (go_index_some (nextIndex rf0) peer) as [nx Hnx].
  { change (nextIndex rf0) with (nextIndex rf). rewrite (wf_next _ Hwf), (nr_peers _ _ _ _ H). lia. }
  rewrite Hnx. cbn [option_bind mbind]. case_decide as Hlii; [by eexists|].
  apply go_index_lookup in Hnx as [_ Hnx].
  pose proof (wf_leader _ Hwf _ _ Hl Hnx) as Hrange.
  change (lastIncludedIndex rf0) with (lastIncludedIndex rf) in *.
  destruct (termAt_some rf (nx - 1)) as [t Ht]; [lia|].
  change (termAt rf0 (nx - 1)) with (termAt rf (nx - 1)). rewrite Ht. cbn [option_bind mbind].
  change (log rf0) with (log rf). unfold lastLogIndex in Hrange.
  rewrite decide_False by lia. rewrite go_from_some by lia. by eexists.
Qed.

(** The cluster never panics.  In every reachable state, every local input
    of a peer, every goroutine that is waiting to run, every request that is
    under way and every reply runs to its end: no index or slice bound out of
    range, no negative length. *)
Theorem cluster_no_panic s :
  reachable snapshot_contract n times draws s →
  (∀ i rf inp, nodes s !! i = Some rf → local_input inp = true → snapshot_contract inp rf = true →
     is_Some (handle inp rf)) ∧
  (∀ i rf x l1 l2, nodes s !! i = Some rf → started rf = l1 ++ x :: l2 →
     is_Some (run_goroutine x (set_started (l1 ++ l2) rf))) ∧
  (∀ c rf now, c ∈ calls s → nodes s !! c_to c = Some rf → is_Some (serve (c_req c) now rf)) ∧
  (∀ c rf rep, c ∈ calls s → c_rep c = Some rep → nodes s !! c_from c = Some rf →
     is_Some (absorb (c_to c) (c_req c) rep rf)).
Proof using All.
  intros Hr.
  assert (∀ i rf, nodes s !! i = Some rf → ∃ g, cluster_rel n g s) as Hrel.
  { intros i rf Hi. pose proof (reachable_peers n times draws s i rf Hr Hi) as Hn.
    destruct (reachable_rel n times draws s ltac:(lia) Hr) as (g & H & _). by exists g. }
  split_and!.
  - intros i rf inp Hi Hloc Hok. destruct (Hrel i rf Hi) as [g H].
    pose proof (cr_node _ _ _ H i rf Hi) as N.
    destruct (raft_no_panic_step inp rf) as (rf' & Hh & _); [apply N|apply N| |by eexists].
    destruct inp; try done. simpl in *. by apply bool_decide_eq_true in Hok.
  - intros i rf x l1 l2 Hi Hs. destruct (Hrel i rf Hi) as [g H].
    apply (goroutine_runs g i); [apply (cr_inv _ _ _ H)|by apply (cr_node _ _ _ H)|done].
  - intros c rf now Hc Hi. destruct (Hrel _ rf Hi) as [g H].
    destruct (cr_call _ _ _ H c Hc) as (_ & Hreq & _).
    eapply serve_runs; [apply (cr_inv _ _ _ H)|by apply (cr_node _ _ _ H)|done].
  - intros c rf rep Hc Hrep Hi. destruct (Hrel _ rf Hi) as [g H].
    destruct (cr_call _ _ _ H c Hc) as (Hto & Hreq & Hr').
    eapply absorb_runs; [apply (cr_inv _ _ _ H)|by apply (cr_node _ _ _ H)|done|done|by apply Hr'].
Qed.

End Theorems.
