(* ===== verification/RaftSafetyDemo.v ===== *)
(** * Concrete runs for the safety theorems

    Three peers.  Peer 0 is elected, commits a command with peer 1 and hands it
    to its service; then peer 2 catches up, or peer 0 crashes and peer 1 leads. *)
From S2P Require Import Prelude Persister Raft RaftNode RaftTheorems RaftNet RaftElection GobString.
From S2P Require Import RaftProtocol RaftCommit RaftRefine RaftSafety.

Definition start3 : Cluster string := init_cluster 3 (λ _, 0) (λ _, 0).

Definition run_from (s : Cluster string) (ms : list (CMove string)) : Cluster string :=
  default (MkCluster ∅ []) (run_cmoves snapshot_contract s ms).

Definition peer (s : Cluster string) (i : Z) : Raft string := default (boot 3 0 0 0) (nodes s !! i).

(** Elected, [Start "x"], replicated to peer 1, committed, on its way up. *)
Definition commit_moves : list (CMove string) :=
  elect_moves ++ [CLocal 0 (InStart "x"); CGo 0 1; CGo 0 2; CServe 0 5; CReply 0;
                  CLocal 0 InApplierTop].
Definition committed_x : Cluster string := Eval vm_compute in run_from start3 commit_moves.

(** The next heartbeat brings the command to peer 2. *)
Definition catch_up_moves : list (CMove string) :=
  [CLocal 0 InHeartbeat; CGo 0 2; CServe 0 6; CLocal 2 InApplierTop].
Definition caught_up : Cluster string := Eval vm_compute in run_from committed_x catch_up_moves.

(** Peer 0 crashes, peer 1 times out and wins the vote of peer 2. *)
Definition fail_over_moves : list (CMove string) :=
  [CCrash 0 100 0; CLocal 1 (InTick 2000000000 0); CGo 1 1; CServe 0 7; CReply 0].
Definition failed_over : Cluster string := Eval vm_compute in run_from committed_x fail_over_moves.

Lemma committed_x_reachable : reachable snapshot_contract 3 (λ _, 0) (λ _, 0) committed_x.
Proof. apply (run_cmoves_reachable _ 3 _ _ commit_moves). vm_compute. reflexivity. Qed.

Lemma caught_up_later : rtc (step snapshot_contract) committed_x caught_up.
Proof. apply (run_cmoves_steps _ catch_up_moves). vm_compute. reflexivity. Qed.

Lemma failed_over_later : rtc (step snapshot_contract) committed_x failed_over.
Proof. apply (run_cmoves_steps _ fail_over_moves). vm_compute. reflexivity. Qed.

Lemma caught_up_reachable : reachable snapshot_contract 3 (λ _, 0) (λ _, 0) caught_up.
Proof. unfold reachable. etransitivity; [apply committed_x_reachable|apply caught_up_later]. Qed.

(** Peers 0 and 2 hand up the same command. *)
Lemma state_machine_safety_witness :
  applier_pc (peer committed_x 0) = ApSend (CommandMsg (Some "x") 1) 1 ∧
  applier_pc (peer caught_up 2) = ApSend (CommandMsg (Some "x") 1) 1 ∧ Some "x" = Some "x".
Proof.
  split; [vm_compute; reflexivity|]. split; [vm_compute; reflexivity|].
  apply (state_machine_safety 3 (λ _, 0) (λ _, 0) committed_x caught_up 0 2
    (peer committed_x 0) (peer caught_up 2) (Some "x") (Some "x") 1 1 1).
  - apply committed_x_reachable.
  - apply caught_up_later.
  - vm_compute. reflexivity.
  - vm_compute. reflexivity.
  - vm_compute. reflexivity.
  - vm_compute. reflexivity.
Defined.

(** The new leader has the entry. *)
Lemma leader_completeness_witness :
  role (peer failed_over 1) = Leader ∧ currentTerm (peer failed_over 1) = 2 ∧
  go_index (log (peer failed_over 1)) (1 - lastIncludedIndex (peer failed_over 1)) =
    Some (MkLogEntry 1 (Some "x")).
Proof.
  split; [vm_compute; reflexivity|]. split; [vm_compute; reflexivity|].
  apply (leader_completeness 3 (λ _, 0) (λ _, 0) committed_x failed_over 0 1
    (peer committed_x 0) (peer failed_over 1) 1 (MkLogEntry 1 (Some "x"))).
  - apply committed_x_reachable.
  - apply failed_over_later.
  - vm_compute. reflexivity.
  - vm_compute. reflexivity.
  - vm_compute. split; [reflexivity|discriminate].
  - vm_compute. reflexivity.
  - vm_compute. reflexivity.
  - vm_compute. discriminate.
  - vm_compute. reflexivity.
Defined.

Lemma log_matching_cluster_witness :
  go_index (log (peer caught_up 0)) (1 - lastIncludedIndex (peer caught_up 0)) =
    go_index (log (peer caught_up 2)) (1 - lastIncludedIndex (peer caught_up 2)).
Proof.
  apply (log_matching_cluster 3 (λ _, 0) (λ _, 0) caught_up 0 2
    (peer caught_up 0) (peer caught_up 2) 1 1).
  - apply caught_up_reachable.
  - vm_compute. reflexivity.
  - vm_compute. reflexivity.
  - vm_compute. discriminate.
  - vm_compute. discriminate.
  - vm_compute. reflexivity.
  - vm_compute. reflexivity.
  - vm_compute. reflexivity.
  - vm_compute. reflexivity.
  - vm_compute. discriminate.
Defined.

Lemma follows_protocol_witness :
  commitIndex (peer committed_x 0) = 1 ∧
  ∃ g, rtc (pstep_any 3) proto_init g ∧ ∀ i rf, nodes committed_x !! i = Some rf →
    a_term g i = currentTerm rf ∧ log_rel (a_log g i) rf ∧
    (role rf = Leader → a_hist g (currentTerm rf) = a_log g i ∧ a_lead g (currentTerm rf) = i) ∧
    committed 3 g (currentTerm rf) (upto (commitIndex rf) (a_log g i)).
Proof.
  split; [vm_compute; reflexivity|].
  apply (follows_protocol 3 (λ _, 0) (λ _, 0) committed_x).
  - lia.
  - apply committed_x_reachable.
Defined.




Lemma cluster_no_panic_witness :
  is_Some (handle (InSnapshot 0 []) (peer committed_x 0)).
Proof.
  apply (cluster_no_panic 3 (λ _, 0) (λ _, 0) committed_x committed_x_reachable) with (i := 0).
  - vm_compute. reflexivity.
  - reflexivity.
  - vm_compute. reflexivity.
Defined.
