(* ===== verification/ShardCfg.v ===== *)
(** * Shard configurations

    [src/src/shardkv1/shardcfg/shardcfg.go]: which group serves which shard,
    and how [Rebalance] spreads the shards after groups join or leave.  A Go
    map is iterated in any order: where the code does, the order is an
    argument. *)
From S2P Require Import Prelude Strs.

(** [Tgid], [Tshid] and [Tnum] are [int]s. *)
Definition NShards : Z := 12.
Definition NumFirst : Z := 1.
Definition Gid1 : Z := 1.

Definition Key2Shard (key : string) : Z := fnv32a key mod NShards.

Record ShardConfig := MkShardConfig0 {
  Num : Z;
  Shards : list Z;
  Groups : gmap Z (list string);
}.

Definition MakeShardConfig : ShardConfig :=
  MkShardConfig0 0 (replicate (Z.to_nat NShards) 0) ∅.

Definition set_shard (c : ShardConfig) (s : nat) (g : Z) : ShardConfig :=
  MkShardConfig0 (Num c) (<[s := g]> (Shards c)) (Groups c).

(** [Copy]: [order] is the iteration of [cfg.Groups]. *)
Definition Copy (cfg : ShardConfig) (order : list (Z * list string)) : ShardConfig :=
  MkShardConfig0 (Num cfg) (Shards cfg) (foldl (λ m '(k, srvs), <[k := srvs]> m) ∅ order).

(** ** Counting *)

(** [counts[g]] after [for _, g := range c.Shards { counts[g] += 1 }]. *)
Definition count_shards (c : ShardConfig) : gmap Z Z :=
  foldl (λ m g, <[g := default 0 (m !! g) + 1]> m) ∅ (Shards c).

Definition counts (c : ShardConfig) (g : Z) : Z := default 0 (count_shards c !! g).

(** [slices.Sort] of the keys of [c.Groups]. *)
Definition sorted_groups (c : ShardConfig) : list Z :=
  merge_sort Z.le (map_to_list (Groups c)).*1.

Record Analysis := MkAnalysis { a_mg : Z; a_mn : Z; a_lg : Z; a_ln : Z }.

Definition analyze_group (c : ShardConfig) (a : Analysis) (g : Z) : Analysis :=
  let a := if decide (counts c g < a_ln a) then MkAnalysis (a_mg a) (a_mn a) g (counts c g)
           else a in
  if decide (counts c g > a_mn a) then MkAnalysis g (counts c g) (a_lg a) (a_ln a) else a.

(** [mostgroup, mostn, leastgroup, leastn]. *)
Definition analyze (c : ShardConfig) : Analysis :=
  foldl (analyze_group c) (MkAnalysis (-1) (-1) (-1) 257) (sorted_groups c).

Definition least (c : ShardConfig) : Z := a_lg (analyze c).

(** ** Rebalance *)

(** [for s, g := range c.Shards] ranges over the shards as they were. *)
Definition assign_shards (c : ShardConfig) : ShardConfig :=
  foldl (λ c '(s, g),
    match Groups c !! g with
    | None => set_shard c s (least c)
    | Some _ => c
    end) c (imap pair (Shards c)).

(** Move one shard from [mg] to [lg]: the first one. *)
Definition move_shard (c : ShardConfig) (mg lg : Z) : ShardConfig :=
  match list_find (λ g, g = mg) (Shards c) with
  | Some (s, _) => set_shard c s lg
  | None => c
  end.

(** The balancing loop; [None] when [n] rounds are not enough. *)
Fixpoint balance_loop (n : nat) (c : ShardConfig) : option ShardConfig :=
  let a := analyze c in
  if decide (a_mn a < a_ln a + 2) then Some c
  else match n with
       | O => None
       | S n => balance_loop n (move_shard c (a_mg a) (a_lg a))
       end.

(** The sum of the squared shard counts starts at most at [NShards * NShards]
    and falls by 2 or more per round, so this many rounds are enough. *)
Definition balance_rounds : nat := Z.to_nat (NShards * NShards).

Definition Rebalance (c : ShardConfig) : option ShardConfig :=
  if decide (Z.of_nat (size (Groups c)) < 1) then
    Some (MkShardConfig0 (Num c) ((λ _, 0) <$> Shards c) (Groups c))
  else balance_loop balance_rounds (assign_shards c).

(** ** Join and Leave

    [log.Fatalf] ends the process. *)
Inductive Outcome :=
| Done (ok : bool) (cfg : ShardConfig)
| Fatal.

Definition set_groups (c : ShardConfig) (gs : gmap Z (list string)) : ShardConfig :=
  MkShardConfig0 (Num c) (Shards c) gs.

Definition bump (c : ShardConfig) : ShardConfig :=
  MkShardConfig0 (Num c + 1) (Shards c) (Groups c).

(** Some server of [srvs] already is in a group. *)
Definition shared_server (c : ShardConfig) (srvs : list string) : bool :=
  existsb (λ p : Z * list string,
    existsb (λ s1, existsb (λ s2, bool_decide (s1 = s2)) srvs) p.2) (map_to_list (Groups c)).

Fixpoint join_loop (changed : bool) (servers : list (Z * list string)) (cfg : ShardConfig)
    : Outcome :=
  match servers with
  | [] => if changed then Done true (bump cfg) else Fatal
  | (gid, srvs) :: rest =>
      match Groups cfg !! gid with
      | Some _ => Done false cfg
      | None =>
          if shared_server cfg srvs then Fatal
          else join_loop true rest (set_groups cfg (<[gid := srvs]> (Groups cfg)))
      end
  end.

Definition Join (servers : list (Z * list string)) (cfg : ShardConfig) : Outcome :=
  join_loop false servers cfg.

Fixpoint leave_loop (changed : bool) (gids : list Z) (cfg : ShardConfig) : Outcome :=
  match gids with
  | [] => if changed then Done true (bump cfg) else Fatal
  | gid :: rest =>
      match Groups cfg !! gid with
      | None => Done false cfg
      | Some _ => leave_loop true rest (set_groups cfg (delete gid (Groups cfg)))
      end
  end.

Definition Leave (gids : list Z) (cfg : ShardConfig) : Outcome := leave_loop false gids cfg.

(** [if !cfg.Join(servers) { return false }; cfg.Rebalance(); return true];
    [None] when the balancing loop would not end. *)
Definition then_rebalance (o : Outcome) : option Outcome :=
  match o with
  | Done true cfg => Done true <$> Rebalance cfg
  | Done false cfg => Some (Done false cfg)
  | Fatal => Some Fatal
  end.

Definition JoinBalance (servers : list (Z * list string)) (cfg : ShardConfig) : option Outcome :=
  then_rebalance (Join servers cfg).

Definition LeaveBalance (gids : list Z) (cfg : ShardConfig) : option Outcome :=
  then_rebalance (Leave gids cfg).

(** ** Queries *)

(** An index out of range is [None]. *)
Definition GidServers (cfg : ShardConfig) (sh : Z) : option (Z * list string * bool) :=
  gid ← go_index (Shards cfg) sh;
  Some (match Groups cfg !! gid with
        | Some srvs => (gid, srvs, true)
        | None => (gid, [], false)
        end).

Definition IsMember (cfg : ShardConfig) (gid : Z) : bool :=
  existsb (λ g, bool_decide (g = gid)) (Shards cfg).

(** The checks of [CheckConfig]; the testers fail when one does not hold. *)
Definition spread (cfg : ShardConfig) : Z * Z :=
  foldl (λ '(mx, mi) '(g, _),
    (if decide (counts cfg g > mx) then counts cfg g else mx,
     if decide (counts cfg g < mi) then counts cfg g else mi))
    (0, 257) (map_to_list (Groups cfg)).

Definition CheckConfig (cfg : ShardConfig) (groups : list Z) : bool :=
  bool_decide (Z.of_nat (size (Groups cfg)) = len groups) &&
  forallb (λ g, bool_decide (is_Some (Groups cfg !! g))) groups &&
  (bool_decide (¬ 0 < len groups) ||
   forallb (λ g, bool_decide (is_Some (Groups cfg !! g))) (Shards cfg)) &&
  bool_decide (¬ (spread cfg).1 > (spread cfg).2 + 1).

(** ** Vocabulary of the theorems *)

(** The number of shards of [g]. *)
Definition cnt (g : Z) (l : list Z) : Z := len (filter (λ x, x = g) l).

(** [Shards] is an array of [NShards] entries. *)
Definition wf (c : ShardConfig) : Prop := len (Shards c) = NShards.

(** Every shard has a group. *)
Definition assigned (c : ShardConfig) : Prop := ∀ g, g ∈ Shards c → is_Some (Groups c !! g).

(** The potential of the balancing loop. *)
Definition load (gs l : list Z) : Z := foldr (λ g z, cnt g l * cnt g l + z) 0 gs.

(** ** Counting *)

Lemma cnt_cons g x l : cnt g (x :: l) = (if decide (x = g) then 1 else 0) + cnt g l.
Proof. unfold cnt. rewrite filter_cons. case_decide; rewrite ?len_cons; lia. Qed.

Lemma cnt_nonneg g l : 0 <= cnt g l.
Proof. apply len_nonneg. Qed.

Lemma cnt_le_len g l : cnt g l <= len l.
Proof.
  induction l as [|x l IH]; [done|]. rewrite cnt_cons, len_cons. case_decide; lia.
Qed.

Lemma counts_cnt c g : counts c g = cnt g (Shards c).
Proof.
  unfold counts, count_shards.
  assert (∀ (l : list Z) (m : gmap Z Z), default 0 (foldl (λ (m : gmap Z Z) g,
    <[g := default 0 (m !! g) + 1]> m) m l !! g) = default 0 (m !! g) + cnt g l) as H.
  { induction l as [|x l IH]; intros m; [unfold cnt; cbn; rewrite Z.add_0_r; done|]. cbn [foldl]. rewrite IH, cnt_cons.
    destruct (decide (x = g)) as [->|Hx].
    - rewrite lookup_insert_eq. cbn [default from_option id]. lia.
    - rewrite lookup_insert_ne by done. lia. }
  rewrite H. by rewrite lookup_empty.
Qed.

Lemma counts_bound c g : wf c → 0 <= counts c g <= NShards.
Proof.
  intros Hc. rewrite counts_cnt, <-Hc. split; [apply cnt_nonneg|apply cnt_le_len].
Qed.

(** Giving one shard of [a] to [b]. *)
Lemma cnt_insert l i a b g :
  l !! i = Some a →
  cnt g (<[i := b]> l) =
    cnt g l - (if decide (a = g) then 1 else 0) + (if decide (b = g) then 1 else 0).
Proof.
  revert i. induction l as [|x l IH]; intros [|i]; simpl; [done|done| |].
  - intros [= ->]. rewrite !cnt_cons. lia.
  - intros Hi%IH. rewrite !cnt_cons. lia.
Qed.

Lemma cnt_pos g l : 0 < cnt g l → ∃ i, l !! i = Some g.
Proof.
  induction l as [|x l IH]; [by intros ?%Z.lt_irrefl|]. rewrite cnt_cons.
  case_decide as Hx; intros Hpos; [exists 0%nat; by subst|].
  destruct IH as [i Hi]; [lia|]. by exists (S i).
Qed.

(** ** The keys of the groups *)

Lemma elem_of_sorted_groups c g : g ∈ sorted_groups c ↔ is_Some (Groups c !! g).
Proof.
  unfold sorted_groups. rewrite merge_sort_Permutation, list_elem_of_fmap. split.
  - intros ([g' srvs] & -> & H%elem_of_map_to_list). by exists srvs.
  - intros [srvs H]. exists (g, srvs). split; [done|]. by apply elem_of_map_to_list.
Qed.

Lemma sorted_groups_sorted c : StronglySorted Z.le (sorted_groups c).
Proof. apply StronglySorted_merge_sort; apply _. Qed.

Lemma sorted_groups_NoDup c : NoDup (sorted_groups c).
Proof. unfold sorted_groups. rewrite merge_sort_Permutation. apply NoDup_fst_map_to_list. Qed.

Lemma sorted_groups_len c : len (sorted_groups c) = Z.of_nat (size (Groups c)).
Proof.
  unfold len, sorted_groups. rewrite merge_sort_Permutation, length_fmap.
  by rewrite length_map_to_list.
Qed.

(** ** analyze *)

(** What [analyze] has found after the groups of [gs]. *)
Definition analyzed (c : ShardConfig) (gs : list Z) (a : Analysis) : Prop :=
  (a_mg a ∈ gs ∧ a_mn a = counts c (a_mg a) ∧
   ∀ g, g ∈ gs → counts c g < a_mn a ∨ counts c g = a_mn a ∧ a_mg a <= g) ∧
  (a_lg a ∈ gs ∧ a_ln a = counts c (a_lg a) ∧
   ∀ g, g ∈ gs → a_ln a < counts c g ∨ counts c g = a_ln a ∧ a_lg a <= g).

Lemma analyze_group_step c gs a g :
  (∀ x, x ∈ gs → x <= g) → analyzed c gs a → analyzed c (gs ++ [g]) (analyze_group c a g).
Proof.
  intros Hle [(Hm & Hmn & Hmax) (Hl & Hln & Hmin)].
  pose proof (Hle _ Hm). pose proof (Hle _ Hl). unfold analyze_group.
  split; (split; [|split; [|intros x [Hx| ->%list_elem_of_singleton]%elem_of_app]]);
    repeat case_decide; simpl in *;
    try pose proof (Hmax _ Hx); try pose proof (Hmin _ Hx); try pose proof (Hle _ Hx);
    try (apply elem_of_app); rewrite ?list_elem_of_singleton; try tauto; try lia.
Qed.

Lemma analyze_first c g : wf c → analyzed c [g] (analyze_group c (MkAnalysis (-1) (-1) (-1) 257) g).
Proof.
  intros Hc. pose proof (counts_bound c g Hc) as Hb. unfold NShards in Hb.
  unfold analyze_group. simpl. rewrite (decide_True (P := counts c g < 257)) by lia. simpl.
  rewrite decide_True by lia. split; (split; [|split]); simpl; try done; try apply list_elem_of_singleton; try done;
    intros x ->%list_elem_of_singleton; lia.
Qed.

Lemma analyze_fold c gs a l :
  StronglySorted Z.le (gs ++ l) → analyzed c gs a →
  analyzed c (gs ++ l) (foldl (analyze_group c) a l).
Proof.
  revert gs a. induction l as [|g l IH]; intros gs a Hs Ha; [by rewrite app_nil_r|].
  cbn [foldl]. rewrite cons_middle, (app_assoc gs). apply IH; [by rewrite <-(app_assoc gs)|].
  apply analyze_group_step; [|done]. intros x [i Hi]%list_elem_of_lookup.
  apply (StronglySorted_lookup_2 _ _ i (length gs) _ _ Hs).
  - by apply lookup_lt_Some in Hi.
  - by apply lookup_app_l_Some.
  - by rewrite list_lookup_middle.
Qed.

Theorem analyze_spec c : wf c → Groups c ≠ ∅ → analyzed c (sorted_groups c) (analyze c).
Proof.
  intros Hc Hne. unfold analyze. pose proof (sorted_groups_sorted c) as Hs.
  pose proof (sorted_groups_len c) as Hlen.
  destruct (sorted_groups c) as [|g l].
  - destruct Hne. apply map_size_empty_inv. by apply Nat2Z.inj.
  - apply (analyze_fold c [g] _ l Hs). by apply analyze_first.
Qed.

(** ** The balancing loop *)

Lemma set_shard_insert c s g : Shards (set_shard c s g) = <[s := g]> (Shards c).
Proof. done. Qed.

Lemma move_shard_spec c mg lg :
  0 < counts c mg →
  ∃ i, Shards c !! i = Some mg ∧ move_shard c mg lg = set_shard c i lg.
Proof.
  rewrite counts_cnt. intros [i Hi]%cnt_pos. unfold move_shard.
  destruct (list_find _ _) as [[j x]|] eqn:Hf.
  - apply list_find_Some in Hf as (Hj & -> & _). by exists j.
  - apply list_find_None in Hf. rewrite list.Forall_forall in Hf.
    by destruct (Hf mg (list_elem_of_lookup_2 _ _ _ Hi)).
Qed.

Lemma if_elem_cons (a g : Z) gs (X : Z) :
  g ∉ gs →
  (if decide (a ∈ g :: gs) then X else 0) =
    (if decide (a = g) then X else 0) + (if decide (a ∈ gs) then X else 0).
Proof.
  intros Hg. destruct (decide (a = g)) as [->|Hag].
  - rewrite !decide_True, decide_False by (done || by left). lia.
  - rewrite (decide_ext _ (a ∈ gs)); [lia|]. rewrite elem_of_cons. naive_solver.
Qed.

(** Moving a shard from [a] to [b] changes the sum of the squared counts. *)
Lemma load_insert gs l i a b :
  l !! i = Some a → a ≠ b → NoDup gs →
  load gs (<[i := b]> l) = load gs l
    - (if decide (a ∈ gs) then 2 * cnt a l - 1 else 0)
    + (if decide (b ∈ gs) then 2 * cnt b l + 1 else 0).
Proof.
  intros Hi Hab. induction gs as [|g gs IH]; intros Hnd.
  - rewrite !decide_False by apply not_elem_of_nil. cbn. lia.
  - apply list.NoDup_cons in Hnd as [Hg Hnd]. cbn [load foldr].
    fold (load gs l) (load gs (<[i := b]> l)).
    rewrite (IH Hnd), (cnt_insert _ _ _ _ _ Hi), !if_elem_cons by done.
    destruct (decide (a = g)) as [->|]; destruct (decide (b = g)) as [->|]; try done; nia.
Qed.

(** The sum of the squares is at most the square of the sum. *)
Lemma load_bound gs l : NoDup gs → 0 <= load gs l <= len l * len l.
Proof.
  intros Hnd.
  assert (0 <= foldr (λ g z, cnt g l + z) 0 gs <= len l) as [Hs0 Hs].
  { clear -Hnd. induction l as [|x l IH].
    - clear Hnd. induction gs; [done|done].
    - rewrite len_cons. assert (foldr (λ g z, cnt g (x :: l) + z) 0 gs =
        foldr (λ g z, cnt g l + z) 0 gs + (if decide (x ∈ gs) then 1 else 0)) as ->.
      { clear IH. induction gs as [|g gs IH]; [by rewrite decide_False by apply not_elem_of_nil|].
        apply list.NoDup_cons in Hnd as [Hg Hnd]. cbn [foldr].
        rewrite (IH Hnd), cnt_cons, if_elem_cons by done. lia. }
      case_decide; lia. }
  enough (0 <= load gs l <= foldr (λ g z, cnt g l + z) 0 gs * foldr (λ g z, cnt g l + z) 0 gs ∧
          0 <= foldr (λ g z, cnt g l + z) 0 gs) by nia.
  clear -gs. induction gs as [|g gs IH]; [done|]. cbn [load foldr]. fold (load gs l).
  pose proof (cnt_nonneg g l). nia.
Qed.

(** *** One round *)

Lemma move_shard_round c :
  wf c → Groups c ≠ ∅ → assigned c →
  let a := analyze c in
  a_ln a + 2 <= a_mn a →
  ∃ i, Shards c !! i = Some (a_mg a) ∧
    move_shard c (a_mg a) (a_lg a) = set_shard c i (a_lg a) ∧
    load (sorted_groups c) (<[i := a_lg a]> (Shards c)) <= load (sorted_groups c) (Shards c) - 2.
Proof.
  intros Hc Hne Has a Hlt. destruct (analyze_spec c Hc Hne) as [(Hm & Hmn & _) (Hl & Hln & _)].
  fold a in Hm, Hmn, Hl, Hln. pose proof (counts_bound c (a_lg a) Hc).
  destruct (move_shard_spec c (a_mg a) (a_lg a)) as (i & Hi & Hmove); [lia|].
  exists i. split; [done|]. split; [done|].
  rewrite (load_insert _ _ _ _ _ Hi), !decide_True by
    (done || apply sorted_groups_NoDup || (intros Heq; rewrite Heq in *; lia)).
  rewrite !counts_cnt in *. lia.
Qed.

Lemma set_shard_wf c i g : wf c → wf (set_shard c i g).
Proof. unfold wf, len. rewrite set_shard_insert, length_insert. done. Qed.

Lemma set_shard_assigned c i g :
  is_Some (Groups c !! g) → assigned c → assigned (set_shard c i g).
Proof.
  intros Hg Has x. rewrite set_shard_insert. intros [j Hj]%list_elem_of_lookup.
  apply list_lookup_insert_Some in Hj as [(_ & -> & _)|[_ Hj%list_elem_of_lookup_2]]; auto.
Qed.

(** The loop ends, and only by its [break]. *)
Lemma balance_loop_ends n c :
  wf c → Groups c ≠ ∅ → assigned c → load (sorted_groups c) (Shards c) <= Z.of_nat n →
  ∃ c', balance_loop n c = Some c' ∧ wf c' ∧ assigned c' ∧ Num c' = Num c ∧
    Groups c' = Groups c ∧ a_mn (analyze c') < a_ln (analyze c') + 2.
Proof.
  revert c. induction n as [|n IH]; intros c Hc Hne Has Hload; cbn [balance_loop];
    (case_decide as Hlt; [by exists c|]);
    (destruct (move_shard_round c Hc Hne Has) as (i & Hi & Hmove & Hfall); [lia|]).
  - pose proof (load_bound (sorted_groups c) (<[i:=a_lg (analyze c)]> (Shards c))
      (sorted_groups_NoDup c)). lia.
  - rewrite Hmove. destruct (analyze_spec c Hc Hne) as [_ (Hl%elem_of_sorted_groups & _)].
    destruct (IH (set_shard c i (a_lg (analyze c)))) as (c' & ? & ? & ? & ? & ? & ?);
      [by apply set_shard_wf|done|by apply set_shard_assigned| |by exists c'].
    change (sorted_groups (set_shard c i (a_lg (analyze c)))) with (sorted_groups c).
    rewrite set_shard_insert. lia.
Qed.

(** *** Unassigned shards *)

Definition assign_step (c : ShardConfig) (p : nat * Z) : ShardConfig :=
  match Groups c !! p.2 with
  | None => set_shard c p.1 (least c)
  | Some _ => c
  end.

Lemma assign_shards_steps c : assign_shards c = foldl assign_step c (imap pair (Shards c)).
Proof.
  unfold assign_shards. generalize (imap pair (Shards c)). intros l. revert c.
  induction l as [|[s g] l IH]; intros c; [done|]. simpl. apply IH.
Qed.

(** [d] is [c] with the unassigned shards before [k] assigned. *)
Definition assigned_upto (c d : ShardConfig) (k : nat) : Prop :=
  wf d ∧ Num d = Num c ∧ Groups d = Groups c ∧
  (∀ s g, (s < k)%nat → Shards d !! s = Some g → is_Some (Groups c !! g)) ∧
  (∀ s g, Shards c !! s = Some g → (k <= s)%nat ∨ is_Some (Groups c !! g) →
     Shards d !! s = Some g).

Lemma assign_step_upto c d k g :
  Groups c ≠ ∅ → Shards c !! k = Some g →
  assigned_upto c d k → assigned_upto c (assign_step d (k, g)) (S k).
Proof.
  intros Hne Hk (Hwf & Hnum & Hgr & Hlt & Hge).
  pose proof (Hge k g Hk (or_introl (le_n k))) as Hdk. unfold assign_step. simpl.
  rewrite Hgr. destruct (Groups c !! g) as [srvs|] eqn:Hg.
  - split; [done|]. split; [done|]. split; [done|]. split.
    + intros s x Hs Hx. destruct (decide (s = k)) as [->|]; [|apply (Hlt s); [lia|done]].
      rewrite Hdk in Hx. injection Hx as <-. by exists srvs.
    + intros s x Hx [Hs|Hs]; apply Hge; auto with lia.
  - assert (Groups d ≠ ∅) as Hned by by rewrite Hgr.
    destruct (analyze_spec d Hwf Hned) as [_ (Hl%elem_of_sorted_groups & _)].
    fold (least d) in Hl. rewrite Hgr in Hl.
    split; [by apply set_shard_wf|]. split; [done|]. split; [done|].
    rewrite set_shard_insert. split.
    + intros s x Hs [(-> & <- & _)|[Hne' Hx]]%list_lookup_insert_Some; [done|].
      apply (Hlt s); [lia|done].
    + intros s x Hx Hs. apply list_lookup_insert_Some. right.
      assert (k ≠ s).
      { intros <-. rewrite Hk in Hx. injection Hx as <-.
        destruct Hs as [|[? ?]]; [lia|congruence]. }
      split; [done|]. apply Hge; [done|]. destruct Hs; [left; lia|by right].
Qed.

Lemma assign_shards_spec c :
  wf c → Groups c ≠ ∅ → assigned_upto c (assign_shards c) (length (Shards c)).
Proof.
  intros Hc Hne. rewrite assign_shards_steps.
  assert (∀ p, p `prefix_of` Shards c →
    assigned_upto c (foldl assign_step c (imap pair p)) (length p)) as H; [|by apply H].
  induction p as [|g p IH] using rev_ind; intros Hp.
  - split; [done|]. split; [done|]. split; [done|]. split; [simpl; lia|done].
  - rewrite imap_app, foldl_app, length_app, Nat.add_1_r. simpl. rewrite Nat.add_0_r.
    apply assign_step_upto; [done| |apply IH].
    + destruct Hp as [k ->]. rewrite <-app_assoc. simpl. by rewrite list_lookup_middle.
    + destruct Hp as [k ->]. exists (g :: k). by rewrite <-app_assoc.
Qed.

Lemma assign_shards_assigned c :
  wf c → Groups c ≠ ∅ → assigned (assign_shards c).
Proof.
  intros Hc Hne g [s Hs]%list_elem_of_lookup.
  destruct (assign_shards_spec c Hc Hne) as (Hwf & _ & Hgr & Hlt & _). rewrite Hgr.
  apply (Hlt s); [|done]. apply lookup_lt_Some in Hs. unfold wf, len in *. lia.
Qed.

(** ** CheckConfig *)

Lemma spread_bound c mx mi :
  wf c → (∀ g, is_Some (Groups c !! g) → mi <= counts c g <= mx) →
  0 <= mx → mi <= 257 → (spread c).1 <= mx ∧ mi <= (spread c).2.
Proof.
  intros Hc Hb Hmx Hmi. unfold spread.
  assert (∀ l a b, (∀ p, p ∈ l → is_Some (Groups c !! p.1)) → a <= mx → mi <= b →
    let r := foldl (λ '(mx, mi) '((g, _) : Z * list string),
      (if decide (counts c g > mx) then counts c g else mx,
       if decide (counts c g < mi) then counts c g else mi)) (a, b) l in
    r.1 <= mx ∧ mi <= r.2) as H.
  { induction l as [|[g srvs] l IH]; intros a b Hl Ha Hb'; [done|]. cbn [foldl].
    pose proof (Hb g (Hl (g, srvs) ltac:(by left))).
    apply IH; [intros p Hp; apply Hl; by right|case_decide; lia|case_decide; lia]. }
  apply H; [|done|done]. intros [g srvs] Hg%elem_of_map_to_list. by exists srvs.
Qed.

(** A configuration whose shards are assigned and balanced passes the
    testers' check. *)
Lemma CheckConfig_ok c :
  wf c → (Groups c = ∅ ∨ assigned c ∧ a_mn (analyze c) < a_ln (analyze c) + 2) →
  CheckConfig c (sorted_groups c) = true.
Proof.
  intros Hc Hbal. unfold CheckConfig. rewrite !andb_true_iff, orb_true_iff, !bool_decide_eq_true.
  rewrite !forallb_forall. setoid_rewrite bool_decide_eq_true.
  setoid_rewrite <-list_elem_of_In. rewrite sorted_groups_len.
  split; [split; [split; [done|]|]|].
  - intros g. apply elem_of_sorted_groups.
  - destruct Hbal as [->|[Has _]]; [left; by rewrite map_size_empty|right; apply Has].
  - destruct Hbal as [Hemp|[_ Hbal]].
    + unfold spread. rewrite Hemp, map_to_list_empty. simpl. lia.
    + destruct (decide (Groups c = ∅)) as [Hemp|Hne];
        [unfold spread; rewrite Hemp, map_to_list_empty; simpl; lia|].
      destruct (analyze_spec c Hc Hne) as [(_ & Hmn & Hmax) (_ & Hln & Hmin)].
      destruct (spread_bound c (a_mn (analyze c)) (a_ln (analyze c))); [done| | | |lia].
      * intros g Hg%elem_of_sorted_groups.
        pose proof (Hmax g Hg). pose proof (Hmin g Hg). lia.
      * rewrite Hmn. by apply counts_bound.
      * rewrite Hln. pose proof (counts_bound c (a_lg (analyze c)) Hc). unfold NShards in *. lia.
Qed.

(** ** Rebalance *)

Lemma Rebalance_empty c :
  Groups c = ∅ → Rebalance c = Some (MkShardConfig0 (Num c) ((λ _, 0) <$> Shards c) (Groups c)).
Proof. intros Hg. unfold Rebalance. by rewrite Hg, map_size_empty. Qed.

Lemma Rebalance_nonempty c :
  Groups c ≠ ∅ → Rebalance c = balance_loop balance_rounds (assign_shards c).
Proof.
  intros Hg. unfold Rebalance. apply map_size_non_empty_iff in Hg.
  rewrite decide_False by lia. done.
Qed.

Lemma Rebalance_ends c :
  wf c →
  ∃ c', Rebalance c = Some c' ∧ wf c' ∧ Num c' = Num c ∧ Groups c' = Groups c ∧
    (Groups c = ∅ ∧ Shards c' = replicate (length (Shards c)) 0 ∨
     assigned c' ∧ a_mn (analyze c') < a_ln (analyze c') + 2).
Proof.
  intros Hc. destruct (decide (Groups c = ∅)) as [Hemp|Hne].
  - rewrite (Rebalance_empty c Hemp). eexists. split; [done|]. unfold wf, len. simpl.
    rewrite length_fmap. split; [done|]. split; [done|]. split; [done|]. left. split; [done|].
    apply const_fmap. done.
  - rewrite (Rebalance_nonempty c Hne).
    destruct (assign_shards_spec c Hc Hne) as (Hwf & Hnum & Hgr & _).
    destruct (balance_loop_ends balance_rounds (assign_shards c)) as (c' & ? & ? & ? & ? & ? & ?);
      [done|by rewrite Hgr|by apply assign_shards_assigned| |].
    + pose proof (load_bound (sorted_groups (assign_shards c)) (Shards (assign_shards c))
        (sorted_groups_NoDup _)) as Hb. rewrite Hwf in Hb. unfold balance_rounds. lia.
    + exists c'. rewrite <-Hnum, <-Hgr. split; [done|]. split; [done|]. auto.
Qed.

Lemma sorted_groups_cong c d : Groups c = Groups d → sorted_groups c = sorted_groups d.
Proof. unfold sorted_groups. by intros ->. Qed.

(** Without groups no shard can be assigned. *)
Lemma no_shard_assigned c : wf c → assigned c → Groups c ≠ ∅.
Proof.
  unfold wf, assigned. destruct (Shards c) as [|g l]; [done|]. intros _ Has Hemp.
  destruct (Has g ltac:(by left)) as [srvs Hg]. by rewrite Hemp, lookup_empty in Hg.
Qed.

Lemma assign_shards_none c : assigned c → assign_shards c = c.
Proof.
  intros Has. rewrite assign_shards_steps.
  assert (∀ k l, (∀ g, g ∈ l → is_Some (Groups c !! g)) →
    foldl assign_step c (imap (λ i, pair (k + i)%nat) l) = c) as H; [|by apply (H 0%nat)].
  intros k l. revert k. induction l as [|g l IH]; intros k Hl; [done|]. rewrite imap_cons.
  cbn [foldl]. unfold assign_step at 2. simpl. destruct (Hl g ltac:(by left)) as [srvs ->].
  etrans; [|apply (IH (S k)); intros x Hx; apply Hl; by right].
  f_equal. apply imap_ext. intros i x _. simpl. f_equal. lia.
Qed.

(** Shards that are assigned and balanced stay where they are. *)
Lemma Rebalance_stable c :
  wf c →
  (Groups c = ∅ ∧ Shards c = replicate (length (Shards c)) 0 ∨
   assigned c ∧ a_mn (analyze c) < a_ln (analyze c) + 2) →
  Rebalance c = Some c.
Proof.
  intros Hc [[Hemp Hs]|[Has Hbal]].
  - rewrite (Rebalance_empty c Hemp). destruct c as [n s g]. simpl in *.
    f_equal. f_equal. by rewrite const_fmap with (y := 0), <-Hs.
  - rewrite (Rebalance_nonempty c (no_shard_assigned c Hc Has)), (assign_shards_none c Has).
    unfold balance_rounds. destruct (Z.to_nat _); cbn [balance_loop]; by rewrite decide_True.
Qed.

(** C14: [Rebalance] terminates on every configuration.  It keeps the
    configuration number and the groups, passes [CheckConfig] for exactly these
    groups (every shard has a group, and shard counts differ by at most one),
    gives shard 0 to nobody when there is no group, and rebalancing again
    changes nothing. *)
Theorem Rebalance_spec c :
  wf c →
  ∃ c', Rebalance c = Some c' ∧ wf c' ∧ Num c' = Num c ∧ Groups c' = Groups c ∧
    CheckConfig c' (sorted_groups c) = true ∧
    (Groups c = ∅ → Shards c' = replicate (Z.to_nat NShards) 0) ∧
    Rebalance c' = Some c'.
Proof.
  intros Hc. destruct (Rebalance_ends c Hc) as (c' & Hr & Hwf & Hnum & Hgr & Hbal).
  exists c'. rewrite (sorted_groups_cong c c') by done. split; [done|]. split; [done|].
  split; [done|]. split; [done|]. rewrite <-Hgr in Hbal. split; [|split].
  - apply CheckConfig_ok; [done|]. naive_solver.
  - rewrite <-Hgr. intros Hemp. rewrite <-Hc. unfold len. rewrite Nat2Z.id.
    destruct Hbal as [[_ ->]|[Has _]]; [done|].
    destruct (no_shard_assigned c'); done.
  - apply Rebalance_stable; [done|].
    by replace (length (Shards c')) with (length (Shards c)) by (unfold wf, len in *; lia).
Qed.

(** ** Join and Leave *)

(** [Join] takes [servers]: new groups, and no server in two groups. *)
Definition joinable (c : ShardConfig) (servers : list (Z * list string)) : Prop :=
  NoDup servers.*1 ∧
  (∀ p, p ∈ servers → Groups c !! p.1 = None) ∧
  (∀ p g srvs, p ∈ servers → Groups c !! g = Some srvs → p.2 ## srvs) ∧
  StronglySorted (λ p q, p.2 ## q.2) servers.

Definition joined (c : ShardConfig) (servers : list (Z * list string)) : ShardConfig :=
  bump (set_groups c (list_to_map servers ∪ Groups c)).

Lemma shared_server_spec c srvs :
  shared_server c srvs = false ↔ ∀ g xs, Groups c !! g = Some xs → srvs ## xs.
Proof.
  unfold shared_server. rewrite <-not_true_iff_false, existsb_exists.
  setoid_rewrite existsb_exists. setoid_rewrite existsb_exists.
  setoid_rewrite bool_decide_eq_true. setoid_rewrite <-list_elem_of_In. split.
  - intros H g xs Hg s Hs Hxs. apply H. exists (g, xs).
    split; [by apply elem_of_map_to_list|]. by exists s; split; [|exists s].
  - intros H ([g xs] & Hg%elem_of_map_to_list & s & Hs & s' & Hs' & ->).
    by apply (H g xs Hg s').
Qed.

Lemma joinable_cons c gid srvs rest :
  joinable c ((gid, srvs) :: rest) ↔
  Groups c !! gid = None ∧ shared_server c srvs = false ∧
  joinable (set_groups c (<[gid := srvs]> (Groups c))) rest.
Proof.
  rewrite shared_server_spec. unfold joinable. cbn [fmap list_fmap fst].
  rewrite list.NoDup_cons. setoid_rewrite elem_of_cons. split.
  - intros ([Hgid Hnd] & Hnew & Hold & Hpw%StronglySorted_inv). destruct Hpw as [Hpw Hhd].
    rewrite list.Forall_forall in Hhd.
    split; [by apply (Hnew (gid, srvs)); left|].
    split; [intros g xs; apply (Hold (gid, srvs)); by left|].
    split; [done|]. split; [|split; [|done]].
    + intros p Hp. simpl. rewrite lookup_insert_ne; [apply Hnew; by right|].
      intros ->. apply Hgid, list_elem_of_fmap. by exists p.
    + intros p g xs Hp. simpl. intros [[<- <-]|[_ Hg]]%lookup_insert_Some.
      * intros s Hs Hs'. by apply (Hhd p Hp s).
      * apply (Hold p g); [by right|done].
  - intros (Hgid & Hsh & Hnd & Hnew & Hold & Hpw).
    assert (∀ p, p ∈ rest → p.1 ≠ gid) as Hne.
    { intros p Hp Heq. specialize (Hnew p Hp). simpl in Hnew. rewrite Heq in Hnew.
      by rewrite lookup_insert_eq in Hnew. }
    split; [split; [|done]|split; [|split]].
    + intros (p & -> & Hp)%list_elem_of_fmap. by apply (Hne p Hp).
    + intros p [->|Hp]; [done|]. specialize (Hnew p Hp). simpl in Hnew.
      rewrite lookup_insert_ne in Hnew; [done|]. intros Heq. by apply (Hne p Hp).
    + intros p g xs [->|Hp] Hg; [by apply (Hsh g)|].
      apply (Hold p g xs Hp). simpl. rewrite lookup_insert_ne; [done|]. congruence.
    + constructor; [done|]. apply list.Forall_forall. intros p Hp s Hs Hs'.
      apply (Hold p gid srvs Hp ltac:(apply lookup_insert_eq) s Hs' Hs).
Qed.

Lemma join_loop_spec changed servers c c' :
  join_loop changed servers c = Done true c' ↔
  (changed = true ∨ servers ≠ []) ∧ joinable c servers ∧ c' = joined c servers.
Proof.
  revert changed c. induction servers as [|[gid srvs] rest IH]; intros changed c; cbn [join_loop].
  - unfold joined. rewrite list_to_map_nil, (left_id_L ∅ (∪)). destruct c as [n sh gs]. simpl.
    destruct changed; [|naive_solver]. split; [|naive_solver].
    intros [= <-]. split; [by left|]. split; [|done]. split; [constructor|].
    split; [set_solver|]. split; [set_solver|constructor].
  - rewrite joinable_cons. destruct (Groups c !! gid) as [xs|] eqn:Hg; [naive_solver|].
    destruct (shared_server c srvs); [naive_solver|]. rewrite IH. unfold joined, set_groups. simpl.
    assert (joinable (set_groups c (<[gid:=srvs]> (Groups c))) rest →
      list_to_map rest ∪ <[gid:=srvs]> (Groups c) =
        <[gid:=srvs]> (list_to_map rest) ∪ Groups c) as Hun.
    { intros (_ & Hnew & _). rewrite <-insert_union_l, insert_union_r; [done|].
      apply not_elem_of_list_to_map_1. intros (p & -> & Hp)%list_elem_of_fmap.
      specialize (Hnew p Hp). simpl in Hnew. by rewrite lookup_insert_eq in Hnew. }
    unfold set_groups in Hun. split.
    + intros (_ & Hj & ->). by rewrite (Hun Hj); auto.
    + intros (_ & (_ & _ & Hj) & ->). rewrite (Hun Hj). auto.
Qed.

Lemma joinable_perm c l l' : l ≡ₚ l' → joinable c l → joinable c l'.
Proof.
  intros Hp (Hnd & Hnew & Hold & Hpw). split; [by rewrite <-Hp|].
  split; [intros p; rewrite <-Hp; apply Hnew|].
  split; [intros p g srvs; rewrite <-Hp; apply Hold|].
  apply (pairwise_Permutation _ l); [|done|done]. intros p q. set_solver.
Qed.

Lemma joined_perm c l l' : l ≡ₚ l' → NoDup l.*1 → joined c l = joined c l'.
Proof. intros Hp Hnd. unfold joined. by rewrite (list_to_map_proper l l'). Qed.

Lemma LeaveBalance_loop changed gids c c' :
  leave_loop changed gids c = Done true c' ↔
  (changed = true ∨ gids ≠ []) ∧ NoDup gids ∧ (∀ g, g ∈ gids → is_Some (Groups c !! g)) ∧
  c' = bump (set_groups c (filter (λ p, p.1 ∉ gids) (Groups c))).
Proof.
  revert changed c. induction gids as [|g gids IH]; intros changed c; cbn [leave_loop].
  - rewrite map_filter_id by (intros i x _; apply not_elem_of_nil). destruct c as [n s gs]. simpl.
    destruct changed; [|naive_solver]. split; [|naive_solver]. intros [= <-].
    split; [by left|]. split; [constructor|]. split; [set_solver|done].
  - rewrite list.NoDup_cons.
    destruct (Groups c !! g) as [srvs|] eqn:Hg; last first.
    { split; [done|]. intros (_ & _ & Hin & _). destruct (Hin g); [apply elem_of_cons; by left|congruence]. }
    rewrite IH. unfold set_groups. simpl.
    assert (filter (λ p, p.1 ∉ gids) (delete g (Groups c)) =
            filter (λ p : Z * list string, p.1 ∉ g :: gids) (Groups c)) as Hf.
    { apply map_eq. intros i. apply option_eq. intros x. rewrite !map_lookup_filter_Some.
      rewrite lookup_delete_Some, elem_of_cons. naive_solver. }
    rewrite Hf. split.
    + intros (_ & Hnd & Hin & ->). split; [by right|]. split; [split; [|done]|].
      * intros Hg'. destruct (Hin g Hg') as [x Hx]. by rewrite lookup_delete_eq in Hx.
      * split; [|done]. intros x [->|Hx]%elem_of_cons; [by exists srvs|]. destruct (Hin x Hx) as [y Hy].
        apply lookup_delete_Some in Hy as [_ Hy]. by exists y.
    + intros (_ & [Hg' Hnd] & Hin & ->). split; [by left|]. split; [done|]. split; [|done].
      intros x Hx. rewrite lookup_delete_ne by congruence. apply Hin, elem_of_cons. by right.
Qed.

(** What a successful [JoinBalance] or [LeaveBalance] leaves: the next
    configuration, over the groups [gs], that the testers accept. *)
Definition next_config (c c' : ShardConfig) (gs : gmap Z (list string)) : Prop :=
  wf c' ∧ Num c' = Num c + 1 ∧ Groups c' = gs ∧ CheckConfig c' (sorted_groups c') = true.

Lemma then_rebalance_next c gs :
  wf c → ∃ c', then_rebalance (Done true (bump (set_groups c gs))) = Some (Done true c') ∧
    next_config c c' gs.
Proof.
  intros Hc. destruct (Rebalance_ends (bump (set_groups c gs))) as (c' & Hr & Hwf & Hnum & Hgr & Hbal);
    [done|].
  exists c'. unfold then_rebalance. rewrite Hr. split; [done|]. split; [done|].
  split; [done|]. split; [done|]. apply CheckConfig_ok; [done|]. rewrite Hgr. naive_solver.
Qed.

(** C28: [JoinBalance] answers true exactly for new groups that share no server
    with another group; the result is then the next configuration over the old
    and new groups, it is balanced and complete, and it does not depend on the
    order in which Go iterates the map of new groups. *)
Theorem JoinBalance_spec c servers :
  wf c →
  (servers ≠ [] ∧ joinable c servers ↔ ∃ c', JoinBalance servers c = Some (Done true c')) ∧
  (∀ c', JoinBalance servers c = Some (Done true c') →
     next_config c c' (list_to_map servers ∪ Groups c) ∧
     ∀ servers', servers' ≡ₚ servers → JoinBalance servers' c = Some (Done true c')).
Proof.
  intros Hc. unfold JoinBalance, Join.
  assert (∀ l c', then_rebalance (join_loop false l c) = Some (Done true c') →
    l ≠ [] ∧ joinable c l ∧ join_loop false l c = Done true (joined c l)) as Hinv.
  { intros l c' H. destruct (join_loop false l c) as [[] d|] eqn:Hj; [|done|done].
    apply join_loop_spec in Hj as ([|] & ? & ->); done. }
  assert (∀ l, l ≠ [] → joinable c l → join_loop false l c = Done true (joined c l)) as Hfwd.
  { intros l Hne Hj. apply join_loop_spec. auto. }
  split; [split|].
  - intros [Hne Hj]. rewrite (Hfwd servers Hne Hj).
    destruct (then_rebalance_next c (list_to_map servers ∪ Groups c) Hc) as (c' & ? & _). by exists c'.
  - intros [c' H]. by destruct (Hinv _ _ H) as (? & ? & _).
  - intros c' H. destruct (Hinv _ _ H) as (Hne & Hj & Hloop). rewrite Hloop in H. split.
    + destruct (then_rebalance_next c (list_to_map servers ∪ Groups c) Hc) as (d & Hd & Hnext).
      unfold joined in H. rewrite Hd in H. by injection H as <-.
    + intros l Hp. rewrite (Hfwd l); [| |by apply (joinable_perm c servers)].
      * rewrite (joined_perm c l servers Hp); [done|]. rewrite Hp. by destruct Hj.
      * intros ->. by apply Permutation_nil_l in Hp.
Qed.

(** [LeaveBalance] answers true exactly for distinct groups of the
    configuration; the result is then the next configuration over the other
    groups, balanced and complete. *)
Theorem LeaveBalance_spec c gids :
  wf c →
  (gids ≠ [] ∧ NoDup gids ∧ (∀ g, g ∈ gids → is_Some (Groups c !! g)) ↔
     ∃ c', LeaveBalance gids c = Some (Done true c')) ∧
  (∀ c', LeaveBalance gids c = Some (Done true c') →
     next_config c c' (filter (λ p, p.1 ∉ gids) (Groups c))).
Proof.
  intros Hc. unfold LeaveBalance, Leave.
  destruct (then_rebalance_next c (filter (λ p, p.1 ∉ gids) (Groups c)) Hc) as (d & Hd & Hnext).
  assert (∀ c', then_rebalance (leave_loop false gids c) = Some (Done true c') →
    c' = d ∧ gids ≠ [] ∧ NoDup gids ∧ ∀ g, g ∈ gids → is_Some (Groups c !! g)) as Hinv.
  { intros c' H. destruct (leave_loop false gids c) as [[] e|] eqn:Hl; [|done|done].
    apply LeaveBalance_loop in Hl as ([|] & ? & ? & ->); [done|]. rewrite Hd in H.
    by injection H as <-. }
  split; [split|].
  - intros (Hne & Hnd & Hin). exists d. rewrite <-Hd. f_equal. apply LeaveBalance_loop. auto.
  - intros [c' H%Hinv]. tauto.
  - intros c' [-> _]%Hinv. done.
Qed.

(** A [Join] that answers false has already added the groups it visited
    before the duplicate: the configuration keeps its number and its shards but
    has new groups without shards, and fails the testers' check. *)
Theorem Join_false_partial :
  ∃ c c', JoinBalance [(1, ["a"]); (2, ["b"])] MakeShardConfig = Some (Done true c) ∧
    JoinBalance [(3, ["d"]); (1, ["a"])] c = Some (Done false c') ∧
    Num c' = Num c ∧ Shards c' = Shards c ∧ is_Some (Groups c' !! 3) ∧
    CheckConfig c (sorted_groups c) = true ∧ CheckConfig c' (sorted_groups c') = false.
Proof.
  do 2 eexists. split; [vm_compute; reflexivity|]. split; [vm_compute; reflexivity|].
  split; [done|]. split; [done|]. split; [by eexists|].
  split; vm_compute; reflexivity.
Qed.

(** In a configuration the testers accept every key has a replica group:
    [Key2Shard] is an index of [Shards] and [GidServers] finds its servers. *)
Theorem key_has_servers c key :
  wf c → Groups c ≠ ∅ → CheckConfig c (sorted_groups c) = true →
  ∃ g srvs, GidServers c (Key2Shard key) = Some (g, srvs, true) ∧ Groups c !! g = Some srvs ∧
    IsMember c g = true.
Proof.
  intros Hc Hne. unfold CheckConfig. rewrite !andb_true_iff, orb_true_iff, bool_decide_eq_true.
  rewrite sorted_groups_len.
  intros [[_ [Hemp|Has]] _].
  { apply map_size_non_empty_iff in Hne. apply bool_decide_eq_true in Hemp. lia. }
  assert (0 <= Key2Shard key < len (Shards c)) as Hk.
  { rewrite Hc. unfold Key2Shard. by apply Z.mod_pos_bound. }
  destruct (go_index_some (Shards c) _ Hk) as [g Hg]. unfold GidServers. rewrite Hg. simpl.
  apply go_index_lookup in Hg as [_ Hg%list_elem_of_lookup_2].
  rewrite forallb_forall in Has. setoid_rewrite bool_decide_eq_true in Has.
  destruct (Has g) as [srvs Hsrvs]; [by apply list_elem_of_In|].
  exists g, srvs. rewrite Hsrvs. split; [done|]. split; [done|].
  apply existsb_exists. exists g. rewrite bool_decide_eq_true. by rewrite <-list_elem_of_In.
Qed.

(** ** Witnesses *)

Definition demo_config : ShardConfig := Eval vm_compute in
  match JoinBalance [(1, ["a"]); (2, ["b"]); (3, ["c"])] MakeShardConfig with
  | Some (Done true c) => c
  | _ => MakeShardConfig
  end.

Lemma demo_config_wf : wf demo_config.
Proof. reflexivity. Defined.

(** Group 3 leaves, a fourth group joined first. *)
Lemma Rebalance_spec_witness :
  ∃ c', Rebalance (set_groups demo_config {[1 := ["a"]; 4 := ["d"]]}) = Some c' ∧ wf c' ∧
    Num c' = 1 ∧ Groups c' = {[1 := ["a"]; 4 := ["d"]]} ∧
    CheckConfig c' [1; 4] = true ∧
    (({[1 := ["a"]; 4 := ["d"]]} : gmap Z (list string)) = ∅ →
       Shards c' = replicate (Z.to_nat NShards) 0) ∧
    Rebalance c' = Some c'.
Proof. exact (Rebalance_spec (set_groups demo_config {[1 := ["a"]; 4 := ["d"]]}) eq_refl). Defined.

Lemma JoinBalance_spec_witness :
  ∃ c', JoinBalance [(5, ["e"; "f"]); (4, ["d"])] demo_config = Some (Done true c') ∧
    JoinBalance [(4, ["d"]); (5, ["e"; "f"])] demo_config = Some (Done true c') ∧ Num c' = 2.
Proof.
  eexists. split; [vm_compute; reflexivity|]. split; [|reflexivity].
  apply (proj2 (JoinBalance_spec demo_config [(5, ["e"; "f"]); (4, ["d"])] eq_refl));
    [vm_compute; reflexivity|apply perm_swap].
Defined.

Lemma LeaveBalance_spec_witness :
  ∃ c', LeaveBalance [3; 1] demo_config = Some (Done true c') ∧
    next_config demo_config c' (filter (λ p, p.1 ∉ [3; 1]) (Groups demo_config)).
Proof.
  eexists. split; [vm_compute; reflexivity|].
  apply (proj2 (LeaveBalance_spec demo_config [3; 1] eq_refl)). vm_compute; reflexivity.
Defined.

Lemma key_has_servers_witness :
  ∃ g srvs, GidServers demo_config (Key2Shard "x") = Some (g, srvs, true) ∧
    Groups demo_config !! g = Some srvs ∧ IsMember demo_config g = true.
Proof.
  apply (key_has_servers demo_config "x"); [reflexivity|done|vm_compute; reflexivity].
Defined.
