(* ===== verification/RfSrv.v ===== *)
(** * The Raft test service and its checks

    [src/src/raft1/server.go], [proxy.go] and [test.go]: the service that
    consumes [applyCh], takes snapshots and reports every command to the tester,
    and the tester's checks on what the services report.  An error message is a
    value of [ErrMsg] with the arguments of its format. *)
From S2P Require Import Prelude Persister Raft.

Definition SnapShotInterval : Z := 10.

Inductive ErrMsg (Cmd : Type) :=
| NoErr
| ErrRPC
| CommitDiffers (index server : Z) (v : option Cmd) (other : Z) (old : option Cmd)
| OutOfOrder (server index : Z)
| OutOfOrderExpected (server expected index : Z)
| NilSnapshot
| DecodeFailed
| IndexMismatch (server : Z).
Arguments NoErr {Cmd}.
Arguments ErrRPC {Cmd}.
Arguments CommitDiffers {Cmd}.
Arguments OutOfOrder {Cmd}.
Arguments OutOfOrderExpected {Cmd}.
Arguments NilSnapshot {Cmd}.
Arguments DecodeFailed {Cmd}.
Arguments IndexMismatch {Cmd}.

#[export] Instance ErrMsg_eq_dec {Cmd} `{!EqDecision Cmd} : EqDecision (ErrMsg Cmd).
Proof. solve_decision. Defined.

(** ** The tester *)

(** The tester's copy of what server [i] has committed. *)
Record raftServer (Cmd : Type) := MkRaftServer {
  applyErr : ErrMsg Cmd;
  logs : gmap Z (option Cmd);
}.
Arguments MkRaftServer {Cmd}.
Arguments applyErr {Cmd}.
Arguments logs {Cmd}.

Record Test (Cmd : Type) := MkTest { srvs : list (raftServer Cmd); maxIndex : Z }.
Arguments MkTest {Cmd}.
Arguments srvs {Cmd}.
Arguments maxIndex {Cmd}.

(** A call of the tester by a service: executed and answered, executed with
    the answer lost, or not executed. *)
Inductive RpcFate := RpcDone | RpcReplyLost | RpcNotSent.

(** ** The service *)

Record rfsrv (Cmd : Type) := MkRfsrv {
  rs_me : Z;
  rs_lastApplied : Z;
  rs_log : gmap Z (option Cmd);
}.
Arguments MkRfsrv {Cmd}.
Arguments rs_me {Cmd}.
Arguments rs_lastApplied {Cmd}.
Arguments rs_log {Cmd}.

Section RfSrv.
Context {Cmd : Type} `{!Gob Cmd, !EqDecision Cmd}.
Implicit Types (ts : Test Cmd) (rs : rfsrv Cmd) (m : ApplyMsg Cmd).

Definition newRaftServer : raftServer Cmd := MkRaftServer NoErr ∅.

Definition makeTest (n : Z) : Test Cmd := MkTest (replicate (Z.to_nat n) newRaftServer) 0.

Definition entry (s : raftServer Cmd) (i : Z) : option (option Cmd) := logs s !! i.

Definition set_srv ts (i : Z) (s : raftServer Cmd) : option (Test Cmd) :=
  l ← go_set (srvs ts) i s; Some (MkTest l (maxIndex ts)).

(** One server of the loop in [CheckLogs]. *)
Definition check_entry (i k : Z) (v : option Cmd) (err : ErrMsg Cmd) (j : Z)
    (s : raftServer Cmd) : ErrMsg Cmd :=
  match entry s k with
  | Some old => if decide (old ≠ v) then CommitDiffers k i v j old else err
  | None => err
  end.

(** [m.Command] and [m.CommandIndex]; both are zero in a snapshot message. *)
Definition msg_Command m : option Cmd :=
  match m with CommandMsg v _ => v | SnapshotMsg _ _ _ => None end.
Definition msg_CommandIndex m : Z :=
  match m with CommandMsg _ k => k | SnapshotMsg _ _ _ => 0 end.

Definition CheckLogs (i : Z) m ts : option (Test Cmd * (ErrMsg Cmd * bool)) :=
  let v := msg_Command m in
  let k := msg_CommandIndex m in
  me ← go_index (srvs ts) i;
  let err := foldl (λ err '(j, s), check_entry i k v err (Z.of_nat j) s) NoErr
               (imap pair (srvs ts)) in
  let prevok := bool_decide (is_Some (entry me (k - 1))) in
  ts ← set_srv ts i (MkRaftServer (applyErr me) (<[k := v]> (logs me)));
  Some (MkTest (srvs ts) (if decide (k > maxIndex ts) then k else maxIndex ts), (err, prevok)).

(** Every entry of [xlog] is copied. *)
Definition IngestLog (i : Z) (xlog : gmap Z (option Cmd)) ts : option (Test Cmd) :=
  me ← go_index (srvs ts) i; set_srv ts i (MkRaftServer (applyErr me) xlog).

Definition ApplyErr (i : Z) (err : ErrMsg Cmd) ts : option (Test Cmd) :=
  me ← go_index (srvs ts) i; set_srv ts i (MkRaftServer err (logs me)).

(** *** proxy.go *)

Definition call_CheckLogs (f : RpcFate) (i : Z) m ts
    : option (Test Cmd * (ErrMsg Cmd * bool)) :=
  match f with
  | RpcNotSent => Some (ts, (ErrRPC, false))
  | RpcReplyLost => '(ts, _) ← CheckLogs i m ts; Some (ts, (ErrRPC, false))
  | RpcDone => CheckLogs i m ts
  end.

Definition call_IngestLog (f : RpcFate) (i : Z) (xlog : gmap Z (option Cmd)) ts
    : option (Test Cmd) :=
  match f with RpcNotSent => Some ts | _ => IngestLog i xlog ts end.

Definition call_ApplyErr (f : RpcFate) (i : Z) (err : ErrMsg Cmd) ts : option (Test Cmd) :=
  match f with RpcNotSent => Some ts | _ => ApplyErr i err ts end.

(** *** server.go *)

(** [Start] and [GetState] of the service; [None] is a nil [rs.raft], which
    [GetState] would dereference. *)
Definition rs_Start (start : Raft Cmd → option (Raft Cmd * (Z * Z * bool)))
    (raft : option (Raft Cmd)) : option (option (Raft Cmd) * (Z * Z * bool)) :=
  match raft with
  | None => Some (None, (0, 0, false))
  | Some rf => '(rf, r) ← start rf; Some (Some rf, r)
  end.

Definition rs_GetState (raft : option (Raft Cmd)) : option (Z * bool) := GetState <$> raft.

(** A message of [applyCh] without snapshots. *)
Definition applier_step (f fe : RpcFate) m rs ts : option (Test Cmd) :=
  match m with
  | SnapshotMsg _ _ _ => Some ts
  | CommandMsg _ k =>
      '(ts, (err, prevok)) ← call_CheckLogs f (rs_me rs) m ts;
      let err := if decide (k > 1 ∧ prevok = false) then OutOfOrder (rs_me rs) k else err in
      if decide (err ≠ NoErr) then call_ApplyErr fe (rs_me rs) err ts else Some ts
  end.

(** [xlog]: a missing entry of [rs.log] reads as nil. *)
Definition snapshot_log rs (k : Z) : list (option Cmd) :=
  (λ j, default None (rs_log rs !! j)) <$> seqZ 0 (k + 1).

Definition make_snapshot rs (k : Z) : bytes :=
  gob_encode [GobInt k; GobCmds (snapshot_log rs k)].

(** [rs.log] after the loop over [xlog]. *)
Definition log_of (xlog : list (option Cmd)) : gmap Z (option Cmd) :=
  list_to_map (imap (λ j v, (Z.of_nat j, v)) xlog).

(** A [SnapshotMsg] never has nil data: [None] below is a nil slice. *)
Definition ingestSnap (snapshot : option bytes) (index : Z) rs : rfsrv Cmd * ErrMsg Cmd :=
  match snapshot with
  | None => (rs, NilSnapshot)
  | Some b =>
      match gob_decode b with
      | GobInt last :: GobCmds xlog :: _ =>
          if decide (index ≠ -1 ∧ index ≠ last) then (rs, IndexMismatch (rs_me rs))
          else (MkRfsrv (rs_me rs) last (log_of xlog), NoErr)
      | _ => (rs, DecodeFailed)
      end
  end.

(** The command branch of [applierSnap] up to the call of [CheckLogs]. *)
Definition check_command (f : RpcFate) m (k : Z) rs ts : option (Test Cmd * ErrMsg Cmd) :=
  if decide (k ≠ rs_lastApplied rs + 1) then
    Some (ts, OutOfOrderExpected (rs_me rs) (rs_lastApplied rs + 1) k)
  else
    '(ts, (err, prevok)) ← call_CheckLogs f (rs_me rs) m ts;
    Some (ts, if decide (err ≠ ErrRPC ∧ k > 1 ∧ prevok = false) then OutOfOrder (rs_me rs) k
              else err).

Definition record_command (v : option Cmd) (k : Z) rs : rfsrv Cmd :=
  MkRfsrv (rs_me rs) k (<[k := v]> (rs_log rs)).

(** The call of [rf.Snapshot] after command [k], if any. *)
Definition take_snapshot (k : Z) rs : option (Z * bytes) :=
  if decide ((k + 1) `rem` SnapShotInterval = 0) then Some (k, make_snapshot rs k) else None.

(** A message of [applyCh] with snapshots: [f] is the fate of the call of
    [CheckLogs] or [IngestLog], [fe] that of [ApplyErr]. *)
Definition applierSnap_step (f fe : RpcFate) m rs ts
    : option (rfsrv Cmd * Test Cmd * option (Z * bytes)) :=
  '(rs, ts, err, snap) ←
    match m with
    | SnapshotMsg b idx _ =>
        let '(rs, err) := ingestSnap (Some b) idx rs in
        ts ← call_IngestLog f (rs_me rs) (rs_log rs) ts;
        Some (rs, ts, err, None)
    | CommandMsg v k =>
        '(ts, err) ← check_command f m k rs ts;
        let rs := record_command v k rs in
        Some (rs, ts, err, take_snapshot k rs)
    end;
  ts ← (if decide (err ≠ NoErr) then call_ApplyErr fe (rs_me rs) err ts else Some ts);
  Some (rs, ts, snap).

(** The loop of [applierSnap] over the messages it receives; the [Snapshot]
    calls it makes come last. *)
Fixpoint applierSnap (msgs : list (RpcFate * RpcFate * ApplyMsg Cmd)) rs ts
    : option (rfsrv Cmd * Test Cmd * list (Z * bytes)) :=
  match msgs with
  | [] => Some (rs, ts, [])
  | (f, fe, m) :: msgs =>
      '(rs, ts, snap) ← applierSnap_step f fe m rs ts;
      '(rs, ts, snaps) ← applierSnap msgs rs ts;
      Some (rs, ts, option_list snap ++ snaps)
  end.

(** [newRfsrv]: the service, the tester and the peer; [None] is [log.Fatalf]
    after a snapshot that does not decode. *)
Definition newRfsrv (f : RpcFate) (n srv : Z) (ps : Persister) (snapshot : bool)
    (now draw : Z) ts : option (rfsrv Cmd * Test Cmd * Raft Cmd) :=
  let sn := ReadSnapshot ps in
  let s := MkRfsrv srv 0 ∅ in
  let rf := Make n srv ps now draw in
  if decide (snapshot = true ∧ len sn > 0) then
    match ingestSnap (Some sn) (-1) s with
    | (s, NoErr) => ts ← call_IngestLog f srv (rs_log s) ts; Some (s, ts, rf)
    | _ => None
    end
  else Some (s, ts, rf).
End RfSrv.

(** The answer of [checkOneLeader], or the reason it fails. *)
Inductive OneLeader := IsLeader (i : Z) | ManyLeaders | NoLeader | IndexPanic.

(** ** The tester's checks

    [None] is a failed test ([Fatalf]). *)
Section Checks.
Context {Cmd : Type} `{!EqDecision Cmd}.
Implicit Types ts : Test Cmd.

(** *** Agreement *)

Fixpoint nCommitted_from (index : Z) (l : list (raftServer Cmd)) (count : Z)
    (cmd : option Cmd) : option (Z * option Cmd) :=
  match l with
  | [] => Some (count, cmd)
  | s :: l =>
      if decide (applyErr s ≠ NoErr) then None
      else match entry s index with
      | Some cmd1 =>
          if decide (count > 0 ∧ cmd ≠ cmd1) then None
          else nCommitted_from index l (count + 1) cmd1
      | None => nCommitted_from index l count cmd
      end
  end.

Definition nCommitted (index : Z) ts : option (Z * option Cmd) :=
  nCommitted_from index (srvs ts) 0 None.

Definition checkNoAgreement (index : Z) ts : option unit :=
  '(n, _) ← nCommitted index ts; if decide (n > 0) then None else Some ().

(** One round of [one] over the servers, from [starts] on: [start i] is what
    server [i] answers to [Start], [None] when it is not connected or down.  The
    result is the new [starts] and the index, -1 for none. *)
Fixpoint one_start (k : nat) (n starts : Z) (start : Z → option (Z * bool)) : Z * Z :=
  match k with
  | O => (starts, -1)
  | S k =>
      let starts := (starts + 1) `mod` n in
      match start starts with
      | Some (index1, true) => (starts, index1)
      | _ => one_start k n starts start
      end
  end.

(** The polling of [one]: [seen] are the states of the tester at the polls.
    The result tells whether the command was seen committed. *)
Fixpoint one_poll (cmd : option Cmd) (expected index : Z) (seen : list (Test Cmd))
    : option bool :=
  match seen with
  | [] => Some false
  | ts :: seen =>
      '(nd, cmd1) ← nCommitted index ts;
      if decide (nd > 0 ∧ nd >= expected ∧ cmd1 = cmd) then Some true
      else one_poll cmd expected index seen
  end.

(** [one]: one element of [rounds] per round of the ten seconds, with the
    answers to [Start] and the states polled after it; [finished] at the end. *)
Fixpoint one (cmd : option Cmd) (n expected : Z) (retry finished : bool) (starts : Z)
    (rounds : list ((Z → option (Z * bool)) * list (Test Cmd))) : option Z :=
  match rounds with
  | [] => if finished then Some (-1) else None
  | (start, seen) :: rounds =>
      let '(starts, index) := one_start (Z.to_nat n) n starts start in
      if decide (index ≠ -1) then
        done ← one_poll cmd expected index seen;
        if done : bool then Some index
        else if retry then one cmd n expected retry finished starts rounds
        else None
      else one cmd n expected retry finished starts rounds
  end.

(** The count that ends [wait]. *)
Definition wait_end (index n : Z) (ts : Test Cmd) : option (option (option Cmd)) :=
  '(nd, cmd) ← nCommitted index ts;
  if decide (nd < n) then None else Some (Some cmd).

(** [wait]: the states and the terms of the servers at each of at most 30
    polls, then the state of the last count.  [Some (Some cmd)] is a command,
    [Some None] the answer -1 after some server moved on. *)
Fixpoint wait (index n startTerm : Z) (polls : list (Test Cmd * list Z)) (ts : Test Cmd)
    : option (option (option Cmd)) :=
  match polls with
  | [] => wait_end index n ts
  | (ts1, terms) :: polls =>
      '(nd, _) ← nCommitted index ts1;
      if decide (nd >= n) then wait_end index n ts
      else if decide (startTerm > -1 ∧ Exists (λ t, t > startTerm) terms) then Some None
      else wait index n startTerm polls ts
  end.

(** *** Leaders

    An observation lists, per server, the answer of [GetState]; [None] when the
    server is not connected. *)
Definition leaders_step (m : gmap Z (list Z)) (o : nat * option (Z * bool)) : gmap Z (list Z) :=
  match o with
  | (i, Some (term, true)) => <[term := default [] (m !! term) ++ [Z.of_nat i]]> m
  | _ => m
  end.

Definition leaders_of (obs : list (option (Z * bool))) : gmap Z (list Z) :=
  foldl leaders_step ∅ (imap pair obs).

(** [lastTermWithLeader]; the order in which the map is visited does not
    matter. *)
Definition last_term (leaders : gmap Z (list Z)) : Z :=
  foldl (λ last '((term, _) : Z * list Z), if decide (term > last) then term else last)
    (-1) (map_to_list leaders).

Fixpoint checkOneLeader (rounds : list (list (option (Z * bool)))) : OneLeader :=
  match rounds with
  | [] => NoLeader
  | obs :: rounds =>
      let leaders := leaders_of obs in
      if existsb (λ p : Z * list Z, bool_decide (len p.2 > 1)) (map_to_list leaders) then ManyLeaders
      else if decide (Z.of_nat (size leaders) ≠ 0) then
        match go_index (default [] (leaders !! last_term leaders)) 0 with
        | Some i => IsLeader i
        | None => IndexPanic
        end
      else checkOneLeader rounds
  end.

Definition checkTerms (obs : list (option (Z * bool))) : option Z :=
  foldl (λ o x, term ← o;
    match x with
    | Some (xterm, _) =>
        if decide (term = -1) then Some xterm
        else if decide (term ≠ xterm) then None else Some term
    | None => Some term
    end) (Some (-1)) obs.

Definition checkNoLeader (obs : list (option (Z * bool))) : option unit :=
  foldl (λ o x, _ ← o;
    match x with Some (_, true) => None | _ => Some () end) (Some ()) obs.
End Checks.
