(* ===== verification/RfSrvTheorems.v ===== *)
(** * The test service in order, and what the tester's checks show

    Theorems about [RfSrv.v]: what [CheckLogs] and [nCommitted] accept, that a
    service fed in order never reports a gap, that its snapshots restore its
    log, and that [checkOneLeader] never sees two leaders. *)
From S2P Require Import Prelude Persister Raft RaftNode RaftTheorems GobString RaftApply.
From S2P Require Import RaftNet RaftElection RfSrv.

Section Checks.
Context {Cmd : Type} `{!EqDecision Cmd}.
Implicit Types ts : Test Cmd.

(** ** The tester's copies *)

(** No two servers have reported different commands at one index. *)
Definition committed_alike ts : Prop :=
  ∀ s s' k v v', s ∈ srvs ts → s' ∈ srvs ts → logs s !! k = Some v → logs s' !! k = Some v' → v = v'.

(** Every server that reported a command at [k] reported [v]. *)
Definition reported ts (k : Z) (v : option Cmd) : Prop :=
  ∀ s old, s ∈ srvs ts → logs s !! k = Some old → old = v.

Lemma check_fold i k v (l : list (raftServer Cmd)) (n : nat) err :
  foldl (λ err '(j, s), check_entry i k v err (Z.of_nat j) s) err (imap (λ j, pair (n + j)%nat) l)
    = NoErr ↔
  (∀ s old, s ∈ l → logs s !! k = Some old → old = v) ∧ err = NoErr.
Proof.
  revert n err. induction l as [|s l IH]; intros n err.
  - simpl. split; [|tauto]. intros ->. split; [|done]. intros s old Hs. by apply not_elem_of_nil in Hs.
  - rewrite imap_cons. cbn [foldl].
    rewrite (imap_ext _ (λ j, pair (S n + j)%nat)) by (intros; simpl; f_equal; lia).
    rewrite IH. unfold check_entry, entry.
    destruct (logs s !! k) as [old|] eqn:Hold.
    + case_decide as Hne.
      * split; [by intros [_ ?]|]. intros [Hall _]. destruct Hne. apply (Hall s); [apply elem_of_cons; by left|done].
      * subst old. split; intros [Hall ->]; (split; [|done]); intros s' o Hs Ho.
        -- apply elem_of_cons in Hs as [->|Hs]; [congruence|by apply (Hall s')].
        -- apply (Hall s'); [apply elem_of_cons; by right|done].
    + split; intros [Hall ->]; (split; [|done]); intros s' o Hs Ho.
      * apply elem_of_cons in Hs as [->|Hs]; [congruence|by apply (Hall s')].
      * apply (Hall s'); [apply elem_of_cons; by right|done].
Qed.

Lemma set_srv_spec ts i s s0 :
  go_index (srvs ts) i = Some s0 →
  ∃ ts', set_srv ts i s = Some ts' ∧ srvs ts' = <[Z.to_nat i := s]> (srvs ts) ∧
    maxIndex ts' = maxIndex ts.
Proof.
  intros Hi%go_index_lt. unfold set_srv. rewrite go_set_some by done. simpl. by eexists.
Qed.
Lemma reported_insert ts i s0 me k v (l : list (raftServer Cmd)) :
  l = <[i := MkRaftServer me (<[k := v]> (logs s0))]> (srvs ts) → s0 ∈ srvs ts →
  reported ts k v → committed_alike ts →
  ∀ s s' j w w', s ∈ l → s' ∈ l → logs s !! j = Some w → logs s' !! j = Some w' → w = w'.
Proof.
  intros -> H0 Hrep Hal s s' j w w'.
  assert (∀ s, s ∈ <[i := MkRaftServer me (<[k := v]> (logs s0))]> (srvs ts) →
    ∀ j w, logs s !! j = Some w → j = k ∧ w = v ∨ ∃ x, x ∈ srvs ts ∧ logs x !! j = Some w) as Hin.
  { intros x [n Hx]%list_elem_of_lookup y z. apply list_lookup_insert_Some in Hx
      as [(-> & <- & _)|[_ Hx%list_elem_of_lookup_2]]; [|by eauto].
    simpl. intros [[-> ->]|[_ Hy]]%lookup_insert_Some; eauto. }
  intros Hs Hs' Hw Hw'.
  destruct (Hin s Hs j w Hw) as [[-> ->]|(x & Hx & Hxw)],
    (Hin s' Hs' _ w' Hw') as [[? ->]|(x' & Hx' & Hxw')]; subst; try done.
  - symmetry. by apply (Hrep x').
  - by apply (Hrep x).
  - by apply (Hal x x' j).
Qed.

(** [CheckLogs] reports an error exactly when some server has reported a
    different command at the index, tells whether the server has reported the
    index before, records the command in any case, and keeps the reports alike
    unless it reports an error. *)
Theorem CheckLogs_spec i (m : ApplyMsg Cmd) ts me :
  go_index (srvs ts) i = Some me →
  ∃ ts' err prevok, CheckLogs i m ts = Some (ts', (err, prevok)) ∧
    (err = NoErr ↔ reported ts (msg_CommandIndex m) (msg_Command m)) ∧
    (prevok = true ↔ is_Some (logs me !! (msg_CommandIndex m - 1))) ∧
    (∃ me', go_index (srvs ts') i = Some me' ∧ applyErr me' = applyErr me ∧
       logs me' = <[msg_CommandIndex m := msg_Command m]> (logs me)) ∧
    maxIndex ts' = maxIndex ts `max` msg_CommandIndex m ∧
    (committed_alike ts → err = NoErr → committed_alike ts').
Proof.
  intros Hi. unfold CheckLogs. rewrite Hi. cbn [mbind option_bind].
  destruct (set_srv_spec ts i (MkRaftServer (applyErr me)
    (<[msg_CommandIndex m := msg_Command m]> (logs me))) me Hi) as (ts1 & -> & Hs & Hmax).
  cbn [mbind option_bind]. do 3 eexists. split; [done|].
  pose proof (check_fold i (msg_CommandIndex m) (msg_Command m) (srvs ts) 0 NoErr) as Hf.
  assert (∀ P Q : Prop, (P ↔ Q ∧ @NoErr Cmd = NoErr) → (P ↔ Q)) as Hand by naive_solver.
  apply Hand in Hf. change (imap (λ j, pair (0 + j)%nat) (srvs ts)) with (imap pair (srvs ts)) in Hf.
  split; [exact Hf|]. split; [by rewrite bool_decide_eq_true|]. cbn [srvs maxIndex].
  split; [|split].
  - rewrite Hs. exists (MkRaftServer (applyErr me) (<[msg_CommandIndex m := msg_Command m]> (logs me))).
    split; [|by split]. pose proof (go_index_lt _ _ _ Hi).
    apply go_index_lookup. unfold len in *. split; [lia|]. apply list_lookup_insert_eq. lia.
  - rewrite Hmax. case_decide; lia.
  - intros Hal Hok. pose proof (proj1 Hf Hok) as Hrep. apply go_index_lookup in Hi as [_ Hi%list_elem_of_lookup_2].
    unfold committed_alike. cbn [srvs]. by eapply reported_insert.
Qed.

(** The servers that have reported index [k]. *)
Definition reporters ts (k : Z) : list (raftServer Cmd) :=
  filter (λ s, is_Some (logs s !! k)) (srvs ts).

Lemma nCommitted_from_spec k (l : list (raftServer Cmd)) count cmd :
  (∀ s, s ∈ l → applyErr s = NoErr) →
  (∀ s s' v v', s ∈ l → s' ∈ l → logs s !! k = Some v → logs s' !! k = Some v' → v = v') →
  (count > 0 → ∀ s v, s ∈ l → logs s !! k = Some v → v = cmd) → 0 <= count →
  ∃ cmd', nCommitted_from k l count cmd =
      Some (count + len (filter (λ s, is_Some (logs s !! k)) l), cmd') ∧
    (count > 0 → cmd' = cmd) ∧ ∀ s v, s ∈ l → logs s !! k = Some v → v = cmd'.
Proof.
  revert count cmd. induction l as [|s l IH]; intros count cmd Herr Hal Hcmd Hc.
  - exists cmd. split; [cbn; f_equal; f_equal; unfold len; simpl; lia|].
    split; [done|]. intros s v []%not_elem_of_nil.
  - cbn [nCommitted_from]. rewrite decide_False by (rewrite Herr; [tauto|by apply elem_of_cons; left]).
    rewrite filter_cons. unfold entry.
    assert (s ∈ s :: l) as Hs by (apply elem_of_cons; by left).
    assert (∀ x : raftServer Cmd, x ∈ l → x ∈ s :: l) as Hl by (intros; apply elem_of_cons; by right).
    destruct (logs s !! k) as [v|] eqn:Hv.
    + rewrite decide_False by (intros [Hpos Hne]; by rewrite (Hcmd Hpos s v Hs Hv) in Hne).
      destruct (IH (count + 1) v) as (cmd' & -> & Heq & Hall); [by auto|by eauto| |lia|].
      { intros _ s' v' Hs' Hv'. by apply (Hal s' s v' v); auto. }
      exists cmd'. rewrite decide_True by eauto. rewrite len_cons.
      split; [do 2 f_equal; lia|]. rewrite (Heq ltac:(lia)). split; [by intros; eapply Hcmd|].
      intros s' v' Hs' Hv'. by apply (Hal s' s v' v).
    + destruct (IH count cmd) as (cmd' & -> & Heq & Hall); [by auto|by eauto|by eauto|done|].
      exists cmd'. rewrite decide_False by (by intros [? ?]). split; [done|]. split; [done|].
      intros s' v' [->|Hs']%elem_of_cons Hv'; [congruence|by eauto].
Qed.

(** As long as the reports are alike and no service has reported an error,
    [nCommitted] does not fail the test: it counts the servers that have
    reported the index, and returns the command all of them reported. *)
Theorem nCommitted_spec ts k :
  committed_alike ts → (∀ s, s ∈ srvs ts → applyErr s = NoErr) →
  ∃ cmd, nCommitted k ts = Some (len (reporters ts k), cmd) ∧ reported ts k cmd.
Proof.
  intros Hal Herr. destruct (nCommitted_from_spec k (srvs ts) 0 None) as (cmd & Heq & _ & Hall);
    [done|by intros s s' v v' ??; eapply Hal|lia|lia|].
  by exists cmd.
Qed.
End Checks.

(** ** A service that is fed in order *)

Section Service.
Context {Cmd : Type} `{!Gob Cmd, !GobLaws Cmd, !EqDecision Cmd}.
Implicit Types (ts : Test Cmd) (rs : rfsrv Cmd) (m : ApplyMsg Cmd).

(** A snapshot up to [idx] as the services encode it. *)
Definition valid_snapshot (b : bytes) (idx : Z) : Prop :=
  0 <= idx ∧ ∃ xlog rest, gob_decode b = GobInt idx :: GobCmds xlog :: rest ∧ len xlog = idx + 1.

Definition valid_msg m : Prop :=
  match m with SnapshotMsg b idx _ => valid_snapshot b idx | _ => True end.

(** The service has every command it has applied. *)
Definition rs_ok rs : Prop :=
  0 <= rs_lastApplied rs ∧ ∀ k, 1 <= k <= rs_lastApplied rs → is_Some (rs_log rs !! k).

(** The tester's copy is the service's log, and the only error the service may
    have reported is a disagreement with another server. *)
Definition tracked rs ts : Prop :=
  ∃ s, go_index (srvs ts) (rs_me rs) = Some s ∧ logs s = rs_log rs ∧
    match applyErr s with NoErr | CommitDiffers _ _ _ _ _ => True | _ => False end.

Definition msg_index m : Z := match m with CommandMsg _ k => k | SnapshotMsg _ k _ => k end.

Lemma log_of_lookup (xlog : list (option Cmd)) k :
  0 <= k → log_of xlog !! k = xlog !! Z.to_nat k.
Proof.
  intros Hk. unfold log_of. apply option_eq. intros v.
  rewrite <-elem_of_list_to_map.
  - rewrite list_elem_of_lookup. setoid_rewrite list_lookup_imap_Some. split.
    + intros (i & w & Hw & [= -> ->]). by rewrite Nat2Z.id.
    + intros Hv. exists (Z.to_nat k), v. by rewrite Z2Nat.id.
  - rewrite fmap_imap. apply list.NoDup_alt. intros i j x.
    rewrite !list_lookup_imap_Some. intros (? & _ & ->) (? & _ & Hx). simpl in Hx. lia.
Qed.

Lemma ingestSnap_valid b idx rs :
  valid_snapshot b idx →
  ∃ l, ingestSnap (Some b) idx rs = (MkRfsrv (rs_me rs) idx l, NoErr) ∧
    rs_ok (MkRfsrv (rs_me rs) idx l).
Proof.
  intros (Hidx & xlog & rest & Hb & Hlen). unfold ingestSnap. rewrite Hb.
  rewrite decide_False by tauto. eexists. split; [done|]. split; [done|]. cbn.
  intros k Hk. rewrite log_of_lookup by lia. apply lookup_lt_is_Some. unfold len in *. lia.
Qed.

Lemma snapshot_restores rs rs0 k idx :
  rs_ok rs → 0 <= k <= rs_lastApplied rs → idx = k ∨ idx = -1 →
  valid_snapshot (make_snapshot rs k) k ∧
  ∃ rs', ingestSnap (Some (make_snapshot rs k)) idx rs0 = (rs', NoErr) ∧
    rs_lastApplied rs' = k ∧ rs_me rs' = rs_me rs0 ∧ rs_ok rs' ∧
    ∀ j, 1 <= j <= k → rs_log rs' !! j = rs_log rs !! j.
Proof.
  intros [_ Hlog] Hk Hidx.
  assert (valid_snapshot (make_snapshot rs k) k) as Hval.
  { split; [lia|]. exists (snapshot_log rs k), []. unfold make_snapshot. rewrite gob_roundtrip.
    split; [done|]. unfold snapshot_log, len. rewrite length_fmap, length_seqZ. lia. }
  split; [done|]. destruct (ingestSnap_valid _ _ rs0 Hval) as (l & Hin & Hok).
  unfold make_snapshot, ingestSnap in *. rewrite gob_roundtrip in *.
  rewrite decide_False in Hin by tauto. injection Hin as <-.
  rewrite decide_False by lia. eexists. split; [done|]. split; [done|]. split; [done|].
  split; [done|]. intros j Hj. cbn. rewrite log_of_lookup by lia. unfold snapshot_log.
  rewrite list_lookup_fmap, lookup_seqZ_lt by lia. cbn. rewrite Z2Nat.id by lia.
  destruct (Hlog j) as [v Hv]; [lia|]. by rewrite Z.add_0_l, Hv.
Qed.

(** Snapshots of the service round-trip: a service that reads back the
    snapshot another one made at index [k] ends with [lastApplied] [k] and the
    same commands up to [k], and accepts it both from Raft and at start. *)
Theorem snapshot_roundtrip rs rs0 k idx :
  rs_ok rs → 0 <= k <= rs_lastApplied rs → idx = k ∨ idx = -1 →
  valid_snapshot (make_snapshot rs k) k ∧
  ∃ rs', ingestSnap (Some (make_snapshot rs k)) idx rs0 = (rs', NoErr) ∧
    rs_lastApplied rs' = k ∧ rs_me rs' = rs_me rs0 ∧ rs_ok rs' ∧
    ∀ j, 1 <= j <= k → rs_log rs' !! j = rs_log rs !! j.
Proof. apply snapshot_restores. Qed.

Lemma report_tracked err rs ts :
  tracked rs ts → (match err with NoErr | CommitDiffers _ _ _ _ _ => True | _ => False end) →
  ∃ ts1, (if decide (err ≠ NoErr) then call_ApplyErr RpcDone (rs_me rs) err ts else Some ts) =
    Some ts1 ∧ tracked rs ts1.
Proof.
  intros (s & Hs & Hl & He) Herr. case_decide; [|by exists ts; split; [|exists s]].
  unfold call_ApplyErr, ApplyErr. rewrite Hs. cbn [mbind option_bind].
  destruct (set_srv_spec ts (rs_me rs) (MkRaftServer err (logs s)) s Hs) as (ts1 & -> & Hs1 & _).
  exists ts1. split; [done|]. exists (MkRaftServer err (logs s)).
  split; [|by split]. rewrite Hs1. pose proof (go_index_lt _ _ _ Hs). apply go_index_lookup.
  unfold len in *. split; [lia|]. apply list_lookup_insert_eq. lia.
Qed.

Lemma check_fold_shape i k v (l : list (nat * raftServer Cmd)) err :
  match err with NoErr | CommitDiffers _ _ _ _ _ => True | _ => False end →
  match foldl (λ err '(j, s), check_entry i k v err (Z.of_nat j) s) err l with
  | NoErr | CommitDiffers _ _ _ _ _ => True
  | _ => False
  end.
Proof.
  revert err. induction l as [|[j s] l IH]; intros err Herr; [done|]. cbn [foldl]. apply IH.
  unfold check_entry. destruct (entry s k); [|done]. by case_decide.
Qed.
(** One message in order, with calls that arrive. *)
Lemma applierSnap_step_in_order m rs ts :
  rs_ok rs → tracked rs ts → in_order (rs_lastApplied rs) [m] → valid_msg m →
  ∃ rs' ts' snap, applierSnap_step RpcDone RpcDone m rs ts = Some (rs', ts', snap) ∧
    rs_ok rs' ∧ tracked rs' ts' ∧ rs_lastApplied rs' = msg_index m ∧
    Forall (λ p : Z * bytes, p.1 = msg_index m ∧ valid_snapshot p.2 p.1 ∧
      (p.1 + 1) `rem` SnapShotInterval = 0) (option_list snap).
Proof.
  intros Hok Htr Hord Hval. pose proof Htr as (s & Hs & Hl & He). unfold applierSnap_step.
  destruct m as [v k|b idx term]; cbn [in_order] in Hord; destruct Hord as [Hord _].
  - unfold check_command. rewrite decide_False by lia. cbn [call_CheckLogs].
    unfold CheckLogs. cbn [msg_Command msg_CommandIndex]. rewrite Hs. cbn [mbind option_bind].
    destruct (set_srv_spec ts (rs_me rs) (MkRaftServer (applyErr s) (<[k:=v]> (logs s))) s Hs)
      as (ts1 & -> & Hs1 & _). cbn [mbind option_bind].
    pose proof (check_fold_shape (rs_me rs) k v (imap pair (srvs ts)) NoErr I) as Hshape.
    set (err := foldl _ _ _) in *. clearbody err. cbn [mbind option_bind].
    rewrite (decide_False (P := err ≠ ErrRPC ∧ _)); last first.
    { intros (_ & Hk & Hp%bool_decide_eq_false). apply Hp. unfold entry. rewrite Hl.
      apply Hok. lia. }
    set (rs' := record_command v k rs).
    assert (tracked rs' (MkTest (srvs ts1) (if decide (k > maxIndex ts1) then k else maxIndex ts1)))
      as Htr'.
    { exists (MkRaftServer (applyErr s) (<[k:=v]> (logs s))). cbn. rewrite Hs1, Hl.
      split; [|by split]. pose proof (go_index_lt _ _ _ Hs). apply go_index_lookup.
      unfold len in *. split; [lia|]. apply list_lookup_insert_eq. lia. }
    assert (rs_ok rs') as Hok'.
    { destruct Hok as [Hpos Hlog]. split; [cbn; lia|]. intros j. cbn. intros Hj.
      destruct (decide (j = k)) as [->|]; [by rewrite lookup_insert_eq|].
      rewrite lookup_insert_ne by done. apply Hlog. lia. }
    destruct (report_tracked err _ _ Htr' Hshape) as (ts2 & Hrep & Htr2).
    rewrite Hrep.
    cbn [mbind option_bind]. do 3 eexists. split; [done|]. split; [done|]. split; [done|].
    split; [done|]. clear Hrep. unfold take_snapshot.
    destruct (decide ((k + 1) `rem` SnapShotInterval = 0)) as [Hrem|]; [|constructor].
    apply list.Forall_cons. split; [|constructor]. split; [done|]. split; [|done]. cbn.
    apply (snapshot_restores rs' rs' k k Hok'); [destruct Hok'; cbn in *; lia|by left].
  - destruct (ingestSnap_valid b idx rs Hval) as (l & -> & Hok').
    unfold call_IngestLog, IngestLog. cbn [rs_me rs_log]. rewrite Hs. cbn [mbind option_bind].
    destruct (set_srv_spec ts (rs_me rs) (MkRaftServer (applyErr s) l) s Hs) as (ts1 & -> & Hs1 & _).
    cbn [mbind option_bind]. rewrite decide_False by tauto. cbn [mbind option_bind].
    do 3 eexists. split; [done|]. split; [done|]. split; [|by split].
    exists (MkRaftServer (applyErr s) l). split; [|by split]. cbn. rewrite Hs1.
    pose proof (go_index_lt _ _ _ Hs). apply go_index_lookup. unfold len in *.
    split; [lia|]. apply list_lookup_insert_eq. lia.
Qed.

Definition delivered_ok (m : ApplyMsg Cmd) : RpcFate * RpcFate * ApplyMsg Cmd :=
  (RpcDone, RpcDone, m).

Lemma applierSnap_in_order msgs rs ts :
  rs_ok rs → tracked rs ts → in_order (rs_lastApplied rs) msgs → Forall valid_msg msgs →
  ∃ rs' ts' snaps, applierSnap (delivered_ok <$> msgs) rs ts = Some (rs', ts', snaps) ∧
    rs_ok rs' ∧ tracked rs' ts' ∧
    rs_lastApplied rs' = default (rs_lastApplied rs) (msg_index <$> list.last msgs) ∧
    Forall (λ p : Z * bytes, valid_snapshot p.2 p.1 ∧
      (p.1 + 1) `rem` SnapShotInterval = 0) snaps.
Proof.
  revert rs ts. induction msgs as [|m msgs IH]; intros rs ts Hok Htr Hord Hval.
  - by exists rs, ts, [].
  - apply list.Forall_cons in Hval as [Hm Hval].
    destruct (applierSnap_step_in_order m rs ts Hok Htr) as (rs1 & ts1 & snap & Hst & Hok1 & Htr1 & Hla & Hsn);
      [by destruct m; cbn in *; tauto|done|].
    cbn [applierSnap fmap list_fmap delivered_ok]. rewrite Hst. cbn [mbind option_bind].
    destruct (IH rs1 ts1 Hok1 Htr1) as (rs2 & ts2 & snaps & Hrun & Hok2 & Htr2 & Hla2 & Hsn2);
      [rewrite Hla; by destruct m; cbn in *; tauto|done|].
    rewrite Hrun. cbn [mbind option_bind]. do 3 eexists. split; [done|]. split; [done|].
    split; [done|]. split.
    + rewrite Hla2, Hla, last_cons. by destruct (list.last msgs).
    + apply Forall_app. split; [|done]. eapply list.Forall_impl; [exact Hsn|]. naive_solver.
Qed.

(** Over a Raft peer that runs without a crash and without a stale snapshot,
    the test service never reports a command out of order or a bad snapshot: the
    only error it can report is that another server committed something else.
    It keeps every command it applied, the tester's copy is its log, and every
    snapshot it hands to Raft decodes to that index and log. *)
Theorem service_in_order n id now draw ins (ts : Test Cmd) srv :
  let msgs := deliveries ins (boot n id now draw) in
  never_stale ins (boot n id now draw) → Forall valid_msg msgs →
  go_index (srvs ts) srv = Some newRaftServer →
  ∃ rs' ts' snaps, applierSnap (delivered_ok <$> msgs) (MkRfsrv srv 0 ∅) ts = Some (rs', ts', snaps) ∧
    rs_ok rs' ∧ tracked rs' ts' ∧
    rs_lastApplied rs' = default 0 (msg_index <$> list.last msgs) ∧
    Forall (λ p : Z * bytes, valid_snapshot p.2 p.1 ∧
      (p.1 + 1) `rem` SnapShotInterval = 0) snaps.
Proof.
  intros msgs Hns Hval Hsrv. apply applierSnap_in_order.
  - split; [done|]. cbn. lia.
  - exists newRaftServer. by split.
  - apply order_run; [done|]. by split.
  - done.
Qed.
End Service.

(** ** Concrete runs *)

(** A follower receives nine committed commands and applies them. *)
Definition nine_inputs : list (Input string) :=
  InAppendEntries (MkAEArgs 1 0 0 0 (replicate 9 (MkLogEntry 1 (Some "x"))) 9) 1 ::
  concat (replicate 9 apply_round).

Definition three_servers : Test string := makeTest 3.

Lemma nine_delivered :
  deliveries nine_inputs (boot 3 1 0 0) = (λ k, CommandMsg (Some "x") k) <$> seqZ 1 9.
Proof. vm_compute. reflexivity. Qed.

Lemma service_in_order_witness :
  ∃ rs' ts' snaps,
    applierSnap (delivered_ok <$> deliveries nine_inputs (boot 3 1 0 0)) (MkRfsrv 1 0 ∅) three_servers
      = Some (rs', ts', snaps) ∧
    rs_ok rs' ∧ tracked rs' ts' ∧ rs_lastApplied rs' = 9 ∧
    Forall (λ p : Z * bytes, valid_snapshot (Cmd := string) p.2 p.1 ∧
      (p.1 + 1) `rem` SnapShotInterval = 0) snaps.
Proof.
  destruct (service_in_order 3 1 0 0 nine_inputs three_servers 1)
    as (rs' & ts' & snaps & H1 & H2 & H3 & H4 & H5).
  - vm_compute. repeat split.
  - rewrite nine_delivered. vm_compute. repeat constructor.
  - reflexivity.
  - exists rs', ts', snaps. split; [exact H1|]. split; [exact H2|]. split; [exact H3|].
    split; [|exact H5]. rewrite H4, nine_delivered. reflexivity.
Defined.

Definition demo_service : rfsrv string := MkRfsrv 1 2 {[1 := Some "a"; 2 := Some "b"]}.

Lemma snapshot_roundtrip_witness :
  valid_snapshot (Cmd := string) (make_snapshot demo_service 1) 1 ∧
  ∃ rs', ingestSnap (Some (make_snapshot demo_service 1)) (-1) (MkRfsrv 2 0 ∅) = (rs', NoErr) ∧
    rs_lastApplied rs' = 1 ∧ rs_me rs' = 2 ∧ rs_ok rs' ∧
    ∀ j, 1 <= j <= 1 → rs_log rs' !! j = rs_log demo_service !! j.
Proof.
  apply (snapshot_roundtrip demo_service (MkRfsrv 2 0 ∅) 1 (-1)).
  - split; [done|]. cbn. intros k Hk. assert (k = 1 ∨ k = 2) as [->| ->] by lia; by eexists.
  - cbn. lia.
  - by right.
Defined.

(** Server 0 has reported "a" at index 1. *)
Definition reported_a : Test string :=
  MkTest [MkRaftServer NoErr {[1 := Some "a"]}; newRaftServer; newRaftServer] 1.

Lemma CheckLogs_spec_witness :
  ∃ ts' err prevok, CheckLogs 1 (CommandMsg (Some "b") 1) reported_a = Some (ts', (err, prevok)) ∧
    err ≠ NoErr.
Proof.
  destruct (CheckLogs_spec 1 (CommandMsg (Some "b") 1) reported_a newRaftServer eq_refl)
    as (ts' & err & prevok & H1 & H2 & _).
  exists ts', err, prevok. split; [exact H1|]. intros Herr. apply (proj1 H2) in Herr as Hr.
  clear -Hr. by specialize (Hr (MkRaftServer NoErr {[1 := Some "a"]}) (Some "a") ltac:(by left) eq_refl).
Defined.

Lemma nCommitted_spec_witness :
  ∃ cmd, nCommitted 1 reported_a = Some (1, cmd) ∧ reported reported_a 1 cmd.
Proof.
  apply (nCommitted_spec reported_a 1).
  - intros s s' k v v' Hs Hs' Hv Hv'. unfold reported_a in Hs, Hs'. cbn in Hs, Hs'.
    repeat (apply elem_of_cons in Hs as [->|Hs]; [|]); repeat (apply elem_of_cons in Hs' as [->|Hs']; [|]);
      try (by apply not_elem_of_nil in Hs); try (by apply not_elem_of_nil in Hs');
      cbn in Hv, Hv'; try (by rewrite lookup_empty in Hv); try (by rewrite lookup_empty in Hv').
    rewrite Hv in Hv'. by injection Hv'.
  - intros s Hs. unfold reported_a in Hs. cbn in Hs.
    repeat (apply elem_of_cons in Hs as [->|Hs]; [done|]). by apply not_elem_of_nil in Hs.
Defined.
