(* ===== verification/RaftCheck.v ===== *)
(** * The tester's leader check on a reachable cluster

    What [checkOneLeader] of [src/src/raft1/test.go] finds when it polls the
    peers of the cluster of [RaftNet.v]. *)
From S2P Require Import Prelude Persister Raft RaftNode RaftTheorems GobString.
From S2P Require Import RaftNet RaftElection RfSrv.

(** ** Terms *)

Section Terms.
Context {Cmd : Type} `{!Gob Cmd, !GobLaws Cmd} (allowed : Input Cmd → Raft Cmd → bool).
Implicit Types (rf : Raft Cmd) (s : Cluster Cmd).

(** What a step does to the peers: one of them takes an input, or starts a
    round of replication, after one of its goroutines went off. *)
Lemma step_node s s' :
  step allowed s s' →
  nodes s' = nodes s ∨
  ∃ i rf rf0 rf', nodes s !! i = Some rf ∧ nodes s' = <[i := rf']> (nodes s) ∧
    (∃ l, rf0 = set_started l rf) ∧
    (rf' = rf0 ∨ rf' = broadcastAppendEntries rf0 ∨ ∃ inp, handle inp rf0 = Some rf').
Proof.
  assert (∀ rf, ∃ l, rf = set_started l rf) as Hsame by (intros []; by eexists).
  intros [i rf inp rf' Hi _ _ Hh|i rf g l1 l2 rf' out Hi _ Hgo|c l1 l2 rf now rf' rep _ _ Hi Hsv
    |c l1 l2 rf rep rf' _ _ _ Hi Hab|c l1 l2 _|i rf now draw rf' Hi Hh].
  - right. exists i, rf, rf, rf'. eauto 8.
  - right. exists i, rf, (set_started (l1 ++ l2) rf), rf'. split; [done|]. split; [done|].
    split; [by eexists|]. destruct g; cbn [run_goroutine] in Hgo.
    + injection Hgo as <- _. auto.
    + destruct (replicate_args _ _) as [[req|]|]; [..|done]; injection Hgo as <- _; auto.
    + injection Hgo as <- _. auto.
  - right. exists (c_to c), rf, rf, rf'. split; [done|]. split; [done|]. split; [done|].
    right. right. destruct (c_req c) as [a|a|a]; cbn [serve] in Hsv;
      apply bind_Some in Hsv as ([rf1 r] & Hx & [= -> _]).
    + exists (InRequestVote a now). cbn [handle]. by rewrite Hx.
    + exists (InAppendEntries a now). cbn [handle]. by rewrite Hx.
    + exists (InInstallSnapshot (decode_install a) now). cbn [handle]. by rewrite Hx.
  - right. exists (c_from c), rf, rf, rf'. split; [done|]. split; [done|]. split; [done|].
    destruct (c_req c) as [a|a|a], rep as [r|r|r]; cbn [absorb] in Hab;
      try (injection Hab as <-; by left); right; right.
    + by exists (InVoteReply (rv_Term a) r).
    + by exists (InAppendReply (c_to c) a r).
    + by exists (InInstallReply (c_to c) a r).
  - by left.
  - right. exists i, rf, rf, rf'. eauto 8.
Qed.

Lemma step_term s s' i rf' :
  (∀ i rf, nodes s !! i = Some rf → persisted rf) → step allowed s s' → nodes s' !! i = Some rf' →
  ∃ rf, nodes s !! i = Some rf ∧ currentTerm rf <= currentTerm rf'.
Proof.
  intros Hp [->|(j & rf & rf0 & rf1 & Hj & -> & [l ->] & Hrf)]%step_node Hi; [by exists rf'|].
  apply lookup_insert_Some in Hi as [[<- <-]|[_ Hi]]; [|by exists rf'].
  exists rf. split; [done|]. destruct Hrf as [->|[->|[inp Hh]]]; [done| |].
  - destruct (quiet_broadcast (set_started l rf)) as (_ & _ & _ & _ & [[? _]|[? _]]); cbn in *; lia.
  - specialize (Hp j rf Hj). apply handle_vote_mono in Hh as [Hlt|[Heq _]]; cbn in *; [lia|lia|done].
Qed.

Lemma reachable_term n times draws s :
  reachable allowed n times draws s → ∀ i rf, nodes s !! i = Some rf → 0 <= currentTerm rf.
Proof.
  revert s. refine (rtc_ind_r (λ s, ∀ i rf, nodes s !! i = Some rf → 0 <= currentTerm rf) _ _ _).
  - intros i rf Hi. apply elem_of_list_to_map_2 in Hi.
    by apply list_elem_of_fmap in Hi as (j & [= -> ->] & _).
  - intros s1 s2 Hr Hst IH i rf Hi. destruct (reachable_election n allowed times draws s1 Hr) as [V HV].
    destruct (step_term s1 s2 i rf) as (rf0 & Hi0 & Hle); [|done|done|].
    + intros j rf1 Hj. by eapply node_persisted.
    + specialize (IH i rf0 Hi0). lia.
Qed.
End Terms.

(** ** The map of leaders *)

(** The servers, from [k] on, that say they are leader of [t]. *)
Fixpoint who (k : nat) (obs : list (option (Z * bool))) (t : Z) : list Z :=
  match obs with
  | [] => []
  | o :: obs => (if decide (o = Some (t, true)) then [Z.of_nat k] else []) ++ who (S k) obs t
  end.

Lemma leaders_fold k obs (m : gmap Z (list Z)) t :
  foldl leaders_step m (imap (λ j, pair (k + j)%nat) obs) !! t =
  match m !! t, who k obs t with
  | None, [] => None
  | o, l => Some (default [] o ++ l)
  end.
Proof.
  revert k m. induction obs as [|o obs IH]; intros k m.
  - cbn. by destruct (m !! t); rewrite ?app_nil_r.
  - rewrite imap_cons. cbn [foldl who].
    rewrite (imap_ext _ (λ j, pair (S k + j)%nat)) by (intros; simpl; f_equal; lia).
    rewrite IH, Nat.add_0_r. unfold leaders_step. case_decide as Ho.
    + subst o. rewrite lookup_insert_eq. cbn [default from_option id].
      by destruct (m !! t); cbn; rewrite <-?app_assoc.
    + destruct o as [[t' []]|]; try done. rewrite lookup_insert_ne by congruence. done.
Qed.

Lemma leaders_of_lookup obs t :
  leaders_of obs !! t = match who 0 obs t with [] => None | l => Some l end.
Proof.
  pose proof (leaders_fold 0 obs ∅ t) as H. rewrite lookup_empty in H. exact H.
Qed.

Lemma elem_of_who k obs t i :
  i ∈ who k obs t ↔ ∃ j, i = Z.of_nat (k + j) ∧ obs !! j = Some (Some (t, true)).
Proof.
  revert k. induction obs as [|o obs IH]; intros k; cbn [who].
  - split; [by intros ?%not_elem_of_nil|]. by intros (j & _ & Hj).
  - rewrite elem_of_app, IH. split.
    + intros [Hi|(j & -> & Hj)]; [|exists (S j); split; [lia|done]].
      case_decide; [|by apply not_elem_of_nil in Hi]. apply list_elem_of_singleton in Hi as ->.
      exists 0%nat. split; [lia|]. by subst.
    + intros ([|j] & -> & Hj); cbn in Hj.
      * left. injection Hj as ->. rewrite decide_True by done. apply list_elem_of_singleton. lia.
      * right. exists j. split; [lia|done].
Qed.

Lemma who_unique obs t :
  (∀ i j, obs !! i = Some (Some (t, true)) → obs !! j = Some (Some (t, true)) → i = j) →
  len (who 0 obs t) <= 1.
Proof.
  intros Hu.
  assert (∀ k obs, (∀ i j, obs !! i = Some (Some (t, true)) →
    obs !! j = Some (Some (t, true)) → i = j) → (length (who k obs t) <= 1)%nat) as H.
  { clear. intros k obs. revert k. induction obs as [|o obs IH]; intros k Hu; cbn; [lia|].
    rewrite length_app. case_decide as Ho.
    - assert (who (S k) obs t = []) as ->; [|cbn; lia].
      destruct (who (S k) obs t) as [|x l] eqn:Hw; [done|].
      assert (x ∈ who (S k) obs t) as (j & _ & Hj)%elem_of_who by (rewrite Hw; by left).
      by specialize (Hu 0%nat (S j) (f_equal Some Ho) Hj).
    - cbn. apply IH. intros i j Hi Hj. by injection (Hu (S i) (S j) Hi Hj). }
  unfold len. specialize (H 0%nat obs Hu). lia.
Qed.

Lemma last_term_spec (leaders : gmap Z (list Z)) :
  leaders ≠ ∅ → (∀ t, is_Some (leaders !! t) → -1 < t) →
  is_Some (leaders !! last_term leaders) ∧ ∀ t, is_Some (leaders !! t) → t <= last_term leaders.
Proof.
  intros Hne Hpos. unfold last_term.
  assert (∀ (l : list (Z * list Z)) z, (∀ p, p ∈ l → is_Some (leaders !! p.1)) →
    let r := foldl (λ last '((term, _) : Z * list Z),
      if decide (term > last) then term else last) z l in
    (r = z ∨ is_Some (leaders !! r)) ∧ z <= r ∧ ∀ p, p ∈ l → p.1 <= r) as H.
  { induction l as [|[t x] l IH]; intros z Hl; cbn [foldl].
    - split; [by left|]. split; [lia|]. intros p []%not_elem_of_nil.
    - destruct (IH (if decide (t > z) then t else z)) as (H1 & H2 & H3).
      { intros p Hp. apply Hl, elem_of_cons. by right. }
      pose proof (Hl (t, x) ltac:(by apply elem_of_cons; left)) as Ht. cbn in Ht.
      split; [|split].
      + destruct H1 as [H1|H1]; [|by right]. rewrite H1. case_decide; auto.
      + case_decide; lia.
      + intros p [->|Hp]%elem_of_cons; [cbn; case_decide; lia|by apply H3]. }
  destruct (H (map_to_list leaders) (-1)) as (H1 & H2 & H3).
  { intros [t l] Ht%elem_of_map_to_list. by exists l. }
  assert (∀ t, is_Some (leaders !! t) → t <= last_term leaders) as Hmax.
  { intros t [l Hl%elem_of_map_to_list]. by apply (H3 (t, l)). }
  split; [|exact Hmax]. destruct H1 as [H1|H1]; [|exact H1].
  apply map_choose in Hne as (t & l & Hl).
  specialize (Hmax t (mk_is_Some _ _ Hl)). specialize (Hpos t (mk_is_Some _ _ Hl)).
  unfold last_term in Hmax. lia.
Qed.

(** ** Polling a cluster *)

Section Poll.
Context {Cmd : Type} `{!Gob Cmd, !GobLaws Cmd}.
Context (allowed : Input Cmd → Raft Cmd → bool) (n : Z) (times draws : Z → Z).

(** What the tester sees of [s] when [conn] tells who is connected. *)
Definition poll (conn : Z → bool) (s : Cluster Cmd) : list (option (Z * bool)) :=
  (λ i, if conn i then GetState <$> nodes s !! i else None) <$> seqZ 0 n.

Lemma poll_leader conn s j t :
  poll conn s !! j = Some (Some (t, true)) →
  conn (Z.of_nat j) = true ∧
  ∃ rf, nodes s !! Z.of_nat j = Some rf ∧ role rf = Leader ∧ currentTerm rf = t.
Proof.
  unfold poll. rewrite list_lookup_fmap_Some. intros (i & Hs & Hi).
  apply lookup_seqZ in Hi as [-> _]. rewrite Z.add_0_l in Hs.
  destruct (conn (Z.of_nat j)); [|done]. split; [done|].
  destruct (nodes s !! Z.of_nat j) as [rf|]; [|done]. exists rf. split; [done|].
  unfold GetState in Hs. cbn in Hs. injection Hs as -> Hl. symmetry in Hl.
  by apply bool_decide_eq_true in Hl.
Qed.

Lemma poll_elem conn s i rf :
  0 <= i < n → conn i = true → nodes s !! i = Some rf → role rf = Leader →
  poll conn s !! Z.to_nat i = Some (Some (currentTerm rf, true)).
Proof.
  intros Hi Hc Hrf Hl. unfold poll. rewrite list_lookup_fmap, lookup_seqZ_lt by lia. cbn.
  rewrite Z2Nat.id, Z.add_0_l by lia. rewrite Hc, Hrf. unfold GetState. cbn.
  by rewrite bool_decide_eq_true_2.
Qed.

(** [checkOneLeader] is sound for the cluster.  Polling reachable states,
    whatever is connected, it never fails with two leaders of a term and never
    indexes out of range; when it answers, the answer is a connected leader,
    and no leader connected at that poll has a higher term. *)
Theorem checkOneLeader_sound (polls : list ((Z → bool) * Cluster Cmd)) :
  (∀ p, p ∈ polls → reachable allowed n times draws p.2) →
  match checkOneLeader ((λ p, poll p.1 p.2) <$> polls) with
  | ManyLeaders | IndexPanic => False
  | NoLeader => True
  | IsLeader i =>
      ∃ conn s rf, (conn, s) ∈ polls ∧ conn i = true ∧ nodes s !! i = Some rf ∧ role rf = Leader ∧
        ∀ j rf', 0 <= j < n → conn j = true → nodes s !! j = Some rf' → role rf' = Leader →
          currentTerm rf' <= currentTerm rf
  end.
Proof.
  induction polls as [|[conn s] polls IH]; intros Hr; [done|]. cbn [fmap list_fmap checkOneLeader].
  pose proof (Hr (conn, s) ltac:(by left)) as Hs. cbn in Hs |- *.
  set (obs := poll conn s).
  assert (∀ t, len (who 0 obs t) <= 1) as Hone.
  { intros t. apply who_unique. intros i j Hi Hj.
    apply poll_leader in Hi as (_ & rf1 & Hi & Hl1 & Ht1), Hj as (_ & rf2 & Hj & Hl2 & Ht2).
    apply Nat2Z.inj. eapply (leaders_unique allowed n times draws s); try done. congruence. }
  destruct (existsb _ _) eqn:Hex.
  { apply existsb_exists in Hex as ([t l] & Hl & Hlen%bool_decide_eq_true).
    apply list_elem_of_In, elem_of_map_to_list in Hl. rewrite leaders_of_lookup in Hl.
    specialize (Hone t). destruct (who 0 obs t); [done|]. injection Hl as <-. cbn in Hlen. lia. }
  case_decide as Hsz.
  - assert (leaders_of obs ≠ ∅) as Hne by (apply map_size_non_empty_iff; lia).
    assert (∀ t, is_Some (leaders_of obs !! t) → -1 < t) as Hpos.
    { intros t. rewrite leaders_of_lookup. destruct (who 0 obs t) as [|i l] eqn:Hw; [by intros []|].
      assert (i ∈ who 0 obs t) as (j & _ & Hj)%elem_of_who by (rewrite Hw; by left).
      apply poll_leader in Hj as (_ & rf & Hj & _ & <-).
      pose proof (reachable_term allowed n times draws s Hs _ _ Hj). lia. }
    destruct (last_term_spec _ Hne Hpos) as [Hlast Hmax].
    rewrite leaders_of_lookup in Hlast |- *. set (t := last_term _) in *.
    destruct (who 0 obs t) as [|i l] eqn:Hw; [by destruct Hlast|]. cbn.
    assert (i ∈ who 0 obs t) as (j & -> & Hj)%elem_of_who by (rewrite Hw; by left).
    apply poll_leader in Hj as (Hc & rf & Hj & Hl & Ht).
    exists conn, s, rf. split; [by left|]. split; [done|]. split; [done|]. split; [done|].
    intros k rf' Hk Hck Hrf' Hl'. rewrite Ht. apply Hmax. rewrite leaders_of_lookup.
    pose proof (poll_elem conn s k rf' Hk Hck Hrf' Hl') as Hp.
    destruct (who 0 obs (currentTerm rf')) as [|x xs] eqn:Hw'; [|by eexists].
    assert (Z.of_nat (0 + Z.to_nat k) ∈ who 0 obs (currentTerm rf')) as Hin
      by (apply elem_of_who; eauto).
    rewrite Hw' in Hin. by apply not_elem_of_nil in Hin.
  - specialize (IH ltac:(intros p Hp; apply Hr; by right)).
    destruct (checkOneLeader _); try done.
    destruct IH as (conn' & s' & rf & Hin & H). exists conn', s', rf. split; [by right|done].
Qed.
End Poll.

(** Nobody leads at first; then peer 0 does. *)
Lemma checkOneLeader_sound_witness :
  let polls := [(λ _, true, init_cluster 3 (λ _, 0) (λ _, 0)); (λ _, true, elected)] in
  checkOneLeader ((λ p, poll 3 p.1 p.2) <$> polls) = IsLeader 0 ∧
  ∃ conn s rf, (conn, s) ∈ polls ∧ conn 0 = true ∧ nodes s !! 0 = Some rf ∧ role rf = Leader ∧
    ∀ j rf', 0 <= j < 3 → conn j = true → nodes s !! j = Some rf' → role rf' = Leader →
      currentTerm rf' <= currentTerm rf.
Proof.
  intros polls.
  assert (checkOneLeader ((λ p, poll 3 p.1 p.2) <$> polls) = IsLeader 0) as Heq.
  { vm_compute. reflexivity. }
  split; [exact Heq|].
  pose proof (checkOneLeader_sound any_service 3 (λ _, 0) (λ _, 0) polls) as H. rewrite Heq in H. apply H.
  intros p [->|[->|[]%not_elem_of_nil]%elem_of_cons]%elem_of_cons.
  - apply rtc_refl.
  - apply (run_cmoves_reachable any_service 3 _ _ elect_moves). vm_compute. reflexivity.
Defined.
