(* ===== verification/RfSys.v ===== *)
(** * The Raft test as a whole

    A cluster of peers ([RaftNet.v]), the test service above each of them and the
    tester they report to ([RfSrv.v]), run together: a service receives what its
    peer hands it, reports it to the tester, takes snapshots, and is started anew
    from the persister with its peer.  One message is processed at a time, as the
    loop of [applierSnap] does; everything else goes on meanwhile.  The calls one
    message makes to the tester come together and before the call of [Snapshot],
    which goes to the peer; the code calls [ApplyErr] after it. *)
From S2P Require Import Prelude Persister Raft RaftNode RaftTheorems RaftApply RaftNet RfSrv.

#[export] Instance RpcFate_eq_dec : EqDecision RpcFate.
Proof. solve_decision. Defined.

Section World.
Context {Cmd : Type} `{!Gob Cmd, !EqDecision Cmd}.
Implicit Types rf : Raft Cmd.

(** Where the goroutine of a service is: in the receive, with a message to
    process, or before the call of [Snapshot] that follows. *)
Inductive SvcPc :=
| SvcIdle
| SvcGot (m : ApplyMsg Cmd)
| SvcSnap (k : Z) (b : bytes).

Record Svc := MkSvc { svc_rs : rfsrv Cmd; svc_pc : SvcPc }.

Record World := MkWorld {
  w_raft : Cluster Cmd;
  w_svcs : gmap Z Svc;
  w_test : Test Cmd;
}.

Definition w_init (n : Z) (times draws : Z → Z) : World :=
  MkWorld (init_cluster n times draws)
    (list_to_map ((λ i, (i, MkSvc (MkRfsrv i 0 ∅) SvcIdle)) <$> seqZ 0 n))
    (makeTest n).

(** What a peer does by itself: all but what its service makes it do. *)
Definition raft_only (inp : Input Cmd) rf : bool :=
  match inp with InSnapshot _ _ | InApplierReceived => false | _ => true end.

(** A request to install a snapshot behind what the peer has handed on. *)
Definition stale_install (a : InstallSnapshotArgs) rf : Prop :=
  currentTerm rf <= is_Term a ∧ lastIncludedIndex rf < is_LastIncludedIndex a < sending rf.
#[export] Instance stale_install_dec a rf : Decision (stale_install a rf).
Proof. unfold stale_install. apply _. Defined.

Definition raft_move_ok (c : Cluster Cmd) (m : CMove Cmd) : bool :=
  match m with
  | CServe k _ =>
      match calls c !! k with
      | Some call =>
          match c_req call, nodes c !! c_to call with
          | ReqInstall a, Some rf => bool_decide (¬ stale_install (decode_install a) rf)
          | _, _ => true
          end
      | None => true
      end
  | CCrash _ _ _ => false
  | _ => true
  end.

(** The fates are those of the service's calls to the tester. *)
Inductive WMove :=
| WRaft (m : CMove Cmd)
| WReceive (i : Z)
| WReport (i : Z) (f fe : RpcFate)
| WSnapshot (i : Z)
| WCrash (i now draw : Z) (f : RpcFate).

Definition w_move (n : Z) (w : World) (mv : WMove) : option World :=
  let c := w_raft w in
  match mv with
  | WRaft m =>
      if raft_move_ok c m then
        c' ← run_cmove raft_only c m; Some (MkWorld c' (w_svcs w) (w_test w))
      else None
  | WReceive i =>
      rf ← nodes c !! i; sv ← w_svcs w !! i;
      match applier_pc rf, svc_pc sv with
      | ApSend m k, SvcIdle =>
          c' ← run_cmove any_service c (CLocal i InApplierReceived);
          Some (MkWorld c' (<[i := MkSvc (svc_rs sv) (SvcGot m)]> (w_svcs w)) (w_test w))
      | _, _ => None
      end
  | WReport i f fe =>
      sv ← w_svcs w !! i;
      match svc_pc sv with
      | SvcGot m =>
          '(rs, ts, snap) ← applierSnap_step f fe m (svc_rs sv) (w_test w);
          let pc := match snap with Some (k, b) => SvcSnap k b | None => SvcIdle end in
          Some (MkWorld c (<[i := MkSvc rs pc]> (w_svcs w)) ts)
      | _ => None
      end
  | WSnapshot i =>
      sv ← w_svcs w !! i;
      match svc_pc sv with
      | SvcSnap k b =>
          c' ← run_cmove any_service c (CLocal i (InSnapshot k b));
          Some (MkWorld c' (<[i := MkSvc (svc_rs sv) SvcIdle]> (w_svcs w)) (w_test w))
      | _ => None
      end
  | WCrash i now draw f =>
      rf ← nodes c !! i;
      c' ← run_cmove any_service c (CCrash i now draw);
      '(rs, ts, _) ← newRfsrv f n i (Checkpoint (persister rf)) true now draw (w_test w);
      Some (MkWorld c' (<[i := MkSvc rs SvcIdle]> (w_svcs w)) ts)
  end.

(** A run; with [lossless], every call of the services to the tester arrives
    and is answered. *)
Definition move_lossless (mv : WMove) : bool :=
  match mv with
  | WReport _ f fe => bool_decide (f = RpcDone ∧ fe = RpcDone)
  | WCrash _ _ _ f => bool_decide (f = RpcDone)
  | _ => true
  end.

Definition w_step (lossless : bool) (n : Z) (w w' : World) : Prop :=
  ∃ mv, (lossless = true → move_lossless mv = true) ∧ w_move n w mv = Some w'.

Definition w_reachable (lossless : bool) (n : Z) (times draws : Z → Z) : World → Prop :=
  rtc (w_step lossless n) (w_init n times draws).
End World.

Arguments Svc : clear implicits.
Arguments SvcPc : clear implicits.
Arguments World : clear implicits.
Arguments WMove : clear implicits.
