(* ===== verification/RfSysKeep.v ===== *)
(** * Where snapshots can be in a peer

    Which inputs change what a peer holds of snapshots (the persisted one, the
    one pending for the service, the one being handed over), and what the others
    leave of it. *)
From S2P Require Import Prelude Persister Raft RaftNode RaftTheorems RaftApply RaftNet.
From S2P Require Import RaftProtocol RaftCommit RaftRefine RfSrv RfSys.

Section Keep.
Context {Cmd : Type} `{!Gob Cmd}.
Implicit Types rf : Raft Cmd.

Definition saved rf : bytes := ReadSnapshot (persister rf).

(** The persisted snapshot and its index are as they were. *)
Definition same_saved rf rf' : Prop :=
  lastIncludedIndex rf' = lastIncludedIndex rf ∧ saved rf' = saved rf.

#[export] Instance same_saved_preorder : PreOrder same_saved.
Proof. split; [by intros x|]. intros x y z [H1 H2] [H3 H4]. split; congruence. Qed.

Lemma same_saved_eq rf rf' :
  lastIncludedIndex rf' = lastIncludedIndex rf → persister rf' = persister rf → same_saved rf rf'.
Proof. unfold same_saved, saved. by intros -> ->. Qed.

Ltac same_saved := apply same_saved_eq; done.

Lemma same_saved_persist rf : same_saved rf (persist rf).
Proof. split; [done|]. unfold saved, persist. simpl. by rewrite ReadSnapshot_Save. Qed.

Lemma same_saved_signal rf : same_saved rf (signal rf).
Proof. unfold signal. destruct (applier_pc rf); same_saved. Qed.

Lemma same_saved_foldl_go (f : Z → Goroutine) (l : list Z) rf :
  same_saved rf (foldl (λ rf i, go rf (f i)) rf l).
Proof.
  revert rf. induction l as [|i l IH]; intros rf; [done|]. simpl.
  etransitivity; [|apply IH]. same_saved.
Qed.

Lemma same_saved_becomeFollower term rf : same_saved rf (becomeFollower term rf).
Proof.
  unfold becomeFollower. case_decide; [|same_saved].
  etransitivity; [|apply same_saved_persist]. same_saved.
Qed.

Lemma same_saved_observe term rf : same_saved rf (observe_term term rf).
Proof. unfold observe_term. case_decide; [apply same_saved_becomeFollower|done]. Qed.

Lemma same_saved_follow_commit c rf : same_saved rf (follow_commit c rf).
Proof.
  unfold follow_commit. repeat case_decide; try done;
    (etransitivity; [|apply same_saved_signal]); same_saved.
Qed.

Lemma same_saved_merge prev i es rf rf' : merge_entries prev i es rf = Some rf' → same_saved rf rf'.
Proof.
  revert i. induction es as [|e es IH]; intros i; cbn [merge_entries]; [by intros [= <-]|].
  case_decide; [intros [= <-]; same_saved|]. intros (t & _ & Ht)%bind_Some.
  case_decide; [|by eapply IH]. apply bind_Some in Ht as (k & _ & [= <-]). same_saved.
Qed.

Lemma same_saved_ae_append prev prevTerm es c xlen rf rf' reply :
  ae_append prev prevTerm es c xlen rf = Some (rf', reply) → same_saved rf rf'.
Proof.
  unfold ae_append. case_decide; [by intros [= <- _]|].
  intros (t & _ & Ht)%bind_Some. case_decide.
  - by apply bind_Some in Ht as (i & _ & [= <- _]).
  - apply bind_Some in Ht as (rf1 & Hm%same_saved_merge & [= <- _]).
    etransitivity; [exact Hm|]. etransitivity; [apply same_saved_persist|]. apply same_saved_follow_commit.
Qed.

Lemma same_saved_advance n N rf rf' : advance_from n N rf = Some rf' → same_saved rf rf'.
Proof.
  revert N. induction n as [|n IH]; intros N; cbn [advance_from]; [by intros [= <-]|].
  case_decide; [|by intros [= <-]]. case_decide; [by intros [= <-]|].
  intros (t & _ & Ht)%bind_Some. case_decide; [by eapply IH|].
  apply bind_Some in Ht as (k & _ & Hk). case_decide; [|by eapply IH].
  injection Hk as <-. etransitivity; [|apply same_saved_signal]. same_saved.
Qed.

Definition save_input (i : Input Cmd) : bool :=
  match i with InInstallSnapshot _ _ | InSnapshot _ _ | InRestart _ _ => true | _ => false end.

Lemma same_saved_RequestVote args now rf rf' reply :
  RequestVote args now rf = Some (rf', reply) → same_saved rf rf'.
Proof.
  unfold RequestVote. case_decide; [by intros [= <- _]|]. intros (ok & _ & Hx)%bind_Some.
  etransitivity; [apply (same_saved_observe (rv_Term args))|].
  case_decide; injection Hx as <- _; [|done].
  etransitivity; [|apply same_saved_persist]. same_saved.
Qed.

Lemma same_saved_AppendEntries args now rf rf' reply :
  AppendEntries args now rf = Some (rf', reply) → same_saved rf rf'.
Proof.
  unfold AppendEntries. case_decide; [by intros [= <- _]|]. intros Hx.
  etransitivity; [apply (same_saved_observe (ae_Term args))|].
  transitivity (set_lastHeardAt now (set_role Follower (observe_term (ae_Term args) rf)));
    [same_saved|].
  case_decide; [|by eapply same_saved_ae_append].
  case_decide; [injection Hx as <- _; apply same_saved_follow_commit|].
  apply bind_Some in Hx as (es & _ & Hx). by eapply same_saved_ae_append.
Qed.

Lemma same_saved_vote_reply term reply rf rf' :
  vote_reply term reply rf = Some rf' → same_saved rf rf'.
Proof.
  unfold vote_reply. case_decide; [by intros [= <-]|].
  case_decide; [intros [= <-]; apply same_saved_becomeFollower|].
  destruct (rvr_VoteGranted reply); [|by intros [= <-]].
  case_decide; [|intros [= <-]; same_saved]. unfold becomeLeader.
  intros (m & _ & (n & _ & (k & _ & [= <-])%bind_Some)%bind_Some)%bind_Some. same_saved.
Qed.

Lemma same_saved_append_reply peer args reply rf rf' :
  append_reply peer args reply rf = Some rf' → same_saved rf rf'.
Proof.
  unfold append_reply. case_decide; [by intros [= <-]|].
  case_decide; [intros [= <-]; apply same_saved_becomeFollower|].
  destruct (aer_Success reply).
  - intros (m & _ & (n & _ & Hx)%bind_Some)%bind_Some. apply same_saved_advance in Hx.
    etransitivity; [|exact Hx]. same_saved.
  - intros (n & _ & (k & _ & (l & _ & [= <-])%bind_Some)%bind_Some)%bind_Some. same_saved.
Qed.

Lemma same_saved_applier_top rf rf' : applier_top rf = Some rf' → same_saved rf rf'.
Proof.
  unfold applier_top.
  destruct (dead rf); [by intros [= <-]|]. destruct (pendingSnapshot rf); [by intros [= <-]|].
  case_decide; [|by intros [= <-]]. case_decide; [by intros [= <-]|].
  by intros (e & _ & [= <-])%bind_Some.
Qed.

Lemma same_saved_handle i rf rf' :
  save_input i = false → handle i rf = Some rf' → same_saved rf rf'.
Proof.
  intros Hi. destruct i; try done; simpl.
  - intros ([rf1 r] & Hx & ->)%fmap_Some. by eapply same_saved_RequestVote.
  - intros ([rf1 r] & Hx & ->)%fmap_Some. by eapply same_saved_AppendEntries.
  - unfold Start. case_decide; [by intros [= <-]|].
    intros ([rf1 r] & Hx & ->)%fmap_Some.
    apply bind_Some in Hx as (m & _ & (n & _ & [= <- _])%bind_Some).
    split; [done|]. unfold saved. simpl. by rewrite ReadSnapshot_Save.
  - unfold tick. case_decide; [|by intros [= <-]]. unfold startElection.
    intros (t & _ & [= <-])%bind_Some.
    etransitivity; [|apply (same_saved_foldl_go (λ p, GoRequestVote p _))].
    split; [done|]. unfold saved. simpl. by rewrite ReadSnapshot_Save.
  - unfold heartbeat, broadcastAppendEntries. case_bool_decide; [|by intros [= <-]].
    case_decide; intros [= <-]; [done|]. apply same_saved_foldl_go.
  - unfold broadcastAppendEntries.
    case_decide; intros [= <-]; [done|]. apply same_saved_foldl_go.
  - apply same_saved_vote_reply.
  - unfold install_reply. case_decide; [by intros [= <-]|].
    case_decide; [intros [= <-]; apply same_saved_becomeFollower|].
    intros (m & _ & (n & _ & [= <-])%bind_Some)%bind_Some. same_saved.
  - apply same_saved_append_reply.
  - destruct (applier_pc rf); try (by intros [= <-]). apply same_saved_applier_top.
  - destruct (applier_pc rf); intros [= <-]; same_saved.
  - destruct (applier_pc rf); intros [= <-]; try done. unfold applier_sent. case_decide; same_saved.
  - intros [= <-]. unfold Kill. etransitivity; [|apply same_saved_signal]. same_saved.
Qed.

Lemma install_cases args now rf rf' :
  handle (InInstallSnapshot args now) rf = Some rf' →
  same_apply rf rf' ∧ same_saved rf rf' ∨
  currentTerm rf <= is_Term args ∧ lastIncludedIndex rf < is_LastIncludedIndex args ∧
  lastIncludedIndex rf' = is_LastIncludedIndex args ∧ saved rf' = default [] (is_Data args) ∧
  ∃ rf1, same_apply rf1 rf' ∧ applier_pc rf1 = applier_pc rf ∧
    lastApplied rf1 = Z.max (lastApplied rf) (is_LastIncludedIndex args) ∧
    pendingSnapshot rf1 = is_Data args ∧ pendingSnapshotIndex rf1 = is_LastIncludedIndex args.
Proof.
  simpl. intros ([rf1 r] & Hx & ->)%fmap_Some. unfold InstallSnapshot in Hx.
  case_decide; [left; injection Hx as <- _; by split|].
  set (rf2 := set_lastHeardAt now _) in Hx.
  assert (same_apply rf rf2 ∧ same_saved rf rf2 ∧ lastIncludedIndex rf2 = lastIncludedIndex rf ∧
    applier_pc rf2 = applier_pc rf ∧ lastApplied rf2 = lastApplied rf) as (Hs & Hsv & E1 & E2 & E3).
  { split; [|split].
    - unfold rf2, observe_term, becomeFollower. repeat case_decide; split_and!; try done; by left.
    - etransitivity; [apply (same_saved_observe (is_Term args))|]. same_saved.
    - unfold rf2, observe_term, becomeFollower. by repeat case_decide. }
  clearbody rf2. case_decide; [left; injection Hx as <- _; by split|].
  right. split; [lia|]. split; [lia|]. apply bind_Some in Hx as (l & _ & [= <- _]).
  cbn [fst]. match goal with |- context [signal ?x] => set (rf3 := x) end.
  destruct (same_saved_signal rf3) as [-> ->]. split; [by unfold rf3; repeat case_decide|].
  split; [unfold rf3, saved; simpl; by rewrite ReadSnapshot_Save|].
  exists rf3. split; [apply same_apply_signal|]. unfold rf3. simpl.
  split_and!; [by repeat case_decide| |done|done].
  rewrite <-E3. repeat case_decide; simpl in *; lia.
Qed.

Lemma snapshot_cases k b rf rf' :
  handle (InSnapshot k b) rf = Some rf' →
  same_apply rf rf' ∧
  (same_saved rf rf' ∨ lastIncludedIndex rf < k ∧ lastIncludedIndex rf' = k ∧ saved rf' = b).
Proof.
  intros Hh. split; [by apply (same_apply_handle (InSnapshot k b))|]. simpl in Hh. unfold Snapshot in Hh.
  case_decide; [injection Hh as <-; by left|]. case_decide; [injection Hh as <-; by left|].
  apply bind_Some in Hh as (t & _ & Ht). case_decide; [done|].
  apply bind_Some in Ht as (l & _ & [= <-]). right. split; [lia|]. split; [done|].
  unfold saved. simpl. by rewrite ReadSnapshot_Save.
Qed.

(** ** Good snapshots stay good

    [good k b]: the bytes are a right snapshot up to [k]. *)
Record snap_ok (good : Z → bytes → Prop) rf : Prop := {
  sn_saved : lastIncludedIndex rf = 0 ∧ saved rf = [] ∨
    0 < lastIncludedIndex rf ∧ good (lastIncludedIndex rf) (saved rf);
  sn_pending b : pendingSnapshot rf = Some b → good (pendingSnapshotIndex rf) b;
  sn_sending b k t k' : applier_pc rf = ApSend (SnapshotMsg b k t) k' → good k b;
}.

Lemma snap_ok_mono (good good' : Z → bytes → Prop) rf :
  (∀ k b, good k b → good' k b) → snap_ok good rf → snap_ok good' rf.
Proof. intros Hg [H1 H2 H3]. split; [naive_solver|eauto..]. Qed.

Lemma snap_ok_same good rf rf' : same_apply rf rf' → same_saved rf rf' → snap_ok good rf → snap_ok good rf'.
Proof.
  intros (Hpc & _ & Hp & Hi) [Hl Hs] [H1 H2 H3].
  split; rewrite ?Hl, ?Hs, ?Hp, ?Hi; [done|done|]. intros b k t k' Hsend. eapply H3.
  destruct Hpc as [<-|[_ Htop]]; [done|congruence].
Qed.

(** The snapshots an input brings. *)
Definition brings (good : Z → bytes → Prop) (i : Input Cmd) rf : Prop :=
  match i with
  | InInstallSnapshot args _ =>
      currentTerm rf <= is_Term args → lastIncludedIndex rf < is_LastIncludedIndex args →
      ∃ b, is_Data args = Some b ∧ good (is_LastIncludedIndex args) b
  | InSnapshot k b => good k b
  | _ => True
  end.

Lemma snap_ok_top good rf rf' :
  applier_pc rf = ApTop → applier_top rf = Some rf' → snap_ok good rf → snap_ok good rf'.
Proof.
  intros Hpc Htop [H1 H2 H3]. unfold applier_top in Htop.
  destruct (dead rf); [injection Htop as <-; by split|].
  destruct (pendingSnapshot rf) as [b|] eqn:Hp.
  { injection Htop as <-. split; [done|done|]. simpl. intros b' k t k' [= <- <- _ _]. by apply H2. }
  case_decide; [|injection Htop as <-; split; simpl; [done|by rewrite Hp|done]].
  case_decide; [injection Htop as <-; split; simpl; [done|by rewrite Hp|by rewrite Hpc]|].
  apply bind_Some in Htop as (e & _ & [= <-]). split; simpl; [done|by rewrite Hp|done].
Qed.

Lemma snap_ok_install good args now rf rf' :
  0 <= lastIncludedIndex rf → brings good (InInstallSnapshot args now) rf →
  handle (InInstallSnapshot args now) rf = Some rf' → snap_ok good rf → snap_ok good rf'.
Proof.
  intros Hlii Hb Hh H.
  destruct (install_cases _ _ _ _ Hh) as [[Ha Hs]|(Ht & Hl & Hl' & Hs' & rf1 & Ha & Hpc & _ & Hp & Hi)].
  { by eapply snap_ok_same. }
  destruct (Hb Ht Hl) as (b & Hdata & Hgood). destruct Ha as (Hpc' & _ & Hp' & Hi').
  rewrite Hdata in *. destruct H as [H1 H2 H3]. split.
  - right. rewrite Hl', Hs'. split; [lia|done].
  - rewrite Hp', Hi', Hp, Hi. by intros ? [= <-].
  - intros b' k t k' Hsend. apply (H3 b' k t k'). rewrite <-Hpc.
    destruct Hpc' as [<-|[_ Htop]]; [done|congruence].
Qed.

Lemma snap_ok_snapshot good k b rf rf' :
  0 <= lastIncludedIndex rf → good k b → handle (InSnapshot k b) rf = Some rf' →
  snap_ok good rf → snap_ok good rf'.
Proof.
  intros Hlii Hb Hh H. destruct (snapshot_cases _ _ _ _ Hh) as [Ha [Hs|(Hl & Hl' & Hs')]].
  { by eapply snap_ok_same. }
  destruct Ha as (Hpc & _ & Hp & Hi), H as [H1 H2 H3]. split.
  - right. rewrite Hl', Hs'. split; [lia|done].
  - by rewrite Hp, Hi.
  - intros b' k0 t k' Hsend. apply (H3 b' k0 t k').
    destruct Hpc as [<-|[_ Htop]]; [done|congruence].
Qed.

Lemma snap_ok_restart good now draw rf `{!GobLaws Cmd} :
  persisted rf → snap_ok good rf → snap_ok good (restarted rf now draw).
Proof.
  intros Hp [H1 H2 H3]. pose proof (restarted_fields rf now draw Hp) as Hf. cbv zeta in Hf.
  destruct Hf as (Hsame & _ & _ & Hps & _ & _ & _ & Hpc & _ & _ & _ & _ & _ & Hpend & Hidx).
  destruct Hsame as (_ & _ & _ & _ & Hl & _). split.
  - unfold saved. rewrite Hps, <-Hl. exact H1.
  - intros b Hb. rewrite Hidx by (by rewrite Hb). rewrite Hpend in Hb. unfold queued_snapshot in Hb.
    case_decide as Hq; [|done]. injection Hb as <-.
    destruct H1 as [[Hz _]|[_ Hg]]; [lia|]. unfold saved, ReadSnapshot in Hg. by rewrite clone_id in Hg.
  - rewrite Hpc. done.
Qed.

Lemma snap_ok_handle good i rf rf' `{!GobLaws Cmd} :
  0 <= lastIncludedIndex rf → persisted rf → brings good i rf → handle i rf = Some rf' →
  snap_ok good rf → snap_ok good rf'.
Proof.
  intros Hlii Hp Hb Hh H. destruct i; try (
    eapply snap_ok_same; [by eapply same_apply_handle; [|exact Hh]|by eapply same_saved_handle; [|exact Hh]|done]).
  - by eapply snap_ok_install.
  - by eapply snap_ok_snapshot.
  - simpl in Hh. destruct (applier_pc rf) eqn:Hpc; try (by injection Hh as <-). by eapply snap_ok_top.
  - simpl in Hh. destruct H as [H1 H2 H3].
    destruct (applier_pc rf) eqn:Hpc; injection Hh as <-; split; simpl; try done; by rewrite Hpc.
  - simpl in Hh. destruct H as [H1 H2 H3].
    destruct (applier_pc rf) eqn:Hpc; injection Hh as <-; try (split; simpl; try done; by rewrite Hpc).
    unfold applier_sent. case_decide; split; done.
  - injection Hh as <-. by apply snap_ok_restart.
Qed.

(** ** The service is never ahead

    [D] is the last index the service received. *)
Definition caught (D : Z) rf : Prop :=
  match applier_pc rf with ApSend _ _ => D <= lastApplied rf | _ => True end.

Lemma caught_same D rf rf' : same_apply rf rf' → caught D rf → caught D rf'.
Proof.
  intros (Hpc & Hla & _ & _). unfold caught. rewrite Hla. by destruct Hpc as [->|[-> ->]].
Qed.

Lemma caught_top D rf rf' :
  applier_pc rf = ApTop → applier_top rf = Some rf' → order_inv D rf → caught D rf'.
Proof.
  intros Hpc Htop [_ Hinv]. unfold applier_top in Htop. unfold base in Hinv. rewrite Hpc in Hinv.
  destruct (dead rf); [by injection Htop as <-|]. unfold caught.
  destruct (pendingSnapshot rf) as [b|] eqn:Hp; [injection Htop as <-; simpl; lia|].
  case_decide; [|by injection Htop as <-].
  case_decide; [injection Htop as <-; simpl; by rewrite Hpc|].
  apply bind_Some in Htop as (e & _ & [= <-]). simpl. lia.
Qed.

Lemma caught_install D args now rf rf' :
  handle (InInstallSnapshot args now) rf = Some rf' → caught D rf → caught D rf'.
Proof.
  intros Hh H. destruct (install_cases _ _ _ _ Hh) as [[Ha _]|(_ & _ & _ & _ & rf1 & Ha & Hpc & Hla & _)].
  { by eapply caught_same. }
  eapply caught_same; [exact Ha|]. unfold caught in *. rewrite Hpc, Hla. destruct (applier_pc rf); [done..|lia|done|done].
Qed.

Lemma caught_step D i rf rf' :
  not_stale i rf → handle i rf = Some rf' → order_inv D rf → caught D rf →
  caught (seen D (received i rf)) rf'.
Proof.
  intros Hns Hh Hinv H. destruct (apply_input i) eqn:Hi.
  - destruct i; try done; [by eapply caught_install|..].
    + simpl in Hh. destruct (applier_pc rf) eqn:Hpc; try by injection Hh as <-.
      by eapply caught_top.
    + simpl in Hh. destruct (applier_pc rf) eqn:Hpc; injection Hh as <-;
        unfold received, caught; rewrite ?Hpc; try done; simpl; by rewrite ?Hpc.
    + simpl in Hh. destruct (applier_pc rf) eqn:Hpc; by injection Hh as <-.
  - assert (received i rf = []) as -> by (by destruct i).
    eapply caught_same; [by eapply same_apply_handle|done].
Qed.

Lemma seen_delivered D rf : order_inv D rf → caught D rf → D <= delivered rf.
Proof.
  intros [Hmsg Hinv] Hc. unfold next_msg_ok, base, delivered, caught in *.
  destruct (applier_pc rf); destruct (pendingSnapshot rf); lia.
Qed.

(** What a peer and its service agree on. *)
Record peer_ok (good : Z → bytes → Prop) (D : Z) rf : Prop := {
  po_snap : snap_ok good rf;
  po_order : order_inv D rf;
  po_caught : caught D rf;
}.

Lemma peer_ok_mono (good good' : Z → bytes → Prop) D rf :
  (∀ k b, good k b → good' k b) → peer_ok good D rf → peer_ok good' D rf.
Proof. intros Hg [H1 H2 H3]. split; [by eapply snap_ok_mono|done|done]. Qed.

Lemma peer_ok_same good D rf rf' :
  same_apply rf rf' → same_saved rf rf' → peer_ok good D rf → peer_ok good D rf'.
Proof.
  intros Ha Hs [H1 H2 H3].
  split; [by eapply snap_ok_same|by eapply same_apply_inv|by eapply caught_same].
Qed.

Lemma peer_ok_handle good D i rf rf' `{!GobLaws Cmd} :
  0 <= lastIncludedIndex rf → persisted rf → brings good i rf → not_stale i rf →
  handle i rf = Some rf' → peer_ok good D rf →
  in_order D (received i rf) ∧ peer_ok good (seen D (received i rf)) rf'.
Proof.
  intros Hl Hp Hb Hns Hh [H1 H2 H3]. destruct (order_step D i rf rf' Hns Hh H2) as [Ho Ho'].
  split; [done|]. split; [by eapply snap_ok_handle|done|by eapply caught_step].
Qed.

Lemma peer_ok_restart good D now draw rf `{!GobLaws Cmd} :
  persisted rf → peer_ok good D rf → peer_ok good (lastIncludedIndex rf) (restarted rf now draw).
Proof.
  intros Hp [H1 _ _]. split; [by apply snap_ok_restart|..].
  - pose proof (restarted_fields rf now draw Hp) as Hf. cbv zeta in Hf.
    destruct Hf as (_ & _ & _ & _ & _ & Hla & _ & Hpc & _ & _ & _ & _ & _ & Hpend & Hidx).
    unfold order_inv, next_msg_ok, base. rewrite Hpc, Hla. split; [done|].
    destruct (pendingSnapshot _) as [b|] eqn:Hb; [|lia]. rewrite Hidx by done. lia.
  - pose proof (restarted_fields rf now draw Hp) as Hf. cbv zeta in Hf.
    destruct Hf as (_ & _ & _ & _ & _ & _ & _ & Hpc & _). unfold caught. by rewrite Hpc.
Qed.

(** ** What the network makes a peer do *)

Definition request_input (req : Request Cmd) (now : Z) : Input Cmd :=
  match req with
  | ReqVote a => InRequestVote a now
  | ReqAppend a => InAppendEntries a now
  | ReqInstall a => InInstallSnapshot (decode_install a) now
  end.

Lemma serve_handle req now rf rf' rep :
  serve req now rf = Some (rf', rep) → handle (request_input req now) rf = Some rf'.
Proof.
  destruct req; simpl; intros ([rf1 r] & Hx & [= <- <-])%bind_Some; by rewrite Hx.
Qed.

Lemma absorb_keeps peer req rep rf rf' :
  absorb peer req rep rf = Some rf' → same_apply rf rf' ∧ same_saved rf rf'.
Proof.
  intros Hx.
  assert (rf' = rf ∨ ∃ i, apply_input i = false ∧ save_input i = false ∧ handle i rf = Some rf') as [->|(i & H1 & H2 & H3)].
  { destruct req as [a|a|a], rep as [r|r|r]; simpl in Hx; try (injection Hx as <-; by left); right.
    - by exists (InVoteReply (rv_Term a) r).
    - by exists (InAppendReply peer a r).
    - by exists (InInstallReply peer a r). }
  - by split.
  - split; [by eapply same_apply_handle|by eapply same_saved_handle].
Qed.

(** A goroutine that asks a follower to install a snapshot sends the persisted
    one. *)
Definition sends_saved rf (req : Request Cmd) : Prop :=
  match req with
  | ReqInstall a => is_LastIncludedIndex a = lastIncludedIndex rf ∧ is_Data a = Some (saved rf) ∧
      0 < lastIncludedIndex rf
  | _ => True
  end.

Lemma replicate_sends peer rf req :
  raft_wf rf → replicate_args peer rf = Some (Some req) → sends_saved rf req.
Proof.
  intros Hwf. unfold replicate_args. case_decide as Hr; [done|].
  assert (role rf = Leader) as Hl by (destruct (decide (role rf = Leader)); [done|by destruct Hr]).
  intros (nx & Hnx & Hx)%bind_Some. case_decide as Hle.
  - injection Hx as <-. simpl. split; [done|]. split; [done|].
    apply go_index_lookup in Hnx as [_ Hnx]. pose proof (wf_leader _ Hwf _ _ Hl Hnx). lia.
  - apply bind_Some in Hx as (t & _ & Hx). case_decide; [done|].
    by apply bind_Some in Hx as (es & _ & [= <-]).
Qed.

Lemma goroutine_keeps x l rf rf' out :
  raft_wf rf → run_goroutine x (set_started l rf) = Some (rf', out) →
  same_apply rf rf' ∧ same_saved rf rf' ∧ ∀ peer req, out = Some (peer, req) → sends_saved rf req.
Proof.
  intros Hwf Hx.
  assert (same_apply rf (set_started l rf) ∧ same_saved rf (set_started l rf)) as [Ha Hs].
  { split; [split_and!; auto|same_saved]. }
  assert (raft_wf (set_started l rf)) as Hwf' by (by destruct Hwf; split).
  destruct x as [|peer|peer a]; simpl in Hx.
  - injection Hx as <- <-. split; [|split; [|done]].
    + etransitivity; [exact Ha|]. by apply (same_apply_handle InBroadcast).
    + etransitivity; [exact Hs|]. by apply (same_saved_handle InBroadcast).
  - destruct (replicate_args peer _) as [[req|]|] eqn:Hr; [| |done]; injection Hx as <- <-;
      (split; [done|]); (split; [done|]); [|done].
    intros p q [= <- <-]. pose proof (replicate_sends _ _ _ Hwf' Hr) as Hsend. by destruct req.
  - injection Hx as <- <-. split; [done|]. split; [done|]. by intros p q [= <- <-].
Qed.
End Keep.

(** ** What the peers' own moves leave of the services' business

    Every move of the cluster that is not a step of a service keeps each peer in
    order with its service, and every snapshot under way a good one. *)

Section Moves.
Context {Cmd : Type} `{!Gob Cmd, !GobLaws Cmd, !EqDecision Cmd}.
Implicit Types rf : Raft Cmd.
Implicit Types c : Cluster Cmd.

Lemma step_impl (ok ok' : Input Cmd → Raft Cmd → bool) c c' :
  (∀ inp rf, ok inp rf = true → ok' inp rf = true) → step ok c c' → step ok' c c'.
Proof.
  intros Hok [i rf inp rf' H1 H2 H3 H4|i rf x l1 l2 rf' out H1 H2 H3|cl l1 l2 rf now rf' rep H1 H2 H3 H4|
    cl l1 l2 rf rep rf' H1 H2 H3 H4 H5|cl l1 l2 H1|i rf now draw rf' H1 H2].
  - eapply step_local; eauto.
  - by eapply step_go.
  - by eapply step_serve.
  - by eapply step_reply.
  - by eapply step_lose.
  - by eapply step_crash.
Qed.

Lemma raft_only_contract inp rf : raft_only inp rf = true → snapshot_contract inp rf = true.
Proof. by destruct inp. Qed.

(** The snapshots of the requests under way. *)
Definition requests_ok (good : Z → bytes → Prop) c : Prop :=
  ∀ cl a, cl ∈ calls c → c_req cl = ReqInstall a →
    ∃ b, is_Data a = Some b ∧ good (is_LastIncludedIndex a) b.

(** Peer [j] has become what its service may expect. *)
Definition peers_kept (good : Z → bytes → Prop) c c' : Prop :=
  dom (nodes c') = dom (nodes c) ∧
  ∀ j rf rf', nodes c !! j = Some rf → nodes c' !! j = Some rf' →
    ∀ D, peer_ok good D rf → peer_ok good D rf'.

Lemma peers_kept_one good c c' i rf rf' :
  nodes c !! i = Some rf → nodes c' = <[i:=rf']> (nodes c) →
  (∀ D, peer_ok good D rf → peer_ok good D rf') → peers_kept good c c'.
Proof.
  intros Hi Hc' H. split.
  - rewrite Hc', dom_insert_L. apply elem_of_dom_2 in Hi. set_solver.
  - intros j rfj rfj'. rewrite Hc', lookup_insert_Some. intros Hj [[<- <-]|[_ Hj']]; [|by simplify_eq].
    by simplify_eq.
Qed.

Lemma requests_same good c c' :
  (∀ cl, cl ∈ calls c' → ∃ cl0, cl0 ∈ calls c ∧ c_req cl = c_req cl0) →
  requests_ok good c → requests_ok good c'.
Proof.
  intros Hsub H cl a Hcl Ha. destruct (Hsub cl Hcl) as (cl0 & Hcl0 & Heq). apply (H cl0); [done|congruence].
Qed.

Context (good : Z → bytes → Prop) (Hgood : ∀ k b, good k b → b ≠ []).

Definition nodes_ok c : Prop :=
  ∀ i rf, nodes c !! i = Some rf → raft_wf rf ∧ persisted rf ∧ ∃ D, peer_ok good D rf.

Lemma wf_lii_nonneg rf : raft_wf rf → 0 <= lastIncludedIndex rf.
Proof. intros [? ? [? ?]]. done. Qed.

Lemma local_kept c i rf inp rf' :
  nodes_ok c → nodes c !! i = Some rf → local_input inp = true → raft_only inp rf = true →
  handle inp rf = Some rf' → ∀ D, peer_ok good D rf → peer_ok good D rf'.
Proof using All.
  intros Hok Hi Hloc Hraft Hh D H. destruct (Hok i rf Hi) as (Hwf & Hp & _).
  assert (brings good inp rf ∧ not_stale inp rf ∧ received inp rf = []) as (Hb & Hns & Hrec)
    by (by destruct inp).
  destruct (peer_ok_handle good D inp rf rf' (wf_lii_nonneg _ Hwf) Hp Hb Hns Hh H) as [_ H'].
  by rewrite Hrec in H'.
Qed.

Lemma serve_kept c cl rf now rf' rep :
  nodes_ok c → requests_ok good c → cl ∈ calls c → nodes c !! c_to cl = Some rf →
  serve (c_req cl) now rf = Some (rf', rep) →
  (∀ a, c_req cl = ReqInstall a → ¬ stale_install (decode_install a) rf) →
  ∀ D, peer_ok good D rf → peer_ok good D rf'.
Proof using All.
  intros Hok Hreq Hcl Hi Hserve Hstale D H. destruct (Hok _ rf Hi) as (Hwf & Hp & _).
  pose proof (serve_handle _ _ _ _ _ Hserve) as Hh.
  assert (∀ a, c_req cl = ReqInstall a → ∃ b, is_Data (decode_install a) = Some b ∧
    good (is_LastIncludedIndex a) b) as Hdata.
  { intros a Ha. destruct (Hreq cl a Hcl Ha) as (b & Hb & Hg). exists b. split; [|done].
    unfold decode_install, transit. rewrite Hb. simpl. specialize (Hgood _ _ Hg). by destruct b. }
  assert (brings good (request_input (c_req cl) now) rf ∧ not_stale (request_input (c_req cl) now) rf ∧
    received (request_input (c_req cl) now) rf = []) as (Hb & Hns & Hrec).
  { destruct (c_req cl) as [a|a|a] eqn:Ha; [done|done|]. specialize (Hstale a eq_refl).
    destruct (Hdata a eq_refl) as (b & Hb & Hg). split; [by intros _ _; exists b|]. split; [|done].
    intros Ht Hl. split; [|congruence]. unfold stale_install in Hstale. lia. }
  destruct (peer_ok_handle good D _ rf rf' (wf_lii_nonneg _ Hwf) Hp Hb Hns Hh H) as [_ H'].
  by rewrite Hrec in H'.
Qed.

(** Every move of the peers. *)
Lemma raft_move_kept c m c' :
  nodes_ok c → requests_ok good c → raft_move_ok c m = true → run_cmove raft_only c m = Some c' →
  peers_kept good c c' ∧ requests_ok good c'.
Proof using All.
  intros Hok Hreq Hm. destruct m as [i inp|i k|k now|k|k|i now draw]; cbn [run_cmove].
  - intros (rf & Hi & H)%bind_Some. destruct (local_input inp && raft_only inp rf) eqn:Hl; [|done].
    apply andb_true_iff in Hl as [Hloc Hro]. apply bind_Some in H as (rf' & Hh & [= <-]).
    split; [|done]. eapply (peers_kept_one _ _ _ i rf rf'); [done|done|by eapply local_kept].
  - intros (rf & Hi & (g & Hg & ([rf' out] & Hr & [= <-])%bind_Some)%bind_Some)%bind_Some.
    destruct (Hok i rf Hi) as (Hwf & _ & D & HD).
    destruct (goroutine_keeps _ _ _ _ _ Hwf Hr) as (Ha & Hs & Hsend). split.
    + eapply (peers_kept_one _ _ _ i rf rf'); [done|done|]. intros. by eapply peer_ok_same.
    + intros cl a Hcl Hcla. apply elem_of_app in Hcl as [Hcl|Hcl]; [by eapply Hreq|].
      destruct out as [[peer req]|]; [|by apply not_elem_of_nil in Hcl].
      apply list_elem_of_singleton in Hcl as ->. simpl in Hcla. subst req.
      destruct (Hsend _ _ eq_refl) as (Hidx & Hdata & Hpos). exists (saved rf). split; [done|].
      rewrite Hidx. destruct (sn_saved _ _ (po_snap _ _ _ HD)) as [[Hz _]|[_ ?]]; [lia|done].
  - intros (cl & Hc & (rf & Hi & H)%bind_Some)%bind_Some.
    destruct (c_rep cl); [done|]. apply bind_Some in H as ([rf' rep] & Hs & [= <-]).
    assert (cl ∈ calls c) as Hcl by (by eapply list_elem_of_lookup_2). split.
    + eapply (peers_kept_one _ _ _ (c_to cl) rf rf'); [done|done|].
      eapply serve_kept; [done|done|exact Hcl|done|done|]. intros a Ha.
      unfold raft_move_ok in Hm. rewrite Hc, Ha, Hi in Hm. by apply bool_decide_eq_true in Hm.
    + eapply requests_same; [|done]. intros cl'. simpl. rewrite elem_of_app, elem_of_cons.
      pose proof (take_drop_middle _ _ _ Hc) as Heq.
      intros [?|[->|?]]; [exists cl'|by exists cl|exists cl']; (split; [|done]);
        rewrite <-Heq; set_solver.
  - intros (cl & Hc & (rf & Hi & H)%bind_Some)%bind_Some.
    destruct (c_rep cl); [|done]. destruct (c_live cl); [|done].
    apply bind_Some in H as (rf' & Hs & [= <-]).
    destruct (absorb_keeps _ _ _ _ _ Hs) as [Ha Hsv]. split.
    + eapply (peers_kept_one _ _ _ (c_from cl) rf rf'); [done|done|]. intros. by eapply peer_ok_same.
    + eapply requests_same; [|done]. intros cl'. simpl. intros Hcl'. exists cl'. split; [|done].
      rewrite <-(take_drop_middle _ _ _ Hc). set_solver.
  - intros (cl & Hc & [= <-])%bind_Some. split; [split; [done|]|].
    + intros j rf rf'. simpl. by intros -> [= ->].
    + eapply requests_same; [|done]. intros cl'. simpl. intros Hcl'. exists cl'. split; [|done].
      rewrite <-(take_drop_middle _ _ _ Hc). set_solver.
  - done.
Qed.
End Moves.
