(* ===== verification/RfSysProof.v ===== *)
(** * The test service and the tester are right

    What the services hold and have reported are committed commands: one message
    of a service, its snapshots, and what the tester makes of its calls. *)
From S2P Require Import Prelude Persister Raft RaftNode RaftTheorems RaftApply RaftNet.
From S2P Require Import RaftProtocol RaftCommit RaftRefine RaftSafety RfSrv RfSrvTheorems RfSys.

Section Service.
Context {Cmd : Type} `{!Gob Cmd, !GobLaws Cmd, !EqDecision Cmd} (n : Z) (lossless : bool).
Implicit Types rf : Raft Cmd.
Implicit Types ts : Test Cmd.
Implicit Types g : Proto Cmd.

(** ** Committed commands *)

Definition good_entry g (k : Z) (v : option Cmd) : Prop :=
  0 < k ∧ ∃ T P e, committed n g T P ∧ P !! Z.to_nat k = Some e ∧ le_Command e = v.

(** A log of a service has nothing, or nil, at 0. *)
Definition entry_ok g (k : Z) (v : option Cmd) : Prop := k = 0 ∧ v = None ∨ good_entry g k v.

Definition good_snap g (k : Z) (b : bytes) : Prop :=
  0 < k ∧ b ≠ [] ∧ ∃ xlog rest, gob_decode b = GobInt k :: GobCmds xlog :: rest ∧
    len xlog = k + 1 ∧ ∀ j v, xlog !! j = Some v → entry_ok g (Z.of_nat j) v.

Definition msg_good g (m : ApplyMsg Cmd) : Prop :=
  match m with CommandMsg v k => good_entry g k v | SnapshotMsg b k _ => good_snap g k b end.

(** What is committed stays committed. *)
Definition grows g g' : Prop := ∀ T P, committed n g T P → committed n g' T P.

Lemma good_entry_grows g g' k v : grows g g' → good_entry g k v → good_entry g' k v.
Proof. intros Hg (Hk & T & P & e & HP & ?). split; [done|]. exists T, P, e. auto. Qed.

Lemma entry_ok_grows g g' k v : grows g g' → entry_ok g k v → entry_ok g' k v.
Proof. intros Hg [?|?]; [by left|right; by eapply good_entry_grows]. Qed.

Lemma good_snap_grows g g' k b : grows g g' → good_snap g k b → good_snap g' k b.
Proof.
  intros Hg (Hk & Hb & xlog & rest & Hd & Hl & Hx). split; [done|]. split; [done|].
  exists xlog, rest. split; [done|]. split; [done|]. eauto using entry_ok_grows.
Qed.

Lemma msg_good_grows g g' m : grows g g' → msg_good g m → msg_good g' m.
Proof. intros Hg. destruct m; [by eapply good_entry_grows|by eapply good_snap_grows]. Qed.

Lemma entry_ok_same g k v v' : proto_inv n g → entry_ok g k v → entry_ok g k v' → v = v'.
Proof.
  intros Hg [[-> ->]|(Hk & T & P & e & HP & He & <-)] [[? ->]|(Hk' & T' & P' & e' & HP' & He' & <-)];
    try done; try lia.
  f_equal. exact (committed_same_entry n g T T' P P' _ e e' Hg HP HP' He He').
Qed.

(** ** The service *)

Record rs_good g (rs : rfsrv Cmd) : Prop := {
  rg_ok : rs_ok rs;
  rg_entry k v : rs_log rs !! k = Some v → entry_ok g k v;
}.

Lemma rs_good_grows g g' rs : grows g g' → rs_good g rs → rs_good g' rs.
Proof. intros Hg [H1 H2]. split; [done|]. eauto using entry_ok_grows. Qed.

Lemma make_snapshot_good g rs k :
  rs_good g rs → 0 < k <= rs_lastApplied rs → good_snap g k (make_snapshot rs k).
Proof using All.
  intros [[Hpos Hlog] He] Hk. split; [lia|]. split; [apply gob_nonempty|].
  exists (snapshot_log rs k), []. unfold make_snapshot. rewrite gob_roundtrip.
  split; [done|]. split; [unfold snapshot_log, len; rewrite length_fmap, length_seqZ; lia|].
  intros j v Hj. unfold snapshot_log in Hj.
  apply list_lookup_fmap_Some in Hj as (z & -> & Hz). apply lookup_seqZ in Hz as [-> Hz].
  rewrite Z.add_0_l in *. destruct (rs_log rs !! Z.of_nat j) as [v|] eqn:Hv; [by apply He|].
  simpl. destruct (decide (j = 0%nat)) as [->|]; [by left|].
  destruct (Hlog (Z.of_nat j)) as [v Hv']; [lia|]. congruence.
Qed.

Lemma ingestSnap_good g b k idx rs :
  good_snap g k b → idx = k ∨ idx = -1 →
  ∃ rs', ingestSnap (Some b) idx rs = (rs', NoErr) ∧ rs_good g rs' ∧
    rs_lastApplied rs' = k ∧ rs_me rs' = rs_me rs.
Proof using All.
  intros (Hk & _ & xlog & rest & Hb & Hlen & Hx) Hidx. unfold ingestSnap. rewrite Hb.
  rewrite decide_False by lia. eexists. split; [done|]. split; [|done].
  assert (∀ j, 0 <= j → log_of xlog !! j = xlog !! Z.to_nat j) as Hlog by (intros; by apply log_of_lookup).
  split.
  - split; [simpl; lia|]. simpl. intros j Hj. rewrite Hlog by lia. apply lookup_lt_is_Some.
    unfold len in *. lia.
  - simpl. intros j v Hj. destruct (decide (0 <= j)) as [H0|H0].
    + rewrite Hlog in Hj by done. apply Hx in Hj. by rewrite Z2Nat.id in Hj by done.
    + unfold log_of in Hj. apply elem_of_list_to_map_2 in Hj.
      apply list_elem_of_lookup in Hj as [i Hi]. apply list_lookup_imap_Some in Hi as (w & _ & [= -> _]). lia.
Qed.

(** ** The tester *)

Definition err_ok (e : ErrMsg Cmd) : Prop :=
  match e with NoErr => True | ErrRPC | OutOfOrder _ _ => lossless = false | _ => False end.

Record test_ok g ts : Prop := {
  to_len : len (srvs ts) = n;
  to_entry j s k v : srvs ts !! j = Some s → logs s !! k = Some v → entry_ok g k v;
  to_err j s : srvs ts !! j = Some s → err_ok (applyErr s);
}.

Lemma test_ok_grows g g' ts : grows g g' → test_ok g ts → test_ok g' ts.
Proof. intros Hg [H1 H2 H3]. split; [done| |done]. eauto using entry_ok_grows. Qed.

(** Without lost calls the tester knows all that server [i] has applied. *)
Definition covered ts (i D : Z) : Prop :=
  lossless = true → ∀ s, srvs ts !! Z.to_nat i = Some s → ∀ j, 1 <= j <= D → is_Some (logs s !! j).

(** Only server [i] of the tester changes. *)
Definition only_srv (i : Z) ts ts' : Prop :=
  ∀ j, j ≠ Z.to_nat i → srvs ts' !! j = srvs ts !! j.

Lemma only_srv_refl i ts : only_srv i ts ts.
Proof. done. Qed.

Lemma only_srv_trans i ts1 ts2 ts3 : only_srv i ts1 ts2 → only_srv i ts2 ts3 → only_srv i ts1 ts3.
Proof. intros H1 H2 j Hj. by rewrite H2, H1. Qed.

Lemma covered_other i i' ts ts' D :
  0 <= i → 0 <= i' → i ≠ i' → only_srv i ts ts' → covered ts i' D → covered ts' i' D.
Proof. intros Hi Hi' Hne Ho H Hl s Hs. rewrite Ho in Hs by lia. by apply H. Qed.

Lemma tester_srv g ts i :
  test_ok g ts → 0 <= i < n → ∃ me, go_index (srvs ts) i = Some me ∧ srvs ts !! Z.to_nat i = Some me.
Proof.
  intros H Hi. destruct (go_index_some (srvs ts) i) as [me Hme]; [rewrite (to_len _ _ H); lia|].
  exists me. split; [done|]. by apply go_index_lookup in Hme as [_ Hme].
Qed.

Lemma set_srv_ok g ts i s' :
  test_ok g ts → 0 <= i < n → (∀ k v, logs s' !! k = Some v → entry_ok g k v) → err_ok (applyErr s') →
  ∃ ts', set_srv ts i s' = Some ts' ∧ test_ok g ts' ∧ only_srv i ts ts' ∧
    srvs ts' !! Z.to_nat i = Some s'.
Proof.
  intros H Hi Hs' He. unfold set_srv. rewrite go_set_some by (rewrite (to_len _ _ H); lia).
  eexists. split; [done|]. pose proof (to_len _ _ H) as Hlen.
  split; [split; simpl|split].
  - unfold len in *. by rewrite length_insert.
  - intros j s k v. rewrite list_lookup_insert_Some. intros [(_ & <- & _)|[_ Hj]] Hk; [by apply Hs'|].
    by eapply (to_entry _ _ H).
  - intros j s. rewrite list_lookup_insert_Some. intros [(_ & <- & _)|[_ Hj]]; [done|by eapply (to_err _ _ H)].
  - intros j Hj. simpl. by rewrite list_lookup_insert_ne.
  - simpl. apply list_lookup_insert_eq. unfold len in Hlen. lia.
Qed.

Lemma check_fold_ok g ts i k v :
  proto_inv n g → test_ok g ts → good_entry g k v →
  foldl (λ err '(j, s), check_entry i k v err (Z.of_nat j) s) NoErr (imap pair (srvs ts)) = NoErr.
Proof using All.
  intros Hg H Hv.
  assert (∀ p, p ∈ imap pair (srvs ts) → srvs ts !! p.1 = Some p.2) as Hall.
  { intros p [j Hj]%list_elem_of_lookup. by apply list_lookup_imap_Some in Hj as (s & Hs & ->). }
  induction (imap pair (srvs ts)) as [|[j s] l IH]; [done|]. cbn [foldl].
  assert (check_entry i k v NoErr (Z.of_nat j) s = NoErr) as ->.
  { unfold check_entry, entry. destruct (logs s !! k) as [old|] eqn:Hold; [|done].
    rewrite decide_False; [done|]. intros Hne. apply Hne. eapply entry_ok_same; [done| |by right].
    apply (to_entry _ _ H j s); [|done]. by apply (Hall (j, s)); left. }
  apply IH. intros p Hp. apply Hall. by right.
Qed.

Lemma CheckLogs_ok g ts i v k :
  proto_inv n g → test_ok g ts → 0 <= i < n → good_entry g k v →
  ∃ ts' me, CheckLogs i (CommandMsg v k) ts = Some (ts', (NoErr, bool_decide (is_Some (entry me (k - 1))))) ∧
    test_ok g ts' ∧ only_srv i ts ts' ∧ srvs ts !! Z.to_nat i = Some me ∧
    srvs ts' !! Z.to_nat i = Some (MkRaftServer (applyErr me) (<[k := v]> (logs me))).
Proof using All.
  intros Hg H Hi Hv. destruct (tester_srv g ts i H Hi) as (me & Hme & Hl).
  unfold CheckLogs. cbn [msg_Command msg_CommandIndex]. rewrite Hme. cbn [mbind option_bind].
  rewrite (check_fold_ok g ts i k v Hg H Hv).
  destruct (set_srv_ok g ts i (MkRaftServer (applyErr me) (<[k:=v]> (logs me))) H Hi)
    as (ts1 & -> & Hok & Ho & Hs).
  - intros j w. simpl. rewrite lookup_insert_Some. intros [[<- <-]|[_ Hj]]; [by right|by eapply (to_entry _ _ H)].
  - exact (to_err _ _ H _ me Hl).
  - cbn [mbind option_bind]. do 2 eexists. split; [done|]. split; [|by split_and!].
    destruct Hok as [H1 H2 H3]. by split.
Qed.

(** [ApplyErr], if the call is made. *)
Lemma report_err_ok g ts i fe err :
  test_ok g ts → 0 <= i < n → err_ok err →
  ∃ ts', (if decide (err ≠ NoErr) then call_ApplyErr fe i err ts else Some ts) = Some ts' ∧
    test_ok g ts' ∧ only_srv i ts ts' ∧
    ∀ me, srvs ts !! Z.to_nat i = Some me →
      ∃ me', srvs ts' !! Z.to_nat i = Some me' ∧ logs me' = logs me.
Proof.
  intros H Hi He. case_decide; [|exists ts; do 3 (split; [done|]); eauto].
  assert (∃ ts', ApplyErr i err ts = Some ts' ∧ test_ok g ts' ∧ only_srv i ts ts' ∧
    ∀ me, srvs ts !! Z.to_nat i = Some me →
      ∃ me', srvs ts' !! Z.to_nat i = Some me' ∧ logs me' = logs me) as Hdo.
  { destruct (tester_srv g ts i H Hi) as (me & Hme & Hl). unfold ApplyErr. rewrite Hme.
    cbn [mbind option_bind].
    destruct (set_srv_ok g ts i (MkRaftServer err (logs me)) H Hi) as (ts1 & -> & Hok & Ho & Hs).
    - intros k v. simpl. by eapply (to_entry _ _ H).
    - done.
    - exists ts1. do 3 (split; [done|]). intros me'. rewrite Hl. intros [= <-]. by eexists. }
  destruct fe; [done|done|exists ts; do 3 (split; [done|]); eauto].
Qed.

(** ** One message of the service *)

Lemma check_command_ok g ts rs f v k :
  proto_inv n g → test_ok g ts → 0 <= rs_me rs < n → good_entry g k v → k = rs_lastApplied rs + 1 →
  (lossless = true → f = RpcDone) → covered ts (rs_me rs) (rs_lastApplied rs) →
  ∃ ts' err, check_command f (CommandMsg v k) k rs ts = Some (ts', err) ∧
    test_ok g ts' ∧ only_srv (rs_me rs) ts ts' ∧ err_ok err ∧ covered ts' (rs_me rs) k.
Proof using All.
  intros Hg H Hi Hv Hk Hf Hcov. unfold check_command. rewrite decide_False by lia.
  destruct (CheckLogs_ok g ts (rs_me rs) v k Hg H Hi Hv) as (ts1 & me & Hcall & H1 & Ho & Hl & Hl1).
  destruct f; simpl; rewrite ?Hcall; cbn [mbind option_bind].
  - do 2 eexists. split; [done|]. split; [done|]. split; [done|]. split.
    + case_decide as Hp; [|done]. destruct Hp as (_ & Hk1 & Hprev). simpl.
      apply bool_decide_eq_false in Hprev. destruct lossless eqn:Hlo; [|done]. destruct Hprev.
      apply (Hcov Hlo me Hl). lia.
    + intros Hlo s Hs j Hj. rewrite Hl1 in Hs. injection Hs as <-. simpl.
      destruct (decide (j = k)) as [->|]; [by rewrite lookup_insert_eq|].
      rewrite lookup_insert_ne by done. apply (Hcov Hlo me Hl). lia.
  - do 2 eexists. split; [done|]. split; [done|]. split; [done|].
    rewrite ?(decide_False (P := _ ∧ _)) by (by intros [? _]).
    destruct lossless eqn:Hlo; [by specialize (Hf eq_refl)|].
    split; [done|]. intros Hc. by rewrite Hc in Hlo.
  - do 2 eexists. split; [done|]. split; [done|]. split; [done|].
    rewrite ?(decide_False (P := _ ∧ _)) by (by intros [? _]).
    destruct lossless eqn:Hlo; [by specialize (Hf eq_refl)|].
    split; [done|]. intros Hc. by rewrite Hc in Hlo.
Qed.

Lemma record_command_good g rs v k :
  rs_good g rs → good_entry g k v → k = rs_lastApplied rs + 1 → rs_good g (record_command v k rs).
Proof.
  intros [[Hpos Hlog] He] Hv Hk. split; [split|]; simpl; [lia|..].
  - intros j Hj. destruct (decide (j = k)) as [->|]; [by rewrite lookup_insert_eq|].
    rewrite lookup_insert_ne by done. apply Hlog. lia.
  - intros j w. rewrite lookup_insert_Some. intros [[<- <-]|[_ Hj]]; [by right|by apply He].
Qed.

Lemma ingest_call_ok g ts rs f :
  test_ok g ts → 0 <= rs_me rs < n → rs_good g rs → (lossless = true → f = RpcDone) →
  ∃ ts', call_IngestLog f (rs_me rs) (rs_log rs) ts = Some ts' ∧ test_ok g ts' ∧
    only_srv (rs_me rs) ts ts' ∧ covered ts' (rs_me rs) (rs_lastApplied rs).
Proof.
  intros H Hi [[_ Hlog] He] Hf.
  assert (∃ ts', IngestLog (rs_me rs) (rs_log rs) ts = Some ts' ∧ test_ok g ts' ∧
    only_srv (rs_me rs) ts ts' ∧ covered ts' (rs_me rs) (rs_lastApplied rs)) as Hdo.
  { destruct (tester_srv g ts (rs_me rs) H Hi) as (me & Hme & Hl). unfold IngestLog. rewrite Hme.
    cbn [mbind option_bind].
    destruct (set_srv_ok g ts (rs_me rs) (MkRaftServer (applyErr me) (rs_log rs)) H Hi)
      as (ts1 & -> & Hok & Ho & Hs); [done|exact (to_err _ _ H _ me Hl)|].
    exists ts1. do 3 (split; [done|]). intros _ s. rewrite Hs. intros [= <-]. exact Hlog. }
  destruct f; [done|done|]. exists ts. do 3 (split; [done|]).
  intros Hlo. by specialize (Hf Hlo).
Qed.

Lemma applierSnap_step_ok g ts rs f fe m :
  proto_inv n g → test_ok g ts → 0 <= rs_me rs < n → rs_good g rs →
  in_order (rs_lastApplied rs) [m] → msg_good g m → (lossless = true → f = RpcDone) →
  covered ts (rs_me rs) (rs_lastApplied rs) →
  ∃ rs' ts' snap, applierSnap_step f fe m rs ts = Some (rs', ts', snap) ∧
    rs_me rs' = rs_me rs ∧ rs_good g rs' ∧ rs_lastApplied rs' = msg_index m ∧
    test_ok g ts' ∧ only_srv (rs_me rs) ts ts' ∧ covered ts' (rs_me rs) (msg_index m) ∧
    ∀ k b, snap = Some (k, b) → k = msg_index m ∧ good_snap g k b.
Proof using All.
  intros Hg H Hi Hrs Hord Hm Hf Hcov. unfold applierSnap_step.
  destruct m as [v k|b k t]; cbn [in_order msg_good msg_index] in *; destruct Hord as [Hk _].
  - destruct (check_command_ok g ts rs f v k Hg H Hi Hm Hk Hf Hcov) as (ts1 & err & -> & H1 & Ho1 & Herr & Hc1).
    cbn [mbind option_bind]. pose proof (record_command_good g rs v k Hrs Hm Hk) as Hrs'.
    destruct (report_err_ok g ts1 (rs_me (record_command v k rs)) fe err H1 Hi Herr)
      as (ts2 & Hrep & H2 & Ho2 & Hsame). rewrite Hrep. cbn [mbind option_bind].
    do 3 eexists. split; [done|]. split; [done|]. split; [done|]. split; [done|]. split; [done|].
    split; [by eapply only_srv_trans|]. split.
    + intros Hlo s Hs j Hj. destruct (tester_srv g ts1 (rs_me rs) H1 Hi) as (me & _ & Hl).
      destruct (Hsame me Hl) as (me' & Hl' & Hlogs). simpl in Hl'. rewrite Hl' in Hs. injection Hs as <-.
      rewrite Hlogs. by apply (Hc1 Hlo me Hl).
    + unfold take_snapshot. intros k' b.
      destruct (decide ((k + 1) `rem` SnapShotInterval = 0)); [|done]. intros [= <- <-]. split; [done|].
      apply make_snapshot_good; [done|]. simpl. destruct Hm. lia.
  - destruct (ingestSnap_good g b k k rs Hm (or_introl eq_refl)) as (rs' & -> & Hrs' & Hla & Hme).
    rewrite <-Hme in Hi. destruct (ingest_call_ok g ts rs' f H Hi Hrs' Hf) as (ts1 & -> & H1 & Ho1 & Hc1).
    cbn [mbind option_bind]. rewrite decide_False by (by intros []). cbn [mbind option_bind].
    rewrite Hme in Ho1, Hc1. rewrite Hla in Hc1. do 3 eexists. split; [done|]. by do 6 (split; [done|]).
Qed.

(** A service that starts again from a good snapshot, or from none. *)
Lemma newRfsrv_ok g ts f i lii ps now draw :
  test_ok g ts → 0 <= i < n → (lossless = true → f = RpcDone) →
  lii = 0 ∧ ReadSnapshot ps = [] ∨ 0 < lii ∧ good_snap g lii (ReadSnapshot ps) →
  ∃ rs ts' rf, newRfsrv f n i ps true now draw ts = Some (rs, ts', rf) ∧
    rs_me rs = i ∧ rs_good g rs ∧ rs_lastApplied rs = lii ∧
    test_ok g ts' ∧ only_srv i ts ts' ∧ covered ts' i lii.
Proof using All.
  intros H Hi Hf Hps. unfold newRfsrv.
  assert (rs_good g (MkRfsrv i 0 ∅)) as H0.
  { split; [split; simpl; [done|lia]|]. simpl. intros k v Hv. by rewrite lookup_empty in Hv. }
  destruct Hps as [[-> ->]|[Hpos Hgood]].
  - rewrite decide_False by (by intros [_ ?]). do 3 eexists. split; [done|].
    do 5 (split; [done|]). intros _ s _ j Hj. lia.
  - rewrite decide_True; cycle 1.
    { split; [done|]. destruct Hgood as (_ & Hne & _). unfold len. destruct (ReadSnapshot ps); [done|]. simpl. lia. }
    destruct (ingestSnap_good g _ lii (-1) (MkRfsrv i 0 ∅) Hgood (or_intror eq_refl))
      as (rs & -> & Hrs & Hla & Hme). simpl in Hme. rewrite <-Hme in Hi.
    destruct (ingest_call_ok g ts rs f H Hi Hrs Hf) as (ts1 & Hcall & H1 & Ho1 & Hc1).
    rewrite Hme in Hcall, Ho1, Hc1. rewrite Hcall. cbn [mbind option_bind].
    do 3 eexists. split; [done|]. rewrite Hla in Hc1. by do 5 (split; [done|]).
Qed.
End Service.
