(* ===== verification/RfSysTheorems.v ===== *)
(** * The Raft test passes

    Over a cluster that loses, delays and reorders calls, whose peers crash,
    restart and compact their logs, the tester never hears of two different
    commands at one index, and if its own calls arrive no service ever reports an
    error: the end-to-end property of [RaftSafety.v], the order of [RaftApply.v]
    and the service of [RfSrv.v] together. *)
From S2P Require Import Prelude Persister Raft RaftNode RaftTheorems RaftApply RaftNet RaftElection.
From S2P Require Import RaftProtocol RaftCommit RaftRefine RaftSimLocal RaftSafety GobString.
From S2P Require Import RaftSafetyDemo RfSrv RfSrvTheorems RfSys RfSysKeep RfSysProof.

Section Sys.
Context {Cmd : Type} `{!Gob Cmd, !GobLaws Cmd, !EqDecision Cmd} (n : Z) (lossless : bool).
Implicit Types rf : Raft Cmd.
Implicit Types w : World Cmd.
Implicit Types g : Proto Cmd.
Abbreviation good_snap := (good_snap n).
Abbreviation grows := (grows n).
Abbreviation covered := (covered lossless).

(** The index of the last message a service received. *)
Definition svc_seen (sv : Svc Cmd) : Z :=
  match svc_pc sv with SvcGot m => msg_index m | _ => rs_lastApplied (svc_rs sv) end.

Record svc_ok g (i : Z) (sv : Svc Cmd) : Prop := {
  so_me : rs_me (svc_rs sv) = i;
  so_good : rs_good n g (svc_rs sv);
  so_pc :
    match svc_pc sv with
    | SvcIdle => True
    | SvcGot m => in_order (rs_lastApplied (svc_rs sv)) [m] ∧ msg_good n g m
    | SvcSnap k b => k = rs_lastApplied (svc_rs sv) ∧ good_snap g k b
    end;
}.

Record w_ok g w : Prop := {
  wo_rel : cluster_rel n g (w_raft w);
  wo_nodes i rf : nodes (w_raft w) !! i = Some rf → is_Some (w_svcs w !! i);
  wo_svc i sv : w_svcs w !! i = Some sv →
    0 <= i < n ∧ svc_ok g i sv ∧ covered (w_test w) i (rs_lastApplied (svc_rs sv)) ∧
    ∃ rf, nodes (w_raft w) !! i = Some rf ∧ peer_ok (good_snap g) (svc_seen sv) rf;
  wo_requests : requests_ok (good_snap g) (w_raft w);
  wo_test : test_ok n lossless g (w_test w);
}.

Lemma svc_ok_grows g g' i sv : grows g g' → svc_ok g i sv → svc_ok g' i sv.
Proof.
  intros Hg [H1 H2 H3]. split; [done|by eapply rs_good_grows|].
  destruct (svc_pc sv); [done|split; [apply H3|by eapply msg_good_grows, H3]|].
  split; [apply H3|by eapply good_snap_grows, H3].
Qed.

Lemma good_snap_nonempty g k b : good_snap g k b → b ≠ [].
Proof. by intros (_ & ? & _). Qed.

Lemma w_ok_nodes g w : w_ok g w → nodes_ok (good_snap g) (w_raft w).
Proof.
  intros H i rf Hi. pose proof (cr_node _ _ _ (wo_rel _ _ H) i rf Hi) as N.
  split; [apply N|]. split; [apply N|]. destruct (wo_nodes _ _ H i rf Hi) as [sv Hsv].
  destruct (wo_svc _ _ H i sv Hsv) as (_ & _ & _ & rf' & Hi' & Hp). simplify_eq. eauto.
Qed.

(** A step of the cluster: [g'] explains the new state, and all that was
    committed still is. *)
Lemma raft_step_rel g w c' :
  w_ok g w → step snapshot_contract (w_raft w) c' → ∃ g', cluster_rel n g' c' ∧ grows g g'.
Proof using All.
  intros H Hstep. destruct (cluster_steps n g (w_raft w) c') as (g' & H1 & _ & H2).
  - by apply rtc_once.
  - apply H.
  - by exists g'.
Qed.

(** The services and the tester are as before; peers have gone on. *)
Lemma w_ok_peers g g' w c' :
  w_ok g w → cluster_rel n g' c' → grows g g' → peers_kept (good_snap g) (w_raft w) c' →
  requests_ok (good_snap g) c' → w_ok g' (MkWorld c' (w_svcs w) (w_test w)).
Proof.
  intros H Hrel Hg [Hdom Hkept] Hreq. split; simpl.
  - done.
  - intros i rf' Hi. apply elem_of_dom_2 in Hi. rewrite Hdom in Hi. apply elem_of_dom in Hi as [rf Hi].
    by eapply (wo_nodes _ _ H).
  - intros i sv Hsv. destruct (wo_svc _ _ H i sv Hsv) as (Hin & Hs & Hc & rf & Hi & Hp).
    split; [done|]. split; [by eapply svc_ok_grows|]. split; [done|].
    assert (i ∈ dom (nodes c')) as [rf' Hi']%elem_of_dom by (rewrite Hdom; by eapply elem_of_dom_2).
    exists rf'. split; [done|]. eapply peer_ok_mono; [|by eapply Hkept].
    intros k b. by apply good_snap_grows.
  - intros cl a Hcl Ha. destruct (Hreq cl a Hcl Ha) as (b & Hb & Hgood). exists b.
    split; [done|]. by eapply good_snap_grows.
  - by eapply test_ok_grows, H.
Qed.

Lemma w_ok_raft g w m c' :
  w_ok g w → raft_move_ok (w_raft w) m = true → run_cmove raft_only (w_raft w) m = Some c' →
  ∃ g', w_ok g' (MkWorld c' (w_svcs w) (w_test w)).
Proof using All.
  intros H Hm Hrun.
  destruct (raft_step_rel g w c' H) as (g' & Hrel & Hg).
  { eapply step_impl; [apply raft_only_contract|by eapply run_cmove_step]. }
  destruct (raft_move_kept (good_snap g) (good_snap_nonempty g) (w_raft w) m c') as [Hk Hr];
    [by apply w_ok_nodes|apply H|done|done|].
  exists g'. by eapply w_ok_peers.
Qed.

(** A service and its peer have changed. *)
Lemma w_ok_service g g' w i rf rf' sv' ts' c' :
  w_ok g w → cluster_rel n g' c' → grows g g' →
  nodes (w_raft w) !! i = Some rf → nodes c' = <[i := rf']> (nodes (w_raft w)) →
  requests_ok (good_snap g) c' →
  svc_ok g i sv' → peer_ok (good_snap g) (svc_seen sv') rf' →
  test_ok n lossless g ts' → only_srv i (w_test w) ts' → covered ts' i (rs_lastApplied (svc_rs sv')) →
  w_ok g' (MkWorld c' (<[i := sv']> (w_svcs w)) ts').
Proof using All.
  intros H Hrel Hg Hi Hc' Hreq Hsv Hpeer Hts Honly Hcov.
  assert (∀ k b, good_snap g k b → good_snap g' k b) as Hmono by (intros k b; by apply good_snap_grows).
  destruct (wo_nodes _ _ H i rf Hi) as [sv Hsvi].
  destruct (wo_svc _ _ H i sv Hsvi) as (Hin & _).
  split; simpl.
  - done.
  - intros j rfj. rewrite Hc', lookup_insert_Some. intros [[<- _]|[Hne Hj]].
    + rewrite lookup_insert_eq. done.
    + rewrite lookup_insert_ne by done. by eapply (wo_nodes _ _ H).
  - intros j svj. rewrite lookup_insert_Some. intros [[<- <-]|[Hne Hj]].
    + split; [done|]. split; [by eapply svc_ok_grows|]. split; [done|].
      exists rf'. rewrite Hc', lookup_insert_eq. split; [done|]. by eapply peer_ok_mono.
    + destruct (wo_svc _ _ H j svj Hj) as (Hjn & Hs & Hc & rfj & Hrfj & Hp).
      split; [done|]. split; [by eapply svc_ok_grows|]. split; [eapply (covered_other _ i); [..|exact Hc]; try done; lia|].
      exists rfj. rewrite Hc', lookup_insert_ne by done. split; [done|]. by eapply peer_ok_mono.
  - intros cl a Hcl Ha. destruct (Hreq cl a Hcl Ha) as (b & Hb & Hgood). exists b. auto.
  - by eapply test_ok_grows.
Qed.

(** What a peer hands over is right. *)
Lemma sending_good g c i rf m k :
  cluster_rel n g c → nodes c !! i = Some rf → snap_ok (good_snap g) rf →
  applier_pc rf = ApSend m k → msg_good n g m.
Proof using All.
  intros H Hi Hs Hpc. destruct m as [v j|b j t]; simpl.
  - destruct (nr_sending _ _ _ _ (cr_node _ _ _ H i rf Hi) _ _ _ Hpc) as (Hj & e & He & <-).
    destruct (committed_entry n g c i rf j e H Hi ltac:(lia) He) as [HP Hl].
    split; [lia|]. by exists (currentTerm rf), (upto (commitIndex rf) (a_log g i)), e.
  - by eapply sn_sending.
Qed.

Lemma set_node_lookup (c : Cluster Cmd) i inp rf' c' rf :
  nodes c !! i = Some rf → run_cmove any_service c (CLocal i inp) = Some c' →
  local_input inp = true → handle inp rf = Some rf' → c' = set_node c i rf'.
Proof. simpl. intros -> Hrun Hl Hh. cbn in Hrun. rewrite Hl, Hh in Hrun. by injection Hrun as <-. Qed.

Lemma w_ok_receive g w i c' rf sv m k :
  w_ok g w → nodes (w_raft w) !! i = Some rf → w_svcs w !! i = Some sv →
  applier_pc rf = ApSend m k → svc_pc sv = SvcIdle →
  run_cmove any_service (w_raft w) (CLocal i InApplierReceived) = Some c' →
  ∃ g', w_ok g' (MkWorld c' (<[i := MkSvc (svc_rs sv) (SvcGot m)]> (w_svcs w)) (w_test w)).
Proof using All.
  intros H Hi Hsvi Hpc Hidle Hrun.
  destruct (wo_svc _ _ H i sv Hsvi) as (Hin & [Hme Hrs _] & Hcov & rf0 & Hi0 & Hpeer).
  rewrite Hi in Hi0. injection Hi0 as <-.
  destruct (w_ok_nodes g w H i rf Hi) as (Hwf & Hp & _).
  assert (handle InApplierReceived rf = Some (set_applier_pc (ApSent k) rf)) as Hh by (simpl; by rewrite Hpc).
  rewrite (set_node_lookup _ i _ _ c' rf Hi Hrun eq_refl Hh) in *. clear Hrun.
  assert (step snapshot_contract (w_raft w) (set_node (w_raft w) i (set_applier_pc (ApSent k) rf))) as Hstep
    by (by apply (step_local _ _ i rf InApplierReceived)).
  destruct (raft_step_rel g w _ H Hstep) as (g' & Hrel & Hg).
  unfold svc_seen in Hpeer. rewrite Hidle in Hpeer.
  destruct (peer_ok_handle (good_snap g) _ InApplierReceived rf _ (wf_lii_nonneg rf Hwf) Hp I I Hh Hpeer) as [Ho Hp'].
  unfold received in Ho, Hp'. rewrite Hpc in Ho, Hp'.
  exists g'. eapply (w_ok_service g); [done|done|done|exact Hi|done|apply H| | |apply H|done|done].
  - split; simpl; [done|done|]. split; [done|]. eapply sending_good; [apply H|exact Hi|apply Hpeer|exact Hpc].
  - unfold svc_seen. simpl. by destruct m.
Qed.

Lemma w_ok_report g w i f fe sv m rs ts snap :
  w_ok g w → (lossless = true → f = RpcDone) → w_svcs w !! i = Some sv → svc_pc sv = SvcGot m →
  applierSnap_step f fe m (svc_rs sv) (w_test w) = Some (rs, ts, snap) →
  w_ok g (MkWorld (w_raft w)
    (<[i := MkSvc rs match snap with Some (k, b) => SvcSnap k b | None => SvcIdle end]> (w_svcs w)) ts).
Proof using All.
  intros H Hf Hsvi Hgot Hstep.
  destruct (wo_svc _ _ H i sv Hsvi) as (Hin & [Hme Hrs Hpc] & Hcov & rf & Hi & Hpeer).
  rewrite Hgot in Hpc. destruct Hpc as [Hord Hm]. subst i.
  destruct (applierSnap_step_ok n lossless g (w_test w) (svc_rs sv) f fe m) as
    (rs' & ts' & snap' & Heq & Hme' & Hrs' & Hla & Hts & Honly & Hcov' & Hsnap);
    [apply (wo_rel _ _ H)|apply H|done..|].
  rewrite Hstep in Heq. injection Heq as <- <- <-.
  eapply (w_ok_service g g w _ rf rf); [done|apply H|by intros T P|exact Hi|by rewrite insert_id|apply H| | |done|done|].
  - split; simpl; [done|done|]. destruct snap as [[k b]|]; [|done].
    destruct (Hsnap k b eq_refl) as [-> ?]. by rewrite Hla.
  - unfold svc_seen in *. rewrite Hgot in Hpeer. simpl.
    destruct snap as [[k b]|]; by rewrite Hla.
  - simpl. by rewrite Hla.
Qed.

Lemma w_ok_snapshot g w i c' sv k b :
  w_ok g w → w_svcs w !! i = Some sv → svc_pc sv = SvcSnap k b →
  run_cmove any_service (w_raft w) (CLocal i (InSnapshot k b)) = Some c' →
  ∃ g', w_ok g' (MkWorld c' (<[i := MkSvc (svc_rs sv) SvcIdle]> (w_svcs w)) (w_test w)).
Proof using All.
  intros H Hsvi Hsnap Hrun.
  destruct (wo_svc _ _ H i sv Hsvi) as (Hin & [Hme Hrs Hpc] & Hcov & rf & Hi & Hpeer).
  rewrite Hsnap in Hpc. destruct Hpc as [Hk Hb]. unfold svc_seen in Hpeer. rewrite Hsnap in Hpeer.
  destruct (w_ok_nodes g w H i rf Hi) as (Hwf & Hp & _).
  pose proof Hrun as Hrun0. simpl in Hrun0. rewrite Hi in Hrun0. cbn in Hrun0.
  apply bind_Some in Hrun0 as (rf' & Hh & [= <-]).
  assert (snapshot_contract (InSnapshot k b) rf = true) as Hcontract.
  { apply bool_decide_eq_true. rewrite Hk. by eapply seen_delivered; apply Hpeer. }
  assert (step snapshot_contract (w_raft w) (set_node (w_raft w) i rf')) as Hstep
    by (by apply (step_local _ _ i rf (InSnapshot k b))).
  destruct (raft_step_rel g w _ H Hstep) as (g' & Hrel & Hg).
  destruct (peer_ok_handle (good_snap g) _ (InSnapshot k b) rf _ (wf_lii_nonneg rf Hwf) Hp Hb I Hh Hpeer)
    as [_ Hp'].
  exists g'. eapply (w_ok_service g); [done|done|done|exact Hi|done|apply H| | |apply H|done|done].
  - by split.
  - done.
Qed.

Lemma w_ok_crash g w i now draw f c' rf rs ts rf0 :
  w_ok g w → (lossless = true → f = RpcDone) → nodes (w_raft w) !! i = Some rf →
  run_cmove any_service (w_raft w) (CCrash i now draw) = Some c' →
  newRfsrv f n i (Checkpoint (persister rf)) true now draw (w_test w) = Some (rs, ts, rf0) →
  ∃ g', w_ok g' (MkWorld c' (<[i := MkSvc rs SvcIdle]> (w_svcs w)) ts).
Proof using All.
  intros H Hf Hi Hrun Hnew. destruct (wo_nodes _ _ H i rf Hi) as [sv Hsvi].
  destruct (wo_svc _ _ H i sv Hsvi) as (Hin & _ & _ & rf1 & Hi1 & Hpeer).
  rewrite Hi in Hi1. injection Hi1 as <-. destruct (w_ok_nodes g w H i rf Hi) as (Hwf & Hp & _).
  assert (step snapshot_contract (w_raft w) c') as Hstep.
  { simpl in Hrun. rewrite Hi in Hrun. cbn in Hrun. injection Hrun as <-. by eapply step_crash. }
  destruct (raft_step_rel g w _ H Hstep) as (g' & Hrel & Hg).
  destruct (newRfsrv_ok n lossless g (w_test w) f i (lastIncludedIndex rf) (Checkpoint (persister rf)) now draw)
    as (rs' & ts' & rf' & Heq & Hme & Hrs & Hla & Hts & Honly & Hcov); [apply H|done|done| |].
  { rewrite Checkpoint_id. apply (sn_saved _ _ (po_snap _ _ _ Hpeer)). }
  rewrite Hnew in Heq. injection Heq as <- <- <-.
  simpl in Hrun. rewrite Hi in Hrun. cbn in Hrun. injection Hrun as <-.
  exists g'. eapply (w_ok_service g g' w i rf (restarted rf now draw));
    [done|done|done|exact Hi|done| | | |done|done|simpl; by rewrite Hla].
  - eapply requests_same; [|apply H]. intros cl (cl0 & -> & Hcl0)%list_elem_of_fmap.
    exists cl0. split; [done|]. unfold orphan. by case_decide.
  - by split.
  - unfold svc_seen. simpl. rewrite Hla. by eapply peer_ok_restart.
Qed.

Lemma w_step_ok g w w' : w_ok g w → w_step lossless n w w' → ∃ g', w_ok g' w'.
Proof using All.
  intros H (mv & Hlo & Hmv).
  destruct mv as [m|i|i f fe|i|i now draw f]; cbn [w_move] in Hmv; cbv zeta in Hmv.
  - destruct (raft_move_ok (w_raft w) m) eqn:Hm; [|done].
    apply bind_Some in Hmv as (c' & Hrun & [= <-]). by eapply w_ok_raft.
  - apply bind_Some in Hmv as (rf & Hi & (sv & Hsv & Hmv)%bind_Some).
    destruct (applier_pc rf) as [| |m k| |] eqn:Hpc, (svc_pc sv) eqn:Hidle; try done.
    apply bind_Some in Hmv as (c' & Hrun & [= <-]). by eapply w_ok_receive.
  - apply bind_Some in Hmv as (sv & Hsv & Hmv). destruct (svc_pc sv) as [|m|] eqn:Hgot; try done.
    apply bind_Some in Hmv as ([[rs ts] snap] & Hstep & [= <-]). exists g.
    eapply w_ok_report; [done| |done|done|done].
    intros Hl. specialize (Hlo Hl). simpl in Hlo. apply bool_decide_eq_true in Hlo. apply Hlo.
  - apply bind_Some in Hmv as (sv & Hsv & Hmv). destruct (svc_pc sv) as [| |k b] eqn:Hsnap; try done.
    apply bind_Some in Hmv as (c' & Hrun & [= <-]). by eapply w_ok_snapshot.
  - apply bind_Some in Hmv as (rf & Hi & (c' & Hrun & ([[rs ts] rf0] & Hnew & [= <-])%bind_Some)%bind_Some).
    eapply w_ok_crash; [done| |done|exact Hrun|exact Hnew].
    intros Hl. specialize (Hlo Hl). simpl in Hlo. by apply bool_decide_eq_true in Hlo.
Qed.

(** *** The start *)

Lemma boot_peer_ok (good : Z → bytes → Prop) i now draw : peer_ok good 0 (boot n i now draw).
Proof. split; [split|by split|]; try done. left. by split. Qed.

Lemma no_entry (l : gmap Z (option Cmd)) k v g : l = ∅ → l !! k = Some v → entry_ok n g k v.
Proof. intros ->. by rewrite lookup_empty. Qed.

Lemma w_init_svc times draws i sv :
  w_svcs (w_init n times draws : World Cmd) !! i = Some sv →
  0 <= i < n ∧ sv = MkSvc (MkRfsrv i 0 ∅) SvcIdle.
Proof.
  intros Hi%elem_of_list_to_map_2. apply list_elem_of_fmap in Hi as (j & [= -> ->] & Hj%elem_of_seqZ).
  split; [lia|done].
Qed.

Lemma keyed_lookup {A} (f : Z → A) i :
  0 <= i < n → (list_to_map ((λ i, (i, f i)) <$> seqZ 0 n) : gmap Z A) !! i = Some (f i).
Proof.
  intros Hi. apply elem_of_list_to_map_1'.
  - intros y (j & [= -> ->] & _)%list_elem_of_fmap. done.
  - apply list_elem_of_fmap. exists i. split; [done|]. apply elem_of_seqZ. lia.
Qed.

Lemma w_init_ok times draws : 0 <= n → w_ok proto_init (w_init n times draws).
Proof using All.
  intros Hn. split; simpl.
  - by apply cluster_init.
  - intros i rf [Hi _]%init_node. rewrite keyed_lookup by done. done.
  - intros i sv Hi. apply (w_init_svc times draws) in Hi as [Hi ->].
    split; [done|]. split; [|split].
    + split; simpl; [done| |done]. split; [split; simpl; [done|lia]|].
      intros k v. by apply no_entry.
    + intros _ s _ j Hj. simpl in Hj. lia.
    + exists (boot n i (times i) (draws i)). rewrite keyed_lookup by done. split; [done|].
      apply boot_peer_ok.
  - intros cl a Hcl. by apply not_elem_of_nil in Hcl.
  - split; simpl.
    + unfold len. rewrite length_replicate. lia.
    + intros j s k v [-> _]%lookup_replicate. by apply no_entry.
    + intros j s [-> _]%lookup_replicate. done.
Qed.

Lemma w_reachable_ok times draws w :
  0 <= n → w_reachable lossless n times draws w → ∃ g, w_ok g w.
Proof using All.
  intros Hn Hr. pose proof (w_init_ok times draws Hn) as H0.
  assert (∃ g, w_ok g (w_init n times draws)) as H by eauto. clear H0.
  induction Hr as [w|w1 w2 w3 H12 _ IH]; [done|]. apply IH. destruct H as [g H]. by eapply w_step_ok.
Qed.

(** ** The theorem *)

Lemma test_ok_alike g ts : proto_inv n g → test_ok n lossless g ts → committed_alike ts.
Proof.
  intros Hg [_ He _] s s' k v v' [j Hs]%list_elem_of_lookup [j' Hs']%list_elem_of_lookup Hv Hv'.
  eapply (entry_ok_same n g); [done|by eapply (He j)|by eapply (He j')].
Qed.

(** C7: the Raft test cannot fail for what Raft does.  Whatever calls between the
    peers are lost, delayed or reordered, whichever servers crash and restart, and
    however often they compact their logs and install snapshots (none behind
    what its peer has handed on), the tester never holds two different commands
    for one index; the services only ever report calls to the tester that were
    lost and what they missed by them, so without such losses every service is
    free of errors and [nCommitted] counts, for every index, exactly the servers
    that have it; and no service panics on a message or fails to start again. *)
Theorem raft_test_agrees times draws w :
  0 <= n → w_reachable lossless n times draws w →
  committed_alike (w_test w) ∧
  (∀ s, s ∈ srvs (w_test w) →
     match applyErr s with NoErr => True | ErrRPC | OutOfOrder _ _ => lossless = false | _ => False end) ∧
  (lossless = true → ∀ k, ∃ cmd,
     nCommitted k (w_test w) = Some (len (reporters (w_test w) k), cmd) ∧ reported (w_test w) k cmd) ∧
  (∀ i sv m f fe, w_svcs w !! i = Some sv → svc_pc sv = SvcGot m →
     (lossless = true → f = RpcDone) → is_Some (w_move n w (WReport i f fe))) ∧
  (∀ i rf now draw f, nodes (w_raft w) !! i = Some rf →
     (lossless = true → f = RpcDone) → is_Some (w_move n w (WCrash i now draw f))).
Proof using All.
  intros Hn Hr. destruct (w_reachable_ok times draws w Hn Hr) as [g H].
  pose proof (wo_test _ _ H) as Hts. pose proof (cr_inv _ _ _ (wo_rel _ _ H)) as Hg.
  pose proof (test_ok_alike g _ Hg Hts) as Halike.
  assert (∀ s, s ∈ srvs (w_test w) → err_ok lossless (applyErr s)) as Herr.
  { intros s [j Hs]%list_elem_of_lookup. by eapply to_err. }
  split; [done|]. split; [done|]. split; [|split].
  - intros Hl k. apply nCommitted_spec; [done|]. intros s Hs. specialize (Herr s Hs).
    unfold err_ok in Herr. destruct (applyErr s); try done; congruence.
  - intros i sv m f fe Hsv Hgot Hf. cbn [w_move]. rewrite Hsv. cbn [mbind option_bind]. rewrite Hgot.
    destruct (wo_svc _ _ H i sv Hsv) as (Hin & [Hme Hrs Hpc] & Hcov & _).
    rewrite Hgot in Hpc. destruct Hpc as [Hord Hm]. subst i.
    destruct (applierSnap_step_ok n lossless g (w_test w) (svc_rs sv) f fe m)
      as (rs' & ts' & snap' & -> & _); [done..|]. by eexists.
  - intros i rf now draw f Hi Hf. cbn [w_move run_cmove handle]. rewrite Hi. cbn [mbind option_bind].
    destruct (wo_nodes _ _ H i rf Hi) as [sv Hsv].
    destruct (wo_svc _ _ H i sv Hsv) as (Hin & _ & _ & rf1 & Hi1 & Hpeer). simplify_eq.
    destruct (newRfsrv_ok n lossless g (w_test w) f i (lastIncludedIndex rf) (Checkpoint (persister rf)) now draw)
      as (rs & ts & rf' & -> & _); [done..| |by eexists].
    rewrite Checkpoint_id. apply (sn_saved _ _ (po_snap _ _ _ Hpeer)).
Qed.
End Sys.

(** ** Runs of the whole Raft test

    Three servers: peer 0 is elected and commits a command, the services of peers
    0 and 2 report it, peer 0 crashes and its service starts anew; and the same
    with a lost call of a service to the tester. *)

Fixpoint w_moves (n : Z) (w : World string) (mvs : list (WMove string)) : option (World string) :=
  match mvs with [] => Some w | mv :: mvs => w' ← w_move n w mv; w_moves n w' mvs end.

Lemma w_moves_steps lossless n w w' mvs :
  w_moves n w mvs = Some w' →
  (lossless = true → forallb move_lossless mvs = true) → rtc (w_step lossless n) w w'.
Proof.
  revert w. induction mvs as [|mv mvs IH]; intros w; simpl; [intros [= <-]; constructor|].
  intros (w1 & H1 & H2)%bind_Some Hl. eapply rtc_l.
  - exists mv. split; [|done]. intros Ht. by specialize (Hl Ht) as [? _]%andb_true_iff.
  - apply IH; [done|]. intros Ht. by specialize (Hl Ht) as [_ ?]%andb_true_iff.
Qed.

Definition no_times (i : Z) : Z := 0.

(** The commit at peer 0 and the way of the command to the tester. *)
Definition report_moves (f : RpcFate) : list (WMove string) :=
  (WRaft <$> commit_moves) ++ [WReceive 0; WReport 0 f f; WRaft (CLocal 0 InApplierSent)].

Definition agree_moves : list (WMove string) :=
  report_moves RpcDone ++ (WRaft <$> catch_up_moves) ++
  [WReceive 2; WReport 2 RpcDone RpcDone; WCrash 0 100 0 RpcDone].

Definition agreed : World string :=
  Eval vm_compute in default (w_init 3 no_times no_times)
    (w_moves 3 (w_init 3 no_times no_times) agree_moves).

Lemma agreed_reachable : w_reachable true 3 no_times no_times agreed.
Proof. apply (w_moves_steps _ _ _ _ agree_moves); [vm_compute; reflexivity|done]. Qed.

Lemma raft_test_agrees_witness :
  nCommitted 1 (w_test agreed) = Some (2, Some "x") ∧
  committed_alike (w_test agreed) ∧
  (∀ s, s ∈ srvs (w_test agreed) →
     match applyErr s with NoErr => True | ErrRPC | OutOfOrder _ _ => true = false | _ => False end) ∧
  (true = true → ∀ k, ∃ cmd,
     nCommitted k (w_test agreed) = Some (len (reporters (w_test agreed) k), cmd) ∧
     reported (w_test agreed) k cmd) ∧
  (∀ i sv m f fe, w_svcs agreed !! i = Some sv → svc_pc sv = SvcGot m →
     (true = true → f = RpcDone) → is_Some (w_move 3 agreed (WReport i f fe))) ∧
  (∀ i rf now draw f, nodes (w_raft agreed) !! i = Some rf →
     (true = true → f = RpcDone) → is_Some (w_move 3 agreed (WCrash i now draw f))).
Proof.
  split; [vm_compute; reflexivity|].
  apply (raft_test_agrees 3 true no_times no_times); [lia|exact agreed_reachable].
Defined.

(** The call that reports the first command is lost; the second one is then
    reported as out of order, although the peer handed both on in order. *)
Definition blame_moves : list (WMove string) :=
  report_moves RpcNotSent ++
  [WRaft (CLocal 0 (InStart "y")); WRaft (CGo 0 2); WRaft (CGo 0 2); WRaft (CServe 0 6);
   WRaft (CReply 0); WRaft (CLocal 0 InApplierTop); WReceive 0; WReport 0 RpcDone RpcDone].

Definition blamed : World string :=
  Eval vm_compute in default (w_init 3 no_times no_times)
    (w_moves 3 (w_init 3 no_times no_times) blame_moves).

Example lost_report_blamed :
  w_reachable false 3 no_times no_times blamed ∧
  applyErr <$> go_index (srvs (w_test blamed)) 0 = Some (OutOfOrder 0 2).
Proof.
  split; [|vm_compute; reflexivity].
  apply (w_moves_steps _ _ _ _ blame_moves); [vm_compute; reflexivity|done].
Qed.
