(* ===== verification/LabRpc.v ===== *)
(** * The simulated network

    [src/src/labrpc/labrpc.go]: client ends, the network that loses, delays and
    reorders, and servers that dispatch to services.  A name is any comparable
    value.  Servers are compared by address, so they live in a heap.  A random
    draw or a timer that decides something is an argument; [None] is a panic or
    [log.Fatalf], which end the process. *)
From S2P Require Import Prelude Persister.

(** The counters are an [int32] and an [int64]. *)
Definition i32 (z : Z) : Z := (z + 2 ^ 31) mod 2 ^ 32 - 2 ^ 31.
Definition i64 (z : Z) : Z := (z + 2 ^ 63) mod 2 ^ 64 - 2 ^ 63.

Record replyMsg := MkReplyMsg { ok : bool; reply : bytes }.

(** [replyMsg{false, nil}]. *)
Definition no_reply : replyMsg := MkReplyMsg false [].

(** [svcMeth[:dot]] and [svcMeth[dot+1:]] at the last dot. *)
Fixpoint split_last (l : list Ascii.ascii) : option (list Ascii.ascii * list Ascii.ascii) :=
  match l with
  | [] => None
  | c :: l =>
      match split_last l with
      | Some (svc, meth) => Some (c :: svc, meth)
      | None => if decide (c = Ascii.ascii_of_N 46) then Some ([], l) else None
      end
  end.

Definition split_method (svcMeth : string) : option (string * string) :=
  '(svc, meth) ← split_last (String.list_ascii_of_string svcMeth);
  Some (String.string_of_list_ascii svc, String.string_of_list_ascii meth).

Section LabRpc.
Context {Name : Type} `{!EqDecision Name, !Countable Name} {St : Type}.

(** ** Services

    A handler decodes its argument, works on the state of the server and
    encodes its reply; [None] when the argument does not decode. *)
Definition Handler : Type := St → bytes → option (St * bytes).

(** What [MakeService] asks of a method by reflection. *)
Record Method := MkMethod {
  m_name : string;
  m_exported : bool;
  m_numIn : Z;
  m_replyPtr : bool;
  m_numOut : Z;
  m_func : Handler;
}.

Record Service := MkService { svc_name : string; methods : gmap string Handler }.

Definition MakeService (name : string) (ms : list Method) : Service :=
  MkService name
    (foldl (λ acc m,
       if decide (m_exported m = false ∨ m_numIn m ≠ 3 ∨ m_replyPtr m = false ∨ m_numOut m ≠ 0)
       then acc else <[m_name m := m_func m]> acc) ∅ ms).

Definition Service_dispatch (svc : Service) (methname : string) (args : bytes) (st : St)
    : option (St * replyMsg) :=
  method ← methods svc !! methname;
  '(st, rep) ← method st args;
  Some (st, MkReplyMsg true rep).

(** ** Servers *)

Record Server := MkServer {
  services : gmap string Service;
  s_count : Z;
  dispatchf : option (string → bytes → St → St * (bytes * bool));
  s_state : St;
}.

Definition MakeServer (st : St) : Server := MkServer ∅ 0 None st.

Definition SetDispatch f (rs : Server) : Server :=
  MkServer (services rs) (s_count rs) (Some f) (s_state rs).

Definition AddService (svc : Service) (rs : Server) : Server :=
  MkServer (<[svc_name svc := svc]> (services rs)) (s_count rs) (dispatchf rs) (s_state rs).

Record reqMsg := MkReqMsg { endname : Name; svcMeth : string; r_args : bytes }.

Definition dispatch (req : reqMsg) (rs : Server) : option (Server * replyMsg) :=
  '(serviceName, methodName) ← split_method (svcMeth req);
  let update st := MkServer (services rs) (s_count rs + 1) (dispatchf rs) st in
  match dispatchf rs with
  | Some f =>
      let '(st, (rep, ok)) := f (svcMeth req) (r_args req) (s_state rs) in
      Some (update st, MkReplyMsg ok rep)
  | None =>
      service ← services rs !! serviceName;
      '(st, rep) ← Service_dispatch service methodName (r_args req) (s_state rs);
      Some (update st, rep)
  end.

Definition Dispatch (svcMeth : string) (clnt : Name) (args : bytes) (rs : Server)
    : option (Server * (bytes * bool)) :=
  '(rs, rep) ← dispatch (MkReqMsg clnt svcMeth args) rs;
  Some (rs, (reply rep, ok rep)).

(** ** The network *)

Record Network := MkNetwork0 {
  reliable : bool;
  longDelays : bool;
  longReordering : bool;
  ends : gset Name;
  enabled : gmap Name bool;
  servers : gmap Name (option nat);
  connections : gmap Name (option Name);
  n_count : Z;
  n_bytes : Z;
}.

Definition MakeNetwork : Network := MkNetwork0 true false false ∅ ∅ ∅ ∅ 0 0.

Definition Reliable (yes : bool) (rn : Network) : Network :=
  MkNetwork0 yes (longDelays rn) (longReordering rn) (ends rn) (enabled rn) (servers rn)
    (connections rn) (n_count rn) (n_bytes rn).
Definition IsReliable (rn : Network) : bool := reliable rn.
Definition LongReordering (yes : bool) (rn : Network) : Network :=
  MkNetwork0 (reliable rn) (longDelays rn) yes (ends rn) (enabled rn) (servers rn)
    (connections rn) (n_count rn) (n_bytes rn).
Definition LongDelays (yes : bool) (rn : Network) : Network :=
  MkNetwork0 (reliable rn) yes (longReordering rn) (ends rn) (enabled rn) (servers rn)
    (connections rn) (n_count rn) (n_bytes rn).
Definition IsLongDelays (rn : Network) : bool := longDelays rn.

Definition set_ends (es : gset Name) (en : gmap Name bool) (cs : gmap Name (option Name))
    (rn : Network) : Network :=
  MkNetwork0 (reliable rn) (longDelays rn) (longReordering rn) es en (servers rn) cs
    (n_count rn) (n_bytes rn).
Definition set_servers (ss : gmap Name (option nat)) (rn : Network) : Network :=
  MkNetwork0 (reliable rn) (longDelays rn) (longReordering rn) (ends rn) (enabled rn) ss
    (connections rn) (n_count rn) (n_bytes rn).

Definition MakeEnd (e : Name) (rn : Network) : option Network :=
  if decide (e ∈ ends rn) then None
  else Some (set_ends ({[e]} ∪ ends rn) (<[e := false]> (enabled rn))
               (<[e := None]> (connections rn)) rn).

Definition LookupEnd (e : Name) (rn : Network) : option Name :=
  if decide (e ∈ ends rn) then Some e else None.

Definition DeleteEnd (e : Name) (rn : Network) : option Network :=
  if decide (e ∈ ends rn) then
    Some (set_ends (ends rn ∖ {[e]}) (delete e (enabled rn)) (delete e (connections rn)) rn)
  else None.

Definition AddServer (s : Name) (a : nat) (rn : Network) : Network :=
  set_servers (<[s := Some a]> (servers rn)) rn.
Definition DeleteServer (s : Name) (rn : Network) : Network :=
  set_servers (<[s := None]> (servers rn)) rn.

Definition Connect (e s : Name) (rn : Network) : Network :=
  set_ends (ends rn) (enabled rn) (<[e := Some s]> (connections rn)) rn.
Definition Enable (e : Name) (yes : bool) (rn : Network) : Network :=
  set_ends (ends rn) (<[e := yes]> (enabled rn)) (connections rn) rn.

(** A count of a server that was deleted dereferences nil. *)
Definition GetCount (s : Name) (heap : gmap nat Server) (rn : Network) : option Z :=
  a ← default None (servers rn !! s); s_count <$> heap !! a.
Definition GetTotalCount (rn : Network) : Z := n_count rn.
Definition GetTotalBytes (rn : Network) : Z := n_bytes rn.

Record EndInfo := MkEndInfo {
  ei_enabled : bool;
  ei_server : option (Name * nat);
  ei_reliable : bool;
  ei_longreordering : bool;
}.

(** [ei_server] is there when both the name and the server are not nil. *)
Definition readEndnameInfo (e : Name) (rn : Network) : EndInfo :=
  MkEndInfo (default false (enabled rn !! e))
    (s ← default None (connections rn !! e); a ← default None (servers rn !! s); Some (s, a))
    (reliable rn) (longReordering rn).

Definition isServerDead (e s : Name) (a : nat) (rn : Network) : bool :=
  bool_decide (default false (enabled rn !! e) = false ∨ default None (servers rn !! s) ≠ Some a).

(** ** Requests in flight

    Where [processReq] is with a request: received by the network's goroutine;
    a timer that will answer without a reply; waiting for the handler that was
    started for server [a], named [s]; a reply held back; answered. *)
Inductive Wait :=
| WTaken
| WTimeout
| WHandler (s : Name) (a : nat) (reliable longreordering : bool)
| WDelayed (r : replyMsg)
| WDone (r : replyMsg).

(** [jobs] are the goroutines that are to call [server.dispatch], [ech] what
    they send; [execs] lists what was dispatched, for the theorems only. *)
Record World := MkWorld {
  net : Network;
  heap : gmap nat Server;
  reqs : gmap nat reqMsg;
  waits : gmap nat Wait;
  jobs : gmap nat nat;
  ech : gmap nat replyMsg;
  execs : list (nat * nat * replyMsg);
  listening : bool;
  done : bool;
}.

Definition init_world (rn : Network) (hp : gmap nat Server) : World :=
  MkWorld rn hp ∅ ∅ ∅ ∅ [] true false.

Definition set_net (rn : Network) (w : World) : World :=
  MkWorld rn (heap w) (reqs w) (waits w) (jobs w) (ech w) (execs w) (listening w) (done w).
Definition set_heap (hp : gmap nat Server) (w : World) : World :=
  MkWorld (net w) hp (reqs w) (waits w) (jobs w) (ech w) (execs w) (listening w) (done w).
Definition set_wait (id : nat) (x : Wait) (w : World) : World :=
  MkWorld (net w) (heap w) (reqs w) (<[id := x]> (waits w)) (jobs w) (ech w) (execs w)
    (listening w) (done w).

Definition add_bytes (n : Z) (rn : Network) : Network :=
  MkNetwork0 (reliable rn) (longDelays rn) (longReordering rn) (ends rn) (enabled rn)
    (servers rn) (connections rn) (n_count rn) (i64 (n_bytes rn + n)).
Definition add_count (rn : Network) : Network :=
  MkNetwork0 (reliable rn) (longDelays rn) (longReordering rn) (ends rn) (enabled rn)
    (servers rn) (connections rn) (i32 (n_count rn + 1)) (n_bytes rn).

(** [e.ch <- req] meets [<-rn.endCh] as long as the goroutine listens. *)
Definition take_req (id : nat) (req : reqMsg) (w : World) : option World :=
  if decide (listening w = true ∧ reqs w !! id = None) then
    Some (MkWorld (add_bytes (len (r_args req)) (add_count (net w))) (heap w)
            (<[id := req]> (reqs w)) (<[id := WTaken]> (waits w)) (jobs w) (ech w) (execs w)
            (listening w) (done w))
  else None.

(** [processReq] up to the wait for the handler; [drop] is the draw. *)
Definition start_req (id : nat) (drop : bool) (w : World) : option World :=
  req ← reqs w !! id;
  match waits w !! id with
  | Some WTaken =>
      let i := readEndnameInfo (endname req) (net w) in
      match ei_enabled i, ei_server i with
      | true, Some (s, a) =>
          if decide (ei_reliable i = false ∧ drop = true) then Some (set_wait id (WDone no_reply) w)
          else
            Some (MkWorld (net w) (heap w) (reqs w)
                    (<[id := WHandler s a (ei_reliable i) (ei_longreordering i)]> (waits w))
                    (<[id := a]> (jobs w)) (ech w) (execs w) (listening w) (done w))
      | _, _ => Some (set_wait id WTimeout w)
      end
  | _ => None
  end.

(** [r := server.dispatch(...); ech <- r]. *)
Definition run_job (id : nat) (w : World) : option World :=
  req ← reqs w !! id; a ← jobs w !! id; rs ← heap w !! a;
  '(rs, r) ← dispatch req rs;
  Some (MkWorld (net w) (<[a := rs]> (heap w)) (reqs w) (waits w) (delete id (jobs w))
          (<[id := r]> (ech w)) (execs w ++ [(id, a, r)]) (listening w) (done w)).

(** The check every 100 ms. *)
Definition poll_dead (id : nat) (w : World) : option World :=
  req ← reqs w !! id;
  match waits w !! id with
  | Some (WHandler s a _ _) =>
      if isServerDead (endname req) s a (net w) then Some (set_wait id (WDone no_reply) w)
      else Some w
  | _ => None
  end.

Definition send_reply (id : nat) (r : replyMsg) (w : World) : World :=
  set_wait id (WDone r) (set_net (add_bytes (len (reply r)) (net w)) w).

(** [case reply = <-ech] and what follows; [drop] and [reorder] are the draws. *)
Definition finish_req (id : nat) (drop reorder : bool) (w : World) : option World :=
  req ← reqs w !! id; r ← ech w !! id;
  match waits w !! id with
  | Some (WHandler s a rel lr) =>
      if isServerDead (endname req) s a (net w) then Some (set_wait id (WDone no_reply) w)
      else if decide (rel = false ∧ drop = true) then Some (set_wait id (WDone no_reply) w)
      else if decide (lr = true ∧ reorder = true) then Some (set_wait id (WDelayed r) w)
      else Some (send_reply id r w)
  | _ => None
  end.

(** A timer fires. *)
Definition fire_timer (id : nat) (w : World) : option World :=
  match waits w !! id with
  | Some WTimeout => Some (set_wait id (WDone no_reply) w)
  | Some (WDelayed r) => Some (send_reply id r w)
  | _ => None
  end.

Definition Cleanup (w : World) : World :=
  MkWorld (net w) (heap w) (reqs w) (waits w) (jobs w) (ech w) (execs w) (listening w) true.

(** The network's goroutine may leave once [rn.done] is closed. *)
Definition stop_listening (w : World) : option World :=
  if done w then
    Some (MkWorld (net w) (heap w) (reqs w) (waits w) (jobs w) (ech w) (execs w) false true)
  else None.

(** ** The caller

    What [Call] and [Forward] return once request [id] is answered; [None] while
    they block. *)
Definition Forward_result (id : nat) (w : World) : option (bytes * bool) :=
  match waits w !! id with
  | Some (WDone r) => Some (reply r, ok r)
  | _ => None
  end.

(** [unmarshal] is the decoding into the caller's reply, which keeps its value
    when the call fails; the inner [None] is a reply that does not decode. *)
Definition Call_result {A} (unmarshal : bytes → option A) (old : A) (id : nat) (w : World)
    : option (option (A * bool)) :=
  match waits w !! id with
  | Some (WDone r) =>
      Some (if ok r then x ← unmarshal (reply r); Some (x, true) else Some (old, false))
  | _ => None
  end.

(** [Call] through [callf], as a process outside the tester makes it. *)
Definition Call_forwarded {A} (callf : string → bytes → bytes * bool)
    (unmarshal : bytes → option A) (old : A) (svcMeth : string) (args : bytes)
    : option (A * bool) :=
  let '(rep, ok) := callf svcMeth args in
  if ok then x ← unmarshal rep; Some (x, true) else Some (old, false).

(** ** Steps *)

Inductive NetOp :=
| OpReliable (yes : bool)
| OpLongReordering (yes : bool)
| OpLongDelays (yes : bool)
| OpMakeEnd (e : Name)
| OpDeleteEnd (e : Name)
| OpAddServer (s : Name) (a : nat)
| OpDeleteServer (s : Name)
| OpConnect (e s : Name)
| OpEnable (e : Name) (yes : bool).

Definition net_op (o : NetOp) (rn : Network) : option Network :=
  match o with
  | OpReliable yes => Some (Reliable yes rn)
  | OpLongReordering yes => Some (LongReordering yes rn)
  | OpLongDelays yes => Some (LongDelays yes rn)
  | OpMakeEnd e => MakeEnd e rn
  | OpDeleteEnd e => DeleteEnd e rn
  | OpAddServer s a => Some (AddServer s a rn)
  | OpDeleteServer s => Some (DeleteServer s rn)
  | OpConnect e s => Some (Connect e s rn)
  | OpEnable e yes => Some (Enable e yes rn)
  end.

Inductive Event :=
| EvOp (o : NetOp)
| EvServer (a : nat) (rs : Server)
| EvTake (id : nat) (req : reqMsg)
| EvStart (id : nat) (drop : bool)
| EvRun (id : nat)
| EvPoll (id : nat)
| EvFinish (id : nat) (drop reorder : bool)
| EvTimer (id : nat)
| EvCleanup
| EvStop.

(** One event; [EvServer] makes or changes a server other than by a request. *)
Definition happen (e : Event) (w : World) : option World :=
  match e with
  | EvOp o => rn ← net_op o (net w); Some (set_net rn w)
  | EvServer a rs => Some (set_heap (<[a := rs]> (heap w)) w)
  | EvTake id req => take_req id req w
  | EvStart id drop => start_req id drop w
  | EvRun id => run_job id w
  | EvPoll id => poll_dead id w
  | EvFinish id drop reorder => finish_req id drop reorder w
  | EvTimer id => fire_timer id w
  | EvCleanup => Some (Cleanup w)
  | EvStop => stop_listening w
  end.

Fixpoint happens (es : list Event) (w : World) : option World :=
  match es with
  | [] => Some w
  | e :: es => w ← happen e w; happens es w
  end.
End LabRpc.

Arguments Method : clear implicits.
Arguments Service : clear implicits.
Arguments Server : clear implicits.
Arguments reqMsg : clear implicits.
Arguments Network Name {_ _}.
Arguments World Name {_ _} St.
Arguments Event Name St : clear implicits.
