(* ===== verification/LabRpcTheorems.v ===== *)
(** * What a remote call promises

    Theorems about the network of [LabRpc.v]: a request runs at most once and
    an answer is what the handler returned, a deleted server never answers, and
    a reliable network delivers. *)
From S2P Require Import Prelude Persister LabRpc.

Section Calls.
Context {Name : Type} `{!EqDecision Name, !Countable Name} {St : Type}.
Implicit Types (w : World Name St) (es : list (Event Name St)).

(** ** At most once *)

Definition exec_ids w : list nat := (execs w).*1.*1.

(** Where a request is, and whether its handler has run. *)
Definition request_ok w (id : nat) : Prop :=
  match waits w !! id with
  | None => reqs w !! id = None ∧ jobs w !! id = None ∧ ech w !! id = None ∧ id ∉ exec_ids w
  | Some WTaken | Some WTimeout => jobs w !! id = None ∧ ech w !! id = None ∧ id ∉ exec_ids w
  | Some (WHandler s a _ _) =>
      jobs w !! id = Some a ∧ ech w !! id = None ∧ id ∉ exec_ids w ∨
      jobs w !! id = None ∧ ∃ r, ech w !! id = Some r ∧ (id, a, r) ∈ execs w
  | Some (WDelayed r) => jobs w !! id = None ∧ ∃ a, (id, a, r) ∈ execs w
  | Some (WDone r) =>
      (r = no_reply ∨ jobs w !! id = None ∧ ∃ a, (id, a, r) ∈ execs w) ∧
      (is_Some (jobs w !! id) → id ∉ exec_ids w)
  end ∧ (is_Some (waits w !! id) → is_Some (reqs w !! id)).

Definition calls_ok w : Prop := NoDup (exec_ids w) ∧ ∀ id, request_ok w id.

Lemma init_calls_ok rn (hp : gmap nat (Server St)) : calls_ok (init_world rn hp).
Proof.
  split; [constructor|]. intros id. unfold request_ok, exec_ids. cbn. rewrite !lookup_empty.
  split; [|by intros []]. repeat split. by apply not_elem_of_nil.
Qed.

(** Only request [id] moves, and nothing runs. *)
Lemma calls_ok_wait w id x :
  calls_ok w → is_Some (reqs w !! id) → request_ok (set_wait id x w) id →
  calls_ok (set_wait id x w).
Proof.
  intros [Hnd Hok] Hreq Hid. split; [done|]. intros j. destruct (decide (j = id)) as [->|Hj]; [done|].
  specialize (Hok j). unfold request_ok in *. cbn. by rewrite lookup_insert_ne.
Qed.

Lemma calls_ok_same w w' :
  waits w' = waits w → reqs w' = reqs w → jobs w' = jobs w → ech w' = ech w → execs w' = execs w →
  calls_ok w → calls_ok w'.
Proof.
  intros E1 E2 E3 E4 E5. unfold calls_ok, request_ok, exec_ids. by rewrite E1, E2, E3, E4, E5.
Qed.

Lemma exec_id w id a r : (id, a, r) ∈ execs w → id ∈ exec_ids w.
Proof.
  intros H. unfold exec_ids. apply list_elem_of_fmap. exists (id, a). split; [done|].
  apply list_elem_of_fmap. by exists (id, a, r).
Qed.

(** An answer to [id]: no reply, or what the handler returned. *)
Lemma calls_ok_answer w id x r :
  calls_ok w → waits w !! id = Some x →
  (x = WTaken ∨ x = WTimeout → r = no_reply) →
  (r = no_reply ∨ jobs w !! id = None ∧ ∃ a, (id, a, r) ∈ execs w) →
  calls_ok (set_wait id (WDone r) w).
Proof.
  intros Hc Hx Hr Hans. pose proof (proj2 Hc id) as [Hid Hreq]. rewrite Hx in Hid, Hreq.
  specialize (Hreq (mk_is_Some _ _ eq_refl)). apply calls_ok_wait; [done|done|].
  unfold request_ok. cbn. rewrite lookup_insert_eq. split; [|done].
  change (exec_ids (set_wait id (WDone r) w)) with (exec_ids w).
  split; [done|]. intros [a Ha]. destruct x; naive_solver.
Qed.

Lemma take_calls_ok id req w w' : calls_ok w → take_req id req w = Some w' → calls_ok w'.
Proof.
  intros Hc. unfold take_req. case_decide as Hl; [|done]. destruct Hl as [_ Hnone]. intros [= <-].
  destruct Hc as [Hnd Hok]. split; [done|]. intros j. pose proof (Hok j) as Hj.
  unfold request_ok in *. cbn. destruct (decide (j = id)) as [->|Hne].
  - rewrite !lookup_insert_eq. destruct Hj as [Hj Hs]. split; [|by eexists].
    destruct (waits w !! id) as [x|]; [|tauto]. destruct (Hs (mk_is_Some _ _ eq_refl)). congruence.
  - by rewrite !lookup_insert_ne.
Qed.

Lemma start_calls_ok id drop w w' : calls_ok w → start_req id drop w = Some w' → calls_ok w'.
Proof.
  intros Hc. unfold start_req. intros (req & Hreq & H)%bind_Some.
  destruct (waits w !! id) as [[]|] eqn:Hw; try done.
  pose proof (proj2 Hc id) as [Hid _]. rewrite Hw in Hid.
  assert (calls_ok (set_wait id WTimeout w)) as Htimeout.
  { apply calls_ok_wait; [done|by eexists|]. unfold request_ok. cbn. rewrite lookup_insert_eq.
    split; [done|by eexists]. }
  destruct (ei_enabled _); [|by injection H as <-].
  destruct (ei_server _) as [[s a]|]; [|by injection H as <-].
  case_decide; injection H as <-.
  - by eapply (calls_ok_answer w id WTaken no_reply); auto.
  - split; [exact (proj1 Hc)|]. intros j. pose proof (proj2 Hc j) as Hj.
    unfold request_ok in *. cbn. destruct (decide (j = id)) as [->|Hne].
    + rewrite !lookup_insert_eq. split; [left; split; [done|apply Hid]|by eexists].
    + by rewrite !lookup_insert_ne.
Qed.

Lemma run_calls_ok id w w' : calls_ok w → run_job id w = Some w' → calls_ok w'.
Proof.
  intros Hc. unfold run_job.
  intros (req & Hreq & (a & Ha & (rs & Hrs & ([rs' r] & Hd & [= <-])%bind_Some)%bind_Some)%bind_Some)%bind_Some.
  pose proof (proj2 Hc id) as [Hid Hsome].
  assert (id ∉ exec_ids w) as Hnew.
  { destruct (waits w !! id) as [[]|]; naive_solver. }
  split.
  - unfold exec_ids. cbn. rewrite !fmap_app. cbn. apply list.NoDup_app.
    split; [apply Hc|]. split; [|apply NoDup_singleton].
    intros x Hx Hxs. apply list_elem_of_singleton in Hxs as ->. done.
  - intros j. pose proof (proj2 Hc j) as Hj. unfold request_ok, exec_ids in *. cbn.
    rewrite !fmap_app. cbn. destruct (decide (j = id)) as [->|Hne].
    + rewrite lookup_delete_eq, lookup_insert_eq.
      assert ((id, a, r) ∈ execs w ++ [(id, a, r)]) as Hin.
      { apply elem_of_app. right. by apply list_elem_of_singleton. }
      split; [|done]. destruct (waits w !! id) as [[]|]; [naive_solver|naive_solver| | | |naive_solver].
      * right. split; [done|]. exists r. split; [done|]. naive_solver.
      * naive_solver.
      * split; [|by intros []]. destruct Hid as [[->|[? _]] _]; [by left|congruence].
    + rewrite lookup_delete_ne, lookup_insert_ne by done.
      assert (∀ x, x ∈ execs w → x ∈ execs w ++ [(id, a, r)]) as Hmono.
      { intros x Hx. apply elem_of_app. by left. }
      assert (j ∉ (execs w).*1.*1 → j ∉ (execs w).*1.*1 ++ [id]) as Hnot.
      { intros Hj' [?|?%list_elem_of_singleton]%elem_of_app; done. }
      destruct Hj as [Hj ?]. split; [|done].
      destruct (waits w !! j) as [[]|]; naive_solver.
Qed.

Lemma poll_calls_ok id w w' : calls_ok w → poll_dead id w = Some w' → calls_ok w'.
Proof.
  intros Hc. unfold poll_dead. intros (req & Hreq & H)%bind_Some.
  destruct (waits w !! id) as [[]|] eqn:Hw; try done.
  destruct (isServerDead _ _ _ _); injection H as <-; [|done].
  eapply (calls_ok_answer w id _ no_reply Hc Hw); auto.
Qed.

Lemma finish_calls_ok id drop reorder w w' : calls_ok w → finish_req id drop reorder w = Some w' → calls_ok w'.
Proof.
  intros Hc. unfold finish_req. intros (req & Hreq & (r & Hr & H)%bind_Some)%bind_Some.
  destruct (waits w !! id) as [[]|] eqn:Hw; try done.
  pose proof (proj2 Hc id) as [Hid Hs]. rewrite Hw in Hid, Hs.
  assert (jobs w !! id = None ∧ ∃ a, (id, a, r) ∈ execs w) as Hex by naive_solver.
  destruct (isServerDead _ _ _ _);
    [injection H as <-; eapply (calls_ok_answer w id _ no_reply Hc Hw); auto|].
  case_decide; [injection H as <-; eapply (calls_ok_answer w id _ no_reply Hc Hw); auto|].
  case_decide; injection H as <-.
  - apply calls_ok_wait; [done|by eexists|]. unfold request_ok. cbn. rewrite lookup_insert_eq.
    split; [done|by eexists].
  - apply (calls_ok_same (set_wait id (WDone r) w)); try done.
    eapply (calls_ok_answer w id _ r Hc Hw); [by intros [|]|by right].
Qed.

Lemma timer_calls_ok id w w' : calls_ok w → fire_timer id w = Some w' → calls_ok w'.
Proof.
  intros Hc. unfold fire_timer. destruct (waits w !! id) as [[]|] eqn:Hw; try done; intros [= <-].
  - eapply (calls_ok_answer w id _ no_reply Hc Hw); auto.
  - pose proof (proj2 Hc id) as [Hid _]. rewrite Hw in Hid.
    apply (calls_ok_same (set_wait id (WDone r) w)); try done.
    eapply (calls_ok_answer w id _ r Hc Hw); [by intros [|]|by right].
Qed.

Lemma happen_calls_ok e w w' : calls_ok w → happen e w = Some w' → calls_ok w'.
Proof.
  intros Hc. destruct e; cbn [happen].
  - intros (rn & _ & [= <-])%bind_Some. by apply (calls_ok_same w).
  - intros [= <-]. by apply (calls_ok_same w).
  - by apply take_calls_ok.
  - by apply start_calls_ok.
  - by apply run_calls_ok.
  - by apply poll_calls_ok.
  - by apply finish_calls_ok.
  - by apply timer_calls_ok.
  - intros [= <-]. by apply (calls_ok_same w).
  - unfold stop_listening. destruct (done w); [|done]. intros [= <-]. by apply (calls_ok_same w).
Qed.

Lemma happens_calls_ok es w w' : calls_ok w → happens es w = Some w' → calls_ok w'.
Proof.
  revert w. induction es as [|e es IH]; intros w Hc; cbn [happens]; [by intros [= <-]|].
  intros (w1 & He & Hes)%bind_Some. eapply IH; [|done]. by eapply happen_calls_ok.
Qed.

Lemma exec_unique w id a1 a2 r1 r2 :
  NoDup (exec_ids w) → (id, a1, r1) ∈ execs w → (id, a2, r2) ∈ execs w → r1 = r2.
Proof.
  unfold exec_ids. intros Hnd [i Hi]%list_elem_of_lookup [j Hj]%list_elem_of_lookup.
  assert (i = j) as ->; [|congruence].
  eapply (NoDup_lookup _ i j id Hnd); by rewrite !list_lookup_fmap, ?Hi, ?Hj.
Qed.

(** ** What an event of the network leaves alone *)

Definition finished (y : Wait (Name := Name)) : Prop := ∃ r, y = WDone r.

(** No request is made, no handler runs and no server changes. *)
Definition quiet_kind (e : Event Name St) : bool :=
  match e with EvServer _ _ | EvTake _ _ | EvRun _ => false | _ => true end.

(** A handler may be started: for the server its request leads to. *)
Definition starts_job w w' (id : nat) : Prop :=
  waits w !! id = Some WTaken ∧ ∀ a, jobs w' !! id = Some a →
    ∃ req s, reqs w !! id = Some req ∧ connections (net w) !! endname req = Some (Some s) ∧
      servers (net w) !! s = Some (Some a).

Record quiet_event w w' : Prop := {
  qe_heap : heap w' = heap w;
  qe_reqs : reqs w' = reqs w;
  qe_execs : execs w' = execs w;
  qe_jobs id : jobs w' !! id = jobs w !! id ∨ starts_job w w' id;
  qe_waits id y : waits w' !! id = Some y →
    waits w !! id = Some y ∨ ∃ y0, waits w !! id = Some y0 ∧ ¬ finished y0;
}.

Lemma quiet_same w w' :
  heap w' = heap w → reqs w' = reqs w → execs w' = execs w → jobs w' = jobs w → waits w' = waits w →
  quiet_event w w'.
Proof. intros E1 E2 E3 E4 E5. split; rewrite ?E4, ?E5; auto. Qed.

Lemma quiet_wait w id y y0 :
  waits w !! id = Some y0 → ¬ finished y0 → quiet_event w (set_wait id y w).
Proof.
  intros Hy Hf. split; cbn; auto. intros id' y'. rewrite lookup_insert_Some.
  intros [[<- _]|[_ H]]; eauto.
Qed.

Lemma quiet_send w id r y0 :
  waits w !! id = Some y0 → ¬ finished y0 → quiet_event w (send_reply id r w).
Proof. intros Hy Hf. destruct (quiet_wait w id (WDone r) y0 Hy Hf). split; cbn; auto. Qed.

Lemma not_finished y : (∀ r, y ≠ WDone r) → ¬ finished y.
Proof. intros H [r ->]. by apply (H r). Qed.

#[local] Hint Resolve not_finished : core.

Lemma start_quiet id drop w w' : start_req id drop w = Some w' → quiet_event w w'.
Proof.
  unfold start_req. intros (req & Hreq & H)%bind_Some.
  destruct (waits w !! id) as [[]|] eqn:Hw; try done.
  destruct (ei_enabled _); [|injection H as <-; eapply quiet_wait; [done|auto]].
  destruct (ei_server _) as [[s a]|] eqn:Hs; [|injection H as <-; eapply quiet_wait; [done|auto]].
  case_decide; injection H as <-; [eapply quiet_wait; [done|auto]|].
  split; cbn; try done.
  - intros id'. destruct (decide (id' = id)) as [->|]; [right|left; by rewrite lookup_insert_ne].
    split; [done|]. intros a'. cbn. rewrite lookup_insert_eq. intros [= <-]. exists req, s.
    split; [done|]. cbn in Hs. apply bind_Some in Hs as (s' & Hc & (a' & Ha & [= -> ->])%bind_Some).
    split; [by destruct (connections _ !! _) as [[]|]; simplify_eq/=|].
    by destruct (servers _ !! _) as [[]|]; simplify_eq/=.
  - intros id' y. rewrite lookup_insert_Some. intros [[<- _]|[_ ?]]; [right|by left].
    exists WTaken. auto.
Qed.

Lemma happen_quiet e w w' : quiet_kind e = true → happen e w = Some w' → quiet_event w w'.
Proof.
  intros He. assert (∀ w1, quiet_event w1 w1) as Hrefl by (intros; by apply quiet_same).
  destruct e; try done; cbn [happen].
  - intros (rn & _ & [= <-])%bind_Some. by apply quiet_same.
  - apply start_quiet.
  - unfold poll_dead. intros (req & _ & H)%bind_Some.
    destruct (waits w !! id) as [[]|] eqn:Hw; try done.
    case_match; injection H as <-; [eapply quiet_wait; [done|auto]|done].
  - unfold finish_req. intros (req & _ & (r & _ & H)%bind_Some)%bind_Some.
    destruct (waits w !! id) as [[]|] eqn:Hw; try done.
    repeat case_match; injection H as <-; (first [eapply quiet_send|eapply quiet_wait]; [done|auto]).
  - unfold fire_timer. destruct (waits w !! id) as [[]|] eqn:Hw; try done; intros [= <-];
      [eapply quiet_wait|eapply quiet_send]; [done|auto|done|auto].
  - intros [= <-]. by apply quiet_same.
  - unfold stop_listening. case_match; [|done]. intros [= <-]. by apply quiet_same.
Qed.

(** Only operations on the network change where an end leads. *)
Definition same_ways (rn rn' : Network Name) : Prop :=
  ends rn' = ends rn ∧ connections rn' = connections rn ∧ servers rn' = servers rn.

Lemma happen_ways e w w' :
  (∀ o, e ≠ EvOp o) → happen e w = Some w' → same_ways (net w) (net w').
Proof.
  intros He. assert (∀ w1, same_ways (net w1) (net w1)) as Hrefl by done.
  destruct e; cbn [happen].
  - by destruct (He o).
  - by intros [= <-].
  - unfold take_req. case_decide; [|done]. by intros [= <-].
  - unfold start_req. intros (req & _ & H)%bind_Some.
    destruct (waits w !! id) as [[]|]; try done. destruct (ei_enabled _); [|by injection H as <-].
    destruct (ei_server _) as [[]|]; [|by injection H as <-]. by case_decide; injection H as <-.
  - unfold run_job. by intros (req & _ & (a & _ & (rs & _ & ([] & _ & [= <-])%bind_Some)%bind_Some)%bind_Some)%bind_Some.
  - unfold poll_dead. intros (req & _ & H)%bind_Some.
    destruct (waits w !! id) as [[]|]; try done. by case_match; injection H as <-.
  - unfold finish_req. intros (req & _ & (r & _ & H)%bind_Some)%bind_Some.
    destruct (waits w !! id) as [[]|]; try done. by repeat case_match; injection H as <-.
  - unfold fire_timer. by destruct (waits w !! id) as [[]|]; try done; intros [= <-].
  - by intros [= <-].
  - unfold stop_listening. case_match; [|done]. by intros [= <-].
Qed.

(** C30: remote calls run at most once.  However requests are lost, delayed and
    reordered, and whatever is connected, deleted or killed meanwhile, no
    request is dispatched twice, and a call that returns true returns what its
    one run of the handler replied. *)
Theorem rpc_at_most_once es rn (hp : gmap nat (Server St)) w :
  happens es (init_world rn hp) = Some w →
  NoDup (exec_ids w) ∧
  ∀ id rep, Forward_result id w = Some (rep, true) → ∃ a, (id, a, MkReplyMsg true rep) ∈ execs w.
Proof.
  intros Hw. destruct (happens_calls_ok es _ w (init_calls_ok rn hp) Hw) as [Hnd Hok].
  split; [done|]. intros id rep. unfold Forward_result.
  destruct (waits w !! id) as [[]|] eqn:Hd; try done. destruct r as [k b]. cbn. intros [= -> ->].
  destruct (Hok id) as [Hid _]. rewrite Hd in Hid. destruct Hid as [[?|[_ ?]] _]; [done|done].
Qed.

(** ** Deleted servers *)

(** No name leads to the server at [a]. *)
Definition detached (a : nat) w : Prop := ∀ s, servers (net w) !! s ≠ Some (Some a).

Definition adds_server (a : nat) (e : Event Name St) : bool :=
  match e with EvOp (OpAddServer _ a') => bool_decide (a' = a) | _ => false end.

Lemma net_op_detached o rn rn' a :
  net_op o rn = Some rn' → adds_server a (EvOp o) = false →
  (∀ s, servers rn !! s ≠ Some (Some a)) → ∀ s, servers rn' !! s ≠ Some (Some a).
Proof.
  intros Ho Ha Hd s. destruct o; cbn in Ho; try (injection Ho as <-; apply Hd).
  - unfold MakeEnd in Ho. case_decide; [done|]. injection Ho as <-. apply Hd.
  - unfold DeleteEnd in Ho. case_decide; [|done]. injection Ho as <-. apply Hd.
  - injection Ho as <-. cbn in Ha |- *. apply bool_decide_eq_false in Ha.
    intros [[-> [= ->]]|[_ Hs]]%lookup_insert_Some; [done|by apply (Hd s)].
  - injection Ho as <-. cbn. intros [[-> [=]]|[_ Hs]]%lookup_insert_Some. by apply (Hd s).
Qed.

Lemma happen_servers e w w' :
  happen e w = Some w' →
  servers (net w') = servers (net w) ∨ ∃ o, e = EvOp o ∧ net_op o (net w) = Some (net w').
Proof.
  intros H. destruct e as [o| | | | | | | | |];
    [|left; eapply proj2, proj2, happen_ways, H; done..].
  right. apply bind_Some in H as (rn & Ho & [= <-]). by exists o.
Qed.

(** The request an event is about. *)
Definition event_id (e : Event Name St) : option nat :=
  match e with
  | EvTake id _ | EvStart id _ | EvRun id | EvPoll id | EvFinish id _ _ | EvTimer id => Some id
  | _ => None
  end.

Lemma happen_other e w w' id :
  happen e w = Some w' → event_id e ≠ Some id → waits w' !! id = waits w !! id.
Proof.
  destruct e; cbn [happen event_id]; intros H Hid;
    try assert (id0 ≠ id) as Hne by congruence.
  - by apply bind_Some in H as (rn & _ & [= <-]).
  - by injection H as <-.
  - unfold take_req in H. case_decide; [|done]. injection H as <-. cbn. by rewrite lookup_insert_ne.
  - unfold start_req in H. apply bind_Some in H as (r & _ & H).
    destruct (waits w !! id0) as [[]|]; try done.
    destruct (ei_enabled _); [|injection H as <-; cbn; by rewrite lookup_insert_ne].
    destruct (ei_server _) as [[s a]|]; [|injection H as <-; cbn; by rewrite lookup_insert_ne].
    case_decide; injection H as <-; cbn; by rewrite lookup_insert_ne.
  - unfold run_job in H.
    apply bind_Some in H as (req & _ & (a & _ & (rs & _ & ([rs' r] & _ & [= <-])%bind_Some)%bind_Some)%bind_Some).
    done.
  - unfold poll_dead in H. apply bind_Some in H as (r & _ & H).
    destruct (waits w !! id0) as [[]|]; try done.
    destruct (isServerDead _ _ _ _); injection H as <-; [|done]. cbn. by rewrite lookup_insert_ne.
  - unfold finish_req in H. apply bind_Some in H as (r & _ & (q & _ & H)%bind_Some).
    destruct (waits w !! id0) as [[]|]; try done.
    destruct (isServerDead _ _ _ _); [injection H as <-; cbn; by rewrite lookup_insert_ne|].
    repeat case_decide; injection H as <-; cbn; by rewrite lookup_insert_ne.
  - unfold fire_timer in H. destruct (waits w !! id0) as [[]|]; try done; injection H as <-;
      cbn; by rewrite lookup_insert_ne.
  - by injection H as <-.
  - unfold stop_listening in H. destruct (done w); [|done]. by injection H as <-.
Qed.

(** A request that waits for the server at [a], or that got no reply. *)
Definition unanswered (a id : nat) w : Prop :=
  (∃ s rel lr, waits w !! id = Some (WHandler s a rel lr)) ∨ waits w !! id = Some (WDone no_reply).

Lemma detached_dead a w e s : detached a w → isServerDead e s a (net w) = true.
Proof.
  intros Hd. unfold isServerDead. apply bool_decide_eq_true. right. intros Hs. apply (Hd s).
  by destruct (servers (net w) !! s) as [x|]; cbn in Hs; [rewrite Hs|].
Qed.

Lemma happen_unanswered a id e w w' :
  calls_ok w → detached a w → unanswered a id w → happen e w = Some w' → unanswered a id w'.
Proof.
  intros Hc Hd Hu H. destruct (decide (event_id e = Some id)) as [Hid|Hid];
    [|unfold unanswered; by rewrite (happen_other e w w' id H Hid)].
  assert (is_Some (reqs w !! id)) as [req Hreq].
  { apply (proj2 Hc id). destruct Hu as [(s & rel & lr & ->)| ->]; by eexists. }
  destruct e; cbn in Hid; try done; injection Hid as ->; cbn [happen] in H.
  - unfold take_req in H. rewrite Hreq in H. case_decide as Hl; [|done]. by destruct Hl.
  - unfold start_req in H. rewrite Hreq in H. cbn in H.
    by destruct Hu as [(s & rel & lr & Hw)|Hw]; rewrite Hw in H.
  - unfold run_job in H. rewrite Hreq in H. cbn in H.
    apply bind_Some in H as (a' & _ & (rs & _ & ([rs' r] & _ & [= <-])%bind_Some)%bind_Some). exact Hu.
  - unfold poll_dead in H. rewrite Hreq in H. cbn in H.
    destruct Hu as [(s & rel & lr & Hw)|Hw]; rewrite Hw in H; [|done].
    rewrite detached_dead in H by done. injection H as <-. right. cbn. by rewrite lookup_insert_eq.
  - unfold finish_req in H. rewrite Hreq in H. cbn in H. apply bind_Some in H as (r & _ & H).
    destruct Hu as [(s & rel & lr & Hw)|Hw]; rewrite Hw in H; [|done].
    rewrite detached_dead in H by done. injection H as <-. right. cbn. by rewrite lookup_insert_eq.
  - unfold fire_timer in H. by destruct Hu as [(s & rel & lr & Hw)|Hw]; rewrite Hw in H.
Qed.

Lemma happens_unanswered a id es w w' :
  calls_ok w → detached a w → unanswered a id w →
  Forall (λ e, adds_server a e = false) es → happens es w = Some w' → unanswered a id w'.
Proof.
  revert w. induction es as [|e es IH]; intros w Hc Hd Hu Hes; cbn [happens]; [by intros [= <-]|].
  apply list.Forall_cons in Hes as [He Hes]. intros (w1 & H1 & H2)%bind_Some.
  apply (IH w1); [by eapply happen_calls_ok| |by eapply happen_unanswered|done|done].
  destruct (happen_servers e w w1 H1) as [Heq|(o & -> & Ho)].
  - unfold detached. by rewrite Heq.
  - intros s. by eapply net_op_detached.
Qed.

(** A deleted server never answers.  Once [DeleteServer] has taken away the
    last name of a server, and as long as nothing adds that same server again
    (a restarted server is a new one), every call that was waiting for it gets
    no reply, even if its handler ran before or runs later. *)
Theorem deleted_server_silent es es' rn (hp : gmap nat (Server St)) w w' a s rel lr id rep ok :
  happens es (init_world rn hp) = Some w → detached a w →
  waits w !! id = Some (WHandler s a rel lr) →
  Forall (λ e, adds_server a e = false) es' → happens es' w = Some w' →
  Forward_result id w' = Some (rep, ok) → rep = [] ∧ ok = false.
Proof.
  intros Hw Hd Hid Hes Hw'. unfold Forward_result.
  destruct (happens_unanswered a id es' w w') as [(? & ? & ? & ->)| ->]; try done.
  - eapply happens_calls_ok; [apply init_calls_ok|done].
  - left. by exists s, rel, lr.
  - by intros [= <- <-].
Qed.

(** ** A reliable network *)

(** Over a reliable network without long reordering, a call to a connected
    and enabled server is answered with what the server's dispatch returns,
    whatever the random draws. *)
Theorem reliable_call w id req s a rs rs' r drop drop' reorder :
  reqs w !! id = Some req → waits w !! id = Some WTaken →
  reliable (net w) = true → longReordering (net w) = false →
  enabled (net w) !! endname req = Some true → connections (net w) !! endname req = Some (Some s) →
  servers (net w) !! s = Some (Some a) → heap w !! a = Some rs → dispatch req rs = Some (rs', r) →
  ∃ w', happens [EvStart id drop; EvRun id; EvFinish id drop' reorder] w = Some w' ∧
    Forward_result id w' = Some (reply r, ok r) ∧ heap w' = <[a := rs']> (heap w).
Proof.
  intros Hreq Hw Hrel Hlr Hen Hco Hsv Hhp Hd. cbn [happens happen mbind option_bind].
  unfold start_req. rewrite Hreq. cbn [mbind option_bind]. rewrite Hw.
  unfold readEndnameInfo. rewrite Hen, Hco. cbn. rewrite Hsv. cbn.
  rewrite Hrel, Hlr. rewrite decide_False by (by intros [? _]). cbn.
  unfold run_job. cbn. rewrite Hreq. cbn. rewrite lookup_insert_eq. cbn. rewrite Hhp. cbn.
  rewrite Hd. cbn. unfold finish_req. cbn. rewrite Hreq. cbn. rewrite !lookup_insert_eq. cbn.
  unfold isServerDead. rewrite Hen, Hsv. cbn. rewrite bool_decide_eq_false_2 by (intros [|]; done).
  rewrite !decide_False by (by intros [? _]). eexists. split; [done|].
  unfold Forward_result. cbn. rewrite lookup_insert_eq. done.
Qed.
End Calls.

(** ** A concrete network

    One server with a counter: [C.Add] adds a byte to it and replies with the
    sum. *)
Definition add_handler : Handler (St := Z) := λ st args,
  match args with [b] => Some (st + b, [st + b]) | _ => None end.

Definition counter_service : Service Z :=
  MakeService "C" [MkMethod "Add" true 3 true 0 add_handler; MkMethod "helper" false 3 true 0 add_handler].

Definition counter_net : Network string :=
  Enable "end" true (Connect "end" "srv" (AddServer "srv" 0%nat
    (default MakeNetwork (MakeEnd "end" MakeNetwork)))).

Definition counter_heap : gmap nat (Server Z) := {[0%nat := AddService counter_service (MakeServer 5)]}.

Definition add_one : reqMsg string := MkReqMsg "end" "C.Add" [1].

Definition served_events : list (Event string Z) :=
  [EvTake 0 add_one; EvStart 0 false; EvRun 0; EvFinish 0 false false].

(** The server is deleted while the call waits; its handler runs anyway. *)
Definition deleting_events : list (Event string Z) :=
  [EvTake 0 add_one; EvStart 0 false; EvOp (OpDeleteServer "srv")].

Definition late_events : list (Event string Z) := [EvRun 0; EvFinish 0 false false].

Definition world_after (es : list (Event string Z)) : World string Z :=
  default (init_world counter_net counter_heap) (happens es (init_world counter_net counter_heap)).

Definition default_dead : World string Z :=
  default (world_after deleting_events) (happens late_events (world_after deleting_events)).

Lemma ran (es : list (Event string Z)) w :
  bool_decide (is_Some (happens es w)) = true → happens es w = Some (default w (happens es w)).
Proof. intros [x ->]%bool_decide_eq_true. done. Qed.

Lemma rpc_at_most_once_witness :
  Forward_result 0 (world_after served_events) = Some ([6], true) ∧
  ∃ a, (0%nat, a, MkReplyMsg true [6]) ∈ execs (world_after served_events).
Proof.
  assert (Forward_result 0 (world_after served_events) = Some ([6], true)) as Hr
    by (vm_compute; reflexivity).
  split; [exact Hr|].
  apply (rpc_at_most_once served_events counter_net counter_heap (world_after served_events)).
  - apply ran. vm_compute. reflexivity.
  - exact Hr.
Defined.

Lemma deleted_server_silent_witness :
  execs default_dead = [(0%nat, 0%nat, MkReplyMsg true [6])] ∧ ([] : bytes) = [] ∧ false = false.
Proof.
  split; [vm_compute; reflexivity|].
  apply (deleted_server_silent deleting_events late_events counter_net counter_heap
    (world_after deleting_events) default_dead 0%nat "srv" true false 0%nat).
  - apply ran. vm_compute. reflexivity.
  - intros s. assert (servers (net (world_after deleting_events)) = {["srv" := None]}) as ->
      by (vm_compute; reflexivity).
    intros [_ [=]]%lookup_singleton_Some.
  - vm_compute. reflexivity.
  - repeat constructor.
  - apply ran. vm_compute. reflexivity.
  - vm_compute. reflexivity.
Defined.

Lemma reliable_call_witness :
  ∃ w', happens [EvStart 0 true; EvRun 0; EvFinish 0 true true] (world_after [EvTake 0 add_one])
      = Some w' ∧
    Forward_result 0 w' = Some ([6], true).
Proof.
  destruct (reliable_call (world_after [EvTake 0 add_one]) 0 add_one "srv" 0
      (AddService counter_service (MakeServer 5))
      (MkServer (services (AddService counter_service (MakeServer 5))) 1 None 6)
      (MkReplyMsg true [6]) true true true) as (w' & H1 & H2 & _);
    try (vm_compute; reflexivity).
  exists w'. split; [exact H1|exact H2].
Defined.
