(* ===== verification/MapReduce.v ===== *)
(** * MapReduce

    [src/src/main/mrsequential.go]: a job run in one process; [src/src/mr]: the
    choice of a reduce task for a key; [src/src/mrapps]: applications.  Files are
    given by their contents.  [sort.Sort] does not fix the order of equal keys,
    so the sorted slice is whatever a [sort] returns that meets [sorts]. *)
From S2P Require Import Prelude Strs.

Record KeyValue := MkKeyValue { Key : string; Value : string }.

(** ** mr *)

(** [h.Sum32() & 0x7fffffff]. *)
Definition ihash (key : string) : Z := Z.land (fnv32a key) 2147483647.

(** [ihash(key) % NReduce] chooses the reduce task. *)
Definition reduce_task (key : string) (nReduce : Z) : Z := ihash key `rem` nReduce.

Record ExampleArgs := MkExampleArgs { ex_X : Z }.
Record ExampleReply := MkExampleReply { ex_Y : Z }.

(** [Coordinator.Example], on 64-bit integers. *)
Definition Example_handler (args : ExampleArgs) : ExampleReply :=
  MkExampleReply ((ex_X args + 1 + 2 ^ 63) mod 2 ^ 64 - 2 ^ 63).

(** [CallExample] prints the reply, if there is one. *)
Definition CallExample (call : ExampleArgs → option ExampleReply) : string :=
  match call (MkExampleArgs 99) with
  | Some reply => "reply.Y " +:+ Itoa (ex_Y reply)
  | None => "call failed!"
  end.

(** ** Applications *)

Definition MapF : Type := string → string → list KeyValue.
Definition ReduceF : Type := string → list string → string.

(** [unicode.IsLetter] below 128; [letters] stands for the tables beyond. *)
Definition IsLetter (letters : Z → bool) (r : Z) : bool :=
  if decide (r < 128) then bool_decide (65 <= r <= 90) || bool_decide (97 <= r <= 122)
  else letters r.

Definition words (letters : Z → bool) (contents : string) : list string :=
  FieldsFunc contents (λ r, negb (IsLetter letters r)).

(** wc.go *)
Definition wc_Map (letters : Z → bool) : MapF := λ _ contents,
  (λ w, MkKeyValue w "1") <$> words letters contents.
Definition wc_Reduce : ReduceF := λ _ values, Itoa (len values).

(** indexer.go; [order] is the iteration of the map of words of a document. *)
Definition indexer_Map (letters : Z → bool) (order : string → gset string → list string) : MapF :=
  λ document value,
    (λ w, MkKeyValue w document) <$> order document (list_to_set (words letters value)).
Definition indexer_Reduce : ReduceF := λ _ values,
  Itoa (len values) +:+ " " +:+ strings_Join (sort_strings values) ",".

(** nocrash.go, and crash.go when it neither exits nor sleeps. *)
Definition crash_Map : MapF := λ filename contents,
  [MkKeyValue "a" filename; MkKeyValue "b" (Itoa (Z.of_nat (String.length filename)));
   MkKeyValue "c" (Itoa (Z.of_nat (String.length contents))); MkKeyValue "d" "xyzzy"].
Definition crash_Reduce : ReduceF := λ _ values, strings_Join (sort_strings values) " ".

(** [maybeCrash] of crash.go on its draw: exit, sleep, or neither. *)
Inductive Fate := Exits | Sleeps | GoesOn.
Definition maybeCrash (rr : Z) : Fate :=
  if decide (rr < 330) then Exits else if decide (rr < 660) then Sleeps else GoesOn.

(** early_exit.go; the sleep of [Reduce] is left out. *)
Definition early_Map : MapF := λ filename _, [MkKeyValue filename "1"].
Definition early_Reduce : ReduceF := λ _ values, Itoa (len values).

(** rtiming.go; the number of parallel workers is what [nparallel] finds. *)
Definition rtiming_Map : MapF := λ _ _,
  (λ k, MkKeyValue k "1") <$> ["a"; "b"; "c"; "d"; "e"; "f"; "g"; "h"; "i"; "j"].
Definition rtiming_Reduce (nparallel : Z) : ReduceF := λ _ _, Itoa nparallel.

(** mtiming.go, on the time as printed, the process and what [nparallel] finds. *)
Definition mtiming_Map (ts : string) (pid n : Z) : MapF := λ _ _,
  [MkKeyValue ("times-" +:+ Itoa pid) ts; MkKeyValue ("parallel-" +:+ Itoa pid) (Itoa n)].
Definition mtiming_Reduce : ReduceF := λ _ values, strings_Join (sort_strings values) " ".

(** [nparallel]: the number of names of the form [mr-worker-<phase>-<pid>] whose
    process is alive; [scan] is [Sscanf] with that pattern. *)
Definition nparallel (scan : string → option Z) (alive : Z → bool) (names : list string) : Z :=
  foldl (λ ret name,
    match scan name with
    | Some xpid => if alive xpid then ret + 1 else ret
    | None => ret
    end) 0 names.

(** jobcount.go, on the names of the files in the directory. *)
Definition jobcount_Map : MapF := λ _ _, [MkKeyValue "a" "x"].
Definition jobcount_Reduce (files : list string) : ReduceF := λ _ _,
  Itoa (foldl (λ n f, if String.prefix "mr-worker-jobcount" f then n + 1 else n) 0 files).

(** ** mrsequential.go *)

Definition ByKey_Less (a b : KeyValue) : bool := String.ltb (Key a) (Key b).

Definition intermediate_of (mapf : MapF) (files : list (string * string)) : list KeyValue :=
  foldl (λ acc '(filename, content), acc ++ mapf filename content) [] files.

(** The inner loop: [j] after the run of keys equal to [key]; [n] bounds it. *)
Fixpoint run_end (n : nat) (intermediate : list KeyValue) (key : string) (j : nat) : nat :=
  match n, intermediate !! j with
  | S n, Some kv => if decide (Key kv = key) then run_end n intermediate key (S j) else j
  | _, _ => j
  end.

(** The outer loop from [i]: the key and the output of each [Fprintf]. *)
Fixpoint reduce_from (n : nat) (reducef : ReduceF) (intermediate : list KeyValue) (i : nat)
    : list (string * string) :=
  match n, intermediate !! i with
  | S n, Some kv =>
      let j := run_end (length intermediate) intermediate (Key kv) (i + 1) in
      let values := Value <$> take (j - i) (drop i intermediate) in
      (Key kv, reducef (Key kv) values) :: reduce_from n reducef intermediate j
  | _, _ => []
  end.

(** [Fprintf(ofile, "%v %v\n", key, output)]. *)
Definition output_line (p : string * string) : string :=
  p.1 +:+ " " +:+ p.2 +:+ String (Ascii.ascii_of_N 10) "".

Definition mrsequential (sort : list KeyValue → list KeyValue) (mapf : MapF) (reducef : ReduceF)
    (files : list (string * string)) : list (string * string) :=
  let intermediate := sort (intermediate_of mapf files) in
  reduce_from (length intermediate) reducef intermediate 0.

Definition mr_out (out : list (string * string)) : string :=
  foldr (λ p s, output_line p +:+ s) "" out.

(** ** What a job computes *)

(** What [sort.Sort(ByKey(...))] guarantees. *)
Definition sorts (sort : list KeyValue → list KeyValue) : Prop :=
  ∀ l, sort l ≡ₚ l ∧ StronglySorted (λ a b, ByKey_Less b a = false) (sort l).

(** The values of a key, and the distinct keys in order. *)
Definition values_of (k : string) (l : list KeyValue) : list string :=
  Value <$> filter (λ kv, Key kv = k) l.
Definition distinct_keys (l : list KeyValue) : list string :=
  sort_strings (elements (list_to_set (Key <$> l) : gset string)).

(** One line per distinct key, in order. *)
Definition mr_reference (reducef : ReduceF) (l : list KeyValue) : list (string * string) :=
  (λ k, (k, reducef k (values_of k l))) <$> distinct_keys l.

(** The output of [Reduce] does not depend on the order of the values. *)
Definition order_blind (reducef : ReduceF) : Prop :=
  ∀ k vs vs', vs ≡ₚ vs' → reducef k vs = reducef k vs'.

(** ** Keys *)

Lemma ByKey_Less_le a b : ByKey_Less b a = false ↔ str_le (Key a) (Key b).
Proof.
  unfold ByKey_Less, str_le, String.ltb, String.leb. rewrite (String.compare_antisym (Key a) (Key b)).
  by destruct (String.compare (Key b) (Key a)).
Qed.

Lemma elem_of_distinct_keys k l : k ∈ distinct_keys l ↔ ∃ kv, kv ∈ l ∧ Key kv = k.
Proof.
  unfold distinct_keys. rewrite sort_strings_perm, elem_of_elements, elem_of_list_to_set.
  rewrite list_elem_of_fmap. naive_solver.
Qed.

Lemma distinct_keys_NoDup l : NoDup (distinct_keys l).
Proof. unfold distinct_keys. rewrite sort_strings_perm. apply NoDup_elements. Qed.

#[export] Instance distinct_keys_proper : Proper ((≡ₚ) ==> (=)) distinct_keys.
Proof.
  intros l l' Hl. unfold distinct_keys.
  assert ((list_to_set (Key <$> l) : gset string) = list_to_set (Key <$> l')) as ->; [|done].
  apply set_eq. intros k. by rewrite !elem_of_list_to_set, Hl.
Qed.

#[export] Instance values_of_proper k : Proper ((≡ₚ) ==> (≡ₚ)) (values_of k).
Proof. intros l l' Hl. unfold values_of. by rewrite Hl. Qed.

(** ** The loops *)

Fixpoint run_len (key : string) (l : list KeyValue) : nat :=
  match l with
  | kv :: l => if decide (Key kv = key) then S (run_len key l) else 0%nat
  | [] => 0%nat
  end.

Lemma run_len_le key l : (run_len key l <= length l)%nat.
Proof. induction l as [|kv l IH]; simpl; [lia|]. case_decide; lia. Qed.

Lemma drop_cons_lookup {A} (l : list A) i x s :
  drop i l = x :: s → l !! i = Some x ∧ drop (S i) l = s.
Proof.
  intros H. split.
  - rewrite <-(Nat.add_0_r i), <-lookup_drop. by rewrite H.
  - rewrite <-Nat.add_1_r, <-drop_drop, H. done.
Qed.

Lemma run_end_spec n l key j :
  (length (drop j l) <= n)%nat → run_end n l key j = (j + run_len key (drop j l))%nat.
Proof.
  revert j. induction n as [|n IH]; intros j Hn; cbn [run_end].
  - destruct (drop j l); [simpl; lia|simpl in Hn; lia].
  - destruct (drop j l) as [|kv s] eqn:Hd.
    + assert (l !! j = None) as ->; [|simpl; lia]. apply lookup_ge_None.
      apply (f_equal length) in Hd. rewrite length_drop in Hd. simpl in Hd. lia.
    + apply drop_cons_lookup in Hd as [-> Hd]. simpl. case_decide; [|lia].
      rewrite IH by (rewrite Hd; simpl in Hn; lia). rewrite Hd. lia.
Qed.

Abbreviation key_sorted := (StronglySorted (λ a b, str_le (Key a) (Key b))).

(** In a sorted slice the entries of the first key come first. *)
Lemma run_filter key l :
  key_sorted l → (∀ kv, kv ∈ l → str_le key (Key kv)) →
  filter (λ kv, Key kv = key) l = take (run_len key l) l ∧
  ∀ kv, kv ∈ drop (run_len key l) l → Key kv ≠ key.
Proof.
  induction 1 as [|kv l Hs IH Hhd]; intros Hle; [split; [done|by intros kv ?%not_elem_of_nil]|].
  rewrite list.Forall_forall in Hhd. cbn [run_len]. rewrite filter_cons. case_decide as Hk.
  - destruct IH as [IH1 IH2]; [intros x Hx; rewrite <-Hk; by apply Hhd|].
    split; [cbn [take]; by rewrite IH1|done].
  - assert (∀ x, x ∈ kv :: l → Key x ≠ key) as Hne.
    { intros x [->|Hx]%elem_of_cons; [done|]. intros Hxk. apply Hk.
      apply (anti_symm str_le); [rewrite <-Hxk; by apply Hhd|]. apply Hle, elem_of_cons. by left. }
    split; [|exact Hne]. cbn [take].
    destruct (filter (λ x, Key x = key) l) as [|x s] eqn:Hf; [done|].
    assert (x ∈ filter (λ x, Key x = key) l) as [Hx1 Hx2]%list_elem_of_filter by (rewrite Hf; by left).
    destruct (Hne x); [apply elem_of_cons; by right|done].
Qed.

(** The entries after the first run. *)
Lemma run_rest kv l :
  key_sorted (kv :: l) →
  let s := drop (run_len (Key kv) l) l in
  key_sorted s ∧
  values_of (Key kv) (kv :: l) = Value <$> kv :: take (run_len (Key kv) l) l ∧
  distinct_keys (kv :: l) = Key kv :: distinct_keys s ∧
  ∀ k, k ∈ distinct_keys s → values_of k (kv :: l) = values_of k s.
Proof.
  intros [Hs Hhd]%StronglySorted_inv s. rewrite list.Forall_forall in Hhd.
  destruct (run_filter (Key kv) l Hs Hhd) as [Hrun Hne]. fold s in Hne.
  assert (∀ x, x ∈ s → x ∈ l) as Hsub.
  { intros x Hx. rewrite <-(take_drop (run_len (Key kv) l) l). apply elem_of_app. by right. }
  split.
  { unfold s. rewrite <-(take_drop (run_len (Key kv) l) l) in Hs.
    by apply StronglySorted_app_1_r in Hs. }
  split; [|split].
  - unfold values_of. rewrite filter_cons, decide_True by done. by rewrite Hrun.
  - apply str_sorted_unique; [apply sort_strings_sorted| |].
    + constructor; [apply sort_strings_sorted|]. apply list.Forall_forall.
      intros k (x & Hx & <-)%elem_of_distinct_keys. by apply Hhd, Hsub.
    + apply NoDup_Permutation; [apply distinct_keys_NoDup| |].
      * apply list.NoDup_cons. split; [|apply distinct_keys_NoDup].
        intros (x & Hx & Hk)%elem_of_distinct_keys. by apply (Hne x).
      * intros k. rewrite elem_of_cons, !elem_of_distinct_keys. split.
        -- intros (x & Hx & <-). destruct (decide (Key x = Key kv)) as [|Hxk]; [by left|right].
           exists x. split; [|done]. apply elem_of_cons in Hx as [->|Hx]; [done|].
           rewrite <-(take_drop (run_len (Key kv) l) l), <-Hrun in Hx.
           apply elem_of_app in Hx as [[? _]%list_elem_of_filter|Hx]; done.
        -- intros [->|(x & Hx & <-)]; [exists kv|exists x]; (split; [apply elem_of_cons; auto|done]).
  - intros k (x & Hx & <-)%elem_of_distinct_keys. unfold values_of. f_equal.
    rewrite filter_cons, decide_False by (intros Heq; by apply (Hne x)).
    rewrite <-(take_drop (run_len (Key kv) l) l) at 1. fold s. rewrite list.filter_app, <-Hrun.
    assert (filter (λ y, Key y = Key x) (filter (λ y, Key y = Key kv) l) = []) as ->; [|done].
    destruct (filter (λ y, Key y = Key x) _) as [|y m] eqn:Hf; [done|].
    assert (y ∈ y :: m) as Hy by (by left). rewrite <-Hf in Hy.
    apply list_elem_of_filter in Hy as [Hy1 [Hy2 _]%list_elem_of_filter].
    destruct (Hne x Hx). congruence.
Qed.

Lemma reduce_from_spec n reducef l i :
  key_sorted (drop i l) → (length (drop i l) <= n)%nat →
  reduce_from n reducef l i = mr_reference reducef (drop i l).
Proof.
  revert i. induction n as [|n IH]; intros i Hs Hn; cbn [reduce_from].
  - destruct (drop i l) as [|kv s]; [done|simpl in Hn; lia].
  - destruct (drop i l) as [|kv s] eqn:Hd.
    + assert (l !! i = None) as ->; [|done]. apply lookup_ge_None.
      apply (f_equal length) in Hd. rewrite length_drop in Hd. simpl in Hd. lia.
    + pose proof (drop_cons_lookup _ _ _ _ Hd) as [-> Hd1].
      rewrite run_end_spec by (rewrite length_drop; lia). rewrite Nat.add_1_r, Hd1.
      destruct (run_rest kv s Hs) as (Hs' & Hvals & Hkeys & Hrest).
      set (r := run_len (Key kv) s) in *.
      assert (drop (S i + r) l = drop r s) as Hdr by (by rewrite <-drop_drop, Hd1).
      unfold mr_reference at 1. rewrite Hkeys. cbn [fmap list_fmap]. f_equal.
      * f_equal. f_equal. rewrite Hvals. replace (S i + r - i)%nat with (S r) by lia. done.
      * rewrite IH; rewrite ?Hdr; [|done|].
        -- unfold mr_reference. apply list_fmap_ext. intros j k Hk%list_elem_of_lookup_2.
           by rewrite Hrest.
        -- rewrite length_drop. simpl in Hn. lia.
Qed.

Lemma mrsequential_sorted sort mapf reducef files :
  sorts sort →
  mrsequential sort mapf reducef files =
    mr_reference reducef (sort (intermediate_of mapf files)).
Proof.
  intros Hsort. unfold mrsequential. destruct (Hsort (intermediate_of mapf files)) as [_ Hs].
  rewrite reduce_from_spec; [by rewrite drop_0| |by rewrite drop_0].
  eapply StronglySorted_mono; [|exact Hs]. intros a b. by rewrite ByKey_Less_le.
Qed.

Lemma mr_reference_perm reducef l l' :
  order_blind reducef → l ≡ₚ l' → mr_reference reducef l = mr_reference reducef l'.
Proof.
  intros Hb Hl. unfold mr_reference. rewrite (distinct_keys_proper _ _ Hl).
  apply list_fmap_ext. intros i k _. f_equal. apply Hb. by rewrite Hl.
Qed.

(** C31: [mrsequential] computes the reference: whatever order [sort.Sort] leaves
    equal keys in, its index loops print one line per distinct key, in
    increasing order, with [Reduce] applied once to all the values of the key
    (in the order they have after the sort), and the output does not depend on
    that order when [Reduce] does not. *)
Theorem mrsequential_reference sort mapf reducef files :
  sorts sort →
  (let l := sort (intermediate_of mapf files) in
   mrsequential sort mapf reducef files = mr_reference reducef l ∧
   ∀ k, values_of k l ≡ₚ values_of k (intermediate_of mapf files)) ∧
  (order_blind reducef →
   mrsequential sort mapf reducef files = mr_reference reducef (intermediate_of mapf files)).
Proof.
  intros Hsort. destruct (Hsort (intermediate_of mapf files)) as [Hp _]. split; [split|].
  - by apply mrsequential_sorted.
  - intros k. by rewrite Hp.
  - intros Hb. rewrite mrsequential_sorted by done. by apply mr_reference_perm.
Qed.

(** ** The applications *)

Lemma intermediate_concat mapf files :
  intermediate_of mapf files = concat ((λ f : string * string, mapf f.1 f.2) <$> files).
Proof.
  unfold intermediate_of.
  assert (∀ acc, foldl (λ acc '((filename, content) : string * string),
    acc ++ mapf filename content) acc files =
    acc ++ concat ((λ f : string * string, mapf f.1 f.2) <$> files)) as H; [|apply H].
  induction files as [|[f c] files IH]; intros acc; simpl; [by rewrite app_nil_r|].
  by rewrite IH, <-app_assoc.
Qed.

Lemma concat_fmap_cons {A B} (f : A → list B) (x : A) (l : list A) :
  concat (f <$> x :: l) = f x ++ concat (f <$> l).
Proof. done. Qed.

Lemma wc_order_blind : order_blind wc_Reduce.
Proof. intros k vs vs' Hp. unfold wc_Reduce, len. by rewrite Hp. Qed.

Lemma indexer_order_blind : order_blind indexer_Reduce.
Proof.
  intros k vs vs' Hp. unfold indexer_Reduce, len. by rewrite (sort_strings_proper _ _ Hp), Hp.
Qed.

(** All the words of the files. *)
Definition all_words (letters : Z → bool) (files : list (string * string)) : list string :=
  concat ((λ f : string * string, words letters f.2) <$> files).

Lemma wc_intermediate letters files :
  intermediate_of (wc_Map letters) files = (λ w, MkKeyValue w "1") <$> all_words letters files.
Proof.
  rewrite intermediate_concat. unfold all_words, wc_Map.
  induction files as [|f files IH]; [done|]. by rewrite !concat_fmap_cons, fmap_app, IH.
Qed.

Lemma values_of_words w (ws : list string) :
  values_of w ((λ w, MkKeyValue w "1") <$> ws) = (λ _, "1") <$> filter (λ x, x = w) ws.
Proof.
  unfold values_of. induction ws as [|x ws IH]; [done|].
  rewrite fmap_cons, !filter_cons. cbn [Key]. case_decide; [rewrite !fmap_cons|]; by rewrite IH.
Qed.

(** The distinct strings of a list in order. *)
Definition distinct (ws : list string) : list string :=
  sort_strings (elements (list_to_set ws : gset string)).

(** Word count counts words.  [mrsequential] with wc.go prints one line per
    distinct word of all the files, in order, with the number of times the word
    occurs, whatever order [sort.Sort] leaves equal words in. *)
Theorem wc_correct sort letters files :
  sorts sort →
  mrsequential sort (wc_Map letters) wc_Reduce files =
    (λ w, (w, Itoa (len (filter (λ x, x = w) (all_words letters files))))) <$>
      distinct (all_words letters files).
Proof.
  intros Hsort. rewrite mrsequential_sorted, (mr_reference_perm _ _ (intermediate_of (wc_Map letters) files));
    [|apply wc_order_blind|by apply Hsort|done].
  rewrite wc_intermediate. unfold mr_reference, distinct_keys.
  rewrite <-list_fmap_compose. rewrite (list_fmap_ext _ id), list_fmap_id by done.
  apply list_fmap_ext. intros i w _. rewrite values_of_words. unfold wc_Reduce, len.
  by rewrite length_fmap.
Qed.

(** The documents that contain a word. *)
Definition documents (letters : Z → bool) (files : list (string * string)) (w : string)
    : list string :=
  (filter (λ f : string * string, w ∈ words letters f.2) files).*1.

Lemma indexer_values letters order files w :
  (∀ d s, order d s ≡ₚ elements s) →
  values_of w (intermediate_of (indexer_Map letters order) files) = documents letters files w.
Proof.
  intros Horder. rewrite intermediate_concat. unfold documents, values_of.
  induction files as [|[d v] files IH]; [done|].
  rewrite concat_fmap_cons, list.filter_app, fmap_app, filter_cons, IH.
  unfold indexer_Map at 1. cbn [fst snd].
  set (ws := order d (list_to_set (words letters v))).
  assert (NoDup ws) as Hnd.
  { unfold ws. rewrite Horder. apply NoDup_elements. }
  assert (w ∈ ws ↔ w ∈ words letters v) as Hin.
  { unfold ws. by rewrite Horder, elem_of_elements, elem_of_list_to_set. }
  assert (Value <$> filter (λ kv, Key kv = w) ((λ w, MkKeyValue w d) <$> ws) =
    if decide (w ∈ ws) then [d] else []) as ->.
  { clear Hin. clearbody ws. induction ws as [|x ws IHw]; [done|]. apply list.NoDup_cons in Hnd as [Hx Hnd].
    rewrite fmap_cons, filter_cons. cbn [Key].
    destruct (decide (x = w)) as [->|Hxw]; rewrite ?fmap_cons, IHw by done.
    - rewrite decide_False by done. by rewrite decide_True by (apply elem_of_cons; by left).
    - apply decide_ext. rewrite elem_of_cons. naive_solver. }
  rewrite (decide_ext _ _ _ _ Hin). by case_decide.
Qed.

(** The indexer indexes.  [mrsequential] with indexer.go prints, for each
    distinct word in order, how many documents contain it and their sorted
    names, whatever the orders in which [sort.Sort] leaves equal words and Go
    iterates the maps of words. *)
Theorem indexer_correct sort letters order files :
  sorts sort → (∀ d s, order d s ≡ₚ elements s) →
  mrsequential sort (indexer_Map letters order) indexer_Reduce files =
    (λ w, let docs := documents letters files w in
          (w, Itoa (len docs) +:+ " " +:+ strings_Join (sort_strings docs) ",")) <$>
      distinct (all_words letters files).
Proof.
  intros Hsort Horder.
  rewrite mrsequential_sorted,
    (mr_reference_perm _ _ (intermediate_of (indexer_Map letters order) files));
    [|apply indexer_order_blind|by apply Hsort|done].
  unfold mr_reference.
  assert (distinct_keys (intermediate_of (indexer_Map letters order) files) =
    distinct (all_words letters files)) as ->.
  { unfold distinct_keys, distinct. do 2 f_equal. apply set_eq. intros w.
    rewrite !elem_of_list_to_set, intermediate_concat. unfold all_words.
    induction files as [|[d v] files IH]; [done|].
    rewrite !concat_fmap_cons, fmap_app, !elem_of_app, IH. unfold indexer_Map. cbn [fst snd].
    rewrite <-list_fmap_compose, (list_fmap_ext _ id), list_fmap_id by done.
    by rewrite Horder, elem_of_elements, elem_of_list_to_set. }
  apply list_fmap_ext. intros i w _. by rewrite indexer_values.
Qed.

(** The bounds of [ihash]: it is a non-negative [int32], so the reduce task
    it chooses is one of the [nReduce] tasks, also where [int] has 32 bits. *)
Theorem ihash_bounds key nReduce :
  0 <= ihash key < 2 ^ 31 ∧ (0 < nReduce → 0 <= reduce_task key nReduce < nReduce).
Proof.
  assert (0 <= ihash key < 2 ^ 31) as Hh.
  { unfold ihash. change 2147483647 with (Z.ones 31). rewrite Z.land_ones by lia.
    by apply Z.mod_pos_bound. }
  split; [done|]. intros Hn. unfold reduce_task. rewrite Z.rem_mod_nonneg by lia.
  by apply Z.mod_pos_bound.
Qed.

(** ** Concrete jobs *)

Definition kv_le (a b : KeyValue) : Prop := str_le (Key a) (Key b).
#[export] Instance kv_le_dec : RelDecision kv_le.
Proof. intros a b. unfold kv_le. apply _. Defined.

#[export] Instance kv_le_total : Total kv_le.
Proof. intros a b. apply (total str_le). Qed.
#[export] Instance kv_le_trans : Transitive kv_le.
Proof. intros a b c. apply (transitivity (R := str_le)). Qed.

Definition sort_by_key (l : list KeyValue) : list KeyValue := merge_sort kv_le l.

Lemma sort_by_key_sorts : sorts sort_by_key.
Proof.
  intros l. split; [apply merge_sort_Permutation|].
  eapply (StronglySorted_mono kv_le); [intros a b; apply ByKey_Less_le|].
  apply (StronglySorted_merge_sort kv_le).
Qed.

Definition two_files : list (string * string) := [("f", "the cat, the dog"); ("g", "a dog")].

Lemma mrsequential_reference_witness :
  mrsequential sort_by_key crash_Map crash_Reduce two_files =
    [("a", "f g"); ("b", "1 1"); ("c", "16 5"); ("d", "xyzzy xyzzy")] ∧
  mrsequential sort_by_key crash_Map crash_Reduce two_files =
    mr_reference crash_Reduce (intermediate_of crash_Map two_files).
Proof.
  split; [vm_compute; reflexivity|].
  apply (mrsequential_reference sort_by_key crash_Map crash_Reduce two_files sort_by_key_sorts).
  intros k vs vs' Hp. unfold crash_Reduce. by rewrite (sort_strings_proper _ _ Hp).
Defined.

Lemma wc_correct_witness :
  mrsequential sort_by_key (wc_Map (λ _, false)) wc_Reduce two_files =
    [("a", "1"); ("cat", "1"); ("dog", "2"); ("the", "2")].
Proof.
  rewrite (wc_correct sort_by_key (λ _, false) two_files sort_by_key_sorts).
  vm_compute. reflexivity.
Defined.

Lemma indexer_correct_witness :
  mrsequential sort_by_key (indexer_Map (λ _, false) (λ _ s, elements s)) indexer_Reduce two_files =
    [("a", "1 g"); ("cat", "1 f"); ("dog", "2 f,g"); ("the", "1 f")].
Proof.
  rewrite (indexer_correct sort_by_key (λ _, false) (λ _ s, elements s) two_files sort_by_key_sorts)
    by done.
  vm_compute. reflexivity.
Defined.

Lemma ihash_bounds_witness : 0 <= ihash "dog" < 2 ^ 31 ∧ 0 <= reduce_task "dog" 10 < 10.
Proof.
  split; [exact (proj1 (ihash_bounds "dog" 10))|].
  apply (proj2 (ihash_bounds "dog" 10)). reflexivity.
Defined.
