(* ===== verification/Demux.v ===== *)
(** * Calls multiplexed over a connection

    [src/src/tester1/demux]: the framing of messages on a byte stream
    ([transport.go]), the map of outstanding calls ([callmap.go]), the client
    that matches replies to calls by tag ([dmxclnt.go]) and the server that
    answers in any order ([dmxsrv.go]). *)
From S2P Require Import Prelude Persister.

(** [labrpc.Marshall] and [Unmarshall], which is fatal when it fails. *)
Class Codec (A : Type) := {
  Marshall : A → bytes;
  Unmarshall : bytes → option A;
}.

Class CodecLaws (A : Type) `{!Codec A} := { codec_roundtrip x : Unmarshall (Marshall x) = Some x }.

(** ** transport.go

    A [Ttag] is a [uint32]. *)
Record msg := MkMsg { Tag : Z; Data : bytes; Ok : bool }.
Record InitMsg := MkInitMsg { Clnt : string }.

(** A [uint32] in little-endian order. *)
Definition le32 (n : Z) : bytes :=
  [Z.land n 255; Z.land (Z.shiftr n 8) 255; Z.land (Z.shiftr n 16) 255;
   Z.land (Z.shiftr n 24) 255].

Definition le32_value (a b c d : Z) : Z :=
  Z.lor (Z.lor a (Z.shiftl b 8)) (Z.lor (Z.shiftl c 16) (Z.shiftl d 24)).

(** What reading a call from a stream yields: it blocks for more bytes, fails
    (with [io.EOF] or another error), the data does not decode, or a message. *)
Inductive ReadResult :=
| RBlock
| RErr (eof : bool)
| RFatal
| ROk (m : msg) (rest : bytes).

Section Transport.
Context `{!Codec msg}.

(** The bytes [WriteCall] sends: [uint32(len(b))] and [b]. *)
Definition WriteCall (tag : Z) (d : bytes) (ok : bool) : bytes :=
  let b := Marshall (MkMsg tag d ok) in le32 (u32 (len b)) ++ b.

(** [closed]: nothing will follow [buf]. *)
Definition ReadCall (closed : bool) (buf : bytes) : ReadResult :=
  let short := if closed then λ n, RErr (bool_decide (n = 0%nat)) else λ _ : nat, RBlock in
  match buf with
  | a :: b :: c :: d :: rest =>
      let nbyte := le32_value a b c d in
      if decide (nbyte <= len rest) then
        match Unmarshall (take (Z.to_nat nbyte) rest) with
        | Some m => ROk m (drop (Z.to_nat nbyte) rest)
        | None => RFatal
        end
      else short (length rest)
  | _ => short (length buf)
  end.
End Transport.

(** ** callmap.go

    A channel is the number of the call that waits on it. *)
Record callMap := MkCallMap { cm_closed : bool; calls : gmap Z nat }.

Definition newCallMap : callMap := MkCallMap false ∅.
Definition cm_close (cm : callMap) : callMap := MkCallMap true (calls cm).
Definition isClosed (cm : callMap) : bool := cm_closed cm.

(** [None] is the error. *)
Definition cm_put (tag : Z) (ch : nat) (cm : callMap) : option callMap :=
  if cm_closed cm then None else Some (MkCallMap (cm_closed cm) (<[tag := ch]> (calls cm))).

Definition cm_remove (tag : Z) (cm : callMap) : callMap * option nat :=
  match calls cm !! tag with
  | Some ch => (MkCallMap (cm_closed cm) (delete tag (calls cm)), Some ch)
  | None => (cm, None)
  end.

(** In the order in which the map is visited. *)
Definition outstanding (cm : callMap) (order : list Z) : Prop :=
  order ≡ₚ (map_to_list (calls cm)).*1.

(** ** dmxclnt.go *)

Record reply := MkReply { rep : bytes; rok : bool; err : bool }.

(** [reply{nil, false, err}]. *)
Definition failed : reply := MkReply [] false true.

Record DemuxClnt := MkDemuxClnt { callmap : callMap; nextTag : Z }.

(** [dmx.tag()]. *)
Definition tag (dmx : DemuxClnt) : Z * DemuxClnt :=
  (nextTag dmx, MkDemuxClnt (callmap dmx) (u32 (nextTag dmx + 1))).

(** Where a call of [SendReceive] is: it has its tag, its channel is in the map,
    it has written its request and waits, or it has returned. *)
Inductive Caller :=
| CTagged (t : Z) (b : bytes)
| CPut (t : Z) (b : bytes)
| CWait (t : Z)
| CRet (r : reply).

(** Where the client's reader is: reading, failing the outstanding calls, or
    gone. *)
Inductive Reader :=
| RdLoop
| RdDrain (ts : list Z)
| RdDone.

(** ** A connection

    The two directions of the stream, the calls of the client, and the server's
    goroutines, each with a tag and a request.  [sent] and [served] record which
    call has which tag and request, and what the server answered; [begun] counts
    the tags. *)
Record World (St : Type) := MkWorld {
  clnt : DemuxClnt;
  callers : gmap nat Caller;
  reader : Reader;
  c2s : bytes;
  c2s_open : bool;
  s2c : bytes;
  s2c_open : bool;
  srv_reading : bool;
  srv_closed : bool;
  jobs : list (Z * bytes);
  srv_state : St;
  begun : Z;
  sent : gmap Z (nat * bytes);
  served : list (Z * bytes * reply);
}.
Arguments MkWorld {St}.
Arguments clnt {St}.
Arguments callers {St}.
Arguments reader {St}.
Arguments c2s {St}.
Arguments c2s_open {St}.
Arguments s2c {St}.
Arguments s2c_open {St}.
Arguments srv_reading {St}.
Arguments srv_closed {St}.
Arguments jobs {St}.
Arguments srv_state {St}.
Arguments begun {St}.
Arguments sent {St}.
Arguments served {St}.

(** A step goes on, is not possible now, or ends the process. *)
Inductive Outcome (St : Type) :=
| Blocked
| Fatal
| Went (w : World St).
Arguments Blocked {St}.
Arguments Fatal {St}.
Arguments Went {St}.

Section Demux.
Context `{!Codec msg} {St : Type}.
(** [srv.ServeRequest]. *)
Context (ServeRequest : St → bytes → St * (bytes * bool)).
Implicit Types w : World St.

(** *** The client *)

(** [t := dmx.tag(); ch := make(chan reply)]. *)
Definition call_begin (c : nat) (b : bytes) w : Outcome St :=
  match callers w !! c with
  | Some _ => Blocked
  | None =>
      let '(t, dmx) := tag (clnt w) in
      Went (MkWorld dmx (<[c := CTagged t b]> (callers w)) (reader w) (c2s w) (c2s_open w)
              (s2c w) (s2c_open w) (srv_reading w) (srv_closed w) (jobs w) (srv_state w)
              (begun w + 1) (<[t := (c, b)]> (sent w)) (served w))
  end.

Definition set_clnt (cm : callMap) (cs : gmap nat Caller) w : World St :=
  MkWorld (MkDemuxClnt cm (nextTag (clnt w))) cs (reader w) (c2s w) (c2s_open w) (s2c w)
    (s2c_open w) (srv_reading w) (srv_closed w) (jobs w) (srv_state w) (begun w) (sent w) (served w).

(** [dmx.callmap.put(t, ch)]. *)
Definition call_put (c : nat) w : Outcome St :=
  match callers w !! c with
  | Some (CTagged t b) =>
      match cm_put t c (callmap (clnt w)) with
      | None => Went (set_clnt (callmap (clnt w)) (<[c := CRet failed]> (callers w)) w)
      | Some cm => Went (set_clnt cm (<[c := CPut t b]> (callers w)) w)
      end
  | _ => Blocked
  end.

(** [dmx.trans.WriteCall(t, b, true)], whose error is ignored. *)
Definition call_write (c : nat) w : Outcome St :=
  match callers w !! c with
  | Some (CPut t b) =>
      Went (MkWorld (clnt w) (<[c := CWait t]> (callers w)) (reader w)
              (if c2s_open w then c2s w ++ WriteCall t b true else c2s w) (c2s_open w)
              (s2c w) (s2c_open w) (srv_reading w) (srv_closed w) (jobs w) (srv_state w)
              (begun w) (sent w) (served w))
  | _ => Blocked
  end.

Definition set_reader (rd : Reader) (buf : bytes) w : World St :=
  MkWorld (clnt w) (callers w) rd (c2s w) (c2s_open w) buf (s2c_open w) (srv_reading w)
    (srv_closed w) (jobs w) (srv_state w) (begun w) (sent w) (served w).

(** [dmx.reply]: the channel is unbuffered, so it waits for the call to listen. *)
Definition clnt_reply (t : Z) (r : reply) w : Outcome St :=
  match cm_remove t (callmap (clnt w)) with
  | (cm, Some c) =>
      match callers w !! c with
      | Some (CWait _) => Went (set_clnt cm (<[c := CRet r]> (callers w)) w)
      | _ => Blocked
      end
  | (_, None) => Fatal
  end.

(** One round of [dmx.reader]; [order] is the iteration of [outstanding]. *)
Definition clnt_read (order : list Z) w : Outcome St :=
  match reader w with
  | RdLoop =>
      match ReadCall (negb (s2c_open w)) (s2c w) with
      | RBlock => Blocked
      | RErr _ =>
          if decide (order ≡ₚ (map_to_list (calls (callmap (clnt w)))).*1) then
            Went (set_clnt (cm_close (callmap (clnt w))) (callers w)
                    (set_reader (RdDrain order) (s2c w) w))
          else Blocked
      | RFatal => Fatal
      | ROk m rest =>
          clnt_reply (Tag m) (MkReply (Data m) (Ok m) false) (set_reader RdLoop rest w)
      end
  | RdDrain [] => Went (set_reader RdDone (s2c w) w)
  | RdDrain (t :: ts) => clnt_reply t failed (set_reader (RdDrain ts) (s2c w) w)
  | RdDone => Blocked
  end.

(** Losing the connection: what was not yet read may be cut anywhere. *)
Definition lose (k k' : nat) w : World St :=
  MkWorld (clnt w) (callers w) (reader w) (take k (c2s w)) false (take k' (s2c w)) false
    (srv_reading w) (srv_closed w) (jobs w) (srv_state w) (begun w) (sent w) (served w).

(** [DemuxClnt.Close]. *)
Definition clnt_Close (k k' : nat) w : Outcome St :=
  if isClosed (callmap (clnt w)) then Went w
  else Went (set_clnt (cm_close (callmap (clnt w))) (callers w) (lose k k' w)).

(** *** The server *)

(** One round of the server's reader. *)
Definition srv_read w : Outcome St :=
  if srv_reading w then
    match ReadCall (negb (c2s_open w)) (c2s w) with
    | RBlock => Blocked
    | RErr eof =>
        Went (MkWorld (clnt w) (callers w) (reader w) (c2s w) (c2s_open w) (s2c w) (s2c_open w)
                false (srv_closed w || eof) (jobs w) (srv_state w) (begun w) (sent w) (served w))
    | RFatal => Fatal
    | ROk m rest =>
        Went (MkWorld (clnt w) (callers w) (reader w) rest (c2s_open w) (s2c w) (s2c_open w)
                true (srv_closed w) (jobs w ++ [(Tag m, Data m)]) (srv_state w) (begun w)
                (sent w) (served w))
    end
  else Blocked.

(** The goroutine of one request. *)
Definition srv_run (k : nat) w : Outcome St :=
  match jobs w !! k with
  | Some (t, req) =>
      let '(st, (b, ok)) := ServeRequest (srv_state w) req in
      Went (MkWorld (clnt w) (callers w) (reader w) (c2s w) (c2s_open w)
              (if s2c_open w then s2c w ++ WriteCall t b ok else s2c w) (s2c_open w)
              (srv_reading w) (srv_closed w) (take k (jobs w) ++ drop (S k) (jobs w)) st
              (begun w) (sent w) (served w ++ [(t, req, MkReply b ok false)]))
  | None => Blocked
  end.

(** [DemuxSrv.Close]. *)
Definition srv_Close (k k' : nat) w : Outcome St :=
  if srv_closed w then Went w
  else
    let w := lose k k' w in
    Went (MkWorld (clnt w) (callers w) (reader w) (c2s w) (c2s_open w) (s2c w) (s2c_open w)
            (srv_reading w) true (jobs w) (srv_state w) (begun w) (sent w) (served w)).

(** *** Steps *)

Inductive Step :=
| StBegin (c : nat) (b : bytes)
| StPut (c : nat)
| StWrite (c : nat)
| StClntRead (order : list Z)
| StSrvRead
| StSrvRun (k : nat)
| StLose (k k' : nat)
| StClntClose (k k' : nat)
| StSrvClose (k k' : nat).

Definition step (s : Step) w : Outcome St :=
  match s with
  | StBegin c b => call_begin c b w
  | StPut c => call_put c w
  | StWrite c => call_write c w
  | StClntRead order => clnt_read order w
  | StSrvRead => srv_read w
  | StSrvRun k => srv_run k w
  | StLose k k' => Went (lose k k' w)
  | StClntClose k k' => clnt_Close k k' w
  | StSrvClose k k' => srv_Close k k' w
  end.

Fixpoint steps (ss : list Step) w : Outcome St :=
  match ss with
  | [] => Went w
  | s :: ss => match step s w with Went w => steps ss w | o => o end
  end.
End Demux.

(** ** Opening

    [NewDemuxClnt] writes the name of the client under the first tag, and
    [NewDemuxSrv] reads it before it serves. *)
Section Open.
Context `{!Codec msg, !Codec InitMsg}.

Definition NewDemuxClnt (clntEnd : string) : DemuxClnt * bytes :=
  let '(t, dmx) := tag (MkDemuxClnt newCallMap 0) in
  (dmx, WriteCall t (Marshall (MkInitMsg clntEnd)) true).

(** [None] is a fatal error or a stream that ends too early. *)
Definition NewDemuxSrv (closed : bool) (buf : bytes) : option (string * bytes) :=
  match ReadCall closed buf with
  | ROk m rest => i ← Unmarshall (Data m); Some (Clnt i, rest)
  | _ => None
  end.

(** A connection after both have opened it. *)
Definition opened {St} (clntEnd : string) (st : St) : option (World St) :=
  let '(dmx, buf) := NewDemuxClnt clntEnd in
  '(_, rest) ← NewDemuxSrv false buf;
  Some (MkWorld dmx ∅ RdLoop rest true [] true true false [] st 1 ∅ []).
End Open.
