(* ===== verification/DemuxTheorems.v ===== *)
(** * What the multiplexed connection promises

    Theorems about [Demux.v]: framing round-trips, every call gets the answer to
    its own request and nothing else, no step is fatal, and no call hangs once
    the connection is gone: a measure bounds what is left of it, and it cannot
    stop before every call has returned. *)
From S2P Require Import Prelude Persister Demux.

(** ** Framing *)

Lemma byte_bit n k j :
  0 <= k →
  Z.testbit (Z.land (Z.shiftr n k) 255) j =
    bool_decide (0 <= j < 8) && Z.testbit n (j + k).
Proof.
  intros Hk. destruct (decide (0 <= j)) as [Hj|Hj].
  - rewrite Z.land_spec, Z.shiftr_spec by done. change 255 with (Z.ones 8).
    rewrite Z.testbit_ones by lia.
    destruct (decide (j < 8)) as [Hj8|Hj8].
    + rewrite bool_decide_eq_true_2, andb_comm by lia.
      by destruct (Z.leb_spec 0 j), (Z.ltb_spec j 8); try lia.
    + rewrite bool_decide_eq_false_2, andb_comm by lia.
      by destruct (Z.leb_spec 0 j), (Z.ltb_spec j 8); try lia.
  - rewrite Z.testbit_neg_r by lia. by rewrite bool_decide_eq_false_2 by lia.
Qed.

Lemma le32_roundtrip n :
  0 <= n < 2 ^ 32 →
  le32_value (Z.land n 255) (Z.land (Z.shiftr n 8) 255) (Z.land (Z.shiftr n 16) 255)
    (Z.land (Z.shiftr n 24) 255) = n.
Proof.
  intros Hn. unfold le32_value. rewrite <-(Z.shiftr_0_r n) at 1.
  apply Z.bits_inj'. intros i Hi.
  rewrite !Z.lor_spec, !Z.shiftl_spec, !byte_bit by lia.
  replace (i - 8 + 8) with i by lia. replace (i - 16 + 16) with i by lia.
  replace (i - 24 + 24) with i by lia. rewrite Z.add_0_r.
  destruct (decide (i < 32)) as [Hi32|Hi32].
  - destruct (Z.testbit n i); rewrite ?andb_false_r, ?andb_true_r; [|done].
    rewrite !orb_true_iff, !bool_decide_eq_true. lia.
  - rewrite <-(Z.mod_small n (2 ^ 32)), Z.mod_pow2_bits_high by lia. by rewrite !andb_false_r.
Qed.

Section Framing.
Context `{!Codec msg, !CodecLaws msg}.
Implicit Types m : msg.

Definition frame m : bytes := WriteCall (Tag m) (Data m) (Ok m).
Definition stream (ms : list msg) : bytes := concat (frame <$> ms).

(** The length of a message fits its header. *)
Definition fits m : Prop := len (Marshall m) < 2 ^ 32.

Lemma frame_eq m : fits m → frame m = le32 (len (Marshall m)) ++ Marshall m.
Proof.
  intros Hm. unfold frame, WriteCall. destruct m as [t d k]. cbn [Tag Data Ok] in *.
  unfold fits, u32 in *. rewrite Z.mod_small; [done|]. pose proof (len_nonneg (Marshall (MkMsg t d k))).
  lia.
Qed.

Lemma read_frame closed m rest : fits m → ReadCall closed (frame m ++ rest) = ROk m rest.
Proof.
  intros Hm. rewrite frame_eq, <-app_assoc by done. unfold le32. cbn [app ReadCall].
  pose proof (len_nonneg (Marshall m)). unfold fits in Hm.
  rewrite le32_roundtrip, len_app by lia. pose proof (len_nonneg rest).
  rewrite decide_True by lia. unfold len. rewrite Nat2Z.id, take_app_length, drop_app_length.
  by rewrite codec_roundtrip.
Qed.

(** A frame that is cut short is not a message. *)
Lemma read_partial closed m k :
  fits m → (k < length (frame m))%nat →
  ReadCall closed (take k (frame m)) = RBlock ∧ closed = false ∨
  (∃ eof, ReadCall closed (take k (frame m)) = RErr eof) ∧ closed = true.
Proof.
  intros Hm Hk. rewrite frame_eq in * by done. unfold le32 in *. cbn [app length] in *.
  set (n := len (Marshall m)) in *. pose proof (len_nonneg (Marshall m)). unfold fits in Hm.
  destruct k as [|[|[|[|k]]]]; try (destruct closed; [right|left]; split; [by eexists|done]);
    cbn [take ReadCall]; try (destruct closed; [right|left]; by eauto).
  rewrite le32_roundtrip by (fold n in Hm; lia). rewrite decide_False.
  - destruct closed; [right|left]; by eauto.
  - unfold len in *. rewrite length_take. lia.
Qed.

(** The framing round-trips.  On a stream of messages shorter than 2^32
    bytes, reading yields the first message and leaves the rest; on a proper
    prefix of a frame, reading waits, or fails when the stream has ended, but
    never yields a message. *)
Theorem transport_roundtrip closed m ms k :
  fits m →
  ReadCall closed (stream (m :: ms)) = ROk m (stream ms) ∧
  ((k < length (frame m))%nat →
   ReadCall closed (take k (frame m)) = RBlock ∧ closed = false ∨
   (∃ eof, ReadCall closed (take k (frame m)) = RErr eof) ∧ closed = true).
Proof. intros Hm. split; [by apply read_frame|by apply read_partial]. Qed.

(** A stream that may have been cut. *)
Definition cut_stream (open : bool) (buf : bytes) (ms : list msg) : Prop :=
  ∃ p, buf = stream ms ++ p ∧
    (p = [] ∨ open = false ∧ ∃ m k, fits m ∧ p = take k (frame m) ∧ (k < length (frame m))%nat).

Lemma cut_take open buf ms k :
  Forall fits ms → cut_stream open buf ms →
  ∃ ms', cut_stream false (take k buf) ms' ∧ ms' `prefix_of` ms.
Proof.
  intros Hfit (p & -> & Hp). revert k. induction ms as [|m ms IH]; intros k.
  - exists []. split; [|done]. exists (take k p). split; [done|].
    destruct Hp as [->|(_ & m & j & Hm & -> & Hj)]; [left; by destruct k|right].
    split; [done|]. exists m, (Nat.min k j). split; [done|]. split; [apply take_take|lia].
  - apply list.Forall_cons in Hfit as [Hm Hfit].
    change (stream (m :: ms)) with (frame m ++ stream ms). rewrite <-app_assoc.
    destruct (decide (k < length (frame m))%nat) as [Hk|Hk].
    + exists []. split; [|apply prefix_nil]. exists (take k (frame m)).
      rewrite take_app_le by lia. split; [done|]. right. split; [done|]. by exists m, k.
    + destruct (IH Hfit (k - length (frame m))%nat) as (ms' & (q & Hq & Hcut) & Hpre).
      exists (m :: ms'). split; [|by apply prefix_cons]. exists q.
      rewrite take_app_ge by lia. rewrite Hq. split; [|done].
      change (stream (m :: ms')) with (frame m ++ stream ms'). by rewrite <-app_assoc.
Qed.

(** Reading a cut stream. *)
Lemma read_cut open buf ms :
  Forall fits ms → cut_stream open buf ms →
  match ReadCall (negb open) buf with
  | RBlock => open = true ∧ ms = []
  | RErr _ => open = false ∧ ms = []
  | RFatal => False
  | ROk m rest => ∃ ms', ms = m :: ms' ∧ cut_stream open rest ms'
  end.
Proof.
  intros Hfit (p & -> & Hp). destruct ms as [|m ms].
  - cbn [stream concat fmap list_fmap app]. destruct Hp as [->|(-> & m & k & Hm & -> & Hk)].
    + by destruct open.
    + destruct (read_partial true m k Hm Hk) as [[_ ?]|[[eof Heof] _]]; [done|].
      cbn [negb]. by rewrite Heof.
  - apply list.Forall_cons in Hfit as [Hm _].
    change (stream (m :: ms)) with (frame m ++ stream ms). rewrite <-app_assoc, read_frame by done.
    exists ms. split; [done|]. by exists p.
Qed.

Lemma cut_snoc buf ms m :
  cut_stream true buf ms → cut_stream true (buf ++ frame m) (ms ++ [m]).
Proof.
  intros (p & -> & [->|[? _]]); [|done]. exists []. rewrite !app_nil_r. split; [|by left].
  unfold stream. rewrite fmap_app, concat_app. cbn. by rewrite app_nil_r.
Qed.
End Framing.

(** ** Matching replies with calls *)

Section Pairing.
Context `{Hcodec : !Codec msg, !CodecLaws msg} {St : Type}.
Context (ServeRequest : St → bytes → St * (bytes * bool)).
Implicit Types (w : World St) (m : msg).

(** Short enough to be framed under any tag. *)
Definition small (b : bytes) : Prop := ∀ t k, 0 <= t < 2 ^ 32 → fits (MkMsg t b k).

Definition replies_small : Prop :=
  ∀ st req, small (ServeRequest st req).2.1.

(** The outstanding calls. *)
Definition waiting w : gmap Z nat := calls (callmap (clnt w)).

(** The tags of the requests and replies between client and server. *)
Definition flight w (ms1 ms2 : list msg) : list Z :=
  (Tag <$> ms1) ++ (jobs w).*1 ++ (Tag <$> ms2).

Definition caller_ok w (fl : list Z) (c : nat) (x : Caller) : Prop :=
  match x with
  | CTagged t b => sent w !! t = Some (c, b) ∧ waiting w !! t = None ∧ t ∉ fl
  | CPut t b => sent w !! t = Some (c, b) ∧ waiting w !! t = Some c ∧ t ∉ fl
  | CWait t => (∃ b, sent w !! t = Some (c, b)) ∧ waiting w !! t = Some c
  | CRet r => err r = true ∨ ∃ t b, sent w !! t = Some (c, b) ∧ (t, b, r) ∈ served w
  end.

Definition reader_ok w : Prop :=
  match reader w with
  | RdLoop => True
  | RdDrain ts => cm_closed (callmap (clnt w)) = true ∧ ts ≡ₚ (map_to_list (waiting w)).*1
  | RdDone => cm_closed (callmap (clnt w)) = true ∧ waiting w = ∅
  end.

Record dmx_inv (ms1 ms2 : list msg) w : Prop := {
  i_tag : 1 <= begun w ∧ nextTag (clnt w) = u32 (begun w);
  i_sent t c b : sent w !! t = Some (c, b) → 1 <= t < begun w ∧ small b ∧ is_Some (callers w !! c);
  i_once t t' c b b' : sent w !! t = Some (c, b) → sent w !! t' = Some (c, b') → t = t';
  i_caller c x : callers w !! c = Some x → caller_ok w (flight w ms1 ms2) c x;
  i_waiting t c : waiting w !! t = Some c →
    (∃ b, callers w !! c = Some (CPut t b)) ∨ callers w !! c = Some (CWait t);
  i_fits : Forall fits ms1 ∧ Forall fits ms2;
  i_c2s : cut_stream (c2s_open w) (c2s w) ms1;
  i_s2c : cut_stream (s2c_open w) (s2c w) ms2;
  i_flight : NoDup (flight w ms1 ms2);
  i_ms1 m : m ∈ ms1 → ∃ c, sent w !! Tag m = Some (c, Data m);
  i_jobs t b : (t, b) ∈ jobs w → ∃ c, sent w !! t = Some (c, b);
  i_ms2 m : m ∈ ms2 → ∃ c b, sent w !! Tag m = Some (c, b) ∧
    (Tag m, b, MkReply (Data m) (Ok m) false) ∈ served w;
  i_live : reader w = RdLoop → ∀ t, t ∈ flight w ms1 ms2 → is_Some (waiting w !! t);
  i_reader : reader_ok w;
}.

(** The invariant of a world, up to its tags having wrapped around. *)
Definition dmx_ok w : Prop := begun w <= 2 ^ 32 → ∃ ms1 ms2, dmx_inv ms1 ms2 w.

(** Losing messages keeps the invariant. *)
Lemma flight_sub w (ms1 ms1' ms2 ms2' : list msg) :
  ms1' `prefix_of` ms1 → ms2' `prefix_of` ms2 → flight w ms1' ms2' ⊆+ flight w ms1 ms2.
Proof.
  intros [k1 ->] [k2 ->]. unfold flight. rewrite !fmap_app.
  apply submseteq_app; [by apply submseteq_inserts_r|].
  apply submseteq_app; [done|by apply submseteq_inserts_r].
Qed.

Lemma caller_ok_sub w fl fl' c x : fl' ⊆+ fl → caller_ok w fl c x → caller_ok w fl' c x.
Proof.
  intros Hsub. destruct x; cbn; try done.
  - intros (? & ? & Hn). split; [done|]. split; [done|]. intros Hin. by eapply Hn, elem_of_submseteq.
  - intros (? & ? & Hn). split; [done|]. split; [done|]. intros Hin. by eapply Hn, elem_of_submseteq.
Qed.

Lemma lose_inv k k' ms1 ms2 w :
  dmx_inv ms1 ms2 w → ∃ ms1' ms2', dmx_inv ms1' ms2' (lose k k' w).
Proof.
  intros [Ht Hs Ho Hc Hw [Hf1 Hf2] H1 H2 Hfl Hm1 Hj Hm2 Hl Hr].
  destruct (cut_take _ _ _ k Hf1 H1) as (ms1' & H1' & Hp1).
  destruct (cut_take _ _ _ k' Hf2 H2) as (ms2' & H2' & Hp2).
  pose proof (flight_sub w ms1 ms1' ms2 ms2' Hp1 Hp2) as Hsub.
  assert (∀ m, m ∈ ms1' → m ∈ ms1) as Hi1 by (intros m ?; by eapply elem_of_prefix).
  assert (∀ m, m ∈ ms2' → m ∈ ms2) as Hi2 by (intros m ?; by eapply elem_of_prefix).
  exists ms1', ms2'. split; try done.
  - intros c x Hx. eapply (caller_ok_sub w); [exact Hsub|by apply Hc].
  - destruct Hp1 as [q1 ->], Hp2 as [q2 ->].
    apply Forall_app in Hf1 as [? _], Hf2 as [? _]. done.
  - by eapply submseteq_NoDup.
  - intros m Hm. by apply Hm1, Hi1.
  - intros m Hm. by apply Hm2, Hi2.
  - intros Hrd t Htf. apply (Hl Hrd). by eapply elem_of_submseteq.
Qed.

(** A tag that was not sent is nowhere under way. *)
Lemma unsent_not_flying w ms1 ms2 t :
  dmx_inv ms1 ms2 w → sent w !! t = None → t ∉ flight w ms1 ms2.
Proof.
  intros Hinv Hnone Hin. unfold flight in Hin. rewrite !elem_of_app, !list_elem_of_fmap in Hin.
  destruct Hin as [(m & -> & Hin)|[([t' b'] & -> & Hin)|(m & -> & Hin)]].
  - destruct (i_ms1 _ _ _ Hinv m Hin) as [c' E]. congruence.
  - destruct (i_jobs _ _ _ Hinv t' b' Hin) as [c' E]. cbn in Hnone. congruence.
  - destruct (i_ms2 _ _ _ Hinv m Hin) as (c' & b' & E & _). congruence.
Qed.

(** *** The client's calls *)

Lemma begin_inv c b ms1 ms2 w w' :
  small b → begun w' <= 2 ^ 32 → dmx_inv ms1 ms2 w → call_begin c b w = Went w' →
  dmx_inv ms1 ms2 w'.
Proof.
  intros Hb Hbound Hinv. pose proof Hinv as [Ht Hs Ho Hc Hw Hf H1 H2 Hfl Hm1 Hj Hm2 Hl Hr].
  unfold call_begin.
  destruct (callers w !! c) eqn:Hnone; [done|]. unfold tag. cbn. intros [= <-]. cbn in Hbound.
  destruct Ht as [Hpos Hnext]. assert (nextTag (clnt w) = begun w) as Hnt.
  { rewrite Hnext. unfold u32. apply Z.mod_small. lia. }
  rewrite Hnt. assert (sent w !! begun w = None) as Hfresh.
  { destruct (sent w !! begun w) as [[c' b']|] eqn:E; [|done]. destruct (Hs _ _ _ E). lia. }
  assert (∀ t x, sent w !! t = Some x → sent w !! t = <[begun w := (c, b)]> (sent w) !! t) as Hsame.
  { intros t x E. rewrite lookup_insert_ne; [done|]. congruence. }
  split; cbn [begun clnt sent callers reader c2s c2s_open s2c s2c_open jobs served nextTag callmap];
    unfold flight, reader_ok in *; cbn [clnt jobs reader callmap] in *; try done.
  - split; [lia|done].
  - intros t c' b' [[<- [= <- <-]]|[_ E]]%lookup_insert_Some.
    + split; [lia|]. split; [done|]. by rewrite lookup_insert_eq.
    + destruct (Hs _ _ _ E) as (? & ? & Hcs). split; [lia|]. split; [done|].
      destruct (decide (c' = c)) as [->|]; [by rewrite lookup_insert_eq|by rewrite lookup_insert_ne].
  - intros t t' c' b1 b2 [[<- [= <- <-]]|[_ E]]%lookup_insert_Some [[<- [= ?]]|[_ E']]%lookup_insert_Some;
      subst; try done.
    + destruct (Hs _ _ _ E') as (_ & _ & [? Hx]). congruence.
    + destruct (Hs _ _ _ E) as (_ & _ & [? Hx]). congruence.
    + by eapply Ho.
  - intros c' x [[<- <-]|[_ E]]%lookup_insert_Some.
    + cbn. rewrite lookup_insert_eq. split; [done|]. split.
      * unfold waiting in *. cbn. destruct (calls (callmap (clnt w)) !! begun w) as [c'|] eqn:E; [|done].
        destruct (Hw _ _ E) as [[b' Hx]|Hx]; specialize (Hc _ _ Hx); cbn in Hc.
        -- destruct Hc as (Hst & _). congruence.
        -- destruct Hc as ([b' Hst] & _). congruence.
      * by eapply unsent_not_flying.
    + specialize (Hc _ _ E). destruct x; cbn in *.
      * destruct Hc as (E1 & ? & ?). by rewrite <-(Hsame _ _ E1).
      * destruct Hc as (E1 & ? & ?). by rewrite <-(Hsame _ _ E1).
      * destruct Hc as ([b' E1] & ?). split; [exists b'; by rewrite <-(Hsame _ _ E1)|done].
      * destruct Hc as [?|(t & b' & E1 & ?)]; [by left|right]. exists t, b'.
        by rewrite <-(Hsame _ _ E1).
  - intros t c' E. destruct (Hw _ _ E) as [[b' Hx]|Hx]; [left; exists b'|right];
      (rewrite lookup_insert_ne; [done|congruence]).
  - intros m Hm. destruct (Hm1 m Hm) as [c' E]. exists c'. by rewrite <-(Hsame _ _ E).
  - intros t b' Hin. destruct (Hj t b' Hin) as [c' E]. exists c'. by rewrite <-(Hsame _ _ E).
  - intros m Hm. destruct (Hm2 m Hm) as (c' & b' & E & ?). exists c', b'. by rewrite <-(Hsame _ _ E).
Qed.

Lemma put_inv c ms1 ms2 w w' :
  dmx_inv ms1 ms2 w → call_put c w = Went w' → dmx_inv ms1 ms2 w'.
Proof.
  intros [Ht Hs Ho Hc Hw Hf H1 H2 Hfl Hm1 Hj Hm2 Hl Hr]. unfold call_put.
  destruct (callers w !! c) as [[t b| | |]|] eqn:Hx; try done.
  pose proof (Hc c _ Hx) as (Hst & Hnw & Hnf).
  assert (∀ c' x, is_Some (callers w !! c') → is_Some (<[c := x]> (callers w) !! c')) as Hsome.
  { intros c' x Hc'. destruct (decide (c' = c)) as [->|];
      [by rewrite lookup_insert_eq|by rewrite lookup_insert_ne]. }
  unfold cm_put. destruct (cm_closed (callmap (clnt w))) eqn:Hcl; intros [= <-].
  - split; try done; cbn [callers set_clnt set_reader].
    + intros t' c' b' E. destruct (Hs _ _ _ E) as (? & ? & ?). split; [done|]. split; [done|].
      by apply Hsome.
    + intros c' x [[<- <-]|[_ E]]%lookup_insert_Some; [by left|by apply Hc].
    + intros t' c' E. destruct (Hw _ _ E) as [[b' Hx']|Hx']; [left; exists b'|right]; cbn;
        (rewrite lookup_insert_ne; [done|congruence]).
  - assert (∀ t', t' ≠ t → <[t := c]> (waiting w) !! t' = waiting w !! t') as Hother.
    { intros t' Hne. by rewrite lookup_insert_ne. }
    split; try done; cbn [callers set_clnt set_reader].
    + intros t' c' b' E. destruct (Hs _ _ _ E) as (? & ? & ?). split; [done|]. split; [done|].
      by apply Hsome.
    + intros c' x [[<- <-]|[Hne E]]%lookup_insert_Some.
      * cbn. split; [done|]. unfold waiting. cbn. split; [by rewrite lookup_insert_eq|done].
      * specialize (Hc _ _ E). destruct x as [t' b'|t' b'|t'|]; cbn in *; try done.
        -- destruct Hc as (E1 & ? & ?). split; [done|]. split; [|done]. unfold waiting. cbn.
           rewrite Hother; [done|]. intros ->. congruence.
        -- destruct Hc as (E1 & ? & ?). split; [done|]. split; [|done]. unfold waiting. cbn.
           rewrite Hother; [done|]. intros ->. congruence.
        -- destruct Hc as (E1 & ?). split; [done|]. unfold waiting. cbn.
           rewrite Hother; [done|]. intros ->. congruence.
    + intros t' c'. unfold waiting. cbn. intros [[<- <-]|[_ E]]%lookup_insert_Some.
      * left. exists b. by rewrite lookup_insert_eq.
      * destruct (Hw _ _ E) as [[b' Hx']|Hx']; [left; exists b'|right];
          (rewrite lookup_insert_ne; [done|congruence]).
    + intros Hrd t' Ht'. unfold waiting. cbn. destruct (decide (t' = t)) as [->|];
        [by rewrite lookup_insert_eq|rewrite Hother by done; by apply Hl].
    + unfold reader_ok in *. cbn. destruct (reader w); [done|destruct Hr; congruence..].
Qed.

Lemma write_inv c ms1 ms2 w w' :
  begun w <= 2 ^ 32 → dmx_inv ms1 ms2 w → call_write c w = Went w' → ∃ ms1', dmx_inv ms1' ms2 w'.
Proof.
  intros Hbound [Ht Hs Ho Hc Hw [Hf1 Hf2] H1 H2 Hfl Hm1 Hj Hm2 Hl Hr]. unfold call_write.
  destruct (callers w !! c) as [[|t b| |]|] eqn:Hx; try done. intros [= <-].
  pose proof (Hc c _ Hx) as (Hst & Hwt & Hnf). destruct (Hs _ _ _ Hst) as (Hrange & Hb & _).
  set (ms1' := if c2s_open w then ms1 ++ [MkMsg t b true] else ms1). exists ms1'.
  assert (flight w ms1' ms2 ≡ₚ flight w ms1 ms2 ∨ flight w ms1' ms2 ≡ₚ t :: flight w ms1 ms2) as Hfl'.
  { unfold ms1'. destruct (c2s_open w); [right|by left]. unfold flight. rewrite fmap_app. cbn.
    rewrite <-app_assoc. symmetry. apply Permutation_middle. }
  assert (∀ t', t' ∈ flight w ms1' ms2 → t' = t ∨ t' ∈ flight w ms1 ms2) as Hin.
  { intros t'. destruct Hfl' as [-> | ->]; rewrite ?elem_of_cons; auto. }
  assert (∀ c' x, is_Some (callers w !! c') → is_Some (<[c := x]> (callers w) !! c')) as Hsome.
  { intros c' x Hc'. destruct (decide (c' = c)) as [->|];
      [by rewrite lookup_insert_eq|by rewrite lookup_insert_ne]. }
  split; try done; cbn [callers set_clnt set_reader].
  - intros t' c' b' E. destruct (Hs _ _ _ E) as (? & ? & ?). split; [done|]. split; [done|].
    by apply Hsome.
  - intros c' x [[<- <-]|[Hne E]]%lookup_insert_Some; [by split; [exists b|]|].
    specialize (Hc _ _ E). destruct x as [t' b'|t' b'|t'|]; cbn in *; try done;
      destruct Hc as (E1 & E2 & Hn); (split; [done|]); (split; [done|]);
      intros [->|?]%Hin; [|done| |done]; congruence.
  - intros t' c' E. destruct (Hw _ _ E) as [[b' Hx']|Hx']; cbn;
      (destruct (decide (c' = c)) as [->|];
        [right; rewrite lookup_insert_eq; congruence|rewrite lookup_insert_ne by done]);
      [left; by exists b'|by right].
  - split; [|done]. unfold ms1'. destruct (c2s_open w); [|done].
    apply Forall_app. split; [done|]. constructor; [apply Hb; lia|constructor].
  - cbn. unfold ms1'. destruct (c2s_open w); [by apply (cut_snoc (c2s w) ms1 (MkMsg t b true))|done].
  - change (NoDup (flight w ms1' ms2)). destruct Hfl' as [-> | ->]; [done|].
    by apply list.NoDup_cons.
  - intros m. unfold ms1'. destruct (c2s_open w); [|by apply Hm1].
    intros [Hm| ->%list_elem_of_singleton]%elem_of_app; [by apply Hm1|by exists c].
  - intros Hrd t' [->|Ht']%Hin; [by exists c|by apply Hl].
Qed.

(** *** Replies *)

Lemma reply_inv t r rd buf ms1 ms2 ms2' w w' :
  dmx_inv ms1 ms2 w → clnt_reply t r (set_reader rd buf w) = Went w' →
  cut_stream (s2c_open w) buf ms2' → (∀ m, m ∈ ms2' → m ∈ ms2) → Forall fits ms2' →
  flight w ms1 ms2' ⊆+ flight w ms1 ms2 →
  (err r = true ∨ ∃ c b, sent w !! t = Some (c, b) ∧ (t, b, r) ∈ served w) →
  match rd with
  | RdLoop => reader w = RdLoop ∧ t ∉ flight w ms1 ms2'
  | RdDrain ts => cm_closed (callmap (clnt w)) = true ∧ t :: ts ≡ₚ (map_to_list (waiting w)).*1
  | RdDone => False
  end →
  dmx_inv ms1 ms2' w'.
Proof.
  intros [Ht Hs Ho Hc Hw Hf H1 H2 Hfl Hm1 Hj Hm2 Hl Hr] Hrep Hcut Hsub Hf2 Hflsub Hr' Hrd.
  unfold clnt_reply, cm_remove in Hrep. cbn in Hrep. fold (waiting w) in Hrep.
  destruct (waiting w !! t) as [c|] eqn:Hwt; [|done].
  destruct (callers w !! c) as [[| |t'|]|] eqn:Hx; try done. injection Hrep as <-.
  assert (t' = t) as ->.
  { destruct (Hw _ _ Hwt) as [[b Hx']|Hx']; congruence. }
  pose proof (Hc c _ Hx) as [[b Hst] _].
  assert (∀ c' x, is_Some (callers w !! c') → is_Some (<[c := x]> (callers w) !! c')) as Hsome.
  { intros c' x Hc'. destruct (decide (c' = c)) as [->|];
      [by rewrite lookup_insert_eq|by rewrite lookup_insert_ne]. }
  assert (∀ t', t' ≠ t → delete t (waiting w) !! t' = waiting w !! t') as Hother.
  { intros t' Hne. by rewrite lookup_delete_ne. }
  split; try done; cbn [callers set_clnt set_reader].
  - intros t' c' b' E. destruct (Hs _ _ _ E) as (? & ? & ?). split; [done|]. split; [done|].
    by apply Hsome.
  - intros c' x [[<- <-]|[Hne E]]%lookup_insert_Some.
    + destruct Hr' as [?|(c' & b' & E & Hin)]; [by left|right]. exists t, b.
      split; [done|]. rewrite Hst in E. by injection E as _ ->.
    + specialize (Hc _ _ E). apply (caller_ok_sub w _ (flight w ms1 ms2')) in Hc; [|done].
      destruct x as [t' b'|t' b'|t'|]; cbn in *; try done; unfold waiting; cbn; fold (waiting w).
      * destruct Hc as (E1 & E2 & ?). split; [done|]. split; [|done].
        rewrite Hother; [done|]. intros ->. congruence.
      * destruct Hc as (E1 & E2 & ?). split; [done|]. split; [|done].
        rewrite Hother; [done|]. intros ->. congruence.
      * destruct Hc as (E1 & E2). split; [done|]. rewrite Hother; [done|]. intros ->. congruence.
  - intros t' c'. unfold waiting. cbn. fold (waiting w). intros [Hne E]%lookup_delete_Some.
    destruct (Hw _ _ E) as [[b' Hx']|Hx']; [left; exists b'|right];
      (rewrite lookup_insert_ne; [done|congruence]).
  - by destruct Hf.
  - by eapply submseteq_NoDup.
  - intros m Hm. by apply Hm2, Hsub.
  - cbn. intros ->. destruct Hrd as [Hrd Hnf]. intros t' Ht'. unfold waiting. cbn. fold (waiting w).
    rewrite Hother by (intros ->; by apply Hnf). apply (Hl Hrd). by eapply elem_of_submseteq.
  - unfold reader_ok. cbn. destruct rd as [|ts|]; [done| |done]. destruct Hrd as [Hcl Hts].
    split; [done|]. unfold waiting. cbn. fold (waiting w).
    apply (Permutation_cons_inv (a := t)). rewrite Hts.
    by rewrite <-(map_to_list_delete (waiting w) t c Hwt).
Qed.

Lemma in_ms2 w ms1 ms2 t m :
  dmx_inv ms1 ms2 w → m ∈ ms2 → t = Tag m →
  ∃ c b, sent w !! t = Some (c, b) ∧ (t, b, MkReply (Data m) (Ok m) false) ∈ served w.
Proof. intros Hi Hm ->. by apply (i_ms2 _ _ _ Hi). Qed.

(** The head of the replies is not in flight twice. *)
Lemma head_once w ms1 ms2 m :
  NoDup (flight w ms1 (m :: ms2)) →
  (Tag m ∉ flight w ms1 ms2) ∧ (flight w ms1 ms2 ⊆+ flight w ms1 (m :: ms2)).
Proof.
  assert (flight w ms1 (m :: ms2) ≡ₚ Tag m :: flight w ms1 ms2) as Hp.
  { unfold flight. rewrite fmap_cons, !app_assoc. symmetry. apply Permutation_middle. }
  intros Hnd. rewrite Hp in Hnd |- *. apply list.NoDup_cons in Hnd as [Hn _].
  split; [done|]. by apply submseteq_cons.
Qed.

Lemma read_inv order ms1 ms2 w :
  dmx_inv ms1 ms2 w →
  match clnt_read order w with
  | Blocked => True
  | Fatal => False
  | Went w' => ∃ ms2', dmx_inv ms1 ms2' w'
  end.
Proof.
  intros Hi. pose proof (i_reader _ _ _ Hi) as Hrd. unfold reader_ok in Hrd. unfold clnt_read.
  destruct (reader w) as [|[|t ts]|] eqn:Hreader; [| | |done].
  - pose proof (read_cut _ _ ms2 (proj2 (i_fits _ _ _ Hi)) (i_s2c _ _ _ Hi)) as Hread.
    destruct (ReadCall _ _) as [|eof| |m rest]; [done| |done|].
    + case_decide as Hord; [|done]. exists ms2. destruct Hi. split; done.
    + destruct Hread as (ms2' & -> & Hcut).
      destruct (head_once w ms1 ms2' m (i_flight _ _ _ Hi)) as [Hnf Hsub].
      destruct (i_live _ _ _ Hi Hreader (Tag m)) as [c Hwt].
      { unfold flight. rewrite !elem_of_app, fmap_cons, elem_of_cons. tauto. }
      destruct (clnt_reply _ _ _) as [| |w'] eqn:Hrep; [done| |].
      * unfold clnt_reply, cm_remove in Hrep. cbn in Hrep. fold (waiting w) in Hrep.
        rewrite Hwt in Hrep. by destruct (callers w !! c) as [[]|].
      * exists ms2'. eapply (reply_inv (Tag m) _ RdLoop rest ms1 (m :: ms2')); try done.
        -- intros x Hx. apply elem_of_cons. by right.
        -- exact (Forall_inv_tail (proj2 (i_fits _ _ _ Hi))).
        -- right. apply (i_ms2 _ _ _ Hi). apply elem_of_cons. by left.
  - exists ms2. destruct Hrd as [Hcl Hnil]. destruct Hi. split; try done. split; [done|].
    apply map_to_list_empty_iff. symmetry in Hnil. apply Permutation_nil_r in Hnil.
    by apply fmap_nil_inv in Hnil.
  - destruct Hrd as [Hcl Hts].
    assert (is_Some (waiting w !! t)) as [c Hwt].
    { assert (t ∈ (map_to_list (waiting w)).*1) as Hin by (rewrite <-Hts; by left).
      apply list_elem_of_fmap in Hin as ([t' c] & -> & Hin). apply elem_of_map_to_list in Hin.
      by exists c. }
    destruct (clnt_reply _ _ _) as [| |w'] eqn:Hrep; [done| |].
    + unfold clnt_reply, cm_remove in Hrep. cbn in Hrep. fold (waiting w) in Hrep.
      rewrite Hwt in Hrep. by destruct (callers w !! c) as [[]|].
    + exists ms2. eapply (reply_inv t failed (RdDrain ts) (s2c w) ms1 ms2); try done.
      * apply Hi.
      * apply Hi.
      * by left.
Qed.

(** When the reader cannot go on after the stream has ended, the call it has an
    answer for has not written its request yet. *)
Lemma reader_waits ms1 ms2 w :
  dmx_inv ms1 ms2 w → s2c_open w = false → reader w ≠ RdDone →
  clnt_read (map_to_list (waiting w)).*1 w = Blocked → ∃ c w', call_write c w = Went w'.
Proof.
  intros Hi Hcl Hrd. unfold clnt_read. fold (waiting w).
  assert (∀ t r rd buf, clnt_reply t r (set_reader rd buf w) = Blocked →
    ∃ c w', call_write c w = Went w') as Hreply.
  { intros t r rd buf. unfold clnt_reply, cm_remove. cbn. fold (waiting w).
    destruct (waiting w !! t) as [c|] eqn:Hwt; [|done].
    destruct (i_waiting _ _ _ Hi t c Hwt) as [[b Hx]|Hx]; rewrite Hx; [|done].
    intros _. exists c. unfold call_write. rewrite Hx. by eexists. }
  destruct (reader w) as [|[|t ts]|]; [| |apply Hreply|done].
  - pose proof (read_cut _ _ ms2 (proj2 (i_fits _ _ _ Hi)) (i_s2c _ _ _ Hi)) as Hread.
    rewrite Hcl in Hread |- *. destruct (ReadCall _ _) as [|eof| |m rest]; [by destruct Hread| |done|].
    + by rewrite decide_True.
    + apply Hreply.
  - done.
Qed.

(** *** The server *)

Lemma srv_read_inv ms1 ms2 w :
  dmx_inv ms1 ms2 w →
  match srv_read w with
  | Blocked => True
  | Fatal => False
  | Went w' => ∃ ms1', dmx_inv ms1' ms2 w'
  end.
Proof.
  intros Hi. unfold srv_read. destruct (srv_reading w); [|done].
  pose proof (read_cut _ _ ms1 (proj1 (i_fits _ _ _ Hi)) (i_c2s _ _ _ Hi)) as Hread.
  destruct (ReadCall _ _) as [|eof| |m rest]; [done| |done|].
  - exists ms1. destruct Hi. by split.
  - destruct Hread as (ms1' & -> & Hcut). exists ms1'.
    destruct Hi as [Ht Hs Ho Hc Hw [Hf1 Hf2] H1 H2 Hfl Hm1 Hj Hm2 Hl Hr].
    apply list.Forall_cons in Hf1 as [_ Hf1].
    match goal with |- dmx_inv _ _ ?x => set (w' := x) end.
    assert (flight w' ms1' ms2 ≡ₚ flight w (m :: ms1') ms2) as Hp.
    { unfold flight. cbn. rewrite fmap_app. cbn. rewrite <-app_assoc. cbn. rewrite !app_assoc.
      rewrite <-(Permutation_middle ((Tag <$> ms1') ++ (jobs w).*1)). done. }
    split; try done.
    + intros c x Hx. eapply (caller_ok_sub w'); [|apply (Hc _ _ Hx)]. by rewrite Hp.
    + by rewrite Hp.
    + intros x Hx. apply Hm1, elem_of_cons. by right.
    + cbn. intros t b [Hin|[= -> ->]%list_elem_of_singleton]%elem_of_app; [by apply Hj|].
      apply Hm1, elem_of_cons. by left.
    + intros Hrd t. rewrite Hp. by apply Hl.
Qed.

Lemma srv_run_inv k ms1 ms2 w w' :
  replies_small → begun w <= 2 ^ 32 → dmx_inv ms1 ms2 w → srv_run ServeRequest k w = Went w' →
  ∃ ms2', dmx_inv ms1 ms2' w'.
Proof.
  intros Hsm Hbound [Ht Hs Ho Hc Hw [Hf1 Hf2] H1 H2 Hfl Hm1 Hj Hm2 Hl Hr]. unfold srv_run.
  destruct (jobs w !! k) as [[t req]|] eqn:Hk; [|done].
  pose proof (Hsm (srv_state w) req) as Hsmall.
  destruct (ServeRequest (srv_state w) req) as [st [b ok]]. cbn in Hsmall. intros [= <-].
  match goal with |- ∃ _, dmx_inv _ _ ?x => set (w' := x) end.
  destruct (Hj t req) as [c Hst]; [by eapply list_elem_of_lookup_2|].
  set (ms2' := if s2c_open w then ms2 ++ [MkMsg t b ok] else ms2). exists ms2'.
  assert (jobs w ≡ₚ (t, req) :: jobs w') as Hjobs.
  { rewrite <-(take_drop_middle _ _ _ Hk) at 1. cbn. symmetry. apply Permutation_middle. }
  assert (flight w' ms1 ms2' ⊆+ flight w ms1 ms2) as Hsub.
  { unfold flight. apply submseteq_app; [done|]. rewrite Hjobs. unfold ms2'.
    rewrite fmap_cons. cbn [fst]. destruct (s2c_open w).
    - rewrite fmap_app. cbn. rewrite app_assoc. rewrite <-Permutation_cons_append. done.
    - by apply submseteq_cons. }
  assert (∀ x, x ∈ served w → x ∈ served w') as Hserved.
  { intros x Hx. cbn. apply elem_of_app. by left. }
  split; try done.
  - intros c' x Hx. specialize (Hc _ _ Hx). apply (caller_ok_sub w _ (flight w' ms1 ms2')) in Hc; [|done].
    destruct x; try done. destruct Hc as [?|(t' & b' & E & Hin)]; [by left|right].
    exists t', b'. split; [done|by apply Hserved].
  - split; [done|]. unfold ms2'. destruct (s2c_open w); [|done].
    apply Forall_app. split; [done|]. constructor; [|constructor].
    apply Hsmall. destruct (Hs _ _ _ Hst) as (? & _). lia.
  - cbn. unfold ms2'. destruct (s2c_open w); [by apply (cut_snoc (s2c w) ms2 (MkMsg t b ok))|done].
  - by eapply submseteq_NoDup.
  - intros t' b' Hin. apply (Hj t' b'). rewrite Hjobs. apply elem_of_cons. by right.
  - assert (∀ m, m ∈ ms2 → ∃ c b, sent w' !! Tag m = Some (c, b) ∧
      (Tag m, b, MkReply (Data m) (Ok m) false) ∈ served w') as Hold.
    { intros m Hm. destruct (Hm2 m Hm) as (c' & b' & E & Hin). exists c', b'.
      split; [done|by apply Hserved]. }
    intros m. unfold ms2'. destruct (s2c_open w); [|by apply Hold].
    intros [Hm| ->%list_elem_of_singleton]%elem_of_app; [by apply Hold|].
    exists c, req. split; [done|]. cbn. apply elem_of_app. right. by apply list_elem_of_singleton.
  - intros Hrd t' Ht'. apply (Hl Hrd). by eapply elem_of_submseteq.
Qed.

Lemma close_inv k k' ms1 ms2 w w' :
  dmx_inv ms1 ms2 w → clnt_Close k k' w = Went w' → ∃ ms1' ms2', dmx_inv ms1' ms2' w'.
Proof.
  unfold clnt_Close, isClosed. destruct (cm_closed _) eqn:Hcl; intros Hi [= <-]; [by exists ms1, ms2|].
  destruct (lose_inv k k' ms1 ms2 w Hi) as (ms1' & ms2' & Hi'). exists ms1', ms2'.
  pose proof (i_reader _ _ _ Hi') as Hrd. destruct Hi'. split; try done.
  unfold reader_ok in *. cbn in *. destruct (reader w) as [|ts|]; [done| |]; by destruct Hrd.
Qed.

Lemma srv_close_inv k k' ms1 ms2 w w' :
  dmx_inv ms1 ms2 w → srv_Close k k' w = Went w' → ∃ ms1' ms2', dmx_inv ms1' ms2' w'.
Proof.
  unfold srv_Close. destruct (srv_closed w); intros Hi [= <-]; [by exists ms1, ms2|].
  destruct (lose_inv k k' ms1 ms2 w Hi) as (ms1' & ms2' & Hi'). exists ms1', ms2'.
  destruct Hi'. by split.
Qed.

(** *** Runs *)

Definition step_small (s : Step) : Prop := match s with StBegin _ b => small b | _ => True end.

Definition is_begin (s : Step) : bool := match s with StBegin _ _ => true | _ => false end.

(** The number of calls that are begun. *)
Definition begins (ss : list Step) : Z := len (filter (λ s, is_begin s = true) ss).

Lemma begins_one s : begins [s] = if is_begin s then 1 else 0.
Proof. by destruct s. Qed.

Lemma step_inv s ms1 ms2 w :
  replies_small → step_small s → begun w + begins [s] <= 2 ^ 32 → dmx_inv ms1 ms2 w →
  match step ServeRequest s w with
  | Blocked => True
  | Fatal => False
  | Went w' => ∃ ms1' ms2', dmx_inv ms1' ms2' w'
  end.
Proof.
  intros Hsm Hs Hb Hi. assert (begun w <= 2 ^ 32) as Hbegun.
  { assert (0 <= begins [s]) by apply len_nonneg. lia. }
  destruct s; cbn [step].
  - destruct (call_begin c b w) as [| |w'] eqn:Hc; [done| |].
    + unfold call_begin in Hc. by destruct (callers w !! c).
    + exists ms1, ms2. eapply begin_inv; [exact Hs| |exact Hi|exact Hc].
      unfold call_begin in Hc. destruct (callers w !! c); [done|]. injection Hc as <-.
      rewrite begins_one in Hb. cbn in Hb |- *. lia.
  - destruct (call_put c w) as [| |w'] eqn:Hc; [done| |].
    + unfold call_put in Hc. destruct (callers w !! c) as [[]|]; try done.
      by destruct (cm_put _ _ _).
    + exists ms1, ms2. by eapply put_inv.
  - destruct (call_write c w) as [| |w'] eqn:Hc; [done| |].
    + unfold call_write in Hc. by destruct (callers w !! c) as [[]|].
    + destruct (write_inv c ms1 ms2 w w' Hbegun Hi Hc) as [ms1' ?]. by exists ms1', ms2.
  - pose proof (read_inv order ms1 ms2 w Hi) as Hr. destruct (clnt_read order w); [done..|].
    destruct Hr as [ms2' ?]. by exists ms1, ms2'.
  - pose proof (srv_read_inv ms1 ms2 w Hi) as Hr. destruct (srv_read w); [done..|].
    destruct Hr as [ms1' ?]. by exists ms1', ms2.
  - destruct (srv_run ServeRequest k w) as [| |w'] eqn:Hc; [done| |].
    + unfold srv_run in Hc. destruct (jobs w !! k) as [[t req]|]; [|done].
      by destruct (ServeRequest _ _) as [? []].
    + destruct (srv_run_inv k ms1 ms2 w w' Hsm Hbegun Hi Hc) as [ms2' ?]. by exists ms1, ms2'.
  - by eapply lose_inv.
  - destruct (clnt_Close k k' w) eqn:Hc; [done| |by eapply close_inv].
    unfold clnt_Close in Hc. by destruct (isClosed _).
  - destruct (srv_Close k k' w) eqn:Hc; [done| |by eapply srv_close_inv].
    unfold srv_Close in Hc. by destruct (srv_closed _).
Qed.

Lemma clnt_reply_begun t r w w' : clnt_reply t r w = Went w' → begun w' = begun w.
Proof.
  unfold clnt_reply. destruct (cm_remove _ _) as [cm [c|]]; [|done].
  destruct (callers w !! c) as [[]|]; try done. by intros [= <-].
Qed.

Lemma step_begun s w w' :
  step ServeRequest s w = Went w' → begun w' <= begun w + begins [s].
Proof.
  rewrite begins_one. destruct s; cbn [step is_begin]; intros Hs.
  - unfold call_begin in Hs. destruct (callers w !! c); [done|]. injection Hs as <-. cbn; lia.
  - unfold call_put in Hs. destruct (callers w !! c) as [[]|]; try done.
    destruct (cm_put _ _ _); injection Hs as <-; cbn; lia.
  - unfold call_write in Hs. destruct (callers w !! c) as [[]|]; try done. injection Hs as <-. cbn; lia.
  - unfold clnt_read in Hs. destruct (reader w) as [|[|t ts]|].
    + destruct (ReadCall _ _); [done| |done|apply clnt_reply_begun in Hs; cbn in *; lia].
      case_decide; [|done]. injection Hs as <-. cbn; lia.
    + injection Hs as <-. cbn; lia.
    + apply clnt_reply_begun in Hs. cbn in *; lia.
    + done.
  - unfold srv_read in Hs. destruct (srv_reading w); [|done].
    destruct (ReadCall _ _); try done; injection Hs as <-; cbn; lia.
  - unfold srv_run in Hs. destruct (jobs w !! k) as [[t req]|]; [|done].
    destruct (ServeRequest _ _) as [? []]. injection Hs as <-. cbn; lia.
  - injection Hs as <-. cbn; lia.
  - unfold clnt_Close in Hs. destruct (isClosed _); injection Hs as <-; cbn; lia.
  - unfold srv_Close in Hs. destruct (srv_closed _); injection Hs as <-; cbn; lia.
Qed.

Lemma begins_cons s ss : begins (s :: ss) = begins [s] + begins ss.
Proof.
  unfold begins. rewrite !filter_cons, filter_nil. case_decide; rewrite ?len_cons; [|done].
  change (len []) with 0. lia.
Qed.

Lemma steps_begun ss w w' :
  steps ServeRequest ss w = Went w' → begun w' <= begun w + begins ss.
Proof.
  revert w. induction ss as [|s ss IH]; intros w; cbn [steps].
  - intros [= <-]. change (begins []) with 0. lia.
  - destruct (step ServeRequest s w) as [| |w1] eqn:Hs; [done..|]. intros Hrun.
    rewrite begins_cons. apply step_begun in Hs. apply IH in Hrun. lia.
Qed.

Lemma steps_inv ss ms1 ms2 w :
  replies_small → Forall step_small ss → begun w + begins ss <= 2 ^ 32 → dmx_inv ms1 ms2 w →
  match steps ServeRequest ss w with
  | Blocked => True
  | Fatal => False
  | Went w' => ∃ ms1' ms2', dmx_inv ms1' ms2' w'
  end.
Proof.
  intros Hsm. revert ms1 ms2 w. induction ss as [|s ss IH]; intros ms1 ms2 w Hs Hb Hi; cbn [steps].
  - by exists ms1, ms2.
  - apply list.Forall_cons in Hs as [Hs Hss]. rewrite begins_cons in Hb.
    assert (0 <= begins ss) as H0 by apply len_nonneg.
    pose proof (step_inv s ms1 ms2 w Hsm Hs ltac:(lia) Hi) as Hst.
    destruct (step ServeRequest s w) as [| |w'] eqn:Hw; [done..|].
    destruct Hst as (ms1' & ms2' & Hi'). apply (IH ms1' ms2'); [done| |done].
    apply step_begun in Hw. lia.
Qed.
(** *** How much the client still has to do

    A call puts its channel in the map, writes its request and returns; the
    reader fails the outstanding calls once, and stops. *)
Definition call_work (x : Caller) : Z :=
  match x with CTagged _ _ => 3 | CPut _ _ => 2 | CWait _ => 1 | CRet _ => 0 end.

Definition calls_work (cs : gmap nat Caller) : Z := map_fold (λ _ x n, call_work x + n) 0 cs.

Definition reader_work (rd : Reader) : Z :=
  match rd with RdLoop => 2 | RdDrain _ => 1 | RdDone => 0 end.

Definition clnt_work w : Z := calls_work (callers w) + reader_work (reader w).

(** The calls that have not returned. *)
Definition returned (x : Caller) : bool := match x with CRet _ => true | _ => false end.

Definition unreturned w : Z := len (filter (λ cx, returned cx.2 = false) (map_to_list (callers w))).

(** The steps of the client's goroutines: the calls that were begun, and the reader. *)
Definition clnt_step (s : Step) : bool :=
  match s with StPut _ | StWrite _ | StClntRead _ => true | _ => false end.

Definition clnt_steps (ss : list Step) : Z := len (filter (λ s, clnt_step s = true) ss).

(** Every call has returned and the reader is gone. *)
Definition finished w : Prop :=
  reader w = RdDone ∧ ∀ c x, callers w !! c = Some x → returned x = true.

Lemma calls_work_new cs c x :
  cs !! c = None → calls_work (<[c := x]> cs) = call_work x + calls_work cs.
Proof. intros Hc. unfold calls_work. rewrite map_fold_insert_L; [done|lia|done]. Qed.

Lemma calls_work_set cs c x y :
  cs !! c = Some x → calls_work (<[c := y]> cs) = calls_work cs - call_work x + call_work y.
Proof.
  intros Hc. rewrite <-(insert_delete_id cs c x Hc) at 2. rewrite <-insert_delete_eq.
  rewrite !calls_work_new by apply lookup_delete_eq. lia.
Qed.

Lemma clnt_work_nonneg w : 0 <= clnt_work w.
Proof.
  unfold clnt_work. assert (0 <= calls_work (callers w)) as H.
  { unfold calls_work. apply (map_fold_weak_ind (λ r _, 0 <= r)); [lia|].
    intros i x m r _ Hr. destruct x; cbn; lia. }
  destruct (reader w); cbn; lia.
Qed.

Lemma clnt_work_unreturned w : clnt_work w <= 3 * unreturned w + 2.
Proof.
  unfold clnt_work, unreturned, calls_work. rewrite map_fold_foldr.
  assert (reader_work (reader w) <= 2) by (destruct (reader w); cbn; lia).
  induction (map_to_list (callers w)) as [|[c x] l IH].
  { change (filter _ []) with (@nil (nat * Caller)). change (len []) with 0. cbn [foldr]. lia. }
  rewrite filter_cons. cbn [foldr uncurry snd].
  case_decide as Hx; rewrite ?len_cons; destruct x; cbn [returned call_work] in *; try done; lia.
Qed.

(** Each of those steps leaves less of it. *)
Lemma clnt_reply_work t r rd buf w w' :
  clnt_reply t r (set_reader rd buf w) = Went w' → reader_work rd <= reader_work (reader w) →
  clnt_work w' < clnt_work w.
Proof.
  unfold clnt_reply. destruct (cm_remove _ _) as [cm [c|]]; [|done]. cbn [callers set_reader].
  destruct (callers w !! c) as [[]|] eqn:Hc; try done. intros [= <-]. unfold clnt_work. cbn.
  rewrite (calls_work_set _ _ _ _ Hc). cbn. lia.
Qed.

Lemma clnt_step_work s w w' :
  step ServeRequest s w = Went w' →
  clnt_work w' <= clnt_work w + 3 * begins [s] - clnt_steps [s].
Proof.
  intros Hs. rewrite begins_one. unfold clnt_steps. rewrite filter_cons, filter_nil.
  destruct s; cbn [step is_begin clnt_step] in *;
    (case_decide; [|]; try done; change (len [_]) with 1 || change (len []) with 0).
  - unfold call_begin in Hs. destruct (callers w !! c) eqn:Hc; [done|]. injection Hs as <-.
    unfold clnt_work. cbn [callers reader]. rewrite calls_work_new by done. cbn. lia.
  - unfold call_put in Hs. destruct (callers w !! c) as [[]|] eqn:Hc; try done.
    destruct (cm_put _ _ _); injection Hs as <-; unfold clnt_work; cbn [callers reader set_clnt];
      rewrite (calls_work_set _ _ _ _ Hc); cbn; lia.
  - unfold call_write in Hs. destruct (callers w !! c) as [[]|] eqn:Hc; try done.
    injection Hs as <-; unfold clnt_work; cbn [callers reader].
    rewrite (calls_work_set _ _ _ _ Hc); cbn; lia.
  - unfold clnt_read in Hs. destruct (reader w) as [|[|t ts]|] eqn:Hr; [| | |done].
    + destruct (ReadCall _ _); [done| |done|].
      * case_decide; [|done]. injection Hs as <-. unfold clnt_work. cbn. rewrite Hr. cbn. lia.
      * apply clnt_reply_work in Hs; [lia|by rewrite Hr].
    + injection Hs as <-. unfold clnt_work. cbn. rewrite Hr. cbn. lia.
    + apply clnt_reply_work in Hs; [lia|by rewrite Hr].
  - unfold srv_read in Hs. destruct (srv_reading w); [|done].
    destruct (ReadCall _ _); try done; injection Hs as <-; unfold clnt_work; cbn; lia.
  - unfold srv_run in Hs. destruct (jobs w !! k) as [[t req]|]; [|done].
    destruct (ServeRequest _ _) as [? []]. injection Hs as <-. unfold clnt_work; cbn; lia.
  - injection Hs as <-. unfold clnt_work; cbn; lia.
  - unfold clnt_Close in Hs. destruct (isClosed _); injection Hs as <-; unfold clnt_work; cbn; lia.
  - unfold srv_Close in Hs. destruct (srv_closed _); injection Hs as <-; unfold clnt_work; cbn; lia.
Qed.

Lemma clnt_steps_cons s ss : clnt_steps (s :: ss) = clnt_steps [s] + clnt_steps ss.
Proof.
  unfold clnt_steps. rewrite !filter_cons, filter_nil. case_decide; rewrite ?len_cons; [|done].
  change (len []) with 0. lia.
Qed.

Lemma clnt_steps_work ss w w' :
  steps ServeRequest ss w = Went w' →
  clnt_steps ss <= clnt_work w + 3 * begins ss - clnt_work w'.
Proof.
  revert w. induction ss as [|s ss IH]; intros w; cbn [steps].
  - intros [= <-]. change (clnt_steps []) with 0. change (begins []) with 0. lia.
  - destruct (step ServeRequest s w) as [| |w1] eqn:Hs; [done..|]. intros Hrun.
    rewrite clnt_steps_cons, begins_cons. apply clnt_step_work in Hs. apply IH in Hrun. lia.
Qed.

(** The stream to the client stays gone. *)
Lemma step_s2c_closed s w w' :
  step ServeRequest s w = Went w' → s2c_open w = false → s2c_open w' = false.
Proof.
  destruct s; cbn [step]; intros Hs.
  - unfold call_begin in Hs. destruct (callers w !! c); [done|]. by injection Hs as <-.
  - unfold call_put in Hs. destruct (callers w !! c) as [[]|]; try done.
    by destruct (cm_put _ _ _); injection Hs as <-.
  - unfold call_write in Hs. destruct (callers w !! c) as [[]|]; try done. by injection Hs as <-.
  - assert (∀ t r rd buf, clnt_reply t r (set_reader rd buf w) = Went w' →
      s2c_open w = false → s2c_open w' = false) as Hreply.
    { intros t r rd buf. unfold clnt_reply. destruct (cm_remove _ _) as [cm [c|]]; [|done].
      destruct (callers _ !! c) as [[]|]; try done. by intros [= <-]. }
    unfold clnt_read in Hs. destruct (reader w) as [|[|t ts]|].
    + destruct (ReadCall _ _); [done| |done|by eapply Hreply].
      case_decide; [|done]. by injection Hs as <-.
    + by injection Hs as <-.
    + by eapply Hreply.
    + done.
  - unfold srv_read in Hs. destruct (srv_reading w); [|done].
    by destruct (ReadCall _ _); try done; injection Hs as <-.
  - unfold srv_run in Hs. destruct (jobs w !! k) as [[t req]|]; [|done].
    destruct (ServeRequest _ _) as [? []]. by injection Hs as <-.
  - by injection Hs as <-.
  - unfold clnt_Close in Hs. by destruct (isClosed _); injection Hs as <-.
  - unfold srv_Close in Hs. by destruct (srv_closed _); injection Hs as <-.
Qed.

Lemma steps_s2c_closed ss w w' :
  steps ServeRequest ss w = Went w' → s2c_open w = false → s2c_open w' = false.
Proof.
  revert w. induction ss as [|s ss IH]; intros w; cbn [steps]; [by intros [= <-]|].
  destruct (step ServeRequest s w) as [| |w1] eqn:Hs; [done..|]. intros Hrun Hcl.
  eapply IH; [done|]. by eapply step_s2c_closed.
Qed.

Lemma steps_app ss ss' w :
  steps ServeRequest (ss ++ ss') w =
    match steps ServeRequest ss w with Went w => steps ServeRequest ss' w | o => o end.
Proof.
  revert w. induction ss as [|s ss IH]; intros w; [done|]. cbn [app steps].
  destruct (step ServeRequest s w); [done..|apply IH].
Qed.

(** As long as a call has not returned, the client can go on. *)
Lemma clnt_goes_on ms1 ms2 w :
  dmx_inv ms1 ms2 w → s2c_open w = false →
  finished w ∨ ∃ s w', clnt_step s = true ∧ step ServeRequest s w = Went w'.
Proof.
  intros Hi Hcl. assert (reader w = RdDone ∨ reader w ≠ RdDone) as [Hrd|Hrd]
    by (destruct (reader w); [by right|by right|by left]).
  - pose proof (i_reader _ _ _ Hi) as Hro. unfold reader_ok in Hro. rewrite Hrd in Hro.
    destruct Hro as [Hclo Hemp].
    destruct (decide (map_Forall (λ _ x, returned x = true) (callers w))) as [Hall|Hall];
      [left; by split|right].
    apply map_not_Forall in Hall as (c & x & Hx & Hn); [|apply _].
    pose proof (i_caller _ _ _ Hi c x Hx) as Hc. destruct x as [t b|t b|t|r]; cbn in Hc.
    + exists (StPut c). cbn [step]. unfold call_put. rewrite Hx. unfold cm_put. rewrite Hclo. by eexists.
    + destruct Hc as (_ & Hw & _). by rewrite Hemp, lookup_empty in Hw.
    + destruct Hc as (_ & Hw). by rewrite Hemp, lookup_empty in Hw.
    + done.
  - right. set (order := (map_to_list (waiting w)).*1).
    destruct (clnt_read order w) as [| |w'] eqn:Hr.
    + destruct (reader_waits ms1 ms2 w Hi Hcl Hrd Hr) as (c & w' & Hw). by exists (StWrite c), w'.
    + pose proof (read_inv order ms1 ms2 w Hi) as H. by rewrite Hr in H.
    + by exists (StClntRead order), w'.
Qed.

Lemma clnt_step_begins s : clnt_step s = true → begins [s] = 0 ∧ step_small s.
Proof. by destruct s. Qed.

(** Left to itself, it finishes. *)
Lemma clnt_finishes ms1 ms2 w :
  replies_small → begun w <= 2 ^ 32 → dmx_inv ms1 ms2 w → s2c_open w = false →
  ∃ ss w', Forall (λ s, clnt_step s = true) ss ∧ steps ServeRequest ss w = Went w' ∧ finished w'.
Proof.
  intros Hsm. remember (Z.to_nat (clnt_work w)) as n eqn:Hn. revert ms1 ms2 w Hn.
  induction (lt_wf n) as [n _ IH]. intros ms1 ms2 w Hn Hb Hi Hcl.
  destruct (clnt_goes_on ms1 ms2 w Hi Hcl) as [Hf|(s & w1 & Hs & Hstep)].
  - exists [], w. by split.
  - destruct (clnt_step_begins s Hs) as [Hb0 Hsmall].
    pose proof (step_inv s ms1 ms2 w Hsm Hsmall ltac:(lia) Hi) as Hi1. rewrite Hstep in Hi1.
    destruct Hi1 as (ms1' & ms2' & Hi1).
    pose proof (clnt_step_work s w w1 Hstep) as Hw. rewrite Hb0 in Hw.
    assert (clnt_steps [s] = 1) as H1 by (by destruct s).
    pose proof (clnt_work_nonneg w1).
    destruct (IH (Z.to_nat (clnt_work w1)) ltac:(lia) ms1' ms2' w1 eq_refl) as (ss & w' & Hall & Hrun & Hf);
      [|done|by eapply step_s2c_closed|].
    + pose proof (step_begun s w w1 Hstep). lia.
    + exists (s :: ss), w'. split; [by constructor|]. split; [|done]. cbn [steps]. by rewrite Hstep.
Qed.
End Pairing.

Section Open.
Context `{!Codec msg, !CodecLaws msg, !Codec InitMsg, !CodecLaws InitMsg} {St : Type}.
Context (ServeRequest : St → bytes → St * (bytes * bool)).

Lemma opened_inv clntEnd (st : St) :
  small (Marshall (MkInitMsg clntEnd)) →
  ∃ w, opened clntEnd st = Some w ∧ dmx_inv [] [] w ∧ begun w = 1.
Proof.
  intros Hsm. unfold opened, NewDemuxClnt, NewDemuxSrv. cbn [tag nextTag].
  pose proof (read_frame false (MkMsg 0 (Marshall (MkInitMsg clntEnd)) true) [] (Hsm _ _ ltac:(done))) as Hread.
  rewrite app_nil_r in Hread. unfold frame in Hread. cbn [Tag Data Ok] in Hread.
  rewrite Hread. cbn [Data]. rewrite codec_roundtrip. cbn [mbind option_bind]. eexists. split; [done|].
  split; [|done]. split; try done.
  - by exists []; split; [|left].
  - by exists []; split; [|left].
  - constructor.
  - by intros m ?%not_elem_of_nil.
  - by intros t b ?%not_elem_of_nil.
  - by intros m ?%not_elem_of_nil.
  - by intros _ t ?%not_elem_of_nil.
Qed.

(** C32: every call gets the answer to its own request.  However the goroutines
    of client and server interleave, whatever is lost when the connection
    breaks, and as long as the 32-bit tags do not wrap and messages are shorter
    than 2^32 bytes, neither side dies on a message it cannot match or decode,
    and a call that returns without an error returns what the server answered
    to the request of that very call. *)
Theorem demux_pairing clntEnd (st : St) ss :
  replies_small ServeRequest → small (Marshall (MkInitMsg clntEnd)) →
  Forall step_small ss → 1 + begins ss <= 2 ^ 32 →
  ∃ w0, opened clntEnd st = Some w0 ∧
  match steps ServeRequest ss w0 with
  | Blocked => True
  | Fatal => False
  | Went w => ∀ c r, callers w !! c = Some (CRet r) → err r = false →
      ∃ t b, sent w !! t = Some (c, b) ∧ (t, b, r) ∈ served w ∧
        ∀ t' b', sent w !! t' = Some (c, b') → t' = t ∧ b' = b
  end.
Proof.
  intros Hrep Hsm Hss Hb. destruct (opened_inv clntEnd st Hsm) as (w0 & Ho & Hi & Hw0).
  exists w0. split; [done|].
  pose proof (steps_inv ServeRequest ss [] [] w0 Hrep Hss ltac:(lia) Hi) as Hst.
  destruct (steps ServeRequest ss w0) as [| |w]; [done..|]. destruct Hst as (ms1 & ms2 & Hinv).
  intros c r Hc Herr. destruct (i_caller _ _ _ Hinv c _ Hc) as [?|(t & b & Hst & Hin)]; [congruence|].
  exists t, b. split; [done|]. split; [done|]. intros t' b' Hst'.
  assert (t' = t) as -> by (by eapply (i_once _ _ _ Hinv)). split; [done|]. congruence.
Qed.

(** C33: no call hangs.  Once the stream to the client is gone, whatever the
    server and the network go on doing, the goroutines of the client take a
    bounded number of steps, at most three for each call that had not returned or
    is begun and two for the reader; until every call has returned and the reader
    is gone one of them can go on; and left to themselves they get there.  A call
    that is begun after that is refused at once. *)
Theorem demux_no_hang clntEnd (st : St) ss ss' w0 w w' :
  replies_small ServeRequest → small (Marshall (MkInitMsg clntEnd)) →
  Forall step_small (ss ++ ss') → 1 + begins (ss ++ ss') <= 2 ^ 32 →
  opened clntEnd st = Some w0 → steps ServeRequest ss w0 = Went w → s2c_open w = false →
  steps ServeRequest ss' w = Went w' →
  clnt_steps ss' <= 3 * (unreturned w + begins ss') + 2 ∧
  (finished w' ∨ ∃ s w'', clnt_step s = true ∧ step ServeRequest s w' = Went w'') ∧
  (∃ ss'' w'', Forall (λ s, clnt_step s = true) ss'' ∧ steps ServeRequest ss'' w' = Went w'' ∧
     finished w'') ∧
  (reader w' = RdDone → ∀ c t b, callers w' !! c = Some (CTagged t b) →
     ∃ w'', step ServeRequest (StPut c) w' = Went w'' ∧ callers w'' !! c = Some (CRet failed)).
Proof.
  intros Hrep Hsm Hss Hb Ho Hrun Hcl Hrun'. destruct (opened_inv clntEnd st Hsm) as (w1 & Ho' & Hi & Hw1).
  rewrite Ho in Ho'. injection Ho' as <-.
  assert (steps ServeRequest (ss ++ ss') w0 = Went w') as Hall by (by rewrite steps_app, Hrun).
  pose proof (steps_inv ServeRequest (ss ++ ss') [] [] w0 Hrep Hss ltac:(lia) Hi) as Hst.
  rewrite Hall in Hst. destruct Hst as (ms1 & ms2 & Hinv).
  assert (begun w' <= 2 ^ 32) as Hbegun by (apply steps_begun in Hall; lia).
  pose proof (steps_s2c_closed ServeRequest ss' w w' Hrun' Hcl) as Hcl'.
  split; [|split; [|split]].
  - apply clnt_steps_work in Hrun'. pose proof (clnt_work_unreturned w).
    pose proof (clnt_work_nonneg w'). lia.
  - by eapply clnt_goes_on.
  - by eapply clnt_finishes.
  - intros Hrd c t b Hx. pose proof (i_reader _ _ _ Hinv) as Hro. unfold reader_ok in Hro.
    rewrite Hrd in Hro. destruct Hro as [Hclo _]. cbn [step]. unfold call_put. rewrite Hx.
    unfold cm_put. rewrite Hclo. eexists. split; [done|]. cbn. by rewrite lookup_insert_eq.
Qed.
End Open.
