(* ===== verification/DemuxDemo.v ===== *)
(** * A connection in use

    A concrete encoder for the messages of [Demux.v], which stands in for the one
    of [labrpc], and the properties of the connection applied to a short run. *)
From S2P Require Import Prelude Strs Persister Demux DemuxTheorems.

(** A tag that is a [uint32] takes four bytes, any other one as many as it
    says. *)
Fixpoint count_ones (l : bytes) : nat * bytes :=
  match l with
  | x :: l => if decide (x = 1) then let '(n, rest) := count_ones l in (S n, rest) else (0%nat, l)
  | [] => (0%nat, [])
  end.

Lemma count_ones_spec n (l : bytes) : count_ones (replicate n 1 ++ 0 :: l) = (n, l).
Proof. induction n as [|n IH]; cbn; [done|]. by rewrite IH. Qed.

Definition of_bool (b : bool) : Z := if b then 1 else 0.
Definition to_bool (z : Z) : bool := bool_decide (z = 1).

#[export] Instance codec_msg : Codec msg := {
  Marshall m :=
    if decide (0 <= Tag m < 2 ^ 32) then 0 :: le32 (Tag m) ++ of_bool (Ok m) :: Data m
    else 1 :: of_bool (bool_decide (0 <= Tag m)) :: of_bool (Ok m) ::
           replicate (Z.to_nat (Z.abs (Tag m))) 1 ++ 0 :: Data m;
  Unmarshall b :=
    match b with
    | 0 :: b0 :: b1 :: b2 :: b3 :: k :: data => Some (MkMsg (le32_value b0 b1 b2 b3) data (to_bool k))
    | 1 :: sg :: k :: rest =>
        let '(n, data) := count_ones rest in
        Some (MkMsg (if to_bool sg then Z.of_nat n else - Z.of_nat n) data (to_bool k))
    | _ => None
    end;
}.

Lemma to_of_bool b : to_bool (of_bool b) = b.
Proof. by destruct b. Qed.

#[export] Instance codec_msg_laws : CodecLaws msg.
Proof.
  split. intros [t d k]. cbn [Unmarshall Marshall codec_msg Tag Data Ok]. case_decide as Ht.
  - cbn [le32 app]. by rewrite le32_roundtrip, to_of_bool.
  - rewrite count_ones_spec, !to_of_bool. do 2 f_equal. case_bool_decide; lia.
Qed.

#[export] Instance codec_init : Codec InitMsg := {
  Marshall i := bytes_of (Clnt i);
  Unmarshall b := Some (MkInitMsg (string_of b));
}.

#[export] Instance codec_init_laws : CodecLaws InitMsg.
Proof.
  split. intros [s]. cbn [Marshall Unmarshall codec_init Clnt]. by rewrite string_of_bytes_of.
Qed.

Lemma short_small b : len b < 2 ^ 31 → small b.
Proof.
  intros Hb t k Ht. unfold fits. cbn [Marshall codec_msg Tag Data Ok].
  rewrite decide_True by done. cbn [le32 app]. rewrite !len_cons. lia.
Qed.

(** A server that counts requests and answers with the request and the count. *)
Definition echo (st : Z) (req : bytes) : Z * (bytes * bool) := (st + 1, (take 2 req ++ [st], true)).

Lemma echo_small : replies_small echo.
Proof.
  intros st req. apply short_small. cbn. rewrite len_app. unfold len.
  rewrite length_take. cbn [length]. lia.
Qed.

(** Two calls; the server answers the second one first. *)
Definition two_calls : list Step :=
  [StBegin 0 [10]; StBegin 1 [20]; StPut 1; StPut 0; StWrite 0; StWrite 1;
   StSrvRead; StSrvRead; StSrvRun 1; StSrvRun 0; StClntRead []; StClntRead []].

(** The connection is lost before the second answer is read. *)
Definition lost_call : list Step :=
  [StBegin 0 [10]; StPut 0; StWrite 0; StSrvRead; StSrvRun 0; StLose 100 3; StClntRead [1];
   StClntRead []; StClntRead []].

Definition after_two : World Z :=
  match opened "c" 7 with
  | Some w => match steps echo two_calls w with Went w => w | _ => w end
  | None => MkWorld (MkDemuxClnt newCallMap 0) ∅ RdLoop [] true [] true true false [] 0 0 ∅ []
  end.

Definition after_lost : World Z :=
  match opened "c" 7 with
  | Some w => match steps echo lost_call w with Went w => w | _ => w end
  | None => after_two
  end.

Lemma two_calls_small : Forall step_small two_calls.
Proof.
  unfold two_calls. repeat (apply list.Forall_cons; split); try done;
    try apply Forall_nil_2; apply short_small; reflexivity.
Qed.

Lemma lost_call_small : Forall step_small lost_call.
Proof.
  unfold lost_call. repeat (apply list.Forall_cons; split); try done;
    try apply Forall_nil_2; apply short_small; reflexivity.
Qed.

Lemma name_small : small (Marshall (MkInitMsg "c")).
Proof. apply short_small. reflexivity. Qed.

Lemma demux_pairing_witness :
  callers after_two !! 0%nat = Some (CRet (MkReply [10; 8] true false)) ∧
  ∃ t b, sent after_two !! t = Some (0%nat, b) ∧ (t, b, MkReply [10; 8] true false) ∈ served after_two ∧
    ∀ t' b', sent after_two !! t' = Some (0%nat, b') → t' = t ∧ b' = b.
Proof.
  assert (callers after_two !! 0%nat = Some (CRet (MkReply [10; 8] true false))) as Hc
    by (vm_compute; reflexivity).
  split; [exact Hc|].
  destruct (demux_pairing echo "c" 7 two_calls echo_small name_small two_calls_small)
    as (w0 & Ho & Hrun); [vm_compute; discriminate|].
  unfold after_two in *. rewrite Ho in *.
  destruct (steps echo two_calls w0) as [| |w] eqn:Hw.
  - exfalso. revert Hc. assert (w0 = default after_lost (opened "c" 7)) as -> by (rewrite Ho; reflexivity).
    vm_compute. discriminate.
  - destruct Hrun.
  - apply (Hrun 0%nat _ Hc). reflexivity.
Defined.

(** The state in which the connection has just gone. *)
Definition at_loss : World Z :=
  match opened "c" 7 with
  | Some w => match steps echo (take 6 lost_call) w with Went w => w | _ => w end
  | None => after_two
  end.

Lemma demux_no_hang_witness :
  s2c_open at_loss = false ∧ unreturned at_loss = 1 ∧
  clnt_steps (drop 6 lost_call) <= 3 * (unreturned at_loss + begins (drop 6 lost_call)) + 2 ∧
  (finished after_lost ∨ ∃ s w'', clnt_step s = true ∧ step echo s after_lost = Went w'') ∧
  (∃ ss'' w'', Forall (λ s, clnt_step s = true) ss'' ∧ steps echo ss'' after_lost = Went w'' ∧
     finished w'') ∧
  (reader after_lost = RdDone → ∀ c t b, callers after_lost !! c = Some (CTagged t b) →
     ∃ w'', step echo (StPut c) after_lost = Went w'' ∧ callers w'' !! c = Some (CRet failed)).
Proof.
  split; [vm_compute; reflexivity|]. split; [vm_compute; reflexivity|].
  apply (demux_no_hang echo "c" 7 (take 6 lost_call) (drop 6 lost_call)
    (default after_two (opened "c" 7)) at_loss after_lost echo_small name_small).
  - exact lost_call_small.
  - vm_compute. discriminate.
  - vm_compute. reflexivity.
  - vm_compute. reflexivity.
  - vm_compute. reflexivity.
  - vm_compute. reflexivity.
Defined.

Lemma transport_roundtrip_witness :
  ReadCall false (stream [MkMsg 3 [1; 2] true; MkMsg 4 [] false]) =
    ROk (MkMsg 3 [1; 2] true) (stream [MkMsg 4 [] false]) ∧
  (ReadCall false (take 5 (frame (MkMsg 3 [1; 2] true))) = RBlock ∧ false = false ∨
   (∃ eof, ReadCall false (take 5 (frame (MkMsg 3 [1; 2] true))) = RErr eof) ∧ false = true).
Proof.
  destruct (transport_roundtrip false (MkMsg 3 [1; 2] true) [MkMsg 4 [] false] 5) as [H1 H2].
  - vm_compute. reflexivity.
  - split; [exact H1|]. apply H2. vm_compute. lia.
Defined.
