(* ===== verification/KvNet.v ===== *)
(** * The key/value service over the simulated network

    The clerks of [src/src/kvsrv1/client.go], the network of [src/src/labrpc/labrpc.go]
    and the server of [src/src/kvsrv1/server.go] put together: a clerk encodes its
    arguments, hands a request to the network, waits for what the network answers
    and tries again when that is false; the network dispatches the request by the
    name of the method on the service that [MakeService] made of the server.
    [KvNetTheorems.v] shows that such a system behaves as [KvSys.v] says. *)
From S2P Require Import Prelude Rpc KvSrv Persister LabRpc LabRpcTheorems Demux KvModel Clerk KvSys.

(** ** The service

    [labrpc.Marshall] and [Unmarshall] encode with gob, a library: [Codec]. *)
Section Service.
Context `{!Codec GetArgs, !Codec GetReply, !Codec PutArgs, !Codec PutReply}.

Definition handle_Get : Handler (St := KVServer) := λ kv args,
  a ← Unmarshall args; Some (kv, Marshall (Get kv a)).

Definition handle_Put : Handler (St := KVServer) := λ kv args,
  a ← Unmarshall args; let '(kv', r) := Put kv a in Some (kv', Marshall r).

(** The methods of [*KVServer]; [Kill] has one argument, the receiver. *)
Definition kv_methods : list (Method KVServer) :=
  [MkMethod "Get" true 3 true 0 handle_Get; MkMethod "Put" true 3 true 0 handle_Put;
   MkMethod "Kill" true 1 false 0 (λ kv _, Some (KvSrv.Kill kv, []))].

Definition kv_service : Service KVServer := MakeService "KVServer" kv_methods.

Definition kv_server (kv : KVServer) : Server KVServer := AddService kv_service (MakeServer kv).

(** What a clerk passes to [Call], and how the reply is read. *)
Definition op_method (op : KvOp) : string :=
  match op with OpGet _ => "KVServer.Get" | OpPut _ => "KVServer.Put" end.

Definition op_args (op : KvOp) : bytes :=
  match op with OpGet a => Marshall a | OpPut a => Marshall a end.

Definition op_reply (op : KvOp) (b : bytes) : option KvRep :=
  match op with
  | OpGet _ => RepGet <$> Unmarshall b
  | OpPut _ => RepPut <$> Unmarshall b
  end.

Definition rep_bytes (r : KvRep) : bytes :=
  match r with RepGet r => Marshall r | RepPut r => Marshall r end.

(** The reply the clerk allocates. *)
Definition zero_rep (op : KvOp) : KvRep :=
  match op with OpGet _ => RepGet zeroGetReply | OpPut _ => RepPut zeroPutReply end.
End Service.

(** ** The system *)

Section Net.
Context {Name : Type} `{!EqDecision Name, !Countable Name}.
Context {P : Type} `{!KVClient P}.
Context `{!Codec GetArgs, !Codec GetReply, !Codec PutArgs, !Codec PutReply}.
(** The end through which a client calls the server. *)
Context (ename : nat → Name).

(** A client in a method of its clerk: the request its [Call] waits for, or
    [None] before the next [Call]. *)
Record NCall := MkNCall {
  nc_op : KvOp;
  nc_start : Z;
  nc_retried : bool;
  nc_req : option nat;
}.

Record NClient := MkNClient { n_prog : P; n_call : option NCall }.

(** The clock moves when a client takes note of something or a handler runs. *)
Record NSys := MkNSys {
  n_world : LabRpc.World Name KVServer;
  n_clients : list NClient;
  n_clock : Z;
  n_oplog : list Operation;
}.

(** The server runs at address [a]; what the tester connects comes later. *)
Definition init_net (a : nat) (ps : list P) : NSys :=
  MkNSys (init_world MakeNetwork {[a := kv_server MakeKVServer]})
    ((λ p, MkNClient p None) <$> ps) 0 [].

Definition request (c : nat) (op : KvOp) : reqMsg Name :=
  MkReqMsg (ename c) (op_method op) (op_args op).

Definition set_client (c : nat) (cl : NClient) (n : NSys) : list NClient :=
  <[c := cl]> (n_clients n).

Definition net_local (c : nat) (p' : P) (n : NSys) : NSys :=
  MkNSys (n_world n) (set_client c (MkNClient p' None) n) (n_clock n + 1) (n_oplog n).

(** The method of the clerk is entered. *)
Definition net_invoke (c : nat) (p : P) (op : KvOp) (n : NSys) : NSys :=
  MkNSys (n_world n) (set_client c (MkNClient p (Some (MkNCall op (n_clock n) false None))) n)
    (n_clock n + 1) (n_oplog n).

(** [Call] hands request [id] to the network. *)
Definition net_call (c : nat) (p : P) (x : NCall) (id : nat) (n : NSys) : option NSys :=
  w ← take_req id (request c (nc_op x)) (n_world n);
  Some (MkNSys w
    (set_client c (MkNClient p (Some (MkNCall (nc_op x) (nc_start x) (nc_retried x) (Some id)))) n)
    (n_clock n) (n_oplog n)).

(** [Call] has returned: the clerk returns, or sleeps to call again.  A reply
    that does not decode ends the process. *)
Definition net_return (c : nat) (p : P) (x : NCall) (id : nat) (n : NSys) : option NSys :=
  answer ← Call_result (op_reply (nc_op x)) (zero_rep (nc_op x)) id (n_world n);
  '(r, ok) ← answer;
  Some match clerk_iter (nc_retried x) (if (ok : bool) then Some r else None) with
       | Some res =>
           MkNSys (n_world n) (set_client c (MkNClient (resume p res) None) n) (n_clock n + 1)
             (n_oplog n ++ [log_op c (nc_op x) (nc_start x) (n_clock n) res])
       | None =>
           MkNSys (n_world n)
             (set_client c (MkNClient p (Some (MkNCall (nc_op x) (nc_start x) true None))) n)
             (n_clock n + 1) (n_oplog n)
       end.

(** The network has been destroyed: [Call] returns false at once. *)
Definition net_gone (c : nat) (p : P) (x : NCall) (n : NSys) : NSys :=
  MkNSys (n_world n) (set_client c (MkNClient p (Some (MkNCall (nc_op x) (nc_start x) true None))) n)
    (n_clock n + 1) (n_oplog n).

(** What the network and the tester do by themselves. *)
Definition net_event (e : Event Name KVServer) : bool :=
  match e with EvServer _ _ | EvTake _ _ => false | _ => true end.

Definition ticks (e : Event Name KVServer) : Z := match e with EvRun _ => 1 | _ => 0 end.

Definition net_happen (e : Event Name KVServer) (n : NSys) : option NSys :=
  w ← happen e (n_world n); Some (MkNSys w (n_clients n) (n_clock n + ticks e) (n_oplog n)).

Inductive nstep (n : NSys) : NSys → Prop :=
| nstep_local c p p' :
    n_clients n !! c = Some (MkNClient p None) → local_step p p' → nstep n (net_local c p' n)
| nstep_invoke c p op :
    n_clients n !! c = Some (MkNClient p None) → next_op p = Some op →
    nstep n (net_invoke c p op n)
| nstep_call c p x id n' :
    n_clients n !! c = Some (MkNClient p (Some x)) → nc_req x = None →
    net_call c p x id n = Some n' → nstep n n'
| nstep_gone c p x :
    n_clients n !! c = Some (MkNClient p (Some x)) → nc_req x = None →
    LabRpc.done (n_world n) = true → nstep n (net_gone c p x n)
| nstep_return c p x id n' :
    n_clients n !! c = Some (MkNClient p (Some x)) → nc_req x = Some id →
    net_return c p x id n = Some n' → nstep n n'
| nstep_net e n' :
    net_event e = true → net_happen e n = Some n' → nstep n n'.

Definition nreachable (a : nat) (ps : list P) (n : NSys) : Prop := rtc nstep (init_net a ps) n.

(** An executable scheduler. *)
Inductive NMove := NInvoke (c : nat) | NCallReq (c id : nat) | NReturn (c : nat)
  | NNet (e : Event Name KVServer).

Definition run_nmove (n : NSys) (m : NMove) : option NSys :=
  match m with
  | NInvoke c =>
      cl ← n_clients n !! c;
      match n_call cl with
      | None => op ← next_op (n_prog cl); Some (net_invoke c (n_prog cl) op n)
      | Some _ => None
      end
  | NCallReq c id =>
      cl ← n_clients n !! c; x ← n_call cl;
      match nc_req x with None => net_call c (n_prog cl) x id n | Some _ => None end
  | NReturn c =>
      cl ← n_clients n !! c; x ← n_call cl; id ← nc_req x; net_return c (n_prog cl) x id n
  | NNet e => if net_event e then net_happen e n else None
  end.

Fixpoint run_nmoves (n : NSys) (ms : list NMove) : option NSys :=
  match ms with [] => Some n | m :: ms => n' ← run_nmove n m; run_nmoves n' ms end.

Lemma run_nmove_step n m n' : run_nmove n m = Some n' → nstep n n'.
Proof.
  destruct m as [c|c id|c|e]; cbn [run_nmove].
  - intros ([p ox] & Hc & H)%bind_Some. cbn in H. destruct ox; [done|].
    apply bind_Some in H as (op & Hop & [= <-]). by apply nstep_invoke.
  - intros ([p ox] & Hc & (x & Hx & H)%bind_Some)%bind_Some. cbn in *. subst ox.
    destruct (nc_req x) eqn:Hr; [done|]. by eapply nstep_call.
  - intros ([p ox] & Hc & (x & Hx & (id & Hr & H)%bind_Some)%bind_Some)%bind_Some. cbn in *.
    subst ox. by eapply nstep_return.
  - destruct (net_event e) eqn:He; [|done]. by apply nstep_net.
Qed.

Lemma run_nmoves_steps n0 ms n : run_nmoves n0 ms = Some n → rtc nstep n0 n.
Proof.
  revert n0. induction ms as [|m ms IH]; intros n0; simpl.
  - intros [= ->]. constructor.
  - intros (n1 & Hm & Hms)%bind_Some. eapply rtc_l; [by eapply run_nmove_step|by apply IH].
Qed.

Lemma run_nmoves_reachable a ps ms n : run_nmoves (init_net a ps) ms = Some n → nreachable a ps n.
Proof. apply run_nmoves_steps. Qed.
End Net.

Arguments NClient P : clear implicits.
Arguments NSys Name {_ _} P.
Arguments MkNClient {P}.
Arguments MkNSys {Name _ _ P}.
Arguments NMove Name : clear implicits.
Arguments NInvoke {Name}.
Arguments NCallReq {Name}.
Arguments NReturn {Name}.
Arguments NNet {Name}.
