(* ===== verification/KvNetTheorems.v ===== *)
(** * The service over the network is the service of KvSys.v

    Every run of the clerks, the network of [labrpc.go] and the server is a run of
    the system of [KvSys.v] with the same answers, times and final store, whatever
    the network drops, delays, reorders, connects, disconnects and destroys.  The
    properties of clerks over unreliable links hold of the network as it is
    implemented, and so do their limits. *)
From S2P Require Import Prelude Rpc KvSrv Persister Demux LabRpc LabRpcTheorems GobString.
From S2P Require Import KvModel Clerk KvSys KvHist KvProof KvTheorems KvCareful Lock KvNet.

(** ** One call of the server *)

Section Dispatch.
Context {Name : Type} `{!EqDecision Name, !Countable Name}.
Context `{!Codec GetArgs, !Codec GetReply, !Codec PutArgs, !Codec PutReply}.
Context `{!CodecLaws GetArgs, !CodecLaws PutArgs}.
Context `{get_laws : !CodecLaws GetReply, put_laws : !CodecLaws PutReply}.
Context (ename : nat → Name).

(** The server after [cnt] calls, with store [kv]. *)
Definition served (cnt : Z) (kv : KVServer) : Server KVServer :=
  MkServer (services (kv_server MakeKVServer)) cnt None kv.

Lemma served_service cnt kv : services (served cnt kv) !! "KVServer" = Some kv_service.
Proof using. apply lookup_insert_eq. Qed.

Lemma dispatch_Get args kv :
  Service_dispatch kv_service "Get" args kv =
    '(st, rep) ← handle_Get kv args; Some (st, MkReplyMsg true rep).
Proof using. reflexivity. Qed.

Lemma dispatch_Put args kv :
  Service_dispatch kv_service "Put" args kv =
    '(st, rep) ← handle_Put kv args; Some (st, MkReplyMsg true rep).
Proof using. reflexivity. Qed.

Lemma dispatch_op c op cnt kv :
  dispatch (request ename c op) (served cnt kv) =
    Some (served (cnt + 1) (srv_exec kv op).1, MkReplyMsg true (rep_bytes (srv_exec kv op).2)).
Proof using All.
  unfold dispatch, request. cbn [LabRpc.svcMeth LabRpc.r_args].
  assert (split_method (op_method op) = Some ("KVServer", if op is OpGet _ then "Get" else "Put"))
    as -> by (destruct op; vm_compute; done).
  cbn [mbind option_bind]. rewrite served_service.
  cbn [mbind option_bind served LabRpc.dispatchf LabRpc.s_state LabRpc.services LabRpc.s_count].
  assert (Service_dispatch kv_service (if op is OpGet _ then "Get" else "Put") (op_args op) kv =
    Some ((srv_exec kv op).1, MkReplyMsg true (rep_bytes (srv_exec kv op).2))) as ->; [|done].
  destruct op as [g|a]; cbn [op_args]; rewrite ?dispatch_Get, ?dispatch_Put.
  - unfold handle_Get. by rewrite codec_roundtrip.
  - unfold handle_Put. rewrite codec_roundtrip. cbn. by destruct (Put kv a).
Qed.

(** A reply of the kind the operation asks for. *)
Definition rep_for (op : KvOp) (r : KvRep) : Prop :=
  match op, r with OpGet _, RepGet _ => True | OpPut _, RepPut _ => True | _, _ => False end.

Lemma exec_rep_for kv op : rep_for op (srv_exec kv op).2.
Proof using. destruct op as [g|a]; cbn; [done|]. by destruct (Put kv a). Qed.

Lemma op_reply_bytes op r : rep_for op r → op_reply op (rep_bytes r) = Some r.
Proof using get_laws put_laws. destruct op, r; cbn; try done; intros _; by rewrite codec_roundtrip. Qed.
End Dispatch.

(** ** The refinement *)

Section Refine.
Context {Name : Type} `{!EqDecision Name, !Countable Name}.
Context {P : Type} `{!KVClient P}.
Context `{!Codec GetArgs, !Codec GetReply, !Codec PutArgs, !Codec PutReply}.
Context `{!CodecLaws GetArgs, !CodecLaws GetReply, !CodecLaws PutArgs, !CodecLaws PutReply}.
Context (ename : nat → Name) (a : nat).
Implicit Types (n : NSys Name P) (l : Sys P) (w : World Name KVServer).

(** Request [id] is [op] of client [c]. *)
Definition is_request w (id c : nat) (op : KvOp) : Prop :=
  reqs w !! id = Some (request ename c op).

Definition call_rel w (c : nat) (x : NCall) (b : Busy) : Prop :=
  b_op b = nc_op x ∧ b_call b = nc_start x ∧ b_retried b = nc_retried x ∧
  match nc_req x with
  | None => b_net b = InFlight
  | Some id => is_request w id c (nc_op x) ∧
      match b_net b with
      | InFlight => id ∉ exec_ids w
      | Executed r _ => rep_for (nc_op x) r ∧ ∃ a', (id, a', MkReplyMsg true (rep_bytes r)) ∈ execs w
      end
  end.

Definition ncl_rel w (c : nat) (ncl : NClient P) (cl : Client P) : Prop :=
  c_prog cl = n_prog ncl ∧ option_Forall2 (call_rel w c) (n_call ncl) (c_clerk cl).

(** Client [c] waits for the answer to request [id]. *)
Definition waits_for n (c id : nat) : Prop :=
  ∃ p x, n_clients n !! c = Some (MkNClient p (Some x)) ∧ nc_req x = Some id.

(** [ids] are the requests that run late. *)
Record nrel n (ids : list nat) l : Prop := {
  nr_server : ∃ cnt, heap (n_world n) = {[a := served cnt (s_srv l)]};
  nr_clients c : option_Forall2 (ncl_rel (n_world n) c) (n_clients n !! c) (s_clients l !! c);
  nr_clock : s_clock l = n_clock n;
  nr_log : s_oplog l = n_oplog n;
  nr_late : Forall2 (λ id q, is_request (n_world n) id (lr_cid q) (lr_op q)) ids (s_late l);
  nr_calls : calls_ok (n_world n);
  nr_jobs id : is_Some (jobs (n_world n) !! id) → id ∈ ids ∨ ∃ c, waits_for n c id;
  nr_waits id y : waits (n_world n) !! id = Some y → finished y ∨ ∃ c, waits_for n c id;
  nr_ids : NoDup ids ∧ ∀ id c, waits_for n c id → id ∉ ids ∧ ∀ c', waits_for n c' id → c' = c;
}.

Lemma nrel_init ps : nrel (init_net a ps) [] (init_sys ps).
Proof.
  split; cbn; try done.
  - by exists 0.
  - intros c. rewrite !list_lookup_fmap. destruct (ps !! c) as [p|]; constructor.
    split; [done|constructor].
  - apply init_calls_ok.
  - intros id. rewrite lookup_empty. by intros [].
  - split; [constructor|]. intros id c (p & x & H & _). exfalso. cbn in H.
    rewrite list_lookup_fmap in H. by destruct (ps !! c).
Qed.

(** The call of a client as the other system sees it. *)
Lemma nrel_client n ids l c p ox :
  nrel n ids l → n_clients n !! c = Some (MkNClient p ox) →
  ∃ ob, s_clients l !! c = Some (MkClient p ob) ∧ option_Forall2 (call_rel (n_world n) c) ox ob.
Proof.
  intros Hn Hc. pose proof (nr_clients _ _ _ Hn c) as H. rewrite Hc in H.
  inversion H as [? [p' ob] [Hp Hob] E1 E2|]; subst. cbn in *. subst. by exists ob.
Qed.

Lemma nrel_call n ids l c p x :
  nrel n ids l → n_clients n !! c = Some (MkNClient p (Some x)) →
  ∃ b, s_clients l !! c = Some (MkClient p (Some b)) ∧ call_rel (n_world n) c x b.
Proof.
  intros Hn Hc. destruct (nrel_client _ _ _ _ _ _ Hn Hc) as (ob & Hc' & Hob).
  inversion Hob as [? b Hb|]; subst. by exists b.
Qed.

Lemma waits_for_other n c cl clients' c' id w' clk log :
  clients' = <[c := cl]> (n_clients n) → c' ≠ c →
  waits_for (MkNSys w' clients' clk log) c' id ↔ waits_for n c' id.
Proof. intros -> Hne. unfold waits_for. cbn. by rewrite list_lookup_insert_ne. Qed.

Lemma option_rel_insert {A B} (R : nat → A → B → Prop) (xs : list A) (ys : list B) c x y :
  (∀ i, option_Forall2 (R i) (xs !! i) (ys !! i)) → R c x y →
  ∀ i, option_Forall2 (R i) (<[c := x]> xs !! i) (<[c := y]> ys !! i).
Proof.
  intros H Hxy i. pose proof (H i) as Hi. destruct (decide (i = c)) as [->|Hne].
  - destruct (xs !! c) as [x0|] eqn:Hx; inversion Hi as [? y0 _ E1 E2|E1 E2]; subst.
    + rewrite !list_lookup_insert_eq by (by eapply lookup_lt_Some). by constructor.
    + rewrite !list_insert_ge by (by apply lookup_ge_None). rewrite Hx, <-E2. constructor.
  - by rewrite !list_lookup_insert_ne.
Qed.

(** Client [c] moves and waits for no request; the one it waited for may be left
    running. *)
Lemma nrel_client_move n ids l c ncl cl clk log ids' l' :
  nrel n ids l → is_Some (n_clients n !! c) →
  s_srv l' = s_srv l → s_clients l' = <[c := cl]> (s_clients l) →
  s_clock l' = clk → s_oplog l' = log →
  ncl_rel (n_world n) c ncl cl → (∀ x, n_call ncl = Some x → nc_req x = None) →
  (∀ id, waits_for n c id → ∃ r, waits (n_world n) !! id = Some (WDone r)) →
  Forall2 (λ id q, is_request (n_world n) id (lr_cid q) (lr_op q)) ids' (s_late l') →
  (ids' = ids ∧ (∀ id, waits_for n c id → jobs (n_world n) !! id = None) ∨
   ∃ id, ids' = ids ++ [id] ∧ waits_for n c id) →
  nrel (MkNSys (n_world n) (<[c := ncl]> (n_clients n)) clk log) ids' l'.
Proof.
  intros [H1 H2 H3 H4 H5 H6 H7 H8 [H9 H10]] [ncl0 Hc] Es Ec Ek El Hcl Hreq Hdone Hlate Hids.
  set (n' := MkNSys _ _ _ _).
  assert (∀ c' id, waits_for n' c' id ↔ c' ≠ c ∧ waits_for n c' id) as Hwf.
  { intros c' id. destruct (decide (c' = c)) as [->|Hne].
    - split; [|by intros [? _]]. intros (p & x & Hx & Hid). cbn in Hx.
      rewrite list_lookup_insert_eq in Hx by (by eapply lookup_lt_Some). injection Hx as ->.
      by rewrite (Hreq x eq_refl) in Hid.
    - unfold n'. rewrite (waits_for_other n c ncl) by done. tauto. }
  split; cbn; try done.
  - by rewrite Es.
  - rewrite Ec. by apply option_rel_insert.
  - intros id Hj. destruct (H7 id Hj) as [Hin|[c' Hw]].
    + left. destruct Hids as [[-> _]|(id' & -> & _)]; set_solver.
    + destruct (decide (c' = c)) as [->|Hne]; [left|right; exists c'; by apply Hwf].
      destruct Hids as [[_ Hno]|(id' & -> & Hw')].
      * rewrite (Hno id Hw) in Hj. by destruct Hj.
      * assert (id' = id) as ->; [|set_solver].
        destruct Hw as (p & x & E & Hx), Hw' as (p' & x' & E' & Hx'). congruence.
  - intros id y Hy. destruct (H8 id y Hy) as [?|[c' Hw]]; [by left|].
    destruct (decide (c' = c)) as [->|Hne]; [left|right; exists c'; by apply Hwf].
    destruct (Hdone id Hw) as [r Hr]. exists r. congruence.
  - destruct Hids as [[-> _]|(id' & -> & Hw')].
    + split; [done|]. intros id c' [Hne Hw]%Hwf. destruct (H10 id c' Hw) as [Hn Hu].
      split; [done|]. intros c'' [_ Hw'']%Hwf. by apply Hu.
    + split.
      * apply list.NoDup_app. split_and!; [done| |apply NoDup_singleton].
        intros x Hx ->%list_elem_of_singleton. by destruct (H10 _ _ Hw').
      * intros id c' [Hne Hw]%Hwf. destruct (H10 id c' Hw) as [Hn Hu]. split.
        -- intros [?| ->%list_elem_of_singleton]%elem_of_app; [done|]. by apply Hne, eq_sym, Hu.
        -- intros c'' [_ Hw'']%Hwf. by apply Hu.
Qed.

(** ** The steps *)

Lemma waits_live n ids l id y :
  nrel n ids l → waits (n_world n) !! id = Some y → ¬ finished y → ∃ c, waits_for n c id.
Proof. intros Hn Hy Hf. by destruct (nr_waits _ _ _ Hn id y Hy). Qed.

(** A client's call sees only requests and runs. *)
Lemma ncl_rel_world w w' c ncl cl :
  (∀ id r, reqs w !! id = Some r → reqs w' !! id = Some r) → execs w' = execs w →
  ncl_rel w c ncl cl → ncl_rel w' c ncl cl.
Proof.
  intros Hr He [Hp Ho]. split; [done|]. destruct Ho as [x b (H1 & H2 & H3 & H4)|]; constructor.
  split_and!; [done..|]. destruct (nc_req x) as [id|]; [|done]. destruct H4 as [H4 H5].
  split; [by apply Hr|]. unfold exec_ids. by rewrite He.
Qed.

(** The network does something that runs no handler. *)
Lemma nrel_quiet n ids l w' :
  nrel n ids l → quiet_event (n_world n) w' → calls_ok w' →
  nrel (MkNSys w' (n_clients n) (n_clock n + 0) (n_oplog n)) ids l.
Proof.
  intros Hn [Q1 Q2 Q3 Q4 Q5] Hok. pose proof Hn as [H1 H2 H3 H4 H5 H6 H7 H8 H9].
  split; cbn; rewrite ?Q1; try done.
  - intros c. specialize (H2 c). destruct H2; constructor.
    apply (ncl_rel_world (n_world n)); [by rewrite Q2|done|done].
  - lia.
  - unfold is_request. by rewrite Q2.
  - intros id Hj. destruct (Q4 id) as [E|[Ht _]]; [rewrite E in Hj; by apply H7|right].
    apply (waits_live n ids l id WTaken Hn Ht). by intros [r ?].
  - intros id y Hy. destruct (Q5 id y Hy) as [Ho|(y0 & Ho & Hf)]; [by apply H8|right].
    by apply (waits_live n ids l id y0 Hn Ho).
Qed.

(** A client starts to wait for request [id]. *)
Definition sent (c : nat) (p : P) (x : NCall) (id : nat) n : list (NClient P) :=
  set_client c (MkNClient p (Some (MkNCall (nc_op x) (nc_start x) (nc_retried x) (Some id)))) n.

Lemma waits_for_sent n c p x id w' clk log c' id' :
  n_clients n !! c = Some (MkNClient p (Some x)) → nc_req x = None →
  waits_for (MkNSys w' (sent c p x id n) clk log) c' id' ↔ waits_for n c' id' ∨ c' = c ∧ id' = id.
Proof.
  intros Hc Hx. unfold sent, set_client. destruct (decide (c' = c)) as [->|Hne].
  - split.
    + intros (p' & y & Hy & Hid). cbn in Hy.
      rewrite list_lookup_insert_eq in Hy by (by eapply lookup_lt_Some). injection Hy as <- <-.
      injection Hid as ->. by right.
    + intros [(p' & y & Hy & Hid)|[_ ->]]; [congruence|].
      exists p, (MkNCall (nc_op x) (nc_start x) (nc_retried x) (Some id)). cbn.
      by rewrite list_lookup_insert_eq by (by eapply lookup_lt_Some).
  - rewrite (waits_for_other n c _ _ c' id' w' clk log eq_refl Hne). naive_solver.
Qed.

(** Nobody waits for a request that was not made. *)
Lemma fresh_unwaited n ids l id :
  nrel n ids l → reqs (n_world n) !! id = None →
  waits (n_world n) !! id = None ∧ jobs (n_world n) !! id = None ∧ id ∉ exec_ids (n_world n) ∧
  id ∉ ids ∧ ∀ c, ¬ waits_for n c id.
Proof.
  intros Hn Hfresh. destruct (proj2 (nr_calls _ _ _ Hn) id) as [Hid Hsome].
  assert (waits (n_world n) !! id = None) as Hw.
  { destruct (waits (n_world n) !! id); [|done]. destruct Hsome; [by eexists|congruence]. }
  rewrite Hw in Hid. destruct Hid as (_ & Hj & _ & Hnex). split_and!; try done.
  - intros [k Hk]%list_elem_of_lookup.
    destruct (Forall2_lookup_l _ _ _ _ _ (nr_late _ _ _ Hn) Hk) as (q & _ & Hq).
    unfold is_request in Hq. congruence.
  - intros c' (p' & x' & Hc' & Hx').
    destruct (nrel_call _ _ _ _ _ _ Hn Hc') as (b & _ & _ & _ & _ & Hb).
    rewrite Hx' in Hb. unfold is_request in Hb. destruct Hb as [Hb _]. congruence.
Qed.

(** A call is handed to the network. *)
Lemma nrel_send n ids l c p x id n' :
  nrel n ids l → n_clients n !! c = Some (MkNClient p (Some x)) → nc_req x = None →
  net_call ename c p x id n = Some n' → nrel n' ids l.
Proof.
  intros Hn Hc Hx Hcall. pose proof Hn as [H1 H2 H3 H4 H5 H6 H7 H8 [H9 H10]].
  unfold net_call in Hcall. apply bind_Some in Hcall as (w' & Htake & [= <-]).
  pose proof (take_calls_ok _ _ _ _ H6 Htake) as Hok.
  unfold take_req in Htake. case_decide as Hl; [|done]. destruct Hl as [_ Hfresh].
  injection Htake as <-.
  destruct (fresh_unwaited _ _ _ _ Hn Hfresh) as (Hw & Hj & Hnex & Hids & Hnone).
  pose proof (waits_for_sent n c p x id) as Hwf. unfold sent in Hwf.
  destruct (nrel_call _ _ _ _ _ _ Hn Hc) as (b & Hcl & E1 & E2 & E3 & E4).
  split; cbn; try done.
  - unfold set_client. rewrite <-(list_insert_id _ _ _ Hcl). apply option_rel_insert.
    + intros i. specialize (H2 i). destruct H2; constructor. apply (ncl_rel_world (n_world n)); [|done|done].
      intros id' r Hr. cbn. rewrite lookup_insert_ne; [done|congruence].
    + rewrite Hx in E4. split; [done|]. constructor. split_and!; [done..|]. cbn. rewrite E4.
      split; [|done]. unfold is_request. cbn. by rewrite lookup_insert_eq.
  - eapply list.Forall2_impl; [exact H5|]. intros id' q. unfold is_request. cbn. intros Hq.
    rewrite lookup_insert_ne; [done|congruence].
  - intros id' Hid'. destruct (H7 id' Hid') as [?|[c' ?]]; [by left|right].
    exists c'. apply Hwf; auto.
  - intros id' y. rewrite lookup_insert_Some. intros [[<- _]|[_ Hy]].
    + right. exists c. apply Hwf; auto.
    + destruct (H8 id' y Hy) as [?|[c' ?]]; [by left|right]. exists c'. apply Hwf; auto.
  - split; [done|]. intros id' c' [Hwt|[-> ->]]%Hwf; [..|done|done].
    + destruct (H10 id' c' Hwt) as [Hni Hu]. split; [done|].
      intros c'' [?|[-> ->]]%Hwf; [by apply Hu| |done|done]. by destruct (Hnone c').
    + split; [done|]. intros c'' [?|[-> _]]%Hwf; [by destruct (Hnone c'')|done|done|done].
Qed.

(** The clerk's own steps, without the network. *)
Lemma nrel_idle_move n ids l c p ncl cl clk log s' :
  nrel n ids l → n_clients n !! c = Some (MkNClient p None) ∨
    (∃ x, n_clients n !! c = Some (MkNClient p (Some x)) ∧ nc_req x = None) →
  s_srv s' = s_srv l → s_clients s' = <[c := cl]> (s_clients l) →
  s_clock s' = clk → s_oplog s' = log → s_late s' = s_late l →
  ncl_rel (n_world n) c ncl cl → (∀ x, n_call ncl = Some x → nc_req x = None) →
  nrel (MkNSys (n_world n) (<[c := ncl]> (n_clients n)) clk log) ids s'.
Proof.
  intros Hn Hc Es Ec Ek El Elt Hcl Hreq.
  assert (∀ id, ¬ waits_for n c id) as Hno.
  { intros id (p' & x & Hx & Hid). destruct Hc as [Hc|(x' & Hc & Hx')]; congruence. }
  eapply (nrel_client_move n ids l c ncl cl); try done.
  - destruct Hc as [->|(x & -> & _)]; by eexists.
  - intros id H. by destruct (Hno id).
  - rewrite Elt. apply Hn.
  - left. split; [done|]. intros id H. by destruct (Hno id).
Qed.

(** The answer true: what the handler returned. *)
Lemma answered_executed n ids l c p x b id rr :
  nrel n ids l → n_clients n !! c = Some (MkNClient p (Some x)) → nc_req x = Some id →
  call_rel (n_world n) c x b → waits (n_world n) !! id = Some (WDone rr) → ok rr = true →
  jobs (n_world n) !! id = None ∧
  ∃ r t, b_net b = Executed r t ∧ op_reply (nc_op x) (reply rr) = Some r.
Proof.
  intros Hn Hc Hx (_ & _ & _ & Hb) Hw Hok. rewrite Hx in Hb. destruct Hb as [_ Hb].
  destruct (nr_calls _ _ _ Hn) as [Hnd Hreq]. destruct (Hreq id) as [Hid _]. rewrite Hw in Hid.
  destruct Hid as [[->|[Hj [a' Hex]]] _]; [done|]. split; [done|].
  destruct (b_net b) as [|r t]; [by apply exec_id in Hex|].
  destruct Hb as [Hfor [a2 Hex2]]. exists r, t. split; [done|].
  rewrite (exec_unique _ _ _ _ _ _ Hnd Hex Hex2). by apply op_reply_bytes.
Qed.

Lemma waits_for_same n c id id' p x :
  n_clients n !! c = Some (MkNClient p (Some x)) → nc_req x = Some id → waits_for n c id' → id' = id.
Proof. intros Hc Hx (p' & x' & Hc' & Hx'). congruence. Qed.

(** A call that failed is tried again; its request may be left running. *)
Lemma nrel_fail n ids l c p x id rr :
  nrel n ids l → n_clients n !! c = Some (MkNClient p (Some x)) → nc_req x = Some id →
  waits (n_world n) !! id = Some (WDone rr) →
  ∃ ids' l', step l l' ∧
    nrel (MkNSys (n_world n)
      (set_client c (MkNClient p (Some (MkNCall (nc_op x) (nc_start x) true None))) n)
      (n_clock n + 1) (n_oplog n)) ids' l'.
Proof.
  intros Hn Hc Hx Hw. destruct (nrel_call _ _ _ _ _ _ Hn Hc) as (b & Hcl & Hb).
  pose proof (waits_for_same n c id) as Hsame.
  assert (waits_for n c id) as Hwf by (by exists p, x).
  pose proof Hb as (E1 & E2 & E3 & E4). rewrite Hx in E4. destruct E4 as [Hreq Hnet].
  assert (∀ l', s_srv l' = s_srv l →
    s_clients l' = s_clients (do_fail l c p b false) →
    s_clock l' = s_clock l + 1 → s_oplog l' = s_oplog l →
    ∀ ids', Forall2 (λ id q, is_request (n_world n) id (lr_cid q) (lr_op q)) ids' (s_late l') →
    (ids' = ids ∧ (∀ id, waits_for n c id → jobs (n_world n) !! id = None) ∨
     ∃ id, ids' = ids ++ [id] ∧ waits_for n c id) →
    nrel (MkNSys (n_world n)
      (set_client c (MkNClient p (Some (MkNCall (nc_op x) (nc_start x) true None))) n)
      (n_clock n + 1) (n_oplog n)) ids' l') as Hmove.
  { intros l' Es Ec Ek El ids' Hl Hids.
    apply (nrel_client_move n ids l c _ (MkClient p (Some (MkBusy (b_op b) (b_call b) true InFlight))));
      try done; cbn.
    - by rewrite Ek, (nr_clock _ _ _ Hn).
    - by rewrite El, (nr_log _ _ _ Hn).
    - split; [done|]. constructor. by split_and!.
    - by intros x' [= <-].
    - intros id' H. exists rr. by rewrite (Hsame id' p x). }
  destruct (jobs (n_world n) !! id) as [a'|] eqn:Hj.
  - assert (b_net b = InFlight) as Hfly.
    { destruct (nr_calls _ _ _ Hn) as [_ Hok]. destruct (Hok id) as [Hid _]. rewrite Hw, Hj in Hid.
      destruct Hid as [_ Hid]. destruct (b_net b) as [|r t]; [done|].
      destruct Hnet as [_ [a2 Hex]]. destruct (Hid (mk_is_Some _ _ eq_refl)). by eapply exec_id. }
    eexists (ids ++ [id]), _. split; [by apply (step_fail _ c p b true)|]. apply Hmove; try done; cbn.
    + apply Forall2_app; [apply Hn|]. unfold left_over. rewrite Hfly. constructor; [|constructor].
      cbn. by rewrite E1.
    + right. by exists id.
  - eexists ids, _. split; [apply (step_fail _ c p b false); exact Hcl|]. apply Hmove; try done.
    { cbn. rewrite app_nil_r. apply Hn. }
    left. split; [done|]. intros id' H. by rewrite (Hsame id' p x).
Qed.

Lemma nrel_return n ids l c p x id n' :
  nrel n ids l → n_clients n !! c = Some (MkNClient p (Some x)) → nc_req x = Some id →
  net_return c p x id n = Some n' → ∃ ids' l', step l l' ∧ nrel n' ids' l'.
Proof.
  intros Hn Hc Hx Hret. destruct (nrel_call _ _ _ _ _ _ Hn Hc) as (b & Hcl & Hb).
  unfold net_return, Call_result in Hret. destruct (waits (n_world n) !! id) as [[]|] eqn:Hw; try done.
  cbn [mbind option_bind] in Hret. destruct (ok r) eqn:Hok.
  - destruct (answered_executed _ _ _ _ _ _ _ _ _ Hn Hc Hx Hb Hw Hok) as (Hj & rep & t & Hnet & Hrep).
    rewrite Hrep in Hret. cbn [mbind option_bind] in Hret.
    destruct (clerk_iter_answer (nc_retried x) rep) as [res Hres]. rewrite Hres in Hret.
    injection Hret as <-. destruct Hb as (E1 & E2 & E3 & _).
    exists ids, (do_return l c p b res).
    split; [eapply step_return; [done|done|by rewrite E3]|].
    apply (nrel_client_move n ids l c _ (MkClient (resume p res) None)); try done; cbn.
    + by rewrite (nr_clock _ _ _ Hn).
    + by rewrite (nr_log _ _ _ Hn), (nr_clock _ _ _ Hn), E1, E2.
    + split; [done|constructor].
    + intros id' H. exists r. by rewrite (waits_for_same n c id id' p x).
    + apply Hn.
    + left. split; [done|]. intros id' H. by rewrite (waits_for_same n c id id' p x).
  - cbn in Hret. injection Hret as <-. by eapply nrel_fail.
Qed.

(** A handler runs. *)
Lemma nrel_run_move n ids l id cnt ids' l' (n' : NSys Name P) :
  nrel n ids l → is_Some (reqs (n_world n) !! id) → id ∉ exec_ids (n_world n) →
  calls_ok (n_world n') → heap (n_world n') = {[a := served cnt (s_srv l')]} →
  reqs (n_world n') = reqs (n_world n) → waits (n_world n') = waits (n_world n) →
  jobs (n_world n') = delete id (jobs (n_world n)) →
  n_clients n' = n_clients n → n_oplog n' = n_oplog n → s_clock l' = n_clock n' →
  s_oplog l' = s_oplog l →
  (∀ c, option_Forall2 (ncl_rel (n_world n') c) (n_clients n !! c) (s_clients l' !! c)) →
  Forall2 (λ id q, is_request (n_world n) id (lr_cid q) (lr_op q)) ids' (s_late l') →
  ids' = ids ∧ (∃ c, waits_for n c id) ∨ (∃ i1 i2, ids = i1 ++ id :: i2 ∧ ids' = i1 ++ i2) →
  nrel n' ids' l'.
Proof.
  intros Hn Hid Hnew Hok Hh Er Ew Ej Ec El Hclk Hlog Hcl Hlate Hids.
  pose proof Hn as [_ _ _ H4 _ _ H7 H8 [H9 H10]].
  assert (∀ c i, waits_for n' c i ↔ waits_for n c i) as Hwf by (intros; unfold waits_for; by rewrite Ec).
  assert (∀ i, i ∈ ids' → i ∈ ids) as Hsub.
  { destruct Hids as [[-> _]|(i1 & i2 & -> & ->)]; [done|]. intros i. rewrite !elem_of_app, elem_of_cons. tauto. }
  split; try done.
  - by exists cnt.
  - by rewrite Ec.
  - by rewrite Hlog, El.
  - unfold is_request in *. by rewrite Er.
  - intros i. rewrite Ej. intros Hi. destruct (decide (i = id)) as [->|Hne].
    { rewrite lookup_delete_eq in Hi. by destruct Hi. }
    rewrite lookup_delete_ne in Hi by done. destruct (H7 i Hi) as [Hin|[c ?]].
    + left. destruct Hids as [[-> _]|(i1 & i2 & -> & ->)]; [done|].
      rewrite elem_of_app, elem_of_cons in Hin. rewrite elem_of_app. tauto.
    + right. exists c. by apply Hwf.
  - intros i y. rewrite Ew. intros Hy. destruct (H8 i y Hy) as [?|[c ?]]; [by left|right].
    exists c. by apply Hwf.
  - split.
    + destruct Hids as [[-> _]|(i1 & i2 & -> & ->)]; [done|].
      apply list.NoDup_app in H9 as (N1 & N2 & N3%list.NoDup_cons). apply list.NoDup_app.
      split_and!; [done| |by destruct N3]. intros i Hi Hi'. apply (N2 i Hi). by right.
    + intros i c Hw%Hwf. destruct (H10 i c Hw) as [Hni Hu]. split; [by intros ?%Hsub|].
      intros c' ?%Hwf. by apply Hu.
Qed.

(** Another request's handler ran. *)
Lemma ncl_rel_exec w w' c ncl cl id a' r :
  reqs w' = reqs w → execs w' = execs w ++ [(id, a', r)] →
  (∀ x, n_call ncl = Some x → nc_req x ≠ Some id) → ncl_rel w c ncl cl → ncl_rel w' c ncl cl.
Proof.
  intros Er Ee Hne [Hp Ho]. split; [done|].
  destruct ncl as [np nx], cl as [pp ob]. cbn in *. destruct Ho as [x b (H1 & H2 & H3 & H4)|]; constructor.
  split_and!; [done..|]. destruct (nc_req x) as [i|] eqn:Hi; [|done]. destruct H4 as [H4 H5].
  split; [unfold is_request; by rewrite Er|]. destruct (b_net b) as [|r' t].
  - unfold exec_ids. rewrite Ee, !fmap_app, elem_of_app. intros [?|H%list_elem_of_singleton]; [done|].
    cbn in H. subst i. by apply (Hne x eq_refl).
  - destruct H5 as [? [a2 Hex]]. split; [done|]. exists a2. rewrite Ee. apply elem_of_app. by left.
Qed.

(** What [run_job] did to the server. *)
Record ran w w' (id : nat) (op : KvOp) (kv : KVServer) : Prop := {
  ran_heap : ∃ cnt, heap w' = {[a := served cnt (srv_exec kv op).1]};
  ran_execs : execs w' = execs w ++ [(id, a, MkReplyMsg true (rep_bytes (srv_exec kv op).2))];
  ran_reqs : reqs w' = reqs w;
  ran_waits : waits w' = waits w;
  ran_jobs : jobs w' = delete id (jobs w);
}.

Lemma run_job_ran w w' id cnt kv :
  heap w = {[a := served cnt kv]} → run_job id w = Some w' →
  is_Some (reqs w !! id) ∧ is_Some (jobs w !! id) ∧
  ∀ c op, is_request w id c op → ran w w' id op kv.
Proof.
  intros Hh Hrun. unfold run_job in Hrun.
  apply bind_Some in Hrun as (req & Hreq & (a1 & Hj & (rs & Hrs & ([rs' r] & Hd & [= <-])%bind_Some)%bind_Some)%bind_Some).
  rewrite Hh, lookup_singleton_Some in Hrs. destruct Hrs as [<- <-].
  split_and!; [by eexists|by eexists|]. intros c op Hq. unfold is_request in Hq.
  rewrite Hreq in Hq. injection Hq as ->. rewrite dispatch_op in Hd. injection Hd as <- <-.
  split; cbn; try done. exists (cnt + 1). by rewrite Hh, insert_singleton_eq.
Qed.

Lemma nrel_run_late n i1 id i2 l w' :
  nrel n (i1 ++ id :: i2) l → calls_ok w' → id ∉ exec_ids (n_world n) → is_Some (reqs (n_world n) !! id) →
  (∀ c op, is_request (n_world n) id c op → ran (n_world n) w' id op (s_srv l)) →
  ∃ l', step l l' ∧ nrel (MkNSys w' (n_clients n) (n_clock n + 1) (n_oplog n)) (i1 ++ i2) l'.
Proof.
  intros Hn Hok Hnew Hreq Hran. pose proof Hn as [_ H2 H3 H4 H5 _ _ _ [_ H10]].
  apply Forall2_app_inv_l in H5 as (q1 & q2' & Hq1 & Hq2 & Hlate).
  inversion Hq2 as [|? q ? q2 Hq Hq2' E1 E2]; subst.
  destruct (Hran _ _ Hq) as [[cnt R1] R2 R3 R4 R5].
  exists (do_late l q (q1 ++ q2)). split; [by apply step_late|].
  destruct (do_late_view l q (q1 ++ q2)) as (F1 & F2 & F3 & F4 & _ & F6).
  apply (nrel_run_move n (i1 ++ id :: i2) l id cnt); try done; cbn [n_world n_clock].
  - by rewrite F1.
  - by rewrite F3, H3.
  - intros c. rewrite F2. specialize (H2 c). destruct (n_clients n !! c) as [ncl|] eqn:Hc;
      inversion H2; subst; constructor.
    eapply (ncl_rel_exec (n_world n)); [done|done| |done].
    intros x Hx Hid. destruct ncl as [p ox]. cbn in Hx. subst ox.
    destruct (H10 id c) as [Hni _]; [by exists p, x|]. apply Hni, elem_of_app. right. by left.
  - rewrite F6. by apply Forall2_app.
  - right. by exists i1, i2.
Qed.

Lemma nrel_run_mine n ids l c p x id w' :
  nrel n ids l → n_clients n !! c = Some (MkNClient p (Some x)) → nc_req x = Some id →
  calls_ok w' → id ∉ exec_ids (n_world n) → is_Some (reqs (n_world n) !! id) →
  (∀ c op, is_request (n_world n) id c op → ran (n_world n) w' id op (s_srv l)) →
  ∃ l', step l l' ∧ nrel (MkNSys w' (n_clients n) (n_clock n + 1) (n_oplog n)) ids l'.
Proof.
  intros Hn Hc Hx Hok Hnew Hreq Hran. pose proof Hn as [_ H2 H3 H4 H5 _ _ _ [_ H10]].
  destruct (nrel_call _ _ _ _ _ _ Hn Hc) as (b & Hcl & E1 & E2 & E3 & E4).
  rewrite Hx in E4. destruct E4 as [Hq Hnet].
  assert (b_net b = InFlight) as Hfly.
  { destruct (b_net b) as [|r' t]; [done|]. destruct Hnet as [_ [a2 Hex]]. by apply exec_id in Hex. }
  destruct (Hran _ _ Hq) as [[cnt R1] R2 R3 R4 R5].
  exists (do_exec l c p b). split; [by apply step_exec|].
  pose proof (do_exec_view l c p b) as (F1 & F2 & F3 & F4 & _ & F6).
  apply (nrel_run_move n ids l id cnt); try done; cbn [n_world n_clock].
  - by rewrite F1, E1.
  - by rewrite F3, H3.
  - intros c'. rewrite F2. destruct (decide (c' = c)) as [->|Hne].
    + rewrite Hc, list_lookup_insert_eq by (by eapply lookup_lt_Some). constructor.
      split; [done|]. constructor. split_and!; [done..|]. cbn. rewrite Hx, E1. cbn.
      split; [unfold is_request; by rewrite R3|]. split; [apply exec_rep_for|].
      exists a. rewrite R2. apply elem_of_app. right. by left.
    + rewrite list_lookup_insert_ne by done. specialize (H2 c').
      destruct (n_clients n !! c') as [ncl|] eqn:Hc'; inversion H2; subst; constructor.
      eapply (ncl_rel_exec (n_world n)); [done|done| |done].
      intros x' Hx' Hid. destruct ncl as [p' ox]. cbn in Hx'. subst ox.
      apply Hne. destruct (H10 id c) as [_ Hu]; [by exists p, x|]. apply Hu. by exists p', x'.
  - by rewrite F6.
  - left. split; [done|]. by exists c, p, x.
Qed.

Lemma nrel_run n ids l id n' :
  nrel n ids l → net_happen (EvRun id) n = Some n' → ∃ ids' l', step l l' ∧ nrel n' ids' l'.
Proof.
  intros Hn H. unfold net_happen in H. apply bind_Some in H as (w' & Hrun & [= <-]).
  pose proof (happen_calls_ok _ _ _ (nr_calls _ _ _ Hn) Hrun) as Hok. cbn [happen] in Hrun.
  destruct (nr_server _ _ _ Hn) as [cnt Hh].
  destruct (run_job_ran _ _ _ _ _ Hh Hrun) as (Hreq & Hj & Hran).
  assert (id ∉ exec_ids (n_world n)) as Hnew.
  { destruct (proj2 (nr_calls _ _ _ Hn) id) as [Hid _]. destruct Hj as [a1 Hj]. rewrite Hj in Hid.
    destruct (waits (n_world n) !! id) as [[]|]; naive_solver. }
  destruct (nr_jobs _ _ _ Hn id Hj) as [Hin|(c & p & x & Hc & Hx)].
  - apply list_elem_of_split in Hin as (i1 & i2 & ->).
    destruct (nrel_run_late _ _ _ _ _ _ Hn Hok Hnew Hreq Hran) as (l' & ? & ?). by exists (i1 ++ i2), l'.
  - destruct (nrel_run_mine _ _ _ _ _ _ _ _ Hn Hc Hx Hok Hnew Hreq Hran) as (l' & ? & ?).
    by exists ids, l'.
Qed.

Lemma nrel_step n n' ids l :
  nrel n ids l → nstep ename n n' → ∃ ids' l', rtc step l l' ∧ nrel n' ids' l'.
Proof.
  intros Hn Hstep.
  destruct Hstep as [c p p' Hc Hl|c p op Hc Hop|c p x id n' Hc Hx Hcall|c p x Hc Hx Hd|
    c p x id n' Hc Hx Hret|e n' He Hh].
  - exists ids, (do_local l c p').
    destruct (nrel_client _ _ _ _ _ _ Hn Hc) as (ob & Hcl & Hob). inversion Hob; subst.
    split; [by eapply rtc_once, step_local|].
    apply (nrel_idle_move n ids l c p _ (MkClient p' None)); try done; cbn; [by left|..].
    + by rewrite (nr_clock _ _ _ Hn).
    + apply Hn.
  - exists ids, (do_invoke l c p op).
    destruct (nrel_client _ _ _ _ _ _ Hn Hc) as (ob & Hcl & Hob). inversion Hob; subst.
    split; [by eapply rtc_once, step_invoke|].
    eapply (nrel_idle_move n ids l c p); try done; cbn; [by left|..].
    + by rewrite (nr_clock _ _ _ Hn).
    + apply Hn.
    + split; [done|]. constructor. split_and!; cbn; try done. apply Hn.
    + by intros x [= <-].
  - exists ids, l. split; [constructor|by eapply nrel_send].
  - destruct (nrel_call _ _ _ _ _ _ Hn Hc) as (b & Hcl & E1 & E2 & E3 & E4).
    exists ids, (do_fail l c p b false).
    split; [by eapply rtc_once, (step_fail _ c p b false)|].
    eapply (nrel_idle_move n ids l c p); try done; cbn; [right; by exists x|..].
    + by rewrite (nr_clock _ _ _ Hn).
    + apply Hn.
    + by rewrite app_nil_r.
    + split; [done|]. constructor. by split_and!.
    + by intros x' [= <-].
  - destruct (nrel_return _ _ _ _ _ _ _ _ Hn Hc Hx Hret) as (ids' & l' & Hs & Hn').
    exists ids', l'. split; [by apply rtc_once|done].
  - assert ((∃ id, e = EvRun id) ∨ ∀ id, e ≠ EvRun id) as [[id ->]|Hrun]
      by (destruct e; eauto; by right).
    + destruct (nrel_run _ _ _ _ _ Hn Hh) as (ids' & l' & Hs & Hn').
      exists ids', l'. split; [by apply rtc_once|done].
    + unfold net_happen in Hh. apply bind_Some in Hh as (w' & Hw & [= <-]).
      exists ids, l. split; [constructor|].
      assert (ticks e = 0) as -> by (destruct e; try done; by destruct (Hrun id)).
      apply nrel_quiet; [done| |].
      * eapply happen_quiet; [|done]. destruct e; try done. by destruct (Hrun id).
      * eapply happen_calls_ok; [apply Hn|done].
Qed.

Lemma run_refines ps n :
  nreachable ename a ps n → ∃ ids l, reachable ps l ∧ nrel n ids l.
Proof.
  revert n. refine (rtc_ind_r _ _ _ _).
  - exists [], (init_sys ps). split; [constructor|apply nrel_init].
  - intros n n' _ Hstep (ids & l & Hl & Hn).
    destruct (nrel_step _ _ _ _ Hn Hstep) as (ids' & l' & Hs & Hn').
    exists ids', l'. split; [unfold reachable in *; by etrans|done].
Qed.

(** C3: clerks, network and server together refine the system of [KvSys.v].  In
    every run over the network of labrpc.go, whatever it drops, delays, reorders,
    connects, disconnects or destroys, the store, the programs, the calls in
    progress, the clock and the operation log are those of a run in which requests
    are only lost, or run after their call has failed. *)
Theorem network_refines ps n :
  nreachable ename a ps n → ∃ ids s, reachable ps s ∧ nrel n ids s.
Proof. apply run_refines. Qed.
End Refine.

(** ** The service over the network is linearizable *)

Section Linearizable.
Context {Name : Type} `{!EqDecision Name, !Countable Name}.
Context {P : Type} `{!KVClient P, !CarefulClient P}.
Context `{!Codec GetArgs, !Codec GetReply, !Codec PutArgs, !Codec PutReply}.
Context `{!CodecLaws GetArgs, !CodecLaws GetReply, !CodecLaws PutArgs, !CodecLaws PutReply}.

(** A [Put] in progress that has been applied, as the log would have it. *)
Definition net_pending (n : NSys Name P) (o : Operation) : Prop :=
  ∃ p x, n_clients n !! op_ClientId o = Some (MkNClient p (Some x)) ∧
    o = MkOperation (op_ClientId o) (op_input (nc_op x)) (nc_start x)
          (MkKvOutput "" 0 ErrMaybe) (n_clock n).

Lemma pending_net ename a n ids l o :
  nrel ename a n ids l → pending_completion l o → net_pending n o.
Proof using.
  intros Hn (p & b & Hc & Ho). pose proof (nr_clients _ _ _ _ _ Hn (op_ClientId o)) as H.
  rewrite Hc in H. inversion H as [[np nx] ? [Hp Hx] E1 E2|]; subst. cbn in *.
  inversion Hx as [x b' (F1 & F2 & _) E3 E4|]; subst. exists np, x. split; [done|].
  by rewrite <-F1, <-F2, <-(nr_clock _ _ _ _ _ Hn).
Qed.

(** C2: the key/value service over the simulated network is linearizable for
    clients that [Put] only at versions they have read.  Whatever the network
    drops, delays, reorders, connects and disconnects, the logged operations,
    together with some of the calls in progress, can be put in an order that
    respects real time and that the server would have answered alike. *)
Theorem network_linearizable (ename : nat → Name) (a : nat) (ps : list P) (n : NSys Name P) :
  knows_nothing ps → nreachable ename a ps n → n_clock n < 2 ^ 63 →
  ∃ pend, Forall (net_pending n) pend ∧ NoDup (op_ClientId <$> pend) ∧
    strict_linearizable (n_oplog n ++ pend).
Proof.
  intros Hps Hr Hclk. destruct (run_refines ename a ps n Hr) as (ids & l & Hl & Hn).
  rewrite <-(nr_clock _ _ _ _ _ Hn) in Hclk.
  destruct (careful_linearizable ps l Hps Hl Hclk) as (pend & Hp & Hnd & Hlin).
  exists pend. split_and!; [|done|by rewrite <-(nr_log _ _ _ _ _ Hn)].
  eapply list.Forall_impl; [exact Hp|]. intros o. by eapply pending_net.
Qed.
(** Every call has returned. *)
Definition all_returned (n : NSys Name P) : Prop := Forall (λ cl, n_call cl = None) (n_clients n).

(** C13: the testers' porcupine check passes over the simulated network.  For clients
    that [Put] only at versions they have read, when every call has returned, every
    part of [Partition] of the log is linearizable with respect to [KvModel],
    whatever the network has dropped, delayed, reordered, connected and
    disconnected, and although requests may still be running. *)
Theorem kv_history_ok (ename : nat → Name) (a : nat) (ps : list P) (n : NSys Name P) :
  knows_nothing ps → nreachable ename a ps n → n_clock n < 2 ^ 63 → all_returned n →
  history_ok (n_oplog n).
Proof.
  intros Hps Hr Hclk Hret. destruct (run_refines ename a ps n Hr) as (ids & s & Hs & Hn).
  rewrite <-(nr_clock _ _ _ _ _ Hn) in Hclk. rewrite <-(nr_log _ _ _ _ _ Hn).
  apply (careful_history ps s Hps Hs Hclk). apply list.Forall_lookup. intros c cl Hc.
  pose proof (nr_clients _ _ _ _ _ Hn c) as H. rewrite Hc in H.
  inversion H as [ncl ? [_ Hx] E1 E2|]; subst. symmetry in E1.
  unfold all_returned in Hret. rewrite list.Forall_lookup in Hret. rewrite (Hret _ _ E1) in Hx.
  by inversion Hx.
Qed.
End Linearizable.

(** ** The lock over the network *)

(** C34: the lock excludes over the simulated network.  However many clients contend
    for it and whatever they do with other keys, at most one is past [Acquire] and
    not yet in [Release], whatever the network drops, delays, reorders, connects and
    disconnects, and whichever requests are still running for calls that the clerk
    has given up on. *)
Theorem network_lock_exclusion {Name : Type} `{!EqDecision Name, !Countable Name}
    `{!Codec GetArgs, !Codec GetReply, !Codec PutArgs, !Codec PutReply}
    `{!CodecLaws GetArgs, !CodecLaws GetReply, !CodecLaws PutArgs, !CodecLaws PutReply}
    (ename : nat → Name) (a : nat) l draws (n : NSys Name LockClient) c1 c2 lc1 lc2 x1 x2 :
  NoDup (random_ids draws) → Forall (λ d, length d = 16%nat) draws →
  nreachable ename a (lock_progs l (random_ids draws)) n → n_clock n < 2 ^ 63 →
  n_clients n !! c1 = Some (MkNClient lc1 x1) → n_clients n !! c2 = Some (MkNClient lc2 x2) →
  in_cs lc1 → in_cs lc2 → c1 = c2.
Proof.
  intros Hnd Hlen Hr Hclk H1 H2. destruct (run_refines ename a _ n Hr) as (ids & s & Hs & Hn).
  rewrite <-(nr_clock _ _ _ _ _ Hn) in Hclk.
  destruct (nrel_client _ _ _ _ _ _ _ _ Hn H1) as (ob1 & Hc1 & _).
  destruct (nrel_client _ _ _ _ _ _ _ _ Hn H2) as (ob2 & Hc2 & _).
  by apply (lock_exclusion l draws s c1 c2 lc1 lc2 ob1 ob2).
Qed.
