(* ===== verification/KvNetDemo.v ===== *)
(** * Runs over the network

    Two clients of the service behind one server: runs in which requests are left
    running and change nothing, of clients of the test programs and of the lock,
    and one in which a client that guessed a version has its [Put] applied after
    the clerk has answered it. *)
From S2P Require Import Prelude Rpc KvSrv Persister Demux LabRpc LabRpcTheorems GobString.
From S2P Require Import KvModel Clerk KvSys KvHist KvProof KvTheorems KvCareful Json KvTest KvTestTheorems Lock KvNet KvNetTheorems.

(** ** An encoder *)

#[local] Instance GetArgs_countable : Countable GetArgs.
Proof. by refine (inj_countable' ga_Key MkGetArgs _); intros []. Defined.
#[local] Instance PutArgs_countable : Countable PutArgs.
Proof.
  refine (inj_countable' (λ x, (pa_Key x, pa_Value x, pa_Version x))
    (λ p, MkPutArgs p.1.1 p.1.2 p.2) _). by intros [].
Defined.
#[local] Instance GetReply_countable : Countable GetReply.
Proof.
  refine (inj_countable' (λ x, (gr_Value x, gr_Version x, gr_Err x))
    (λ p, MkGetReply p.1.1 p.1.2 p.2) _). by intros [].
Defined.
#[local] Instance PutReply_countable : Countable PutReply.
Proof. by refine (inj_countable' pr_Err MkPutReply _); intros []. Defined.

#[local] Instance bits_codec {A} `{Countable A} : Codec A := {
  Marshall x := bits (encode x);
  Unmarshall b := unbits b ≫= decode;
}.

#[local] Instance bits_codec_laws {A} `{Countable A} : CodecLaws A.
Proof.
  split. intros x. cbn. rewrite unbits_bits. cbn. by rewrite decode_encode.
Qed.

(** ** The set-up

    Two ends, connected and enabled, and the server. *)
Definition end_name (c : nat) : string := if decide (c = 0%nat) then "end0" else "end1".

Definition attach (e : string) : list (NMove string) :=
  [NNet (EvOp (OpMakeEnd e)); NNet (EvOp (OpConnect e "srv")); NNet (EvOp (OpEnable e true))].
Definition set_up : list (NMove string) :=
  attach "end0" ++ attach "end1" ++ [NNet (EvOp (OpAddServer "srv" 0%nat))].

(** Request [id] of client [c] is sent, run and answered. *)
Definition serve_call (c id : nat) : list (NMove string) :=
  [NCallReq c id; NNet (EvStart id false); NNet (EvRun id); NNet (EvFinish id false false); NReturn c].

(** The end of client 0 is disabled while its request [id] waits for its handler. *)
Definition leave_running (id : nat) : list (NMove string) :=
  [NCallReq 0 id; NNet (EvStart id false); NNet (EvOp (OpEnable "end0" false)); NNet (EvPoll id);
   NReturn 0; NNet (EvOp (OpEnable "end0" true))].

(** ** A client that guesses a version

    Client 0 [Put]s at version 2 when the key is at version 1.  Its first request
    is left running, the second is refused, the clerk answers [ErrMaybe]; client 1
    takes the key to version 2, and now the first request is applied. *)
Definition careless_progs : list Script :=
  [[put_x "a" 2]; [put_x "b" 0; put_x "c" 1; OpGet (MkGetArgs "x")]].
Definition careless_moves : list (NMove string) :=
  set_up ++ [NInvoke 1] ++ serve_call 1 0 ++
  [NInvoke 0] ++ leave_running 1 ++ serve_call 0 2 ++
  [NInvoke 1] ++ serve_call 1 3 ++ [NNet (EvRun 1)] ++
  [NInvoke 1] ++ serve_call 1 4.

Definition careless_run : option (NSys string Script) :=
  run_nmoves end_name (init_net 0 careless_progs) careless_moves.
Definition careless_sys : NSys string Script :=
  default (init_net 0 careless_progs) careless_run.
Definition careless_log : list Operation := Eval vm_compute in n_oplog careless_sys.

Lemma ran_to {A} (o : option A) (d : A) : bool_decide (is_Some o) = true → o = Some (default d o).
Proof. by intros [x ->]%bool_decide_eq_true. Qed.

Lemma returned_all {P} (n : NSys string P) k : n_call <$> n_clients n = replicate k None → all_returned n.
Proof.
  intros H. apply list.Forall_lookup. intros c cl Hc.
  assert ((n_call <$> n_clients n) !! c = Some (n_call cl)) as Hl by (by rewrite list_lookup_fmap, Hc).
  rewrite H in Hl. by apply lookup_replicate_1 in Hl as [-> _].
Qed.

(** With a client that guesses a version the service over the network is not
    linearizable.  In this run every call has returned, and no order of the logged
    operations that respects real time is one the server, or the model of the
    testers, would have answered alike: a [Put] took effect after its clerk had
    returned from it. *)
Theorem careless_over_network :
  ∃ n : NSys string Script, nreachable end_name 0 careless_progs n ∧ all_returned n ∧
    ¬ strict_linearizable (n_oplog n) ∧ ¬ history_ok (n_oplog n).
Proof.
  exists careless_sys.
  assert (careless_run = Some careless_sys) as Hrun by (apply ran_to; vm_compute; reflexivity).
  assert (n_oplog careless_sys = careless_log) as -> by (vm_compute; reflexivity).
  assert (n_call <$> n_clients careless_sys = [None; None]) as Hret by (vm_compute; reflexivity).
  assert (∀ l, l ≡ₚ careless_log → respects_time l → l = careless_log) as Hone.
  { intros l. apply sequential_order; repeat constructor; done. }
  split_and!.
  - by eapply run_nmoves_reachable.
  - by apply (returned_all _ 2).
  - intros (l & kv & Hl & Ht & Hr). by rewrite (Hone l Hl Ht) in Hr.
  - intros Hok. unfold history_ok in Hok.
    assert (KvModel_Partition careless_log = [careless_log]) as Hpart by (vm_compute; reflexivity).
    rewrite Hpart in Hok. apply Forall_singleton in Hok as (l & Hl & Ht & Ha).
    by rewrite (Hone l Hl Ht) in Ha.
Qed.

(** ** Clients that do not

    Two test clients race for a key; the first request of client 0 is left running
    and runs when the key exists. *)
Definition start_put (c : nat) (n : NSys string PutClient) : NSys string PutClient :=
  net_local c (MkPutClient c ["k"] false {["k" := 0]} (MkClntRes 0 0) (QPut "k" 0)) n.

Definition put_start : NSys string PutClient :=
  start_put 1 (start_put 0 (init_net 0 (put_progs 2 ["k"] false))).

Definition careful_moves : list (NMove string) :=
  set_up ++ [NInvoke 0] ++ leave_running 0 ++ [NInvoke 1] ++ serve_call 1 1 ++ serve_call 0 2 ++
  [NNet (EvRun 0)] ++ [NInvoke 1] ++ serve_call 1 3 ++ [NInvoke 0] ++ serve_call 0 4.
Definition careful_run : option (NSys string PutClient) := run_nmoves end_name put_start careful_moves.
Definition careful_sys : NSys string PutClient := default put_start careful_run.

Lemma put_starts : nreachable end_name 0 (put_progs 2 ["k"] false) put_start.
Proof.
  eapply rtc_l; [|apply rtc_once].
  - eapply (nstep_local _ _ 0); [reflexivity|]. by apply (put_key (OneClientPut 0 ["k"] false) "k").
  - eapply (nstep_local _ _ 1); [reflexivity|]. by apply (put_key (OneClientPut 1 ["k"] false) "k").
Qed.

Lemma careful_reachable : nreachable end_name 0 (put_progs 2 ["k"] false) careful_sys.
Proof.
  assert (careful_run = Some careful_sys) as Hrun by (apply ran_to; vm_compute; reflexivity).
  unfold nreachable. etransitivity; [exact put_starts|]. by eapply run_nmoves_steps.
Qed.

Lemma careful_clock : n_clock careful_sys = 16.
Proof. vm_compute. reflexivity. Qed.

Lemma network_refines_witness :
  length (LabRpc.execs (n_world careful_sys)) = 5%nat ∧
  ∃ ids s, reachable (put_progs 2 ["k"] false) s ∧ nrel end_name 0 careful_sys ids s.
Proof.
  split; [vm_compute; reflexivity|].
  apply (network_refines end_name 0 (put_progs 2 ["k"] false) careful_sys). exact careful_reachable.
Defined.

Lemma network_linearizable_witness :
  length (n_oplog careful_sys) = 4%nat ∧
  ∃ pend, Forall (net_pending careful_sys) pend ∧ NoDup (op_ClientId <$> pend) ∧
    strict_linearizable (n_oplog careful_sys ++ pend).
Proof.
  split; [vm_compute; reflexivity|].
  apply (network_linearizable end_name 0 (put_progs 2 ["k"] false));
    [apply put_know_nothing|exact careful_reachable|by rewrite careful_clock].
Defined.

Lemma kv_history_ok_witness :
  length (n_oplog careful_sys) = 4%nat ∧ history_ok (n_oplog careful_sys).
Proof.
  split; [vm_compute; reflexivity|]. apply (kv_history_ok end_name 0 (put_progs 2 ["k"] false)).
  - apply put_know_nothing.
  - exact careful_reachable.
  - by rewrite careful_clock.
  - assert (n_call <$> n_clients careful_sys = [None; None]) as Hret by (vm_compute; reflexivity).
    by apply (returned_all _ 2).
Defined.

(** ** The lock

    Client 0 acquires the lock; the first request of its acquiring [Put] is left
    running and runs once the lock is held. *)
Definition lock_progs_2 : list LockClient := lock_progs "l" (random_ids demo_draws).
Definition lock_run1 : option (NSys string LockClient) :=
  run_nmoves end_name (init_net 0 lock_progs_2) (set_up ++ [NInvoke 0] ++ serve_call 0 0).
Definition lock_sys1 : NSys string LockClient := default (init_net 0 lock_progs_2) lock_run1.
Definition lock_0 : Lock := MkLock "l" false 0 (RandValue (replicate 16 7)).
Definition lock_sys2 : NSys string LockClient := net_local 0 (enter_Acquire lock_0) lock_sys1.
Definition lock_run3 : option (NSys string LockClient) :=
  run_nmoves end_name lock_sys2
    ([NInvoke 0] ++ serve_call 0 1 ++ [NInvoke 0] ++ leave_running 2 ++ serve_call 0 3 ++ [NNet (EvRun 2)]).
Definition lock_sys3 : NSys string LockClient := default lock_sys2 lock_run3.

Lemma lock_sys3_reachable : nreachable end_name 0 lock_progs_2 lock_sys3.
Proof.
  assert (lock_run1 = Some lock_sys1) as H1 by (apply ran_to; vm_compute; reflexivity).
  assert (lock_run3 = Some lock_sys3) as H3 by (apply ran_to; vm_compute; reflexivity).
  unfold nreachable. etransitivity; [by eapply run_nmoves_steps|].
  etransitivity; [apply rtc_once|by eapply run_nmoves_steps].
  apply (nstep_local _ _ 0 (MkLC lock_0 PIdle)); [vm_compute; reflexivity|apply local_acquire].
Qed.

Lemma network_lock_exclusion_witness :
  length (LabRpc.execs (n_world lock_sys3)) = 4%nat ∧ 0%nat = 0%nat ∧
  ∃ lc, n_clients lock_sys3 !! 0%nat = Some (MkNClient lc None) ∧ in_cs lc.
Proof.
  assert (n_clients lock_sys3 !! 0%nat =
    Some (MkNClient (MkLC (MkLock "l" true 2 (RandValue (replicate 16 7))) PIdle) None)) as Hc
    by (vm_compute; reflexivity).
  split; [vm_compute; reflexivity|]. split; [|eexists; split; [exact Hc|by split]].
  eapply (network_lock_exclusion end_name 0 "l" demo_draws lock_sys3);
    [exact demo_ids_distinct|exact demo_draws_length|exact lock_sys3_reachable|
     vm_compute; reflexivity|exact Hc|exact Hc|by split|by split].
Defined.
