(* ===== verification/Sock.v ===== *)
(** * Calls between processes

    [src/src/tester1/sockrpc]: a call names a method and carries its arguments
    over a connection of [Demux.v]; the other end dispatches it on a server of
    [LabRpc.v]. *)
From S2P Require Import Prelude Persister LabRpc Demux.

Record RPCArgs := MkRPCArgs { Method : string; Args : bytes }.

Definition SockName (endName : string) : string := "/tmp/6.5840-" +:+ endName.

(** ** rpcclnt.go *)

(** [net.Dial] is tried [MAXRETRY] times; [tries] are its outcomes. *)
Definition MAXRETRY : nat := 100.

Fixpoint dial_from {Conn Err} (n : nat) (r : option Err) (tries : list (Conn + Err))
    : option (Conn + option Err) :=
  match n, tries with
  | O, _ => Some (inr r)
  | S n, inl c :: _ => Some (inl c)
  | S n, inr e :: tries => dial_from n (Some e) tries
  | S _, [] => None
  end.

Definition dial {Conn Err} (tries : list (Conn + Err)) : option (Conn + option Err) :=
  dial_from MAXRETRY None tries.

Section Sock.
Context `{!Codec RPCArgs}.

(** What [RPC] sends, and what it makes of the reply of [SendReceive]. *)
Definition RPC_request (method : string) (args : bytes) : bytes :=
  Marshall (MkRPCArgs method args).

Definition RPC_result (r : reply) : bytes * bool := if err r then ([], false) else (rep r, rok r).

(** [RPCMarshall]; [None] is a reply that does not decode. *)
Definition RPCMarshall_result {A} `{!Codec A} (old : A) (r : reply) : option (A * bool) :=
  let '(b, ok) := RPC_result r in
  if ok then x ← Unmarshall b; Some (x, true) else Some (old, false).

(** ** rpcsrv.go *)

Definition NewRPCSrv {St} (st : St) : Server St := MakeServer st.

Definition RPCSrv_AddService {St} (name : string) (ms : list (LabRpc.Method St)) (srv : Server St)
    : Server St := AddService (MakeService name ms) srv.

Definition ServeRequest {St} (clntEnd : string) (b : bytes) (srv : Server St)
    : option (Server St * (bytes * bool)) :=
  req ← Unmarshall b; Dispatch (Method req) clntEnd (Args req) srv.

(** A request reaches the server as it was made. *)
Lemma ServeRequest_RPC `{!CodecLaws RPCArgs} {St} clntEnd method args (srv : Server St) :
  ServeRequest clntEnd (RPC_request method args) srv = Dispatch method clntEnd args srv.
Proof. unfold ServeRequest, RPC_request. by rewrite codec_roundtrip. Qed.
End Sock.

(** [dial] gives up after [MAXRETRY] failures, with the last error. *)
Lemma dial_from_fails {Conn Err} n (r : option Err) (es : list Err) (rest : list (Conn + Err)) :
  length es = n → dial_from n r ((inr <$> es) ++ rest) =
    Some (inr (match list.last es with Some e => Some e | None => r end)).
Proof.
  revert r n. induction es as [|e es IH]; intros r n <-; [done|]. cbn.
  rewrite (IH (Some e)) by done. rewrite last_cons. by destruct (list.last es).
Qed.
