(* ===== verification/Daemon.v ===== *)
(** * Servers as processes

    [src/src/tester1/daemonclnt.go], [daemonsrv.go], [testsrv.go]: the command
    line of a server process, the handshake by which the tester gives it its
    persisted state, and the calls it makes through the tester's network. *)
From Stdlib Require Import Ascii.
From S2P Require Import Prelude Strs Persister LabRpc Demux Sock.

(** ** The command line *)

Definition options (useRaftStateMachine : bool) : list string :=
  if useRaftStateMachine then ["--raft-state-machine"] else [].

(** The arguments [runDaemon] gives the process. *)
Definition daemon_args (pargs : list string) (useRaftStateMachine : bool) (endName : string)
    (gid srv : Z) (endNames : list string) : list string :=
  pargs ++ options useRaftStateMachine ++
  [Itoa gid; Itoa srv; Itoa (len endNames); endName] ++ endNames.

(** How many arguments at the front start with [-]; an empty one is a panic. *)
Fixpoint skip_options (args : list string) : option nat :=
  match args with
  | [] => Some 0%nat
  | EmptyString :: _ => None
  | String c _ :: args => if decide (c = "-"%char) then S <$> skip_options args else Some 0%nat
  end.

(** [l[i:j]]. *)
Definition go_slice {A} (l : list A) (i j : Z) : option (list A) :=
  if decide (0 <= i <= j ∧ j <= len l) then Some (take (Z.to_nat (j - i)) (drop (Z.to_nat i) l))
  else None.

(** What [InitDaemon] makes of its arguments: a panic, an error of [Atoi], or
    the names and numbers, with the name of its own end. *)
Inductive DaemonArgs :=
| DPanic
| DErr
| DArgs (gid sid : Z) (testerEndName : string) (endNames : list string) (endName : string).

Definition InitDaemon_args (args : list string) : DaemonArgs :=
  match s ← skip_options args; let s := Z.of_nat s in
        a ← go_index args s;
        match Atoi a with
        | None => Some DErr
        | Some gid =>
            a ← go_index args (s + 1);
            match Atoi a with
            | None => Some DErr
            | Some sid =>
                a ← go_index args (s + 2);
                match Atoi a with
                | None => Some DErr
                | Some nsrv =>
                    testerEndName ← go_index args (s + 3);
                    endNames ← go_slice args (s + 4) (s + 4 + nsrv);
                    endName ← go_index endNames sid;
                    Some (DArgs gid sid testerEndName endNames endName)
                end
            end
        end
  with
  | Some r => r
  | None => DPanic
  end.

Definition sockctl (sock : string) : string := sock +:+ "-ctl".

(** ** What the process does for the tester *)

(** [DaemonSrv.Init]. *)
Definition Init (raftstate snapshot : bytes) : Persister := Save MakePersister raftstate snapshot.

(** [DaemonSrv.CheckpointPersister] and [DaemonSrv.StateSize]. *)
Definition CheckpointPersister (persister : Persister) : bytes * bytes :=
  let p := Checkpoint persister in (ReadRaftState p, ReadSnapshot p).
Definition StateSize (persister : Persister) : Z * Z :=
  (RaftStateSize persister, SnapshotSize persister).

(** ** The handshake

    [ds.ch] is unbuffered.  Where the goroutine of [InitDaemon] is: it waits for
    the persister, it makes the services, it signals, it waits for the end, or
    it has returned and the process ends. *)
Inductive DMain :=
| MWait
| MMake (p : option Persister)
| MSignal (p : option Persister)
| MIdle (p : option Persister)
| MExit.

(** A handler of [Init], which sends, or of [InitWait], which receives. *)
Inductive DHandler :=
| HInit (p : Persister)
| HInitWait
| HReturned.

Record DaemonSrv := MkDaemonSrv { ds_main : DMain; ds_handlers : list DHandler }.

(** A sender and a receiver meet on [ds.ch], or the main goroutine goes on; a
    call starts a handler. *)
Inductive ds_step : DaemonSrv → DaemonSrv → Prop :=
| ds_call m hs h : h ≠ HReturned → ds_step (MkDaemonSrv m hs) (MkDaemonSrv m (hs ++ [h]))
| ds_init_main hs k p : hs !! k = Some (HInit p) →
    ds_step (MkDaemonSrv MWait hs) (MkDaemonSrv (MMake (Some p)) (<[k := HReturned]> hs))
| ds_init_exit hs k p q : hs !! k = Some (HInit p) →
    ds_step (MkDaemonSrv (MIdle q) hs) (MkDaemonSrv MExit (<[k := HReturned]> hs))
| ds_init_wait m hs k k' p : hs !! k = Some (HInit p) → hs !! k' = Some HInitWait →
    ds_step (MkDaemonSrv m hs) (MkDaemonSrv m (<[k' := HReturned]> (<[k := HReturned]> hs)))
| ds_make hs p : ds_step (MkDaemonSrv (MMake p) hs) (MkDaemonSrv (MSignal p) hs)
| ds_signal hs k p : hs !! k = Some HInitWait →
    ds_step (MkDaemonSrv (MSignal p) hs) (MkDaemonSrv (MIdle p) (<[k := HReturned]> hs)).

(** ** Calls of the process through the tester *)

Record ForwardArgs := MkForwardArgs { fa_Method : string; fa_End : string; fa_Args : bytes; fa_Id : Z }.
Record ForwardReply := MkForwardReply { fr_Rep : bytes; fr_Ok : bool }.

Section Forward.
Context `{!Codec RPCArgs, !Codec ForwardArgs, !Codec ForwardReply}.

(** [DaemonSrv.forward] up to its call, with [ds.id] before; an [atomic.Int64]. *)
Definition ds_forward_request (id : Z) (endn method : string) (b : bytes) : Z * bytes :=
  let id := i64 (id + 1) in
  (id, RPC_request "TesterRPC.Forward" (Marshall (MkForwardArgs method endn b id))).

(** The rest of it, with the reply to the call; [None] when that does not decode. *)
Definition ds_forward_result (r : reply) : option (bytes * bool) :=
  '(rep, ok) ← RPCMarshall_result (MkForwardReply [] false) r;
  Some (if ok : bool then (fr_Rep rep, fr_Ok rep) else ([], ok)).

(** [TesterRPC.Forward]: the request it puts in the network, or a fatal error
    for an end that is not there, and its reply when [end.Forward] returns. *)
Definition Forward_request (rn : Network string) (b : bytes) : option (reqMsg string) :=
  args ← Unmarshall b; e ← LookupEnd (fa_End args) rn;
  Some (MkReqMsg e (fa_Method args) (fa_Args args)).
Definition Forward_reply (r : bytes * bool) : bytes := Marshall (MkForwardReply r.1 r.2).

(** The tester's end of a call: what its [ServeRequest] hands to the method. *)
Definition tester_args (b : bytes) : option (string * bytes) :=
  req ← Unmarshall b; Some (Method req, Args req).
End Forward.

(** ** Theorems *)

Definition is_option (a : string) : Prop := ∃ rest, a = String "-" rest.

Lemma skip_options_app pre x rest :
  Forall is_option pre → (∃ c s, x = String c s ∧ c ≠ "-"%char) →
  skip_options (pre ++ x :: rest) = Some (length pre).
Proof.
  intros Hpre (c & s & -> & Hc). induction Hpre as [|a pre [r ->] _ IH]; cbn [app skip_options].
  - by rewrite decide_False.
  - rewrite decide_True by done. by rewrite IH.
Qed.

Lemma Itoa_head z : 0 <= z → ∃ c s, Itoa z = String c s ∧ c ≠ "-"%char.
Proof.
  intros Hz. rewrite Itoa_nonneg by done. pose proof (parse_pretty (Z.to_N z)) as Hp.
  pose proof (pretty_N_ne_empty (Z.to_N z)). destruct (pretty.pretty (Z.to_N z)) as [|c s]; [done|].
  exists c, s. split; [done|]. by eapply parse_head.
Qed.

Lemma go_index_app_r {A} (l k : list A) i : 0 <= i → go_index (l ++ k) (len l + i) = go_index k i.
Proof.
  intros Hi. unfold go_index, len. rewrite !decide_True by lia. rewrite lookup_app_r by lia. f_equal. lia.
Qed.

(** A server process understands its command line: [InitDaemon] finds in the
    arguments that [runDaemon] built, whatever options are in front, the group,
    the server and the names of the ends, and the name of its own end. *)
Theorem daemon_args_roundtrip pargs raftsm endName gid srv endNames e :
  Forall is_option pargs → 0 <= gid < 2 ^ 63 → len endNames < 2 ^ 63 →
  go_index endNames srv = Some e →
  InitDaemon_args (daemon_args pargs raftsm endName gid srv endNames) =
    DArgs gid srv endName endNames e.
Proof.
  intros Hp Hgid Hlen He. pose proof (go_index_lt _ _ _ He) as Hsrv. unfold daemon_args.
  set (pre := pargs ++ options raftsm).
  assert (Forall is_option pre) as Hpre.
  { apply Forall_app. split; [done|]. destruct raftsm; repeat constructor. by eexists. }
  rewrite app_assoc. fold pre. cbn [app].
  set (args := Itoa gid :: Itoa srv :: Itoa (len endNames) :: endName :: endNames).
  assert (skip_options (pre ++ args) = Some (length pre)) as Hskip.
  { apply skip_options_app; [done|]. apply Itoa_head. lia. }
  unfold InitDaemon_args. rewrite Hskip. cbn [mbind option_bind].
  assert (∀ i, 0 <= i → go_index (pre ++ args) (Z.of_nat (length pre) + i) = go_index args i) as Hidx
    by (intros i; apply go_index_app_r).
  rewrite <-(Z.add_0_r (Z.of_nat (length pre))) at 1. rewrite !Hidx by lia.
  change (go_index args 0) with (Some (Itoa gid)). change (go_index args 1) with (Some (Itoa srv)).
  change (go_index args 2) with (Some (Itoa (len endNames))).
  change (go_index args 3) with (Some endName). cbn [mbind option_bind].
  rewrite !Atoi_Itoa by lia. cbn [mbind option_bind].
  assert (go_slice (pre ++ args) (Z.of_nat (length pre) + 4) (Z.of_nat (length pre) + 4 + len endNames)
    = Some endNames) as ->; [|cbn; by rewrite He].
  unfold go_slice. rewrite decide_True by (rewrite len_app; unfold args; rewrite !len_cons; unfold len in *; lia).
  f_equal. replace (Z.to_nat (Z.of_nat (length pre) + 4)) with (length pre + 4)%nat by lia.
  rewrite <-drop_drop, drop_app_length. unfold args. cbn [drop]. apply take_ge. unfold len. lia.
Qed.

(** The tester's two calls, one after the other, and the steps of the process
    that are not new calls. *)
Inductive tester_step (p : Persister) : DaemonSrv → DaemonSrv → Prop :=
| t_init m : tester_step p (MkDaemonSrv m []) (MkDaemonSrv m [HInit p])
| t_wait m : tester_step p (MkDaemonSrv m [HReturned]) (MkDaemonSrv m [HReturned; HInitWait])
| t_run s s' : ds_step s s' → length (ds_handlers s') = length (ds_handlers s) → tester_step p s s'.

Definition handshake_ok (p : Persister) (s : DaemonSrv) : Prop :=
  s ∈ [MkDaemonSrv MWait []; MkDaemonSrv MWait [HInit p];
       MkDaemonSrv (MMake (Some p)) [HReturned]; MkDaemonSrv (MSignal (Some p)) [HReturned];
       MkDaemonSrv (MMake (Some p)) [HReturned; HInitWait];
       MkDaemonSrv (MSignal (Some p)) [HReturned; HInitWait];
       MkDaemonSrv (MIdle (Some p)) [HReturned; HReturned]].

Lemma handshake_step p s s' : handshake_ok p s → tester_step p s s' → handshake_ok p s'.
Proof.
  unfold handshake_ok. intros Hs Hst. rewrite !elem_of_cons, elem_of_nil in *.
  destruct Hst as [m|m|s s' Hst Hl]; [naive_solver..|].
  destruct Hst as [m hs h Hh|hs k q Hk|hs k q q' Hk|m hs k k' q Hk Hk'|hs q|hs k q Hk]; cbn in Hl;
    [rewrite length_app in Hl; cbn in Hl; lia|..];
    destruct_or! Hs; try done; simplify_eq;
    repeat match goal with
    | H : [] !! ?k = Some _ |- _ => by rewrite lookup_nil in H
    | H : (_ :: _) !! ?k = Some _ |- _ => destruct k; cbn in H; simplify_eq
    end; cbn; naive_solver.
Qed.

(** The handshake gives a process its state before it serves.  When the
    tester's [InitWait] has returned, the process has made its services from
    the persister the tester sent with [Init], and has not exited; and until
    then it is not stuck. *)
Theorem init_handshake p s :
  rtc (tester_step p) (MkDaemonSrv MWait []) s →
  (ds_handlers s = [HReturned; HReturned] → ds_main s = MIdle (Some p)) ∧
  ds_main s ≠ MExit ∧
  (ds_handlers s ≠ [HReturned; HReturned] → ∃ s', tester_step p s s').
Proof.
  intros Hr. assert (handshake_ok p s) as Hs.
  { assert (handshake_ok p (MkDaemonSrv MWait [])) as H0 by (by left).
    revert H0. induction Hr as [|s0 s1 s2 H01 _ IH]; [done|]. intros H0.
    by eapply IH, handshake_step. }
  unfold handshake_ok in Hs. rewrite !elem_of_cons, elem_of_nil in Hs.
  destruct_or! Hs; subst; cbn; try done; (split; [done|]; split; [done|]; intros _).
  - eexists. apply t_init.
  - eexists. apply t_run; [by apply (ds_init_main _ 0)|done].
  - eexists. apply t_wait.
  - eexists. apply t_wait.
  - eexists. apply t_run; [apply ds_make|done].
  - eexists. apply t_run; [by apply (ds_signal _ 1)|done].
Qed.

Section ForwardTheorems.
Context `{!Codec RPCArgs, !CodecLaws RPCArgs, !Codec ForwardArgs, !CodecLaws ForwardArgs,
          !Codec ForwardReply, !CodecLaws ForwardReply}.

(** Calls through the tester are calls in its network.  What a process asks
    for is put in the tester's network as it was asked for, at the end it was
    asked for, and once the network has answered request [id], the caller in
    the process gets what a caller in the tester would get; it gets false when
    the connection to the tester breaks. *)
Theorem forward_transparent {A St} (un : bytes → option A) (old : A) cnt endn method args rn
    (w : LabRpc.World string St) id r :
  endn ∈ ends rn → Forward_result id w = Some r →
  let '(_, b) := ds_forward_request cnt endn method args in
  ('(svcMeth, fargs) ← tester_args b; _ ← LookupEnd endn rn; Some (svcMeth, Forward_request rn fargs)) =
    Some ("TesterRPC.Forward", Some (MkReqMsg endn method args)) ∧
  (r' ← ds_forward_result (MkReply (Forward_reply r) true false);
   Some (Call_forwarded (λ _ _, r') un old method args)) = Call_result un old id w ∧
  (r' ← ds_forward_result failed; Some (Call_forwarded (λ _ _, r') un old method args)) =
    Some (Some (old, false)).
Proof.
  intros He Hr. unfold ds_forward_request, tester_args, RPC_request. cbn zeta. split; [|split].
  - rewrite codec_roundtrip. cbn. unfold LookupEnd, Forward_request.
    rewrite decide_True by done. cbn. rewrite codec_roundtrip. cbn. unfold LookupEnd.
    by rewrite decide_True.
  - unfold ds_forward_result, RPCMarshall_result, Forward_reply. cbn. rewrite codec_roundtrip. cbn.
    unfold Forward_result in Hr. unfold Call_result. destruct (waits w !! id) as [[]|]; try done.
    injection Hr as <-. unfold Call_forwarded. cbn. by destruct (ok r0).
  - done.
Qed.
End ForwardTheorems.
