(* ===== verification/DaemonDemo.v ===== *)
(** * A process and its tester

    An encoder for every countable type, and the theorems of [Daemon.v] at
    concrete inputs. *)
From S2P Require Import Prelude Strs Persister LabRpc LabRpcTheorems Demux Sock Daemon.

(** ** An encoder

    The bits of the code of a value, the lowest first, and a 1 at the end. *)
Fixpoint bits_of (p : positive) : bytes :=
  match p with
  | xH => [1]
  | xO p => 0 :: bits_of p
  | xI p => 1 :: bits_of p
  end.

Fixpoint of_bits (l : bytes) : option positive :=
  match l with
  | [] => None
  | [b] => if decide (b = 1) then Some xH else None
  | b :: l => p ← of_bits l; Some (if decide (b = 1) then xI p else xO p)
  end.

Lemma bits_of_ne p : bits_of p ≠ [].
Proof. by destruct p. Qed.

Lemma of_bits_of p : of_bits (bits_of p) = Some p.
Proof.
  induction p as [p IH|p IH|]; [| |done];
    cbn; pose proof (bits_of_ne p); destruct (bits_of p); [done| |done|]; by rewrite IH.
Qed.

Definition countable_codec {A} `{Countable A} : Codec A := {|
  Marshall x := bits_of (encode x);
  Unmarshall b := p ← of_bits b; decode p;
|}.

Lemma countable_codec_laws {A} `{Countable A} : @CodecLaws A countable_codec.
Proof. constructor. intros x. cbn. rewrite of_bits_of. cbn. apply decode_encode. Qed.

#[export] Instance RPCArgs_eq_dec : EqDecision RPCArgs.
Proof. solve_decision. Defined.
#[export] Instance RPCArgs_countable : Countable RPCArgs.
Proof.
  by refine (inj_countable' (λ r, (Method r, Args r)) (λ '(m, a), MkRPCArgs m a) _); intros [].
Defined.

#[export] Instance ForwardArgs_eq_dec : EqDecision ForwardArgs.
Proof. solve_decision. Defined.
#[export] Instance ForwardArgs_countable : Countable ForwardArgs.
Proof.
  by refine (inj_countable' (λ a, (fa_Method a, fa_End a, fa_Args a, fa_Id a))
    (λ '(m, e, a, i), MkForwardArgs m e a i) _); intros [].
Defined.

#[export] Instance ForwardReply_eq_dec : EqDecision ForwardReply.
Proof. solve_decision. Defined.
#[export] Instance ForwardReply_countable : Countable ForwardReply.
Proof.
  by refine (inj_countable' (λ r, (fr_Rep r, fr_Ok r)) (λ '(b, k), MkForwardReply b k) _); intros [].
Defined.

#[export] Instance codec_RPCArgs : Codec RPCArgs := countable_codec.
#[export] Instance codec_RPCArgs_laws : CodecLaws RPCArgs := countable_codec_laws.
#[export] Instance codec_ForwardArgs : Codec ForwardArgs := countable_codec.
#[export] Instance codec_ForwardArgs_laws : CodecLaws ForwardArgs := countable_codec_laws.
#[export] Instance codec_ForwardReply : Codec ForwardReply := countable_codec.
#[export] Instance codec_ForwardReply_laws : CodecLaws ForwardReply := countable_codec_laws.

(** ** Runs *)

Lemma daemon_args_roundtrip_witness :
  daemon_args ["--max-raft-state=1"] true "T" 7 1 ["e0"; "e1"; "e2"] =
    ["--max-raft-state=1"; "--raft-state-machine"; "7"; "1"; "3"; "T"; "e0"; "e1"; "e2"] ∧
  InitDaemon_args (daemon_args ["--max-raft-state=1"] true "T" 7 1 ["e0"; "e1"; "e2"]) =
    DArgs 7 1 "T" ["e0"; "e1"; "e2"] "e1".
Proof.
  split; [vm_compute; reflexivity|].
  apply (daemon_args_roundtrip ["--max-raft-state=1"] true "T" 7 1 ["e0"; "e1"; "e2"] "e1");
    [|lia|vm_compute; reflexivity|vm_compute; reflexivity].
  repeat constructor. by eexists.
Defined.

Definition demo_saved : Persister := MkPersister [1; 2] [3].

Lemma demo_handshake :
  rtc (tester_step demo_saved) (MkDaemonSrv MWait [])
    (MkDaemonSrv (MIdle (Some demo_saved)) [HReturned; HReturned]).
Proof.
  eapply rtc_l; [apply t_init|].
  eapply rtc_l; [apply t_run; [by apply (ds_init_main _ 0)|done]|].
  eapply rtc_l; [apply t_run; [apply ds_make|done]|]. eapply rtc_l; [apply t_wait|].
  eapply rtc_l; [apply t_run; [by apply (ds_signal _ 1)|done]|]. apply rtc_refl.
Qed.

Lemma init_handshake_witness :
  ds_main (MkDaemonSrv (MIdle (Some demo_saved)) [HReturned; HReturned]) = MIdle (Some demo_saved).
Proof. apply (init_handshake demo_saved _ demo_handshake). reflexivity. Defined.

(** A caller in a process calls through the counter network of
    [LabRpcTheorems.v]. *)
Definition counted : LabRpc.World string Z := world_after served_events.

Lemma forward_transparent_witness :
  Forward_result 0 counted = Some ([6], true) ∧
  (r' ← ds_forward_result (MkReply (Forward_reply ([6], true)) true false);
   Some (Call_forwarded (λ _ _, r') (λ b, Some b) [] "C.Add" [1])) = Call_result (λ b, Some b) [] 0 counted.
Proof.
  assert (Forward_result 0 counted = Some ([6], true)) as Hr by (vm_compute; reflexivity).
  split; [exact Hr|].
  exact (proj1 (proj2 (forward_transparent (λ b, Some b) [] 0 "end" "C.Add" [1] counter_net counted 0
    ([6], true) ltac:(vm_compute; done) Hr))).
Defined.
