(* ===== verification/Group.v ===== *)
(** * Server groups

    [src/src/tester1/group.go], [srv.go] and the calls of [daemonclnt.go]: the groups of
    servers a test runs, the ends through which they reach each other, and the
    processes behind them.  The network is that of [LabRpc.v]; its servers
    forward to processes, which live in its heap.  [None] is a panic or
    [log.Fatalf]. *)
From S2P Require Import Prelude Strs Persister LabRpc Daemon.

(** [for _, k := range l], or over the indices of a slice. *)
Fixpoint for_each {A S} (l : list A) (body : A → S → option S) (s : S) : option S :=
  match l with
  | [] => Some s
  | x :: l => s ← body x s; for_each l body s
  end.

Definition ServerName (gid i : Z) : string := "server-" +:+ Itoa gid +:+ "-" +:+ Itoa i.

(** What a program of [main] runs in a process: its services answer a request,
    which may change what the process has persisted. *)
Class Program (D : Type) := {
  prog_start : list string → Z → Z → Persister → D;
  prog_call : string → bytes → Persister * D → (Persister * D) * (bytes * bool);
  prog_heap : D → Z;
}.

Section Group.
Context `{!Program D}.

(** A process, or one that was killed. *)
Definition Process : Type := option (Persister * D).

(** [dc.forward]: a call to a killed process fails. *)
Definition forward (method : string) (args : bytes) (p : Process) : Process * (bytes * bool) :=
  match p with
  | Some p => let '(p, r) := prog_call method args p in (Some p, r)
  | None => (None, ([], false))
  end.

Implicit Types (rn : Network string) (w : World string Process).

(** ** srv.go

    [dc] is the address of the server that forwards to the process. *)
Record Server := MkServer { saved : option Persister; endNames : list string; dc : option nat }.

(** [rnd j] is the [j]th draw of [Randstring(20)]. *)
Definition makeServer (rnd : nat → string) (gid nsrv : Z) rn : option (Server * Network string) :=
  rn ← for_each (seq 0 (Z.to_nat nsrv)) (λ j rn,
         rn ← MakeEnd (rnd j) rn; Some (Connect (rnd j) (ServerName gid (Z.of_nat j)) rn)) rn;
  Some (MkServer None (rnd <$> seq 0 (Z.to_nat nsrv)) None, rn).

Definition startServer (rnd : nat → string) (gid : Z) (s : Server) rn
    : option (Server * Network string) :=
  '(srv, rn) ← makeServer rnd gid (len (endNames s)) rn;
  Some (MkServer (Some (default MakePersister (saved s))) (endNames srv) (dc srv), rn).

(** [conn] is what [sg.IsConnected] answers. *)
Definition srv_connect (conn : list bool) (to : list Z) (s : Server) rn : option (Network string) :=
  for_each to (λ j rn,
    c ← go_index conn j;
    if c : bool then endname ← go_index (endNames s) j; Some (Enable endname true rn)
    else Some rn) rn.

Definition srv_disconnect (from : list Z) (s : Server) rn : option (Network string) :=
  for_each from (λ j rn,
    endname ← go_index (endNames s) j; Some (Enable endname false rn)) rn.

(** The process a server forwards to; [None] when it is gone. *)
Definition process (a : nat) (hp : gmap nat (LabRpc.Server Process)) : option (Persister * D) :=
  rs ← hp !! a; s_state rs.

(** [checkpointPersister], which is fatal without an answer, and [kill]. *)
Definition checkpointPersister (a : nat) (hp : gmap nat (LabRpc.Server Process)) : option Persister :=
  '(p, _) ← process a hp;
  let '(raftstate, snapshot) := CheckpointPersister p in
  Some (Save MakePersister raftstate snapshot).

Definition kill (a : nat) (hp : gmap nat (LabRpc.Server Process)) : gmap nat (LabRpc.Server Process) :=
  alter (λ rs, LabRpc.MkServer (services rs) (s_count rs) (dispatchf rs) None) a hp.

Definition shutdownServer (s : Server) (hp : gmap nat (LabRpc.Server Process))
    : option (Server * gmap nat (LabRpc.Server Process)) :=
  match dc s with
  | Some a => p ← checkpointPersister a hp; Some (MkServer (Some p) (endNames s) None, kill a hp)
  | None => Some (s, hp)
  end.

(** [dc.stateSize], fatal without an answer, or the size of what was saved. *)
Definition raftSize (hp : gmap nat (LabRpc.Server Process)) (s : Server) : option Z :=
  match dc s with
  | Some a => '(p, _) ← process a hp; Some (StateSize p).1
  | None => RaftStateSize <$> saved s
  end.

Definition snapshotSize (hp : gmap nat (LabRpc.Server Process)) (s : Server) : option Z :=
  match dc s with
  | Some a => '(p, _) ← process a hp; Some (StateSize p).2
  | None => SnapshotSize <$> saved s
  end.

Definition memSize (hp : gmap nat (LabRpc.Server Process)) (s : Server) : option Z :=
  a ← dc s; '(_, d) ← process a hp; Some (prog_heap d).

(** ** group.go: a group *)

Record ServerGrp := MkServerGrp {
  srvs : list Server;
  servernames : list string;
  gid : Z;
  connected : list bool;
}.

Definition set_srvs (ss : list Server) (sg : ServerGrp) : ServerGrp :=
  MkServerGrp ss (servernames sg) (gid sg) (connected sg).
Definition set_connected (c : list bool) (sg : ServerGrp) : ServerGrp :=
  MkServerGrp (srvs sg) (servernames sg) (gid sg) c.

Definition makeSrvGrp (rnd : nat → nat → string) (gid n : Z) rn
    : option (ServerGrp * Network string) :=
  '(ss, rn) ← for_each (seq 0 (Z.to_nat n)) (λ i '(ss, rn),
                '(s, rn) ← makeServer (rnd i) gid n rn; Some (ss ++ [s], rn)) ([], rn);
  Some (MkServerGrp ss ((λ i, ServerName gid (Z.of_nat i)) <$> seq 0 (Z.to_nat n)) gid
          (replicate (Z.to_nat n) false), rn).

Definition N (sg : ServerGrp) : Z := len (srvs sg).
Definition SrvName (i : Z) (sg : ServerGrp) : option string := go_index (servernames sg) i.
Definition SrvNamesTo (to : list Z) (sg : ServerGrp) : option (list string) :=
  mapM (λ i, go_index (servernames sg) i) to.
Definition all (sg : ServerGrp) : list Z := Z.of_nat <$> seq 0 (length (srvs sg)).
Definition IsConnected (i : Z) (sg : ServerGrp) : option bool := go_index (connected sg) i.

Definition connect (i : Z) (to : list Z) (st : ServerGrp * Network string)
    : option (ServerGrp * Network string) :=
  let '(sg, rn) := st in
  conn ← go_set (connected sg) i true;
  s ← go_index (srvs sg) i;
  rn ← srv_connect conn to s rn;
  rn ← for_each to (λ j rn,
         c ← go_index conn j;
         if c : bool then
           s ← go_index (srvs sg) j; endname ← go_index (endNames s) i;
           Some (Enable endname true rn)
         else Some rn) rn;
  Some (set_connected conn sg, rn).

Definition disconnect (i : Z) (from : list Z) (st : ServerGrp * Network string)
    : option (ServerGrp * Network string) :=
  let '(sg, rn) := st in
  conn ← go_set (connected sg) i false;
  s ← go_index (srvs sg) i;
  rn ← srv_disconnect from s rn;
  rn ← for_each from (λ j rn,
         s ← go_index (srvs sg) j; endname ← go_index (endNames s) i;
         Some (Enable endname false rn)) rn;
  Some (set_connected conn sg, rn).

Definition ConnectOne (i : Z) (st : ServerGrp * Network string) : option (ServerGrp * Network string) :=
  connect i (all st.1) st.
Definition ConnectAll (st : ServerGrp * Network string) : option (ServerGrp * Network string) :=
  for_each (all st.1) ConnectOne st.
Definition DisconnectAll (i : Z) (st : ServerGrp * Network string)
    : option (ServerGrp * Network string) := disconnect i (all st.1) st.

Definition Partition (p1 p2 : list Z) (st : ServerGrp * Network string)
    : option (ServerGrp * Network string) :=
  st ← for_each p1 (λ i st, st ← disconnect i p2 st; connect i p1 st) st;
  for_each p2 (λ i st, st ← disconnect i p1 st; connect i p2 st) st.

(** The loop of [MakePartition] over [i]; [j] counts the servers other than
    [l] placed so far. *)
Fixpoint partition_loop (todo : list Z) (l : Z) (p1 p2 : list Z) (j : Z) : option (list Z * list Z) :=
  match todo with
  | [] => p2 ← go_set p2 (len p2 - 1) l; Some (p1, p2)
  | i :: todo =>
      if decide (i = l) then partition_loop todo l p1 p2 j
      else if decide (j < len p1) then
        p1 ← go_set p1 j i; partition_loop todo l p1 p2 (j + 1)
      else
        p2 ← go_set p2 (j - len p1) i; partition_loop todo l p1 p2 (j + 1)
  end.

Definition MakePartition (l : Z) (sg : ServerGrp) : option (list Z * list Z) :=
  let n := len (srvs sg) in
  partition_loop (all sg) l (replicate (Z.to_nat (n / 2 + 1)) 0) (replicate (Z.to_nat (n / 2)) 0) 0.

(** The largest of the sizes of the servers; a size starts at 0. *)
Definition max_size (size : Server → option Z) (sg : ServerGrp) : option Z :=
  for_each (srvs sg) (λ s m, n ← size s; Some (if decide (n > m) then n else m)) 0.

Definition MemSize hp (sg : ServerGrp) : option Z := max_size (memSize hp) sg.
Definition RaftSize hp (sg : ServerGrp) : option Z := max_size (raftSize hp) sg.
Definition GrpSnapshotSize hp (sg : ServerGrp) : option Z := max_size (snapshotSize hp) sg.

Definition RpcCount (server : Z) (sg : ServerGrp) w : option Z :=
  GetCount (ServerName (gid sg) server) (heap w) (net w).

(** ** Starting and stopping servers *)

(** [runDaemon] may fail ([started] is false): then the server has new ends and
    no process.  Otherwise [a] is the address of [labsrv], and the process gets
    the saved state with [dc.init]. *)
Definition StartServer (rnd : nat → string) (started : bool) (a : nat) (i : Z)
    (st : ServerGrp * World string Process) : option (ServerGrp * World string Process) :=
  let '(sg, w) := st in
  s ← go_index (srvs sg) i;
  '(srv, rn) ← startServer rnd (gid sg) s (net w);
  ss ← go_set (srvs sg) i srv;
  if started then
    p ← saved srv;
    let p := Init (ReadRaftState p) (ReadSnapshot p) in
    let labsrv := SetDispatch forward
      (LabRpc.MakeServer (Some (p, prog_start (endNames srv) (gid sg) i p))) in
    ss ← go_set ss i (MkServer (saved srv) (endNames srv) (Some a));
    Some (set_srvs ss sg,
          set_heap (<[a := labsrv]> (heap w)) (set_net (AddServer (ServerName (gid sg) i) a rn) w))
  else Some (set_srvs ss sg, set_net rn w).

(** [rnds], [started] and [addr] give the draws, the outcome and the address of
    each server that is started. *)
Definition StartSrvs (rnds : Z → nat → string) (started : Z → bool) (addr : Z → nat) (l : list Z)
    (st : ServerGrp * World string Process) : option (ServerGrp * World string Process) :=
  for_each l (λ i, StartServer (rnds i) (started i) (addr i) i) st.

(** An operation on the network only. *)
Definition on_net (f : ServerGrp * Network string → option (ServerGrp * Network string))
    (st : ServerGrp * World string Process) : option (ServerGrp * World string Process) :=
  '(sg, rn) ← f (st.1, net st.2); Some (sg, set_net rn st.2).

Definition StartServers rnds started addr (st : ServerGrp * World string Process)
    : option (ServerGrp * World string Process) :=
  st ← StartSrvs rnds started addr (all st.1) st; on_net ConnectAll st.

(** The two halves of [ShutdownServer]: first no call reaches the server, then
    its process is asked for its state and killed. *)
Definition isolate (i : Z) (st : ServerGrp * World string Process)
    : option (ServerGrp * World string Process) :=
  '(sg, w) ← on_net (disconnect i (all st.1)) st;
  Some (sg, set_net (DeleteServer (ServerName (gid sg) i) (net w)) w).

Definition stop_process (i : Z) (st : ServerGrp * World string Process)
    : option (ServerGrp * World string Process) :=
  let '(sg, w) := st in
  s ← go_index (srvs sg) i;
  '(s, hp) ← shutdownServer s (heap w);
  ss ← go_set (srvs sg) i s;
  Some (set_srvs ss sg, set_heap hp w).

(** The two steps of [shutdownServer] on a server that runs; the process goes on
    between them ([shutdown_steps] of [GroupOwners.v]). *)
Definition checkpoint_server (i : Z) (st : ServerGrp * World string Process)
    : option (ServerGrp * World string Process) :=
  s ← go_index (srvs st.1) i; a ← dc s; p ← checkpointPersister a (heap st.2);
  ss ← go_set (srvs st.1) i (MkServer (Some p) (endNames s) (dc s));
  Some (set_srvs ss st.1, st.2).

Definition kill_server (i : Z) (st : ServerGrp * World string Process)
    : option (ServerGrp * World string Process) :=
  s ← go_index (srvs st.1) i; a ← dc s;
  ss ← go_set (srvs st.1) i (MkServer (saved s) (endNames s) None);
  Some (set_srvs ss st.1, set_heap (kill a (heap st.2)) st.2).

Definition ShutdownServer (i : Z) (st : ServerGrp * World string Process)
    : option (ServerGrp * World string Process) := st ← isolate i st; stop_process i st.

Definition Kill (l : list Z) (st : ServerGrp * World string Process)
    : option (ServerGrp * World string Process) := for_each l ShutdownServer st.
Definition Shutdown (st : ServerGrp * World string Process)
    : option (ServerGrp * World string Process) := Kill (all st.1) st.

(** ** group.go: the groups *)

Definition Groups : Type := gmap Z ServerGrp.
Definition newGroups : Groups := ∅.

Definition MakeGroup (rnd : nat → nat → string) (gid nsrv : Z) (gs : Groups) w
    : option (Groups * World string Process) :=
  '(sg, rn) ← makeSrvGrp rnd gid nsrv (net w); Some (<[gid := sg]> gs, set_net rn w).

Definition lookupGroup (gid : Z) (gs : Groups) : option ServerGrp := gs !! gid.
Definition delete_group (gid : Z) (gs : Groups) : Groups := delete gid gs.

(** An operation on group [gid], which is nil when it is not there. *)
Definition with_group (gid : Z)
    (f : ServerGrp * World string Process → option (ServerGrp * World string Process))
    (st : Groups * World string Process) : option (Groups * World string Process) :=
  sg ← lookupGroup gid st.1; '(sg, w) ← f (sg, st.2); Some (<[gid := sg]> st.1, w).

(** [order] is the order in which the map is visited. *)
Definition groups_cleanup (order : list Z) (st : Groups * World string Process)
    : option (Groups * World string Process) := for_each order (λ gid, with_group gid Shutdown) st.
End Group.
