(* ===== verification/GroupTheorems.v ===== *)
(** * What groups of servers promise

    Theorems about [Group.v]: names are distinct, a partition separates and only
    separates, a restarted server gets back what its process had saved, and a
    run of a group is a run of the network of [LabRpc.v]. *)
From Stdlib Require Import Ascii.
From S2P Require Import Prelude Strs Persister LabRpc LabRpcTheorems Group.

(** ** Names *)

(** Distinct servers have distinct names. *)
Theorem ServerName_inj gid i gid' i' :
  ServerName gid i = ServerName gid' i' → gid = gid' ∧ i = i'.
Proof.
  unfold ServerName. intros H%(inj _).
  assert (∀ z : Z, has_dash (Itoa (Z.abs z)) = false) as Hnd.
  { intros z. rewrite Itoa_nonneg by lia. eapply parse_no_dash, parse_pretty. }
  assert (∀ z, Itoa z = (if decide (z < 0) then "-" else "") +:+ Itoa (Z.abs z)) as Habs by (by intros []).
  rewrite (Habs gid), (Habs gid') in H. pose proof (Hnd gid) as H1. pose proof (Hnd gid') as H2.
  assert (∀ z, ∃ c s, Itoa (Z.abs z) = String c s ∧ c ≠ "-"%char) as Hhd.
  { intros z. specialize (Hnd z). pose proof (pretty_N_ne_empty (Z.to_N (Z.abs z))) as Hne.
    rewrite <-Itoa_nonneg in Hne by lia. destruct (Itoa (Z.abs z)) as [|c s]; [done|]. exists c, s.
    split; [done|]. intros ->. by cbn in Hnd. }
  assert (Z.abs gid = Z.abs gid' ∧ (gid < 0 ↔ gid' < 0) ∧ i = i') as (? & ? & ?); [|split; lia].
  destruct (Hhd gid) as (c & s & Hc & ?), (Hhd gid') as (c' & s' & Hc' & ?).
  destruct (decide (gid < 0)), (decide (gid' < 0)).
  - change ("-" +:+ (Itoa (Z.abs gid) +:+ "-" +:+ Itoa i) =
            "-" +:+ (Itoa (Z.abs gid') +:+ "-" +:+ Itoa i')) in H.
    apply (inj (String.append "-")) in H. destruct (dash_split _ _ _ _ H1 H2 H) as [?%(inj _) ?%(inj _)]. done.
  - rewrite Hc' in H. by injection H.
  - rewrite Hc in H. by injection H.
  - destruct (dash_split _ _ _ _ H1 H2 H) as [?%(inj _) ?%(inj _)]. split; [done|]. split; [lia|done].
Qed.

(** ** Partitions *)

Definition set_enabled (en : gmap string bool) (rn : Network string) : Network string :=
  set_ends (ends rn) en (connections rn) rn.

Lemma set_enabled_same rn : set_enabled (enabled rn) rn = rn.
Proof. by destruct rn. Qed.

(** A loop that enables or disables some ends. *)
Lemma for_each_enable {A} (on : A → option string) v (l : list A) body rn :
  (∀ x rn, x ∈ l → body x rn =
     Some (match on x with Some e => Enable e v rn | None => rn end)) →
  ∃ en, for_each l body rn = Some (set_enabled en rn) ∧
    ∀ e, en !! e = if decide (Some e ∈ on <$> l) then Some v else enabled rn !! e.
Proof.
  revert rn. induction l as [|x l IH]; intros rn Hb; cbn [for_each].
  - exists (enabled rn). rewrite set_enabled_same. split; [done|]. intros e.
    by rewrite decide_False by apply not_elem_of_nil.
  - rewrite Hb by set_solver. cbn [mbind option_bind].
    destruct (IH (match on x with Some e => Enable e v rn | None => rn end)) as (en & Hen & Hl);
      [set_solver|].
    exists en. split; [rewrite Hen; by destruct (on x)|]. intros e. rewrite Hl.
    destruct (decide (Some e ∈ on <$> l)) as [Hin|Hin]; [by rewrite decide_True by set_solver|].
    destruct (on x) as [e'|] eqn:Hx; cbn.
    + destruct (decide (e' = e)) as [->|Hne].
      * rewrite lookup_insert_eq, decide_True; [done|]. rewrite Hx. set_solver.
      * rewrite lookup_insert_ne, decide_False; [done| |done]. rewrite Hx. set_solver.
    + rewrite decide_False; [done|]. rewrite Hx. set_solver.
Qed.

Section Partitions.
Context `{!Program D}.

(** The end through which server [i] reaches server [j]. *)
Definition end_of (sg : ServerGrp) (i j : Z) : option string :=
  s ← go_index (srvs sg) i; go_index (endNames s) j.

Record group_shape (sg : ServerGrp) : Prop := {
  sh_conn : len (connected sg) = N sg;
  sh_ends i s : go_index (srvs sg) i = Some s → len (endNames s) = N sg;
  sh_inj i j i' j' e : end_of sg i j = Some e → end_of sg i' j' = Some e → i = i' ∧ j = j';
}.

Definition member (sg : ServerGrp) (i : Z) : Prop := 0 <= i < N sg.

Lemma end_of_some sg i j :
  group_shape sg → member sg i → member sg j →
  ∃ s e, go_index (srvs sg) i = Some s ∧ go_index (endNames s) j = Some e ∧ end_of sg i j = Some e.
Proof.
  intros Hs Hi Hj. destruct (go_index_some (srvs sg) i Hi) as [s Hsi].
  destruct (go_index_some (endNames s) j) as [e He].
  { by rewrite (sh_ends _ Hs _ _ Hsi). }
  exists s, e. unfold end_of. by rewrite Hsi.
Qed.

Lemma go_set_index {A} (l : list A) i x l' j :
  go_set l i x = Some l' → go_index l' j = if decide (j = i) then Some x else go_index l j.
Proof.
  unfold go_set, go_index. case_decide as Hi; [|done]. intros [= <-]. unfold len in Hi.
  case_decide; [|rewrite decide_False by lia; done].
  destruct (decide (j = i)) as [->|Hne].
  - rewrite list_lookup_insert_eq by lia. done.
  - rewrite list_lookup_insert_ne by lia. done.
Qed.

(** What connecting or disconnecting server [i] does: the ends between [i] and
    the servers in [l] that satisfy [ok] are set to [v]. *)
Definition linked (ok : Z → bool) (i : Z) (l : list Z) (a b : Z) : Prop :=
  a = i ∧ b ∈ l ∧ ok b = true ∨ b = i ∧ a ∈ l ∧ ok a = true.

Definition ends_set (sg : ServerGrp) (ok : Z → bool) (i : Z) (l : list Z) (v : bool)
    (en en' : gmap string bool) : Prop :=
  (∀ a b e, end_of sg a b = Some e → linked ok i l a b → en' !! e = Some v) ∧
  (∀ e, (∀ a b, end_of sg a b = Some e → ¬ linked ok i l a b) → en' !! e = en !! e).

(** The two loops of [connect] and [disconnect]. *)
Lemma two_loops sg (ok : Z → bool) i l v rn (body1 body2 : Z → Network string → option (Network string)) :
  group_shape sg → member sg i → Forall (member sg) l →
  (∀ j rn, j ∈ l → body1 j rn =
     Some (match (if ok j then end_of sg i j else None) with Some e => Enable e v rn | None => rn end)) →
  (∀ j rn, j ∈ l → body2 j rn =
     Some (match (if ok j then end_of sg j i else None) with Some e => Enable e v rn | None => rn end)) →
  ∃ en, (rn ← for_each l body1 rn; for_each l body2 rn) = Some (set_enabled en rn) ∧
    ends_set sg ok i l v (enabled rn) en.
Proof.
  intros Hs Hi Hl Hb1 Hb2.
  destruct (for_each_enable (λ j, if ok j then end_of sg i j else None) v l body1 rn Hb1)
    as (en1 & H1 & Hen1).
  destruct (for_each_enable (λ j, if ok j then end_of sg j i else None) v l body2
              (set_enabled en1 rn) Hb2) as (en2 & H2 & Hen2).
  exists en2. rewrite H1. cbn [mbind option_bind]. rewrite H2. split; [done|]. cbn in Hen2. split.
  - intros a b e He [(-> & Hin & Hok)|(-> & Hin & Hok)]; rewrite Hen2.
    + case_decide; [done|]. rewrite Hen1, decide_True; [done|].
      apply list_elem_of_fmap. exists b. by rewrite Hok.
    + rewrite decide_True; [done|]. apply list_elem_of_fmap. exists a. by rewrite Hok.
  - intros e He. rewrite Hen2, decide_False, Hen1, decide_False; [done|..].
    + intros (j & Hj & Hin)%list_elem_of_fmap. destruct (ok j) eqn:Hok; [|done].
      apply (He i j); [done|]. by left.
    + intros (j & Hj & Hin)%list_elem_of_fmap. destruct (ok j) eqn:Hok; [|done].
      apply (He j i); [done|]. by right.
Qed.

Definition is_connected (conn : list bool) (j : Z) : bool := default false (go_index conn j).

Lemma disconnect_spec i from sg rn :
  group_shape sg → member sg i → Forall (member sg) from →
  ∃ conn en, disconnect i from (sg, rn) = Some (set_connected conn sg, set_enabled en rn) ∧
    go_set (connected sg) i false = Some conn ∧
    ends_set sg (λ _, true) i from false (enabled rn) en.
Proof.
  intros Hs Hi Hf. assert (0 <= i < len (connected sg)) as Hic by (by rewrite (sh_conn _ Hs)).
  pose proof (go_set_some (connected sg) i false Hic) as Hconn.
  destruct (go_index_some (srvs sg) i Hi) as [s Hsi]. rewrite list.Forall_forall in Hf.
  destruct (two_loops sg (λ _, true) i from false rn
    (λ j rn, endname ← go_index (endNames s) j; Some (Enable endname false rn))
    (λ j rn, s ← go_index (srvs sg) j; endname ← go_index (endNames s) i;
             Some (Enable endname false rn))) as (en & Hen & Hset); [done|done|by apply list.Forall_forall| | |].
  - intros j rn' Hj. destruct (end_of_some sg i j Hs Hi (Hf j Hj)) as (s' & e & Hs' & He & Heo).
    rewrite Heo. assert (s' = s) as -> by congruence. by rewrite He.
  - intros j rn' Hj. destruct (end_of_some sg j i Hs (Hf j Hj) Hi) as (s' & e & Hs' & He & Heo).
    rewrite Heo, Hs'. cbn. by rewrite He.
  - eexists _, en. split; [|done]. unfold disconnect, srv_disconnect. rewrite Hconn, Hsi.
    cbn [mbind option_bind]. apply bind_Some in Hen as (rn1 & H1 & H2). rewrite H1. cbn.
    by rewrite H2.
Qed.

Lemma connect_spec i to sg rn :
  group_shape sg → member sg i → Forall (member sg) to →
  ∃ conn en, connect i to (sg, rn) = Some (set_connected conn sg, set_enabled en rn) ∧
    go_set (connected sg) i true = Some conn ∧
    ends_set sg (is_connected conn) i to true (enabled rn) en.
Proof.
  intros Hs Hi Hf. assert (0 <= i < len (connected sg)) as Hic by (by rewrite (sh_conn _ Hs)).
  pose proof (go_set_some (connected sg) i true Hic) as Hconn.
  set (conn := <[Z.to_nat i := true]> (connected sg)) in *.
  assert (∀ j, member sg j → go_index conn j = Some (is_connected conn j)) as Hc.
  { intros j Hj. unfold is_connected. destruct (go_index_some conn j) as [c ->]; [|done].
    pose proof (sh_conn _ Hs). unfold conn, member, N, len in *. rewrite length_insert. lia. }
  destruct (go_index_some (srvs sg) i Hi) as [s Hsi]. rewrite list.Forall_forall in Hf.
  destruct (two_loops sg (is_connected conn) i to true rn
    (λ j rn, c ← go_index conn j;
       if c : bool then endname ← go_index (endNames s) j; Some (Enable endname true rn) else Some rn)
    (λ j rn, c ← go_index conn j;
       if c : bool then s ← go_index (srvs sg) j; endname ← go_index (endNames s) i;
                        Some (Enable endname true rn) else Some rn))
    as (en & Hen & Hset); [done|done|by apply list.Forall_forall| | |].
  - intros j rn' Hj. rewrite Hc by auto. cbn. destruct (is_connected conn j); [|done].
    destruct (end_of_some sg i j Hs Hi (Hf j Hj)) as (s' & e & Hs' & He & Heo).
    rewrite Heo. assert (s' = s) as -> by congruence. by rewrite He.
  - intros j rn' Hj. rewrite Hc by auto. cbn. destruct (is_connected conn j); [|done].
    destruct (end_of_some sg j i Hs (Hf j Hj) Hi) as (s' & e & Hs' & He & Heo).
    rewrite Heo, Hs'. cbn. by rewrite He.
  - eexists _, en. split; [|done]. unfold connect, srv_connect. rewrite Hconn, Hsi.
    cbn [mbind option_bind]. apply bind_Some in Hen as (rn1 & H1 & H2). fold conn. rewrite H1. cbn.
    by rewrite H2.
Qed.

Lemma shape_set_connected conn sg :
  group_shape sg → len conn = len (connected sg) → group_shape (set_connected conn sg).
Proof. intros [H1 H2 H3] Hl. split; [|done..]. unfold N in *. cbn. congruence. Qed.

Lemma len_go_set {A} (l : list A) i x l' : go_set l i x = Some l' → len l' = len l.
Proof. unfold go_set, len. case_decide; [|done]. intros [= <-]. by rewrite length_insert. Qed.

(** One round of [Partition] for server [i] of part [p]. *)
Definition part_round (p q : list Z) (i : Z) (st : ServerGrp * Network string)
    : option (ServerGrp * Network string) := st ← disconnect i q st; connect i p st.

Definition allowed (en : gmap string bool) (sg : ServerGrp) (a b : Z) (v : bool) : Prop :=
  ∀ e, end_of sg a b = Some e → en !! e = Some v.

(** After the servers [P] of part [p]. *)
Record rounds_done (p q P : list Z) (sg : ServerGrp) (en : gmap string bool) : Prop := {
  rd_conn a : a ∈ P → is_connected (connected sg) a = true;
  rd_cross a b : a ∈ P → b ∈ q → allowed en sg a b false ∧ allowed en sg b a false;
  rd_same a b : a ∈ P → b ∈ P → allowed en sg a b true;
}.

(** A round changes no end but those that leave from or lead to a server of the part. *)
Definition frame_ok (p q : list Z) (sg : ServerGrp) (en en' : gmap string bool) : Prop :=
  ∀ a b e, end_of sg a b = Some e → (a ∈ p → b ∉ p ++ q) → (b ∈ p → a ∉ p ++ q) → en' !! e = en !! e.

Lemma ends_set_other sg ok i l v en en' a b e :
  group_shape sg → ends_set sg ok i l v en en' → end_of sg a b = Some e →
  ¬ linked ok i l a b → en' !! e = en !! e.
Proof.
  intros Hs [_ Hset] He Hl. apply Hset. intros a' b' He' Hl'.
  by destruct (sh_inj _ Hs _ _ _ _ _ He He') as [-> ->].
Qed.

Lemma is_connected_set l i x l' j :
  go_set l i x = Some l' → is_connected l' j = if decide (j = i) then x else is_connected l j.
Proof. intros H. unfold is_connected. rewrite (go_set_index _ _ _ _ j H). by case_decide. Qed.

Lemma part_round_spec p q P i sg rn :
  group_shape sg → Forall (member sg) (p ++ q) → (∀ x, x ∈ p → x ∉ q) → i ∈ p → P ⊆ p →
  rounds_done p q P sg (enabled rn) →
  ∃ conn en, part_round p q i (sg, rn) = Some (set_connected conn sg, set_enabled en rn) ∧
    len conn = len (connected sg) ∧ rounds_done p q (i :: P) (set_connected conn sg) en ∧
    frame_ok p q sg (enabled rn) en.
Proof.
  intros Hs Hm Hpq Hi HP [Hcn Hcr Hsm]. rewrite list.Forall_forall in Hm.
  assert (member sg i) as Hmi by (apply Hm; set_solver).
  assert (Forall (member sg) q) as Hq by (apply list.Forall_forall; set_solver).
  assert (Forall (member sg) p) as Hp by (apply list.Forall_forall; set_solver).
  destruct (disconnect_spec i q sg rn Hs Hmi Hq) as (c1 & en1 & H1 & Hc1 & He1).
  pose proof (shape_set_connected c1 sg Hs (len_go_set _ _ _ _ Hc1)) as Hs1.
  destruct (connect_spec i p (set_connected c1 sg) (set_enabled en1 rn) Hs1 Hmi Hp)
    as (c2 & en2 & H2 & Hc2 & He2).
  exists c2, en2. unfold part_round. rewrite H1. cbn [mbind option_bind]. split; [exact H2|].
  cbn in Hc2, He2. split; [by rewrite (len_go_set _ _ _ _ Hc2), (len_go_set _ _ _ _ Hc1)|].
  assert (∀ j, is_connected c2 j = if decide (j = i) then true else is_connected (connected sg) j) as Hcc.
  { intros j. rewrite (is_connected_set _ _ _ _ j Hc2).
    destruct (decide (j = i)); [done|]. rewrite (is_connected_set _ _ _ _ j Hc1). by rewrite decide_False. }
  (* what the round sets *)
  assert (∀ a b e, end_of sg a b = Some e → ¬ linked (is_connected c2) i p a b →
            linked (λ _, true) i q a b → en2 !! e = Some false) as Hoff.
  { intros a b e He Hl Hq'. rewrite (ends_set_other (set_connected c1 sg) _ _ _ _ _ _ a b e Hs1 He2 He Hl).
    by apply (proj1 He1 a b). }
  assert (∀ a b e, end_of sg a b = Some e → ¬ linked (is_connected c2) i p a b →
            ¬ linked (λ _, true) i q a b → en2 !! e = enabled rn !! e) as Hkeep.
  { intros a b e He Hl Hq'. rewrite (ends_set_other (set_connected c1 sg) _ _ _ _ _ _ a b e Hs1 He2 He Hl).
    by apply (ends_set_other sg _ _ _ _ _ _ a b e Hs He1 He). }
  assert (∀ a b e, end_of sg a b = Some e → linked (is_connected c2) i p a b → en2 !! e = Some true) as Hon.
  { intros a b e He Hl. by apply (proj1 He2 a b). }
  unfold linked in *. split; [split|].
  - intros a Ha. cbn. rewrite Hcc. destruct (decide (a = i)); [done|]. apply Hcn. set_solver.
  - intros a b Ha Hb. unfold allowed. destruct (decide (a = i)) as [->|Hne].
    + split; intros e He; (eapply Hoff; [exact He|naive_solver|naive_solver]).
    + assert (a ∈ P) as HaP by set_solver. destruct (Hcr a b HaP Hb) as [Hab Hba].
      assert (b ≠ i ∧ b ∉ p) as [? ?] by naive_solver.
      assert (a ∉ q) by naive_solver.
      split; intros e He; (rewrite (Hkeep _ _ e He); [by auto|naive_solver|naive_solver]).
  - intros a b Ha Hb e He. change (end_of sg a b = Some e) in He.
    assert (∀ x, x ∈ i :: P → x ∈ p ∧ is_connected c2 x = true) as Hmem.
    { intros x Hx. rewrite Hcc. destruct (decide (x = i)) as [->|]; [done|].
      assert (x ∈ P) by set_solver. split; [set_solver|by apply Hcn]. }
    destruct (Hmem a Ha) as [? ?], (Hmem b Hb) as [? ?].
    destruct (decide (a = i)) as [->|]; [apply (Hon _ _ _ He); auto|].
    destruct (decide (b = i)) as [->|]; [apply (Hon _ _ _ He); auto|].
    rewrite (Hkeep _ _ e He); [apply (Hsm a b); [set_solver|set_solver|done]|naive_solver|naive_solver].
  - intros a b e He Ha Hb. rewrite (Hkeep _ _ e He); [done|set_solver|set_solver].
Qed.

Lemma set_connected_id sg : set_connected (connected sg) sg = sg.
Proof. by destruct sg. Qed.

Lemma part_loop_spec p q l P sg rn :
  group_shape sg → Forall (member sg) (p ++ q) → (∀ x, x ∈ p → x ∉ q) → l ⊆ p → P ⊆ p →
  rounds_done p q P sg (enabled rn) →
  ∃ conn en, for_each l (part_round p q) (sg, rn) = Some (set_connected conn sg, set_enabled en rn) ∧
    len conn = len (connected sg) ∧ rounds_done p q (reverse l ++ P) (set_connected conn sg) en ∧
    frame_ok p q sg (enabled rn) en.
Proof.
  revert P sg rn. induction l as [|i l IH]; intros P sg rn Hs Hm Hpq Hl HP Hd.
  - exists (connected sg), (enabled rn). cbn [for_each].
    rewrite set_connected_id, set_enabled_same. done.
  - destruct (part_round_spec p q P i sg rn) as (c1 & en1 & H1 & Hc1 & Hd1 & Hf1);
      [done|done|done|set_solver|done|done|].
    cbn [for_each]. rewrite H1. cbn [mbind option_bind].
    destruct (IH (i :: P) (set_connected c1 sg) (set_enabled en1 rn)) as (c2 & en2 & H2 & Hc2 & Hd2 & Hf2);
      [by apply shape_set_connected|done|done|set_solver|set_solver|done|].
    exists c2, en2. rewrite H2. split; [done|]. split; [by rewrite Hc2|]. split.
    + by rewrite reverse_cons, <-app_assoc.
    + intros a b e He Ha Hb. rewrite (Hf2 a b e He Ha Hb). by apply (Hf1 a b e).
Qed.

(** [Partition] separates the two parts and only them.  Whatever was
    connected before, afterwards the servers of a part reach each other, no
    server reaches one of the other part, and no other end of the group has
    changed, nor anything else of the network. *)
Theorem Partition_spec p1 p2 sg rn :
  group_shape sg → Forall (member sg) (p1 ++ p2) → (∀ x, x ∈ p1 → x ∉ p2) →
  ∃ conn en, Partition p1 p2 (sg, rn) = Some (set_connected conn sg, set_enabled en rn) ∧
    len conn = len (connected sg) ∧
    ∀ a b e, end_of sg a b = Some e →
      (a ∈ p1 ∧ b ∈ p1 ∨ a ∈ p2 ∧ b ∈ p2 → en !! e = Some true) ∧
      (a ∈ p1 ∧ b ∈ p2 ∨ a ∈ p2 ∧ b ∈ p1 → en !! e = Some false) ∧
      (a ∉ p1 ++ p2 ∨ b ∉ p1 ++ p2 → en !! e = enabled rn !! e).
Proof.
  intros Hs Hm Hpq.
  assert (∀ p q sg en, rounds_done p q [] sg en) as H0.
  { intros. split; intros a; set_solver. }
  destruct (part_loop_spec p1 p2 p1 [] sg rn) as (c1 & en1 & H1 & Hc1 & Hd1 & Hf1);
    [done..|set_solver|set_solver|apply H0|].
  destruct (part_loop_spec p2 p1 p2 [] (set_connected c1 sg) (set_enabled en1 rn))
    as (c2 & en2 & H2 & Hc2 & Hd2 & Hf2);
    [by apply shape_set_connected|by rewrite Permutation_app_comm|set_solver|set_solver|set_solver|apply H0|].
  exists c2, en2. unfold Partition. change (for_each p1 _ (sg, rn)) with (for_each p1 (part_round p1 p2) (sg, rn)).
  rewrite H1. cbn [mbind option_bind].
  split; [exact H2|]. split; [by rewrite Hc2|]. rewrite app_nil_r in Hd1, Hd2.
  destruct Hd1 as [_ _ Hsame1], Hd2 as [_ Hcross Hsame2]. intros a b e He.
  split; [|split].
  - intros [[Ha Hb]|[Ha Hb]].
    + transitivity (en1 !! e); [apply (Hf2 a b e He); set_solver|]. apply (Hsame1 a b); [by apply elem_of_reverse..|done].
    + apply (Hsame2 a b); [by apply elem_of_reverse..|done].
  - intros [[Ha Hb]|[Ha Hb]].
    + destruct (Hcross b a) as [_ H]; [by apply elem_of_reverse|done|]. by apply H.
    + destruct (Hcross a b) as [H _]; [by apply elem_of_reverse|done|]. by apply H.
  - intros Hab. transitivity (en1 !! e); [apply (Hf2 a b e He)|apply (Hf1 a b e He)]; set_solver.
Qed.
End Partitions.

(** ** Choosing a partition *)

Lemma insert_take_drop {A} (l : list A) (j : nat) x :
  (j < length l)%nat → take (S j) (<[j := x]> l) = take j l ++ [x] ∧ drop (S j) (<[j := x]> l) = drop (S j) l.
Proof.
  intros Hj. rewrite insert_take_drop by done. split.
  - rewrite cons_middle, app_assoc, take_app_le by (rewrite length_app, length_take; cbn; lia).
    apply take_ge. rewrite length_app, length_take. cbn. lia.
  - rewrite cons_middle, app_assoc, drop_app_ge by (rewrite length_app, length_take; cbn; lia).
    rewrite length_app, length_take. cbn. by replace (S j - (j `min` length l + 1))%nat with 0%nat by lia.
Qed.

Lemma partition_loop_spec todo l p1 p2 (j : nat) :
  let others := filter (λ i, i ≠ l) todo in
  (j + length others < length (p1 ++ p2))%nat → p2 ≠ [] →
  ∃ q1 q2, partition_loop todo l p1 p2 (Z.of_nat j) = Some (q1, q2) ∧
    length q1 = length p1 ∧ length q2 = length p2 ∧
    q1 ++ q2 = <[(length (p1 ++ p2) - 1)%nat := l]>
      (take j (p1 ++ p2) ++ others ++ drop (j + length others) (p1 ++ p2)).
Proof.
  revert p1 p2 j. induction todo as [|i todo IH]; intros p1 p2 j others Hj Hp2.
  - cbn. assert (0 < length p2)%nat by (destruct p2; [done|cbn; lia]).
    rewrite go_set_some by (unfold len; lia). cbn. eexists _, _. split; [done|].
    rewrite length_insert. split; [done|]. split; [done|].
    rewrite Nat.add_0_r, take_drop, length_app, insert_app_r_alt by lia.
    f_equal. f_equal. unfold len. lia.
  - cbn [partition_loop]. destruct (decide (i = l)) as [->|Hil].
    + subst others. rewrite filter_cons_False in Hj |- * by naive_solver. by apply IH.
    + subst others. rewrite filter_cons_True in Hj |- * by done. cbn [length] in Hj |- *.
      set (others := filter _ todo) in *.
      assert (j < length (p1 ++ p2))%nat as Hlt by lia.
      destruct (insert_take_drop (p1 ++ p2) j i Hlt) as [Htake Hdrop].
      assert (∀ L : list Z, length L = length (p1 ++ p2) → L = <[j := i]> (p1 ++ p2) →
        take (S j) L ++ others ++ drop (S j + length others) L =
        take j (p1 ++ p2) ++ (i :: others) ++ drop (j + S (length others)) (p1 ++ p2)) as Hstep.
      { intros L _ ->. rewrite Htake, <-app_assoc. cbn. do 3 f_equal.
        rewrite <-(drop_drop (<[j := i]> (p1 ++ p2)) (length others) (S j)), Hdrop, drop_drop. f_equal. lia. }
      replace (Z.of_nat j + 1) with (Z.of_nat (S j)) by lia.
      rewrite length_app in Hlt, Hj.
      destruct (decide (Z.of_nat j < len p1)) as [H1|H1]; unfold len in H1.
      * rewrite go_set_some by (unfold len; lia). cbn [mbind option_bind]. rewrite Nat2Z.id.
        destruct (IH (<[j := i]> p1) p2 (S j)) as (q1 & q2 & Hq & Hl1 & Hl2 & Happ);
          [rewrite length_app, length_insert; lia|done|].
        exists q1, q2. split; [exact Hq|]. rewrite length_insert in Hl1. split; [done|]. split; [done|].
        rewrite Happ. rewrite !length_app, length_insert. f_equal.
        apply Hstep; [by rewrite !length_app, length_insert|by rewrite insert_app_l by lia].
      * rewrite go_set_some by (unfold len; lia). cbn [mbind option_bind].
        replace (Z.to_nat (Z.of_nat j - len p1)) with (j - length p1)%nat by (unfold len; lia).
        destruct (IH p1 (<[(j - length p1)%nat := i]> p2) (S j)) as (q1 & q2 & Hq & Hl1 & Hl2 & Happ).
        { rewrite length_app, length_insert. lia. }
        { intros H%(f_equal length). rewrite length_insert in H. by destruct p2. }
        exists q1, q2. split; [exact Hq|]. rewrite length_insert in Hl2. split; [done|]. split; [done|].
        rewrite Happ. rewrite !length_app, length_insert. f_equal.
        apply Hstep; [by rewrite !length_app, length_insert|].
        by rewrite insert_app_r_alt by lia.
Qed.

Lemma filter_ne_perm {A} `{!EqDecision A} (k : list A) x :
  NoDup k → x ∈ k → k ≡ₚ x :: filter (λ i, i ≠ x) k.
Proof.
  intros Hnd Hx. apply NoDup_Permutation; [done| |].
  - apply list.NoDup_cons. split; [|by apply list.NoDup_filter]. rewrite list_elem_of_filter. naive_solver.
  - intros y. rewrite elem_of_cons, list_elem_of_filter. destruct (decide (y = x)); naive_solver.
Qed.

Section MakePartition.
Context `{!Program D}.

Lemma elem_of_all sg i : i ∈ all sg ↔ member sg i.
Proof.
  unfold all, member, N, len. split.
  - intros (k & -> & Hk%elem_of_seq)%list_elem_of_fmap. lia.
  - intros Hi. apply list_elem_of_fmap. exists (Z.to_nat i). rewrite elem_of_seq. lia.
Qed.

Lemma NoDup_all sg : NoDup (all sg).
Proof. apply NoDup_fmap_2; [intros ?? ?; lia|apply NoDup_seq]. Qed.

Lemma MakePartition_shape l sg :
  2 <= N sg → member sg l →
  ∃ p1 p2, MakePartition l sg = Some (p1, p2) ∧
    len p1 = N sg / 2 + 1 ∧ len p2 = N sg / 2 ∧
    p1 ++ p2 = filter (λ i, i ≠ l) (all sg) ++ replicate (Z.to_nat (2 * (N sg / 2) + 1 - N sg)) 0 ++ [l].
Proof.
  intros Hn Hl. pose proof (filter_ne_perm (all sg) l (NoDup_all sg) (proj2 (elem_of_all sg l) Hl)) as Hperm.
  apply Permutation_length in Hperm. cbn in Hperm.
  assert (length (all sg) = Z.to_nat (N sg)) as Hall.
  { unfold all, N, len. rewrite length_fmap, length_seq. lia. }
  set (others := filter (λ i, i ≠ l) (all sg)) in *.
  pose proof (Z.div_mod (N sg) 2 ltac:(lia)) as Hdm. pose proof (Z.mod_pos_bound (N sg) 2 ltac:(lia)).
  unfold MakePartition. change (len (srvs sg)) with (N sg).
  set (h := N sg / 2) in *.
  destruct (partition_loop_spec (all sg) l (replicate (Z.to_nat (h + 1)) 0) (replicate (Z.to_nat h) 0) 0)
    as (q1 & q2 & Hq & Hl1 & Hl2 & Happ).
  { rewrite length_app, !length_replicate. fold others. lia. }
  { destruct (Z.to_nat h) eqn:?; [lia|done]. }
  exists q1, q2. split; [exact Hq|]. rewrite !length_replicate in *. unfold len.
  split; [lia|]. split; [lia|]. rewrite Happ. fold others.
  rewrite length_app, !length_replicate, take_0. cbn [app].
  rewrite <-replicate_add, drop_replicate.
  replace (Z.to_nat (h + 1) + Z.to_nat h - (0 + length others))%nat
    with (Z.to_nat (2 * h + 1 - N sg) + 1)%nat by lia.
  rewrite insert_app_r_alt by lia. f_equal.
  rewrite replicate_add, insert_app_r_alt by (rewrite length_replicate; lia).
  rewrite length_replicate. f_equal.
  by replace (Z.to_nat (h + 1) + Z.to_nat h - 1 - length others - Z.to_nat (2 * h + 1 - N sg))%nat
    with 0%nat by lia.
Qed.

(** With an odd number of servers, [MakePartition] splits them in two, a
    majority that does not hold [l], and a minority that does. *)
Theorem MakePartition_spec l sg :
  3 <= N sg → N sg `mod` 2 = 1 → member sg l →
  ∃ p1 p2, MakePartition l sg = Some (p1, p2) ∧ p1 ++ p2 ≡ₚ all sg ∧
    (∀ i, i ∈ p1 → i ∉ p2) ∧ len p1 = N sg / 2 + 1 ∧ l ∈ p2.
Proof.
  intros Hn Hodd Hl. destruct (MakePartition_shape l sg) as (p1 & p2 & Hp & Hl1 & Hl2 & Happ); [lia|done|].
  exists p1, p2. split; [done|].
  pose proof (Z.div_mod (N sg) 2 ltac:(lia)) as Hdm.
  replace (Z.to_nat (2 * (N sg / 2) + 1 - N sg)) with 0%nat in Happ by lia. cbn [replicate app] in Happ.
  assert (p1 ++ p2 ≡ₚ all sg) as Hperm.
  { rewrite Happ, (Permutation_app_comm _ [l]). symmetry. apply filter_ne_perm; [apply NoDup_all|].
    by apply elem_of_all. }
  split; [done|]. pose proof (NoDup_all sg) as Hnd. rewrite <-Hperm in Hnd.
  apply list.NoDup_app in Hnd as (_ & Hdis & _). split; [done|]. split; [done|].
  destruct p2 as [|x p2 _] using rev_ind; [unfold len in Hl2; cbn [length app] in Hl2; lia|].
  rewrite app_assoc in Happ. apply app_inj_tail in Happ as [_ ->]. set_solver.
Qed.

(** With an even number of servers the last entry but one of the second part is
    never written: server 0 is in both parts. *)
Theorem MakePartition_even l sg :
  4 <= N sg → N sg `mod` 2 = 0 → member sg l → l ≠ 0 →
  ∃ p1 p2, MakePartition l sg = Some (p1, p2) ∧ 0 ∈ p1 ∧ 0 ∈ p2.
Proof.
  intros Hn Heven Hl Hl0.
  destruct (MakePartition_shape l sg) as (p1 & p2 & Hp & Hl1 & Hl2 & Happ); [lia|done|].
  exists p1, p2. split; [done|].
  pose proof (Z.div_mod (N sg) 2 ltac:(lia)) as Hdm.
  replace (Z.to_nat (2 * (N sg / 2) + 1 - N sg)) with 1%nat in Happ by lia.
  split.
  - destruct p1 as [|x p1]; [unfold len in Hl1; cbn [length] in Hl1; lia|].
    assert (∃ k, all sg = 0 :: k) as [k Hk].
    { unfold all, N, len in *. destruct (srvs sg); [cbn in Hn; lia|]. cbn. by eexists. }
    rewrite Hk, filter_cons_True in Happ by done. injection Happ as -> _. set_solver.
  - destruct p2 as [|x p2 _] using rev_ind; [unfold len in Hl2; cbn [length app] in Hl2; lia|].
    destruct p2 as [|y p2 _] using rev_ind; [unfold len in Hl2; cbn [length app] in Hl2; lia|].
    cbn [replicate app] in Happ. rewrite (app_assoc p1), (app_assoc _ [0] [l]) in Happ.
    apply app_inj_tail in Happ as [Happ _]. rewrite (app_assoc p1) in Happ.
    apply app_inj_tail in Happ as [_ ->]. set_solver.
Qed.
End MakePartition.
