(* ===== verification/GroupRun.v ===== *)
(** * Runs of a server group

    A group of [Group.v] run by a test on the network of [LabRpc.v], with
    requests in flight and processes that change what they persist: its
    invariant, crash and restart, and calls across a partition. *)
From S2P Require Import Prelude Strs Persister LabRpc LabRpcTheorems Daemon Group GroupTheorems.

Section GroupRun.
Context `{!Program D}.
Abbreviation GWorld := (World string (Process (D := D))).
Implicit Types (sg : ServerGrp) (w : GWorld).

(** ** Steps *)

(** What a test may do to a group, and what happens around it: an event of the
    network, or process [a] going on to [p]. *)
Inductive GOp :=
| GConnect (i : Z) (to : list Z)
| GDisconnect (i : Z) (from : list Z)
| GPartition (p1 p2 : list Z)
| GStart (rnd : nat → string) (started : bool) (a : nat) (i : Z)
| GIsolate (i : Z)
| GStop (i : Z)
| GEvent (e : Event string (Process (D := D)))
| GProc (a : nat) (p : Persister * D).

Definition proc_set (a : nat) (p : Persister * D) (rs : LabRpc.Server (Process (D := D)))
    : LabRpc.Server Process := LabRpc.MkServer (services rs) (s_count rs) (dispatchf rs) (Some p).

Definition g_op (o : GOp) (st : ServerGrp * GWorld) : option (ServerGrp * GWorld) :=
  match o with
  | GConnect i to => on_net (connect i to) st
  | GDisconnect i from => on_net (disconnect i from) st
  | GPartition p1 p2 => on_net (Partition p1 p2) st
  | GStart rnd started a i => StartServer rnd started a i st
  | GIsolate i => isolate i st
  | GStop i => stop_process i st
  | GEvent e => w ← happen e st.2; Some (st.1, w)
  | GProc a p =>
      rs ← heap st.2 !! a; _ ← s_state rs;
      Some (st.1, set_heap (<[a := proc_set a p rs]> (heap st.2)) st.2)
  end.

(** The rest of the test leaves the servers of the group and its ends alone,
    and a new server has a new address. *)
Definition g_legal (o : GOp) (st : ServerGrp * GWorld) : Prop :=
  match o with
  | GStart _ _ a _ => heap st.2 !! a = None
  | GEvent (EvServer _ _) => False
  | GEvent (EvOp (OpAddServer _ _)) | GEvent (EvOp (OpDeleteServer _)) => False
  | GEvent (EvOp (OpDeleteEnd e)) | GEvent (EvOp (OpConnect e _)) =>
      ∀ i j, end_of st.1 i j ≠ Some e
  | _ => True
  end.

Inductive g_run : list GOp → ServerGrp * GWorld → ServerGrp * GWorld → Prop :=
| g_done st : g_run [] st st
| g_step o os st st' st'' :
    g_legal o st → g_op o st = Some st' → g_run os st' st'' → g_run (o :: os) st st''.

(** ** Ends *)

Record ends_ok (ss : list Server) (g n : Z) (rn : Network string) : Prop := {
  eo_len i s : go_index ss i = Some s → len (endNames s) = n;
  eo_inj i s j i' s' j' e :
    go_index ss i = Some s → go_index (endNames s) j = Some e →
    go_index ss i' = Some s' → go_index (endNames s') j' = Some e → i = i' ∧ j = j';
  eo_ends i s j e : go_index ss i = Some s → go_index (endNames s) j = Some e →
    e ∈ ends rn ∧ connections rn !! e = Some (Some (ServerName g j));
}.

(** Everything but ends, connections and what is enabled. *)
Definition same_rest (rn rn' : Network string) : Prop :=
  servers rn' = servers rn ∧ reliable rn' = reliable rn ∧ longReordering rn' = longReordering rn.

Lemma make_loop (rnd : nat → string) g l rn rn' :
  for_each l (λ j rn, rn ← MakeEnd (rnd j) rn;
                      Some (Connect (rnd j) (ServerName g (Z.of_nat j)) rn)) rn = Some rn' →
  NoDup (rnd <$> l) ∧ (∀ e, e ∈ rnd <$> l → e ∉ ends rn) ∧
  (∀ e, e ∈ ends rn' ↔ e ∈ rnd <$> l ∨ e ∈ ends rn) ∧
  (∀ j, j ∈ l → connections rn' !! rnd j = Some (Some (ServerName g (Z.of_nat j)))) ∧
  (∀ e, e ∉ rnd <$> l → connections rn' !! e = connections rn !! e) ∧
  same_rest rn rn'.
Proof.
  revert rn. induction l as [|j l IH]; intros rn; cbn [for_each].
  - intros [= <-]. split_and!; [constructor|..]; try done.
    + by intros e ?%not_elem_of_nil.
    + intros e. split; [by right|]. by intros [?%not_elem_of_nil|].
    + by intros j ?%not_elem_of_nil.
  - intros (rn1 & H1 & H2)%bind_Some. apply bind_Some in H1 as (rn0 & H0 & [= <-]).
    unfold MakeEnd in H0. case_decide as Hfresh; [done|]. injection H0 as <-.
    destruct (IH _ H2) as (Hnd & Hnew & Hends & Hcon & Hrest & Hsame). cbn in Hnew, Hends, Hrest, Hsame.
    split; [|split; [|split; [|split; [|split]]]].
    + rewrite fmap_cons. apply list.NoDup_cons. split; [|done]. intros Hin.
      apply (Hnew _ Hin). set_solver.
    + intros e He. rewrite fmap_cons in He. apply elem_of_cons in He as [->|He]; [done|].
      specialize (Hnew e He). set_solver.
    + intros e. rewrite Hends, fmap_cons, elem_of_cons. set_solver.
    + intros k [->|Hk]%elem_of_cons; [|by apply Hcon].
      destruct (decide (rnd j ∈ rnd <$> l)) as [Hin|Hin].
      * exfalso. apply (Hnew _ Hin). set_solver.
      * rewrite Hrest by done. by rewrite lookup_insert_eq.
    + intros e He. rewrite fmap_cons in He. apply not_elem_of_cons in He as [Hne He].
      rewrite Hrest by done. by rewrite !lookup_insert_ne.
    + exact Hsame.
Qed.

Lemma makeServer_spec rnd g n rn s rn' :
  0 <= n → makeServer rnd g n rn = Some (s, rn') →
  saved s = None ∧ dc s = None ∧ len (endNames s) = n ∧ NoDup (endNames s) ∧
  (∀ j e, go_index (endNames s) j = Some e →
     e ∉ ends rn ∧ e ∈ ends rn' ∧ connections rn' !! e = Some (Some (ServerName g j))) ∧
  (∀ e, e ∈ ends rn → e ∈ ends rn' ∧ connections rn' !! e = connections rn !! e) ∧
  same_rest rn rn'.
Proof.
  intros Hn. unfold makeServer. intros (rn1 & H & [= <- <-])%bind_Some.
  destruct (make_loop _ _ _ _ _ H) as (Hnd & Hnew & Hends & Hcon & Hrest & Hsame). cbn.
  split_and!; try done.
  - unfold len. rewrite length_fmap, length_seq. lia.
  - intros j e [Hj He]%go_index_lookup.
    assert (e ∈ rnd <$> seq 0 (Z.to_nat n)) as Hin by (by eapply list_elem_of_lookup_2).
    split; [by apply Hnew|]. split; [apply Hends; by left|].
    rewrite list_lookup_fmap in He. apply fmap_Some in He as (k & Hk & ->).
    apply lookup_seq in Hk as [-> Hk]. rewrite Hcon by (apply elem_of_seq; lia).
    do 3 f_equal. lia.
  - intros e He. split; [apply Hends; by right|]. apply Hrest. intros Hin. by apply (Hnew e).
Qed.

(** Giving server [i] fresh ends, or adding a server. *)
Lemma ends_ok_fresh ss ss' g n rn rn' rnd i s :
  0 <= n → ends_ok ss g n rn → makeServer rnd g n rn = Some (s, rn') →
  (∀ k s', go_index ss' k = Some s' →
     k = i ∧ endNames s' = endNames s ∨ k ≠ i ∧ go_index ss k = Some s') →
  ends_ok ss' g n rn'.
Proof.
  intros Hn [Hlen Hinj Hends] Hmk Hss.
  destruct (makeServer_spec _ _ _ _ _ _ Hn Hmk) as (_ & _ & Hl & Hnd & Hnew & Hold & _).
  assert (∀ k s' j e, go_index ss' k = Some s' → k ≠ i → go_index (endNames s') j = Some e → e ∈ ends rn)
    as Hin.
  { intros k s' j e Hk Hne He. destruct (Hss k s' Hk) as [[? _]|[_ Hk']]; [done|]. eapply Hends; [exact Hk'|exact He]. }
  split.
  - intros k s' Hk. destruct (Hss k s' Hk) as [[_ ->]|[_ Hk']]; [done|by eapply Hlen].
  - intros k s1 j k' s2 j' e H1 He1 H2 He2.
    destruct (Hss k s1 H1) as [[-> E1]|[Hk H1']], (Hss k' s2 H2) as [[-> E2]|[Hk' H2']].
    + split; [done|]. rewrite E1 in He1. rewrite E2 in He2.
      apply go_index_lookup in He1 as [? He1], He2 as [? He2].
      pose proof (NoDup_lookup _ _ _ _ Hnd He1 He2). lia.
    + exfalso. rewrite E1 in He1. apply (proj1 (Hnew j e He1)). exact (Hin _ _ _ _ H2 Hk' He2).
    + exfalso. rewrite E2 in He2. apply (proj1 (Hnew j' e He2)). exact (Hin _ _ _ _ H1 Hk He1).
    + by eapply Hinj.
  - intros k s' j e H1 He. destruct (Hss k s' H1) as [[_ E1]|[Hk H1']].
    + rewrite E1 in He. by destruct (Hnew j e He) as (_ & ? & ?).
    + destruct (Hends _ _ _ _ H1' He) as [Hie Hce]. destruct (Hold e Hie) as [? Hc]. by rewrite Hc.
Qed.

Lemma ends_ok_same ss ss' g n rn rn' :
  ends_ok ss g n rn →
  (∀ k s', go_index ss' k = Some s' → ∃ s, go_index ss k = Some s ∧ endNames s' = endNames s) →
  (∀ k s j e, go_index ss k = Some s → go_index (endNames s) j = Some e →
     e ∈ ends rn → e ∈ ends rn' ∧ connections rn' !! e = connections rn !! e) →
  ends_ok ss' g n rn'.
Proof.
  intros [Hlen Hinj Hends] Hss Hrn. split.
  - intros k s' Hk. destruct (Hss _ _ Hk) as (s & Hs & ->). by eapply Hlen.
  - intros k s1 j k' s2 j' e H1 He1 H2 He2.
    destruct (Hss _ _ H1) as (s1' & H1' & E1), (Hss _ _ H2) as (s2' & H2' & E2).
    rewrite E1 in He1. rewrite E2 in He2. by eapply Hinj.
  - intros k s' j e Hk He. destruct (Hss _ _ Hk) as (s & Hs & E). rewrite E in He.
    destruct (Hends _ _ _ _ Hs He) as [Hin Hc]. destruct (Hrn _ _ _ _ Hs He Hin) as [? Hc'].
    by rewrite Hc'.
Qed.

Lemma go_index_snoc {A} (l : list A) x k y :
  go_index (l ++ [x]) k = Some y → k = len l ∧ y = x ∨ k ≠ len l ∧ go_index l k = Some y.
Proof.
  intros [Hk H]%go_index_lookup. unfold len. apply lookup_snoc_Some in H as [[Hlt H]|[Heq ->]].
  - right. split; [lia|]. by apply go_index_lookup.
  - left. split; [lia|done].
Qed.

Lemma makeSrvGrp_loop (rnd : nat → nat → string) g n l ss rn ss' rn' :
  0 <= n → ends_ok ss g n rn → Forall (λ s, saved s = None ∧ dc s = None) ss →
  for_each l (λ i '(ss, rn), '(s, rn) ← makeServer (rnd i) g n rn; Some (ss ++ [s], rn)) (ss, rn)
    = Some (ss', rn') →
  ends_ok ss' g n rn' ∧ len ss' = len ss + len l ∧
  Forall (λ s, saved s = None ∧ dc s = None) ss' ∧ same_rest rn rn'.
Proof.
  intros Hn. revert ss rn. induction l as [|i l IH]; intros ss rn Hok Hnone; cbn [for_each].
  - intros [= <- <-]. split; [done|]. split; [unfold len; cbn; lia|done].
  - intros ([ss1 rn1] & H1 & H2)%bind_Some.
    apply bind_Some in H1 as ([s rn0] & H1 & [= <- <-]).
    destruct (makeServer_spec _ _ _ _ _ _ Hn H1) as (Hsv & Hdc & _ & _ & _ & _ & Hsr).
    destruct (IH (ss ++ [s]) rn0) as (Hok' & Hl' & Hn' & Hsr'); [| |done|].
    + eapply (ends_ok_fresh ss (ss ++ [s])); [done|done|done|].
      intros k s' Hk. destruct (go_index_snoc _ _ _ _ Hk) as [[-> ->]|[? ?]]; [by left|by right].
    + apply Forall_app. split; [done|]. by apply list.Forall_singleton.
    + split; [done|]. split; [rewrite Hl', len_app, len_cons; unfold len; cbn; lia|]. split; [done|].
      unfold same_rest in *. intuition congruence.
Qed.

(** ** Operations that only enable and disable *)

Lemma for_each_rel {A S} (R : S → S → Prop) (l : list A) body s s' :
  (∀ s, R s s) → (∀ s1 s2 s3, R s1 s2 → R s2 s3 → R s1 s3) →
  (∀ x s s', body x s = Some s' → R s s') →
  for_each l body s = Some s' → R s s'.
Proof.
  intros Hr Ht Hb. revert s. induction l as [|x l IH]; intros s; cbn [for_each]; [by intros [= <-]|].
  intros (s1 & H1 & H2)%bind_Some. eauto.
Qed.

Definition quiet (o : NetOp (Name := string)) : Prop := ∀ a, adds_server (St := Process (D := D)) a (EvOp o) = false.

(** The network gets from [rn] to [rn'] by operations of its own. *)
Definition by_ops (rn rn' : Network string) : Prop :=
  ∃ ops, Forall quiet ops ∧ ∀ w, net w = rn → happens (EvOp <$> ops) w = Some (set_net rn' w).

Lemma set_net_id w : set_net (net w) w = w.
Proof. by destruct w. Qed.

Lemma by_ops_refl rn : by_ops rn rn.
Proof. exists []. split; [constructor|]. intros w <-. cbn. by rewrite set_net_id. Qed.

Lemma happens_app (es1 es2 : list (Event string (Process (D := D)))) w w1 :
  happens es1 w = Some w1 → happens (es1 ++ es2) w = happens es2 w1.
Proof.
  revert w. induction es1 as [|e es1 IH]; intros w; cbn [happens app]; [by intros [= ->]|].
  intros (w2 & -> & H)%bind_Some. cbn. by apply IH.
Qed.

Lemma by_ops_trans rn1 rn2 rn3 : by_ops rn1 rn2 → by_ops rn2 rn3 → by_ops rn1 rn3.
Proof.
  intros (o1 & Q1 & H1) (o2 & Q2 & H2). exists (o1 ++ o2). split; [by apply Forall_app|].
  intros w Hw. rewrite fmap_app, (happens_app _ _ _ _ (H1 w Hw)). by rewrite (H2 (set_net rn2 w)).
Qed.

Lemma by_ops_one o rn rn' : quiet o → net_op o rn = Some rn' → by_ops rn rn'.
Proof.
  intros Hq Ho. exists [o]. split; [by apply list.Forall_singleton|]. intros w <-.
  cbn [fmap list_fmap happens happen mbind option_bind]. by rewrite Ho.
Qed.

Definition enables (rn rn' : Network string) : Prop :=
  (∃ en, rn' = set_enabled en rn) ∧ by_ops rn rn'.

Lemma enables_refl rn : enables rn rn.
Proof. split; [|apply by_ops_refl]. exists (enabled rn). by rewrite set_enabled_same. Qed.

Lemma enables_trans rn1 rn2 rn3 : enables rn1 rn2 → enables rn2 rn3 → enables rn1 rn3.
Proof.
  intros [[en ->] H1] [[en' ->] H2]. split; [by exists en'|]. by eapply by_ops_trans.
Qed.

Lemma enables_Enable e v rn : enables rn (Enable e v rn).
Proof. split; [by eexists|]. by eapply (by_ops_one (OpEnable e v)). Qed.

(** [st'] differs from [st] by what is connected and enabled. *)
Definition toggles (st st' : ServerGrp * Network string) : Prop :=
  ∃ conn, st'.1 = set_connected conn st.1 ∧ len conn = len (connected st.1) ∧ enables st.2 st'.2.

Lemma toggles_refl st : toggles st st.
Proof.
  destruct st as [sg rn]. exists (connected sg). cbn. rewrite set_connected_id.
  split; [done|]. split; [done|apply enables_refl].
Qed.

Lemma toggles_trans st1 st2 st3 : toggles st1 st2 → toggles st2 st3 → toggles st1 st3.
Proof.
  intros (c1 & E1 & L1 & H1) (c2 & E2 & L2 & H2). exists c2. rewrite E2, E1. cbn. split; [done|].
  rewrite E1 in L2. cbn in L2. split; [congruence|]. by eapply enables_trans.
Qed.

Hint Resolve enables_refl enables_Enable toggles_refl : core.

Lemma for_each_enables {A} (l : list A) body rn rn' :
  (∀ x rn rn', body x rn = Some rn' → enables rn rn') → for_each l body rn = Some rn' → enables rn rn'.
Proof. apply for_each_rel; eauto using enables_trans. Qed.

Lemma connect_toggles i to st st' : connect i to st = Some st' → toggles st st'.
Proof.
  destruct st as [sg rn]. unfold connect, srv_connect.
  intros (conn & Hc & (s & _ & (rn1 & H1 & (rn2 & H2 & [= <-])%bind_Some)%bind_Some)%bind_Some)%bind_Some.
  exists conn. cbn. split; [done|]. split; [by eapply len_go_set|].
  eapply enables_trans; [eapply for_each_enables, H1|eapply for_each_enables, H2];
    intros j rn' rn''; cbn; intros ([] & _ & H)%bind_Some; try (by injection H as <-).
  - by apply bind_Some in H as (e & _ & [= <-]).
  - by apply bind_Some in H as (s' & _ & (e & _ & [= <-])%bind_Some).
Qed.

Lemma disconnect_toggles i from st st' : disconnect i from st = Some st' → toggles st st'.
Proof.
  destruct st as [sg rn]. unfold disconnect, srv_disconnect.
  intros (conn & Hc & (s & _ & (rn1 & H1 & (rn2 & H2 & [= <-])%bind_Some)%bind_Some)%bind_Some)%bind_Some.
  exists conn. cbn. split; [done|]. split; [by eapply len_go_set|].
  eapply enables_trans; [eapply for_each_enables, H1|eapply for_each_enables, H2];
    intros j rn' rn''; cbn.
  - by intros (e & _ & [= <-])%bind_Some.
  - by intros (s' & _ & (e & _ & [= <-])%bind_Some)%bind_Some.
Qed.

Lemma Partition_toggles p1 p2 st st' : Partition p1 p2 st = Some st' → toggles st st'.
Proof.
  assert (∀ p q st st', for_each p (part_round p q) st = Some st' → toggles st st') as Hround.
  { intros p q s s'. apply for_each_rel; [done|apply toggles_trans|].
    intros i s1 s2 (s3 & H1%disconnect_toggles & H2%connect_toggles)%bind_Some.
    by eapply toggles_trans. }
  intros (st1 & H1 & H2)%bind_Some.
  eapply toggles_trans; [exact (Hround p1 p2 _ _ H1)|exact (Hround p2 p1 _ _ H2)].
Qed.

(** ** The invariant *)

Record group_ok sg w : Prop := {
  go_ends : ends_ok (srvs sg) (gid sg) (N sg) (net w);
  go_conn : len (connected sg) = N sg;
  go_addr s s' a : servers (net w) !! s = Some (Some a) → servers (net w) !! s' = Some (Some a) → s = s';
  go_heap s a : servers (net w) !! s = Some (Some a) → is_Some (heap w !! a);
  go_fwd a rs : heap w !! a = Some rs → dispatchf rs = Some forward;
  go_dc i s a : go_index (srvs sg) i = Some s → dc s = Some a →
    is_Some (process a (heap w)) ∧ is_Some (saved s);
  go_dc_inj i s i' s' a : go_index (srvs sg) i = Some s → dc s = Some a →
    go_index (srvs sg) i' = Some s' → dc s' = Some a → i = i';
}.

Lemma ok_shape sg w : group_ok sg w → group_shape sg.
Proof.
  intros [[Hl Hi He] Hc _ _ _ _ _]. split; [done|done|].
  intros i j i' j' e (s & Hs & H)%bind_Some (s' & Hs' & H')%bind_Some. by eapply Hi.
Qed.

Lemma toggles_ok sg w st' :
  group_ok sg w → toggles (sg, net w) st' → group_ok st'.1 (set_net st'.2 w).
Proof.
  intros [H1 H2 H3 H4 H5 H6 H7] (conn & -> & Hl & [en ->] & _). cbn in Hl |- *. split; try done.
  - eapply (ends_ok_same (srvs sg)); [exact H1|by eauto|done].
  - cbn. unfold N in *. cbn. congruence.
Qed.

Lemma on_net_ok f sg w st' :
  (∀ st st', f st = Some st' → toggles st st') →
  group_ok sg w → on_net f (sg, w) = Some st' → group_ok st'.1 st'.2.
Proof.
  intros Hf Hok ([sg' rn'] & H%Hf & [= <-])%bind_Some. exact (toggles_ok _ _ _ Hok H).
Qed.

Lemma N_set_srvs ss sg i s : go_set (srvs sg) i s = Some ss → N (set_srvs ss sg) = N sg.
Proof. intros H. unfold N. cbn. by eapply len_go_set. Qed.

(** What [StartServer] leaves. *)
Lemma StartServer_inv rnd started a i sg w sg' w' :
  StartServer rnd started a i (sg, w) = Some (sg', w') →
  ∃ s srv rn1 ss s',
    go_index (srvs sg) i = Some s ∧ makeServer rnd (gid sg) (len (endNames s)) (net w) = Some (srv, rn1) ∧
    go_set (srvs sg) i s' = Some ss ∧ sg' = set_srvs ss sg ∧
    saved s' = Some (default MakePersister (saved s)) ∧ endNames s' = endNames srv ∧
    if started then
      dc s' = Some a ∧
      let p := default MakePersister (saved s) in
      w' = set_heap (<[a := SetDispatch forward
             (LabRpc.MakeServer (Some (p, prog_start (endNames srv) (gid sg) i p)))]> (heap w))
             (set_net (AddServer (ServerName (gid sg) i) a rn1) w)
    else dc s' = None ∧ w' = set_net rn1 w.
Proof.
  unfold StartServer, startServer.
  intros (s & Hs & ([srv0 rn0] & H1 & (ss & Hss & H2)%bind_Some)%bind_Some)%bind_Some.
  apply bind_Some in H1 as ([srv rn1] & Hmk & [= <- <-]).
  assert (dc srv = None) as Hdc.
  { unfold makeServer in Hmk. by apply bind_Some in Hmk as (? & _ & [= <- _]). }
  destruct started.
  - cbn in H2. apply bind_Some in H2 as (ss' & Hss' & [= <- <-]).
    exists s, srv, rn1, ss', (MkServer (Some (default MakePersister (saved s))) (endNames srv) (Some a)).
    cbn. split_and!; try done.
    + unfold go_set in *. case_decide as Hi; [|done]. injection Hss as <-.
      unfold len in *. rewrite length_insert in Hss'. rewrite decide_True in Hss' by done.
      injection Hss' as <-. by rewrite list_insert_insert_eq.
    + unfold Init. rewrite Save_id. unfold ReadRaftState, ReadSnapshot. rewrite !clone_id.
      by destruct (default MakePersister (saved s)).
  - injection H2 as <- <-. exists s, srv, rn1, ss, (MkServer (Some (default MakePersister (saved s))) (endNames srv) (dc srv)).
    cbn. by split_and!.
Qed.

Lemma process_insert a b rs (hp : gmap nat (LabRpc.Server (Process (D := D)))) :
  process b (<[a := rs]> hp) = if decide (a = b) then s_state rs else process b hp.
Proof.
  unfold process. destruct (decide (a = b)) as [->|]; [by rewrite lookup_insert_eq|].
  by rewrite lookup_insert_ne.
Qed.

Lemma process_fresh a (hp : gmap nat (LabRpc.Server (Process (D := D)))) :
  hp !! a = None → process a hp = None.
Proof. intros H. apply bind_None. by left. Qed.

Lemma process_lookup a (hp : gmap nat (LabRpc.Server (Process (D := D)))) rs :
  hp !! a = Some rs → process a hp = s_state rs.
Proof. intros H. exact (f_equal (λ o, o ≫= s_state) H). Qed.

Lemma StartServer_ok rnd started a i sg w sg' w' :
  group_ok sg w → heap w !! a = None → StartServer rnd started a i (sg, w) = Some (sg', w') →
  group_ok sg' w'.
Proof.
  intros Hok Ha H. destruct Hok as [He Hc Hadr Hhp Hfw Hdc Hdi].
  destruct (StartServer_inv _ _ _ _ _ _ _ _ H)
    as (s & srv & rn1 & ss & s' & Hs & Hmk & Hss & -> & Hsv & Hen & Hst).
  pose proof (eo_len _ _ _ _ He _ _ Hs) as Hlen. rewrite Hlen in Hmk.
  assert (0 <= N sg) as HN by apply len_nonneg.
  destruct (makeServer_spec _ _ _ _ _ _ HN Hmk) as (_ & _ & _ & _ & _ & _ & Hsv1 & _ & _).
  assert (∀ k, go_index ss k = if decide (k = i) then Some s' else go_index (srvs sg) k) as Hidx
    by (intros k; by eapply go_set_index).
  assert (ends_ok ss (gid sg) (N sg) rn1) as He1.
  { eapply (ends_ok_fresh (srvs sg)); [done|done|exact Hmk|]. intros k s1. rewrite Hidx.
    destruct (decide (k = i)) as [->|]; [intros [= <-]; by left|by right]. }
  assert (∀ k s1 b, go_index (srvs sg) k = Some s1 → dc s1 = Some b → b ≠ a) as Hfresh.
  { intros k s1 b Hk Hb ->. destruct (Hdc _ _ _ Hk Hb) as [Hp _]. rewrite process_fresh in Hp by done.
    by destruct Hp. }
  assert (∀ s1 b, servers (net w) !! s1 = Some (Some b) → b ≠ a) as Hfresh'.
  { intros s1 b Hb ->. destruct (Hhp _ _ Hb). congruence. }
  destruct started; destruct Hst as (Hds & ->); split; cbn;
    rewrite ?Hsv1; rewrite ?(N_set_srvs _ _ _ _ Hss); try done.
  - eapply ends_ok_same; [exact He1|by eauto|done].
  - intros s1 s2 b. rewrite !lookup_insert_Some. naive_solver.
  - intros s1 b [[_ [= ->]]|[_ Hb]]%lookup_insert_Some; [by rewrite lookup_insert_eq|].
    rewrite lookup_insert_ne by (by apply not_eq_sym, (Hfresh' s1)). by eapply Hhp.
  - intros b rs. rewrite lookup_insert_Some. intros [[_ <-]|[_ Hb]]; [done|by eapply Hfw].
  - intros k s1 b. rewrite Hidx, process_insert. destruct (decide (k = i)) as [->|].
    + intros [= <-] Hb. assert (b = a) as -> by congruence. rewrite decide_True by done.
      rewrite Hsv. cbn. eauto.
    + intros Hk Hb. rewrite decide_False by (by apply not_eq_sym, (Hfresh k s1)). by apply (Hdc k).
  - intros k s1 k' s2 b. rewrite !Hidx.
    destruct (decide (k = i)) as [->|], (decide (k' = i)) as [->|]; [done|..|by apply Hdi];
      intros; simplify_eq; exfalso; by eapply Hfresh.
  - intros k s1 b. rewrite Hidx. destruct (decide (k = i)); [intros [= <-]; congruence|by apply Hdc].
  - intros k s1 k' s2 b. rewrite !Hidx.
    destruct (decide (k = i)) as [->|], (decide (k' = i)) as [->|]; intros; simplify_eq; try done.
    by eapply Hdi.
Qed.

(** A change of the network or the heap that keeps the group. *)
Lemma group_ok_change sg w w' :
  group_ok sg w →
  (∀ i j e, end_of sg i j = Some e → e ∈ ends (net w) →
     e ∈ ends (net w') ∧ connections (net w') !! e = connections (net w) !! e) →
  (∀ s a, servers (net w') !! s = Some (Some a) → servers (net w) !! s = Some (Some a)) →
  (∀ a, is_Some (heap w !! a) → is_Some (heap w' !! a)) →
  (∀ a rs, heap w' !! a = Some rs → ∃ rs0, heap w !! a = Some rs0 ∧ dispatchf rs = dispatchf rs0) →
  (∀ a, is_Some (process a (heap w)) → is_Some (process a (heap w'))) →
  group_ok sg w'.
Proof.
  intros [He Hc Hadr Hhp Hfw Hdc Hdi] Hends Hsv Hdom Hdf Hproc. split; try done.
  - eapply ends_ok_same; [exact He|by eauto|]. intros k s j e Hk Hj. apply (Hends k j).
    unfold end_of. by rewrite Hk.
  - intros s s' a H%Hsv H'%Hsv. by eapply Hadr.
  - intros s a H%Hsv. by eapply Hdom, Hhp.
  - intros a rs (rs0 & H0 & ->)%Hdf. by eapply Hfw.
  - intros i s a Hi Ha. destruct (Hdc i s a Hi Ha). split; [by apply Hproc|done].
Qed.

Lemma isolate_ok i sg w sg' w' : group_ok sg w → isolate i (sg, w) = Some (sg', w') → group_ok sg' w'.
Proof.
  intros Hok ([sg1 w1] & H1 & [= <- <-])%bind_Some.
  eapply (on_net_ok _ _ _ (sg1, w1)) in H1; [|intros ??; apply disconnect_toggles|done].
  apply (group_ok_change _ w1); [done|done| |done|by eauto|done].
  intros s a. cbn. by intros [[_ [=]]|[_ ?]]%lookup_insert_Some.
Qed.

Lemma kill_lookup a b (hp : gmap nat (LabRpc.Server (Process (D := D)))) rs :
  kill a hp !! b = Some rs → ∃ rs0, hp !! b = Some rs0 ∧ dispatchf rs = dispatchf rs0.
Proof.
  unfold kill. intros [(-> & rs0 & H & ->)|[_ H]]%lookup_alter_Some; by eexists.
Qed.

Lemma process_kill a b (hp : gmap nat (LabRpc.Server (Process (D := D)))) :
  a ≠ b → process b (kill a hp) = process b hp.
Proof. intros Hne. unfold process, kill. by rewrite lookup_alter_ne. Qed.

(** The tester gets the state that the process has. *)
Lemma checkpointPersister_spec a (hp : gmap nat (LabRpc.Server (Process (D := D)))) p :
  checkpointPersister a hp = Some p → ∃ d, process a hp = Some (p, d).
Proof.
  intros ([q d] & H & [= <-])%bind_Some. exists d. rewrite Checkpoint_id, Save_id.
  unfold ReadRaftState, ReadSnapshot. rewrite !clone_id. by destruct q.
Qed.

(** What [stop_process] leaves. *)
Lemma stop_inv i sg w sg' w' :
  stop_process i (sg, w) = Some (sg', w') →
  ∃ s s' ss, go_index (srvs sg) i = Some s ∧ go_set (srvs sg) i s' = Some ss ∧
    sg' = set_srvs ss sg ∧ endNames s' = endNames s ∧ dc s' = None ∧
    match dc s with
    | Some a => w' = set_heap (kill a (heap w)) w ∧
                ∃ p d, process a (heap w) = Some (p, d) ∧ saved s' = Some p
    | None => w' = w ∧ saved s' = saved s
    end.
Proof.
  unfold stop_process, shutdownServer.
  intros (s & Hs & ([s' hp] & H1 & (ss & Hss & [= <- <-])%bind_Some)%bind_Some)%bind_Some.
  exists s, s', ss. destruct (dc s) as [a|] eqn:Hdc.
  - apply bind_Some in H1 as (p & [d H1]%checkpointPersister_spec & [= <- <-]).
    split_and!; try done. by exists p, d.
  - injection H1 as <- <-. cbn. split_and!; try done. by destruct w.
Qed.

Lemma stop_ok i sg w sg' w' : group_ok sg w → stop_process i (sg, w) = Some (sg', w') → group_ok sg' w'.
Proof.
  intros [He Hc Hadr Hhp Hfw Hdc Hdi] H.
  destruct (stop_inv _ _ _ _ _ H) as (s & s' & ss & Hs & Hss & -> & Hen & Hd' & Hst).
  assert (net w' = net w) as Hnet by (destruct (dc s); by destruct Hst as [-> _]).
  assert (∀ k, go_index ss k = if decide (k = i) then Some s' else go_index (srvs sg) k) as Hidx
    by (intros k; by eapply go_set_index).
  assert (∀ a rs, heap w' !! a = Some rs → ∃ rs0, heap w !! a = Some rs0 ∧ dispatchf rs = dispatchf rs0) as Hdf.
  { intros a rs. destruct (dc s) as [b|]; [|destruct Hst as [-> _]; by eauto].
    destruct Hst as [-> _]. apply kill_lookup. }
  assert (∀ a, is_Some (heap w !! a) → is_Some (heap w' !! a)) as Hdom.
  { intros a. destruct (dc s) as [b|]; destruct Hst as [-> _]; [|done]. cbn. unfold kill.
    by rewrite lookup_alter_is_Some. }
  split; rewrite ?Hnet, ?(N_set_srvs _ _ _ _ Hss); cbn; try done.
  - eapply ends_ok_same; [exact He| |done]. intros k s1. rewrite Hidx.
    destruct (decide (k = i)) as [->|]; [intros [= <-]|]; by eauto.
  - intros s1 a Ha. by eapply Hdom, Hhp.
  - intros a rs (rs0 & H0 & ->)%Hdf. by eapply Hfw.
  - intros k s1 a. rewrite Hidx. destruct (decide (k = i)) as [->|Hk]; [intros [= <-]; congruence|].
    intros H1 H2. destruct (Hdc _ _ _ H1 H2) as [Hp ?]. split; [|done].
    destruct (dc s) as [b|] eqn:Hb; destruct Hst as [-> _]; [|done].
    cbn. rewrite process_kill; [done|]. intros ->. by apply Hk, (Hdi k s1 i s a).
  - intros k s1 k' s2 a. rewrite !Hidx.
    destruct (decide (k = i)) as [->|], (decide (k' = i)) as [->|]; intros; simplify_eq; try done.
    by eapply Hdi.
Qed.

(** A request that runs keeps the server that ran it. *)
Lemma dispatch_keeps (req : reqMsg string) (rs rs' : LabRpc.Server (Process (D := D))) r :
  dispatchf rs = Some forward → dispatch req rs = Some (rs', r) →
  dispatchf rs' = dispatchf rs ∧ (is_Some (s_state rs) → is_Some (s_state rs')).
Proof.
  intros Hf. unfold dispatch. intros ([svc meth] & _ & H)%bind_Some. rewrite Hf in H.
  destruct (forward (svcMeth req) (r_args req) (s_state rs)) as [st [rep ok]] eqn:Hfw.
  injection H as <- <-. cbn. split; [done|]. destruct (s_state rs) as [p|]; [|by intros []].
  unfold forward in Hfw. destruct (prog_call _ _ p) as [p' r']. injection Hfw as <- _. by eexists.
Qed.

Lemma net_op_ok o sg w rn :
  group_ok sg w → g_legal (GEvent (EvOp o)) (sg, w) → net_op o (net w) = Some rn →
  group_ok sg (set_net rn w).
Proof.
  intros Hok Hl Ho. pose proof (go_fwd _ _ Hok) as Hfw.
  apply (group_ok_change sg w); [done| | |done|by eauto|done].
  - intros i j e He Hin. cbn. destruct o; cbn in Ho, Hl; try (by injection Ho as <-); try done.
    + unfold MakeEnd in Ho. case_decide as Hfresh; [done|]. injection Ho as <-. cbn.
      rewrite lookup_insert_ne by (by intros ->). set_solver.
    + unfold DeleteEnd in Ho. case_decide; [|done]. injection Ho as <-. cbn.
      assert (e0 ≠ e) by (intros ->; by eapply Hl). rewrite lookup_delete_ne by done. set_solver.
    + injection Ho as <-. cbn. rewrite lookup_insert_ne; [done|]. intros ->. by eapply Hl.
  - intros s a. destruct o; cbn in Ho, Hl; try (by injection Ho as <-); try done.
    + unfold MakeEnd in Ho. case_decide; [done|]. by injection Ho as <-.
    + unfold DeleteEnd in Ho. case_decide; [|done]. by injection Ho as <-.
Qed.

Lemma run_job_ok id sg w w' : group_ok sg w → run_job id w = Some w' → group_ok sg w'.
Proof.
  intros Hok H. pose proof (go_fwd _ _ Hok) as Hfw. unfold run_job in H.
  apply bind_Some in H as (req & _ & (a & _ & (rs & Hrs & ([rs' r] & Hd & [= <-])%bind_Some)%bind_Some)%bind_Some).
  destruct (dispatch_keeps _ _ _ _ (Hfw _ _ Hrs) Hd) as [Hdf Hst].
  apply (group_ok_change sg w); cbn; try done.
  - intros b Hb. destruct (decide (a = b)) as [->|]; [by rewrite lookup_insert_eq|].
    by rewrite lookup_insert_ne.
  - intros b rs1 [[<- <-]|[_ Hb]]%lookup_insert_Some; by eauto.
  - intros b Hb. rewrite process_insert. destruct (decide (a = b)) as [->|]; [|done].
    apply Hst. by rewrite (process_lookup _ _ _ Hrs) in Hb.
Qed.

(** An event other than a change of the servers or of an end of the group. *)
Lemma event_ok e sg w w' :
  group_ok sg w → g_legal (GEvent e) (sg, w) → happen e w = Some w' → group_ok sg w'.
Proof.
  intros Hok Hl H. pose proof (go_fwd _ _ Hok) as Hfw.
  assert (∀ w1, net w1 = net w → heap w1 = heap w → group_ok sg w1) as Hsame.
  { intros w1 En Eh. apply (group_ok_change sg w); rewrite ?En, ?Eh; [done|done|done|done|by eauto|done]. }
  assert (∀ n w1, net w1 = add_bytes n (net w) ∨ net w1 = add_bytes n (add_count (net w)) →
            heap w1 = heap w → group_ok sg w1) as Hcnt.
  { intros n w1 En Eh.
    apply (group_ok_change sg w); rewrite ?Eh; [done| | |done|by eauto|done];
      destruct En as [-> | ->]; done. }
  destruct e; cbn [happen] in H.
  - apply bind_Some in H as (rn & Ho & [= <-]). by eapply net_op_ok.
  - done.
  - unfold take_req in H. case_decide; [|done]. injection H as <-. eapply Hcnt; [by right|done].
  - unfold start_req in H. apply bind_Some in H as (req & _ & H).
    destruct (waits w !! id) as [[]|]; try done.
    destruct (ei_enabled _); [|injection H as <-; by apply Hsame].
    destruct (ei_server _) as [[s a]|]; [|injection H as <-; by apply Hsame].
    case_decide; injection H as <-; by apply Hsame.
  - by eapply run_job_ok.
  - unfold poll_dead in H. apply bind_Some in H as (req & _ & H).
    destruct (waits w !! id) as [[]|]; try done.
    destruct (isServerDead _ _ _ _); injection H as <-; [by apply Hsame|done].
  - unfold finish_req in H. apply bind_Some in H as (req & _ & (r & _ & H)%bind_Some).
    destruct (waits w !! id) as [[]|]; try done.
    destruct (isServerDead _ _ _ _); [injection H as <-; by apply Hsame|].
    case_decide; [injection H as <-; by apply Hsame|].
    case_decide; injection H as <-; [by apply Hsame|]. eapply Hcnt; [by left|done].
  - unfold fire_timer in H. destruct (waits w !! id) as [[]|]; try done; injection H as <-;
      [by apply Hsame|]. eapply Hcnt; [by left|done].
  - injection H as <-. by apply Hsame.
  - unfold stop_listening in H. destruct (done w); [|done]. injection H as <-. by apply Hsame.
Qed.

Lemma proc_ok a p sg w st' : group_ok sg w → g_op (GProc a p) (sg, w) = Some st' → group_ok st'.1 st'.2.
Proof.
  intros Hok (rs & Hrs & (p0 & Hp & [= <-])%bind_Some)%bind_Some. cbn in *.
  apply (group_ok_change sg w); cbn; try done.
  - intros b Hb. destruct (decide (a = b)) as [->|]; [by rewrite lookup_insert_eq|].
    by rewrite lookup_insert_ne.
  - intros b rs1 [[<- <-]|[_ Hb]]%lookup_insert_Some; [|by eauto]. by exists rs.
  - intros b Hb. rewrite process_insert. by destruct (decide (a = b)) as [->|].
Qed.

Lemma g_op_ok o sg w st' :
  group_ok sg w → g_legal o (sg, w) → g_op o (sg, w) = Some st' → group_ok st'.1 st'.2.
Proof.
  intros Hok Hl H. destruct o; cbn [g_op] in H.
  - eapply on_net_ok; [|exact Hok|exact H]. intros ??; apply connect_toggles.
  - eapply on_net_ok; [|exact Hok|exact H]. intros ??; apply disconnect_toggles.
  - eapply on_net_ok; [|exact Hok|exact H]. intros ??; apply Partition_toggles.
  - destruct st'. by eapply StartServer_ok.
  - destruct st'. by eapply isolate_ok.
  - destruct st'. by eapply stop_ok.
  - apply bind_Some in H as (w' & H & [= <-]). by eapply event_ok.
  - by eapply proc_ok.
Qed.

Lemma g_run_ok os st st' : group_ok st.1 st.2 → g_run os st st' → group_ok st'.1 st'.2.
Proof.
  intros Hok Hrun. induction Hrun as [|o os st st' st'' Hl Ho _ IH]; [done|].
  apply IH. destruct st. by eapply g_op_ok.
Qed.

(** ** A run of a group is a run of the network *)

Lemma makeServer_by_ops rnd g n rn s rn' : makeServer rnd g n rn = Some (s, rn') → by_ops rn rn'.
Proof.
  unfold makeServer. intros (rn1 & H & [= _ <-])%bind_Some. revert H.
  apply for_each_rel; [apply by_ops_refl|apply by_ops_trans|].
  intros j rn2 rn3 (rn4 & H4 & [= <-])%bind_Some.
  eapply by_ops_trans; [by eapply (by_ops_one (OpMakeEnd _))|by eapply (by_ops_one (OpConnect _ _))].
Qed.

(** Events that add no server that was there already. *)
Definition adds_none (w : GWorld) (es : list (Event string (Process (D := D)))) : Prop :=
  ∀ b, is_Some (heap w !! b) → Forall (λ e, adds_server b e = false) es.

Definition simulated (w w' : GWorld) : Prop := ∃ es, adds_none w es ∧ happens es w = Some w'.

Lemma simulated_ops rn w : by_ops (net w) rn → simulated w (set_net rn w).
Proof.
  intros (ops & Hq & H). exists (EvOp <$> ops). split; [|by apply H].
  intros b _. apply Forall_fmap. eapply list.Forall_impl; [exact Hq|]. intros o Ho. apply Ho.
Qed.

Lemma set_heap_event a rs w : simulated w (set_heap (<[a := rs]> (heap w)) w).
Proof. exists [EvServer a rs]. split; [intros b _; by constructor|done]. Qed.

Lemma happen_heap e w w' b : happen e w = Some w' → is_Some (heap w !! b) → is_Some (heap w' !! b).
Proof.
  intros H Hb. assert (heap w' = heap w ∨ ∃ a rs, heap w' = <[a := rs]> (heap w)) as [->|(a & rs & ->)];
    [|done|rewrite lookup_insert_is_Some; destruct (decide (a = b)); by auto].
  destruct e; cbn [happen] in H.
  - by apply bind_Some in H as (rn & _ & [= <-]); left.
  - injection H as <-. right. by eauto.
  - unfold take_req in H. case_decide; [|done]. injection H as <-. by left.
  - unfold start_req in H. apply bind_Some in H as (r & _ & H). left.
    destruct (waits w !! id) as [[]|]; try done. destruct (ei_enabled _); [|by injection H as <-].
    destruct (ei_server _) as [[s a]|]; [|by injection H as <-]. case_decide; by injection H as <-.
  - unfold run_job in H. right.
    apply bind_Some in H as (req & _ & (a & _ & (rs & _ & ([rs' r] & _ & [= <-])%bind_Some)%bind_Some)%bind_Some).
    by eauto.
  - unfold poll_dead in H. apply bind_Some in H as (r & _ & H). left.
    destruct (waits w !! id) as [[]|]; try done. destruct (isServerDead _ _ _ _); by injection H as <-.
  - unfold finish_req in H. apply bind_Some in H as (r & _ & (q & _ & H)%bind_Some). left.
    destruct (waits w !! id) as [[]|]; try done.
    destruct (isServerDead _ _ _ _); [by injection H as <-|]. repeat case_decide; by injection H as <-.
  - unfold fire_timer in H. left. destruct (waits w !! id) as [[]|]; try done; by injection H as <-.
  - injection H as <-. by left.
  - unfold stop_listening in H. destruct (done w); [|done]. injection H as <-. by left.
Qed.

Lemma simulated_heap w w' b : simulated w w' → is_Some (heap w !! b) → is_Some (heap w' !! b).
Proof.
  intros (es & _ & H). revert w H. induction es as [|e es IH]; intros w; cbn [happens]; [by intros [= ->]|].
  intros (w1 & H1 & H2)%bind_Some Hb. eapply IH; [exact H2|]. by eapply happen_heap.
Qed.

Lemma simulated_trans w1 w2 w3 : simulated w1 w2 → simulated w2 w3 → simulated w1 w3.
Proof.
  intros H12 (es2 & N2 & H2). destruct (H12) as (es1 & N1 & H1). exists (es1 ++ es2).
  split; [|by rewrite (happens_app _ _ _ _ H1)].
  intros b Hb. apply Forall_app. split; [by apply N1|]. apply N2. by eapply simulated_heap.
Qed.

Lemma simulated_refl w : simulated w w.
Proof. exists []. split; [intros b _; constructor|done]. Qed.

Lemma on_net_simulated f sg w sg' w' :
  (∀ st st', f st = Some st' → toggles st st') → on_net f (sg, w) = Some (sg', w') → simulated w w'.
Proof.
  intros Hf ([sg1 rn'] & H%Hf & [= _ <-])%bind_Some. destruct H as (conn & _ & _ & _ & Hops).
  by apply simulated_ops.
Qed.

Lemma g_op_events o sg w sg' w' :
  g_legal o (sg, w) → g_op o (sg, w) = Some (sg', w') → simulated w w'.
Proof.
  intros Hl H. destruct o; cbn [g_op] in H.
  - eapply on_net_simulated; [|exact H]. intros ??; apply connect_toggles.
  - eapply on_net_simulated; [|exact H]. intros ??; apply disconnect_toggles.
  - eapply on_net_simulated; [|exact H]. intros ??; apply Partition_toggles.
  - destruct (StartServer_inv _ _ _ _ _ _ _ _ H)
      as (s & srv & rn1 & ss & s' & _ & Hmk & _ & _ & _ & _ & Hst).
    pose proof (simulated_ops _ w (makeServer_by_ops _ _ _ _ _ _ Hmk)) as Hsim.
    destruct started; destruct Hst as [_ ->]; [|done].
    eapply (simulated_trans w (set_net rn1 w)); [done|]. cbn in Hl.
    exists [EvServer a (SetDispatch forward (LabRpc.MakeServer (Some (default MakePersister (saved s),
      prog_start (endNames srv) (gid sg) i (default MakePersister (saved s))))));
      EvOp (OpAddServer (ServerName (gid sg) i) a)].
    split; [|done]. intros b Hb. repeat constructor. cbn in Hb |- *. apply bool_decide_eq_false.
    intros ->. rewrite Hl in Hb. by destruct Hb.
  - apply bind_Some in H as ([sg1 w1] & H & [= _ <-]).
    eapply simulated_trans; [eapply on_net_simulated; [|exact H]; intros ??; apply disconnect_toggles|].
    exists [EvOp (OpDeleteServer (ServerName (gid sg1) i))]. split; [intros b _; by constructor|done].
  - destruct (stop_inv _ _ _ _ _ H) as (s & s' & ss & _ & _ & _ & _ & _ & Hst).
    destruct (dc s) as [a|]; destruct Hst as [-> Hp]; [|by apply simulated_refl].
    destruct Hp as (p & d & Hp & _). apply bind_Some in Hp as (rs & Hrs & _).
    assert (∃ rs', kill a (heap w) = <[a := rs']> (heap w)) as [rs' ->]; [|by apply set_heap_event].
    eexists (LabRpc.MkServer (services rs) (s_count rs) (dispatchf rs) None).
    apply map_eq. intros b. unfold kill. destruct (decide (a = b)) as [->|Hne].
    + rewrite lookup_alter_eq, lookup_insert_eq. exact (f_equal (fmap _) Hrs).
    + by rewrite lookup_alter_ne, lookup_insert_ne.
  - apply bind_Some in H as (w1 & H & [= _ <-]). cbn in H. exists [e].
    split; [|by cbn; rewrite H].
    intros b _. constructor; [|constructor]. destruct e as [[]| | | | | | | | |]; done.
  - apply bind_Some in H as (rs & Hrs & (p0 & Hp & [= _ <-])%bind_Some). apply set_heap_event.
Qed.

(** A test run is a run of the network: every operation on a group, its
    processes included, is a sequence of events of [LabRpc.v], and none of them
    brings back a server that was there before.  So what holds of all runs of
    the network holds of the calls of a test. *)
Theorem g_op_simulated o sg w sg' w' :
  g_legal o (sg, w) → g_op o (sg, w) = Some (sg', w') → simulated w w'.
Proof. apply g_op_events. Qed.

Lemma g_run_simulated os st st' : g_run os st st' → simulated st.2 st'.2.
Proof.
  induction 1 as [st|o os [sg w] [sg1 w1] st'' Hl Ho _ IH]; [apply simulated_refl|].
  eapply simulated_trans; [by eapply g_op_events|done].
Qed.

(** ** Reachable groups *)

(** A group of [n] servers made on a new network, after any run. *)
Definition g_reach sg w : Prop :=
  ∃ rnd g n sg0 rn os, 0 <= n ∧ makeSrvGrp rnd g n MakeNetwork = Some (sg0, rn) ∧
    g_run os (sg0, init_world rn ∅) (sg, w).

Lemma ends_ok_nil g n rn : ends_ok [] g n rn.
Proof.
  assert (∀ i s, go_index ([] : list Server) i ≠ Some s) as Hnil.
  { by intros i s [_ ?]%go_index_lookup. }
  split; intros; by exfalso; eapply Hnil.
Qed.

(** A group that was just made has no process, and nothing saved. *)
Lemma makeSrvGrp_fresh rnd g n sg rn :
  0 <= n → makeSrvGrp rnd g n MakeNetwork = Some (sg, rn) →
  N sg = n ∧ gid sg = g ∧ len (connected sg) = n ∧ ends_ok (srvs sg) g n rn ∧ servers rn = ∅ ∧
  ∀ i s, go_index (srvs sg) i = Some s → saved s = None ∧ dc s = None.
Proof.
  intros Hn. unfold makeSrvGrp. intros ([ss rn'] & H & [= <- <-])%bind_Some.
  destruct (makeSrvGrp_loop _ _ _ _ _ _ _ _ Hn (ends_ok_nil g n MakeNetwork)
    (list.Forall_nil_2 _) H) as (He & Hl & Hnone & Hsv & _). cbn.
  split; [unfold N; cbn; rewrite Hl; unfold len; rewrite length_seq; cbn; lia|]. split; [done|].
  split; [unfold len; rewrite length_replicate; lia|]. split; [done|]. split; [done|].
  intros i s [_ Hi]%go_index_lookup. by eapply list.Forall_lookup_1 in Hnone.
Qed.

Lemma makeSrvGrp_ok rnd g n sg rn :
  0 <= n → makeSrvGrp rnd g n MakeNetwork = Some (sg, rn) → group_ok sg (init_world rn ∅).
Proof.
  intros Hn (HN & Hg & Hc & He & Hsv & Hnone)%makeSrvGrp_fresh; [|done].
  split; cbn; rewrite ?Hsv, ?HN, ?Hg; try done.
  - intros i s a Hi. destruct (Hnone i s Hi). congruence.
  - intros i s i' s' a Hi. destruct (Hnone i s Hi). congruence.
Qed.

Lemma reach_ok sg w : g_reach sg w → group_ok sg w.
Proof.
  intros (rnd & g & n & sg0 & rn & os & Hn & Hmk & Hrun).
  apply (g_run_ok os (sg0, init_world rn ∅) (sg, w)); [by eapply makeSrvGrp_ok|done].
Qed.

(** C38: however a test starts, stops, connects and partitions the servers of a
    group, the ends between them keep distinct names and lead to the server they
    are meant for, no server has two names, and a server that counts as
    running has a process of its own. *)
Theorem group_invariant sg w :
  g_reach sg w →
  (∀ i j, member sg i → member sg j → ∃ e, end_of sg i j = Some e ∧ e ∈ ends (net w) ∧
     connections (net w) !! e = Some (Some (ServerName (gid sg) j)) ∧
     ∀ i' j', end_of sg i' j' = Some e → i' = i ∧ j' = j) ∧
  (∀ s s' a, servers (net w) !! s = Some (Some a) → servers (net w) !! s' = Some (Some a) → s = s') ∧
  (∀ i s a, go_index (srvs sg) i = Some s → dc s = Some a →
     is_Some (process a (heap w)) ∧
     ∀ i' s', go_index (srvs sg) i' = Some s' → dc s' = Some a → i' = i).
Proof.
  intros Hr%reach_ok. pose proof (ok_shape _ _ Hr) as Hs. split; [|split; [apply Hr|]].
  - intros i j Hi Hj. destruct (end_of_some sg i j Hs Hi Hj) as (s & e & Hs' & He & Heo).
    exists e. destruct (eo_ends _ _ _ _ (go_ends _ _ Hr) _ _ _ _ Hs' He). split; [done|].
    split; [done|]. split; [done|]. intros i' j' He'. by eapply sh_inj.
  - intros i s a Hi Ha. split; [by eapply go_dc|]. intros i' s' Hi' Ha'. by eapply go_dc_inj.
Qed.

(** ** Crash and restart *)

Lemma process_killed a (hp : gmap nat (LabRpc.Server (Process (D := D)))) : process a (kill a hp) = None.
Proof.
  destruct (hp !! a) as [rs|] eqn:Hrs.
  - apply (process_lookup a (kill a hp)
      (LabRpc.MkServer (services rs) (s_count rs) (dispatchf rs) None)).
    unfold kill. rewrite lookup_alter_eq. exact (f_equal (fmap _) Hrs).
  - apply process_fresh. unfold kill. rewrite lookup_alter_eq. exact (f_equal (fmap _) Hrs).
Qed.

Definition kept (i : Z) (p : Persister) sg : Prop :=
  ∃ s, go_index (srvs sg) i = Some s ∧ dc s = None ∧ saved s = Some p.

Definition starts (i : Z) (o : GOp) : bool :=
  match o with GStart _ _ _ j => bool_decide (j = i) | _ => false end.

Lemma toggles_kept i p st st' : toggles st st' → kept i p st.1 → kept i p st'.1.
Proof. by intros (conn & -> & _). Qed.

Lemma g_op_kept o i p st st' :
  starts i o = false → g_op o st = Some st' → kept i p st.1 → kept i p st'.1.
Proof.
  destruct st as [sg w], st' as [sg' w']. intros Hst H Hk.
  assert (∀ f, (∀ st st', f st = Some st' → toggles st st') → on_net f (sg, w) = Some (sg', w') →
    kept i p sg') as Hnet.
  { intros f Hf ([sg1 rn1] & H1%Hf & [= <- _])%bind_Some. by apply (toggles_kept i p _ _ H1). }
  destruct o; cbn [g_op] in H.
  - eapply Hnet; [|exact H]. intros ??; apply connect_toggles.
  - eapply Hnet; [|exact H]. intros ??; apply disconnect_toggles.
  - eapply Hnet; [|exact H]. intros ??; apply Partition_toggles.
  - cbn in Hst. apply bool_decide_eq_false in Hst.
    destruct (StartServer_inv _ _ _ _ _ _ _ _ H) as (s & srv & rn1 & ss & s' & _ & _ & Hss & -> & _).
    destruct Hk as (s0 & Hs0 & ?). exists s0. split; [|done]. cbn in Hs0 |- *.
    rewrite (go_set_index _ _ _ _ i Hss). by rewrite decide_False by done.
  - apply bind_Some in H as ([sg1 w1] & H & [= <- _]).
    apply bind_Some in H as ([sg2 rn1] & H1%disconnect_toggles & [= <- _]).
    by apply (toggles_kept i p _ _ H1).
  - destruct (stop_inv _ _ _ _ _ H) as (s & s' & ss & Hs & Hss & -> & _ & Hd & Hmatch).
    destruct Hk as (s0 & Hs0 & Hd0 & Hp0). cbn in Hs0 |- *. unfold kept. cbn.
    rewrite (go_set_index _ _ _ _ i Hss). destruct (decide (i = i0)) as [->|].
    + assert (s0 = s) as -> by congruence. rewrite Hd0 in Hmatch. exists s'.
      split; [done|]. split; [done|]. destruct Hmatch. congruence.
    + by exists s0.
  - by apply bind_Some in H as (w1 & _ & [= <- _]).
  - by apply bind_Some in H as (rs & _ & (? & _ & [= <- _])%bind_Some).
Qed.

Lemma g_run_kept os i p st st' :
  Forall (λ o, starts i o = false) os → g_run os st st' → kept i p st.1 → kept i p st'.1.
Proof.
  intros Hos Hrun. induction Hrun as [|o os st st1 st2 _ Ho _ IH]; [done|].
  apply list.Forall_cons in Hos as [Hst Hos]. intros Hk. apply IH; [done|]. by eapply g_op_kept.
Qed.

(** A crash keeps what was persisted.  When a server is shut down while its
    process has [p] persisted, and started again later, whatever happened
    meanwhile, its new process starts with [p], new ends, and nothing of what
    the old process had in memory. *)
Theorem restart_keeps_state sg w i s a p d sg1 w1 os sg2 w2 rnd a' sg3 w3 :
  g_reach sg w → go_index (srvs sg) i = Some s → dc s = Some a →
  process a (heap w) = Some (p, d) →
  stop_process i (sg, w) = Some (sg1, w1) → g_run os (sg1, w1) (sg2, w2) →
  Forall (λ o, starts i o = false) os →
  StartServer rnd true a' i (sg2, w2) = Some (sg3, w3) →
  process a (heap w1) = None ∧
  ∃ s', go_index (srvs sg3) i = Some s' ∧ dc s' = Some a' ∧ saved s' = Some p ∧
    process a' (heap w3) = Some (p, prog_start (endNames s') (gid sg2) i p) ∧
    ∀ j e, go_index (endNames s') j = Some e → e ∉ ends (net w2).
Proof.
  intros Hr%reach_ok Hs Ha Hp Hstop Hrun Hos Hstart.
  destruct (stop_inv _ _ _ _ _ Hstop) as (s0 & s1 & ss & Hs0 & Hss & -> & _ & Hd1 & Hmatch).
  assert (s0 = s) as -> by congruence. rewrite Ha in Hmatch.
  destruct Hmatch as [-> (p' & d' & Hp' & Hsv)]. assert (p' = p) as -> by congruence. split.
  - apply process_killed.
  - assert (kept i p sg2) as (s2 & Hs2 & _ & Hp2).
    { eapply (g_run_kept os i p (_, _) (sg2, w2)); [done|exact Hrun|]. exists s1. cbn.
      rewrite (go_set_index _ _ _ _ i Hss). by rewrite decide_True. }
    destruct (StartServer_inv _ _ _ _ _ _ _ _ Hstart)
      as (s3 & srv & rn1 & ss3 & s' & Hs3 & Hmk & Hss3 & -> & Hsv3 & Hen3 & Hd3 & ->).
    assert (s3 = s2) as -> by congruence. rewrite Hp2 in *. cbn [default] in *.
    exists s'. cbn. rewrite (go_set_index _ _ _ _ i Hss3). rewrite decide_True by done.
    split; [done|]. split; [done|]. split; [done|]. split.
    + rewrite process_insert. rewrite decide_True by done. cbn. by rewrite Hen3.
    + intros j e. rewrite Hen3. intros He.
      destruct (makeServer_spec _ _ _ _ _ _ (len_nonneg _) Hmk) as (_ & _ & _ & _ & Hnew & _).
      by destruct (Hnew j e He).
Qed.

Lemma reach_happens sg w :
  g_reach sg w → ∃ es rn, happens es (init_world rn ∅) = Some w.
Proof.
  intros (rnd & g & n & sg0 & rn & os & Hn & Hmk & Hrun).
  destruct (g_run_simulated _ _ _ Hrun) as (es & _ & H). by exists es, rn.
Qed.

(** A server that is being shut down answers nothing any more.  From the
    moment it is isolated, before its process is asked for what it persisted,
    every call that waits for it gets no reply, whatever the process still does:
    so nobody has seen an answer that depends on a later update. *)
Theorem shutdown_silent sg w i a sg1 w1 os sg2 w2 id s rel lr rep ok :
  g_reach sg w → servers (net w) !! ServerName (gid sg) i = Some (Some a) →
  isolate i (sg, w) = Some (sg1, w1) → waits w1 !! id = Some (WHandler s a rel lr) →
  g_run os (sg1, w1) (sg2, w2) → Forward_result id w2 = Some (rep, ok) → rep = [] ∧ ok = false.
Proof.
  intros Hreach Ha Hiso Hid Hrun Hres. pose proof (reach_ok _ _ Hreach) as Hok.
  destruct (reach_happens _ _ Hreach) as (es & rn & Hes).
  destruct (g_op_events (GIsolate i) sg w sg1 w1 I Hiso) as (es1 & _ & Hes1).
  destruct (g_run_simulated _ _ _ Hrun) as (es2 & Hn2 & Hes2). cbn in Hn2, Hes2.
  assert (simulated w w1) as Hsim by (by eapply (g_op_events (GIsolate i))).
  eapply (deleted_server_silent (es ++ es1) es2 rn ∅ w1 w2 a s rel lr id); [| |done|..|done].
  - by rewrite (happens_app _ _ _ _ Hes).
  - apply bind_Some in Hiso as ([sg' w'] & Hiso & [= <- <-]).
    apply bind_Some in Hiso as ([sg'' rn''] & Hd%disconnect_toggles & [= <- <-]).
    destruct Hd as (conn & Hsg & _ & [en Hrn] & _). cbn in Hsg, Hrn. subst sg'' rn''. cbn.
    intros s'. cbn. intros [[_ [=]]|[Hne Hs']]%lookup_insert_Some. apply Hne.
    by eapply (go_addr _ _ Hok).
  - apply Hn2. eapply simulated_heap; [exact Hsim|]. by eapply (go_heap _ _ Hok).
  - done.
Qed.

(** ** Calls across a partition *)

Definition running sg w (j : Z) (a : nat) (p : Persister * D) : Prop :=
  servers (net w) !! ServerName (gid sg) j = Some (Some a) ∧ process a (heap w) = Some p.

(** C37: after [Partition] calls between the parts fail and calls within a part
    go through.  Over a reliable network, a new call of server [i] to a running
    server [j] of its part is answered with what [j]'s process answers; if [j]
    is in the other part it gets no reply, and no process notices. *)
Theorem partition_calls sg w p1 p2 sg' w' i j a p id req drop drop' reorder :
  g_reach sg w → Forall (member sg) (p1 ++ p2) → (∀ x, x ∈ p1 → x ∉ p2) →
  on_net (Partition p1 p2) (sg, w) = Some (sg', w') →
  reliable (net w) = true → longReordering (net w) = false → listening w = true →
  reqs w !! id = None → end_of sg i j = Some (endname req) → is_Some (split_method (svcMeth req)) →
  running sg w j a p →
  (i ∈ p1 ∧ j ∈ p1 ∨ i ∈ p2 ∧ j ∈ p2 →
   let '(p', r) := prog_call (svcMeth req) (r_args req) p in
   ∃ w'', happens [EvTake id req; EvStart id drop; EvRun id; EvFinish id drop' reorder] w' = Some w'' ∧
     Forward_result id w'' = Some r ∧ process a (heap w'') = Some p') ∧
  (i ∈ p1 ∧ j ∈ p2 ∨ i ∈ p2 ∧ j ∈ p1 →
   ∃ w'', happens [EvTake id req; EvStart id drop; EvTimer id] w' = Some w'' ∧
     Forward_result id w'' = Some ([], false) ∧ heap w'' = heap w).
Proof.
  intros Hreach Hm Hdis Hpart Hrel Hlr Hlis Hid He Hsplit [Hsrv Hproc].
  pose proof (reach_ok _ _ Hreach) as Hok. pose proof (ok_shape _ _ Hok) as Hshape.
  destruct (Partition_spec p1 p2 sg (net w) Hshape Hm Hdis) as (conn & en & Hp & _ & Hen).
  unfold on_net in Hpart. cbn [fst snd] in Hpart. rewrite Hp in Hpart. injection Hpart as <- <-.
  destruct (Hen i j _ He) as (Hsame & Hcross & _).
  assert (connections (net w) !! endname req = Some (Some (ServerName (gid sg) j))) as Hcon.
  { apply bind_Some in He as (s & Hs & He). by eapply (eo_ends _ _ _ _ (go_ends _ _ Hok)). }
  set (w1 := set_net (set_enabled en (net w)) w).
  destruct (take_req id req w1) as [w2|] eqn:Htake; [|exfalso; unfold take_req in Htake;
    by rewrite decide_True in Htake].
  assert (Hw2 := Htake). unfold take_req in Hw2. rewrite decide_True in Hw2 by done. injection Hw2 as <-.
  split; intros Hij.
  - destruct (go_heap _ _ Hok _ _ Hsrv) as [rs Hrs]. rewrite (process_lookup _ _ _ Hrs) in Hproc.
    pose proof (go_fwd _ _ Hok _ _ Hrs) as Hfw.
    destruct (prog_call (svcMeth req) (r_args req) p) as [p' [rep k]] eqn:Hcall.
    destruct Hsplit as [[svc meth] Hsplit].
    assert (dispatch req rs = Some (LabRpc.MkServer (services rs) (s_count rs + 1) (dispatchf rs) (Some p'),
              MkReplyMsg k rep)) as Hd.
    { unfold dispatch. rewrite Hsplit. cbn [mbind option_bind].
      destruct rs as [sv ct df st]. cbn in Hfw, Hproc |- *. subst df st. cbn. by rewrite Hcall. }
    edestruct (reliable_call (MkWorld (add_bytes (len (r_args req)) (add_count (net w1))) (heap w1)
      (<[id := req]> (reqs w1)) (<[id := WTaken]> (waits w1)) (jobs w1) (ech w1) (execs w1)
      (listening w1) (done w1)) id req (ServerName (gid sg) j) a rs)
      as (w'' & Hrun & Hres & Hheap); [..|exact Hd|]; cbn; try done.
    + by rewrite lookup_insert_eq.
    + by rewrite lookup_insert_eq.
    + by apply Hsame.
    + exists w''. split; [|split; [exact Hres|]].
      * cbn [happens happen mbind option_bind]. rewrite Htake. exact Hrun.
      * rewrite Hheap. rewrite process_insert. by rewrite decide_True.
  - pose proof (Hcross Hij) as Hoff. cbn [happens happen mbind option_bind]. rewrite Htake.
    cbn. unfold start_req. cbn. rewrite lookup_insert_eq. cbn. rewrite lookup_insert_eq.
    unfold readEndnameInfo. cbn. rewrite Hoff. cbn. unfold fire_timer. cbn. rewrite lookup_insert_eq.
    eexists. split; [done|]. unfold Forward_result. cbn. by rewrite lookup_insert_eq.
Qed.
End GroupRun.
