(* ===== verification/GroupOwners.v ===== *)
(** * Which server a process belongs to

    Any process of a group of [Group.v] that is alive is the process of one
    server.  Starting, shutting down, connecting and partitioning the servers,
    and what the network does, keep that, keep where the ends of the servers
    lead, and touch no request: what a proof about the processes of a group asks
    of every operation. *)
From S2P Require Import Prelude Strs Persister LabRpc LabRpcTheorems Daemon Group GroupTheorems GroupRun.

Section Owners.
Context `{!Program D}.
Abbreviation GWorld := (LabRpc.World string (Process (D := D))).
Implicit Types (sg : ServerGrp) (w : GWorld) (st : ServerGrp * GWorld).

Definition alive w (a : nat) : Prop := is_Some (process a (heap w)).

(** Server [j] runs at address [a]. *)
Definition current sg (j : Z) (a : nat) : Prop :=
  ∃ s, go_index (srvs sg) j = Some s ∧ dc s = Some a.

(** The process at [a], if it is alive, is server [j]. *)
Definition owns st (j : Z) (a : nat) : Prop := alive st.2 a → current st.1 j a.

Record net_ok st : Prop := {
  no_grp : group_ok st.1 st.2;
  no_calls : calls_ok st.2;
  no_procs a : alive st.2 a → ∃ i, current st.1 i a;
  no_srv nm a : servers (net st.2) !! nm = Some (Some a) →
    ∃ j, nm = ServerName (gid st.1) j ∧ owns st j a;
}.

(** What a change of the group leaves. *)
Record moves st st' : Prop := {
  mv_gid : gid st'.1 = gid st.1;
  mv_N : N st'.1 = N st.1;
  mv_heap a : is_Some (heap st.2 !! a) → is_Some (heap st'.2 !! a);
  mv_owns j a : is_Some (heap st.2 !! a) → owns st j a → owns st' j a;
  mv_ends e : e ∈ ends (net st.2) →
    e ∈ ends (net st'.2) ∧ connections (net st'.2) !! e = connections (net st.2) !! e;
}.

Lemma alive_heap w a : alive w a → is_Some (heap w !! a).
Proof. intros [x (rs & Hrs & _)%bind_Some]. by exists rs. Qed.

(** Servers as before, processes that were there, and ends that lead where they
    led. *)
Record same_servers st st' : Prop := {
  ss_srvs : srvs st'.1 = srvs st.1;
  ss_gid : gid st'.1 = gid st.1;
  ss_heap a : is_Some (heap st.2 !! a) → is_Some (heap st'.2 !! a);
  ss_alive a : alive st'.2 a → alive st.2 a;
  ss_ends : ends (net st'.2) = ends (net st.2) ∧ connections (net st'.2) = connections (net st.2);
  ss_servers s a : servers (net st'.2) !! s = Some (Some a) → servers (net st.2) !! s = Some (Some a);
}.

Lemma moves_same st st' : same_servers st st' → moves st st'.
Proof.
  intros [H1 H2 H3 H4 [H5 H6] H7]. split; [done| |done| |].
  - unfold N. by rewrite H1.
  - intros j a _ Ho Hal. destruct (Ho (H4 _ Hal)) as (s & Hs & Hd). exists s. by rewrite H1.
  - intros e He. by rewrite H5, H6.
Qed.

Lemma net_ok_keep st st' :
  net_ok st → moves st st' → group_ok st'.1 st'.2 → calls_ok st'.2 →
  (∀ a, alive st'.2 a → alive st.2 a) →
  (∀ s a, servers (net st'.2) !! s = Some (Some a) → servers (net st.2) !! s = Some (Some a)) →
  net_ok st'.
Proof.
  intros [Hg Hc Hp Hs] [M1 M2 M3 M4 M5] Hg' Hc' Hal Hsv. split; [done|done| |].
  - intros a Ha. destruct (Hp a (Hal a Ha)) as [i Hi]. exists i.
    by apply (M4 i a (alive_heap _ _ (Hal a Ha)) (λ _, Hi)).
  - intros nm a H%Hsv. destruct (Hs nm a H) as (j & -> & Ho). exists j. rewrite M1.
    split; [done|]. apply M4; [by eapply go_heap|done].
Qed.

(** A name of server [j] leads to its process. *)
Lemma srv_owns st j a :
  net_ok st → servers (net st.2) !! ServerName (gid st.1) j = Some (Some a) → owns st j a.
Proof. intros Hn H. by destruct (no_srv _ Hn _ _ H) as (j' & [_ <-]%ServerName_inj & Ho). Qed.

Lemma g_op_group_ok o st st' :
  g_legal o st → g_op o st = Some st' → group_ok st.1 st.2 → group_ok st'.1 st'.2.
Proof. destruct st. intros. by eapply g_op_ok. Qed.

Lemma g_op_calls_ok o st st' :
  g_legal o st → g_op o st = Some st' → calls_ok st.2 → calls_ok st'.2.
Proof.
  destruct st as [sg w], st' as [sg' w']. intros Hl H Hc.
  destruct (g_op_events _ _ _ _ _ Hl H) as (es & _ & Hes). by eapply happens_calls_ok.
Qed.

Lemma net_ok_same o st st' :
  net_ok st → g_legal o st → g_op o st = Some st' → same_servers st st' → net_ok st'.
Proof.
  intros Hn Hl Ho Hs. eapply net_ok_keep; [exact Hn|by apply moves_same| | |apply Hs|apply Hs].
  - eapply g_op_group_ok; [exact Hl|exact Ho|apply Hn].
  - eapply g_op_calls_ok; [exact Hl|exact Ho|apply Hn].
Qed.

(** The requests of the network are as they were. *)
Definition same_reqs w w' : Prop :=
  reqs w' = reqs w ∧ waits w' = waits w ∧ jobs w' = jobs w ∧ execs w' = execs w.

Lemma on_net_same f st st' :
  (∀ x x', f x = Some x' → toggles (D := D) x x') → on_net f st = Some st' →
  same_servers st st' ∧ same_reqs st.2 st'.2 ∧ heap st'.2 = heap st.2.
Proof.
  intros Hf ([sg rn] & (conn & E & _ & [en En] & _)%Hf & [= <-])%bind_Some.
  cbn in E, En. subst. split; [|done]. by split.
Qed.

Lemma isolate_same i st st' :
  isolate i st = Some st' → same_servers st st' ∧ same_reqs st.2 st'.2 ∧ heap st'.2 = heap st.2.
Proof.
  intros ([sg w] & H & [= <-])%bind_Some.
  apply on_net_same in H as ([H1 H2 H3 H4 H5 H6] & H7 & H8); [|intros ??; apply disconnect_toggles].
  split; [|done]. split; try done. intros s a. cbn.
  intros [[_ [=]]|[_ Hs]]%lookup_insert_Some. by apply H6.
Qed.

(** No end and no server is made, deleted or connected elsewhere. *)
Definition leaves_ways (e : Event string (Process (D := D))) : bool :=
  match e with
  | EvOp (OpReliable _) | EvOp (OpLongReordering _) | EvOp (OpLongDelays _) | EvOp (OpEnable _ _) => true
  | EvOp _ => false
  | _ => true
  end.

(** An event in which no handler runs. *)
Lemma event_same e st w' :
  quiet_kind e = true → leaves_ways e = true → happen e st.2 = Some w' →
  same_servers st (st.1, w') ∧ quiet_event st.2 w'.
Proof.
  intros Hq Hb H. pose proof (happen_quiet _ _ _ Hq H) as Hqe. split; [|done].
  assert (same_ways (net st.2) (net w')) as (E1 & E2 & E3).
  { destruct e as [o| | | | | | | | |]; [|eapply happen_ways, H; done..].
    apply bind_Some in H as (rn & Ho & [= <-]). by destruct o; try done; injection Ho as <-. }
  split; cbn; rewrite ?E1, ?E2, ?E3; try done.
  - by rewrite (qe_heap _ _ Hqe).
  - unfold alive. by rewrite (qe_heap _ _ Hqe).
Qed.

(** The process at [a] has gone on to [x]. *)
Definition procs_upd w w' (a : nat) (x : Persister * D) : Prop :=
  ∀ b, process b (heap w') = if decide (a = b) then Some x else process b (heap w).

Lemma procs_upd_same st w' a x :
  alive st.2 a → procs_upd st.2 w' a x → same_ways (net st.2) (net w') →
  (∀ b, is_Some (heap st.2 !! b) → is_Some (heap w' !! b)) → same_servers st (st.1, w').
Proof.
  intros Ha Hu (E1 & E2 & E3) Hh. split; cbn; rewrite ?E1, ?E2, ?E3; try done.
  intros b. unfold alive. rewrite Hu. by destruct (decide (a = b)) as [<-|].
Qed.

Lemma proc_upd a x st st' :
  g_op (GProc a x) st = Some st' →
  alive st.2 a ∧ st'.1 = st.1 ∧ procs_upd st.2 st'.2 a x ∧ net st'.2 = net st.2 ∧
  same_reqs st.2 st'.2 ∧ ∀ b, is_Some (heap st.2 !! b) → is_Some (heap st'.2 !! b).
Proof.
  destruct st as [sg w]. intros (rs & Hrs & (y & Hy & [= <-])%bind_Some)%bind_Some. cbn in *.
  split; [|split; [done|split; [|split; [done|split; [done|]]]]].
  - exists y. rewrite (process_lookup _ _ _ Hrs). done.
  - intros b. apply process_insert.
  - intros b. cbn. rewrite lookup_insert_is_Some. destruct (decide (a = b)); by auto.
Qed.

Lemma proc_same a x st st' : g_op (GProc a x) st = Some st' → same_servers st st'.
Proof.
  intros (H1 & H2 & H3 & H4 & _ & H5)%proc_upd. destruct st' as [sg' w']. cbn in *. subst sg'.
  eapply procs_upd_same; [done|done|by rewrite H4|done].
Qed.

(** An address belongs to one server. *)
Lemma current_inj sg w i j a : group_ok sg w → current sg i a → current sg j a → i = j.
Proof. intros Hg (s & Hs & Hd) (s' & Hs' & Hd'). by eapply (go_dc_inj _ _ Hg). Qed.
(** Only server [i] has changed, and it was not running or is not any more. *)
Lemma owns_other i s' st st' j a :
  (∀ k, go_index (srvs st'.1) k = if decide (k = i) then Some s' else go_index (srvs st.1) k) →
  (alive st'.2 a → alive st.2 a ∧ ¬ current st.1 i a) → owns st j a → owns st' j a.
Proof.
  intros Hidx Ha Ho Hal. destruct (Ha Hal) as [Hal' Hne]. destruct (Ho Hal') as (s & Hs & Hd).
  exists s. split; [|done]. rewrite Hidx, decide_False; [done|]. intros ->. apply Hne. by exists s.
Qed.

(** *** [shutdownServer] *)

(** Server [i] is [s'] now. *)
Definition srv_upd (i : Z) (s' : Server) st st' : Prop :=
  gid st'.1 = gid st.1 ∧ N st'.1 = N st.1 ∧
  ∀ k, go_index (srvs st'.1) k = if decide (k = i) then Some s' else go_index (srvs st.1) k.

Lemma set_srvs_upd i s' ss sg w w' :
  go_set (srvs sg) i s' = Some ss → srv_upd i s' (sg, w) (set_srvs ss sg, w').
Proof.
  intros Hss. split; [done|]. split; [by eapply N_set_srvs|]. intros k. by eapply go_set_index.
Qed.

(** Another state is saved for server [i]. *)
Lemma resave_ok i s p st st' :
  group_ok st.1 st.2 → go_index (srvs st.1) i = Some s → st'.2 = st.2 →
  connected st'.1 = connected st.1 → srv_upd i (MkServer (Some p) (endNames s) (dc s)) st st' →
  group_ok st'.1 st'.2.
Proof.
  intros [He Hc Hadr Hhp Hfw Hdc Hdi] Hs -> Ec (E1 & E2 & E3). split; rewrite ?E1, ?E2, ?Ec; try done.
  - eapply ends_ok_same; [exact He| |by eauto]. intros k s1. rewrite E3.
    destruct (decide (k = i)) as [->|]; [intros [= <-]|]; by eauto.
  - intros k s1 a. rewrite E3. destruct (decide (k = i)) as [->|]; [intros [= <-] Ha|by apply Hdc].
    split; [|by eexists]. by apply (Hdc i s a).
  - intros k s1 k' s2 a. rewrite !E3.
    destruct (decide (k = i)) as [->|], (decide (k' = i)) as [->|]; intros; simplify_eq; try done.
    all: by eapply Hdi.
Qed.
Lemma srv_upd_moves i s' st st' :
  srv_upd i s' st st' → net st'.2 = net st.2 → (∀ b, is_Some (heap st.2 !! b) → is_Some (heap st'.2 !! b)) →
  (∀ b, alive st'.2 b → alive st.2 b ∧ (current st.1 i b → dc s' = Some b)) → moves st st'.
Proof.
  intros (E1 & E2 & E3) En Hh Ha. split; [done|done|done| |by rewrite En].
  intros j b _ Ho Hal. destruct (Ha b Hal) as [Hal' Hcur]. destruct (Ho Hal') as (s & Hs & Hd).
  unfold current. rewrite E3. destruct (decide (j = i)) as [->|]; [|by exists s].
  exists s'. split; [done|]. apply Hcur. by exists s.
Qed.

(** The first step saves the state of the process. *)
Lemma checkpoint_spec i st st' :
  net_ok st → checkpoint_server i st = Some st' →
  moves st st' ∧ net_ok st' ∧ st'.2 = st.2 ∧
  ∃ s a p d, go_index (srvs st.1) i = Some s ∧ dc s = Some a ∧ process a (heap st.2) = Some (p, d) ∧
    srv_upd i (MkServer (Some p) (endNames s) (Some a)) st st'.
Proof.
  destruct st as [sg w]. intros Hn (s & Hs & (a & Hd & (p & Hp & (ss & Hss & [= <-])%bind_Some)%bind_Some)%bind_Some)%bind_Some.
  pose proof (set_srvs_upd _ _ _ _ w w Hss) as Hu. cbn [fst snd] in *.
  apply checkpointPersister_spec in Hp as [d Hp].
  assert (moves (sg, w) (set_srvs ss sg, w)) as Hm.
  { eapply srv_upd_moves; [exact Hu|done|done|]. intros b Hb. split; [done|].
    intros (s1 & Hs1 & Hd1). cbn [fst] in Hs1. cbn. congruence. }
  split; [done|]. split; [|split; [done|exists s, a, p, d; rewrite Hd in Hu; done]].
  eapply net_ok_keep; [exact Hn|exact Hm| |apply Hn|done|done].
  eapply (resave_ok i s p (sg, w)); [apply Hn|done|done|done|done].
Qed.

Lemma stop_process_some i s a ss x sg w :
  group_ok sg w → go_index (srvs sg) i = Some s → dc s = Some a → go_set (srvs sg) i x = Some ss →
  is_Some (stop_process i (sg, w)).
Proof.
  intros Hg Hs Hd Hss. destruct (go_dc _ _ Hg i s a Hs Hd) as [[[p d] Hp] _].
  unfold stop_process, shutdownServer. rewrite Hs. cbn. rewrite Hd. unfold checkpointPersister.
  rewrite Hp. cbn. unfold go_set in *. case_decide; [by eexists|done].
Qed.

Lemma kill_ok i s a ss sg w :
  group_ok sg w → go_index (srvs sg) i = Some s → dc s = Some a →
  go_set (srvs sg) i (MkServer (saved s) (endNames s) None) = Some ss →
  group_ok (set_srvs ss sg) (set_heap (kill a (heap w)) w).
Proof.
  intros Hg Hs Hd Hss. destruct (go_dc _ _ Hg i s a Hs Hd) as [_ [q Hq]].
  destruct (stop_process_some i s a ss _ sg w Hg Hs Hd Hss) as [[sg1 w1] Hst].
  pose proof (stop_ok _ _ _ _ _ Hg Hst) as Hg1.
  destruct (stop_inv _ _ _ _ _ Hst) as (s0 & s1 & ss1 & Hs0 & Hss1 & -> & Hen & Hdc & Hw1).
  assert (s0 = s) as -> by congruence. rewrite Hd in Hw1. destruct Hw1 as [-> _].
  apply (resave_ok i s1 q (set_srvs ss1 sg, set_heap (kill a (heap w)) w)
    (set_srvs ss sg, set_heap (kill a (heap w)) w)); cbn; [exact Hg1| |done|done|].
  - by rewrite (go_set_index _ _ _ _ i Hss1), decide_True.
  - split; [done|]. split; [cbn; by rewrite (N_set_srvs _ _ _ _ Hss), (N_set_srvs _ _ _ _ Hss1)|].
    intros k. cbn. rewrite (go_set_index _ _ _ _ k Hss), (go_set_index _ _ _ _ k Hss1), Hen, Hdc, Hq.
    by destruct (decide (k = i)).
Qed.

(** The second step ends the process. *)
Lemma kill_spec i st st' :
  net_ok st → kill_server i st = Some st' →
  moves st st' ∧ net_ok st' ∧ same_reqs st.2 st'.2 ∧ net st'.2 = net st.2 ∧
  ∃ s a, go_index (srvs st.1) i = Some s ∧ dc s = Some a ∧
    srv_upd i (MkServer (saved s) (endNames s) None) st st' ∧
    ∀ b, process b (heap st'.2) = if decide (a = b) then None else process b (heap st.2).
Proof.
  destruct st as [sg w]. intros Hn (s & Hs & (a & Hd & (ss & Hss & [= <-])%bind_Some)%bind_Some)%bind_Some.
  pose proof (set_srvs_upd _ _ _ _ w (set_heap (kill a (heap w)) w) Hss) as Hu. cbn [fst snd] in *.
  assert (∀ b, process b (kill a (heap w)) = if decide (a = b) then None else process b (heap w)) as Hp.
  { intros b. destruct (decide (a = b)) as [->|]; [apply process_killed|by apply process_kill]. }
  assert (∀ b, alive (set_heap (kill a (heap w)) w) b → alive w b) as Hal.
  { intros b. unfold alive. cbn. rewrite Hp. destruct (decide (a = b)); [by intros []|done]. }
  assert (moves (sg, w) (set_srvs ss sg, set_heap (kill a (heap w)) w)) as Hm.
  { eapply srv_upd_moves; [exact Hu|done| |].
    - intros b. cbn. unfold kill. by rewrite lookup_alter_is_Some.
    - intros b Hb. split; [by apply Hal|]. intros (s1 & Hs1 & Hd1). cbn [fst snd] in *.
      unfold alive in Hb. cbn in Hb. rewrite Hp in Hb. rewrite decide_True in Hb by congruence. by destruct Hb. }
  split; [done|]. split; [|split; [done|split; [done|by exists s, a]]].
  eapply net_ok_keep; [exact Hn|exact Hm| | |exact Hal|done].
  - by eapply kill_ok; [apply Hn|..].
  - apply (calls_ok_same w); [done..|apply Hn].
Qed.

(** With nothing between them the two steps are [shutdownServer]. *)
Lemma shutdown_steps i st s a :
  go_index (srvs st.1) i = Some s → dc s = Some a →
  (st ← checkpoint_server i st; kill_server i st) = stop_process i st.
Proof.
  destruct st as [sg w]. cbn [fst]. intros Hs Hd. unfold checkpoint_server, stop_process, shutdownServer.
  cbn [fst snd]. rewrite Hs. cbn. rewrite Hd. cbn.
  destruct (checkpointPersister a (heap w)) as [p|]; [|done]. cbn.
  destruct (go_set (srvs sg) i (MkServer (Some p) (endNames s) (Some a))) as [ss|] eqn:Hss; cbn.
  - unfold kill_server. cbn. rewrite (go_set_index _ _ _ _ i Hss), decide_True by done. cbn.
    unfold go_set in *. case_decide as Hi; [|done]. injection Hss as <-.
    unfold len. rewrite length_insert. unfold len in Hi. rewrite decide_True by done. cbn.
    by rewrite list_insert_insert_eq.
  - unfold go_set in *. by case_decide.
Qed.

(** What [StartServer] makes of a server that was not running. *)
Record started_at (started : bool) (a : nat) (i : Z) (s s' : Server) st st' : Prop := {
  sa_idx k : go_index (srvs st'.1) k = if decide (k = i) then Some s' else go_index (srvs st.1) k;
  sa_saved : saved s' = Some (default MakePersister (saved s));
  sa_ends : len (endNames s') = N st.1;
  sa_dc : dc s' = if started then Some a else None;
  sa_proc b : process b (heap st'.2) =
    if decide (started = true ∧ a = b) then
      let p := default MakePersister (saved s) in Some (p, prog_start (endNames s') (gid st.1) i p)
    else process b (heap st.2);
  sa_servers nm b : servers (net st'.2) !! nm = Some (Some b) →
    started = true ∧ nm = ServerName (gid st.1) i ∧ b = a ∨ servers (net st.2) !! nm = Some (Some b);
}.

Lemma start_spec rnd (started : bool) a i s st st' :
  group_ok st.1 st.2 → go_index (srvs st.1) i = Some s → dc s = None → heap st.2 !! a = None →
  g_op (GStart rnd started a i) st = Some st' →
  moves st st' ∧ same_reqs st.2 st'.2 ∧ ∃ s', started_at started a i s s' st st'.
Proof.
  destruct st as [sg w], st' as [sg' w']. cbn [fst snd g_op]. intros Hg Hs Hdc Ha H.
  destruct (StartServer_inv _ _ _ _ _ _ _ _ H)
    as (s0 & srv & rn1 & ss & s' & Hs0 & Hmk & Hss & -> & Hsv & Hen & Hst).
  assert (s0 = s) as -> by congruence. clear Hs0.
  rewrite (eo_len _ _ _ _ (go_ends _ _ Hg) _ _ Hs) in Hmk.
  destruct (makeServer_spec _ _ _ _ _ _ (len_nonneg _) Hmk) as (_ & _ & Hl & _ & _ & Hold & Hrest & _).
  assert (started_at started a i s s' (sg, w) (set_srvs ss sg, w')) as Hsa.
  { split; cbn [fst snd]; [intros k; by eapply go_set_index|done|by rewrite Hen|by destruct started; destruct Hst| |].
    - intros b. destruct started; destruct Hst as [_ ->]; [|by rewrite decide_False by naive_solver].
      etransitivity; [apply process_insert|]. rewrite Hen.
      destruct (decide (a = b)); [by rewrite decide_True|by rewrite decide_False by naive_solver].
    - intros nm b. destruct started; destruct Hst as [_ ->]; cbn; rewrite Hrest; [|by right].
      intros [[<- [= <-]]|[_ Hb]]%lookup_insert_Some; [by left|by right]. }
  split; [|split; [by destruct started; destruct Hst as [_ ->]|by exists s']].
  split; cbn [fst snd]; [done|by eapply N_set_srvs| | |].
  - intros b Hb. destruct started; destruct Hst as [_ ->]; [|done]. cbn.
    rewrite lookup_insert_is_Some. destruct (decide (a = b)); by auto.
  - intros j b Hb. apply (owns_other i s'); [apply Hsa|]. cbn [fst snd]. unfold alive.
    rewrite (sa_proc _ _ _ _ _ _ _ Hsa). cbn [fst snd].
    rewrite decide_False by (intros [_ ->]; rewrite Ha in Hb; by destruct Hb).
    intros Hal. split; [done|]. intros (s1 & Hs1 & Hd1). congruence.
  - intros e He. destruct started; destruct Hst as [_ ->]; by apply Hold.
Qed.

Lemma net_ok_start rnd (started : bool) a i s s' st st' :
  net_ok st → go_index (srvs st.1) i = Some s → dc s = None → heap st.2 !! a = None →
  g_op (GStart rnd started a i) st = Some st' → moves st st' →
  started_at started a i s s' st st' → net_ok st'.
Proof.
  intros Hn Hs Hdc Ha Ho Hm Hsa. pose proof Hn as [Hg Hc Hp Hsv].
  assert (started = true → current st'.1 i a) as Hcur.
  { intros ->. exists s'. rewrite (sa_idx _ _ _ _ _ _ _ Hsa), decide_True by done.
    split; [done|apply Hsa]. }
  split.
  - by eapply g_op_group_ok; [|exact Ho|].
  - by eapply g_op_calls_ok; [|exact Ho|].
  - intros b Hb. destruct (decide (started = true ∧ a = b)) as [[Hst <-]|Hne]; [by eauto|].
    assert (alive st.2 b) as Hb'.
    { unfold alive in Hb. by rewrite (sa_proc _ _ _ _ _ _ _ Hsa), decide_False in Hb. }
    destruct (Hp b Hb') as [k Hk]. exists k.
    by apply (mv_owns _ _ Hm k b (alive_heap _ _ Hb') (λ _, Hk)).
  - intros nm b. rewrite (mv_gid _ _ Hm).
    intros [(Hst & -> & ->)|Hb]%(sa_servers _ _ _ _ _ _ _ Hsa).
    + exists i. split; [done|]. intros _. by apply Hcur.
    + destruct (Hsv nm b Hb) as (j & -> & Ho'). exists j. split; [done|].
      apply (mv_owns _ _ Hm); [by eapply go_heap|done].
Qed.
End Owners.
