(* ===== verification/GroupDemo.v ===== *)
(** * A concrete group

    Three servers whose process counts its calls and persists the count: the
    theorems of [GroupTheorems.v] and [GroupRun.v] at concrete runs. *)
From S2P Require Import Prelude Strs Persister LabRpc Group GroupTheorems GroupRun.

(** The program: it starts from the persisted count, and a call adds one. *)
#[export] Instance counter : Program Z := {
  prog_start _ _ _ p := match ReadRaftState p with [n] => n | _ => 0 end;
  prog_call _ _ '(p, n) := ((Save p [n + 1] [], n + 1), ([n + 1], true));
  prog_heap n := n;
}.

Abbreviation DWorld := (World string (Process (D := Z))).

Section Exec.
Context `{!Program D}.

(** A check that a step is legal, for runs without operations on other ends. *)
Definition g_legalb (o : GOp (D := D)) (st : ServerGrp * World string (Process (D := D))) : bool :=
  match o with
  | GStart _ _ a _ => match heap st.2 !! a with None => true | Some _ => false end
  | GEvent (EvServer _ _) => false
  | GEvent (EvOp o) => match o with OpReliable _ | OpLongReordering _ => true | _ => false end
  | _ => true
  end.

Fixpoint g_exec (os : list GOp) (st : ServerGrp * World string (Process (D := D)))
    : option (ServerGrp * World string Process) :=
  match os with
  | [] => Some st
  | o :: os => if g_legalb o st then st ← g_op o st; g_exec os st else None
  end.

Lemma g_exec_run os st st' : g_exec os st = Some st' → g_run os st st'.
Proof.
  revert st. induction os as [|o os IH]; intros st; cbn [g_exec]; [intros [= ->]; constructor|].
  destruct (g_legalb o st) eqn:Hl; [|done]. intros (st1 & Ho & Hr)%bind_Some.
  econstructor; [|exact Ho|by apply IH].
  destruct o; try done; cbn in Hl |- *; [by destruct (heap st.2 !! a)|].
  destruct e as [[]| | | | | | | | |]; done.
Qed.
End Exec.

Definition is_some {A} (o : option A) : bool := match o with Some _ => true | None => false end.

Lemma default_some {A} (d : A) (o : option A) : is_some o = true → o = Some (default d o).
Proof. by destruct o. Qed.

Ltac run_demo :=
  rewrite <-?surjective_pairing; apply default_some; vm_compute; reflexivity.

(** ** The group *)

Definition rnd3 (i j : nat) : string := "end-" +:+ Itoa (Z.of_nat i) +:+ "-" +:+ Itoa (Z.of_nat j).
Definition rnd_again (gen : nat) (i j : nat) : string :=
  "end-" +:+ Itoa (Z.of_nat gen) +:+ "-" +:+ Itoa (Z.of_nat i) +:+ "-" +:+ Itoa (Z.of_nat j).

Definition no_group : ServerGrp := MkServerGrp [] [] 0 [].
Definition made : ServerGrp * Network string := default (no_group, MakeNetwork) (makeSrvGrp rnd3 0 3 MakeNetwork).
Definition made_world : ServerGrp * DWorld := (made.1, init_world made.2 ∅).

Definition start_all : list (GOp (D := Z)) :=
  (λ i : nat, GStart (rnd_again 1 i) true i (Z.of_nat i)) <$> seq 0 3.
Definition connect_all : list (GOp (D := Z)) := (λ i, GConnect i [0; 1; 2]) <$> [0; 1; 2].

Definition call_of (i j : nat) : reqMsg string := MkReqMsg (rnd_again 1 i j) "C.Inc" [].

(** Server 0 calls server 1 twice. *)
Definition two_calls : list (GOp (D := Z)) :=
  GEvent <$> [EvTake 0 (call_of 0 1); EvStart 0 false; EvRun 0; EvFinish 0 false false;
              EvTake 1 (call_of 0 1); EvStart 1 false; EvRun 1].

Definition run_ops : list (GOp (D := Z)) := start_all ++ connect_all ++ two_calls.
Definition running_st : ServerGrp * DWorld := default made_world (g_exec run_ops made_world).

Lemma running_reach : g_reach running_st.1 running_st.2.
Proof.
  exists rnd3, 0, 3, made.1, made.2, run_ops. split; [lia|].
  split; [vm_compute; reflexivity|]. apply g_exec_run. rewrite <-surjective_pairing.
  apply default_some. vm_compute. reflexivity.
Qed.

Lemma group_invariant_witness : g_reach running_st.1 running_st.2 ∧
  ∃ e, end_of running_st.1 0 1 = Some e ∧ e ∈ ends (net running_st.2) ∧
    connections (net running_st.2) !! e = Some (Some (ServerName (gid running_st.1) 1)) ∧
    ∀ i' j', end_of running_st.1 i' j' = Some e → i' = 0 ∧ j' = 1.
Proof.
  split; [apply running_reach|].
  apply (group_invariant running_st.1 running_st.2 running_reach); vm_compute; done.
Defined.

Lemma g_op_simulated_witness :
  g_op (GIsolate 1) running_st = Some (default running_st (isolate 1 running_st)) ∧
  simulated running_st.2 (default running_st (isolate 1 running_st)).2.
Proof.
  assert (g_op (GIsolate 1) running_st = Some (default running_st (isolate 1 running_st))) as H
    by (apply default_some; vm_compute; reflexivity).
  split; [exact H|].
  apply (g_op_simulated (GIsolate 1) running_st.1 running_st.2
           (default running_st (isolate 1 running_st)).1); [exact I|].
  rewrite <-!surjective_pairing. exact H.
Defined.

(** ** Choosing a partition, and calls across it *)

Lemma MakePartition_spec_witness : N running_st.1 = 3 ∧
  ∃ p1 p2, MakePartition 1 running_st.1 = Some (p1, p2) ∧ p1 ++ p2 ≡ₚ all running_st.1 ∧
    (∀ i, i ∈ p1 → i ∉ p2) ∧ len p1 = N running_st.1 / 2 + 1 ∧ 1 ∈ p2.
Proof.
  split; [vm_compute; reflexivity|].
  apply (MakePartition_spec 1 running_st.1); vm_compute; [done|done|split; done].
Defined.

Example MakePartition_4 : MakePartition 1 (MkServerGrp (replicate 4 (MkServer None [] None)) [] 0 [])
  = Some ([0; 2; 3], [0; 1]).
Proof. reflexivity. Qed.

Lemma running_shape : group_shape running_st.1.
Proof. eapply ok_shape, reach_ok, running_reach. Qed.

Lemma parts_disjoint (x : Z) : x ∈ [0; 2] → x ∉ [1].
Proof. rewrite !elem_of_cons, !elem_of_nil. lia. Qed.

Lemma parts_members : Forall (member running_st.1) ([0; 2] ++ [1]).
Proof. repeat constructor; vm_compute; done. Qed.

Lemma Partition_spec_witness :
  ∃ conn en, Partition [0; 2] [1] (running_st.1, net running_st.2) =
      Some (set_connected conn running_st.1, set_enabled en (net running_st.2)) ∧
    len conn = len (connected running_st.1) ∧
    ∀ a b e, end_of running_st.1 a b = Some e →
      (a ∈ [0; 2] ∧ b ∈ [0; 2] ∨ a ∈ [1] ∧ b ∈ [1] → en !! e = Some true) ∧
      (a ∈ [0; 2] ∧ b ∈ [1] ∨ a ∈ [1] ∧ b ∈ [0; 2] → en !! e = Some false) ∧
      (a ∉ [0; 2] ++ [1] ∨ b ∉ [0; 2] ++ [1] → en !! e = enabled (net running_st.2) !! e).
Proof.
  apply (Partition_spec [0; 2] [1] running_st.1 (net running_st.2) running_shape
    parts_members parts_disjoint).
Defined.

Definition parted : ServerGrp * DWorld := default running_st (on_net (Partition [0; 2] [1]) running_st).

Lemma parted_eq : on_net (Partition [0; 2] [1]) (running_st.1, running_st.2) = Some (parted.1, parted.2).
Proof. run_demo. Qed.

Lemma running_2 : running running_st.1 running_st.2 2 2 (MakePersister, 0).
Proof. split; vm_compute; reflexivity. Qed.

Lemma running_1 : running running_st.1 running_st.2 1 1 (Save MakePersister [2] [], 2).
Proof. split; vm_compute; reflexivity. Qed.

(** Server 0 calls server 2, of its part, and server 1, of the other. *)
Lemma partition_calls_witness :
  (let '(p', r) := prog_call "C.Inc" [] (MakePersister, 0) in
   ∃ w'', happens [EvTake 2 (call_of 0 2); EvStart 2 false; EvRun 2; EvFinish 2 false false] parted.2 = Some w'' ∧
     Forward_result 2 w'' = Some r ∧ process 2 (heap w'') = Some p') ∧
  (∃ w'', happens [EvTake 2 (call_of 0 1); EvStart 2 false; EvTimer 2] parted.2 = Some w'' ∧
     Forward_result 2 w'' = Some ([], false) ∧ heap w'' = heap running_st.2).
Proof.
  assert (reliable (net running_st.2) = true) as H1 by (vm_compute; reflexivity).
  assert (longReordering (net running_st.2) = false) as H2 by (vm_compute; reflexivity).
  assert (listening running_st.2 = true) as H3 by (vm_compute; reflexivity).
  assert (reqs running_st.2 !! 2%nat = None) as H4 by (vm_compute; reflexivity).
  assert (end_of running_st.1 0 2 = Some (endname (call_of 0 2))) as H5 by (vm_compute; reflexivity).
  assert (end_of running_st.1 0 1 = Some (endname (call_of 0 1))) as H6 by (vm_compute; reflexivity).
  assert (is_Some (split_method "C.Inc")) as H7 by (by eexists).
  pose proof (partition_calls running_st.1 running_st.2 [0; 2] [1] parted.1 parted.2 0 2 2
      (MakePersister, 0) 2 (call_of 0 2) false false false running_reach parts_members
      parts_disjoint parted_eq H1 H2 H3 H4 H5 H7 running_2) as [Hin _].
  pose proof (partition_calls running_st.1 running_st.2 [0; 2] [1] parted.1 parted.2 0 1 1
      (Save MakePersister [2] [], 2) 2 (call_of 0 1) false false false running_reach parts_members
      parts_disjoint parted_eq H1 H2 H3 H4 H6 H7 running_1) as [_ Hout].
  split; [apply Hin|apply Hout]; left; split; repeat constructor.
Defined.

(** ** Shutting a server down and starting it again *)

(** Server 1 has answered one call and has just run another. *)
Definition isolated : ServerGrp * DWorld := default running_st (isolate 1 running_st).
Definition stopped : ServerGrp * DWorld := default running_st (stop_process 1 isolated).
Definition meanwhile : list (GOp (D := Z)) := [GEvent (EvFinish 1 false false); GConnect 1 [0; 1; 2]].
Definition later : ServerGrp * DWorld := default running_st (g_exec meanwhile stopped).
Definition restarted : ServerGrp * DWorld := default running_st (StartServer (rnd_again 2 1) true 9 1 later).

Lemma isolated_eq : isolate 1 (running_st.1, running_st.2) = Some (isolated.1, isolated.2).
Proof. run_demo. Qed.

Lemma later_run : g_run meanwhile (stopped.1, stopped.2) (later.1, later.2).
Proof.
  apply g_exec_run. run_demo.
Qed.

Lemma isolated_reach : g_reach isolated.1 isolated.2.
Proof.
  exists rnd3, 0, 3, made.1, made.2, (run_ops ++ [GIsolate 1]). split; [lia|].
  split; [vm_compute; reflexivity|]. apply g_exec_run. rewrite <-surjective_pairing.
  transitivity (Some (default running_st (g_exec (run_ops ++ [GIsolate 1]) made_world))).
  - apply default_some. vm_compute. reflexivity.
  - vm_compute. reflexivity.
Qed.

Lemma restart_keeps_state_witness :
  process 1 (heap isolated.2) = Some (Save MakePersister [2] [], 2) ∧
  process 1 (heap stopped.2) = None ∧
  ∃ s', go_index (srvs restarted.1) 1 = Some s' ∧ dc s' = Some 9%nat ∧
    saved s' = Some (Save MakePersister [2] []) ∧
    process 9 (heap restarted.2) = Some (Save MakePersister [2] [],
      prog_start (endNames s') (gid later.1) 1 (Save MakePersister [2] [])) ∧
    ∀ j e, go_index (endNames s') j = Some e → e ∉ ends (net later.2).
Proof.
  split; [vm_compute; reflexivity|].
  apply (restart_keeps_state isolated.1 isolated.2 1
    (MkServer (Some MakePersister) (rnd_again 1 1 <$> seq 0 3) (Some 1%nat)) 1
    (Save MakePersister [2] []) 2 stopped.1 stopped.2 meanwhile later.1 later.2 (rnd_again 2 1) 9
    restarted.1 restarted.2 isolated_reach).
  - vm_compute; reflexivity.
  - reflexivity.
  - vm_compute; reflexivity.
  - run_demo.
  - exact later_run.
  - repeat constructor.
  - run_demo.
Defined.

(** The second call ran before the server was isolated; its answer is lost. *)
Lemma shutdown_silent_witness :
  ech running_st.2 !! 1%nat = Some (MkReplyMsg true [2]) ∧ ∀ rep ok,
  Forward_result 1 later.2 = Some (rep, ok) → rep = [] ∧ ok = false.
Proof.
  split; [vm_compute; reflexivity|]. intros rep ok.
  apply (shutdown_silent running_st.1 running_st.2 1 1 isolated.1 isolated.2
    (GStop 1 :: meanwhile) later.1 later.2 1 "server-0-1" true false rep ok running_reach).
  - vm_compute; reflexivity.
  - exact isolated_eq.
  - vm_compute; reflexivity.
  - apply (g_step _ _ _ (stopped.1, stopped.2)); [exact I| |exact later_run].
    run_demo.
Defined.

Lemma ServerName_inj_witness : ServerName 12 3 = ServerName 12 3 ∧ 12 = 12 ∧ 3 = 3.
Proof. split; [reflexivity|]. exact (ServerName_inj 12 3 12 3 eq_refl). Defined.
