(* ===== verification/RaftGrp.v ===== *)
(** * A Raft cluster of server processes

    The peers of [src/src/raft1/raft.go], each in a server process of
    [src/src/tester1] that serves the methods of [labrpc.MakeService], called
    through the network of [src/src/labrpc/labrpc.go], in a group that a test
    starts, stops, restarts, connects and partitions ([group.go], [srv.go],
    [daemonsrv.go]).  [RaftGrpTheorems.v] shows that what the peers do is what the
    cluster of [RaftNet.v] does, so that the safety of that cluster is the
    safety of this system.

    The services above the peers are a condition [ok] on their inputs, as in
    [RaftNet.v].  A tester's call of a service is an input of its peer. *)
From S2P Require Import Prelude Strs Persister Raft RaftNode RaftTheorems RaftNet.
From S2P Require Import Demux LabRpc Daemon Group GroupTheorems GroupRun GroupOwners.

(** What a process takes from its runtime: the encoder of [labrpc] for the
    messages of Raft, and [runtime.MemStats]. *)
Class Runtime (Cmd : Type) := {
  vote_codec :: Codec RequestVoteArgs;
  vote_reply_codec :: Codec RequestVoteReply;
  append_codec :: Codec (AppendEntriesArgs Cmd);
  append_reply_codec :: Codec AppendEntriesReply;
  install_codec :: Codec InstallSnapshotArgs;
  install_reply_codec :: Codec InstallSnapshotReply;
  HeapAlloc : Raft Cmd → Z;
}.

(** Messages arrive as they were sent, but for empty slices ([decode_install]). *)
Class RuntimeLaws (Cmd : Type) `{!Runtime Cmd} := {
  vote_laws :: CodecLaws RequestVoteArgs;
  vote_reply_laws :: CodecLaws RequestVoteReply;
  append_laws :: CodecLaws (AppendEntriesArgs Cmd);
  append_reply_laws :: CodecLaws AppendEntriesReply;
  install_arrives a : Unmarshall (Marshall a) = Some (decode_install a);
  install_reply_laws :: CodecLaws InstallSnapshotReply;
}.

Section RaftGrp.
Context {Cmd : Type} `{!Gob Cmd, !Runtime Cmd}.

(** ** The process

    [InitDaemon] before it has made its services, with the ends of the peers
    and its number; the process of a peer, at time [now]; a process that a panic
    or [log.Fatalf] has ended. *)
Inductive RaftProc :=
| Booting (peers : list string) (me : Z)
| Serving (peers : list string) (now : Z) (rf : Raft Cmd)
| Panicked.

(** The receiver of the methods, and the time. *)
Definition Host : Type := Z * Raft Cmd.

Definition handle_RequestVote : Handler (St := Host) := λ '(now, rf) args,
  a ← Unmarshall args; '(rf, r) ← RequestVote a now rf; Some ((now, rf), Marshall r).
Definition handle_AppendEntries : Handler (St := Host) := λ '(now, rf) args,
  a ← Unmarshall args; '(rf, r) ← AppendEntries a now rf; Some ((now, rf), Marshall r).
Definition handle_InstallSnapshot : Handler (St := Host) := λ '(now, rf) args,
  a ← Unmarshall args; '(rf, r) ← InstallSnapshot a now rf; Some ((now, rf), Marshall r).

(** The exported methods of [*Raft]; those that are no handlers are never called. *)
Definition not_called : Handler (St := Host) := λ _ _, None.

Definition raft_methods : list (Method Host) :=
  [MkMethod "RequestVote" true 3 true 0 handle_RequestVote;
   MkMethod "AppendEntries" true 3 true 0 handle_AppendEntries;
   MkMethod "InstallSnapshot" true 3 true 0 handle_InstallSnapshot;
   MkMethod "GetState" true 1 false 2 not_called; MkMethod "PersistBytes" true 1 false 1 not_called;
   MkMethod "Snapshot" true 3 false 0 not_called; MkMethod "Start" true 2 false 3 not_called;
   MkMethod "Kill" true 1 false 0 not_called].

Definition raft_service : Service Host := MakeService "Raft" raft_methods.

Definition raft_server (h : Host) : LabRpc.Server Host := AddService raft_service (LabRpc.MakeServer h).

(** A call that reaches the process: a method it does not have, an argument
    that does not decode and a panic of the handler end it.  A process that has
    not added its services yet has none. *)
Definition raft_call (method : string) (args : bytes) (x : Persister * RaftProc)
    : (Persister * RaftProc) * (bytes * bool) :=
  match x.2 with
  | Serving peers now rf =>
      match Dispatch method "" args (raft_server (now, rf)) with
      | Some (rs, r) => let rf := (s_state rs).2 in ((persister rf, Serving peers now rf), r)
      | None => ((x.1, Panicked), ([], false))
      end
  | _ => ((x.1, Panicked), ([], false))
  end.

#[export] Instance raft_program : Program RaftProc := {
  prog_start endNames gid me p := Booting endNames me;
  prog_call := raft_call;
  prog_heap d := match d with Serving _ _ rf => HeapAlloc rf | _ => 0 end;
}.

(** [NewRfsrv] calls [Make] with the persister that [Init] has sent. *)
Definition boot_proc (now draw : Z) (x : Persister * RaftProc) : option (Persister * RaftProc) :=
  match x.2 with
  | Booting peers me =>
      let rf := Make (len peers) me x.1 now draw in Some (persister rf, Serving peers now rf)
  | _ => None
  end.

(** ** Calls of a process *)

Definition req_method (req : Request Cmd) : string :=
  match req with
  | ReqVote _ => "Raft.RequestVote"
  | ReqAppend _ => "Raft.AppendEntries"
  | ReqInstall _ => "Raft.InstallSnapshot"
  end.

Definition req_args (req : Request Cmd) : bytes :=
  match req with ReqVote a => Marshall a | ReqAppend a => Marshall a | ReqInstall a => Marshall a end.

Definition req_reply (req : Request Cmd) (b : bytes) : option Reply :=
  match req with
  | ReqVote _ => RepVote <$> Unmarshall b
  | ReqAppend _ => RepAppend <$> Unmarshall b
  | ReqInstall _ => RepInstall <$> Unmarshall b
  end.

(** A call that the process at [o_addr], server [o_from], makes to server
    [o_peer] through its end [o_end]: [o_id] is the request in the network, once
    the tester has it ([TesterRPC.Forward]). *)
Record Out := MkOut {
  o_addr : nat;
  o_from : Z;
  o_peer : Z;
  o_end : string;
  o_req : Request Cmd;
  o_id : option nat;
}.

Definition sent (id : nat) (o : Out) : Out :=
  MkOut (o_addr o) (o_from o) (o_peer o) (o_end o) (o_req o) (Some id).

Definition out_msg (o : Out) : reqMsg string :=
  MkReqMsg (o_end o) (req_method (o_req o)) (req_args (o_req o)).

(** ** What a process does by itself *)

(** The clock goes on; an input from the service, a timer or the apply
    goroutine; a goroutine runs up to its call. *)
Inductive ProcMove :=
| PClock (now : Z)
| PInput (inp : Input Cmd)
| PGo (k : nat).

Section Moves.
Context (ok : Input Cmd → Raft Cmd → bool).

(** The process when its peer is done, or has panicked. *)
Definition after (p : Persister) (peers : list string) (now : Z) (o : option (Raft Cmd))
    : Persister * RaftProc :=
  match o with Some rf => (persister rf, Serving peers now rf) | None => (p, Panicked) end.

(** [a] is the address of the process; also the call it makes, if any, which
    indexes [rf.peers]. *)
Definition proc_move (a : nat) (m : ProcMove) (x : Persister * RaftProc)
    : option ((Persister * RaftProc) * list Out) :=
  match x.2 with
  | Serving peers now rf =>
      match m with
      | PClock now' => Some ((x.1, Serving peers now' rf), [])
      | PInput inp =>
          if local_input inp && ok inp rf then Some (after x.1 peers now (handle inp rf), [])
          else None
      | PGo k =>
          g ← started rf !! k;
          match run_goroutine g (set_started (take k (started rf) ++ drop (S k) (started rf)) rf) with
          | Some (rf', Some (peer, req)) =>
              match go_index peers peer with
              | Some e => Some (after x.1 peers now (Some rf'), [MkOut a (me rf) peer e req None])
              | None => Some ((x.1, Panicked), [])
              end
          | Some (rf', None) => Some (after x.1 peers now (Some rf'), [])
          | None => Some ((x.1, Panicked), [])
          end
      end
  | _ => None
  end.

(** [Call] returns true with [rep]; a call that returns false ends its goroutine
    and is no step. *)
Definition proc_return (peer : Z) (req : Request Cmd) (rep : bytes) (x : Persister * RaftProc)
    : option (Persister * RaftProc) :=
  match x.2 with
  | Serving peers now rf => Some (after x.1 peers now (r ← req_reply req rep; absorb peer req r rf))
  | _ => None
  end.

(** ** The system *)

Abbreviation GWorld := (World string (Process (D := RaftProc))).

(** [rg_cut] are the processes whose state [CheckpointPersister] has fetched:
    they have closed their connection to the tester, and go on until they are
    killed.  [rg_outs] are the calls of the others, and those that a process of
    [rg_cut] had made when it was cut. *)
Record RGSys := MkRGSys { rg_st : ServerGrp * GWorld; rg_outs : list Out; rg_cut : gset nat }.

(** What the test and the network do: the test leaves the ends and the servers
    of the group to the operations on the group, and requests come from peers. *)
Definition by_test (o : GOp (D := RaftProc)) : bool :=
  match o with
  | GStart _ _ _ _ | GStop _ | GProc _ _ => false
  | GEvent (EvOp o) =>
      match o with
      | OpReliable _ | OpLongReordering _ | OpLongDelays _ | OpEnable _ _ => true
      | _ => false
      end
  | GEvent (EvServer _ _) | GEvent (EvTake _ _) => false
  | _ => true
  end.

(** [StartServer] on a server that is not running waits until the process has
    made its services ([waitInit]). *)
Definition rg_start (rnd : nat → string) (started : bool) (a : nat) (i now draw : Z)
    (st : ServerGrp * GWorld) : option (ServerGrp * GWorld) :=
  s ← go_index (srvs st.1) i;
  if decide (dc s = None ∧ heap st.2 !! a = None) then
    st ← g_op (GStart rnd started a i) st;
    if started then x ← process a (heap st.2); x ← boot_proc now draw x; g_op (GProc a x) st
    else Some st
  else None.

(** [ShutdownServer i] is [GIsolate i] and the two steps of [shutdownServer], the
    first of which runs when the server is deleted from the network.  In between
    the process goes on: it serves the requests that are still under way to it,
    runs its goroutines and takes the replies it has read, but no call of its
    goes out any more. *)
Inductive RGMove :=
| RTest (o : GOp (D := RaftProc))
| RStart (rnd : nat → string) (started : bool) (a : nat) (i now draw : Z)
| RCheckpoint (i : Z)
| RKill (i : Z)
| RProc (a : nat) (m : ProcMove)
| RSend (k id : nat)
| RReturn (k : nat).

Definition rg_move (m : RGMove) (σ : RGSys) : option RGSys :=
  let st := rg_st σ in let outs := rg_outs σ in let cut := rg_cut σ in
  match m with
  | RTest o => if by_test o then st ← g_op o st; Some (MkRGSys st outs cut) else None
  | RStart rnd started a i now draw =>
      st ← rg_start rnd started a i now draw st; Some (MkRGSys st outs cut)
  | RCheckpoint i =>
      s ← go_index (srvs st.1) i; a ← dc s;
      if decide (servers (net st.2) !! ServerName (gid st.1) i = Some None ∧ a ∉ cut) then
        st ← checkpoint_server i st; Some (MkRGSys st outs ({[a]} ∪ cut))
      else None
  | RKill i =>
      s ← go_index (srvs st.1) i; a ← dc s;
      if decide (a ∈ cut) then st ← kill_server i st; Some (MkRGSys st outs cut) else None
  | RProc a m =>
      x ← process a (heap st.2); '(x, os) ← proc_move a m x; st ← g_op (GProc a x) st;
      Some (MkRGSys st (outs ++ (if decide (a ∈ cut) then [] else os)) cut)
  | RSend k id =>
      o ← outs !! k; e ← LookupEnd (o_end o) (net st.2);
      match o_id o with
      | None =>
          st ← g_op (GEvent (EvTake id (out_msg o))) st;
          Some (MkRGSys st (<[k := sent id o]> outs) cut)
      | Some _ => None
      end
  | RReturn k =>
      o ← outs !! k; id ← o_id o; '(rep, ok) ← Forward_result id st.2;
      if (ok : bool) then
        x ← process (o_addr o) (heap st.2); x ← proc_return (o_peer o) (o_req o) rep x;
        st ← g_op (GProc (o_addr o) x) st;
        Some (MkRGSys st (if decide (o_addr o ∈ cut) then outs else delete k outs) cut)
      else None
  end.

Definition rg_step (σ σ' : RGSys) : Prop := ∃ m, rg_move m σ = Some σ'.

(** The group as the test makes it, with no process yet. *)
Definition rg_init (sg : ServerGrp) (rn : Network string) : RGSys :=
  MkRGSys (sg, init_world rn ∅) [] ∅.

Definition rg_reach (rnd : nat → nat → string) (g n : Z) (σ : RGSys) : Prop :=
  ∃ sg rn, makeSrvGrp rnd g n MakeNetwork = Some (sg, rn) ∧ rtc rg_step (rg_init sg rn) σ.

(** The process of a server, while it can be heard. *)
Definition heard (cut : gset nat) (s : Server) : option nat :=
  a ← dc s; if decide (a ∈ cut) then None else Some a.

(** The peer of server [i], while its process runs and can be heard.  A process
    between the moment its state is saved and the moment it is killed has none: it
    still runs, but what it does then is lost with it. *)
Definition peer_of (i : Z) (σ : RGSys) : option (Raft Cmd) :=
  s ← go_index (srvs (rg_st σ).1) i; a ← heard (rg_cut σ) s; x ← process a (heap (rg_st σ).2);
  match x.2 with Serving _ _ rf => Some rf | _ => None end.

Fixpoint rg_moves (ms : list RGMove) (σ : RGSys) : option RGSys :=
  match ms with [] => Some σ | m :: ms => σ ← rg_move m σ; rg_moves ms σ end.

Lemma rg_moves_steps ms σ σ' : rg_moves ms σ = Some σ' → rtc rg_step σ σ'.
Proof.
  revert σ. induction ms as [|m ms IH]; intros σ; simpl; [intros [= ->]; constructor|].
  intros (σ1 & H1 & H2)%bind_Some. eapply rtc_l; [by exists m|by apply IH].
Qed.
End Moves.
End RaftGrp.

Arguments RaftProc : clear implicits.
Arguments Out : clear implicits.
Arguments RGSys : clear implicits.
Arguments RGMove : clear implicits.
Arguments ProcMove : clear implicits.
