(* ===== verification/RaftGrpTheorems.v ===== *)
(** * Raft in processes is Raft

    Every run of the system of [RaftGrp.v] is a run of the cluster of
    [RaftNet.v]: whatever the network of [labrpc.go] drops, delays and reorders,
    and however the test connects, partitions, kills and restarts the servers, a
    peer is in a state that the cluster can reach, and what a restarted process
    finds in its persister is what its peer had persisted.  So the safety of the
    cluster is the safety of the processes, and no process ever panics. *)
From S2P Require Import Prelude Strs Persister Demux LabRpc LabRpcTheorems Daemon.
From S2P Require Import Group GroupTheorems GroupRun GroupOwners Raft RaftNode RaftTheorems RaftNet RaftElection.
From S2P Require Import RaftProtocol RaftCommit RaftRefine RaftSimLocal GobString RaftSafety RaftGrp.

(** ** A call that reaches the process of a peer *)

Section Calls.
Context {Cmd : Type} `{!Gob Cmd, !Runtime Cmd, !RuntimeLaws Cmd}.
Implicit Types rf : Raft Cmd.
Implicit Types req : Request Cmd.

Definition rep_bytes (r : Reply) : bytes :=
  match r with RepVote r => Marshall r | RepAppend r => Marshall r | RepInstall r => Marshall r end.

(** A reply of the kind the request asks for. *)
Definition rep_for req (r : Reply) : Prop :=
  match req, r with
  | ReqVote _, RepVote _ | ReqAppend _, RepAppend _ | ReqInstall _, RepInstall _ => True
  | _, _ => False
  end.

Lemma serve_rep_for req now rf rf' rep : serve req now rf = Some (rf', rep) → rep_for req rep.
Proof. destruct req; cbn; intros ([rf1 r] & _ & [= _ <-])%bind_Some; done. Qed.

Lemma req_reply_bytes req r : rep_for req r → req_reply req (rep_bytes r) = Some r.
Proof. destruct req, r; cbn; try done; intros _; by rewrite codec_roundtrip. Qed.

Lemma is_method req : is_Some (split_method (req_method req)).
Proof. by destruct req; eexists. Qed.

Lemma raft_call_serve req p peers now rf :
  raft_call (req_method req) (req_args req) (p, Serving peers now rf) =
    match serve req now rf with
    | Some (rf', rep) => ((persister rf', Serving peers now rf'), (rep_bytes rep, true))
    | None => ((p, Panicked), ([], false))
    end.
Proof.
  unfold raft_call, Dispatch, dispatch. cbn [snd fst LabRpc.svcMeth LabRpc.r_args].
  destruct req as [a|a|a]; cbn [req_method req_args serve];
    match goal with |- context [split_method ?s] =>
      assert (is_Some (split_method s)) as [[svc meth] Hs] by (by eexists); rewrite Hs;
      vm_compute in Hs; injection Hs as <- <- end;
    cbn [mbind option_bind raft_server AddService LabRpc.services LabRpc.dispatchf LabRpc.MakeServer
         LabRpc.s_state LabRpc.s_count svc_name raft_service MakeService];
    rewrite lookup_insert_eq; cbn [mbind option_bind]; unfold Service_dispatch.
  - change (methods raft_service !! _) with (Some handle_RequestVote). cbn.
    rewrite codec_roundtrip. cbn. by destruct (RequestVote a now rf) as [[]|].
  - change (methods raft_service !! _) with (Some handle_AppendEntries). cbn.
    rewrite codec_roundtrip. cbn. by destruct (AppendEntries a now rf) as [[]|].
  - change (methods raft_service !! _) with (Some handle_InstallSnapshot). cbn.
    rewrite install_arrives. cbn. by destruct (InstallSnapshot _ now rf) as [[]|].
Qed.
End Calls.

(** ** The relation *)

Lemma Forall2_set {A B} (P Q : A → B → Prop) l k i x y :
  Forall2 P l k → is_Some (l !! i) → Q x y →
  (∀ j a b, j ≠ i → l !! j = Some a → P a b → Q a b) → Forall2 Q (<[i := x]> l) (<[i := y]> k).
Proof.
  intros HP Hi%lookup_lt_is_Some Hxy HQ. pose proof (Forall2_length HP) as Hlen.
  apply Forall2_lookup. intros j. destruct (decide (j = i)) as [->|Hne].
  - rewrite !list_lookup_insert_eq by congruence. by constructor.
  - rewrite !list_lookup_insert_ne by done.
    pose proof (proj1 (Forall2_lookup _ _ _) HP j) as Hj. specialize (HQ j).
    destruct Hj as [a b Hab|]; constructor. by eapply HQ.
Qed.

Lemma Forall2_impl_strong {A B} (P Q : A → B → Prop) l k :
  Forall2 P l k → (∀ x y, x ∈ l → P x y → Q x y) → Forall2 Q l k.
Proof.
  induction 1 as [|x y l k Hxy _ IH]; intros HQ; constructor; [apply HQ; [set_solver|done]|].
  apply IH. intros x' y' Hx'. apply HQ. set_solver.
Qed.

Lemma lookup_delete_inv {A} (l : list A) k i x :
  delete k l !! i = Some x → ∃ j, l !! j = Some x ∧ j ≠ k ∧ j = if decide (i < k)%nat then i else S i.
Proof.
  intros H. case_decide as Hi.
  - rewrite list_lookup_delete_lt in H by done. exists i. split; [done|lia].
  - rewrite list_lookup_delete_ge in H by lia. exists (S i). split; [done|lia].
Qed.

Lemma elem_delete {A} (l : list A) k j x : l !! j = Some x → j ≠ k → x ∈ delete k l.
Proof.
  intros Hj Hne. apply list_elem_of_lookup. destruct (decide (j < k)%nat).
  - exists j. by rewrite list_lookup_delete_lt.
  - exists (j - 1)%nat. rewrite list_lookup_delete_ge by lia. rewrite <-Hj. f_equal. lia.
Qed.

Lemma heard_some (cut : gset nat) s a : heard cut s = Some a ↔ dc s = Some a ∧ a ∉ cut.
Proof. unfold heard. destruct (dc s) as [b|]; cbn; [case_decide|]; naive_solver. Qed.

Lemma heard_none (cut : gset nat) s a : dc s = Some a → a ∈ cut → heard cut s = None.
Proof. intros Hd Ha. unfold heard. rewrite Hd. cbn. by rewrite decide_True. Qed.

Section Relation.
Context {Cmd : Type} `{!Gob Cmd, !GobLaws Cmd, !Runtime Cmd, !RuntimeLaws Cmd}.
Context (n : Z) (times draws : Z → Z).
Abbreviation GWorld := (LabRpc.World string (Process (D := RaftProc Cmd))).
Abbreviation cstep := (step (Cmd := Cmd) snapshot_contract).
Abbreviation creach := (reachable (Cmd := Cmd) snapshot_contract n times draws).
Implicit Types (w : GWorld) (st : ServerGrp * GWorld) (σ : RGSys Cmd).
Implicit Types (rf : Raft Cmd) (c : Cluster Cmd) (o : Out Cmd) (outs : list (Out Cmd)) (cut : gset nat).

(** The calls of the processes: their ends lead to the servers they are meant
    for, each has its own request, and only their requests are under way. *)
Record outs_ok st outs : Prop := {
  oo_end o : o ∈ outs → o_end o ∈ ends (net st.2) ∧
    connections (net st.2) !! o_end o = Some (Some (ServerName (gid st.1) (o_peer o)));
  oo_from o : o ∈ outs → is_Some (heap st.2 !! o_addr o) ∧ owns st (o_from o) (o_addr o);
  oo_req o id : o ∈ outs → o_id o = Some id → reqs st.2 !! id = Some (out_msg o);
  oo_jobs id a : jobs st.2 !! id = Some a →
    is_Some (heap st.2 !! a) ∧ ∃ o, o ∈ outs ∧ o_id o = Some id ∧ owns st (o_peer o) a;
  oo_waits id y : waits st.2 !! id = Some y → finished y ∨ ∃ o, o ∈ outs ∧ o_id o = Some id;
  oo_ids k k' o o' id : outs !! k = Some o → outs !! k' = Some o' →
    o_id o = Some id → o_id o' = Some id → k = k';
}.

(** Server [i] and its peer: the peer of its process, and what is persisted is
    what the process, or the tester for the next one, has.  What a process does
    after its state was fetched is lost: the peer stays as it was. *)
Definition node_at (cut : gset nat) st (i : Z) rf : Prop :=
  ∃ s, go_index (srvs st.1) i = Some s ∧
    match heard cut s with
    | Some a => ∃ now, process a (heap st.2) = Some (persister rf, Serving (endNames s) now rf)
    | None => default MakePersister (saved s) = persister rf
    end.

(** A call of a process and of a peer: the handler of the peer has run when a
    request was answered with true, or the answer is not delivered. *)
Definition out_rel (cut : gset nat) w o (cl : Call Cmd) : Prop :=
  c_from cl = o_from o ∧ c_to cl = o_peer o ∧ c_req cl = o_req o ∧
  (alive w (o_addr o) → c_live cl = true) ∧
  match c_rep cl with
  | None => ∀ id a r, o_id o = Some id → (id, a, r) ∈ execs w →
      LabRpc.ok r = false ∨ a ∈ cut ∧ unanswered a id w
  | Some rep => rep_for (o_req o) rep ∧
      ∃ id a, o_id o = Some id ∧ (id, a, MkReplyMsg true (rep_bytes rep)) ∈ execs w
  end.

Record rg_rel σ c : Prop := {
  rr_net : net_ok (rg_st σ);
  rr_outs : outs_ok (rg_st σ) (rg_outs σ);
  rr_n : N (rg_st σ).1 = n;
  rr_cut a : a ∈ rg_cut σ → is_Some (heap (rg_st σ).2 !! a) ∧ detached a (rg_st σ).2;
  rr_node i rf : nodes c !! i = Some rf → node_at (rg_cut σ) (rg_st σ) i rf;
  rr_dom i : 0 <= i < n → is_Some (nodes c !! i);
  rr_calls : Forall2 (out_rel (rg_cut σ) (rg_st σ).2) (rg_outs σ) (calls c);
}.

(** ** What a change leaves of it *)

Lemma outs_ok_frame st st' outs :
  outs_ok st outs → moves st st' →
  (∀ id r, reqs st.2 !! id = Some r → reqs st'.2 !! id = Some r) →
  (∀ id a, jobs st'.2 !! id = Some a → jobs st.2 !! id = Some a ∨
     is_Some (heap st'.2 !! a) ∧ ∃ o, o ∈ outs ∧ o_id o = Some id ∧ owns st' (o_peer o) a) →
  (∀ id y, waits st'.2 !! id = Some y →
     waits st.2 !! id = Some y ∨ ∃ y0, waits st.2 !! id = Some y0 ∧ ¬ finished y0) →
  outs_ok st' outs.
Proof.
  intros [O1 O2 O3 O4 O5 O6] [M1 M2 M3 M4 M5] Hr Hj Hw. split; [| | | | |done].
  - intros o Ho. destruct (O1 o Ho) as [He Hc]. destruct (M5 _ He) as [? ->]. by rewrite M1.
  - intros o Ho. destruct (O2 o Ho) as [Hh How]. split; [by apply M3|by apply M4].
  - intros o id Ho Hid. apply Hr. by apply O3.
  - intros id a [Hold|Hnew]%Hj; [|done]. destruct (O4 id a Hold) as (Hh & o & Ho & Hid & Hown).
    split; [by apply M3|]. exists o. split; [done|]. split; [done|by apply M4].
  - intros id y [Hy|(y0 & Hy & Hf)]%Hw; [by apply (O5 id y)|].
    destruct (O5 id y0 Hy) as [|Ho]; [done|by right].
Qed.

Lemma outs_ok_same st st' outs :
  outs_ok st outs → moves st st' → same_reqs st.2 st'.2 → outs_ok st' outs.
Proof.
  intros Ho Hm (E1 & E2 & E3 & E4). eapply outs_ok_frame; [exact Ho|exact Hm|..]; rewrite ?E1, ?E2, ?E3; auto.
Qed.

Lemma out_rel_frame cut w w' o cl :
  (∀ a, alive w' a → alive w a) → execs w' = execs w →
  (∀ a id, a ∈ cut → unanswered a id w → unanswered a id w') →
  out_rel cut w o cl → out_rel cut w' o cl.
Proof.
  intros Ha He Hu (H1 & H2 & H3 & H4 & H5). split_and!; [done..|by eauto|].
  destruct (c_rep cl); rewrite He; [done|]. intros id a r Hid Hin.
  destruct (H5 id a r Hid Hin) as [|[Hc Hun]]; [by left|right]. split; [done|by apply Hu].
Qed.

Lemma outs_rel_frame cut w w' outs cls :
  (∀ a, alive w' a → alive w a) → execs w' = execs w → waits w' = waits w →
  Forall2 (out_rel cut w) outs cls → Forall2 (out_rel cut w') outs cls.
Proof.
  intros Ha He Hw H. eapply list.Forall2_impl; [exact H|]. intros o cl. apply out_rel_frame; [done|done|].
  intros a id _. unfold unanswered. by rewrite Hw.
Qed.

(** The processes that were cut stay off the network. *)
Lemma cut_same σ c st' :
  rg_rel σ c → (∀ a, is_Some (heap (rg_st σ).2 !! a) → is_Some (heap st'.2 !! a)) →
  (∀ s a, is_Some (heap (rg_st σ).2 !! a) →
     servers (net st'.2) !! s = Some (Some a) → servers (net (rg_st σ).2) !! s = Some (Some a)) →
  ∀ a, a ∈ rg_cut σ → is_Some (heap st'.2 !! a) ∧ detached a st'.2.
Proof.
  intros H Hh Hs a Ha. destruct (rr_cut _ _ H a Ha) as [Hi Hd]. split; [by apply Hh|].
  intros s Hsv. apply (Hd s). by apply Hs.
Qed.

Lemma node_at_same cut st st' i rf :
  srvs st'.1 = srvs st.1 → heap st'.2 = heap st.2 → node_at cut st i rf → node_at cut st' i rf.
Proof. intros E1 E2. unfold node_at. by rewrite E1, E2. Qed.

(** The peer of a process that can be heard. *)
Lemma rel_process σ c a x :
  rg_rel σ c → process a (heap (rg_st σ).2) = Some x → a ∉ rg_cut σ →
  ∃ i s now rf, go_index (srvs (rg_st σ).1) i = Some s ∧ heard (rg_cut σ) s = Some a ∧
    nodes c !! i = Some rf ∧ x = (persister rf, Serving (endNames s) now rf).
Proof.
  intros H Hx Ha. destruct (no_procs _ (rr_net _ _ H) a) as (i & s & Hs & Hd); [by exists x|].
  assert (heard (rg_cut σ) s = Some a) as Hhd by by apply heard_some.
  assert (0 <= i < n) as Hi by (rewrite <-(rr_n _ _ H); by eapply go_index_lt).
  destruct (rr_dom _ _ H i Hi) as [rf Hrf]. destruct (rr_node _ _ H i rf Hrf) as (s' & Hs' & Hat).
  assert (s' = s) as -> by congruence. rewrite Hhd in Hat. destruct Hat as [now Hat].
  exists i, s, now, rf. split_and!; congruence.
Qed.

(** A process is server [i]'s, and the other servers do not notice what it does. *)
Lemma node_at_proc cut st st' a x j rf :
  node_at cut st j rf → srvs st'.1 = srvs st.1 → procs_upd st.2 st'.2 a x →
  (∀ s, go_index (srvs st.1) j = Some s → heard cut s ≠ Some a) → node_at cut st' j rf.
Proof.
  intros (s & Hs & Hat) E Hu Hne. exists s. rewrite E. split; [done|]. specialize (Hne s Hs).
  destruct (heard cut s) as [b|]; [|done]. destruct Hat as [now Hat]. exists now.
  rewrite Hu, decide_False; [done|]. by intros ->.
Qed.

(** Peer [i] goes on to [rf']. *)
Lemma node_at_upd σ c a i s now rf' st' :
  rg_rel σ c → go_index (srvs (rg_st σ).1) i = Some s → heard (rg_cut σ) s = Some a →
  srvs st'.1 = srvs (rg_st σ).1 →
  procs_upd (rg_st σ).2 st'.2 a (persister rf', Serving (endNames s) now rf') →
  ∀ j rf, <[i := rf']> (nodes c) !! j = Some rf → node_at (rg_cut σ) st' j rf.
Proof.
  intros H Hs Hd Esrv Hu j rf [[<- <-]|[Hne Hj]]%lookup_insert_Some.
  - exists s. rewrite Esrv, Hd. split; [done|]. exists now. by rewrite Hu, decide_True.
  - eapply node_at_proc; [by apply (rr_node _ _ H)|done|exact Hu|].
    intros s' Hs' [Hd' _]%heard_some. apply heard_some in Hd as [Hd _]. apply Hne.
    by apply (go_dc_inj _ _ (no_grp _ (rr_net _ _ H)) i s j s' a).
Qed.

Lemma dom_upd c i rf' : (∀ j, 0 <= j < n → is_Some (nodes c !! j)) →
  ∀ j, 0 <= j < n → is_Some (<[i := rf']> (nodes c) !! j).
Proof. intros H j Hj. rewrite lookup_insert_is_Some. destruct (decide (i = j)); auto. Qed.

Lemma creach_node c i rf : creach c → nodes c !! i = Some rf → 0 <= i < n ∧ me rf = i ∧ npeers rf = n.
Proof using All.
  intros Hr Hi. destruct (reachable_election n snapshot_contract times draws c Hr) as [V HV].
  destruct (ei_node _ _ _ HV i rf Hi) as (? & ? & ? & _). done.
Qed.

Lemma creach_call c cl : 0 <= n → creach c → cl ∈ calls c → 0 <= c_to cl < n.
Proof using All.
  intros Hn Hr Hcl. destruct (reachable_rel n times draws c Hn Hr) as (g & H & _).
  by destruct (cr_call _ _ _ H cl Hcl).
Qed.
(** ** The test and the network *)

Lemma by_test_legal (op : GOp (D := RaftProc Cmd)) st : by_test op = true → g_legal op st.
Proof. destruct op as [| | | | | |e|]; try done. destruct e as [o0| | | | | | | | |]; try done. by destruct o0. Qed.

(** Nothing has happened that a peer could notice. *)
Lemma rel_same σ c st' :
  rg_rel σ c → net_ok st' → same_servers (rg_st σ) st' → heap st'.2 = heap (rg_st σ).2 →
  execs st'.2 = execs (rg_st σ).2 →
  (∀ a id, a ∈ rg_cut σ → unanswered a id (rg_st σ).2 → unanswered a id st'.2) →
  outs_ok st' (rg_outs σ) → rg_rel (MkRGSys st' (rg_outs σ) (rg_cut σ)) c.
Proof.
  intros H Hn Hs Hh He Hu Ho. pose proof (ss_srvs _ _ Hs) as Es. split; cbn; [done|done| | | |apply H|].
  - unfold N. rewrite Es. apply H.
  - eapply cut_same; [exact H|apply Hs|]. intros s a _. apply Hs.
  - intros i rf Hi. eapply node_at_same; [exact Es|exact Hh|by apply H].
  - eapply list.Forall2_impl; [apply H|]. intros o cl. apply out_rel_frame; [apply Hs|done|done].
Qed.

Lemma sim_on_net σ c op st' :
  rg_rel σ c → by_test op = true → g_op op (rg_st σ) = Some st' →
  same_servers (rg_st σ) st' ∧ same_reqs (rg_st σ).2 st'.2 ∧ heap st'.2 = heap (rg_st σ).2 →
  rg_rel (MkRGSys st' (rg_outs σ) (rg_cut σ)) c.
Proof.
  intros H Hb Ho (Hs & Hr & Hh). apply rel_same; [done| |done|done|by apply Hr| |].
  - eapply net_ok_same; [apply H|by apply by_test_legal|exact Ho|done].
  - intros a id _. unfold unanswered. by rewrite (proj1 (proj2 Hr)).
  - eapply outs_ok_same; [apply H|by apply moves_same|done].
Qed.

Lemma sim_event σ c e w' :
  rg_rel σ c → by_test (GEvent e) = true → quiet_kind e = true → happen e (rg_st σ).2 = Some w' →
  rg_rel (MkRGSys ((rg_st σ).1, w') (rg_outs σ) (rg_cut σ)) c.
Proof.
  intros H Hb Hq Hh.
  assert (leaves_ways e = true) as Hl by (destruct e as [o0| | | | | | | | |]; try done; by destruct o0).
  destruct (event_same e (rg_st σ) w' Hq Hl Hh) as [Hs [Q1 Q2 Q3 Q4 Q5]].
  assert (g_op (GEvent e) (rg_st σ) = Some ((rg_st σ).1, w')) as Hop by (cbn; by rewrite Hh).
  apply rel_same; cbn; [done| |done|done|done| |].
  { eapply net_ok_same; [apply H|by apply by_test_legal|exact Hop|done]. }
  { intros a id Ha Hun. eapply happen_unanswered; [apply H|by apply (rr_cut _ _ H)|exact Hun|exact Hh]. }
  eapply outs_ok_frame; [apply H|by apply moves_same|cbn; by rewrite Q2| |exact Q5]. cbn. rewrite Q1.
  intros id a Ha. destruct (Q4 id) as [E|[Ht Hj]]; [left; by rewrite <-E|right].
  destruct (Hj a Ha) as (req & nm & Hreq & Hcon & Hsv).
  split; [by eapply go_heap; [apply (no_grp _ (rr_net _ _ H))|]|].
  destruct (oo_waits _ _ (rr_outs _ _ H) id WTaken Ht) as [[r ?]|(o & Ho & Hid)]; [done|].
  exists o. split; [done|]. split; [done|]. apply (mv_owns _ _ (moves_same _ _ Hs)).
  - by eapply go_heap; [apply (no_grp _ (rr_net _ _ H))|].
  - apply (srv_owns _ _ _ (rr_net _ _ H)). destruct (oo_end _ _ (rr_outs _ _ H) o Ho) as [_ Hc].
    rewrite (oo_req _ _ (rr_outs _ _ H) o id Ho Hid) in Hreq. injection Hreq as <-.
    cbn in Hcon. congruence.
Qed.

(** ** A server is shut down *)

(** Server [i] has changed and is not heard; its peer stays. *)
Lemma node_at_stopped cut cut' st st' i s s' rf :
  go_index (srvs st.1) i = Some s → srv_upd i s' st st' → heard cut' s' = None →
  default MakePersister (saved s') = persister rf → node_at cut' st' i rf.
Proof.
  intros Hs (_ & _ & E) Hd Hsv. exists s'. rewrite E, decide_True, Hd by done. done.
Qed.

Lemma node_at_other cut cut' st st' i s' j rf :
  srv_upd i s' st st' → j ≠ i → node_at cut st j rf →
  (∀ sj, go_index (srvs st.1) j = Some sj → heard cut' sj = heard cut sj) →
  (∀ sj b, go_index (srvs st.1) j = Some sj → heard cut sj = Some b →
     process b (heap st'.2) = process b (heap st.2)) →
  node_at cut' st' j rf.
Proof.
  intros (_ & _ & E) Hne (sj & Hsj & Hat) Hhd Hp. exists sj. rewrite E, decide_False by done.
  split; [done|]. rewrite (Hhd sj Hsj). specialize (Hp sj). destruct (heard cut sj) as [b|]; [|done].
  destruct Hat as [now Hat]. exists now. by rewrite (Hp b).
Qed.

(** The state of the process is what its peer has persisted. *)
Lemma sim_checkpoint σ c i s a st' :
  rg_rel σ c → go_index (srvs (rg_st σ).1) i = Some s → dc s = Some a → a ∉ rg_cut σ →
  servers (net (rg_st σ).2) !! ServerName (gid (rg_st σ).1) i = Some None →
  checkpoint_server i (rg_st σ) = Some st' →
  rg_rel (MkRGSys st' (rg_outs σ) ({[a]} ∪ rg_cut σ)) c.
Proof.
  intros H Hs Hd Ha Hdel Ho. pose proof (rr_net _ _ H) as Hn.
  destruct (checkpoint_spec _ _ _ Hn Ho) as (Hm & Hn' & E & s0 & a0 & p & d & Hs0 & Hd0 & Hp & Hu).
  assert (s0 = s) as -> by congruence. assert (a0 = a) as -> by congruence.
  split; cbn; [done| | | | |apply H|].
  - eapply outs_ok_same; [apply H|done|by rewrite E].
  - rewrite (mv_N _ _ Hm). apply H.
  - rewrite E. intros b [->%elem_of_singleton|Hb]%elem_of_union; [|by apply (rr_cut _ _ H)].
    split; [by apply alive_heap; exists (p, d)|]. intros nm Hnm.
    destruct (no_srv _ Hn nm a Hnm) as (j & -> & Hown).
    assert (j = i) as ->; [|congruence]. eapply current_inj; [apply Hn|apply Hown; by exists (p, d)|by exists s].
  - intros j rf Hj. destruct (decide (j = i)) as [->|Hne].
    + eapply (node_at_stopped (rg_cut σ)); [exact Hs|exact Hu|eapply heard_none; [done|set_solver]|].
      destruct (rr_node _ _ H i rf Hj) as (s1 & Hs1 & Hat). assert (s1 = s) as -> by congruence.
      rewrite (proj2 (heard_some _ _ _) (conj Hd Ha)) in Hat. destruct Hat as [now Hat]. cbn. congruence.
    + eapply node_at_other; [exact Hu|done|by apply (rr_node _ _ H)| |by rewrite E].
      intros sj Hsj. unfold heard. destruct (dc sj) as [b|] eqn:Hb; [|done]. cbn.
      assert (b ≠ a); [|by apply decide_ext; set_solver]. intros ->. apply Hne.
      by apply (go_dc_inj _ _ (no_grp _ Hn) j sj i s a).
  - rewrite E. eapply list.Forall2_impl; [apply H|]. intros o cl (R1 & R2 & R3 & R4 & R5).
    split_and!; [done..|]. destruct (c_rep cl); [done|]. intros id b r Hid Hin.
    destruct (R5 id b r Hid Hin) as [|[? ?]]; [by left|right]. split; [set_solver|done].
Qed.

Lemma sim_kill σ c i s a st' :
  rg_rel σ c → go_index (srvs (rg_st σ).1) i = Some s → dc s = Some a → a ∈ rg_cut σ →
  kill_server i (rg_st σ) = Some st' → rg_rel (MkRGSys st' (rg_outs σ) (rg_cut σ)) c.
Proof.
  intros H Hs Hd Ha Ho. pose proof (rr_net _ _ H) as Hn.
  destruct (kill_spec _ _ _ Hn Ho) as (Hm & Hn' & Hr & En & s0 & a0 & Hs0 & Hd0 & Hu & Hp).
  assert (s0 = s) as -> by congruence. assert (a0 = a) as -> by congruence.
  assert (∀ b, alive st'.2 b → alive (rg_st σ).2 b) as Hal.
  { intros b. unfold alive. rewrite Hp. case_decide; [by intros []|done]. }
  split; cbn; [done| | | | |apply H|].
  - by eapply outs_ok_same; [apply H|..].
  - rewrite (mv_N _ _ Hm). apply H.
  - eapply cut_same; [exact H|apply Hm|]. intros nm b _. by rewrite En.
  - intros j rf Hj. destruct (decide (j = i)) as [->|Hne].
    + eapply (node_at_stopped (rg_cut σ)); [exact Hs|exact Hu|done|].
      destruct (rr_node _ _ H i rf Hj) as (s1 & Hs1 & Hat). assert (s1 = s) as -> by congruence.
      by rewrite (heard_none _ _ _ Hd Ha) in Hat.
    + eapply node_at_other; [exact Hu|done|by apply (rr_node _ _ H)|done|].
      intros sj b Hsj [Hb Hc]%heard_some. rewrite Hp, decide_False; [done|]. by intros ->.
  - eapply outs_rel_frame; [exact Hal|apply Hr|apply Hr|apply H].
Qed.

(** ** A handler runs *)

Definition after_run w (id a : nat) (rs : LabRpc.Server (Process (D := RaftProc Cmd))) (r : replyMsg) : GWorld :=
  MkWorld (net w) (<[a := rs]> (heap w)) (reqs w) (waits w) (delete id (jobs w))
    (<[id := r]> (ech w)) (execs w ++ [(id, a, r)]) (listening w) (LabRpc.done w).

(** The request of a peer is handed to its process. *)
Lemma run_spec st outs id w' :
  net_ok st → outs_ok st outs → run_job id st.2 = Some w' →
  ∃ a k o rs rs' r, outs !! k = Some o ∧ o_id o = Some id ∧ owns st (o_peer o) a ∧
    jobs st.2 !! id = Some a ∧ heap st.2 !! a = Some rs ∧ w' = after_run st.2 id a rs' r ∧
    let '(p', (rep, ok)) := forward (req_method (o_req o)) (req_args (o_req o)) (s_state rs) in
    s_state rs' = p' ∧ r = MkReplyMsg ok rep.
Proof.
  intros Hn Ho. unfold run_job.
  intros (req & Hreq & (a & Ha & (rs & Hrs & ([rs' r] & Hd & [= <-])%bind_Some)%bind_Some)%bind_Some)%bind_Some.
  destruct (oo_jobs _ _ Ho id a Ha) as (_ & o & Hin & Hid & Hown).
  rewrite (oo_req _ _ Ho o id Hin Hid) in Hreq. injection Hreq as <-.
  apply list_elem_of_lookup in Hin as [k Hk]. exists a, k, o, rs, rs', r.
  split; [done|]. split; [done|]. split; [done|]. split; [done|]. split; [done|]. split; [done|].
  unfold dispatch in Hd. apply bind_Some in Hd as ([svc meth] & _ & Hd).
  rewrite (go_fwd _ _ (no_grp _ Hn) a rs Hrs) in Hd. cbn [out_msg LabRpc.svcMeth LabRpc.r_args] in Hd.
  destruct (forward _ _ _) as [p' [rep ok]]. by injection Hd as <- <-.
Qed.

Lemma run_outs_ok st outs id a rs r :
  outs_ok st outs → same_servers st (st.1, after_run st.2 id a rs r) →
  outs_ok (st.1, after_run st.2 id a rs r) outs.
Proof.
  intros Ho Hs. eapply outs_ok_frame; [exact Ho|by apply moves_same|done| |cbn; by auto].
  cbn. intros id' a' [_ Hj]%lookup_delete_Some. by left.
Qed.

(** A call other than the one that ran, or one whose answer is false or is not
    delivered. *)
Lemma out_rel_run cut w w' o cl id a r :
  (∀ b, alive w' b → alive w b) → execs w' = execs w ++ [(id, a, r)] → waits w' = waits w →
  (o_id o ≠ Some id ∨ LabRpc.ok r = false ∨ a ∈ cut ∧ unanswered a id w) →
  out_rel cut w o cl → out_rel cut w' o cl.
Proof.
  intros Hal He Hw Hid (H1 & H2 & H3 & H4 & H5). split_and!; [done..|by eauto|].
  destruct (c_rep cl) as [rep|].
  - destruct H5 as (Hk & id' & a' & Hid' & Hin). split; [done|]. exists id', a'. rewrite He. set_solver.
  - intros id' a' r' Hid'. rewrite He. unfold unanswered. rewrite Hw. fold (unanswered a' id' w).
    intros [Hin|[= -> -> ->]%list_elem_of_singleton]%elem_of_app; [by eapply H5|].
    by destruct Hid as [|[|]]; [|left|right].
Qed.

Lemma upd_alive w w' a x :
  alive w a → procs_upd w w' a x → ∀ b, alive w' b → alive w b.
Proof. intros Ha Hu b. unfold alive. rewrite Hu. by destruct (decide (a = b)) as [<-|]. Qed.

(** The relation after peer [i] has gone on to [rf'], and its process with it. *)
Lemma rel_upd σ c a i s now rf' st' outs cls :
  rg_rel σ c → net_ok st' → outs_ok st' outs → same_servers (rg_st σ) st' →
  go_index (srvs (rg_st σ).1) i = Some s → heard (rg_cut σ) s = Some a →
  procs_upd (rg_st σ).2 st'.2 a (persister rf', Serving (endNames s) now rf') →
  Forall2 (out_rel (rg_cut σ) st'.2) outs cls →
  rg_rel (MkRGSys st' outs (rg_cut σ)) (MkCluster (<[i := rf']> (nodes c)) cls).
Proof.
  intros H Hn Ho Hs Hi Hd Hu Hcls. pose proof (ss_srvs _ _ Hs) as Es. split; cbn; try done.
  - unfold N. rewrite Es. apply H.
  - eapply cut_same; [exact H|apply Hs|]. intros nm b _. apply Hs.
  - by eapply node_at_upd.
  - apply dom_upd, H.
Qed.

Lemma job_not_run w id a a' r : calls_ok w → jobs w !! id = Some a → (id, a', r) ∉ execs w.
Proof.
  intros [_ Hok] Hj Hin%exec_id. destruct (Hok id) as [Hid _].
  destruct (waits w !! id) as [[]|]; naive_solver.
Qed.

(** The caller still waits for it, or has been told that there is no answer. *)
Lemma job_unanswered w id a : calls_ok w → jobs w !! id = Some a → unanswered a id w.
Proof.
  intros [_ Hok] Hj. destruct (Hok id) as [Hid _]. unfold unanswered.
  destruct (waits w !! id) as [[]|]; naive_solver.
Qed.

(** Serving a call, by its place in the list. *)
Lemma serve_step c k cl rf now rf' rep :
  calls c !! k = Some cl → c_rep cl = None → nodes c !! c_to cl = Some rf →
  serve (c_req cl) now rf = Some (rf', rep) →
  cstep c (MkCluster (<[c_to cl := rf']> (nodes c))
    (<[k := MkCall (c_from cl) (c_to cl) (c_req cl) (Some rep) (c_live cl)]> (calls c))).
Proof.
  intros Hk Hr Hn Hs. apply (run_cmove_step _ c (CServe k now)). cbn.
  rewrite Hk. cbn. rewrite Hn. cbn. rewrite Hr, Hs. cbn.
  by rewrite list.insert_take_drop by (by eapply lookup_lt_Some).
Qed.

(** The process at the address is gone and the network answers false, or what it
    does is lost and its answer is not delivered. *)
Lemma sim_run_lost σ c id a k o rs rs' r :
  let st' := ((rg_st σ).1, after_run (rg_st σ).2 id a rs' r) in
  rg_rel σ c → net_ok st' → same_servers (rg_st σ) st' →
  rg_outs σ !! k = Some o → heap (rg_st σ).2 !! a = Some rs → jobs (rg_st σ).2 !! id = Some a →
  s_state rs = None ∧ s_state rs' = None ∧ LabRpc.ok r = false ∨ a ∈ rg_cut σ →
  rg_rel (MkRGSys st' (rg_outs σ) (rg_cut σ)) c.
Proof.
  intros st' H Hn Hs Hk Hrs Hj Hlost.
  split; cbn; [done|by apply run_outs_ok; [apply H|]|apply H| | |apply H|].
  - eapply (cut_same _ _ st'); [exact H|apply Hs|]. intros nm b _. apply Hs.
  - intros i rf Hi. destruct (rr_node _ _ H i rf Hi) as (s & Hsi & Hat). exists s. split; [done|].
    destruct (heard (rg_cut σ) s) as [b|] eqn:Hb; [|done]. destruct Hat as [now Hat]. exists now.
    apply heard_some in Hb as [_ Hb].
    etransitivity; [apply process_insert|]. destruct (decide (a = b)) as [<-|]; [|done].
    destruct Hlost as [(Hst & _)|]; [|done]. rewrite (process_lookup _ _ _ Hrs) in Hat. congruence.
  - eapply list.Forall2_impl; [apply (rr_calls _ _ H)|]. intros o' cl.
    eapply (out_rel_run _ (rg_st σ).2 _ _ _ id a r); [apply Hs|done|done|]. right.
    destruct Hlost as [(_ & _ & ?)|?]; [by left|right]. split; [done|].
    by apply job_unanswered; [apply (rr_net _ _ H)|].
Qed.

(** The peer serves the call. *)
Lemma sim_run_alive σ c id a k o rs' r x :
  let st' := ((rg_st σ).1, after_run (rg_st σ).2 id a rs' r) in
  rg_rel σ c → creach c → net_ok st' → same_servers (rg_st σ) st' →
  rg_outs σ !! k = Some o → o_id o = Some id → owns (rg_st σ) (o_peer o) a →
  jobs (rg_st σ).2 !! id = Some a → process a (heap (rg_st σ).2) = Some x → a ∉ rg_cut σ →
  (let '(p', (rep, ok)) := forward (req_method (o_req o)) (req_args (o_req o)) (Some x) in
   s_state rs' = p' ∧ r = MkReplyMsg ok rep) →
  ∃ c', cstep c c' ∧ rg_rel (MkRGSys st' (rg_outs σ) (rg_cut σ)) c'.
Proof using All.
  intros st' H Hc Hn Hs Hk Hid Hown Hj Hx Hcut Hf.
  destruct (rel_process _ _ _ _ H Hx Hcut) as (i & s & now & rf & Hi & Hd & Hrf & ->).
  assert (o_peer o = i) as Epeer.
  { eapply current_inj; [apply (no_grp _ (rr_net _ _ H))|by apply Hown; eexists|].
    exists s. by apply heard_some in Hd as [? _]. }
  destruct (Forall2_lookup_l _ _ _ _ _ (rr_calls _ _ H) Hk) as (cl & Hcl & Hrel).
  destruct Hrel as (R1 & R2 & R3 & R4 & R5).
  assert (c_rep cl = None) as Hnone.
  { destruct (c_rep cl); [|done]. destruct R5 as (_ & id' & a' & Hid' & Hin).
    exfalso. eapply job_not_run; [apply (rr_net _ _ H)|exact Hj|]. assert (id' = id) as -> by congruence.
    exact Hin. }
  destruct (cluster_no_panic n times draws c Hc) as (_ & _ & Hserve & _).
  destruct (Hserve cl rf now) as [[rf' rep] Hsv];
    [by eapply list_elem_of_lookup_2|by rewrite R2, Epeer|].
  pose proof (serve_step c k cl rf now rf' rep Hcl Hnone ltac:(by rewrite R2, Epeer) Hsv) as Hstep.
  cbn [forward prog_call raft_program] in Hf. rewrite raft_call_serve, <-R3, Hsv in Hf. destruct Hf as [Hst' ->].
  eexists. split; [exact Hstep|]. rewrite R2, Epeer.
  eapply (rel_upd σ c a i s now); [done|done|by apply run_outs_ok; [apply H|]|done|done|done| |].
  - intros b. etransitivity; [apply process_insert|].
    destruct (decide (a = b)); [exact Hst'|done].
  - rewrite <-(list_insert_id (rg_outs σ) k o Hk). eapply Forall2_set; [apply H|by eexists| |].
    + split_and!; cbn; [done|congruence|done|intros Hal; by apply R4, Hs|].
      rewrite <-R3. split; [by eapply serve_rep_for|]. exists id, a. split; [done|]. set_solver.
    + intros k' o' cl' Hne Hk'. eapply (out_rel_run _ (rg_st σ).2 _ _ _ id a); [apply Hs|done|done|].
      left. intros Hid'. apply Hne. by apply (oo_ids _ _ (rr_outs _ _ H) k' k o' o id).
Qed.

Lemma sim_run σ c id w' :
  rg_rel σ c → creach c → run_job id (rg_st σ).2 = Some w' →
  ∃ c', rtc cstep c c' ∧ rg_rel (MkRGSys ((rg_st σ).1, w') (rg_outs σ) (rg_cut σ)) c'.
Proof using All.
  intros H Hc Hrun.
  destruct (run_spec _ _ _ _ (rr_net _ _ H) (rr_outs _ _ H) Hrun)
    as (a & k & o & rs & rs' & r & Hk & Hid & Hown & Hj & Hrs & -> & Hf).
  set (st' := ((rg_st σ).1, after_run (rg_st σ).2 id a rs' r)).
  assert (g_op (GEvent (EvRun id)) (rg_st σ) = Some st') as Hop by (cbn; by rewrite Hrun).
  assert (process a (heap (rg_st σ).2) = s_state rs) as Hpl by by apply process_lookup.
  assert (same_servers (rg_st σ) st') as Hs.
  { split; [done|done| | |done|done].
    - intros b Hb. cbn. rewrite lookup_insert_is_Some. destruct (decide (a = b)); by auto.
    - intros b. unfold alive.
      assert (process b (heap st'.2) = if decide (a = b) then s_state rs' else process b (heap (rg_st σ).2))
        as -> by apply process_insert.
      destruct (decide (a = b)) as [<-|]; [|done]. intros [x Hx].
      rewrite Hpl. destruct (s_state rs) as [y|]; [by eexists|].
      cbn in Hf. destruct Hf as [Hf _]. congruence. }
  assert (net_ok st') as Hn by (eapply net_ok_same; [apply H| |exact Hop|done]; done).
  destruct (decide (a ∈ rg_cut σ)) as [Ha|Ha].
  { exists c. split; [constructor|]. eapply (sim_run_lost σ c id a k o rs); try done. by right. }
  destruct (s_state rs) as [x|] eqn:Hst.
  - destruct (sim_run_alive σ c id a k o rs' r x) as (c' & Hstep & H'); try done.
    exists c'. split; [by apply rtc_once|done].
  - destruct Hf as [Hst' ->]. exists c. split; [constructor|].
    eapply (sim_run_lost σ c id a k o rs); try done. by left.
Qed.

(** What the test and the network do. *)
Lemma sim_test σ c op st' :
  rg_rel σ c → creach c → by_test op = true → g_op op (rg_st σ) = Some st' →
  ∃ c', rtc cstep c c' ∧ rg_rel (MkRGSys st' (rg_outs σ) (rg_cut σ)) c'.
Proof using All.
  intros H Hc Hb Ho.
  assert ((∀ id, op ≠ GEvent (EvRun id)) → rg_rel (MkRGSys st' (rg_outs σ) (rg_cut σ)) c) as Hsame.
  { intros Hne. destruct op as [i to|i from|p1 p2|rnd b a i|i|i|e|a p]; try done.
    - eapply sim_on_net; [done|exact Hb|exact Ho|]. eapply on_net_same; [|exact Ho].
      intros ??; apply connect_toggles.
    - eapply sim_on_net; [done|exact Hb|exact Ho|]. eapply on_net_same; [|exact Ho].
      intros ??; apply disconnect_toggles.
    - eapply sim_on_net; [done|exact Hb|exact Ho|]. eapply on_net_same; [|exact Ho].
      intros ??; apply Partition_toggles.
    - eapply sim_on_net; [done|exact Hb|exact Ho|]. by apply isolate_same in Ho.
    - apply bind_Some in Ho as (w' & Hw & [= <-]). apply (sim_event σ c e); [done|done| |done].
      destruct e; try done. by destruct (Hne id). }
  destruct op as [i to|i from|p1 p2|rnd b a i|i|i|e|a p];
    try (exists c; split; [constructor|by apply Hsame]).
  destruct e as [o0|a rs|id req|id dr|id|id|id dr re|id| |];
    try (exists c; split; [constructor|by apply Hsame]).
  apply bind_Some in Ho as (w' & Hw & [= <-]). by eapply sim_run.
Qed.

(** ** A server is started *)

(** [Make] from what is persisted is what a crash leaves of the peer. *)
Lemma restart_step c i rf now draw :
  creach c → nodes c !! i = Some rf →
  cstep c (MkCluster (<[i := Make n i (persister rf) now draw]> (nodes c)) (orphan i <$> calls c)).
Proof using All.
  intros Hc Hi. destruct (creach_node c i rf Hc Hi) as (_ & Hme & Hnp).
  eapply (step_crash _ c i rf now draw); [done|]. cbn. by rewrite Checkpoint_id, Hme, Hnp.
Qed.

(** No call of a server that is not running has a living caller. *)
Lemma orphan_rel σ st' o cl i s a x :
  rg_rel σ cl → o ∈ rg_outs σ → go_index (srvs (rg_st σ).1) i = Some s → dc s = None →
  heap (rg_st σ).2 !! a = None → execs st'.2 = execs (rg_st σ).2 → waits st'.2 = waits (rg_st σ).2 →
  (∀ b, process b (heap st'.2) = if decide (a = b) then Some x else process b (heap (rg_st σ).2)) →
  ∀ k, out_rel (rg_cut σ) (rg_st σ).2 o k → out_rel (rg_cut σ) st'.2 o (orphan i k).
Proof.
  intros H Ho Hs Hd Ha He Hw Hp k (R1 & R2 & R3 & R4 & R5).
  destruct (oo_from _ _ (rr_outs _ _ H) o Ho) as [Hh Hown].
  assert (alive st'.2 (o_addr o) → alive (rg_st σ).2 (o_addr o) ∧ c_from k ≠ i) as Hal.
  { unfold alive. rewrite Hp, decide_False by (intros ->; rewrite Ha in Hh; by destruct Hh).
    intros Hal. split; [done|]. rewrite R1. intros E. destruct (Hown Hal) as (s' & Hs' & Hd').
    rewrite E in Hs'. congruence. }
  unfold orphan, out_rel, unanswered. case_decide as Hc; split_and!; cbn; rewrite ?He, ?Hw; try done.
  - by intros [_ ?]%Hal.
  - intros [? _]%Hal. by apply R4.
Qed.

(** The other servers do not notice that server [i] is started. *)
Lemma start_others σ c (started : bool) a i s s' st1 j rf :
  rg_rel σ c → heap (rg_st σ).2 !! a = None → started_at started a i s s' (rg_st σ) st1 →
  j ≠ i → nodes c !! j = Some rf →
  node_at (rg_cut σ) st1 j rf ∧ ∀ sj, go_index (srvs st1.1) j = Some sj → heard (rg_cut σ) sj ≠ Some a.
Proof.
  intros H Ha [A1 A2 A3 A4 A5 _] Hne Hj. destruct (rr_node _ _ H j rf Hj) as (sj & Hsj & Hat).
  unfold node_at. rewrite A1, decide_False by done.
  assert (heard (rg_cut σ) sj ≠ Some a) as Hda.
  { intros E. rewrite E in Hat. destruct Hat as [now Hat]. by rewrite process_fresh in Hat. }
  split; [|intros sj' Hsj'; congruence]. exists sj. split; [done|].
  destruct (heard (rg_cut σ) sj) as [b|]; [|done]. destruct Hat as [now Hat]. exists now.
  rewrite A5, decide_False; [done|]. intros [_ ->]. done.
Qed.

(** The peer of a server that is not running. *)
Lemma stopped_peer σ c i s :
  rg_rel σ c → go_index (srvs (rg_st σ).1) i = Some s → dc s = None →
  ∃ rf, nodes c !! i = Some rf ∧ default MakePersister (saved s) = persister rf.
Proof.
  intros H Hs Hd.
  assert (0 <= i < n) as Hi by (rewrite <-(rr_n _ _ H); by eapply go_index_lt).
  destruct (rr_dom _ _ H i Hi) as [rf Hrf]. exists rf. split; [done|].
  destruct (rr_node _ _ H i rf Hrf) as (s1 & Hs1 & Hat). assert (s1 = s) as -> by congruence.
  unfold heard in Hat. by rewrite Hd in Hat.
Qed.

(** Starting a server leaves the processes that were cut as they are, and the
    address of the new one is none of theirs. *)
Lemma start_cut σ c (started : bool) a i s s' st1 :
  rg_rel σ c → heap (rg_st σ).2 !! a = None → moves (rg_st σ) st1 →
  started_at started a i s s' (rg_st σ) st1 →
  a ∉ rg_cut σ ∧ ∀ b, b ∈ rg_cut σ → is_Some (heap st1.2 !! b) ∧ detached b st1.2.
Proof.
  intros H Ha Hm Hsa. split.
  - intros Hin. destruct (rr_cut _ _ H a Hin) as [[x Hx] _]. congruence.
  - eapply cut_same; [exact H|apply Hm|].
    intros nm b [y Hy] [(_ & _ & ->)|Hb]%(sa_servers _ _ _ _ _ _ _ Hsa); [congruence|done].
Qed.

Lemma sim_started σ c a i s s' rf now draw st1 st' :
  let rf' := Make n i (persister rf) now draw in
  rg_rel σ c → net_ok st1 → moves (rg_st σ) st1 → same_reqs (rg_st σ).2 st1.2 →
  go_index (srvs (rg_st σ).1) i = Some s → dc s = None → heap (rg_st σ).2 !! a = None →
  started_at true a i s s' (rg_st σ) st1 →
  g_op (GProc a (persister rf', Serving (endNames s') now rf')) st1 = Some st' →
  rg_rel (MkRGSys st' (rg_outs σ) (rg_cut σ)) (MkCluster (<[i := rf']> (nodes c)) (orphan i <$> calls c)).
Proof.
  intros rf' H Hn1 Hm Hr Hs Hd Ha Hsa Hst.
  pose proof (outs_ok_same _ _ _ (rr_outs _ _ H) Hm Hr) as Ho1.
  destruct (start_cut _ _ _ _ _ _ _ _ H Ha Hm Hsa) as [Hna Hcut].
  destruct (proc_upd _ _ _ _ Hst) as (_ & E1 & Hu & En & Hr' & _).
  pose proof (moves_same _ _ (proc_same _ _ _ _ Hst)) as Hm'.
  split; cbn.
  - eapply net_ok_same; [exact Hn1| |exact Hst|by eapply proc_same]. done.
  - eapply outs_ok_same; [exact Ho1|done|done].
  - rewrite (mv_N _ _ Hm'), (mv_N _ _ Hm). apply H.
  - intros b Hb. destruct (Hcut b Hb) as [Hb1 Hb2]. split; [by apply Hm'|].
    unfold detached. by rewrite En.
  - intros j rfj [[<- <-]|[Hne Hj]]%lookup_insert_Some.
    + exists s'. rewrite E1, (sa_idx _ _ _ _ _ _ _ Hsa), decide_True by done.
      assert (heard (rg_cut σ) s' = Some a) as -> by (apply heard_some; by rewrite (sa_dc _ _ _ _ _ _ _ Hsa)).
      split; [done|]. exists now. by rewrite Hu, decide_True.
    + destruct (start_others _ _ _ _ _ _ _ _ j rfj H Ha Hsa (not_eq_sym Hne) Hj) as [Hat Hda].
      eapply node_at_proc; [exact Hat|by rewrite E1|exact Hu|exact Hda].
  - apply dom_upd, H.
  - apply Forall2_fmap_r. eapply Forall2_impl_strong; [apply (rr_calls _ _ H)|].
    intros o cl Ho. eapply (orphan_rel σ st' o c i s a); try done.
    + destruct Hr as (_ & _ & _ & Hr), Hr' as (_ & _ & _ & Hr'). congruence.
    + destruct Hr as (_ & Hr & _), Hr' as (_ & Hr' & _). congruence.
    + intros b. rewrite Hu, (sa_proc _ _ _ _ _ _ _ Hsa).
      destruct (decide (a = b)); [done|by rewrite decide_False by naive_solver].
Qed.

Lemma sim_start σ c rnd (started : bool) a i now draw st' :
  rg_rel σ c → creach c → rg_start rnd started a i now draw (rg_st σ) = Some st' →
  ∃ c', rtc cstep c c' ∧ rg_rel (MkRGSys st' (rg_outs σ) (rg_cut σ)) c'.
Proof using All.
  intros H Hc. unfold rg_start. intros (s & Hs & Hst)%bind_Some. case_decide as Hd; [|done].
  destruct Hd as [Hd Ha]. apply bind_Some in Hst as (st1 & Hop & Hst).
  pose proof (rr_net _ _ H) as Hn.
  destruct (start_spec _ _ _ _ _ _ _ (no_grp _ Hn) Hs Hd Ha Hop) as (Hm & Hr & s' & Hsa).
  pose proof (net_ok_start _ _ _ _ _ _ _ _ Hn Hs Hd Ha Hop Hm Hsa) as Hn1.
  destruct (stopped_peer _ _ _ _ H Hs Hd) as (rf & Hrf & Hsv). destruct started.
  - apply bind_Some in Hst as (x & Hx & (x' & Hx' & Hst)%bind_Some).
    rewrite (sa_proc _ _ _ _ _ _ _ Hsa), decide_True in Hx by done.
    injection Hx as <-. injection Hx' as <-.
    rewrite (sa_ends _ _ _ _ _ _ _ Hsa), (rr_n _ _ H), Hsv in Hst.
    eexists. split; [by apply rtc_once, (restart_step c i rf now draw)|]. by eapply sim_started.
  - injection Hst as <-. exists c. split; [constructor|]. pose proof Hsa as [A1 A2 A3 A4 A5 _].
    split; cbn; [done|by eapply outs_ok_same; [apply H|..]| | | |apply H|].
    + rewrite (mv_N _ _ Hm). apply H.
    + by eapply start_cut.
    + intros j rfj Hj. destruct (decide (j = i)) as [->|Hne]; [|by eapply start_others].
      exists s'. unfold heard. rewrite A1, decide_True, A4 by done. split; [done|]. rewrite A2. cbn. congruence.
    + eapply outs_rel_frame; [|apply Hr|apply Hr|apply H]. intros b. unfold alive.
      by rewrite A5, decide_False by naive_solver.
Qed.

(** ** A process goes on *)

Lemma outs_ok_snoc st outs o :
  outs_ok st outs → o_id o = None →
  o_end o ∈ ends (net st.2) →
  connections (net st.2) !! o_end o = Some (Some (ServerName (gid st.1) (o_peer o))) →
  is_Some (heap st.2 !! o_addr o) → owns st (o_from o) (o_addr o) →
  outs_ok st (outs ++ [o]).
Proof.
  intros [O1 O2 O3 O4 O5 O6] Hid He Hc Hh Hown. split.
  - intros o' [Ho| ->%list_elem_of_singleton]%elem_of_app; by auto.
  - intros o' [Ho| ->%list_elem_of_singleton]%elem_of_app; by auto.
  - intros o' id [Ho| ->%list_elem_of_singleton]%elem_of_app; [by apply O3|congruence].
  - intros id b (Hb & o' & Ho & Hid' & Hown')%O4. split; [done|]. exists o'. set_solver.
  - intros id y [|(o' & Ho & Hid')]%O5; [by left|right]. exists o'. set_solver.
  - intros k k' o1 o2 id [[_ H1]|[_ ->]]%lookup_snoc_Some [[_ H2]|[_ ->]]%lookup_snoc_Some ??; try congruence.
    by eapply O6.
Qed.

Lemma proc_net_ok a x st st' : net_ok st → g_op (GProc a x) st = Some st' → net_ok st'.
Proof. intros Hn Ho. eapply net_ok_same; [exact Hn| |exact Ho|by eapply proc_same]. done. Qed.

Lemma proc_outs_ok a x st st' outs : outs_ok st outs → g_op (GProc a x) st = Some st' → outs_ok st' outs.
Proof.
  intros Ho Hop. eapply outs_ok_same; [exact Ho|by eapply moves_same, proc_same|].
  apply proc_upd in Hop. apply Hop.
Qed.

(** Nothing that a process does after its state was fetched is noticed. *)
Lemma sim_lost σ c a x st' :
  rg_rel σ c → a ∈ rg_cut σ → g_op (GProc a x) (rg_st σ) = Some st' →
  rg_rel (MkRGSys st' (rg_outs σ) (rg_cut σ)) c.
Proof.
  intros H Ha Hop. pose proof (proc_same _ _ _ _ Hop) as Hss.
  destruct (proc_upd _ _ _ _ Hop) as (_ & E1 & Hu & En & Hr & Hh).
  split; cbn; [eapply proc_net_ok; [apply H|exact Hop]|eapply proc_outs_ok; [apply H|exact Hop]| | | |apply H|].
  - rewrite E1. apply H.
  - eapply cut_same; [exact H|exact Hh|]. intros nm b _. by rewrite En.
  - intros j rf Hj. eapply node_at_proc; [by apply (rr_node _ _ H)|by rewrite E1|exact Hu|].
    intros s _ [_ Hs]%heard_some. done.
  - eapply outs_rel_frame; [apply Hss|apply Hr|apply Hr|apply H].
Qed.

(** The peer of the process at [a] has gone on to [rf'] and made the calls [os]. *)
Lemma rel_proc σ c a i s now rf' st' os cls :
  rg_rel σ c → go_index (srvs (rg_st σ).1) i = Some s → heard (rg_cut σ) s = Some a →
  g_op (GProc a (persister rf', Serving (endNames s) now rf')) (rg_st σ) = Some st' →
  outs_ok st' (rg_outs σ ++ os) → Forall2 (out_rel (rg_cut σ) st'.2) os cls →
  rg_rel (MkRGSys st' (rg_outs σ ++ os) (rg_cut σ)) (MkCluster (<[i := rf']> (nodes c)) (calls c ++ cls)).
Proof.
  intros H Hs Hd Hop Ho Hos. pose proof (proc_same _ _ _ _ Hop) as Hss.
  destruct (proc_upd _ _ _ _ Hop) as (_ & _ & Hu & _ & Hr & _).
  eapply rel_upd; [exact H|eapply proc_net_ok; [apply H|exact Hop]|exact Ho|exact Hss|exact Hs|exact Hd|exact Hu|].
  apply Forall2_app; [|done]. eapply outs_rel_frame; [apply Hss|apply Hr|apply Hr|apply H].
Qed.

Lemma rel_proc_quiet σ c a i s now rf' st' :
  rg_rel σ c → go_index (srvs (rg_st σ).1) i = Some s → heard (rg_cut σ) s = Some a →
  g_op (GProc a (persister rf', Serving (endNames s) now rf')) (rg_st σ) = Some st' →
  rg_rel (MkRGSys st' (rg_outs σ ++ []) (rg_cut σ)) (MkCluster (<[i := rf']> (nodes c)) (calls c)).
Proof.
  intros H Hs Hd Hop. rewrite <-(app_nil_r (calls c)). eapply rel_proc; try done.
  rewrite app_nil_r. eapply proc_outs_ok; [apply H|exact Hop].
Qed.

(** The end a peer calls through. *)
Lemma peer_end σ c i s peer :
  rg_rel σ c → go_index (srvs (rg_st σ).1) i = Some s → 0 <= peer < n →
  ∃ e, go_index (endNames s) peer = Some e ∧ e ∈ ends (net (rg_st σ).2) ∧
    connections (net (rg_st σ).2) !! e = Some (Some (ServerName (gid (rg_st σ).1) peer)).
Proof.
  intros H Hs Hp. pose proof (go_ends _ _ (no_grp _ (rr_net _ _ H))) as He.
  destruct (go_index_some (endNames s) peer) as [e Hpe].
  { rewrite (eo_len _ _ _ _ He _ _ Hs), (rr_n _ _ H). done. }
  exists e. split; [done|]. by eapply eo_ends.
Qed.

Lemma go_step c i k rf g rf' out :
  nodes c !! i = Some rf → started rf !! k = Some g →
  run_goroutine g (set_started (take k (started rf) ++ drop (S k) (started rf)) rf) = Some (rf', out) →
  cstep c (MkCluster (<[i := rf']> (nodes c))
    (calls c ++ match out with Some (peer, req) => [MkCall i peer req None true] | None => [] end)).
Proof.
  intros Hi Hg Hr. apply (run_cmove_step _ c (CGo i k)). cbn. rewrite Hi. cbn. rewrite Hg. cbn.
  by rewrite Hr.
Qed.

Lemma sim_call σ c a i s now rf' st' peer e req :
  let o := MkOut a i peer e req None in
  rg_rel σ c → go_index (srvs (rg_st σ).1) i = Some s → heard (rg_cut σ) s = Some a →
  go_index (endNames s) peer = Some e → 0 <= peer < n →
  g_op (GProc a (persister rf', Serving (endNames s) now rf')) (rg_st σ) = Some st' →
  rg_rel (MkRGSys st' (rg_outs σ ++ [o]) (rg_cut σ))
    (MkCluster (<[i := rf']> (nodes c)) (calls c ++ [MkCall i peer req None true])).
Proof.
  intros o H Hs Hd He Hp Hop. destruct (peer_end _ _ _ _ _ H Hs Hp) as (e' & He' & Hin & Hcon).
  assert (e' = e) as -> by congruence. pose proof (moves_same _ _ (proc_same _ _ _ _ Hop)) as Hm.
  destruct (proc_upd _ _ _ _ Hop) as (Hal & E1 & _ & En & _ & Hh).
  eapply rel_proc; [exact H|exact Hs|exact Hd|exact Hop| |].
  - apply outs_ok_snoc; cbn; rewrite ?En, ?E1; try done.
    + eapply proc_outs_ok; [apply H|exact Hop].
    + by apply Hh, alive_heap.
    + apply (mv_owns _ _ Hm); [by apply alive_heap|]. intros _. exists s.
      by apply heard_some in Hd as [? _].
  - constructor; [|constructor]. by split_and!.
Qed.

Lemma sim_goroutine σ c a i s now rf k g x' os st' :
  rg_rel σ c → creach c → go_index (srvs (rg_st σ).1) i = Some s → heard (rg_cut σ) s = Some a →
  nodes c !! i = Some rf → started rf !! k = Some g →
  proc_move snapshot_contract a (PGo k) (persister rf, Serving (endNames s) now rf) = Some (x', os) →
  g_op (GProc a x') (rg_st σ) = Some st' →
  ∃ c', rtc cstep c c' ∧ rg_rel (MkRGSys st' (rg_outs σ ++ os) (rg_cut σ)) c'.
Proof using All.
  intros H Hc Hs Hd Hrf Hg. cbn. rewrite Hg. cbn.
  destruct (cluster_no_panic n times draws c Hc) as (_ & Hgo & _).
  destruct (Hgo i rf g (take k (started rf)) (drop (S k) (started rf)) Hrf) as [[rf' out] Hrun];
    [by rewrite take_drop_middle|].
  pose proof (go_step c i k rf g rf' out Hrf Hg Hrun) as Hstep. rewrite Hrun.
  destruct (creach_node c i rf Hc Hrf) as (Hi & Hme & _). destruct out as [[peer req]|].
  - assert (0 <= peer < n) as Hp.
    { eapply (creach_call _ (MkCall i peer req None true)); [|eapply rtc_r; [exact Hc|exact Hstep]|]; [lia|set_solver]. }
    destruct (peer_end _ _ _ _ _ H Hs Hp) as (e & He & _). rewrite He, Hme. cbn.
    intros [= <- <-] Hop. eexists. split; [by apply rtc_once|]. by eapply sim_call.
  - intros [= <- <-] Hop. eexists. split; [by apply rtc_once|]. rewrite (app_nil_r (calls c)).
    by eapply rel_proc_quiet.
Qed.

Lemma sim_proc σ c a m x x' os st' :
  rg_rel σ c → creach c → process a (heap (rg_st σ).2) = Some x → a ∉ rg_cut σ →
  proc_move snapshot_contract a m x = Some (x', os) → g_op (GProc a x') (rg_st σ) = Some st' →
  ∃ c', rtc cstep c c' ∧ rg_rel (MkRGSys st' (rg_outs σ ++ os) (rg_cut σ)) c'.
Proof using All.
  intros H Hc Hx Ha Hm Hop. destruct (rel_process _ _ _ _ H Hx Ha) as (i & s & now & rf & Hs & Hd & Hrf & ->).
  destruct m as [now'|inp|k].
  - injection Hm as <- <-. exists c. split; [constructor|].
    assert (c = MkCluster (<[i := rf]> (nodes c)) (calls c)) as ->
      by (rewrite insert_id by done; by destruct c).
    by eapply rel_proc_quiet.
  - cbn in Hm. destruct (local_input inp && snapshot_contract inp rf) eqn:Hok; [|done].
    apply andb_true_iff in Hok as [Hl Hk]. destruct (cluster_no_panic n times draws c Hc) as (Hin & _).
    destruct (Hin i rf inp Hrf Hl Hk) as [rf' Hh]. rewrite Hh in Hm. injection Hm as <- <-.
    eexists. split; [by apply rtc_once, (step_local _ c i rf inp rf')|]. by eapply rel_proc_quiet.
  - assert (∃ g, started rf !! k = Some g) as [g Hg].
    { cbn in Hm. apply bind_Some in Hm as (g & Hg & _). by exists g. }
    by eapply sim_goroutine.
Qed.

(** ** A call is handed over *)

Definition after_take w (id : nat) (req : reqMsg string) : GWorld :=
  MkWorld (add_bytes (len (r_args req)) (add_count (net w))) (heap w)
    (<[id := req]> (reqs w)) (<[id := WTaken]> (waits w)) (jobs w) (ech w) (execs w)
    (listening w) (LabRpc.done w).

Lemma outs_ok_sent st outs k o id :
  let st' := (st.1, after_take st.2 id (out_msg o)) in
  outs_ok st outs → outs !! k = Some o → o_id o = None → reqs st.2 !! id = None →
  outs_ok st' (<[k := sent id o]> outs).
Proof.
  intros st' [O1 O2 O3 O4 O5 O6] Hk Hid Hnone.
  assert (∀ o', o' ∈ <[k := sent id o]> outs → o' = sent id o ∨ o' ∈ outs) as Hin.
  { intros o' [j Hj]%list_elem_of_lookup. apply list_lookup_insert_Some in Hj as [(_ & -> & _)|[_ Hj]];
      [by left|right; by eapply list_elem_of_lookup_2]. }
  assert (∀ o' id', o' ∈ outs → o_id o' = Some id' → o' ∈ <[k := sent id o]> outs) as Hout.
  { intros o' id' [j Hj]%list_elem_of_lookup Hid'. apply list_elem_of_lookup. exists j.
    rewrite list_lookup_insert_ne; [done|]. intros ->. congruence. }
  assert (sent id o ∈ <[k := sent id o]> outs) as Hsent.
  { apply list_elem_of_lookup. exists k. apply list_lookup_insert_eq. by eapply lookup_lt_Some. }
  assert (o ∈ outs) as Ho by by eapply list_elem_of_lookup_2.
  assert (∀ o', o' ∈ outs → o_id o' ≠ Some id) as Hfresh.
  { intros o' Ho' Hid'. specialize (O3 o' id Ho' Hid'). congruence. }
  split; cbn.
  - intros o' [->|Ho']%Hin; [by apply (O1 o)|by apply O1].
  - intros o' [->|Ho']%Hin; [by apply (O2 o)|by apply O2].
  - intros o' id' [->|Ho']%Hin Hid'; [injection Hid' as <-; by rewrite lookup_insert_eq|].
    rewrite lookup_insert_ne; [by apply O3|]. intros <-. by apply (Hfresh o').
  - intros id' b (Hb & o' & Ho' & Hid' & Hown)%O4. split; [done|]. exists o'.
    split; [by eapply Hout|done].
  - intros id' y [[<- <-]|[Hne Hy]]%lookup_insert_Some; [right; by exists (sent id o)|].
    destruct (O5 id' y Hy) as [|(o' & Ho' & Hid')]; [by left|right]. exists o'.
    split; [by eapply Hout|done].
  - intros k1 k2 o1 o2 id' H1 H2 E1 E2.
    apply list_lookup_insert_Some in H1 as [(<- & <- & _)|[N1 H1]],
      H2 as [(<- & <- & _)|[N2 H2]]; [done|exfalso..|by eapply O6].
    + injection E1 as <-. by apply (Hfresh o2); [eapply list_elem_of_lookup_2|].
    + injection E2 as <-. by apply (Hfresh o1); [eapply list_elem_of_lookup_2|].
Qed.

Lemma sim_send σ c k o id st' :
  rg_rel σ c → rg_outs σ !! k = Some o → o_id o = None →
  g_op (GEvent (EvTake id (out_msg o))) (rg_st σ) = Some st' →
  rg_rel (MkRGSys st' (<[k := sent id o]> (rg_outs σ)) (rg_cut σ)) c.
Proof.
  intros H Hk Hid Hop. pose proof Hop as Htake. cbn in Htake.
  apply bind_Some in Htake as (w' & Hw & [= <-]).
  assert (∀ a id', a ∈ rg_cut σ → unanswered a id' (rg_st σ).2 → unanswered a id' w') as Hun.
  { intros a id' Ha Hu. eapply (happen_unanswered a id' (EvTake id (out_msg o)));
      [apply (rr_net _ _ H)|by apply (rr_cut _ _ H)|exact Hu|exact Hw]. }
  unfold take_req in Hw.
  case_decide as Hl; [|done]. destruct Hl as [_ Hnone]. injection Hw as <-.
  fold (after_take (rg_st σ).2 id (out_msg o)) in *.
  assert (same_servers (rg_st σ) ((rg_st σ).1, after_take (rg_st σ).2 id (out_msg o))) as Hs by by split.
  split; cbn; [|by apply outs_ok_sent; [apply H|..]|apply H|apply (rr_cut _ _ H)| |apply H|].
  - eapply net_ok_same; [apply H| |exact Hop|exact Hs]. done.
  - intros i rf Hi. eapply node_at_same; [| |by apply H]; done.
  - destruct (Forall2_lookup_l _ _ _ _ _ (rr_calls _ _ H) Hk) as (cl & Hcl & R1 & R2 & R3 & R4 & R5).
    rewrite <-(list_insert_id (calls c) k cl Hcl).
    eapply Forall2_set; [apply (rr_calls _ _ H)|by eexists| |].
    + split_and!; cbn; [done..|]. destruct (c_rep cl).
      * destruct R5 as (_ & id' & a' & Hid' & _). congruence.
      * intros id' a' r [= <-] Hin%exec_id. exfalso.
        destruct (proj2 (no_calls _ (rr_net _ _ H)) id) as [Hid' Hs'].
        destruct (waits (rg_st σ).2 !! id); [|by apply Hid'].
        destruct (Hs' (mk_is_Some _ _ eq_refl)). congruence.
    + intros j o' cl' _ _. apply out_rel_frame; [done|done|exact Hun].
Qed.

(** ** A call returns *)

Lemma outs_ok_delete st outs k o id y :
  outs_ok st outs → outs !! k = Some o → o_id o = Some id →
  waits st.2 !! id = Some y → finished y → jobs st.2 !! id = None →
  outs_ok st (delete k outs).
Proof.
  intros [O1 O2 O3 O4 O5 O6] Hk Hid Hy Hf Hj.
  assert (∀ o', o' ∈ delete k outs → o' ∈ outs) as Hin.
  { intros o' [i (j & Hj' & _)%lookup_delete_inv]%list_elem_of_lookup. by eapply list_elem_of_lookup_2. }
  assert (∀ o', o' ∈ outs → o_id o' ≠ Some id → o' ∈ delete k outs) as Hout.
  { intros o' [j Hj']%list_elem_of_lookup Hne. eapply elem_delete; [exact Hj'|]. intros ->. congruence. }
  split; [by auto..| | | |].
  - intros o' id' Ho'. apply O3. by apply Hin.
  - intros id' b Hb. destruct (O4 id' b Hb) as (Hh & o' & Ho' & Hid' & Hown). split; [done|].
    exists o'. split; [|done]. apply Hout; [done|]. intros E. congruence.
  - intros id' y' Hy'. destruct (decide (id' = id)) as [->|Hne].
    { left. assert (y' = y) as -> by congruence. done. }
    destruct (O5 id' y' Hy') as [|(o' & Ho' & Hid')]; [by left|right].
    exists o'. split; [|done]. apply Hout; [done|]. congruence.
  - intros k1 k2 o1 o2 id' (j1 & H1 & _ & E1)%lookup_delete_inv (j2 & H2 & _ & E2)%lookup_delete_inv ??.
    assert (j1 = j2) as E by by eapply O6. destruct (decide (k1 < k)%nat), (decide (k2 < k)%nat); lia.
Qed.

(** A call that returns true was answered by its handler. *)
Lemma return_spec cut w o cl id rep :
  calls_ok w → out_rel cut w o cl → o_id o = Some id → Forward_result id w = Some (rep, true) →
  jobs w !! id = None ∧ (∃ y, waits w !! id = Some y ∧ finished y) ∧
  ∃ r, c_rep cl = Some r ∧ rep_for (o_req o) r ∧ rep = rep_bytes r.
Proof.
  intros [Hnd Hok] (_ & _ & _ & _ & R5) Hid. unfold Forward_result.
  destruct (waits w !! id) as [y|] eqn:Hy; [|done]. destruct y as [| | | |[b bs]]; try done.
  intros [= -> ->]. destruct (Hok id) as [Hreq _]. rewrite Hy in Hreq.
  destruct Hreq as [[?|[Hj (a & Hin)]] _]; [done|]. split; [done|].
  split; [eexists; split; [done|by eexists]|].
  destruct (c_rep cl) as [r|].
  2: { destruct (R5 id a _ Hid Hin) as [|[_ [(? & ? & ? & Hu)|Hu]]]; [done|by rewrite Hy in Hu..]. }
  destruct R5 as (Hr & id' & a' & Hid' & Hin'). assert (id' = id) as -> by congruence.
  exists r. split; [done|]. split; [done|]. by injection (exec_unique w id a a' _ _ Hnd Hin Hin').
Qed.

Lemma reply_step c k cl rf rep rf' :
  calls c !! k = Some cl → c_rep cl = Some rep → c_live cl = true → nodes c !! c_from cl = Some rf →
  absorb (c_to cl) (c_req cl) rep rf = Some rf' →
  cstep c (MkCluster (<[c_from cl := rf']> (nodes c)) (delete k (calls c))).
Proof.
  intros Hk Hr Hl Hn Ha. apply (run_cmove_step _ c (CReply k)). cbn.
  rewrite Hk. cbn. rewrite Hn. cbn. rewrite Hr, Hl, Ha. cbn. by rewrite delete_take_drop.
Qed.

Lemma sim_return σ c k o id rep x x' st' :
  rg_rel σ c → creach c → rg_outs σ !! k = Some o → o_id o = Some id →
  Forward_result id (rg_st σ).2 = Some (rep, true) → process (o_addr o) (heap (rg_st σ).2) = Some x →
  o_addr o ∉ rg_cut σ → proc_return (o_peer o) (o_req o) rep x = Some x' → g_op (GProc (o_addr o) x') (rg_st σ) = Some st' →
  ∃ c', rtc cstep c c' ∧ rg_rel (MkRGSys st' (delete k (rg_outs σ)) (rg_cut σ)) c'.
Proof using All.
  intros H Hc Hk Hid Hres Hx Hcut Hret Hop. pose proof (rr_net _ _ H) as Hn.
  destruct (rel_process _ _ _ _ H Hx Hcut) as (i & s & now & rf & Hs & Hd & Hrf & ->).
  destruct (Forall2_lookup_l _ _ _ _ _ (rr_calls _ _ H) Hk) as (cl & Hcl & Hrel).
  destruct (return_spec _ _ _ _ _ _ (no_calls _ Hn) Hrel Hid Hres) as (Hj & (y & Hy & Hf) & r & Hr & Hfor & ->).
  destruct Hrel as (R1 & R2 & R3 & R4 & _).
  assert (o_from o = i) as Efrom.
  { destruct (oo_from _ _ (rr_outs _ _ H) o) as [_ Hown]; [by eapply list_elem_of_lookup_2|].
    eapply current_inj; [apply (no_grp _ Hn)|by apply Hown; eexists|].
    exists s. by apply heard_some in Hd as [? _]. }
  destruct (cluster_no_panic n times draws c Hc) as (_ & _ & _ & Habs).
  destruct (Habs cl rf r) as [rf' Ha]; [by eapply list_elem_of_lookup_2|done|by rewrite R1, Efrom|].
  pose proof (reply_step c k cl rf r rf' Hcl Hr (R4 (mk_is_Some _ _ Hx)) ltac:(by rewrite R1, Efrom) Ha) as Hstep.
  cbn in Hret. rewrite req_reply_bytes in Hret by done. cbn in Hret. rewrite <-R2, <-R3, Ha in Hret.
  injection Hret as <-. eexists. split; [by apply rtc_once|]. rewrite R1, Efrom.
  pose proof (proc_same _ _ _ _ Hop) as Hss. destruct (proc_upd _ _ _ _ Hop) as (_ & _ & Hu & _ & Hr' & _).
  eapply rel_upd; [exact H|by eapply proc_net_ok| |exact Hss|exact Hs|exact Hd|exact Hu|].
  - destruct Hr' as (E1 & E2 & E3 & E4).
    eapply outs_ok_delete; [by eapply proc_outs_ok; [apply H|]|done|done|by rewrite E2|done|by rewrite E3].
  - rewrite !delete_take_drop. destruct Hr' as (_ & E2 & _ & E4).
    pose proof (outs_rel_frame _ _ _ _ _ (ss_alive _ _ Hss) E4 E2 (rr_calls _ _ H)) as Hcalls.
    apply Forall2_app; [by apply Forall2_take|by apply Forall2_drop].
Qed.
End Relation.

(** ** Runs *)

Section Runs.
Context {Cmd : Type} `{!Gob Cmd, !GobLaws Cmd, !Runtime Cmd, !RuntimeLaws Cmd}.
Context (n : Z) (times draws : Z → Z).
Abbreviation GWorld := (LabRpc.World string (Process (D := RaftProc Cmd))).
Abbreviation cstep := (step (Cmd := Cmd) snapshot_contract).
Abbreviation creach := (reachable (Cmd := Cmd) snapshot_contract n times draws).
Abbreviation gstep := (rg_step (Cmd := Cmd) snapshot_contract).
Implicit Types (σ : RGSys Cmd) (c : Cluster Cmd) (rf : Raft Cmd).

Lemma sim_rg_move σ c m σ' :
  rg_rel n σ c → creach c → rg_move snapshot_contract m σ = Some σ' →
  ∃ c', rtc cstep c c' ∧ rg_rel n σ' c'.
Proof using All.
  intros H Hc. destruct m as [op|rnd b a i now draw|i|i|a m|k id|k]; cbn [rg_move].
  - destruct (by_test op) eqn:Hb; [|done]. intros (st' & Hop & [= <-])%bind_Some. by eapply sim_test.
  - intros (st' & Hop & [= <-])%bind_Some. by eapply sim_start.
  - intros (s & Hs & (a & Hd & H')%bind_Some)%bind_Some. case_decide as Hg; [|done]. destruct Hg as [Hdel Ha].
    apply bind_Some in H' as (st' & Hop & [= <-]). exists c. split; [constructor|]. by eapply sim_checkpoint.
  - intros (s & Hs & (a & Hd & H')%bind_Some)%bind_Some. case_decide as Ha; [|done].
    apply bind_Some in H' as (st' & Hop & [= <-]). exists c. split; [constructor|]. by eapply sim_kill.
  - intros (x & Hx & ([x' os] & Hm & (st' & Hop & [= <-])%bind_Some)%bind_Some)%bind_Some.
    case_decide as Ha; [|by eapply sim_proc].
    exists c. split; [constructor|]. rewrite app_nil_r. by eapply sim_lost.
  - intros (o & Hk & (e & _ & H')%bind_Some)%bind_Some. destruct (o_id o) eqn:Hid; [done|].
    apply bind_Some in H' as (st' & Hop & [= <-]). exists c. split; [constructor|]. by eapply sim_send.
  - intros (o & Hk & (id & Hid & ([rep okr] & Hres & H')%bind_Some)%bind_Some)%bind_Some.
    destruct okr; [|done].
    apply bind_Some in H' as (x & Hx & (x' & Hret & (st' & Hop & [= <-])%bind_Some)%bind_Some).
    case_decide as Ha; [|by eapply sim_return].
    exists c. split; [constructor|]. by eapply sim_lost.
Qed.

Lemma sim_run_all σ σ' c :
  rg_rel n σ c → creach c → rtc gstep σ σ' →
  ∃ c', rtc cstep c c' ∧ creach c' ∧ rg_rel n σ' c'.
Proof using All.
  intros H Hc Hrun. revert c H Hc.
  induction Hrun as [σ|σ σ1 σ' [m Hm] _ IH]; intros c H Hc; [exists c; by split; [constructor|]|].
  destruct (sim_rg_move _ _ _ _ H Hc Hm) as (c1 & Hs & H1).
  assert (creach c1) as Hc1 by (unfold reachable in *; by etransitivity).
  destruct (IH c1 H1 Hc1) as (c' & Hs' & Hc' & H'). exists c'. split; [by etransitivity|done].
Qed.

Lemma init_dom i : 0 <= i < n → is_Some (nodes (init_cluster (Cmd := Cmd) n times draws) !! i).
Proof.
  intros Hi. destruct (nodes _ !! i) as [rf|] eqn:E; [by eexists|].
  apply not_elem_of_list_to_map_2 in E. exfalso. apply E.
  apply list_elem_of_fmap. exists (i, boot n i (times i) (draws i)). split; [done|].
  apply list_elem_of_fmap. exists i. split; [done|]. apply elem_of_seqZ. lia.
Qed.

Lemma rel_init rnd g sg rn :
  0 <= n → makeSrvGrp rnd g n MakeNetwork = Some (sg, rn) →
  rg_rel n (rg_init sg rn) (init_cluster n times draws).
Proof.
  intros Hn Hmk. destruct (makeSrvGrp_fresh _ _ _ _ _ Hn Hmk) as (HN & Hg & _ & _ & Hsv & Hnone).
  split; cbn; [| |done|by intros ? ?%elem_of_empty| |by apply init_dom|constructor].
  - split; cbn; [by eapply makeSrvGrp_ok|apply init_calls_ok| |].
    + intros a [x Hx]. by rewrite process_fresh in Hx by done.
    + intros nm a. by rewrite Hsv.
  - split; cbn; try by intros ? ?%elem_of_nil.
    + by intros ? ? ?%elem_of_nil.
    + done.
    + done.
    + done.
  - intros i rf [Hi ->]%init_node. destruct (go_index_some (srvs sg) i) as [s Hs].
    { unfold N in HN. by rewrite HN. }
    exists s. split; [done|]. unfold heard. by destruct (Hnone i s Hs) as [-> ->].
Qed.

Lemma reach_rel rnd g σ :
  0 <= n → rg_reach snapshot_contract rnd g n σ → ∃ c, creach c ∧ rg_rel n σ c.
Proof using All.
  intros Hn (sg & rn & Hmk & Hrun).
  destruct (sim_run_all _ _ _ (rel_init _ _ _ _ Hn Hmk) (rtc_refl _ _) Hrun) as (c & _ & Hc & H).
  by exists c.
Qed.

(** The peer of a running server is a peer of the cluster. *)
Lemma rel_peer σ c i rf : rg_rel n σ c → peer_of i σ = Some rf → nodes c !! i = Some rf.
Proof.
  intros H (s & Hs & (a & [Hd Hc]%heard_some & ([p d] & Hx & Hrf)%bind_Some)%bind_Some)%bind_Some.
  destruct (rel_process _ _ _ _ _ H Hx Hc) as (i' & s' & now & rf' & Hs' & [Hd' _]%heard_some & Hrf' & [= -> ->]).
  injection Hrf as <-. assert (i = i') as ->; [|done].
  by apply (go_dc_inj _ _ (no_grp _ (rr_net _ _ _ H)) i s i' s' a).
Qed.

(** ** The theorems *)

(** C5: Raft in processes is Raft.  Along any run of the group the processes are
    peers of a cluster state that [RaftNet.v] reaches: a running server's process
    serves its peer; from the moment its state is fetched for a restart, what the
    tester has saved of a server is what its peer persisted, whatever the process
    still does before it is killed; and every call of a process is a call of the
    cluster, answered with true only with the reply of the peer it was meant for. *)
Theorem processes_refine rnd g σ :
  0 <= n → rg_reach snapshot_contract rnd g n σ →
  ∃ c, creach c ∧
    (∀ i, 0 <= i < n → ∃ rf, nodes c !! i = Some rf ∧ node_at (rg_cut σ) (rg_st σ) i rf) ∧
    (∀ o, o ∈ rg_outs σ → ∃ cl, cl ∈ calls c ∧
       c_from cl = o_from o ∧ c_to cl = o_peer o ∧ c_req cl = o_req o ∧
       ∀ id rep, o_id o = Some id → Forward_result id (rg_st σ).2 = Some (rep, true) →
         ∃ r, c_rep cl = Some r ∧ req_reply (o_req o) rep = Some r).
Proof using All.
  intros Hn Hr. destruct (reach_rel _ _ _ Hn Hr) as (c & Hc & H). exists c. split; [done|]. split.
  - intros i Hi. destruct (rr_dom _ _ _ H i Hi) as [rf Hrf]. exists rf. split; [done|]. by apply (rr_node _ _ _ H).
  - intros o [k Hk]%list_elem_of_lookup.
    destruct (Forall2_lookup_l _ _ _ _ _ (rr_calls _ _ _ H) Hk) as (cl & Hcl & Hrel).
    exists cl. split; [by eapply list_elem_of_lookup_2|]. pose proof Hrel as (R1 & R2 & R3 & _).
    split; [done|]. split; [done|]. split; [done|]. intros id rep Hid Hres.
    destruct (return_spec _ _ _ _ _ _ (no_calls _ (rr_net _ _ _ H)) Hrel Hid Hres) as (_ & _ & r & Hrep & Hfor & ->).
    exists r. split; [done|by apply req_reply_bytes].
Qed.

(** C4: The processes agree.  Whatever the network loses, delays and reorders, and
    however the test partitions the servers, kills them and starts them again: if
    the peer of a running server hands its service a command for an index, then
    whatever any running server's peer hands its service for that index, then or
    later, is the same command; and two running servers that are leaders of one
    term are the same server. *)
Theorem processes_agree rnd g σ σ' i j rf rf' :
  0 <= n → rg_reach snapshot_contract rnd g n σ → rtc gstep σ σ' →
  peer_of i σ = Some rf → peer_of j σ' = Some rf' →
  (∀ cmd cmd' k m m', applier_pc rf = ApSend (CommandMsg cmd k) m →
     applier_pc rf' = ApSend (CommandMsg cmd' k) m' → cmd = cmd') ∧
  (∀ i' rf1, peer_of i' σ = Some rf1 → role rf = Leader → role rf1 = Leader →
     currentTerm rf = currentTerm rf1 → i = i').
Proof using All.
  intros Hn Hr Hrun Hi Hj. destruct (reach_rel _ _ _ Hn Hr) as (c & Hc & H).
  destruct (sim_run_all _ _ _ H Hc Hrun) as (c' & Hs & _ & H').
  pose proof (rel_peer _ _ _ _ H Hi) as Hci. pose proof (rel_peer _ _ _ _ H' Hj) as Hcj. split.
  - intros cmd cmd' k m m'. by eapply (commands_agree n times draws c c').
  - intros i' rf1 Hi' Hl Hl1 Ht. pose proof (rel_peer _ _ _ _ H Hi') as Hci'.
    by eapply (leaders_unique snapshot_contract n times draws c).
Qed.

(** C10: No process ends by itself.  In every reachable state, every process that
    the test is not about to kill serves a peer: no handler, no input and no reply
    has panicked, and no message had an unknown method or did not decode; what
    [CheckpointPersister] would fetch is what the peer has persisted; and the
    tester finds the end of every call it is to forward. *)
Theorem processes_no_panic rnd g σ :
  0 <= n → rg_reach snapshot_contract rnd g n σ →
  (∀ a p d, process a (heap (rg_st σ).2) = Some (p, d) → a ∉ rg_cut σ →
     ∃ peers now rf, d = Serving peers now rf ∧ len peers = n ∧ p = persister rf) ∧
  (∀ o, o ∈ rg_outs σ → LookupEnd (o_end o) (net (rg_st σ).2) = Some (o_end o)).
Proof using All.
  intros Hn Hr. destruct (reach_rel _ _ _ Hn Hr) as (c & Hc & H). split.
  - intros a p d Hx Ha.
    destruct (rel_process _ _ _ _ _ H Hx Ha) as (i & s & now & rf & Hs & _ & _ & [= -> ->]).
    exists (endNames s), now, rf. split; [done|]. split; [|done].
    rewrite <-(rr_n _ _ _ H). eapply eo_len; [|exact Hs]. apply (no_grp _ (rr_net _ _ _ H)).
  - intros o Ho. unfold LookupEnd. rewrite decide_True; [done|]. by apply (oo_end _ _ (rr_outs _ _ _ H) o Ho).
Qed.
End Runs.
