(* ===== verification/RaftGrpDemo.v ===== *)
(** * A run of Raft in processes

    Three servers.  Server 0 is elected with the vote of server 1, commits a
    command with it and hands it to its service.  Then the test kills server 0
    and starts it again, server 1 is elected with the vote of the new process,
    commits a command of its own and hands the first one up: the same. *)
From S2P Require Import Prelude Strs Persister Demux LabRpc LabRpcTheorems Sock Daemon DaemonDemo.
From S2P Require Import Group GroupTheorems GroupRun GroupOwners Raft RaftNode RaftTheorems RaftNet GobString.
From S2P Require Import RaftSafety RaftGrp RaftGrpTheorems.

(** ** An encoder *)

#[local] Instance RVArgs_eq_dec : EqDecision RequestVoteArgs.
Proof. solve_decision. Defined.
#[local] Instance RVArgs_countable : Countable RequestVoteArgs.
Proof.
  by refine (inj_countable' (λ a, (rv_Term a, rv_CandidateId a, rv_LastLogIndex a, rv_LastLogTerm a))
    (λ '(t, c, i, u), MkRVArgs t c i u) _); intros [].
Defined.
#[local] Instance RVReply_eq_dec : EqDecision RequestVoteReply.
Proof. solve_decision. Defined.
#[local] Instance RVReply_countable : Countable RequestVoteReply.
Proof.
  by refine (inj_countable' (λ r, (rvr_Term r, rvr_VoteGranted r)) (λ '(t, g), MkRVReply t g) _); intros [].
Defined.
#[local] Instance Entry_countable : Countable (LogEntry string).
Proof.
  by refine (inj_countable' (λ e, (le_Term e, le_Command e)) (λ '(t, c), MkLogEntry t c) _); intros [].
Defined.
#[local] Instance AEArgs_eq_dec : EqDecision (AppendEntriesArgs string).
Proof. solve_decision. Defined.
#[local] Instance AEArgs_countable : Countable (AppendEntriesArgs string).
Proof.
  by refine (inj_countable' (λ a, (ae_Term a, ae_LeaderId a, ae_PrevLogIndex a, ae_PrevLogTerm a,
    ae_Entries a, ae_LeaderCommit a)) (λ '(t, l, i, u, es, c), MkAEArgs t l i u es c) _); intros [].
Defined.
#[local] Instance AEReply_eq_dec : EqDecision AppendEntriesReply.
Proof. solve_decision. Defined.
#[local] Instance AEReply_countable : Countable AppendEntriesReply.
Proof.
  by refine (inj_countable' (λ r, (aer_Term r, aer_Success r, aer_ConflictTerm r, aer_ConflictIndex r,
    aer_XLen r)) (λ '(t, s, u, i, x), MkAEReply t s u i x) _); intros [].
Defined.
#[local] Instance ISArgs_eq_dec : EqDecision InstallSnapshotArgs.
Proof. solve_decision. Defined.
#[local] Instance ISArgs_countable : Countable InstallSnapshotArgs.
Proof.
  by refine (inj_countable' (λ a, (is_Term a, is_LeaderId a, is_LastIncludedIndex a,
    is_LastIncludedTerm a, is_Data a)) (λ '(t, l, i, u, b), MkISArgs t l i u b) _); intros [].
Defined.
#[local] Instance ISReply_eq_dec : EqDecision InstallSnapshotReply.
Proof. solve_decision. Defined.
#[local] Instance ISReply_countable : Countable InstallSnapshotReply.
Proof. by refine (inj_countable' isr_Term MkISReply _); intros []. Defined.

(** An empty slice arrives as nil. *)
Definition install_wire : Codec InstallSnapshotArgs := {|
  Marshall a := @Marshall _ countable_codec a;
  Unmarshall b := decode_install <$> @Unmarshall _ countable_codec b;
|}.

#[export] Instance string_runtime : Runtime string := {
  vote_codec := countable_codec; vote_reply_codec := countable_codec;
  append_codec := countable_codec; append_reply_codec := countable_codec;
  install_codec := install_wire; install_reply_codec := countable_codec;
  HeapAlloc rf := len (log rf);
}.

#[export] Instance string_runtime_laws : RuntimeLaws string.
Proof.
  split; try apply countable_codec_laws. intros a. cbn.
  change (decode_install <$> @Unmarshall _ countable_codec (@Marshall _ countable_codec a) = Some (decode_install a)).
  by rewrite (@codec_roundtrip _ _ countable_codec_laws).
Qed.

(** ** The run *)

Definition end_name (gen i j : nat) : string :=
  "end" +:+ Itoa (Z.of_nat gen) +:+ "-" +:+ Itoa (Z.of_nat i) +:+ "-" +:+ Itoa (Z.of_nat j).

Definition no_group : ServerGrp := MkServerGrp [] [] 0 [].
Definition made3 : ServerGrp * Network string :=
  Eval vm_compute in default (no_group, MakeNetwork) (makeSrvGrp (end_name 0) 0 3 MakeNetwork).

Definition Sys3 : Type := RGSys string.
Definition start_sys : Sys3 := rg_init made3.1 made3.2.

Definition run_sys (ms : list (RGMove string)) (σ : Sys3) : Sys3 :=
  default σ (rg_moves snapshot_contract ms σ).

(** All three servers are started and connected. *)
Definition up : list (RGMove string) :=
  ((λ i : nat, RStart (end_name 1 i) true i (Z.of_nat i) 0 0) <$> [0; 1; 2]%nat) ++
  ((λ i, RTest (GConnect i [0; 1; 2])) <$> [0; 1; 2]).

(** The process at [a] runs its [k]th goroutine, and the call is answered. *)
Definition ask (a k id : nat) : list (RGMove string) :=
  [RProc a (PGo k); RSend 0 id; RTest (GEvent (EvStart id false)); RTest (GEvent (EvRun id));
   RTest (GEvent (EvFinish id false false)); RReturn 0].

Definition elect (a : nat) (now : Z) (k id : nat) : list (RGMove string) :=
  [RProc a (PInput (InTick now 0))] ++ ask a k id.

Definition commit (a : nat) (cmd : string) (k1 k2 id : nat) : list (RGMove string) :=
  [RProc a (PInput (InStart cmd)); RProc a (PGo k1)] ++ ask a k2 id ++ [RProc a (PInput InApplierTop)].

Definition before_moves : list (RGMove string) := up ++ elect 0 1000000000 0 0 ++ commit 0 "x" 1 2 1.
Definition before : Sys3 := run_sys before_moves start_sys.

(** Server 0 is killed and comes back at another address.  A command that its
    process takes after its state was fetched is lost. *)
Definition restart_moves : list (RGMove string) :=
  [RTest (GIsolate 0); RCheckpoint 0; RProc 0 (PInput (InStart "lost")); RKill 0;
   RStart (end_name 2 0) true 3 0 1500000000 0; RTest (GConnect 0 [0; 1; 2])].
Definition after_moves : list (RGMove string) :=
  restart_moves ++ elect 1 2000000000 0 2 ++ commit 1 "y" 1 2 3.
Definition later : Sys3 := run_sys after_moves before.

Lemma run_sys_steps ms σ :
  bool_decide (is_Some (rg_moves snapshot_contract ms σ)) = true →
  rtc (rg_step snapshot_contract) σ (run_sys ms σ).
Proof.
  intros [σ' H]%bool_decide_eq_true. apply (rg_moves_steps _ ms). unfold run_sys. by rewrite H.
Qed.

Lemma before_reach : rg_reach snapshot_contract (end_name 0) 0 3 before.
Proof.
  exists made3.1, made3.2. split; [vm_compute; reflexivity|]. apply run_sys_steps. vm_compute. reflexivity.
Qed.

Lemma later_steps : rtc (rg_step snapshot_contract) before later.
Proof. apply run_sys_steps. vm_compute. reflexivity. Qed.

Lemma later_reach : rg_reach snapshot_contract (end_name 0) 0 3 later.
Proof.
  destruct before_reach as (sg & rn & Hmk & Hrun). exists sg, rn. split; [done|].
  etransitivity; [exact Hrun|exact later_steps].
Qed.

Definition peer3 (i : Z) (σ : Sys3) : Raft string := default (boot 3 0 0 0) (peer_of i σ).

Lemma peer3_some i σ : bool_decide (is_Some (peer_of i σ)) = true → peer_of i σ = Some (peer3 i σ).
Proof. intros [rf H]%bool_decide_eq_true. unfold peer3. by rewrite H. Qed.

(** Server 0 before, and server 1 later, hand up the first command. *)
Lemma processes_agree_witness :
  applier_pc (peer3 0 before) = ApSend (CommandMsg (Some "x") 1) 1 ∧
  applier_pc (peer3 1 later) = ApSend (CommandMsg (Some "x") 1) 1 ∧
  currentTerm (peer3 1 later) = 2 ∧ Some "x" = Some "x".
Proof.
  split; [vm_compute; reflexivity|]. split; [vm_compute; reflexivity|]. split; [vm_compute; reflexivity|].
  apply (processes_agree 3 (λ _, 0) (λ _, 0) (end_name 0) 0 before later 0 1 (peer3 0 before) (peer3 1 later))
    with (k := 1) (m := 1) (m' := 1).
  - lia.
  - exact before_reach.
  - exact later_steps.
  - apply peer3_some. vm_compute. reflexivity.
  - apply peer3_some. vm_compute. reflexivity.
  - vm_compute. reflexivity.
  - vm_compute. reflexivity.
Defined.

(** The new process of server 0 is a peer of the cluster, with the log of the
    old one and what server 1 has added. *)
Lemma processes_refine_witness :
  log (peer3 0 later) = [MkLogEntry 0 None; MkLogEntry 1 (Some "x"); MkLogEntry 2 (Some "y")] ∧
  ∃ c, reachable snapshot_contract 3 (λ _, 0) (λ _, 0) c ∧
    ∀ i, 0 <= i < 3 → ∃ rf, nodes c !! i = Some rf ∧ node_at (rg_cut later) (rg_st later) i rf.
Proof.
  split; [vm_compute; reflexivity|].
  destruct (processes_refine 3 (λ _, 0) (λ _, 0) (end_name 0) 0 later) as (c & Hc & H & _);
    [lia|exact later_reach|]. by exists c.
Defined.

Lemma processes_no_panic_witness :
  is_Some (process 3 (heap (rg_st later).2)) ∧ process 0 (heap (rg_st later).2) = None ∧
  rg_cut later = {[0%nat]} ∧
  ∀ a p d, process a (heap (rg_st later).2) = Some (p, d) → a ∉ rg_cut later →
    ∃ peers now rf, d = Serving peers now rf ∧ len peers = 3 ∧ p = persister rf.
Proof.
  split; [apply (bool_decide_unpack _); vm_compute; exact I|]. split; [vm_compute; reflexivity|].
  split; [vm_compute; reflexivity|].
  apply (processes_no_panic 3 (λ _, 0) (λ _, 0) (end_name 0) 0 later); [lia|exact later_reach].
Defined.

(** A process that is called before it has added its services ends, since it
    listens for calls before; [StartServer] puts it on the network only when it
    has made them. *)
Example called_too_early peers me p :
  raft_call "Raft.RequestVote" [] (p, Booting peers me) = ((p, Panicked (Cmd := string)), ([], false)).
Proof. reflexivity. Qed.
