(* ===== verification/RaftTest.v ===== *)
(** * The servers of the Raft test

    How [src/src/raft1/test.go] kills and restarts the servers of its group, what it keeps
    of them meanwhile, and the calls between it and the servers ([proxy.go], the RPC
    handlers of [server.go] and [test.go]).  The groups are those of [Group.v], the
    checks those of [RfSrv.v]. *)
From S2P Require Import Prelude Strs Persister Raft RfSrv.
From S2P Require Import LabRpc Daemon Group.

(** ** Calls from the tester to a server

    [None] as the answer of a call: [dc.Call] returned false. *)
Record GetStateReply := MkGetStateReply { gs_Term : Z; gs_Leader : bool }.
Record StartReply := MkStartReply { st_Index : Z; st_Term : Z; st_Leader : bool }.

Definition GetStateRPC (answer : Z * bool) : GetStateReply := MkGetStateReply answer.1 answer.2.
Definition StartRPC (answer : Z * Z * bool) : StartReply :=
  MkStartReply answer.1.1 answer.1.2 answer.2.

Definition Rfproxy_GetState (call : option GetStateReply) : Z * bool :=
  let rep := default (MkGetStateReply 0 false) call in (gs_Term rep, gs_Leader rep).

Definition Rfproxy_Start (call : option StartReply) : Z * Z * bool :=
  let rep := default (MkStartReply 0 0 false) call in (st_Index rep, st_Term rep, st_Leader rep).

(** ** Calls from a server to the tester *)

Section Handlers.
Context {Cmd : Type} `{!EqDecision Cmd}.

Record CheckLogsArgs := MkCheckLogsArgs { cl_Index : Z; cl_Msg : ApplyMsg Cmd }.
Record CheckLogsReply := MkCheckLogsReply { cl_Err : ErrMsg Cmd; cl_Prevok : bool }.
Record IngestLogArgs := MkIngestLogArgs { il_Index : Z; il_Log : gmap Z (option Cmd) }.
Record ApplyErrArgs := MkApplyErrArgs { ae_Index : Z; ae_Err : ErrMsg Cmd }.

Definition CheckLogsRPC (args : CheckLogsArgs) (ts : Test Cmd) : option (Test Cmd * CheckLogsReply) :=
  '(ts, (err, prevok)) ← CheckLogs (cl_Index args) (cl_Msg args) ts; Some (ts, MkCheckLogsReply err prevok).

Definition IngestLogRPC (args : IngestLogArgs) (ts : Test Cmd) : option (Test Cmd) :=
  IngestLog (il_Index args) (il_Log args) ts.

Definition ApplyErrRPC (args : ApplyErrArgs) (ts : Test Cmd) : option (Test Cmd) :=
  ApplyErr (ae_Index args) (ae_Err args) ts.
End Handlers.

(** ** The servers as the test has them *)

Section RaftTest.
Context `{!Program D}.
Context {Cmd : Type}.
Abbreviation RWorld := (World string (Process (D := D))).

(** [rt_proxies]: the field [rfsrv] of each server, nil or a proxy over the
    [DaemonClnt] it was made with, which may be nil too; [rt_test]: what the
    servers reported ([applyErr] and [logs]). *)
Record RaftTest := MkRaftTest {
  rt_proxies : list (option (option nat));
  rt_test : Test Cmd;
  rt_grp : ServerGrp;
  rt_world : RWorld;
  finished : Z;
}.

Definition set_grp (st : ServerGrp * RWorld) (ts : RaftTest) : RaftTest :=
  MkRaftTest (rt_proxies ts) (rt_test ts) st.1 st.2 (finished ts).

Definition set_proxy (srv : Z) (p : option (option nat)) (ts : RaftTest) : option RaftTest :=
  ps ← go_set (rt_proxies ts) srv p;
  Some (MkRaftTest ps (rt_test ts) (rt_grp ts) (rt_world ts) (finished ts)).

Definition DaemonClnt (i : Z) (sg : ServerGrp) : option (option nat) :=
  s ← go_index (srvs sg) i; Some (dc s).

(** [ts.srvs[srv]] is there after [makeTest]: only its proxy changes. *)
Definition mksrv (srv : Z) (ts : RaftTest) : option RaftTest :=
  d ← DaemonClnt srv (rt_grp ts); set_proxy srv (Some d) ts.

Definition rt_kill (l : list Z) (ts : RaftTest) : option RaftTest :=
  st ← Kill l (rt_grp ts, rt_world ts);
  for_each l (λ srv ts, set_proxy srv None ts) (set_grp st ts).

Definition reconnect (srv : Z) (ts : RaftTest) : option RaftTest :=
  ts ← mksrv srv ts;
  st ← on_net (ConnectOne srv) (rt_grp ts, rt_world ts); Some (set_grp st ts).

(** [rnds], [started] and [addr] as in [StartSrvs]. *)
Definition rt_restart (rnds : Z → nat → string) (started : Z → bool) (addr : Z → nat) (l : list Z)
    (ts : RaftTest) : option RaftTest :=
  st ← StartSrvs rnds started addr l (rt_grp ts, rt_world ts);
  for_each l reconnect (set_grp st ts).

(** The loop of [makeTest], over a group that was started. *)
Definition rt_make (n : Z) (sg : ServerGrp) (w : RWorld) : option RaftTest :=
  for_each (seqZ 0 n) mksrv (MkRaftTest (replicate (Z.to_nat n) None) (makeTest n) sg w 0).

Definition checkFinished (ts : RaftTest) : bool := negb (bool_decide (finished ts = 0)).
Definition set_finished (ts : RaftTest) : RaftTest :=
  MkRaftTest (rt_proxies ts) (rt_test ts) (rt_grp ts) (rt_world ts) 1.
End RaftTest.

Arguments RaftTest : clear implicits.
