(* ===== verification/RaftTestTheorems.v ===== *)
(** * Theorems on the servers of the Raft test

    A server that the test kills and restarts comes back with what it had
    persisted, on the network, behind a new proxy; the other servers and what the
    tester collected stay as they were.  At the end, a concrete run: two of the
    three servers of [GroupDemo.v] are killed and come back, one of which had
    counted two calls. *)
From S2P Require Import Prelude Strs Persister Raft RfSrv.
From S2P Require Import LabRpc LabRpcTheorems Daemon Group GroupTheorems GroupRun GroupDemo RaftTest.

Section Theorems.
Context `{!Program D}.
Abbreviation RWorld := (World string (Process (D := D))).
Implicit Types (sg : ServerGrp) (w : RWorld) (l : list Z).

(** ** Kill *)

(** The address [b] belongs to a server of [l]. *)
Definition address_of sg l (b : nat) : Prop :=
  ∃ k s, k ∈ l ∧ go_index (srvs sg) k = Some s ∧ dc s = Some b.

(** [s] was shut down, with what its process had persisted in [w]. *)
Definition shut w (s s' : Server) : Prop :=
  dc s' = None ∧
  match dc s with
  | Some a => ∃ p d, process a (heap w) = Some (p, d) ∧ saved s' = Some p
  | None => saved s' = saved s
  end.

Lemma ShutdownServer_inv i sg w sg' w' :
  ShutdownServer i (sg, w) = Some (sg', w') →
  gid sg' = gid sg ∧ (∀ k, k ≠ i → go_index (srvs sg') k = go_index (srvs sg) k) ∧
  (∃ s s', go_index (srvs sg) i = Some s ∧ go_index (srvs sg') i = Some s' ∧ shut w s s') ∧
  (∀ b, (∀ s, go_index (srvs sg) i = Some s → dc s ≠ Some b) →
     process b (heap w') = process b (heap w)) ∧
  (∀ s a, go_index (srvs sg) i = Some s → dc s = Some a → process a (heap w') = None) ∧
  (∀ b, heap w !! b = None → heap w' !! b = None).
Proof.
  unfold ShutdownServer. intros ([sg1 w1] & Hiso & Hstop)%bind_Some.
  assert (srvs sg1 = srvs sg ∧ gid sg1 = gid sg ∧ heap w1 = heap w) as (E1 & E2 & E3).
  { clear Hstop. unfold isolate, on_net in Hiso. apply bind_Some in Hiso as ([sg2 w2] & Hd & [= <- <-]).
    apply bind_Some in Hd as ([sg3 rn3] & Hd & [= <- <-]). apply (disconnect_toggles (D := D)) in Hd as (conn & Hsg & _).
    cbn in Hsg. subst sg3. done. }
  destruct (stop_inv _ _ _ _ _ Hstop) as (s & s' & ss & Hs & Hss & -> & _ & Hd & Hm).
  rewrite E1 in Hs. cbn. rewrite E2. split; [done|]. rewrite E1 in Hss.
  assert (∀ k, go_index ss k = if decide (k = i) then Some s' else go_index (srvs sg) k) as Hidx
    by (intros k; by eapply go_set_index).
  split; [intros k Hk; by rewrite Hidx, decide_False|].
  split; [exists s, s'; rewrite Hidx, decide_True by done; split; [done|split; [done|split; [done|]]]|].
  { destruct (dc s); [|by destruct Hm]. destruct Hm as (_ & p & d & Hp & Hsv). rewrite E3 in Hp. by eauto. }
  destruct (dc s) as [a|] eqn:Ha; destruct Hm as [-> Hm].
  - destruct Hm as (p & d & Hp & _). rewrite E3 in *. cbn. split; [|split].
    + intros b Hb. apply process_kill. intros ->. by apply (Hb s).
    + intros s1 a1 H1 H2. rewrite Hs in H1. injection H1 as <-. rewrite Ha in H2. injection H2 as <-.
      apply process_killed.
    + intros b Hb. unfold kill. rewrite lookup_alter_None. done.
  - rewrite E3. split; [done|]. split; [|done]. intros s1 a1 H1 H2. congruence.
Qed.

Record took_down l sg w sg' w' : Prop := {
  kd_gid : gid sg' = gid sg;
  kd_other k : k ∉ l → go_index (srvs sg') k = go_index (srvs sg) k;
  kd_shut k : k ∈ l → ∃ s s', go_index (srvs sg) k = Some s ∧ go_index (srvs sg') k = Some s' ∧ shut w s s';
  kd_alive b : ¬ address_of sg l b → process b (heap w') = process b (heap w);
  kd_dead b : address_of sg l b → process b (heap w') = None;
  kd_fresh b : heap w !! b = None → heap w' !! b = None;
}.

Lemma Kill_inv l sg w sg' w' :
  NoDup l → group_ok sg w → Kill l (sg, w) = Some (sg', w') → took_down l sg w sg' w'.
Proof.
  unfold Kill. revert sg w. induction l as [|i l IH]; intros sg w Hnd Hok; cbn [for_each].
  { intros [= <- <-]. split; try done.
    - by intros k []%not_elem_of_nil.
    - by intros b (k & s & []%not_elem_of_nil & _). }
  apply list.NoDup_cons in Hnd as [Hi Hnd]. intros ([sg1 w1] & Hs & Hrest)%bind_Some.
  assert (group_ok sg1 w1) as Hok1.
  { unfold ShutdownServer in Hs. apply bind_Some in Hs as ([sg2 w2] & Hiso & Hstop).
    eapply stop_ok; [by eapply isolate_ok|exact Hstop]. }
  destruct (ShutdownServer_inv _ _ _ _ _ Hs) as (Hg & Hother & (s & s' & Hsi & Hsi' & Hshut) & Hal & Hdd & Hfr).
  specialize (IH sg1 w1 Hnd Hok1 Hrest). destruct IH as [Hg' Hother' Hshut' Hal' Hdd' Hfr'].
  assert (∀ k s1 b, k ∈ l → go_index (srvs sg) k = Some s1 → dc s1 = Some b →
    process b (heap w1) = process b (heap w)) as Hsame.
  { intros k s1 b Hk H1 H2. apply Hal. intros s2 H3 H4.
    assert (k = i) as -> by (by eapply (go_dc_inj _ _ Hok)). done. }
  assert (∀ k, k ∈ l → go_index (srvs sg1) k = go_index (srvs sg) k) as Hsrv
    by (intros k Hk; apply Hother; by intros ->).
  assert (∀ b, address_of sg1 l b ↔ address_of sg l b) as Haddr.
  { intros b. unfold address_of. split; intros (k & s1 & Hk & H1 & H2); exists k, s1;
      [rewrite <- Hsrv|rewrite Hsrv]; done. }
  split.
  - congruence.
  - intros k [Hk Hkl]%not_elem_of_cons. by rewrite Hother', Hother.
  - intros k [->|Hk]%elem_of_cons.
    + exists s, s'. by rewrite Hother'.
    + destruct (Hshut' k Hk) as (s1 & s1' & H1 & H1' & Hd & Hm). rewrite Hsrv in H1 by done.
      exists s1, s1'. split; [done|]. split; [done|]. split; [done|].
      destruct (dc s1) as [a|] eqn:Ha; [|done]. by rewrite (Hsame k s1 a) in Hm.
  - intros b Hb. rewrite Hal' by (rewrite Haddr; intros (k & s1 & Hk & H); apply Hb; exists k, s1;
      split; [by right|done]).
    apply Hal. intros s1 H1 H2. apply Hb. exists i, s1. split; [by left|done].
  - intros b (k & s1 & [->|Hk]%elem_of_cons & H1 & H2).
    + rewrite Hal'; [by eapply Hdd|]. rewrite Haddr. intros (k & s2 & Hk & H3 & H4).
      assert (k = i) as -> by (by eapply (go_dc_inj _ _ Hok)). done.
    + apply Hdd'. rewrite Haddr. by exists k, s1.
  - auto.
Qed.

(** ** Start *)

(** [s'] runs a new process at [a] that starts with what [s] had saved. *)
Definition restarted (g i : Z) (a : nat) w' (s s' : Server) : Prop :=
  dc s' = Some a ∧ saved s' = Some (default MakePersister (saved s)) ∧
  process a (heap w') = Some (default MakePersister (saved s),
    prog_start (endNames s') g i (default MakePersister (saved s))).

Record started_all (addr : Z → nat) l sg w sg' w' : Prop := {
  sd_gid : gid sg' = gid sg;
  sd_other k : k ∉ l → go_index (srvs sg') k = go_index (srvs sg) k;
  sd_new k : k ∈ l →
    ∃ s s', go_index (srvs sg) k = Some s ∧ go_index (srvs sg') k = Some s' ∧
      restarted (gid sg) k (addr k) w' s s';
  sd_rest b : (∀ k, k ∈ l → addr k ≠ b) → process b (heap w') = process b (heap w);
}.

Lemma StartSrvs_inv rnds addr l sg w sg' w' :
  NoDup l → (∀ k k', k ∈ l → k' ∈ l → addr k = addr k' → k = k') →
  StartSrvs rnds (λ _, true) addr l (sg, w) = Some (sg', w') → started_all addr l sg w sg' w'.
Proof.
  unfold StartSrvs. revert sg w. induction l as [|i l IH]; intros sg w Hnd Hinj; cbn [for_each].
  { intros [= <- <-]. split; try done. by intros k []%not_elem_of_nil. }
  apply list.NoDup_cons in Hnd as [Hi Hnd]. intros ([sg1 w1] & Hs & Hrest)%bind_Some.
  destruct (StartServer_inv _ _ _ _ _ _ _ _ Hs)
    as (s & srv & rn1 & ss & s' & Hsi & _ & Hss & -> & Hsv & Hen & Hd & Hw). cbv zeta in Hw.
  assert (∀ k, go_index ss k = if decide (k = i) then Some s' else go_index (srvs sg) k) as Hidx
    by (intros k; by eapply go_set_index).
  destruct (IH (set_srvs ss sg) w1 Hnd) as [Hg Hother Hnew Hr]; [|done|].
  { intros k k' Hk Hk'. apply Hinj; by right. }
  cbn in Hg, Hother, Hnew.
  assert (∀ k, k ∈ l → addr k ≠ addr i) as Hne.
  { intros k Hk E. apply Hinj in E as ->; [done|by right|by left]. }
  split.
  - done.
  - intros k [Hk Hkl]%not_elem_of_cons. by rewrite Hother, Hidx, decide_False.
  - intros k [->|Hk]%elem_of_cons.
    + exists s, s'. rewrite Hother, Hidx, decide_True by done. split; [done|]. split; [done|].
      split; [done|]. split; [done|]. rewrite Hr by done. rewrite Hw. cbn [heap set_heap set_net].
      rewrite (process_insert (D := D)), decide_True by done. cbn. by rewrite Hen.
    + destruct (Hnew k Hk) as (s1 & s1' & H1 & H1' & Hres). rewrite Hidx, decide_False in H1 by (by intros ->).
      by exists s1, s1'.
  - intros b Hb. rewrite Hr by (intros k Hk; apply Hb; by right). rewrite Hw. cbn [heap set_heap set_net].
    rewrite (process_insert (D := D)), decide_False; [done|]. apply Hb. by left.
Qed.

(** ** The tester *)

Context {Cmd : Type}.
Implicit Types ts : RaftTest D Cmd.

Definition proxy ts (i : Z) : option (option (option nat)) := go_index (rt_proxies ts) i.

Lemma set_proxy_inv i p ts ts' :
  set_proxy i p ts = Some ts' →
  (∀ k, proxy ts' k = if decide (k = i) then Some p else proxy ts k) ∧
  rt_test ts' = rt_test ts ∧ rt_grp ts' = rt_grp ts ∧ rt_world ts' = rt_world ts ∧ finished ts' = finished ts.
Proof.
  unfold set_proxy. intros (ps & Hps & [= <-])%bind_Some. split; [|done].
  intros k. unfold proxy. cbn. by eapply go_set_index.
Qed.

Lemma if_cons {A} (k i : Z) l (x z : A) :
  (if decide (k ∈ l) then x else if decide (k = i) then x else z) = if decide (k ∈ i :: l) then x else z.
Proof.
  destruct (decide (k ∈ i :: l)) as [H|[H1 H2]%not_elem_of_cons]; [|by rewrite !decide_False].
  destruct (decide (k ∈ l)) as [|Hn]; [done|]. apply elem_of_cons in H as [->|]; [|done].
  by rewrite decide_True.
Qed.

Lemma clear_proxies l ts ts' :
  for_each l (λ srv ts, set_proxy srv None ts) ts = Some ts' →
  (∀ k, proxy ts' k = if decide (k ∈ l) then Some None else proxy ts k) ∧
  rt_test ts' = rt_test ts ∧ rt_grp ts' = rt_grp ts ∧ rt_world ts' = rt_world ts ∧ finished ts' = finished ts.
Proof.
  revert ts. induction l as [|i l IH]; intros ts; cbn [for_each]; [by intros [= <-]|].
  intros (ts1 & H1 & H2)%bind_Some.
  apply IH in H2 as (Hp2 & E1 & E2 & E3 & E4). apply set_proxy_inv in H1 as (Hp & F1 & F2 & F3 & F4).
  split; [|split_and!; congruence]. intros k. rewrite Hp2, Hp. apply if_cons.
Qed.

Lemma connect_connected i to sg rn sg' rn' :
  connect i to (sg, rn) = Some (sg', rn') →
  srvs sg' = srvs sg ∧ gid sg' = gid sg ∧
  ∀ k, is_connected (connected sg') k = if decide (k = i) then true else is_connected (connected sg) k.
Proof.
  unfold connect. intros (conn & Hc & (s & _ & (rn1 & _ & (rn2 & _ & [= <- _])%bind_Some)%bind_Some)%bind_Some)%bind_Some.
  split; [done|]. split; [done|]. intros k. cbn. unfold is_connected.
  rewrite (go_set_index _ _ _ _ k Hc). by case_decide.
Qed.

Lemma reconnect_all l ts ts' :
  for_each l reconnect ts = Some ts' →
  (∀ k, proxy ts' k = if decide (k ∈ l) then Some (DaemonClnt k (rt_grp ts)) else proxy ts k) ∧
  rt_test ts' = rt_test ts ∧ srvs (rt_grp ts') = srvs (rt_grp ts) ∧ heap (rt_world ts') = heap (rt_world ts) ∧
  ∀ k, is_connected (connected (rt_grp ts')) k =
    if decide (k ∈ l) then true else is_connected (connected (rt_grp ts)) k.
Proof.
  revert ts. induction l as [|i l IH]; intros ts; cbn [for_each]; [by intros [= <-]|].
  intros (ts2 & H1 & H2)%bind_Some. unfold reconnect in H1.
  apply bind_Some in H1 as (ts1 & H0 & ([sg w] & Hon & [= <-])%bind_Some).
  unfold mksrv in H0. apply bind_Some in H0 as (d & Hd & H0).
  apply set_proxy_inv in H0 as (Hp & F1 & F2 & F3 & _). rewrite F2, F3 in Hon.
  apply bind_Some in Hon as ([sg1 rn1] & Hcon & [= <- <-]). apply connect_connected in Hcon as (G1 & G2 & G3).
  apply IH in H2 as (Hp2 & E1 & E2 & E3 & E4). cbn in *. split; [|split; [|split; [|split]]].
  - intros k. rewrite Hp2. unfold DaemonClnt in *. cbn. rewrite G1. fold (proxy ts1 k).
    change (proxy (set_grp (sg1, set_net rn1 (rt_world ts)) ts1) k) with (proxy ts1 k). rewrite Hp.
    rewrite <- if_cons. destruct (decide (k ∈ l)); [done|]. by destruct (decide (k = i)) as [->|]; [rewrite Hd|].
  - congruence.
  - congruence.
  - done.
  - intros k. rewrite E4, G3. apply if_cons.
Qed.

(** Killing and restarting servers of the Raft test, any number of them.
    After [kill] their processes are gone and the tester has no proxy for them;
    after [restart] each runs a new process at its new address that starts with
    exactly what the old one had persisted, is connected, and has a proxy over the
    new process.  The other servers keep their process and their proxy, and what
    the servers had reported to the tester is kept throughout. *)
Theorem kill_restart rnds addr l ts ts1 ts2 :
  g_reach (rt_grp ts) (rt_world ts) → NoDup l →
  (∀ k k', k ∈ l → k' ∈ l → addr k = addr k' → k = k') →
  (∀ k, k ∈ l → heap (rt_world ts) !! addr k = None) →
  rt_kill l ts = Some ts1 → rt_restart rnds (λ _, true) addr l ts1 = Some ts2 →
  rt_test ts1 = rt_test ts ∧ rt_test ts2 = rt_test ts ∧
  (∀ k, k ∈ l →
     proxy ts1 k = Some None ∧ proxy ts2 k = Some (Some (Some (addr k))) ∧
     is_connected (connected (rt_grp ts2)) k = true ∧
     ∃ s s', go_index (srvs (rt_grp ts)) k = Some s ∧ go_index (srvs (rt_grp ts2)) k = Some s' ∧
       ∀ a p d, dc s = Some a → process a (heap (rt_world ts)) = Some (p, d) →
         process a (heap (rt_world ts1)) = None ∧
         process (addr k) (heap (rt_world ts2)) =
           Some (p, prog_start (endNames s') (gid (rt_grp ts)) k p)) ∧
  (∀ k, k ∉ l →
     proxy ts2 k = proxy ts k ∧ go_index (srvs (rt_grp ts2)) k = go_index (srvs (rt_grp ts)) k ∧
     ∀ s a, go_index (srvs (rt_grp ts)) k = Some s → dc s = Some a →
       process a (heap (rt_world ts2)) = process a (heap (rt_world ts))).
Proof.
  intros Hok%reach_ok Hnd Hinj Hfresh Hkill Hrestart.
  unfold rt_kill in Hkill. apply bind_Some in Hkill as ([sg1 w1] & Hk & Hclear).
  apply Kill_inv in Hk; [|done|done]. destruct Hk as [K1 K2 K3 K4 K5 K6].
  apply clear_proxies in Hclear as (C1 & C2 & C3 & C4 & _). cbn in C2, C3, C4.
  unfold rt_restart in Hrestart. rewrite C3, C4 in Hrestart.
  apply bind_Some in Hrestart as ([sg2 w2] & Hs & Hrec).
  apply StartSrvs_inv in Hs; [|done|done]. destruct Hs as [S1 S2 S3 S4].
  apply reconnect_all in Hrec as (R1 & R2 & R3 & R4 & R5). cbn in R1, R2, R3, R4, R5.
  rewrite C4, R3, R4, R2, C2. split; [done|]. split; [done|]. split.
  - intros k Hin. destruct (K3 k Hin) as (s & sk & Hsk & Hsk' & Hdead & Hsaved).
    destruct (S3 k Hin) as (sk2 & s' & H1 & H2 & Hd & Hsv & Hp). assert (sk2 = sk) as -> by congruence.
    split; [rewrite C1; by rewrite decide_True|]. split; [|split].
    + rewrite R1, decide_True by done. unfold DaemonClnt. cbn. rewrite H2. cbn. by rewrite Hd.
    + by rewrite R5, decide_True.
    + exists s, s'. split; [done|]. split; [done|]. intros a p d Ha Hproc. split.
      * apply K5. by exists k, s.
      * rewrite Ha in Hsaved. destruct Hsaved as (p' & d' & Hp' & Hsv'). rewrite Hproc in Hp'.
        injection Hp' as <- <-. rewrite Hsv', K1 in Hp. exact Hp.
  - intros k Hin. split; [rewrite R1, decide_False by done; cbn; change (proxy ts1 k = proxy ts k);
      by rewrite C1, decide_False|].
    split; [by rewrite S2, K2|]. intros s a Hs Ha. rewrite S4, K4; [done|..].
    + intros (k' & s1 & Hk' & H1 & H2). assert (k' = k) as -> by (by eapply (go_dc_inj _ _ Hok)). done.
    + intros k' Hk' <-. destruct (go_dc _ _ Hok _ _ _ Hs Ha) as [Hpr _].
      rewrite process_fresh in Hpr by (by apply Hfresh). by destruct Hpr.
Qed.
End Theorems.

(** ** A restart *)

Abbreviation DTest := (RaftTest Z string).

Definition empty_test : DTest :=
  MkRaftTest [] (makeTest 0) no_group (init_world MakeNetwork ∅) 0.

Definition before : DTest :=
  MkRaftTest [Some (Some 0%nat); Some (Some 1%nat); Some (Some 2%nat)] (makeTest 3)
    running_st.1 running_st.2 0.

Lemma before_made : rt_make 3 running_st.1 running_st.2 = Some before.
Proof. vm_compute. reflexivity. Qed.

Definition killed_12 : DTest := default empty_test (rt_kill [1; 2] before).
Definition new_addr (k : Z) : nat := (10 + Z.to_nat k)%nat.
Definition restarted_12 : DTest :=
  default empty_test (rt_restart (λ k, rnd_again 2 (Z.to_nat k)) (λ _, true) new_addr [1; 2] killed_12).

Lemma kill_restart_witness :
  process 1 (heap (rt_world before)) = Some (Save MakePersister [2] [], 2) ∧
  process 1 (heap (rt_world killed_12)) = None ∧
  (∃ names, process 11 (heap (rt_world restarted_12)) =
     Some (Save MakePersister [2] [], prog_start names 0 1 (Save MakePersister [2] []))) ∧
  proxy restarted_12 1 = Some (Some (Some 11%nat)) ∧ proxy restarted_12 0 = proxy before 0.
Proof.
  assert (process 1 (heap (rt_world before)) = Some (Save MakePersister [2] [], 2)) as Hp
    by (vm_compute; reflexivity).
  split; [exact Hp|].
  destruct (kill_restart (λ k, rnd_again 2 (Z.to_nat k)) new_addr [1; 2] before killed_12 restarted_12)
    as (_ & _ & Hin & Hout).
  - exact running_reach.
  - apply (bool_decide_unpack _). vm_compute. exact I.
  - intros k k' Hk Hk'. unfold new_addr. apply elem_of_cons in Hk as [->|Hk%list_elem_of_singleton], Hk' as [->|Hk'%list_elem_of_singleton];
      subst; lia.
  - intros k Hk. apply elem_of_cons in Hk as [->|Hk%list_elem_of_singleton]; subst; vm_compute; reflexivity.
  - apply default_some. vm_compute. reflexivity.
  - apply default_some. vm_compute. reflexivity.
  - destruct (Hin 1 ltac:(by left)) as (_ & H1 & _ & s & s' & Hs & _ & Hrun).
    assert (dc s = Some 1%nat) as Hd.
    { assert (dc <$> go_index (srvs (rt_grp before)) 1 = Some (Some 1%nat)) as E by (vm_compute; reflexivity).
      rewrite Hs in E. by injection E. }
    destruct (Hrun 1%nat _ _ Hd Hp) as [H2 H3]. split; [exact H2|]. split; [|split; [exact H1|]].
    + exists (endNames s'). exact H3.
    + apply (Hout 0). apply (bool_decide_unpack _). vm_compute. exact I.
Defined.
