(* ===== verification/Clnts.v ===== *)
(** * Clients of a test

    [src/src/tester1/clnts.go]: a client makes an end to a server the first time
    it calls it, and may be cut off from servers.  [None] is [log.Fatalf].

    What a client is meant to reach is stated apart from the code, by what the
    comment on [srvs] says ([permits], [permit_run]): the servers it was last
    given, all without a list and none with an empty one.  The code permits at
    least these ([client_reach]), and more after a [ConnectTo] that leaves out a
    called server ([ConnectTo] never disables an end). *)
From S2P Require Import Prelude Persister LabRpc Group.

(** [ends] maps a server to the name of the end to it.  [srvs] is [None] for a
    client that may reach all servers. *)
Record Clnt := MkClnt { c_ends : gmap string string; c_srvs : option (list string) }.

Definition makeClntTo (srvs : option (list string)) : Clnt := MkClnt ∅ srvs.

Definition allowedL (clnt : Clnt) (server : string) : bool :=
  match c_srvs clnt with
  | None => true
  | Some l => existsb (λ n, bool_decide (n = server)) l
  end.

(** [name] is the draw of [Randstring(20)]. *)
Definition makeEnd (name server : string) (st : Clnt * Network string)
    : option (string * (Clnt * Network string)) :=
  let '(clnt, rn) := st in
  match c_ends clnt !! server with
  | Some e => Some (e, st)
  | None =>
      rn ← MakeEnd name rn;
      let rn := Enable name (allowedL clnt server) (Connect name server rn) in
      Some (name, (MkClnt (<[server := name]> (c_ends clnt)) (c_srvs clnt), rn))
  end.

(** The loops over [clnt.ends]; [order] is the order in which it is visited. *)
Definition enable_if (cond : string → bool) (v : bool) (order : list (string * string))
    (rn : Network string) : Network string :=
  foldl (λ rn '(srv, e), if cond srv then Enable e v rn else rn) rn order.

Definition Clnt_ConnectAll order (st : Clnt * Network string) : Clnt * Network string :=
  (MkClnt (c_ends st.1) None, enable_if (λ _, true) true order st.2).

Definition ConnectTo (srvs : option (list string)) order (st : Clnt * Network string)
    : Clnt * Network string :=
  let clnt := MkClnt (c_ends st.1) srvs in
  (clnt, enable_if (allowedL clnt) true order st.2).

Definition Disconnect (srv : string) order (st : Clnt * Network string) : Clnt * Network string :=
  (st.1, enable_if (λ s, bool_decide (s = srv)) false order st.2).

Definition Clnt_DisconnectAll order (st : Clnt * Network string) : Clnt * Network string :=
  (MkClnt (c_ends st.1) (Some []), enable_if (λ _, true) false order st.2).

Definition remove (order : list (string * string)) (rn : Network string) : option (Network string) :=
  for_each order (λ '(_, e) rn, DeleteEnd e rn) rn.

(** ** All clients of a test

    A client is named by its address. *)
Record Clnts := MkClnts { clerks : gmap nat Clnt }.

Definition makeClnts : Clnts := MkClnts ∅.

Definition MakeClientTo (c : nat) (srvs : option (list string)) (cs : Clnts) : Clnts :=
  MkClnts (<[c := makeClntTo srvs]> (clerks cs)).
Definition MakeClient (c : nat) (cs : Clnts) : Clnts := MakeClientTo c None cs.

Definition DeleteClient (c : nat) order (st : Clnts * Network string) : option (Clnts * Network string) :=
  match clerks st.1 !! c with
  | Some _ => rn ← remove order st.2; Some (MkClnts (delete c (clerks st.1)), rn)
  | None => Some st
  end.

(** [orders c] is the order in which the ends of [c] are visited. *)
Definition clnts_cleanup (cs : list nat) (orders : nat → list (string * string))
    (st : Clnts * Network string) : option (Clnts * Network string) :=
  rn ← for_each cs (λ c rn, remove (orders c) rn) st.2; Some (MkClnts ∅, rn).

(** ** Which servers a client can reach *)

(** An order in which a map may be visited. *)
Definition visits (m : gmap string string) (order : list (string * string)) : Prop :=
  order ≡ₚ map_to_list m.

Definition reach_of (st : Clnt * Network string) (server : string) : option bool :=
  e ← c_ends st.1 !! server; enabled st.2 !! e.

Record clnt_ok (st : Clnt * Network string) : Prop := {
  ck_inj s s' e : c_ends st.1 !! s = Some e → c_ends st.1 !! s' = Some e → s = s';
  ck_ends s e : c_ends st.1 !! s = Some e →
    e ∈ ends st.2 ∧ connections st.2 !! e = Some (Some s) ∧ is_Some (enabled st.2 !! e);
}.

Lemma enable_if_spec cond v order (rn : Network string) :
  ∃ en, enable_if cond v order rn = set_ends (ends rn) en (connections rn) rn ∧
    (∀ e, (∀ s, (s, e) ∈ order → cond s = false) → en !! e = enabled rn !! e) ∧
    (∀ s e, (s, e) ∈ order → cond s = true → en !! e = Some v).
Proof.
  revert rn. induction order as [|[s e] order IH]; intros rn; cbn [enable_if foldl].
  - exists (enabled rn). split; [by destruct rn|]. split; [done|]. by intros s e ?%not_elem_of_nil.
  - destruct (IH (if cond s then Enable e v rn else rn)) as (en & Hen & Hno & Hyes).
    exists en. split; [unfold enable_if in Hen; rewrite Hen; by destruct (cond s)|]. split.
    + intros e' Hall. rewrite Hno by (intros s' Hs'; apply Hall; by right).
      destruct (cond s) eqn:Hc; [|done]. cbn. rewrite lookup_insert_ne; [done|]. intros ->.
      rewrite (Hall s) in Hc; [done|by left].
    + intros s' e' [[= -> ->]|Hin]%elem_of_cons Hc; [|by eapply Hyes].
      destruct (decide (Exists (λ '(s'', e''), e'' = e ∧ cond s'' = true) order)) as [Hex|Hnex].
      * apply list.Exists_exists in Hex as ([s'' e''] & Hin & -> & Hc''). by eapply Hyes.
      * rewrite Hno; [rewrite Hc; cbn; by rewrite lookup_insert_eq|].
        intros s'' Hin. destruct (cond s'') eqn:Hc''; [|done]. exfalso. apply Hnex.
        apply list.Exists_exists. by exists (s'', e).
Qed.

(** What a test does with a client. *)
Inductive ClntOp :=
| CCall (name server : string)
| CConnectAll (order : list (string * string))
| CConnectTo (srvs : option (list string)) (order : list (string * string))
| CDisconnect (srv : string) (order : list (string * string))
| CDisconnectAll (order : list (string * string)).

Definition clnt_op (o : ClntOp) (st : Clnt * Network string) : option (Clnt * Network string) :=
  match o with
  | CCall name server => '(_, st) ← makeEnd name server st; Some st
  | CConnectAll order => Some (Clnt_ConnectAll order st)
  | CConnectTo srvs order => Some (ConnectTo srvs order st)
  | CDisconnect srv order => Some (Disconnect srv order st)
  | CDisconnectAll order => Some (Clnt_DisconnectAll order st)
  end.

(** The loops visit the whole map. *)
Definition complete (o : ClntOp) (st : Clnt * Network string) : Prop :=
  match o with
  | CCall _ _ => True
  | CConnectAll order | CConnectTo _ order | CDisconnect _ order | CDisconnectAll order =>
      visits (c_ends st.1) order
  end.

(** Whether a call to a server now would find its end enabled: an end that is
    there, or the one that would be made. *)
Definition may_reach (st : Clnt * Network string) (server : string) : bool :=
  match c_ends st.1 !! server with
  | Some e => default false (enabled st.2 !! e)
  | None => allowedL st.1 server
  end.

Definition known_to (st : Clnt * Network string) (s : string) : bool :=
  match c_ends st.1 !! s with Some _ => true | None => false end.

Lemma visits_elem m order s e : visits m order → (s, e) ∈ order ↔ m !! s = Some e.
Proof. unfold visits. intros ->. apply elem_of_map_to_list. Qed.

Lemma enable_may cond v order clnt srvs rn s e :
  clnt_ok (clnt, rn) → visits (c_ends clnt) order → c_ends clnt !! s = Some e →
  may_reach (MkClnt (c_ends clnt) srvs, enable_if cond v order rn) s =
    if cond s then v else may_reach (clnt, rn) s.
Proof.
  intros Hok Hv Hs. destruct (enable_if_spec cond v order rn) as (en & -> & Hno & Hyes).
  unfold may_reach. cbn. rewrite Hs. destruct (cond s) eqn:Hc.
  - rewrite (Hyes s e); [done|by apply (visits_elem _ _ _ _ Hv)|done].
  - rewrite Hno; [done|]. intros s' Hin%(visits_elem _ _ _ _ Hv).
    by rewrite (ck_inj _ Hok _ _ _ Hin Hs).
Qed.

Lemma enable_ok cond v order clnt srvs rn :
  clnt_ok (clnt, rn) → clnt_ok (MkClnt (c_ends clnt) srvs, enable_if cond v order rn).
Proof.
  intros [Hinj Hends]. destruct (enable_if_spec cond v order rn) as (en & -> & Hno & Hyes).
  split; [done|]. cbn in *. intros s e Hs. destruct (Hends s e Hs) as (? & ? & He).
  split; [done|]. split; [done|].
  destruct (decide (Exists (λ '(s', e'), e' = e ∧ cond s' = true) order)) as [Hex|Hnex].
  - apply list.Exists_exists in Hex as ([s' e'] & Hin & -> & Hc). rewrite (Hyes s' e Hin Hc). by eexists.
  - rewrite Hno; [done|]. intros s' Hin. destruct (cond s') eqn:Hc; [|done]. exfalso. apply Hnex.
    apply list.Exists_exists. by exists (s', e).
Qed.

Lemma makeEnd_ok name server st e st' :
  clnt_ok st → makeEnd name server st = Some (e, st') →
  clnt_ok st' ∧ c_ends st'.1 !! server = Some e ∧ enabled st'.2 !! e = Some (may_reach st server) ∧
  ∀ s, may_reach st' s = may_reach st s.
Proof.
  destruct st as [clnt rn]. intros [Hinj Hends] H. cbn in *. unfold makeEnd in H.
  destruct (c_ends clnt !! server) as [e0|] eqn:Hs.
  - injection H as <- <-. split; [done|]. split; [done|]. split; [|done].
    unfold may_reach. cbn. rewrite Hs. destruct (Hends _ _ Hs) as (_ & _ & [b ->]). done.
  - apply bind_Some in H as (rn1 & H1 & [= <- <-]). unfold MakeEnd in H1.
    case_decide as Hfresh; [done|]. injection H1 as <-. cbn.
    assert (∀ s e, c_ends clnt !! s = Some e → e ≠ name) as Hne.
    { intros s e Hse ->. by destruct (Hends _ _ Hse) as [? _]. }
    split; [split|]; cbn.
    + intros s s' e [[<- <-]|[? H1]]%lookup_insert_Some [[<- ?]|[? H2]]%lookup_insert_Some; try done.
      * exfalso. by eapply Hne.
      * exfalso. subst. by eapply Hne.
      * by eapply Hinj.
    + intros s e [[<- <-]|[? H1]]%lookup_insert_Some.
      * rewrite !lookup_insert_eq. split; [set_solver|]. split; [done|by eexists].
      * rewrite !lookup_insert_ne by (by apply not_eq_sym; eapply Hne).
        destruct (Hends _ _ H1) as (? & ? & ?). split; [set_solver|done].
    + split; [by rewrite lookup_insert_eq|]. split.
      * rewrite lookup_insert_eq. unfold may_reach. cbn. by rewrite Hs.
      * intros s. unfold may_reach. cbn. destruct (decide (s = server)) as [->|Hns].
        -- rewrite Hs, !lookup_insert_eq. done.
        -- rewrite lookup_insert_ne by done. destruct (c_ends clnt !! s) as [e|] eqn:Hse; [|done].
           by rewrite !lookup_insert_ne by (by apply not_eq_sym; eapply Hne).
Qed.

Lemma clnt_op_step o st st' :
  clnt_ok st → complete o st → clnt_op o st = Some st' →
  clnt_ok st' ∧ ∀ s, may_reach st' s =
    match o with
    | CCall _ _ => may_reach st s
    | CConnectAll _ => true
    | CConnectTo srvs _ => allowedL (makeClntTo srvs) s || (known_to st s && may_reach st s)
    | CDisconnect srv _ =>
        if bool_decide (s = srv) then negb (known_to st s) && may_reach st s else may_reach st s
    | CDisconnectAll _ => false
    end.
Proof.
  destruct st as [clnt rn]. intros Hok Hv H. destruct o; cbn in H, Hv.
  - apply bind_Some in H as ([e st1] & H & [= <-]).
    by destruct (makeEnd_ok _ _ _ _ _ Hok H) as (? & _ & _ & ?).
  - injection H as <-. unfold Clnt_ConnectAll. cbn [fst snd]. split; [by apply enable_ok|]. intros s.
    destruct (c_ends clnt !! s) as [e|] eqn:Hs; [by rewrite (enable_may _ _ _ _ _ _ _ e)|].
    unfold may_reach. cbn. by rewrite Hs.
  - injection H as <-. unfold ConnectTo. cbn [fst snd]. split; [by apply enable_ok|]. intros s.
    unfold known_to. cbn [fst snd].
    destruct (c_ends clnt !! s) as [e|] eqn:Hs.
    + rewrite (enable_may _ _ _ _ _ _ _ e) by done. unfold allowedL at 1 2. cbn.
      by destruct (match srvs with None => true | Some l => _ end).
    + unfold may_reach. cbn. rewrite Hs. by rewrite orb_false_r.
  - injection H as <-. unfold Disconnect. cbn [fst snd].
    assert (clnt = MkClnt (c_ends clnt) (c_srvs clnt)) as Hc by (by destruct clnt).
    split; [rewrite Hc at 1; by apply enable_ok|]. intros s. unfold known_to. cbn [fst snd].
    rewrite Hc at 1. destruct (c_ends clnt !! s) as [e|] eqn:Hs.
    + rewrite (enable_may _ _ _ _ _ _ _ e) by done. done.
    + unfold may_reach. cbn. rewrite Hs. by destruct (bool_decide (s = srv)).
  - injection H as <-. unfold Clnt_DisconnectAll. cbn [fst snd]. split; [by apply enable_ok|]. intros s.
    destruct (c_ends clnt !! s) as [e|] eqn:Hs; [by rewrite (enable_may _ _ _ _ _ _ _ e)|].
    unfold may_reach. cbn. by rewrite Hs.
Qed.

Inductive clnt_run : list ClntOp → Clnt * Network string → Clnt * Network string → Prop :=
| clnt_done st : clnt_run [] st st
| clnt_more o os st st' st'' :
    complete o st → clnt_op o st = Some st' → clnt_run os st' st'' → clnt_run (o :: os) st st''.

(** *** What the client is meant to reach

    A list of servers as the comment on [srvs] reads it: with no list the client
    can connect to all servers, with an empty one to none. *)
Definition permits (srvs : option (list string)) (s : string) : bool :=
  match srvs with None => true | Some l => bool_decide (s ∈ l) end.

(** Each operation as its name says, whatever the client has called before. *)
Definition permit_step (o : ClntOp) (may : string → bool) (s : string) : bool :=
  match o with
  | CCall _ _ => may s
  | CConnectAll _ => true
  | CConnectTo srvs _ => permits srvs s
  | CDisconnect srv _ => negb (bool_decide (s = srv)) && may s
  | CDisconnectAll _ => false
  end.

Definition permit_run (os : list ClntOp) (may : string → bool) : string → bool :=
  foldl (λ may o, permit_step o may) may os.

(** The operations that take a server away only do so for the servers the client
    has called: [ConnectTo] keeps the called servers the client may reach, as it
    does after [DisconnectAll], and [Disconnect] is of a called server. *)
Fixpoint tidy (os : list ClntOp) (known : gset string) (may : string → bool) : Prop :=
  match os with
  | [] => True
  | o :: os =>
      match o with
      | CConnectTo srvs _ => ∀ s, s ∈ known → may s = true → permits srvs s = true
      | CDisconnect srv _ => srv ∈ known
      | _ => True
      end ∧
      tidy os (match o with CCall _ server => {[server]} ∪ known | _ => known end) (permit_step o may)
  end.

Lemma allowedL_permits ends srvs s : allowedL (MkClnt ends srvs) s = permits srvs s.
Proof.
  unfold allowedL, permits. cbn. destruct srvs as [l|]; [|done]. apply eq_bool_prop_intro.
  rewrite bool_decide_spec, Is_true_true, existsb_exists. split.
  - intros (n & Hn & ->%bool_decide_eq_true). by apply list_elem_of_In.
  - intros Hs. exists s. split; [by apply list_elem_of_In|by apply bool_decide_eq_true].
Qed.

Lemma clnt_op_known o st st' s :
  clnt_op o st = Some st' →
  known_to st' s = match o with CCall _ server => bool_decide (s = server) || known_to st s
                   | _ => known_to st s end.
Proof.
  destruct st as [clnt rn]. intros H. destruct o; cbn in H; try (by injection H as <-).
  apply bind_Some in H as ([e st1] & H & [= <-]). unfold makeEnd in H.
  destruct (c_ends clnt !! server) as [e0|] eqn:Hs.
  - injection H as <- <-. unfold known_to. cbn. case_bool_decide as Heq; [|done]. subst. by rewrite Hs.
  - apply bind_Some in H as (rn1 & _ & [= <- <-]). unfold known_to. cbn.
    case_bool_decide as Heq; [subst; by rewrite lookup_insert_eq|]. by rewrite lookup_insert_ne.
Qed.

(** Nobody the client is meant to reach is cut off, and in a tidy run nobody
    else is reached. *)
Lemma permit_run_spec os st st' (known : gset string) may :
  clnt_ok st → clnt_run os st st' →
  (∀ s, may s = true → may_reach st s = true) → (∀ s, known_to st s = bool_decide (s ∈ known)) →
  clnt_ok st' ∧ (∀ s, permit_run os may s = true → may_reach st' s = true) ∧
  ((∀ s, may_reach st s = may s) → tidy os known may → ∀ s, may_reach st' s = permit_run os may s).
Proof.
  intros Hok Hrun. revert known may.
  induction Hrun as [st|o os st st1 st2 Hc Ho _ IH]; intros known may Hm Hk; [done|].
  destruct (clnt_op_step o st st1 Hok Hc Ho) as [Hok1 Hm1].
  assert (∀ s, known_to st1 s =
    bool_decide (s ∈ match o with CCall _ server => {[server]} ∪ known | _ => known end)) as Hk1.
  { intros s. rewrite (clnt_op_known _ _ _ _ Ho). destruct o; rewrite Hk; try done.
    case_bool_decide; case_bool_decide; case_bool_decide; set_solver. }
  assert (∀ s, permit_step o may s = true → may_reach st1 s = true) as Hstep.
  { intros s Hs. rewrite Hm1. destruct o; cbn in Hs |- *; [by apply Hm|done| | |done].
    - unfold makeClntTo. by rewrite allowedL_permits, Hs.
    - apply andb_true_iff in Hs as [Hne Hs]. destruct (bool_decide (s = srv)); [done|by apply Hm]. }
  destruct (IH Hok1 _ (permit_step o may) Hstep Hk1) as (Hok2 & Hle & Heq).
  split; [done|]. split; [exact Hle|]. intros Hreach [Ht Htidy]. apply Heq; [|done].
  intros s. rewrite Hm1. destruct o; cbn in Ht |- *; [by apply Hreach|done| | |done].
  - unfold makeClntTo. rewrite allowedL_permits, Hk, Hreach. destruct (permits srvs s) eqn:Hp; [done|].
    case_bool_decide as Hin; [|done]. cbn. destruct (may s) eqn:Hs; [|done].
    by rewrite (Ht s Hin Hs) in Hp.
  - rewrite Hk, Hreach. case_bool_decide as Heqs; [|done]. subst. by rewrite bool_decide_eq_true_2.
Qed.

(** C39: a client reaches the servers it is meant to.  Along any run of calls,
    connections and disconnections, in whatever order the loops visit the ends,
    a call to a server leads to that server and finds its end enabled if the
    operations so far permit the server.  If no [ConnectTo] leaves out a called
    server that the client may still reach, and every [Disconnect] is of a called
    server, it is enabled only then. *)
Theorem client_reach os srvs rn st' name server e st'' :
  clnt_run os (makeClntTo srvs, rn) st' → makeEnd name server st' = Some (e, st'') →
  connections st''.2 !! e = Some (Some server) ∧
  (permit_run os (permits srvs) server = true → enabled st''.2 !! e = Some true) ∧
  (tidy os ∅ (permits srvs) → enabled st''.2 !! e = Some (permit_run os (permits srvs) server)).
Proof.
  intros Hrun He.
  assert (clnt_ok (makeClntTo srvs, rn)) as H0 by (split; cbn; intros; simplify_map_eq).
  assert (∀ s, may_reach (makeClntTo srvs, rn) s = permits srvs s) as Hs0
    by (intros s; apply allowedL_permits).
  destruct (permit_run_spec os _ st' ∅ (permits srvs) H0 Hrun) as (Hok & Hle & Heq).
  - intros s. by rewrite Hs0.
  - done.
  - destruct (makeEnd_ok _ _ _ _ _ Hok He) as (Hok' & Hs & Hen & _). rewrite Hen.
    split; [by eapply (ck_ends _ Hok')|]. split.
    + intros Hp. by rewrite (Hle server Hp).
    + intros Ht. by rewrite (Heq Hs0 Ht).
Qed.

(** Otherwise it may be: [ConnectTo] disables nothing.  A client that has called
    ["b"] still reaches it after it was told to connect to no server at all. *)
Theorem ConnectTo_keeps_others :
  ∃ st st', clnt_run [CCall "e" "b"; CConnectTo (Some []) [("b", "e")]] (makeClntTo None, MakeNetwork) st ∧
    permit_run [CCall "e" "b"; CConnectTo (Some []) [("b", "e")]] (permits None) "b" = false ∧
    makeEnd "f" "b" st = Some ("e", st') ∧ enabled st'.2 !! "e" = Some true.
Proof.
  eexists _, _. split; [repeat (econstructor; [vm_compute; done|reflexivity|]); constructor|].
  split; [reflexivity|]. split; [reflexivity|]. vm_compute. reflexivity.
Qed.

(** ** A concrete client

    It calls a server, is cut off from all, and may then reach another one. *)
Definition demo_ops : list ClntOp :=
  [CCall "e" "b"; CDisconnectAll [("b", "e")]; CConnectTo (Some ["a"]) [("b", "e")]].

Definition demo_client : Clnt * Network string :=
  default (makeClntTo None, MakeNetwork)
    (st ← clnt_op (CCall "e" "b") (makeClntTo None, MakeNetwork);
     Some (ConnectTo (Some ["a"]) [("b", "e")] (Clnt_DisconnectAll [("b", "e")] st))).

Lemma demo_client_run : clnt_run demo_ops (makeClntTo None, MakeNetwork) demo_client.
Proof. repeat (econstructor; [vm_compute; done|reflexivity|]). vm_compute. constructor. Qed.

Lemma client_reach_witness :
  (∃ e st, makeEnd "f" "a" demo_client = Some (e, st) ∧
    connections st.2 !! e = Some (Some "a") ∧ enabled st.2 !! e = Some true) ∧
  ∃ e st, makeEnd "f" "b" demo_client = Some (e, st) ∧
    connections st.2 !! e = Some (Some "b") ∧ enabled st.2 !! e = Some false.
Proof.
  split; (eexists _, _; split; [reflexivity|]).
  - destruct (client_reach demo_ops None MakeNetwork demo_client "f" "a" _ _ demo_client_run eq_refl)
      as (Hc & Hle & _). split; [exact Hc|]. apply Hle. reflexivity.
  - destruct (client_reach demo_ops None MakeNetwork demo_client "f" "b" _ _ demo_client_run eq_refl)
      as (Hc & _ & Heq). split; [exact Hc|]. apply Heq. cbn. split; [exact I|]. split; [exact I|].
    split; [|exact I]. discriminate.
Defined.
