(* ===== verification/Config.v ===== *)
(** * The configuration of a test

    [src/src/tester1/config.go]: a network, its clients and groups of servers,
    and what a test reports when it ends. *)
From S2P Require Import Prelude Strs Persister LabRpc Daemon Group Clnts.

Section Config.
Context `{!Program D}.
Abbreviation CWorld := (World string (Process (D := D))).

(** [ops] is an [int32] that is changed atomically. *)
Record Config := MkConfig0 {
  cf_clnts : Clnts;
  cf_groups : Groups;
  cf_world : CWorld;
  rpcs0 : Z;
  ops : Z;
}.

Definition set_groups (gs : Groups) (w : CWorld) (cfg : Config) : Config :=
  MkConfig0 (cf_clnts cfg) gs w (rpcs0 cfg) (ops cfg).
Definition on_network (f : Network string → Network string) (cfg : Config) : Config :=
  set_groups (cf_groups cfg) (set_net (f (net (cf_world cfg))) (cf_world cfg)) cfg.

Definition SetReliable (reliable : bool) : Config → Config := on_network (Reliable reliable).
Definition cfg_IsReliable (cfg : Config) : bool := IsReliable (net (cf_world cfg)).
Definition SetLongReordering (longrel : bool) : Config → Config := on_network (LongReordering longrel).
Definition SetLongDelays (longdel : bool) : Config → Config := on_network (LongDelays longdel).

Definition cfg_Group (gid : Z) (cfg : Config) : option ServerGrp := lookupGroup gid (cf_groups cfg).

(** What the servers of a new group draw, and how their processes start. *)
Record Draws := MkDraws {
  dr_make : nat → nat → string;
  dr_start : Z → nat → string;
  dr_ok : Z → bool;
  dr_addr : Z → nat;
}.

Definition MakeGroupStart (dr : Draws) (gid nsrv : Z) (cfg : Config) : option Config :=
  '(gs, w) ← MakeGroup (dr_make dr) gid nsrv (cf_groups cfg) (cf_world cfg);
  '(gs, w) ← with_group gid (StartServers (dr_start dr) (dr_ok dr) (dr_addr dr)) (gs, w);
  Some (set_groups gs w cfg).

Definition ExitGroup (gid : Z) (cfg : Config) : option Config :=
  '(gs, w) ← with_group gid Shutdown (cf_groups cfg, cf_world cfg);
  Some (set_groups (delete_group gid gs) w cfg).

Definition GRP0 : Z := 0.

Definition MakeConfig (dr : Draws) (n : Z) (reliable : bool) : option Config :=
  cfg ← MakeGroupStart dr GRP0 n (MkConfig0 makeClnts newGroups (init_world MakeNetwork ∅) 0 0);
  Some (SetReliable reliable (MkConfig0 makeClnts (cf_groups cfg) (cf_world cfg) 0 0)).

(** [orders] and [gids] are the orders in which the maps are visited. *)
Definition cfg_Cleanup (cs : list nat) (orders : nat → list (string * string)) (gids : list Z)
    (cfg : Config) : option Config :=
  '(clnts, rn) ← clnts_cleanup cs orders (cf_clnts cfg, net (cf_world cfg));
  '(gs, w) ← groups_cleanup gids (cf_groups cfg, set_net rn (cf_world cfg));
  Some (MkConfig0 clnts gs (LabRpc.Cleanup w) (rpcs0 cfg) (ops cfg)).

(** ** Statistics *)

Definition RpcTotal (cfg : Config) : Z := GetTotalCount (net (cf_world cfg)).
Definition BytesTotal (cfg : Config) : Z := GetTotalBytes (net (cf_world cfg)).

Definition Begin (cfg : Config) : Config :=
  MkConfig0 (cf_clnts cfg) (cf_groups cfg) (cf_world cfg) (RpcTotal cfg) 0.
Definition OpInc (cfg : Config) : Config :=
  MkConfig0 (cf_clnts cfg) (cf_groups cfg) (cf_world cfg) (rpcs0 cfg) (i32 (ops cfg + 1)).

(** What [End] prints of a test that passed: peers, calls and operations. *)
Definition End (cfg : Config) : option (Z * Z * Z) :=
  sg ← cfg_Group GRP0 cfg; Some (N sg, RpcTotal cfg - rpcs0 cfg, ops cfg).

Lemma i32_small z : - 2 ^ 31 <= z < 2 ^ 31 → i32 z = z.
Proof. intros. unfold i32. rewrite Z.mod_small; lia. Qed.

(** The requests the network takes. *)
Definition is_take (e : Event string (Process (D := D))) : bool :=
  match e with EvTake _ _ => true | _ => false end.
Definition takes (es : list (Event string (Process (D := D)))) : Z :=
  len (filter (λ e, is_take e = true) es).

Lemma happen_count e (w w' : CWorld) :
  happen e w = Some w' → n_count (net w') = if is_take e then i32 (n_count (net w) + 1) else n_count (net w).
Proof.
  intros H. destruct e; cbn [happen is_take] in *.
  - apply bind_Some in H as (rn & Ho & [= <-]). cbn.
    destruct o; cbn in Ho; try (by injection Ho as <-).
    + unfold MakeEnd in Ho. case_decide; [done|]. by injection Ho as <-.
    + unfold DeleteEnd in Ho. case_decide; [|done]. by injection Ho as <-.
  - by injection H as <-.
  - unfold take_req in H. case_decide; [|done]. by injection H as <-.
  - unfold start_req in H. apply bind_Some in H as (r & _ & H).
    destruct (waits w !! id) as [[]|]; try done. destruct (ei_enabled _); [|by injection H as <-].
    destruct (ei_server _) as [[s a]|]; [|by injection H as <-]. case_decide; by injection H as <-.
  - unfold run_job in H.
    by apply bind_Some in H as (req & _ & (a & _ & (rs & _ & ([rs' r] & _ & [= <-])%bind_Some)%bind_Some)%bind_Some).
  - unfold poll_dead in H. apply bind_Some in H as (r & _ & H).
    destruct (waits w !! id) as [[]|]; try done. destruct (isServerDead _ _ _ _); by injection H as <-.
  - unfold finish_req in H. apply bind_Some in H as (r & _ & (q & _ & H)%bind_Some).
    destruct (waits w !! id) as [[]|]; try done.
    destruct (isServerDead _ _ _ _); [by injection H as <-|]. repeat case_decide; by injection H as <-.
  - unfold fire_timer in H. destruct (waits w !! id) as [[]|]; try done; by injection H as <-.
  - by injection H as <-.
  - unfold stop_listening in H. destruct (done w); [|done]. by injection H as <-.
Qed.

Lemma takes_cons e es : takes (e :: es) = (if is_take e then 1 else 0) + takes es.
Proof.
  unfold takes. rewrite filter_cons.
  destruct (decide (is_take e = true)) as [->|He%not_true_is_false]; [rewrite len_cons; lia|].
  rewrite He. lia.
Qed.

Lemma takes_nonneg es : 0 <= takes es.
Proof. apply len_nonneg. Qed.

(** A test reports the calls it made.  Whatever happens in the network
    between [Begin] and [End], the number of RPCs [End] prints is the number of
    requests the network took, as long as the [int32] that counts them does not
    wrap. *)
Theorem End_counts_calls cfg es w' :
  0 <= RpcTotal cfg → RpcTotal cfg + takes es < 2 ^ 31 →
  happens es (cf_world (Begin cfg)) = Some w' →
  End (set_groups (cf_groups cfg) w' (Begin cfg)) =
    (λ sg, (N sg, takes es, 0)) <$> cfg_Group GRP0 cfg.
Proof.
  intros H0 Hb Hes. assert (n_count (net w') = RpcTotal cfg + takes es) as Hn.
  { unfold RpcTotal, GetTotalCount in *. cbn [cf_world Begin] in Hes.
    revert Hes H0 Hb. generalize (cf_world cfg) as w. induction es as [|e es IH]; intros w; cbn [happens].
    - intros [= ->] _ _. unfold takes, len. cbn. lia.
    - intros (w1 & He & Hes)%bind_Some H0 Hb. pose proof (happen_count e w w1 He) as Hc.
      pose proof (takes_nonneg es). rewrite takes_cons in Hb |- *.
      destruct (is_take e); [rewrite i32_small in Hc by lia|]; rewrite (IH w1 Hes); lia. }
  unfold End. change (cfg_Group GRP0 (set_groups _ _ _)) with (cfg_Group GRP0 cfg).
  destruct (cfg_Group GRP0 cfg) as [sg|]; [|reflexivity]. cbn.
  unfold RpcTotal, GetTotalCount in *. cbn. rewrite Hn. do 3 f_equal. lia.
Qed.
End Config.

(** ** [random_handles]

    [draws] are the values of [rand.Intn(i+1)] for [i] = 0, 1, ...; [sa] is the
    copy that is shuffled. *)
Definition swap {A} (i j : nat) (sa : list A) : option (list A) :=
  x ← sa !! i; y ← sa !! j; Some (<[j := x]> (<[i := y]> sa)).

Fixpoint shuffle_from {A} (i : nat) (draws : list nat) (sa : list A) : option (list A) :=
  match draws with
  | [] => Some sa
  | j :: draws => sa ← swap i j sa; shuffle_from (S i) draws sa
  end.

Definition random_handles {A} (draws : list nat) (kvh : list A) : option (list A) :=
  shuffle_from 0 draws kvh.

Lemma swap_perm {A} i j (sa : list A) :
  (i < length sa)%nat → (j < length sa)%nat → ∃ sa', swap i j sa = Some sa' ∧ sa' ≡ₚ sa.
Proof.
  intros [x Hx]%lookup_lt_is_Some [y Hy]%lookup_lt_is_Some. unfold swap. rewrite Hx, Hy. cbn.
  eexists. split; [done|]. by apply Permutation_insert_swap.
Qed.

(** Whatever is drawn, the result is a permutation, and nothing is out of range. *)
Theorem random_handles_perm {A} (draws : list nat) (kvh : list A) :
  length draws = length kvh → (∀ i j, draws !! i = Some j → (j <= i)%nat) →
  ∃ sa, random_handles draws kvh = Some sa ∧ sa ≡ₚ kvh.
Proof.
  intros Hl Hd. unfold random_handles.
  assert (∀ ds i (sa : list A), (i + length ds)%nat = length sa →
    (∀ k j, ds !! k = Some j → (j <= i + k)%nat) →
    ∃ sa', shuffle_from i ds sa = Some sa' ∧ sa' ≡ₚ sa) as H.
  { induction ds as [|j ds IH]; intros i sa Hlen Hj; cbn [shuffle_from]; [by eexists|].
    cbn in Hlen. pose proof (Hj 0%nat j eq_refl).
    destruct (swap_perm i j sa) as (sa1 & -> & Hp); [lia..|]. cbn.
    destruct (IH (S i) sa1) as (sa2 & -> & Hp2).
    - rewrite (Permutation_length Hp). lia.
    - intros k j' Hk. pose proof (Hj (S k) j' Hk). lia.
    - exists sa2. split; [done|]. by rewrite Hp2. }
  by apply H.
Qed.
