(* ===== verification/Labgob.v ===== *)
(** * The encoder wrapper

    [src/src/labgob/labgob.go]: the wrapper around encoding/gob that warns about
    lower-case field names ([checkType], over the graph of Go types) and about
    decoding into a variable that is not default ([checkDefault], over the
    graph of a value).  Types and the targets of pointers are found through
    functions of the section, since both graphs may have cycles; reflect's
    read-only flag of unexported fields is part of the model, because
    [Interface] panics on it.  Gob itself is a library, a parameter. *)
From S2P Require Import Prelude Strs.

(** ** Types *)

Definition Tid := positive.

(** A field of a struct type: its name, its type, whether it is embedded. *)
Record Field := MkField { f_Name : string; f_Type : Tid; f_Embedded : bool }.

Inductive Kind :=
| Struct (fields : list Field)
| Slice (elem : Tid)
| Array (elem : Tid)
| Ptr (elem : Tid)
| Map (key elem : Tid)
| Other.

Record TypeDesc := MkType { t_Name : string; t_Kind : Kind }.

(** The two warnings. *)
Inductive Warning :=
| LowerCase (field type : string)
| NonDefault (what : string).

(** The globals.  The nil map of [checked] reads like an empty one. *)
Record LabgobState := MkLabgob {
  checked : gset Tid;
  errorCount : Z;
  printed : list Warning;
}.

Definition no_checks : LabgobState := MkLabgob ∅ 0 [].

Inductive Outcome (A : Type) :=
| Done (a : A)
| Panics
| OutOfFuel.
Arguments Done {A}.
Arguments Panics {A}.
Arguments OutOfFuel {A}.

Definition outcome_bind {A B} (f : A → Outcome B) (o : Outcome A) : Outcome B :=
  match o with Done a => f a | Panics => Panics | OutOfFuel => OutOfFuel end.

Notation "x ⇐ o ; k" := (outcome_bind (λ x, k) o)
  (at level 20, o at level 100, k at level 200, right associativity).

Section Labgob.
Context (typ : Tid → TypeDesc).

(** [unicode.IsUpper] below 128; [uppers] stands for the tables beyond. *)
Context (uppers : Z → bool).

Definition IsUpper (r : Z) : bool :=
  if decide (r < 128) then bool_decide (65 <= r <= 90) else uppers r.

Definition capital (name : string) : bool := IsUpper (DecodeRune (bytes_of name)).1.

(** ** checkType *)

Definition mark (t : Tid) (s : LabgobState) : LabgobState :=
  MkLabgob ({[t]} ∪ checked s) (errorCount s) (printed s).

Definition print (w : Warning) (s : LabgobState) : LabgobState :=
  MkLabgob (checked s) (errorCount s) (printed s ++ [w]).

Definition count_error (s : LabgobState) : LabgobState :=
  MkLabgob (checked s) (errorCount s + 1) (printed s).

Definition check_field (tname : string) (f : Field) (s : LabgobState) : LabgobState :=
  if capital (f_Name f) then s else count_error (print (LowerCase (f_Name f) tname) s).

(** The loop over the fields of a struct, [rec] being [checkType]. *)
Fixpoint check_fields (rec : Tid → LabgobState → Outcome LabgobState) (tname : string)
    (fields : list Field) (s : LabgobState) : Outcome LabgobState :=
  match fields with
  | [] => Done s
  | f :: fields =>
      s ⇐ rec (f_Type f) (check_field tname f s); check_fields rec tname fields s
  end.

Fixpoint checkType (fuel : nat) (t : Tid) (s : LabgobState) : Outcome LabgobState :=
  match fuel with
  | O => OutOfFuel
  | S fuel =>
      if decide (t ∈ checked s) then Done s
      else
        let s := mark t s in
        match t_Kind (typ t) with
        | Struct fields => check_fields (checkType fuel) (t_Name (typ t)) fields s
        | Slice elem | Array elem | Ptr elem => checkType fuel elem s
        | Map key elem => s ⇐ checkType fuel elem s; checkType fuel key s
        | Other => Done s
        end
  end.

(** [reflect.TypeOf(nil)] is a nil interface, whose [Kind] panics. *)
Definition checkValue (fuel : nat) (t : option Tid) (s : LabgobState) : Outcome LabgobState :=
  match t with
  | Some t => checkType fuel t s
  | None => Panics
  end.

(** ** checkDefault *)

(** The kinds [checkDefault1] compares with their zero; a float is its bits. *)
Inductive Basic :=
| BBool (b : bool)
| BInt (z : Z)
| BUint (n : Z)
| BFloat32 (bits : Z)
| BFloat64 (bits : Z)
| BString (s : string).

Definition is_zero (b : Basic) : bool :=
  match b with
  | BBool b => negb b
  | BInt z | BUint z => bool_decide (z = 0)
  | BFloat32 bits => bool_decide (bits = 0 ∨ bits = 2 ^ 31)
  | BFloat64 bits => bool_decide (bits = 0 ∨ bits = 2 ^ 63)
  | BString s => bool_decide (s = "")
  end.

(** A value; the fields of a struct are paired with their values. *)
Inductive GoVal :=
| VStruct (fields : list (Field * GoVal))
| VPtr (target : option positive)
| VBasic (tname : string) (b : Basic)
| VOther.

(** The value a pointer leads to. *)
Context (deref : positive → GoVal).

(** reflect's flags of a value reached through unexported fields: [flagStickyRO]
    and [flagEmbedRO]. *)
Record Flags := MkFlags { flagStickyRO : bool; flagEmbedRO : bool }.

Definition flagRO (fl : Flags) : bool := flagStickyRO fl || flagEmbedRO fl.

Definition field_flags (fl : Flags) (f : Field) : Flags :=
  if capital (f_Name f) then MkFlags (flagStickyRO fl) false
  else if f_Embedded f then MkFlags (flagStickyRO fl) true
  else MkFlags true false.

Definition sub_name (name field : string) : string :=
  if decide (name = "") then field else name +:+ "." +:+ field.

Definition warn_default (what : string) (s : LabgobState) : LabgobState :=
  count_error (if decide (errorCount s < 1) then print (NonDefault what) s else s).

(** [value.Interface()] panics before the lock is taken. *)
Definition check_basic (fl : Flags) (tname : string) (b : Basic) (name : string) (s : LabgobState)
    : Outcome LabgobState :=
  if flagRO fl then Panics
  else if is_zero b then Done s
  else Done (warn_default (if decide (name = "") then tname else name) s).

Fixpoint default_fields (rec : GoVal → Flags → string → LabgobState → Outcome LabgobState)
    (fl : Flags) (name : string) (fields : list (Field * GoVal)) (s : LabgobState)
    : Outcome LabgobState :=
  match fields with
  | [] => Done s
  | (f, vv) :: fields =>
      s ⇐ rec vv (field_flags fl f) (sub_name name (f_Name f)) s;
      default_fields rec fl name fields s
  end.

Fixpoint checkDefault1 (fuel : nat) (value : GoVal) (fl : Flags) (depth : Z) (name : string)
    (s : LabgobState) : Outcome LabgobState :=
  match fuel with
  | O => OutOfFuel
  | S fuel =>
      if decide (depth > 3) then Done s
      else
        match value with
        | VStruct fields =>
            default_fields (λ vv fl name s, checkDefault1 fuel vv fl (depth + 1) name s)
              fl name fields s
        | VPtr None => Done s
        | VPtr (Some a) => checkDefault1 fuel (deref a) fl (depth + 1) name s
        | VBasic tname b => check_basic fl tname b name s
        | VOther => Done s
        end
  end.

(** Four calls deep is as far as it goes. *)
Definition checkDefault (value : option GoVal) (s : LabgobState) : Outcome LabgobState :=
  match value with
  | None => Done s
  | Some v => checkDefault1 4 v (MkFlags false false) 1 "" s
  end.

(** ** The wrapped coders

    [iface] is what an [interface{}] holds: nothing, or a type and a value. *)
Definition iface : Type := option (Tid * GoVal).

Section Coders.
Context {Enc Dec Err : Type}.
Context (gob_Encode : Enc → iface → Enc * option Err).
Context (gob_EncodeValue : Enc → iface → Enc * option Err).
Context (gob_Decode : Dec → iface → Dec * option Err).
Context {Names : Type} (gob_Register : iface → Names → Names)
  (gob_RegisterName : string → iface → Names → Names).

Record LabEncoder := MkLabEncoder { enc_gob : Enc }.
Record LabDecoder := MkLabDecoder { dec_gob : Dec }.

Definition NewEncoder {Writer : Type} (gob_NewEncoder : Writer → Enc) (w : Writer) : LabEncoder :=
  MkLabEncoder (gob_NewEncoder w).
Definition NewDecoder {Reader : Type} (gob_NewDecoder : Reader → Dec) (r : Reader) : LabDecoder :=
  MkLabDecoder (gob_NewDecoder r).

Definition Encode (fuel : nat) (enc : LabEncoder) (e : iface) (s : LabgobState)
    : Outcome (LabgobState * LabEncoder * option Err) :=
  s ⇐ checkValue fuel (fst <$> e) s;
  let '(g, err) := gob_Encode (enc_gob enc) e in Done (s, MkLabEncoder g, err).

(** The value of a [reflect.Value] with flags [fl]. *)
Definition EncodeValue (fuel : nat) (enc : LabEncoder) (fl : Flags) (value : iface) (s : LabgobState)
    : Outcome (LabgobState * LabEncoder * option Err) :=
  if flagRO fl then Panics
  else
    s ⇐ checkValue fuel (fst <$> value) s;
    let '(g, err) := gob_EncodeValue (enc_gob enc) value in Done (s, MkLabEncoder g, err).

Definition Decode (fuel : nat) (dec : LabDecoder) (e : iface) (s : LabgobState)
    : Outcome (LabgobState * LabDecoder * option Err) :=
  s ⇐ checkValue fuel (fst <$> e) s;
  s ⇐ checkDefault (snd <$> e) s;
  let '(g, err) := gob_Decode (dec_gob dec) e in Done (s, MkLabDecoder g, err).

Definition Register (fuel : nat) (value : iface) (s : LabgobState) (names : Names)
    : Outcome (LabgobState * Names) :=
  s ⇐ checkValue fuel (fst <$> value) s; Done (s, gob_Register value names).

Definition RegisterName (fuel : nat) (name : string) (value : iface) (s : LabgobState) (names : Names)
    : Outcome (LabgobState * Names) :=
  s ⇐ checkValue fuel (fst <$> value) s; Done (s, gob_RegisterName name value names).
End Coders.
End Labgob.

(** ** Decoding into variables that are not default

    [checkDefault] visits the basic values no more than three levels down, which
    also ends the walk through a cyclic value; it counts those that are not
    zero, prints one warning at most, and panics on one that is only reachable
    through an unexported field. *)

(** A basic value it comes to: whether reflect lets it be read, what a warning
    calls it, and its value. *)
Record Leaf := MkLeaf { l_readable : bool; l_what : string; l_value : Basic }.

Section Default.
Context (uppers : Z → bool) (deref : positive → GoVal).
Notation checkDefault1 := (checkDefault1 uppers deref).
Notation checkDefault := (checkDefault uppers deref).

(** The basic values [n] levels down at most. *)
Fixpoint leaves (n : nat) (value : GoVal) (fl : Flags) (name : string) : list Leaf :=
  match n, value with
  | O, _ | S _, VPtr None | S _, VOther => []
  | S n, VStruct fields =>
      fields ≫= λ p, leaves n p.2 (field_flags uppers fl p.1) (sub_name name (f_Name p.1))
  | S n, VPtr (Some a) => leaves n (deref a) fl name
  | S n, VBasic tname b =>
      [MkLeaf (negb (flagRO fl)) (if decide (name = "") then tname else name) b]
  end.

Definition check_leaf (l : Leaf) (s : LabgobState) : Outcome LabgobState :=
  if l_readable l then Done (if is_zero (l_value l) then s else warn_default (l_what l) s)
  else Panics.

Fixpoint check_leaves (ls : list Leaf) (s : LabgobState) : Outcome LabgobState :=
  match ls with
  | [] => Done s
  | l :: ls => s ⇐ check_leaf l s; check_leaves ls s
  end.

Lemma check_leaves_app ls ks s :
  check_leaves (ls ++ ks) s = s ⇐ check_leaves ls s; check_leaves ks s.
Proof.
  revert s. induction ls as [|l ls IH]; intros s; cbn; [done|].
  destruct (check_leaf l s); cbn; [apply IH|done..].
Qed.

Lemma checkDefault1_S fuel value fl depth name s :
  checkDefault1 (S fuel) value fl depth name s =
    if decide (depth > 3) then Done s
    else
      match value with
      | VStruct fields =>
          default_fields uppers (λ vv fl name s, checkDefault1 fuel vv fl (depth + 1) name s)
            fl name fields s
      | VPtr None => Done s
      | VPtr (Some a) => checkDefault1 fuel (deref a) fl (depth + 1) name s
      | VBasic tname b => check_basic fl tname b name s
      | VOther => Done s
      end.
Proof. done. Qed.

Lemma checkDefault1_leaves n value fl depth name s :
  Z.of_nat n = 4 - depth → checkDefault1 (S n) value fl depth name s = check_leaves (leaves n value fl name) s.
Proof.
  revert value fl depth name s. induction n as [|n IH]; intros value fl depth name s Hd.
  { cbn. by rewrite decide_True by lia. }
  rewrite checkDefault1_S, decide_False by lia.
  destruct value as [fields|[a|]|tname b|]; cbn [leaves]; [| |done| |done].
  - revert s. induction fields as [|[f vv] fields IHf]; intros s; [done|].
    cbn [default_fields mbind list_bind]. rewrite check_leaves_app. cbn [fst snd].
    rewrite (IH vv) by lia. destruct (check_leaves _ s) as [s'| |]; cbn; [apply IHf|done..].
  - apply IH. lia.
  - cbn. unfold check_leaf, check_basic. cbn. destruct (flagRO fl); [done|]. cbn. by destruct (is_zero b).
Qed.

(** What the checks of a list of values leave. *)
Definition not_default (ls : list Leaf) : list Leaf := filter (λ l, is_zero (l_value l) = false) ls.

Lemma check_leaves_spec ls s :
  0 <= errorCount s →
  check_leaves ls s =
    if bool_decide (Forall (λ l, l_readable l = true) ls) then
      Done (MkLabgob (checked s) (errorCount s + len (not_default ls))
        (printed s ++
           if decide (errorCount s < 1) then NonDefault ∘ l_what <$> take 1 (not_default ls) else []))
    else Panics.
Proof.
  revert s. induction ls as [|l ls IH]; intros s Hs; cbn [check_leaves].
  { rewrite bool_decide_eq_true_2 by done. destruct s. cbn. rewrite Z.add_0_r.
    by destruct (decide _); rewrite app_nil_r. }
  unfold check_leaf. destruct (l_readable l) eqn:Hl; cycle 1.
  { cbn. rewrite bool_decide_eq_false_2; [done|]. intros [? _]%list.Forall_cons. congruence. }
  cbn [outcome_bind].
  rewrite (bool_decide_ext (Forall _ (l :: ls)) (Forall (λ l, l_readable l = true) ls))
    by (rewrite list.Forall_cons; naive_solver).
  unfold not_default. rewrite list.filter_cons. destruct (is_zero (l_value l)) eqn:Hz; [by apply IH|].
  rewrite decide_True by done. unfold warn_default.
  rewrite IH by (cbn; destruct (decide _); cbn; lia).
  destruct (bool_decide _); [|done]. f_equal. rewrite len_cons. cbn [take list_fmap fmap].
  destruct (decide (errorCount s < 1)) as [He|He]; cbn [count_error print checked errorCount printed];
    (rewrite decide_False by lia); rewrite ?app_nil_r; unfold not_default; f_equal; lia.
Qed.

(** What [checkDefault] does, by the basic values within three levels: a value
    behind an unexported field makes it panic; otherwise it counts those that are
    not zero, and warns of the first if nothing was wrong before. *)
Theorem checkDefault_spec v s :
  0 <= errorCount s →
  let ls := leaves 3 v (MkFlags false false) "" in
  checkDefault (Some v) s =
    if bool_decide (Forall (λ l, l_readable l = true) ls) then
      Done (MkLabgob (checked s) (errorCount s + len (not_default ls))
        (printed s ++
           if decide (errorCount s < 1) then NonDefault ∘ l_what <$> take 1 (not_default ls) else []))
    else Panics.
Proof.
  intros Hs ls. cbn [Labgob.checkDefault].
  rewrite (checkDefault1_leaves 3 v _ 1) by done. by apply check_leaves_spec.
Qed.
End Default.

(** A variable of a list type that leads back to itself, and one of a type with
    a lower-case field. *)
Definition demo_deref (a : positive) : GoVal :=
  VStruct [(MkField "Next" 7%positive false, VPtr (Some a)); (MkField "Val" 5%positive false, VBasic "int" (BInt 3))].

Example cyclic_value :
  checkDefault (λ _, false) demo_deref (Some (VPtr (Some 1%positive))) no_checks =
    Done (MkLabgob ∅ 1 [NonDefault "Val"]).
Proof. reflexivity. Qed.

Example lower_case_panics :
  checkDefault (λ _, false) demo_deref
    (Some (VStruct [(MkField "Yes" 5%positive false, VBasic "int" (BInt 0));
                    (MkField "no" 5%positive false, VBasic "int" (BInt 0))])) no_checks = Panics.
Proof. reflexivity. Qed.
