(* ===== verification/LabgobRun.v ===== *)
(** * Checks of many goroutines

    [checkType] as the goroutines of a process run it: between two locked regions
    of one goroutine the others go on.  A goroutine is the stack of what it has
    still to do.  Theorems: however they interleave, the goroutines finish, and
    then every type any of them reaches is checked and each lower-case field has
    been complained about exactly once; alone, [checkType] is such a run. *)
From S2P Require Import Prelude Strs Labgob.

(** ** The goroutines *)

(** A call of [checkType]; a field of a struct whose name is still to be looked
    at; one that has been complained about and not counted yet. *)
Inductive Work :=
| WType (t : Tid)
| WField (tname : string) (f : Field)
| WCount (tname : string) (f : Field).

Record Checks := MkChecks {
  stacks : list (list Work);
  lab : LabgobState;
  asked : list Tid;
}.

#[local] Arguments Labgob.capital : simpl never.

Section Run.
Context (typ : Tid → TypeDesc) (uppers : Z → bool).
Notation capital := (capital uppers).

(** The loops and calls of the body of [checkType]. *)
Definition body (t : Tid) : list Work :=
  match t_Kind (typ t) with
  | Struct fields => WField (t_Name (typ t)) <$> fields
  | Slice elem | Array elem | Ptr elem => [WType elem]
  | Map key elem => [WType elem; WType key]
  | Other => []
  end.

(** What one goroutine does next. *)
Definition work_step (w : Work) (s : LabgobState) : list Work * LabgobState :=
  match w with
  | WType t => if decide (t ∈ checked s) then ([], s) else (body t, mark t s)
  | WField tname f =>
      if capital (f_Name f) then ([WType (f_Type f)], s)
      else ([WCount tname f], print (LowerCase (f_Name f) tname) s)
  | WCount tname f => ([WType (f_Type f)], count_error s)
  end.

Inductive checks_step : Checks → Checks → Prop :=
| CsCall t g : checks_step g (MkChecks (stacks g ++ [[WType t]]) (lab g) (asked g ++ [t]))
| CsWork i w k g :
    stacks g !! i = Some (w :: k) →
    checks_step g
      (MkChecks (<[i := (work_step w (lab g)).1 ++ k]> (stacks g)) (work_step w (lab g)).2 (asked g)).

Definition checks_init : Checks := MkChecks [] no_checks [].

(** The types of the parts of a type, and the fields to complain about. *)
Definition parts (t : Tid) : list Tid :=
  match t_Kind (typ t) with
  | Struct fields => f_Type <$> fields
  | Slice elem | Array elem | Ptr elem => [elem]
  | Map key elem => [elem; key]
  | Other => []
  end.

Definition complaint (tname : string) (f : Field) : list Warning :=
  if capital (f_Name f) then [] else [LowerCase (f_Name f) tname].

Definition complaints (t : Tid) : list Warning :=
  match t_Kind (typ t) with
  | Struct fields => fields ≫= complaint (t_Name (typ t))
  | _ => []
  end.

Definition all_complaints (types : gset Tid) : list Warning := elements types ≫= complaints.

Definition part_of (t u : Tid) : Prop := u ∈ parts t.
Definition reaches : Tid → Tid → Prop := rtc part_of.

Definition finished (g : Checks) : Prop := Forall (λ k, k = []) (stacks g).

(** What a piece of work still has to check, print and count. *)
Definition work_type (w : Work) : Tid :=
  match w with WType t => t | WField _ f | WCount _ f => f_Type f end.

Definition work_print (w : Work) : list Warning :=
  match w with WField tname f => complaint tname f | _ => [] end.

Definition work_count (w : Work) : Z :=
  match w with WCount _ _ => 1 | _ => 0 end.

Fixpoint count_works (l : list Work) : Z :=
  match l with [] => 0 | w :: l => work_count w + count_works l end.

(** ** What every interleaving keeps

    [l] is what all the goroutines have still to do. *)
Record works_ok (asked : list Tid) (s : LabgobState) (l : list Work) : Prop := {
  ok_parts t u : t ∈ checked s → u ∈ parts t → u ∈ checked s ∨ u ∈ work_type <$> l;
  ok_asked t : t ∈ asked → t ∈ checked s ∨ t ∈ work_type <$> l;
  ok_reached u : u ∈ checked s ∨ u ∈ work_type <$> l → ∃ t, t ∈ asked ∧ reaches t u;
  ok_printed : printed s ++ (l ≫= work_print) ≡ₚ all_complaints (checked s);
  ok_counted : errorCount s + count_works l = len (printed s);
}.

Definition checks_ok (g : Checks) : Prop := works_ok (asked g) (lab g) (concat (stacks g)).

#[local] Instance bind_print_proper : Proper ((≡ₚ) ==> (≡ₚ)) (λ l, l ≫= work_print).
Proof. intros l k Hlk. by rewrite Hlk. Qed.

Lemma count_works_app l k : count_works (l ++ k) = count_works l + count_works k.
Proof. induction l as [|w l IH]; cbn; [done|rewrite IH; lia]. Qed.

#[local] Instance count_works_proper : Proper ((≡ₚ) ==> (=)) count_works.
Proof. induction 1; cbn; lia. Qed.

#[local] Instance works_ok_proper : Proper ((=) ==> (=) ==> (≡ₚ) ==> impl) works_ok.
Proof.
  intros asked ? <- s ? <- l k Hlk [Hp Ha Hr Hpr Hc].
  split; intros *; rewrite <-?Hlk; eauto.
Qed.

Lemma work_type_body t : work_type <$> body t = parts t.
Proof.
  unfold body, parts. destruct (t_Kind (typ t)) as [fields|?|?|?|? ?|]; try done.
  rewrite <-list_fmap_compose. done.
Qed.

Lemma work_print_body t : body t ≫= work_print = complaints t.
Proof.
  unfold body, complaints. destruct (t_Kind (typ t)) as [fields|?|?|?|? ?|]; try done.
  induction fields as [|f fields IH]; [done|]. cbn. by rewrite <-IH.
Qed.

Lemma count_works_body t : count_works (body t) = 0.
Proof.
  unfold body. destruct (t_Kind (typ t)) as [fields|?|?|?|? ?|]; try done.
  induction fields as [|f fields IH]; [done|]. done.
Qed.

Lemma all_complaints_mark t X :
  t ∉ X → all_complaints ({[t]} ∪ X) ≡ₚ complaints t ++ all_complaints X.
Proof. intros Ht. unfold all_complaints. by rewrite elements_union_singleton. Qed.

(** A type that has been seen needs no work. *)
Lemma works_checked asked s t l :
  t ∈ checked s → works_ok asked s (WType t :: l) → works_ok asked s l.
Proof.
  intros Ht [Hp Ha Hr Hpr Hc]. cbn in *. split; [| | |done|done].
  - intros t0 u H0 Hu. destruct (Hp t0 u H0 Hu) as [?|[->|?]%elem_of_cons]; auto.
  - intros t0 H0. destruct (Ha t0 H0) as [?|[->|?]%elem_of_cons]; auto.
  - intros u [Hu|Hu]; apply Hr; [by left|]. right. by right.
Qed.

Lemma works_mark asked s t l :
  t ∉ checked s → works_ok asked s (WType t :: l) → works_ok asked (mark t s) (body t ++ l).
Proof.
  intros Ht [Hp Ha Hr Hpr Hc]. cbn in *. split; cbn.
  - intros t0 u. rewrite elem_of_union, elem_of_singleton, fmap_app, elem_of_app, work_type_body.
    intros [->|H0] Hu; [auto|].
    rewrite elem_of_union, elem_of_singleton. destruct (Hp t0 u H0 Hu) as [?|[->|?]%elem_of_cons]; auto.
  - intros t0 H0. rewrite elem_of_union, elem_of_singleton, fmap_app, elem_of_app.
    destruct (Ha t0 H0) as [?|[->|?]%elem_of_cons]; auto.
  - intros u. rewrite elem_of_union, elem_of_singleton, fmap_app, elem_of_app, work_type_body.
    intros [[->|Hu]|[Hu|Hu]].
    + apply Hr. right. by left.
    + apply Hr. by left.
    + destruct (Hr t) as (t0 & H0 & Hre); [right; by left|]. exists t0. split; [done|].
      by eapply rtc_r.
    + apply Hr. right. by right.
  - rewrite bind_app, work_print_body, all_complaints_mark by done. rewrite <-Hpr.
    solve_Permutation.
  - rewrite count_works_app, count_works_body. lia.
Qed.

(** A piece of work is replaced by one for the same type. *)
Lemma works_same asked s s' w w' l :
  checked s' = checked s → work_type w' = work_type w →
  printed s' ++ work_print w' ≡ₚ printed s ++ work_print w →
  errorCount s' + work_count w' - len (printed s') = errorCount s + work_count w - len (printed s) →
  works_ok asked s (w :: l) → works_ok asked s' (w' :: l).
Proof.
  intros Hch Hty Hpr' Hc' [Hp Ha Hr Hpr Hc]. cbn in *.
  split; cbn; rewrite ?Hch, ?Hty; [done|done|done| |lia].
  rewrite <-Hpr, !(assoc (++)). by rewrite Hpr'.
Qed.

Lemma works_step asked s w l :
  works_ok asked s (w :: l) → works_ok asked (work_step w s).2 ((work_step w s).1 ++ l).
Proof.
  intros Hok. destruct w as [t|tname f|tname f]; cbn.
  - destruct (decide (t ∈ checked s)); [by eapply works_checked|by apply works_mark].
  - destruct (capital (f_Name f)) eqn:Hcap; (eapply works_same; [..|exact Hok]; try done; cbn);
      unfold complaint; rewrite ?Hcap, ?app_nil_r; try done.
    rewrite len_app. unfold len. cbn. lia.
  - eapply works_same; [..|exact Hok]; try done. cbn. lia.
Qed.

Lemma works_call asked s t l : works_ok asked s l → works_ok (asked ++ [t]) s (WType t :: l).
Proof.
  intros [Hp Ha Hr Hpr Hc]. split; cbn; [| | |done|done].
  - intros t0 u H0 Hu. rewrite elem_of_cons. destruct (Hp t0 u H0 Hu); auto.
  - intros t0. rewrite elem_of_app, list_elem_of_singleton, elem_of_cons.
    intros [H0| ->]; [destruct (Ha t0 H0); auto|auto].
  - intros u. rewrite elem_of_cons. setoid_rewrite elem_of_app.
    intros Hu. assert (u = t ∨ u ∈ checked s ∨ u ∈ work_type <$> l) as [->|Hu2] by naive_solver.
    + exists t. split; [right; by left|apply rtc_refl].
    + destruct (Hr u Hu2) as (t0 & ? & ?). eauto.
Qed.

Lemma concat_insert {A} (ls : list (list A)) i k k' :
  ls !! i = Some k → ∃ rest, concat ls ≡ₚ k ++ rest ∧ concat (<[i:=k']> ls) ≡ₚ k' ++ rest.
Proof.
  revert i. induction ls as [|l ls IH]; intros [|i] Hi; try done.
  - injection Hi as ->. by exists (concat ls).
  - destruct (IH i Hi) as (rest & H1 & H2). exists (l ++ rest). cbn. rewrite H1, H2.
    split; solve_Permutation.
Qed.

Lemma checks_step_ok g g' : checks_step g g' → checks_ok g → checks_ok g'.
Proof.
  unfold checks_ok. intros [t g0|i w k g0 Hi] Hok; cbn.
  - rewrite concat_app. cbn. eapply works_ok_proper; [done|done| |by apply (works_call _ _ t)].
    solve_Permutation.
  - destruct (concat_insert _ i _ ((work_step w (lab g0)).1 ++ k) Hi) as (rest & H1 & H2).
    rewrite H1 in Hok. rewrite H2, <-app_assoc. by apply works_step.
Qed.

Lemma checks_init_ok : checks_ok checks_init.
Proof.
  split; cbn.
  - intros t u Ht. set_solver.
  - intros t Ht. by apply not_elem_of_nil in Ht.
  - intros u [Hu|Hu]; [set_solver|]. by apply not_elem_of_nil in Hu.
  - done.
  - done.
Qed.

Lemma checks_reachable_ok g : rtc checks_step checks_init g → checks_ok g.
Proof.
  intros Hg. pose proof checks_init_ok as Hok. induction Hg; [done|]. eauto using checks_step_ok.
Qed.

(** ** Every interleaving ends *)

(** A goroutine goes on, and no new call is made. *)
Definition checks_work (g g' : Checks) : Prop := checks_step g g' ∧ asked g' = asked g.

Definition work_weight (w : Work) : nat :=
  match w with WType _ => 1 | WCount _ _ => 2 | WField _ _ => 3 end.

Definition weight (l : list Work) : nat := sum_list_with work_weight l.

(** What is left to do over the types [U]: the stacks, and the bodies of the
    types not yet seen. *)
Definition measure (U : gset Tid) (g : Checks) : nat :=
  weight (concat (stacks g)) + sum_list_with (λ t, weight (body t)) (elements (U ∖ checked (lab g))).

(** [U] holds the types that are asked for and their parts. *)
Definition closed_types (U : gset Tid) : Prop := ∀ t u, t ∈ U → u ∈ parts t → u ∈ U.

Lemma closed_reaches U t u : closed_types U → t ∈ U → reaches t u → u ∈ U.
Proof. intros HU Ht Hr. induction Hr; eauto. Qed.

Lemma weight_app l k : weight (l ++ k) = (weight l + weight k)%nat.
Proof. apply sum_list_with_app. Qed.

#[local] Instance weight_proper : Proper ((≡ₚ) ==> (=)) weight.
Proof. unfold weight. induction 1; cbn; lia. Qed.

Lemma sum_unseen (f : Tid → nat) (U X : gset Tid) (t : Tid) :
  t ∈ U → t ∉ X →
  sum_list_with f (elements (U ∖ X)) = (f t + sum_list_with f (elements (U ∖ ({[t]} ∪ X))))%nat.
Proof.
  intros HtU HtX. replace (U ∖ X) with ({[t]} ∪ U ∖ ({[t]} ∪ X)).
  - rewrite elements_union_singleton by set_solver. done.
  - apply set_eq. intros u. destruct (decide (u = t)); set_solver.
Qed.

(** What one piece of work leaves of the measure. *)
Lemma work_step_measure U w s :
  (∀ t, w = WType t → t ∈ U) →
  (weight (work_step w s).1 +
     sum_list_with (λ t, weight (body t)) (elements (U ∖ checked (work_step w s).2)) <
   work_weight w + sum_list_with (λ t, weight (body t)) (elements (U ∖ checked s)))%nat.
Proof.
  intros HU. destruct w as [t|tname f|tname f]; cbn [work_step work_weight].
  - destruct (decide (t ∈ checked s)) as [Ht|Ht]; cbn [fst snd]; [change (weight []) with 0%nat; lia|].
    change (checked (mark t s)) with ({[t]} ∪ checked s).
    rewrite (sum_unseen _ U (checked s) t) by auto. lia.
  - destruct (capital (f_Name f)); unfold weight; cbn; lia.
  - unfold weight. cbn. lia.
Qed.

Lemma asked_in_U U g t :
  closed_types U → Forall (λ t, t ∈ U) (asked g) → checks_ok g →
  t ∈ work_type <$> concat (stacks g) → t ∈ U.
Proof.
  intros HU Hasked Hok Ht. destruct (ok_reached _ _ _ Hok t) as (t0 & H0 & Hr); [by right|].
  rewrite list.Forall_forall in Hasked. eapply closed_reaches; eauto.
Qed.

Lemma checks_work_measure U g g' :
  closed_types U → Forall (λ t, t ∈ U) (asked g) → checks_ok g → checks_work g g' →
  (measure U g' < measure U g)%nat.
Proof.
  intros HU Hasked Hok [Hstep Heq]. destruct Hstep as [t g|i w k g Hi]; cbn in *.
  { apply (f_equal length) in Heq. rewrite length_app in Heq. cbn in Heq. lia. }
  destruct (concat_insert _ i _ ((work_step w (lab g)).1 ++ k) Hi) as (rest & H1 & H2).
  unfold measure. cbn [stacks lab]. rewrite H1, H2. cbn [app]. rewrite !weight_app.
  change (weight (w :: k ++ rest)) with (work_weight w + weight (k ++ rest))%nat. rewrite weight_app.
  enough (∀ t, w = WType t → t ∈ U) as Hw by (pose proof (work_step_measure U w (lab g) Hw); lia).
  intros t ->. eapply asked_in_U; [done..|]. rewrite H1. by left.
Qed.

Lemma checks_work_bound U n g g' :
  closed_types U → Forall (λ t, t ∈ U) (asked g) → checks_ok g → nsteps checks_work n g g' →
  (n + measure U g' <= measure U g)%nat ∧ checks_ok g' ∧ asked g' = asked g.
Proof.
  intros HU Hasked Hok Hn. induction Hn as [g|n g g1 g' H1 Hn IH]; [done|].
  pose proof (checks_work_measure U g g1 HU Hasked Hok H1) as Hlt. destruct H1 as [Hs Heq].
  rewrite Heq in IH. destruct (IH Hasked (checks_step_ok _ _ Hs Hok)) as (Hle & Hok' & Hasked').
  split; [lia|done].
Qed.

Lemma checks_progress g : finished g ∨ ∃ g', checks_work g g'.
Proof.
  destruct (decide (Forall (λ k, k = []) (stacks g))) as [|Hne]; [by left|right].
  apply not_Forall_Exists in Hne; [|intros ?; apply _].
  apply list.Exists_exists in Hne as (k & [i Hi]%list_elem_of_lookup & Hk).
  destruct k as [|w k]; [by destruct Hk|]. eexists. split; [by eapply CsWork|done].
Qed.

Lemma finished_concat g : finished g → concat (stacks g) = [].
Proof. unfold finished. intros Hf. by apply concat_nil_Forall. Qed.

(** What is true between the calls. *)
Lemma finished_facts g :
  checks_ok g → finished g →
  (∀ u, u ∈ checked (lab g) ↔ ∃ t, t ∈ asked g ∧ reaches t u) ∧
  printed (lab g) ≡ₚ all_complaints (checked (lab g)) ∧
  errorCount (lab g) = len (printed (lab g)).
Proof.
  intros Hok Hf. unfold checks_ok in Hok. rewrite (finished_concat g Hf) in Hok.
  destruct Hok as [Hp Ha Hr Hpr Hc]. cbn in *. rewrite app_nil_r in Hpr.
  split; [|split; [done|lia]]. intros u. split; [auto|]. intros (t & Ht & Htu).
  destruct (Ha t Ht) as [Hc0|?%not_elem_of_nil]; [|done].
  clear Ht. induction Htu as [t|t t1 u H1 _ IH]; [done|]. apply IH.
  destruct (Hp t t1 Hc0 H1) as [?|?%not_elem_of_nil]; done.
Qed.

(** C36: Goroutines that check types over a finite graph of types, cyclic or not,
    always come to an end, however they interleave: after at most [measure]
    steps all are done, and until then one can go on.  Then exactly the types
    that some call reaches are checked, every lower-case field of them has been
    complained about exactly once, and [errorCount] is the number of complaints. *)
Theorem checks_complete U g :
  rtc checks_step checks_init g → closed_types U → Forall (λ t, t ∈ U) (asked g) →
  (∀ n g', nsteps checks_work n g g' → (n <= measure U g)%nat ∧
     (finished g' ∨ ∃ g2, checks_work g' g2) ∧
     (finished g' →
        (∀ u, u ∈ checked (lab g') ↔ ∃ t, t ∈ asked g ∧ reaches t u) ∧
        printed (lab g') ≡ₚ all_complaints (checked (lab g')) ∧
        errorCount (lab g') = len (printed (lab g')))).
Proof.
  intros Hg HU Hasked n g' Hn.
  destruct (checks_work_bound U n g g' HU Hasked (checks_reachable_ok g Hg) Hn) as (Hle & Hok & <-).
  split; [lia|]. split; [apply checks_progress|by apply finished_facts].
Qed.

(** ** One goroutine alone *)

Notation checkType := (checkType typ uppers).

(** A goroutine does the work [w] and all that comes of it. *)
Definition runs (w : Work) (s s' : LabgobState) : Prop :=
  ∀ g i k, stacks g !! i = Some (w :: k) → lab g = s →
    rtc checks_work g (MkChecks (<[i:=k]> (stacks g)) s' (asked g)).

Definition runs_all (l : list Work) (s s' : LabgobState) : Prop :=
  ∀ g i k, stacks g !! i = Some (l ++ k) → lab g = s →
    rtc checks_work g (MkChecks (<[i:=k]> (stacks g)) s' (asked g)).

Lemma runs_nil s : runs_all [] s s.
Proof.
  intros g i k Hi <-. destruct g as [ls s ask]. cbn in *. by rewrite list_insert_id.
Qed.

Lemma runs_cons w l s s1 s2 : runs w s s1 → runs_all l s1 s2 → runs_all (w :: l) s s2.
Proof.
  intros H1 H2 g i k Hi Hs. etransitivity; [by apply (H1 g i (l ++ k))|].
  specialize (H2 (MkChecks (<[i:=l ++ k]> (stacks g)) s1 (asked g)) i k). cbn in H2.
  rewrite list_insert_insert_eq in H2. apply H2; [|done].
  rewrite list_lookup_insert_eq; [done|by eapply lookup_lt_Some].
Qed.

(** The first step of a piece of work, and then what it leaves. *)
Lemma runs_step w s s' :
  runs_all (work_step w s).1 (work_step w s).2 s' → runs w s s'.
Proof.
  intros H g i k Hi <-. eapply rtc_l; [split; [by eapply CsWork|done]|].
  specialize (H (MkChecks (<[i:=(work_step w (lab g)).1 ++ k]> (stacks g))
    (work_step w (lab g)).2 (asked g)) i k). cbn in H.
  rewrite list_insert_insert_eq in H. apply H; [|done].
  rewrite list_lookup_insert_eq; [done|by eapply lookup_lt_Some].
Qed.

Lemma runs_one w s s' : runs w s s' → runs_all [w] s s'.
Proof. intros H. eapply runs_cons; [done|apply runs_nil]. Qed.

(** A field is looked at, counted if need be, and its type is checked. *)
Lemma runs_field tname f s s' :
  runs (WType (f_Type f)) (check_field uppers tname f s) s' → runs (WField tname f) s s'.
Proof.
  unfold check_field. intros H. apply runs_step. cbn.
  destruct (capital (f_Name f)); apply runs_one; [done|]. apply runs_step. by apply runs_one.
Qed.

Lemma outcome_bind_done {A B} (f : A → Outcome B) o b :
  outcome_bind f o = Done b → ∃ a, o = Done a ∧ f a = Done b.
Proof. destruct o as [a| |]; cbn; [|done|done]. eauto. Qed.

Lemma check_fields_runs rec tname fields s s' :
  (∀ t s s', rec t s = Done s' → runs (WType t) s s') →
  check_fields uppers rec tname fields s = Done s' → runs_all (WField tname <$> fields) s s'.
Proof.
  intros Hrec. revert s. induction fields as [|f fields IH]; intros s; cbn.
  - intros [= <-]. apply runs_nil.
  - intros (s1 & H1 & H2)%outcome_bind_done. eapply runs_cons; [|by apply IH].
    apply runs_field. by apply Hrec.
Qed.

(** [checkType] is what the goroutine does when no other runs. *)
Lemma checkType_runs fuel t s s' : checkType fuel t s = Done s' → runs (WType t) s s'.
Proof.
  revert t s s'. induction fuel as [|fuel IH]; intros t s s'; [done|].
  cbn [Labgob.checkType]. intros Hc. apply runs_step. cbn [work_step].
  destruct (decide (t ∈ checked s)).
  { injection Hc as <-. apply runs_nil. }
  cbn [fst snd]. unfold body. destruct (t_Kind (typ t)) as [fields|?|?|?|key elem|].
  - by eapply check_fields_runs.
  - apply runs_one. by apply IH.
  - apply runs_one. by apply IH.
  - apply runs_one. by apply IH.
  - apply outcome_bind_done in Hc as (s1 & H1 & H2). eapply runs_cons; [by apply IH|].
    apply runs_one. by apply IH.
  - injection Hc as <-. apply runs_nil.
Qed.

(** *** It ends *)

(** [rec] ends on the types of [U] once those of [X] have been seen. *)
Definition ends_after (U X : gset Tid) (rec : Tid → LabgobState → Outcome LabgobState) : Prop :=
  ∀ t s, t ∈ U → X ⊆ checked s → ∃ s', rec t s = Done s' ∧ checked s ⊆ checked s'.

Lemma check_field_checked tname f s : checked (check_field uppers tname f s) = checked s.
Proof. unfold check_field. by destruct (capital _). Qed.

Lemma check_fields_ends U X rec tname fields s :
  ends_after U X rec → Forall (λ f, f_Type f ∈ U) fields → X ⊆ checked s →
  ∃ s', check_fields uppers rec tname fields s = Done s' ∧ checked s ⊆ checked s'.
Proof.
  intros Hrec Hf. revert s. induction Hf as [|f fields Hf _ IH]; intros s HX; cbn; [by exists s|].
  destruct (Hrec (f_Type f) (check_field uppers tname f s)) as (s1 & -> & H1); [done| |];
    rewrite check_field_checked in *; [done|]. cbn.
  destruct (IH s1) as (s2 & -> & H2); [by etransitivity|]. exists s2. split; [done|]. by etransitivity.
Qed.

Lemma checkType_ends U fuel X :
  closed_types U → (size (U ∖ X) < fuel)%nat → ends_after U X (checkType fuel).
Proof.
  intros HU. revert X. induction fuel as [|fuel IH]; intros X Hsize; [lia|].
  intros t s Ht HX. cbn [Labgob.checkType]. destruct (decide (t ∈ checked s)) as [|Hnt]; [by exists s|].
  assert (ends_after U ({[t]} ∪ X) (checkType fuel)) as Hrec.
  { apply IH. enough (size (U ∖ ({[t]} ∪ X)) < size (U ∖ X))%nat by lia. apply subset_size. set_solver. }
  assert ({[t]} ∪ X ⊆ checked (mark t s) ∧ checked s ⊆ checked (mark t s)) as [HX' Hsub].
  { cbn. set_solver. }
  assert (∀ u, u ∈ parts t → u ∈ U) as Hparts by (intros u; by apply HU).
  unfold parts in Hparts. destruct (t_Kind (typ t)) as [fields|e|e|e|key elem|].
  - destruct (check_fields_ends U ({[t]} ∪ X) (checkType fuel) (t_Name (typ t)) fields (mark t s))
      as (s' & -> & Hs'); [done| |done|exists s'; split; [done|by etransitivity]].
    apply list.Forall_forall. intros f Hf. apply Hparts. by apply list_elem_of_fmap_2.
  - destruct (Hrec e (mark t s)) as (s' & -> & Hs'); [apply Hparts; by left|done|].
    exists s'. split; [done|by etransitivity].
  - destruct (Hrec e (mark t s)) as (s' & -> & Hs'); [apply Hparts; by left|done|].
    exists s'. split; [done|by etransitivity].
  - destruct (Hrec e (mark t s)) as (s' & -> & Hs'); [apply Hparts; by left|done|].
    exists s'. split; [done|by etransitivity].
  - destruct (Hrec elem (mark t s)) as (s1 & -> & H1); [apply Hparts; by left|done|]. cbn.
    destruct (Hrec key s1) as (s' & -> & Hs'); [apply Hparts; right; by left|by etransitivity|].
    exists s'. split; [done|]. by do 2 (etransitivity; [done|]).
  - exists (mark t s). done.
Qed.

Lemma all_complaints_split (X Y : gset Tid) :
  X ⊆ Y → all_complaints Y ≡ₚ all_complaints X ++ all_complaints (Y ∖ X).
Proof.
  intros HXY. unfold all_complaints. rewrite (union_difference_L X Y HXY) at 1.
  rewrite elements_disj_union by set_solver. by rewrite bind_app.
Qed.

(** A call of [checkType] between other calls always returns, also on a
    recursive type, within as many nested calls as there are types not seen
    before; it adds exactly the types [t] reaches to those checked, and
    complains once about each lower-case field of those that are new. *)
Theorem checkType_spec U g t :
  rtc checks_step checks_init g → finished g → closed_types U → t ∈ U →
  ∃ s', checkType (S (size (U ∖ checked (lab g)))) t (lab g) = Done s' ∧
    (∀ u, u ∈ checked s' ↔ u ∈ checked (lab g) ∨ reaches t u) ∧
    printed s' ≡ₚ printed (lab g) ++ all_complaints (checked s' ∖ checked (lab g)) ∧
    errorCount s' = errorCount (lab g) + len (all_complaints (checked s' ∖ checked (lab g))).
Proof.
  intros Hg Hfin HU Ht. set (s := lab g) in *.
  destruct (checkType_ends U (S (size (U ∖ checked s))) (checked s) HU (Nat.lt_succ_diag_r _) t s)
    as (s' & Hs' & Hsub); [done..|].
  pose proof (checkType_runs _ t s s' Hs'
    (MkChecks (stacks g ++ [[WType t]]) s (asked g ++ [t])) (length (stacks g)) []) as Hrun.
  cbn [stacks lab asked] in Hrun.
  set (g' := MkChecks _ s' _) in Hrun.
  assert (checks_ok g') as Hok'.
  { apply checks_reachable_ok. do 2 (etransitivity; [done|]).
    eapply rtc_l; [apply (CsCall t)|].
    eapply rtc_subrel; [|apply Hrun; [by apply list_lookup_middle|done]]. by intros ? ? []. }
  assert (finished g') as Hfin'.
  { unfold finished, g'. cbn. rewrite insert_app_r_alt, Nat.sub_diag by done. cbn.
    apply Forall_app. split; [done|]. by apply list.Forall_singleton. }
  destruct (finished_facts g' Hok' Hfin') as (Hch' & Hpr' & Hc').
  destruct (finished_facts g (checks_reachable_ok g Hg) Hfin) as (Hch & Hpr & Hc).
  cbn [lab asked g'] in Hch', Hpr', Hc'. fold s in Hch, Hpr, Hc.
  assert (printed s' ≡ₚ printed s ++ all_complaints (checked s' ∖ checked s)) as Hprint.
  { by rewrite Hpr', Hpr, <-all_complaints_split. }
  exists s'. split; [done|]. split; [|split; [done|]].
  - intros u. rewrite Hch', Hch. setoid_rewrite elem_of_app. setoid_rewrite list_elem_of_singleton.
    naive_solver.
  - apply Permutation_length in Hprint. rewrite length_app in Hprint. unfold len in *. lia.
Qed.

Lemma closed_types_list (l : list Tid) :
  Forall (λ t, Forall (λ u, u ∈ l) (parts t)) l → closed_types (list_to_set l).
Proof.
  intros Hl t u. rewrite !elem_of_list_to_set. intros Ht Hu.
  rewrite list.Forall_forall in Hl. specialize (Hl t Ht). rewrite list.Forall_forall in Hl. auto.
Qed.
End Run.

(** The type of [TestCapital], a slice of maps from pointers to a struct with a
    lower-case field, and a struct with a pointer to its own type. *)
Section Demo.
#[local] Open Scope positive_scope.

Definition demo_typ (t : Tid) : TypeDesc :=
  match t with
  | 1 => MkType "T4" (Struct [MkField "Yes" 5 false; MkField "no" 5 false])
  | 2 => MkType "" (Slice 3)
  | 3 => MkType "" (Map 4 5)
  | 4 => MkType "" (Ptr 1)
  | 6 => MkType "node" (Struct [MkField "next" 7 false; MkField "Val" 5 false])
  | 7 => MkType "" (Ptr 6)
  | _ => MkType "int" Other
  end.

Definition ascii_only (r : Z) : bool := false.

Definition demo_types : list Tid := [1; 2; 3; 4; 5; 6; 7].

Lemma demo_closed : closed_types demo_typ (list_to_set demo_types).
Proof. apply closed_types_list. apply (bool_decide_unpack _). vm_compute. exact I. Qed.

Definition demo_checks : Checks := MkChecks [[WType 2]; [WType 6]] no_checks [2; 6].

Lemma demo_checks_reachable : rtc (checks_step demo_typ ascii_only) checks_init demo_checks.
Proof. eapply rtc_l; [apply (CsCall _ _ 2)|]. eapply rtc_l; [apply (CsCall _ _ 6)|]. apply rtc_refl. Qed.

Lemma checks_complete_witness :
  measure demo_typ (list_to_set demo_types) demo_checks = 19%nat ∧
  ∀ n g', nsteps (checks_work demo_typ ascii_only) n demo_checks g' →
    (n <= measure demo_typ (list_to_set demo_types) demo_checks)%nat ∧
    (finished g' ∨ ∃ g2, checks_work demo_typ ascii_only g' g2) ∧
    (finished g' →
       (∀ u, u ∈ checked (lab g') ↔ ∃ t, t ∈ asked demo_checks ∧ reaches demo_typ t u) ∧
       printed (lab g') ≡ₚ all_complaints demo_typ ascii_only (checked (lab g')) ∧
       errorCount (lab g') = len (printed (lab g'))).
Proof.
  split; [vm_compute; reflexivity|].
  apply checks_complete; [exact demo_checks_reachable|exact demo_closed|].
  apply (bool_decide_unpack _). vm_compute. exact I.
Defined.

Lemma checkType_spec_witness :
  checkType demo_typ ascii_only 8 6 no_checks =
    Done (MkLabgob {[5; 6; 7]} 1%Z [LowerCase "next" "node"]) ∧
  ∃ s', checkType demo_typ ascii_only (S (size (list_to_set demo_types ∖ checked (lab checks_init)))) 2
          (lab checks_init) = Done s' ∧
    (∀ u, u ∈ checked s' ↔ u ∈ checked (lab checks_init) ∨ reaches demo_typ 2 u) ∧
    printed s' ≡ₚ printed (lab checks_init) ++
      all_complaints demo_typ ascii_only (checked s' ∖ checked (lab checks_init)) ∧
    errorCount s' = (errorCount (lab checks_init) +
      len (all_complaints demo_typ ascii_only (checked s' ∖ checked (lab checks_init))))%Z.
Proof.
  split; [vm_compute; reflexivity|].
  apply checkType_spec; [apply rtc_refl|by constructor|exact demo_closed|].
  apply (bool_decide_unpack _). vm_compute. exact I.
Defined.
End Demo.
