(* ===== verification/Annotation.v ===== *)
(** * Annotations for the visualiser

    [src/src/tester1/annotation.go]: the annotations a test collects for the
    picture of its history, and the view of crashed and disconnected servers
    ([finfo]) the fault annotations are made from; [annotator.go]: the calls a
    server process makes to the tester.  Every function that reads the clock
    takes the time it reads as its argument [t]; a nil [finfo] or an index out
    of range is [None]. *)
From S2P Require Import Prelude Strs.

(** ** Data *)

(** [porcupine.Annotation], as far as it is filled in ([porcupine] is a library). *)
Record VisAnnotation := MkVis {
  v_Tag : string;
  v_Start : Z;
  v_End : Z;
  v_Description : string;
  v_Details : string;
  v_BackgroundColor : string;
}.

Record Continuous := MkContinuous {
  c_start : Z;
  c_desp : string;
  c_details : string;
  c_bgcolor : string;
}.

Record Annotation := MkAnnotation {
  annotations : list VisAnnotation;
  continuous : gmap string Continuous;
  finalized : bool;
}.

Record CheckerBegin := MkCheckerBegin { cb_ts : Z; cb_details : string }.

Record FrameworkInfo := MkFrameworkInfo {
  fi_nservers : Z;
  fi_connected : list bool;
  fi_crashed : list bool;
  fi_ckbegin : CheckerBegin;
}.

(** The two globals [annotation] and [finfo]. *)
Record AnnState := MkAnnState { annotation : Annotation; finfo : option FrameworkInfo }.

Definition COLOR_INFO : string := "#FAFAFA".
Definition COLOR_NEUTRAL : string := "#FFECB3".
Definition COLOR_SUCCESS : string := "#C8E6C9".
Definition COLOR_FAILURE : string := "#FFCDD2".
Definition COLOR_FAULT : string := "#B3E5FC".
Definition COLOR_USER : string := "#FFF176".
Definition TAG_CHECKER : string := "$ Checker".
Definition TAG_PARTITION : string := "$ Failure".
Definition TAG_INFO : string := "$ Test Info".

(** ** Methods of Annotation *)

Definition mkAnnotation : Annotation := MkAnnotation [] ∅ false.

(** [clear] leaves what [mkAnnotation] makes. *)
Definition clear (an : Annotation) : Annotation := MkAnnotation [] ∅ false.

Definition add_annotation (a : VisAnnotation) (an : Annotation) : Annotation :=
  MkAnnotation (annotations an ++ [a]) (continuous an) (finalized an).

(** The fields a composite literal leaves out are zero. *)
Definition annotatePointColor (tag desp details bgcolor : string) (t : Z) (an : Annotation)
    : Annotation :=
  add_annotation (MkVis tag t 0 desp details bgcolor) an.

Definition annotateIntervalColor (tag : string) (start : Z) (desp details bgcolor : string) (t : Z)
    (an : Annotation) : Annotation :=
  add_annotation (MkVis tag start t desp details bgcolor) an.

(** A continuous annotation that ends at [t]. *)
Definition concretize (tag : string) (cont : Continuous) (t : Z) : VisAnnotation :=
  MkVis tag (c_start cont) t (c_desp cont) (c_details cont) (c_bgcolor cont).

Definition annotateContinuousColor (tag desp details bgcolor : string) (t : Z) (an : Annotation)
    : Annotation :=
  match continuous an !! tag with
  | None =>
      MkAnnotation (annotations an)
        (<[tag := MkContinuous t desp details bgcolor]> (continuous an)) (finalized an)
  | Some cont =>
      MkAnnotation (annotations an ++ [concretize tag cont t])
        (<[tag := MkContinuous t desp details bgcolor]> (continuous an)) (finalized an)
  end.

(** The zero value a map lookup of an absent tag returns. *)
Definition zeroContinuous : Continuous := MkContinuous 0 "" "" "".

(** The branch for an absent tag is empty. *)
Definition annotateContinuousEnd (tag : string) (t : Z) (an : Annotation) : Annotation :=
  let cont := default zeroContinuous (continuous an !! tag) in
  MkAnnotation (annotations an ++ [concretize tag cont t]) (delete tag (continuous an))
    (finalized an).

(** [visit] is the order in which the map is visited. *)
Definition finalize (visit : gmap string Continuous → list (string * Continuous)) (t : Z)
    (an : Annotation) : Annotation * list VisAnnotation :=
  (MkAnnotation (annotations an) (continuous an) true,
   annotations an ++ ((λ p : string * Continuous, concretize p.1 p.2 t) <$> visit (continuous an))).

Definition info_point (text : string) (t : Z) : VisAnnotation :=
  MkVis TAG_INFO t 0 text text COLOR_INFO.

Definition FinalizeAnnotations visit (text : string) (t t2 : Z) (st : AnnState)
    : AnnState * list VisAnnotation :=
  let '(an, l) := finalize visit t (annotation st) in
  (MkAnnState an (finfo st), l ++ [info_point text t2]).

Definition isFinalized (st : AnnState) : bool := finalized (annotation st).
Definition GetAnnotationFinalized (st : AnnState) : bool := isFinalized st.

Definition SetAnnotationFinalized (st : AnnState) : AnnState :=
  MkAnnState (MkAnnotation (annotations (annotation st)) (continuous (annotation st)) true) (finfo st).

(** [cleanup]: the annotations of the file it writes, if any; [enabled] is the
    value of [VIS_ENABLE], and [opened] tells whether the file could be opened. *)
Definition cleanup visit (enabled : string) (opened : bool) (failed : bool) (text : string)
    (t t2 : Z) (an : Annotation) : Annotation * option (list VisAnnotation) :=
  if decide (enabled = "never" ∨ (failed = false ∧ enabled ≠ "always") ∨ finalized an = true)
  then (clear an, None)
  else
    let '(an, l) := finalize visit t an in
    if decide (len l = 0) then (an, None)
    else (an, if opened then Some (l ++ [info_point text t2]) else None).

(** ** Public functions on the globals *)

Definition on_annotation (f : Annotation → Annotation) (st : AnnState) : AnnState :=
  MkAnnState (f (annotation st)) (finfo st).

Definition AnnotatePointColor tag desp details bgcolor t :=
  on_annotation (annotatePointColor tag desp details bgcolor t).
Definition AnnotateIntervalColor tag start desp details bgcolor t :=
  on_annotation (annotateIntervalColor tag start desp details bgcolor t).
Definition AnnotateContinuousColor tag desp details bgcolor t :=
  on_annotation (annotateContinuousColor tag desp details bgcolor t).
Definition AnnotateContinuousEnd tag t := on_annotation (annotateContinuousEnd tag t).

Definition AnnotatePoint tag desp details t := AnnotatePointColor tag desp details COLOR_USER t.
Definition AnnotateInterval tag start desp details t :=
  AnnotateIntervalColor tag start desp details COLOR_USER t.
Definition AnnotateContinuous tag desp details t :=
  AnnotateContinuousColor tag desp details COLOR_USER t.
Definition AnnotateInfo desp details t := AnnotatePointColor TAG_INFO desp details COLOR_INFO t.
Definition AnnotateInfoInterval start desp details t :=
  AnnotateIntervalColor TAG_INFO start desp details COLOR_INFO t.

(** The number of servers is not negative. *)
Definition mkFrameworkInfo (nservers : Z) : FrameworkInfo :=
  MkFrameworkInfo nservers (replicate (Z.to_nat nservers) true)
    (replicate (Z.to_nat nservers) false) (MkCheckerBegin 0 "").

Definition test_title (desp : string) (nservers : Z) : string :=
  desp +:+ " (" +:+ Itoa nservers +:+ " servers)".

Definition AnnotateTest (desp : string) (nservers : Z) (t : Z) (st : AnnState) : AnnState :=
  let details := test_title desp nservers in
  AnnotateInfo details details t
    (MkAnnState (clear (annotation st)) (Some (mkFrameworkInfo nservers))).

(** *** Checkers *)

Definition AnnotateCheckerBegin (details : string) (t : Z) (st : AnnState) : option AnnState :=
  f ← finfo st;
  Some (MkAnnState (annotation st)
    (Some (MkFrameworkInfo (fi_nservers f) (fi_connected f) (fi_crashed f) (MkCheckerBegin t details)))).

(** [ckbegin] is a copy: resetting its timestamp leaves [finfo] as it is. *)
Definition AnnotateCheckerEnd (desp details color : string) (t : Z) (st : AnnState)
    : option AnnState :=
  f ← finfo st;
  let ckbegin := fi_ckbegin f in
  if decide (cb_ts ckbegin = 0) then Some (AnnotatePointColor TAG_CHECKER desp details color t st)
  else
    let d := cb_details ckbegin +:+ ": " +:+ details in
    Some (AnnotateIntervalColor TAG_CHECKER (cb_ts ckbegin) desp d color t st).

Definition AnnotateCheckerSuccess desp details t st := AnnotateCheckerEnd desp details COLOR_SUCCESS t st.
Definition AnnotateCheckerFailure desp details t st := AnnotateCheckerEnd desp details COLOR_FAILURE t st.
Definition AnnotateCheckerNeutral desp details t st := AnnotateCheckerEnd desp details COLOR_NEUTRAL t st.

(** The file is written before [log.Fatalf]. *)
Definition AnnotateCheckerFailureBeforeExit visit enabled opened desp details t t2 t3 st
    : option (AnnState * option (list VisAnnotation)) :=
  st ← AnnotateCheckerFailure desp details t st;
  let '(an, file) := cleanup visit enabled opened true "test failed" t2 t3 (annotation st) in
  Some (MkAnnState an (finfo st), file).

(** *** Faults *)

(** [%v] of an [[]int]. *)
Definition show_ints (l : list Z) : string := "[" +:+ strings_Join (Itoa <$> l) " " +:+ "]".

(** The loop of [annotateFault] from server [id] on: the text of the servers cut
    off, the connected ones and the crashed ones. *)
Fixpoint fault_scan (id : Z) (connected crashed : list bool)
    : option (string * list Z * list Z) :=
  match connected, crashed with
  | [], _ => Some ("", [], [])
  | _ :: _, [] => None
  | c :: connected, x :: crashed =>
      '(alone, conn, crashes) ← fault_scan (id + 1) connected crashed;
      Some (if x : bool then (alone, conn, id :: crashes)
            else if c : bool then (alone, id :: conn, crashes)
            else ("[" +:+ Itoa id +:+ "] " +:+ alone, conn, crashes))
  end.

Definition no_fault (f : FrameworkInfo) : bool :=
  bool_decide (replicate (Z.to_nat (fi_nservers f)) true = fi_connected f) &&
  bool_decide (replicate (Z.to_nat (fi_nservers f)) false = fi_crashed f).

Definition fault_string (f : FrameworkInfo) : option string :=
  '(alone, conn, crashes) ← fault_scan 0 (fi_connected f) (fi_crashed f);
  Some ("partition = " +:+ alone +:+
        (if decide (len conn > 0) then show_ints conn else "") +:+
        (if decide (len crashes > 0) then " / crash = " +:+ show_ints crashes else "")).

Definition annotateFault (t : Z) (st : AnnState) : option AnnState :=
  f ← finfo st;
  if no_fault f then Some (AnnotateContinuousEnd TAG_PARTITION t st)
  else
    text ← fault_string f;
    Some (AnnotateContinuousColor TAG_PARTITION text text COLOR_FAULT t st).

(** [copy(dst, src)]. *)
Definition go_copy {A} (dst src : list A) : list A :=
  take (length dst) src ++ drop (length src) dst.

Definition with_finfo (st : AnnState) (f : FrameworkInfo) : AnnState :=
  MkAnnState (annotation st) (Some f).

Definition set_connected (f : FrameworkInfo) (l : list bool) : FrameworkInfo :=
  MkFrameworkInfo (fi_nservers f) l (fi_crashed f) (fi_ckbegin f).
Definition set_crashed (f : FrameworkInfo) (l : list bool) : FrameworkInfo :=
  MkFrameworkInfo (fi_nservers f) (fi_connected f) l (fi_ckbegin f).

Definition AnnotateConnection (connection : list bool) (t : Z) (st : AnnState) : option AnnState :=
  f ← finfo st;
  if decide (fi_connected f = connection) then Some st
  else annotateFault t (with_finfo st (set_connected f (go_copy (fi_connected f) connection))).

Definition two_partitions (p1 p2 : list Z) : string :=
  "partition = " +:+ show_ints p1 +:+ " " +:+ show_ints p2.

Definition AnnotateTwoPartitions (p1 p2 : list Z) (t : Z) (st : AnnState) : AnnState :=
  let text := two_partitions p1 p2 in
  AnnotateContinuousColor TAG_PARTITION text text COLOR_FAULT t st.

Definition AnnotateClearFailure (t : Z) (st : AnnState) : option AnnState :=
  f ← finfo st;
  let f := set_crashed f ((λ _, false) <$> fi_crashed f) in
  let f := set_connected f ((λ _, true) <$> fi_connected f) in
  Some (AnnotateContinuousEnd TAG_PARTITION t (with_finfo st f)).

(** The loops of [AnnotateShutdown] ([v] true) and [AnnotateRestart] ([v]
    false) over [crashed]. *)
Fixpoint mark_crashed (v : bool) (servers : list Z) (crashed : list bool) (changed : bool)
    : option (list bool * bool) :=
  match servers with
  | [] => Some (crashed, changed)
  | id :: servers =>
      x ← go_index crashed id;
      crashed ← go_set crashed id v;
      mark_crashed v servers crashed (if decide (x = v) then changed else true)
  end.

Definition annotate_crashed (v : bool) (servers : list Z) (t : Z) (st : AnnState) : option AnnState :=
  f ← finfo st;
  '(crashed, changed) ← mark_crashed v servers (fi_crashed f) false;
  let st := with_finfo st (set_crashed f crashed) in
  if changed : bool then annotateFault t st else Some st.

Definition AnnotateShutdown (servers : list Z) := annotate_crashed true servers.
Definition AnnotateRestart (servers : list Z) := annotate_crashed false servers.

Definition AnnotateShutdownAll (t : Z) (st : AnnState) : option AnnState :=
  f ← finfo st; AnnotateShutdown (seqZ 0 (fi_nservers f)) t st.
Definition AnnotateRestartAll (t : Z) (st : AnnState) : option AnnState :=
  f ← finfo st; AnnotateRestart (seqZ 0 (fi_nservers f)) t st.

(** ** annotator.go: annotations of a server process

    The handlers run in the tester; a call that is lost before the handler runs
    ([sent] false) leaves the tester alone, and one whose answer is lost
    ([answered] false) looks to the server as if it had failed. *)
Record PostAnnotatorPointArgs := MkPointArgs { pa_Tag : string; pa_Desp : string; pa_Details : string }.
Record PostAnnotatorInfoIntervalArgs :=
  MkIntervalArgs { ia_Start : Z; ia_Desp : string; ia_Details : string }.
Record GetAnnotatorTimestampReply := MkTimestampReply { Timestamp : Z }.

Definition PostAnnotatorPoint (args : PostAnnotatorPointArgs) (t : Z) (st : AnnState) : AnnState :=
  AnnotatePoint (pa_Tag args) (pa_Desp args) (pa_Details args) t st.

Definition TesterRPC_GetAnnotatorTimestamp (t : Z) : GetAnnotatorTimestampReply := MkTimestampReply t.

Definition TesterRPC_PostAnnotatorInfoInterval (args : PostAnnotatorInfoIntervalArgs) (t : Z)
    (st : AnnState) : AnnState :=
  AnnotateInfoInterval (ia_Start args) (ia_Desp args) (ia_Details args) t st.

Definition Annotate (sent : bool) tag desp details t (st : AnnState) : AnnState :=
  let args := MkPointArgs tag desp details in
  if sent then PostAnnotatorPoint args t st else st.

Definition GetAnnotatorTimestamp (sent answered : bool) (t : Z) : Z :=
  if sent && answered then Timestamp (TesterRPC_GetAnnotatorTimestamp t) else 0.

Definition PostAnnotatorInfoInterval (sent : bool) start desp details t (st : AnnState) : AnnState :=
  let args := MkIntervalArgs start desp details in
  if sent then TesterRPC_PostAnnotatorInfoInterval args t st else st.

(** ** What the picture shows

    The text a tag shows at time [tau]: of an interval that covers [tau], or of
    the continuous annotation in progress.  An empty text shows nothing. *)
Definition shows (an : Annotation) (tag : string) (tau : Z) (text : string) : Prop :=
  text ≠ "" ∧
  ((∃ a, a ∈ annotations an ∧ v_Tag a = tag ∧ v_Start a <= tau < v_End a ∧
      v_Description a = text) ∨
   (∃ c, continuous an !! tag = Some c ∧ c_start c <= tau ∧ c_desp c = text)).

(** The calls that change an [Annotation]. *)
Inductive AnnCall :=
| CPoint (tag desp details bgcolor : string)
| CInterval (tag : string) (start : Z) (desp details bgcolor : string)
| CContinuous (tag desp details bgcolor : string)
| CEnd (tag : string).

Definition ann_call (c : AnnCall) (t : Z) (an : Annotation) : Annotation :=
  match c with
  | CPoint tag desp details bg => annotatePointColor tag desp details bg t an
  | CInterval tag start desp details bg => annotateIntervalColor tag start desp details bg t an
  | CContinuous tag desp details bg => annotateContinuousColor tag desp details bg t an
  | CEnd tag => annotateContinuousEnd tag t an
  end.

Definition ann_calls (cs : list (Z * AnnCall)) (an : Annotation) : Annotation :=
  foldl (λ an c, ann_call c.2 c.1 an) an cs.

(** What the calls on [tag] up to time [tau] say it shows at [tau]. *)
Definition call_text (tag : string) (old : option string) (c : AnnCall) : option string :=
  match c with
  | CContinuous tag' desp _ _ => if decide (tag' = tag) then Some desp else old
  | CEnd tag' => if decide (tag' = tag) then None else old
  | CPoint _ _ _ _ | CInterval _ _ _ _ _ => old
  end.

Definition text_at (cs : list (Z * AnnCall)) (tag : string) (tau : Z) : option string :=
  foldl (λ old c, call_text tag old c.2) None (filter (λ c, c.1 <= tau) cs).
