(* ===== verification/AnnotationTheorems.v ===== *)
(** * The picture is true to the run

    Whatever sequence of calls collected the annotations, each tag shows at each
    moment what the last call before it said; and the failure tag shows exactly
    the crashes and disconnections the tester had made by then. *)
From S2P Require Import Prelude Strs Annotation.

(** ** The timeline of a tag *)

Definition in_order (l : list Z) : Prop := StronglySorted Z.le l.

(** Intervals a caller times itself are on other tags. *)
Definition no_interval (tag : string) (c : AnnCall) : Prop :=
  match c with CInterval tag' _ _ _ _ => tag' ≠ tag | _ => True end.

(** [T] is the text of [tag] at each time, as far as the calls up to [t] say. *)
Record timeline (T : Z → option string) (tag : string) (t : Z) (an : Annotation) : Prop := {
  tl_shows tau text : shows an tag tau text ↔ text ≠ "" ∧ T tau = Some text;
  tl_open tau : t <= tau → T tau = c_desp <$> (continuous an !! tag);
  tl_start c : continuous an !! tag = Some c → c_start c <= t;
  tl_closed a : a ∈ annotations an → v_Tag a = tag → v_End a <= t;
}.

Lemma timeline_empty tag t : timeline (λ _, None) tag t mkAnnotation.
Proof.
  assert (∀ tag', continuous mkAnnotation !! tag' = None) as Hc by (intros; apply lookup_empty).
  split; intros; rewrite ?Hc in *; [|done..|by apply not_elem_of_nil in H].
  split; [|naive_solver]. intros [_ [(a & Ha & _)|(c & Hc' & _)]]; [by apply not_elem_of_nil in Ha|].
  by rewrite Hc in Hc'.
Qed.

Lemma timeline_ext T T' tag t an : (∀ tau, T tau = T' tau) → timeline T tag t an → timeline T' tag t an.
Proof. intros He [Hs Ho Hst Hcl]. split; intros; rewrite <-?He; eauto. Qed.

(** Time passes. *)
Lemma timeline_later T tag t t' an : t <= t' → timeline T tag t an → timeline T tag t' an.
Proof.
  intros Ht [Hs Ho Hst Hcl]. split; [done|intros; apply Ho; lia|..]; intros; (etransitivity; [eauto|exact Ht]).
Qed.

Lemma elem_of_snoc {A} (x y : A) l : x ∈ l ++ [y] ↔ x ∈ l ∨ x = y.
Proof. by rewrite elem_of_app, list_elem_of_singleton. Qed.

(** An annotation is added that shows nothing on [tag]. *)
Lemma timeline_add T tag t a an :
  v_Tag a ≠ tag ∨ (v_End a <= v_Start a ∧ v_End a <= t) →
  timeline T tag t an → timeline T tag t (add_annotation a an).
Proof.
  intros Ha [Hs Ho Hst Hcl]. split; [|done|done|].
  - intros tau text. rewrite <-Hs. unfold shows, add_annotation. cbn. setoid_rewrite elem_of_snoc.
    split; (intros [Hne [(b & Hb & ? & ? & ?)|?]]; (split; [done|]); [|by right]); left; exists b; [|naive_solver].
    destruct Hb as [Hb| ->]; [done|]. destruct Ha; [done|lia].
  - intros b. cbn. rewrite elem_of_snoc. intros [Hb| ->] Hb2; [by apply Hcl|]. by destruct Ha as [|[? ?]].
Qed.

(** The continuous annotation in progress, if any, is written down at [t]. *)
Lemma shows_concretize T tag t an tau text c :
  timeline T tag t an →
  c = default zeroContinuous (continuous an !! tag) →
  text ≠ "" →
  (∃ a, a ∈ annotations an ++ [concretize tag c t] ∧ v_Tag a = tag ∧ v_Start a <= tau < v_End a ∧
     v_Description a = text) ↔ tau < t ∧ T tau = Some text.
Proof.
  intros [Hs Ho Hst Hcl] -> Hne. setoid_rewrite elem_of_snoc. split.
  - intros (a & [Ha| ->] & Htag & Htau & Htext); cbn in *.
    + split; [pose proof (Hcl a Ha Htag); lia|]. apply Hs. split; [done|]. left. eauto.
    + split; [lia|]. apply Hs. split; [done|]. right.
      destruct (continuous an !! tag) as [c|]; [|by subst]. exists c. cbn in *. split_and!; [done|lia|done].
  - intros [Htau HT]. destruct (proj2 (Hs tau text) (conj Hne HT)) as [_ [(a & ? & ?)|(c & Hc & ? & ?)]].
    + exists a. auto.
    + eexists. split; [by right|]. rewrite Hc. cbn. split_and!; [done|lia|lia|done].
Qed.

(** The text of a tag after one more call. *)
Definition text_after (T : Z → option string) (tag : string) (t : Z) (c : AnnCall) (tau : Z) : option string :=
  if decide (t <= tau) then call_text tag (T tau) c else T tau.

Lemma text_after_same T tag t c : (∀ old, call_text tag old c = old) → ∀ tau, T tau = text_after T tag t c tau.
Proof. intros Hc tau. unfold text_after. rewrite Hc. by destruct (decide _). Qed.

Lemma timeline_continuous T tag t desp details bg an :
  timeline T tag t an →
  timeline (text_after T tag t (CContinuous tag desp details bg)) tag t
    (annotateContinuousColor tag desp details bg t an).
Proof.
  intros Htl. pose proof Htl as [Hs Ho Hst Hcl].
  set (c := default zeroContinuous (continuous an !! tag)).
  (* without an old text the annotation written down would have been empty *)
  assert (∀ tau text, text ≠ "" →
    (∃ a, a ∈ annotations (annotateContinuousColor tag desp details bg t an) ∧ v_Tag a = tag ∧
       v_Start a <= tau < v_End a ∧ v_Description a = text) ↔ tau < t ∧ T tau = Some text) as Hann.
  { intros tau text Hne. rewrite <-(shows_concretize T tag t an tau text c Htl eq_refl Hne).
    unfold annotateContinuousColor, c. destruct (continuous an !! tag) as [c0|] eqn:Hc; cbn; [done|].
    setoid_rewrite elem_of_snoc. split; [intros (a & Ha & ?); exists a; auto|].
    intros (a & [Ha| ->] & ? & ? & <-); [by eauto|done]. }
  assert (continuous (annotateContinuousColor tag desp details bg t an) !! tag =
    Some (MkContinuous t desp details bg)) as Hcont.
  { unfold annotateContinuousColor. destruct (continuous an !! tag); cbn; by rewrite lookup_insert_eq. }
  split.
  - intros tau text. unfold shows, text_after. cbn. rewrite Hcont, (decide_True (P := tag = tag)) by done.
    split.
    + intros [Hne [Ha|(c' & [= <-] & Hle & Htext)]]; (split; [done|]).
      * apply Hann in Ha as [? ?]; [|done]. by rewrite decide_False by lia.
      * cbn in *. rewrite decide_True by lia. by subst.
    + intros [Hne HT]. split; [done|]. destruct (decide (t <= tau)) as [Hle|Hle].
      * right. eexists. split; [done|]. cbn. naive_solver.
      * left. apply Hann; [done|]. split; [lia|done].
  - intros tau Htau. unfold text_after. rewrite Hcont, decide_True by done. cbn. by rewrite decide_True.
  - intros c'. rewrite Hcont. intros [= <-]. done.
  - intros a. unfold annotateContinuousColor. destruct (continuous an !! tag); cbn; [|apply Hcl].
    rewrite elem_of_snoc. intros [Ha| ->] Htag; [by apply Hcl|done].
Qed.

Lemma timeline_end T tag t an :
  timeline T tag t an →
  timeline (text_after T tag t (CEnd tag)) tag t (annotateContinuousEnd tag t an).
Proof.
  intros Htl. pose proof Htl as [Hs Ho Hst Hcl]. split.
  - intros tau text. unfold shows, text_after, annotateContinuousEnd. cbn.
    rewrite lookup_delete_eq, (decide_True (P := tag = tag)) by done. split.
    + intros [Hne [Ha|(c & ? & _)]]; [|done].
      apply (shows_concretize T) in Ha as [? ?]; try done. by rewrite decide_False by lia.
    + intros [Hne HT]. split; [done|]. destruct (decide (t <= tau)); [done|]. left.
      apply (shows_concretize T); try done. split; [lia|done].
  - intros tau Htau. unfold text_after. rewrite decide_True by done. cbn.
    by rewrite lookup_delete_eq, decide_True.
  - intros c. cbn. by rewrite lookup_delete_eq.
  - intros a. cbn. rewrite elem_of_snoc. intros [Ha| ->] Htag; [by apply Hcl|done].
Qed.

(** A continuous annotation of another tag. *)
Lemma timeline_other_tag T tag tag' t an cont :
  tag' ≠ tag → continuous an !! tag = cont !! tag →
  timeline T tag t an → timeline T tag t (MkAnnotation (annotations an) cont (finalized an)).
Proof.
  intros Hne Hc [Hs Ho Hst Hcl]. split; [|intros; cbn; rewrite <-Hc; auto|cbn; rewrite <-Hc; auto|done].
  intros tau text. rewrite <-Hs. unfold shows. cbn. by rewrite Hc.
Qed.

(** One more call. *)
Lemma timeline_call T tag t c an :
  0 <= t → no_interval tag c → timeline T tag t an →
  timeline (text_after T tag t c) tag t (ann_call c t an).
Proof.
  intros Ht Hni Htl. destruct c as [tag' d e b|tag' s d e b|tag' d e b|tag']; cbn -[text_after].
  - eapply timeline_ext; [by apply text_after_same|]. apply timeline_add; [cbn; lia|done].
  - eapply timeline_ext; [by apply text_after_same|]. apply timeline_add; [by left|done].
  - destruct (decide (tag' = tag)) as [->|Hne]; [by apply timeline_continuous|].
    eapply timeline_ext; [apply text_after_same; intros; cbn; by rewrite decide_False|].
    unfold annotateContinuousColor. destruct (continuous an !! tag') as [c'|].
    + eapply (timeline_other_tag _ _ tag' _ (add_annotation (concretize tag' c' t) an)); [done| |].
      * cbn. by rewrite lookup_insert_ne.
      * apply timeline_add; [by left|done].
    + eapply (timeline_other_tag _ _ tag'); [done| |done]. by rewrite lookup_insert_ne.
  - destruct (decide (tag' = tag)) as [->|Hne]; [by apply timeline_end|].
    eapply timeline_ext; [apply text_after_same; intros; cbn; by rewrite decide_False|].
    unfold annotateContinuousEnd.
    set (c' := default zeroContinuous (continuous an !! tag')).
    eapply (timeline_other_tag _ _ tag' _ (add_annotation (concretize tag' c' t) an)); [done| |].
    + cbn. by rewrite lookup_delete_ne.
    + apply timeline_add; [by left|done].
Qed.

Lemma text_at_snoc cs t c tag tau :
  text_at (cs ++ [(t, c)]) tag tau = text_after (text_at cs tag) tag t c tau.
Proof.
  unfold text_after, text_at. rewrite list.filter_app, list.filter_cons. cbn [fst].
  destruct (decide (t <= tau)); [by rewrite foldl_app|by rewrite app_nil_r].
Qed.

Lemma ann_calls_timeline cs tag t :
  in_order cs.*1 → Forall (λ c, 0 <= c.1 <= t) cs → Forall (λ c, no_interval tag c.2) cs →
  timeline (text_at cs tag) tag t (ann_calls cs mkAnnotation).
Proof.
  revert t. induction cs as [|[t' c] cs IH] using rev_ind; intros t Hord Ht Hni; [apply timeline_empty|].
  unfold in_order in Hord. rewrite fmap_app in Hord. apply StronglySorted_app in Hord as (Hle & Hord & _).
  rewrite Forall_app, list.Forall_singleton in Ht, Hni. destruct Ht as [Ht Ht'], Hni as [Hni Hni'].
  cbn in *. apply (timeline_later _ _ t'); [lia|].
  eapply timeline_ext; [intros; symmetry; apply text_at_snoc|].
  unfold ann_calls. rewrite foldl_app. cbn. apply timeline_call; [lia|done|].
  apply IH; [done| |done]. apply list.Forall_forall. intros [t0 c0] Hc0.
  rewrite list.Forall_forall in Ht. split; [by apply (Ht _ Hc0)|]. apply Hle; [|by left].
  apply list_elem_of_fmap. by exists (t0, c0).
Qed.

(** ** The finished picture *)

(** The texts of the list handed to the visualiser: an annotation without a text
    draws none ([AnnotationFaults.blanks] lists those). *)
Definition drawn (l : list VisAnnotation) (tag : string) (tau : Z) (text : string) : Prop :=
  text ≠ "" ∧
  ∃ a, a ∈ l ∧ v_Tag a = tag ∧ v_Start a <= tau < v_End a ∧ v_Description a = text.

Lemma drawn_point l tag tau text tag' desp details bg t :
  0 <= t → drawn (l ++ [MkVis tag' t 0 desp details bg]) tag tau text ↔ drawn l tag tau text.
Proof.
  intros Ht. unfold drawn. setoid_rewrite elem_of_snoc. split.
  - intros [Hne (a & [Ha| ->] & ? & Htau & ?)]; [split; [done|by exists a]|cbn in Htau; lia].
  - intros [Hne (a & Ha & ?)]. split; [done|]. exists a. auto.
Qed.

Lemma finalize_drawn visit t an tag tau text :
  (∀ m, visit m ≡ₚ map_to_list m) → tau < t →
  (∀ a, a ∈ annotations an → v_Tag a = tag → v_End a <= t) →
  drawn (finalize visit t an).2 tag tau text ↔ shows an tag tau text.
Proof.
  intros Hv Htau Hcl. unfold drawn, shows, finalize. cbn.
  setoid_rewrite elem_of_app. setoid_rewrite list_elem_of_fmap.
  setoid_rewrite Hv. split; (intros [Hne H]; (split; [done|])).
  - destruct H as (a & [Ha|([tag' c] & -> & Hc)] & Htag & Hin & Htext); [left; by exists a|right].
    apply elem_of_map_to_list in Hc. cbn in *. subst tag'. exists c. split_and!; [done|lia|done].
  - destruct H as [(a & Ha & ?)|(c & Hc & Hle & Htext)]; [exists a; auto|].
    exists (concretize tag c t). split; [right|by split_and!].
    exists (tag, c). split; [done|]. by apply elem_of_map_to_list.
Qed.

(** After any sequence of annotation calls in the order of time, finished at
    time [t], the picture shows on a tag at every moment [tau] before [t] exactly
    the text that the calls made up to [tau] last gave it with a continuous
    annotation, and nothing before the first such call or after its end; in
    particular no two texts ever show at once. *)
Theorem annotation_timeline visit cs tag t t2 endtext fi tau text :
  (∀ m, visit m ≡ₚ map_to_list m) →
  in_order cs.*1 → Forall (λ c, 0 <= c.1 <= t) cs → Forall (λ c, no_interval tag c.2) cs →
  0 <= t2 → tau < t →
  drawn (FinalizeAnnotations visit endtext t t2 (MkAnnState (ann_calls cs mkAnnotation) fi)).2
    tag tau text ↔ text ≠ "" ∧ text_at cs tag tau = Some text.
Proof.
  intros Hv Hord Ht Hni Ht2 Htau. pose proof (ann_calls_timeline cs tag t Hord Ht Hni) as Htl.
  unfold FinalizeAnnotations. cbn [annotation finfo finalize snd]. unfold info_point.
  rewrite drawn_point by done. rewrite <-(tl_shows _ _ _ _ Htl).
  apply (finalize_drawn visit t); [done..|apply Htl].
Qed.

Definition demo_calls : list (Z * AnnCall) :=
  [(1, CEnd "term"); (2, CContinuous "term" "1" "" COLOR_USER); (3, CPoint "op" "put" "" COLOR_USER);
   (5, CContinuous "term" "2" "" COLOR_USER); (7, CContinuous "op" "get" "" COLOR_USER); (9, CEnd "term")].

Lemma annotation_timeline_witness :
  text_at demo_calls "term" 6 = Some "2" ∧
  (drawn (FinalizeAnnotations map_to_list "test passed" 10 11
     (MkAnnState (ann_calls demo_calls mkAnnotation) None)).2 "term" 6 "2" ↔
   "2" ≠ "" ∧ text_at demo_calls "term" 6 = Some "2").
Proof.
  split; [reflexivity|]. apply annotation_timeline; [done| | | |lia|lia];
    unfold in_order; repeat constructor; cbn; lia.
Defined.

(** ** What the picture shows besides *)

(** Ending a tag without a continuous annotation adds an empty one from time 0. *)
Lemma annotateContinuousEnd_absent tag t an :
  continuous an !! tag = None →
  annotations (annotateContinuousEnd tag t an) = annotations an ++ [MkVis tag 0 t "" "" ""].
Proof. intros Hc. unfold annotateContinuousEnd. by rewrite Hc. Qed.

(** The begin of a check stays in force after its end: every later end, of a
    check that has no begin of its own too, draws an interval from there. *)
Lemma AnnotateCheckerEnd_sticky desp details color t st st' :
  AnnotateCheckerEnd desp details color t st = Some st' → finfo st' = finfo st.
Proof.
  unfold AnnotateCheckerEnd. destruct (finfo st) as [f|] eqn:Hf; cbn; [|done].
  destruct (decide _); intros [= <-]; cbn; done.
Qed.

Lemma AnnotateCheckerEnd_interval desp details color t st f :
  finfo st = Some f → cb_ts (fi_ckbegin f) ≠ 0 →
  annotation <$> AnnotateCheckerEnd desp details color t st =
    Some (add_annotation
      (MkVis TAG_CHECKER (cb_ts (fi_ckbegin f)) t desp (cb_details (fi_ckbegin f) +:+ ": " +:+ details) color)
      (annotation st)).
Proof. intros Hf Ht. unfold AnnotateCheckerEnd. rewrite Hf. cbn. by rewrite decide_False. Qed.
