(* ===== verification/AnnotationFaults.v ===== *)
(** * The failure tag

    The fault annotations of [src/src/tester1/annotation.go] as operations, what
    the tester has done to the servers and to the network by each moment as a
    function of those operations, and the theorem that the failure tag shows
    exactly that, besides the empty annotations that are listed one by one. *)
From S2P Require Import Prelude Strs Annotation AnnotationTheorems.

(** ** Operations of a test *)

Inductive FaultOp :=
| FConnection (connection : list bool)
| FTwoPartitions (p1 p2 : list Z)
| FShutdown (servers : list Z)
| FRestart (servers : list Z)
| FShutdownAll
| FRestartAll
| FClearFailure
| FCheckerBegin (details : string)
| FCall (c : AnnCall).

Definition fault_op (op : FaultOp) (t : Z) (st : AnnState) : option AnnState :=
  match op with
  | FConnection connection => AnnotateConnection connection t st
  | FTwoPartitions p1 p2 => Some (AnnotateTwoPartitions p1 p2 t st)
  | FShutdown servers => AnnotateShutdown servers t st
  | FRestart servers => AnnotateRestart servers t st
  | FShutdownAll => AnnotateShutdownAll t st
  | FRestartAll => AnnotateRestartAll t st
  | FClearFailure => AnnotateClearFailure t st
  | FCheckerBegin details => AnnotateCheckerBegin details t st
  | FCall c => Some (on_annotation (ann_call c t) st)
  end.

Definition fault_ops (ops : list (Z * FaultOp)) (st : AnnState) : option AnnState :=
  foldl (λ st op, st ← st; fault_op op.2 op.1 st) (Some st) ops.

(** ** What has been done to the servers

    Which of the [n] servers are connected, and which have crashed. *)
Definition View : Type := list bool * list bool.

Definition all_up (n : Z) : View :=
  (replicate (Z.to_nat n) true, replicate (Z.to_nat n) false).

Definition mark (v : bool) (servers : list Z) (crashed : list bool) : list bool :=
  imap (λ i x, if decide (Z.of_nat i ∈ servers) then v else x) crashed.

Definition view_op (n : Z) (view : View) (op : FaultOp) : View :=
  match op with
  | FConnection connection => (connection, view.2)
  | FShutdown servers => (view.1, mark true servers view.2)
  | FRestart servers => (view.1, mark false servers view.2)
  | FShutdownAll => (view.1, replicate (Z.to_nat n) true)
  | FRestartAll => (view.1, replicate (Z.to_nat n) false)
  | FClearFailure => all_up n
  | FTwoPartitions _ _ | FCheckerBegin _ | FCall _ => view
  end.

(** The network may be divided in two besides.  That holds until the failures are
    cleared or something happens to a server: then the tag describes the servers. *)
Definition Status : Type := View * option (list Z * list Z).

Definition healthy (n : Z) : Status := (all_up n, None).

Definition status_op (n : Z) (s : Status) (op : FaultOp) : Status :=
  match op with
  | FTwoPartitions p1 p2 => (s.1, Some (p1, p2))
  | FClearFailure => healthy n
  | _ => let view := view_op n s.1 op in (view, if decide (view = s.1) then s.2 else None)
  end.

Definition status_at (n : Z) (ops : list (Z * FaultOp)) (tau : Z) : Status :=
  foldl (λ s op, status_op n s op.2) (healthy n) (filter (λ op, op.1 <= tau) ops).

(** The servers a predicate holds of, and the text that describes a view: those
    cut off, the connected ones, the crashed ones. *)
Definition holds_of (l : list bool) (i : Z) : bool := default false (l !! Z.to_nat i).

Definition servers_where (p q : Z → bool) (b c : bool) (from : Z) (n : nat) : list Z :=
  filter (λ i, p i = b ∧ q i = c) (seqZ from (Z.of_nat n)).

Definition alone_text (l : list Z) : string :=
  foldr (λ i s, "[" +:+ Itoa i +:+ "] " +:+ s) "" l.

Definition view_text (n : Z) (view : View) : option string :=
  if decide (view = all_up n) then None
  else
    let p := holds_of view.2 in
    let q := holds_of view.1 in
    let alone := servers_where p q false false 0 (Z.to_nat n) in
    let conn := servers_where p q false true 0 (Z.to_nat n) in
    let crashes := filter (λ i, p i = true) (seqZ 0 (Z.of_nat (Z.to_nat n))) in
    Some ("partition = " +:+ alone_text alone +:+
          (if decide (conn = []) then "" else show_ints conn) +:+
          (if decide (crashes = []) then "" else " / crash = " +:+ show_ints crashes)).

(** The text of the tag, if any. *)
Definition shown (n : Z) (s : Status) : option string :=
  match s.2 with Some (p1, p2) => Some (two_partitions p1 p2) | None => view_text n s.1 end.

(** The times at which failures are cleared while none is shown: nothing is in
    progress that could end then. *)
Definition stray_op (n : Z) (s : Status) (op : FaultOp) (t : Z) : list Z :=
  match op, shown n s with FClearFailure, None => [t] | _, _ => [] end.

Fixpoint stray_clears (n : Z) (s : Status) (ops : list (Z * FaultOp)) : list Z :=
  match ops with
  | [] => []
  | (t, op) :: ops =>
      stray_op n s op t ++ stray_clears n (status_op n s op) ops
  end.

(** Operations a test makes: on the servers there are, and other annotations on
    other tags. *)
Definition valid_op (n : Z) (op : FaultOp) : Prop :=
  match op with
  | FConnection connection => len connection = n
  | FShutdown servers | FRestart servers => Forall (λ id, 0 <= id < n) servers
  | FCall (CPoint tag _ _ _) | FCall (CInterval tag _ _ _ _)
  | FCall (CContinuous tag _ _ _) | FCall (CEnd tag) => tag ≠ TAG_PARTITION
  | _ => True
  end.

(** ** The text *)

Lemma fault_scan_spec (p q : Z → bool) conn crashed id :
  length conn = length crashed →
  (∀ i x, conn !! i = Some x → q (id + Z.of_nat i) = x) →
  (∀ i x, crashed !! i = Some x → p (id + Z.of_nat i) = x) →
  fault_scan id conn crashed =
    Some (alone_text (servers_where p q false false id (length conn)),
          servers_where p q false true id (length conn),
          filter (λ i, p i = true) (seqZ id (Z.of_nat (length conn)))).
Proof.
  revert crashed id. induction conn as [|c conn IH]; intros [|x crashed] id Hlen Hq Hp;
    try done. cbn [fault_scan length]. injection Hlen as Hlen.
  assert (p id = x ∧ q id = c) as [Hpx Hqc].
  { rewrite <-(Hp 0%nat x), <-(Hq 0%nat c) by done. by rewrite Z.add_0_r. }
  rewrite (IH crashed (id + 1) Hlen);
    [|intros i y Hy; rewrite <-(Hq (S i) y Hy); f_equal; lia
     |intros i y Hy; rewrite <-(Hp (S i) y Hy); f_equal; lia].
  unfold servers_where. rewrite (seqZ_cons id) by lia.
  replace (Z.succ id) with (id + 1) by lia. replace (Z.pred _) with (Z.of_nat (length conn)) by lia.
  rewrite !list.filter_cons. cbn [mbind option_bind]. rewrite Hpx, Hqc.
  by destruct x, c.
Qed.

Lemma some_text {A} `{EqDecision A} (l : list A) (s : string) :
  (if decide (len l > 0) then s else "") = (if decide (l = []) then "" else s).
Proof. destruct l; [done|]. by rewrite decide_True by (unfold len; cbn; lia). Qed.

Lemma fault_string_view f n :
  len (fi_connected f) = n → len (fi_crashed f) = n →
  (fi_connected f, fi_crashed f) ≠ all_up n →
  fault_string f = view_text n (fi_connected f, fi_crashed f).
Proof.
  intros Hc Hx Hne. unfold view_text, fault_string. rewrite decide_False by done. cbn [fst snd].
  unfold len in Hc, Hx.
  rewrite (fault_scan_spec (holds_of (fi_crashed f)) (holds_of (fi_connected f)));
    [|lia|intros i x Hi; unfold holds_of; by rewrite Z.add_0_l, Nat2Z.id, Hi..].
  replace (Z.to_nat n) with (length (fi_connected f)) by lia.
  cbn [mbind option_bind]. by rewrite !some_text.
Qed.

Lemma no_fault_view f n :
  fi_nservers f = n → no_fault f = bool_decide ((fi_connected f, fi_crashed f) = all_up n).
Proof.
  intros <-. unfold no_fault, all_up. apply eq_true_iff_eq.
  rewrite andb_true_iff, !bool_decide_eq_true.
  split; [intros [<- <-]; done|intros [= -> ->]; done].
Qed.

Lemma view_text_up n : view_text n (all_up n) = None.
Proof. unfold view_text. by rewrite decide_True. Qed.

Lemma shown_nonempty n s text : shown n s = Some text → text ≠ "".
Proof.
  unfold shown, view_text, two_partitions. destruct s.2 as [[p1 p2]|]; [by intros [= <-]|].
  destruct (decide _); [done|]. by intros [= <-].
Qed.

Lemma shown_some n s : s.1 ≠ all_up n → is_Some (shown n s).
Proof.
  intros Hne. unfold shown, view_text. destruct s.2 as [[p1 p2]|]; [by eexists|].
  rewrite decide_False by done. by eexists.
Qed.

(** ** Annotations without a text

    Those of the failure tag. *)

Definition blanks (l : list VisAnnotation) : list VisAnnotation :=
  filter (λ a, v_Tag a = TAG_PARTITION ∧ v_Description a = "") l.

(** The one that is added when nothing is in progress. *)
Definition stray (t : Z) : VisAnnotation := MkVis TAG_PARTITION 0 t "" "" "".

Lemma blanks_snoc l a :
  v_Tag a ≠ TAG_PARTITION ∨ v_Description a ≠ "" → blanks (l ++ [a]) = blanks l.
Proof.
  intros Ha. unfold blanks. rewrite list.filter_app, filter_cons_False, filter_nil, app_nil_r; [done|].
  by intros [? ?]; destruct Ha.
Qed.

Lemma blanks_other c t an :
  no_interval TAG_PARTITION c →
  match c with CPoint tag _ _ _ | CContinuous tag _ _ _ | CEnd tag => tag ≠ TAG_PARTITION | _ => True end →
  blanks (annotations (ann_call c t an)) = blanks (annotations an).
Proof.
  intros Hni Hc. destruct c as [tag d e b|tag st d e b|tag d e b|tag]; cbn in *.
  - apply blanks_snoc. by left.
  - apply blanks_snoc. by left.
  - unfold annotateContinuousColor. destruct (_ !! tag); cbn; [|done]. apply blanks_snoc. by left.
  - apply blanks_snoc. by left.
Qed.

Lemma blanks_continuous desp details bg t an :
  (∀ c, continuous an !! TAG_PARTITION = Some c → c_desp c ≠ "") →
  blanks (annotations (annotateContinuousColor TAG_PARTITION desp details bg t an)) =
    blanks (annotations an).
Proof.
  intros Hc. unfold annotateContinuousColor. destruct (_ !! TAG_PARTITION); cbn; [|done].
  apply blanks_snoc. right. by apply Hc.
Qed.

Lemma blanks_end t an :
  (∀ c, continuous an !! TAG_PARTITION = Some c → c_desp c ≠ "") →
  blanks (annotations (annotateContinuousEnd TAG_PARTITION t an)) =
    blanks (annotations an) ++
      match continuous an !! TAG_PARTITION with Some _ => [] | None => [stray t] end.
Proof.
  intros Hc. unfold annotateContinuousEnd. destruct (_ !! TAG_PARTITION) as [c|]; cbn.
  - rewrite app_nil_r. apply blanks_snoc. right. by apply Hc.
  - unfold blanks. by rewrite list.filter_app.
Qed.

(** ** Every operation keeps the tag true

    The picture and [finfo] after the operations up to [t], which leave [s] and
    were stray clearings at [bl]. *)
Record in_view (n : Z) (T : Z → option string) (t : Z) (s : Status) (bl : list Z) (st : AnnState)
    : Prop := {
  iv_finfo f : finfo st = Some f →
    fi_nservers f = n ∧ fi_connected f = s.1.1 ∧ fi_crashed f = s.1.2;
  iv_some : is_Some (finfo st);
  iv_len : len s.1.1 = n ∧ len s.1.2 = n;
  iv_timeline : timeline T TAG_PARTITION t (annotation st);
  iv_now tau : t <= tau → T tau = shown n s;
  iv_blanks : blanks (annotations (annotation st)) = stray <$> bl;
}.

(** What shows once the status has become [s] at [t]. *)
Definition shown_after (T : Z → option string) (n t : Z) (s : Status) (tau : Z) : option string :=
  if decide (t <= tau) then shown n s else T tau.

Lemma in_view_ext n T T' t s bl st :
  (∀ tau, T tau = T' tau) → in_view n T t s bl st → in_view n T' t s bl st.
Proof.
  intros He [? ? ? ? Hnow ?]. split; try done; [by eapply timeline_ext|]. intros. rewrite <-He. auto.
Qed.

(** What is in progress on the tag. *)
Lemma in_view_continuous n T t t' s bl st :
  t <= t' → in_view n T t s bl st →
  c_desp <$> (continuous (annotation st) !! TAG_PARTITION) = shown n s ∧
  ∀ c, continuous (annotation st) !! TAG_PARTITION = Some c → c_desp c ≠ "".
Proof.
  intros Ht [_ _ _ Htl Hnow _]. assert (c_desp <$> (continuous (annotation st) !! TAG_PARTITION) = shown n s)
    as Hc by (rewrite <-(tl_open _ _ _ _ Htl t), Hnow by lia; done).
  split; [done|]. intros c Hs. rewrite Hs in Hc. by eapply shown_nonempty.
Qed.

(** The status is as it was. *)
Lemma in_view_keep n T t t' s bl st st' :
  t <= t' → in_view n T t s bl st →
  (∀ f', finfo st' = Some f' → ∃ f, finfo st = Some f ∧ fi_nservers f' = fi_nservers f ∧
     fi_connected f' = fi_connected f ∧ fi_crashed f' = fi_crashed f) →
  is_Some (finfo st') →
  timeline T TAG_PARTITION t' (annotation st') →
  blanks (annotations (annotation st')) = blanks (annotations (annotation st)) →
  in_view n (shown_after T n t' s) t' s bl st'.
Proof.
  intros Ht [Hf Hs Hl Htl Hnow Hbl] Hf' Hs' Htl' Hbl'.
  apply (in_view_ext _ T).
  { intros tau. unfold shown_after. destruct (decide _); [apply Hnow; lia|done]. }
  split; [|done|done|done|intros; apply Hnow; lia|by rewrite Hbl'].
  intros f' Hf2. destruct (Hf' f' Hf2) as (f & Hfs & -> & -> & ->). by apply Hf.
Qed.

(** A call on the failure tag that says what the status is. *)
Lemma call_view n T t s bl f c st :
  0 <= t → timeline T TAG_PARTITION t (annotation st) → no_interval TAG_PARTITION c →
  (∀ old, call_text TAG_PARTITION old c = shown n s) →
  fi_nservers f = n → (fi_connected f, fi_crashed f) = s.1 → len s.1.1 = n ∧ len s.1.2 = n →
  blanks (annotations (ann_call c t (annotation st))) = stray <$> bl →
  in_view n (shown_after T n t s) t s bl (MkAnnState (ann_call c t (annotation st)) (Some f)).
Proof.
  intros Ht Htl Hni Hcall Hn Hv Hl Hbl. split; cbn [finfo annotation].
  - rewrite <-Hv. by intros ? [= <-].
  - done.
  - done.
  - eapply timeline_ext; [|by apply timeline_call].
    intros tau. unfold text_after, shown_after. by rewrite Hcall.
  - intros tau Htau. unfold shown_after. by rewrite decide_True.
  - done.
Qed.

(** Something has happened to a server: [f] is not what was recorded before. *)
Lemma annotateFault_view n T t t' s bl f st :
  0 <= t <= t' → in_view n T t s bl st → fi_nservers f = n →
  len (fi_connected f) = n → len (fi_crashed f) = n → (fi_connected f, fi_crashed f) ≠ s.1 →
  ∃ st', annotateFault t' (with_finfo st f) = Some st' ∧
    in_view n (shown_after T n t' ((fi_connected f, fi_crashed f), None)) t'
      ((fi_connected f, fi_crashed f), None) bl st'.
Proof.
  intros Ht Hiv Hn Hc Hx Hne. pose proof (in_view_continuous n T t t' s bl st (proj2 Ht) Hiv) as [Hcont Hlive].
  destruct Hiv as [_ _ _ Htl _ Hbl].
  assert (timeline T TAG_PARTITION t' (annotation st)) as Htl' by (eapply timeline_later; [|done]; lia).
  unfold annotateFault. cbn [finfo with_finfo mbind option_bind].
  rewrite (no_fault_view f n Hn). case_bool_decide as Hup.
  - eexists. split; [done|]. unfold AnnotateContinuousEnd, on_annotation. cbn [finfo with_finfo annotation].
    apply (call_view n T t' _ _ f (CEnd TAG_PARTITION) st); try done; [lia| |].
    + intros old. unfold shown. cbn [fst snd]. by rewrite Hup, view_text_up.
    + cbn [ann_call]. rewrite blanks_end, Hbl by done. rewrite Hup in Hne.
      destruct (shown_some n s) as [text Htext]; [congruence|]. rewrite Htext in Hcont.
      destruct (_ !! TAG_PARTITION); [by rewrite app_nil_r|done].
  - rewrite (fault_string_view f n) by done.
    destruct (view_text n _) as [text|] eqn:Htext; cycle 1.
    { unfold view_text in Htext. by rewrite decide_False in Htext. }
    eexists. split; [done|].
    unfold AnnotateContinuousColor, on_annotation. cbn [finfo with_finfo annotation].
    apply (call_view n T t' _ _ f (CContinuous TAG_PARTITION text text COLOR_FAULT) st); try done; [lia|].
    cbn [ann_call]. by rewrite blanks_continuous.
Qed.

Lemma mark_nil v crashed : mark v [] crashed = crashed.
Proof.
  apply list_eq. intros i. unfold mark. rewrite list_lookup_imap.
  destruct (crashed !! i); cbn; [|done]. by rewrite decide_False by (by intros ?%not_elem_of_nil).
Qed.

Lemma mark_cons v id servers crashed :
  0 <= id → mark v (id :: servers) crashed = mark v servers (<[Z.to_nat id := v]> crashed).
Proof.
  intros Hid. apply list_eq. intros i. unfold mark. rewrite !list_lookup_imap.
  destruct (decide (i = Z.to_nat id)) as [->|Hne].
  - rewrite Z2Nat.id by done. destruct (crashed !! Z.to_nat id) as [x|] eqn:Hx.
    + rewrite list_lookup_insert_eq by (by eapply lookup_lt_Some).
      cbn. rewrite decide_True by left. by destruct (decide _).
    + by rewrite list_insert_ge, Hx by (by apply lookup_ge_None).
  - rewrite list_lookup_insert_ne by done. destruct (crashed !! i); cbn; [|done]. f_equal.
    apply decide_ext. rewrite elem_of_cons. split; [intros [?|?]; [lia|done]|auto].
Qed.

Lemma mark_length v servers crashed : length (mark v servers crashed) = length crashed.
Proof. apply length_imap. Qed.

Lemma mark_crashed_spec v servers crashed changed :
  Forall (λ id, 0 <= id < len crashed) servers →
  ∃ changed', mark_crashed v servers crashed changed = Some (mark v servers crashed, changed') ∧
    if changed' : bool then changed = true ∨ mark v servers crashed ≠ crashed
    else changed = false ∧ mark v servers crashed = crashed.
Proof.
  revert crashed changed. induction servers as [|id servers IH]; intros crashed changed Hids.
  { exists changed. rewrite mark_nil. split; [done|]. destruct changed; [by left|done]. }
  apply list.Forall_cons in Hids as [Hid Hids]. cbn [mark_crashed].
  destruct (go_index_some crashed id Hid) as [x Hx]. rewrite Hx, go_set_some by done.
  cbn [mbind option_bind].
  destruct (IH (<[Z.to_nat id := v]> crashed) (if decide (x = v) then changed else true))
    as (changed' & -> & Hch).
  { unfold len. by rewrite length_insert. }
  exists changed'. rewrite mark_cons by lia. split; [done|].
  assert (crashed !! Z.to_nat id = Some x) as Hlk by (by apply go_index_lookup).
  destruct (decide (x = v)) as [->|Hxv]; [by rewrite list_insert_id in Hch |- *|].
  destruct changed'; [|by destruct Hch]. right. intros Heq.
  apply (f_equal (.!! Z.to_nat id)) in Heq. unfold mark in Heq.
  rewrite list_lookup_imap, list_lookup_insert_eq, Hlk in Heq by (by eapply lookup_lt_Some).
  cbn in Heq. destruct (decide _); by injection Heq as ?.
Qed.

(** The handlers of crashes and restarts. *)
Lemma annotate_crashed_view n T t t' v servers s bl st :
  0 <= t <= t' → Forall (λ id, 0 <= id < n) servers → in_view n T t s bl st →
  let view := (s.1.1, mark v servers s.1.2) in
  let s' := (view, if decide (view = s.1) then s.2 else None) in
  ∃ st', annotate_crashed v servers t' st = Some st' ∧ in_view n (shown_after T n t' s') t' s' bl st'.
Proof.
  intros Ht Hids Hiv. pose proof Hiv as [Hf [f Hs] [Hl1 Hl2] Htl Hnow Hbl].
  destruct (Hf f Hs) as (Hn & Hc & Hx). destruct s as [[conn crashed] two]. cbn [fst snd] in *.
  unfold annotate_crashed. rewrite Hs. cbn [mbind option_bind]. rewrite Hx.
  destruct (mark_crashed_spec v servers crashed false) as (ch & -> & Hch); [by rewrite Hl2|].
  cbn [mbind option_bind].
  assert (len (mark v servers crashed) = n) as Hlm by (unfold len; by rewrite mark_length).
  destruct ch.
  - destruct Hch as [?|Hne]; [done|]. rewrite decide_False by congruence.
    pose proof (annotateFault_view n T t t' (conn, crashed, two) bl (set_crashed f (mark v servers crashed)) st)
      as Hfault. cbn -[annotateFault] in Hfault. rewrite Hc in Hfault. apply Hfault; try done. congruence.
  - eexists. split; [done|]. destruct Hch as [_ Heq]. rewrite Heq, decide_True by done.
    eapply in_view_keep; [|done| |done| |done]; [lia| |eapply timeline_later; [|done]; lia].
    intros f'. cbn. intros [= <-]. exists f. by rewrite Hx.
Qed.

Lemma mark_all v n crashed :
  len crashed = n → mark v (seqZ 0 n) crashed = replicate (Z.to_nat n) v.
Proof.
  intros Hn. apply list_eq. intros i. unfold mark. rewrite list_lookup_imap.
  destruct (crashed !! i) eqn:Hi; cbn.
  - apply lookup_lt_Some in Hi. unfold len in Hn. rewrite lookup_replicate_2 by lia.
    rewrite decide_True; [done|]. apply elem_of_seqZ. lia.
  - apply lookup_ge_None in Hi. unfold len in Hn. symmetry. apply lookup_replicate_None. lia.
Qed.

Lemma seqZ_ids n : Forall (λ id, 0 <= id < n) (seqZ 0 n).
Proof. apply list.Forall_forall. intros id ?%elem_of_seqZ. lia. Qed.

Lemma go_copy_full {A} (dst src : list A) : length dst = length src → go_copy dst src = src.
Proof. intros Hl. unfold go_copy. by rewrite drop_ge, app_nil_r, take_ge by lia. Qed.

Lemma clear_view n T t t' s bl st :
  0 <= t <= t' → 0 <= n → in_view n T t s bl st →
  ∃ st', AnnotateClearFailure t' st = Some st' ∧
    in_view n (shown_after T n t' (healthy n)) t' (healthy n) (bl ++ stray_op n s FClearFailure t') st'.
Proof.
  intros Ht Hn0 Hiv. pose proof (in_view_continuous n T t t' s bl st (proj2 Ht) Hiv) as [Hcont Hlive].
  destruct Hiv as [Hf [f Hs] [Hl1 Hl2] Htl Hnow Hbl]. destruct (Hf f Hs) as (Hn & Hc & Hx).
  unfold AnnotateClearFailure. rewrite Hs. cbn [mbind option_bind]. eexists. split; [done|].
  apply (call_view n T t' _ _ (set_connected (set_crashed f _) _) (CEnd TAG_PARTITION) st); try done.
  - lia.
  - eapply timeline_later; [|done]. lia.
  - intros old. cbn. by rewrite view_text_up.
  - unfold healthy, all_up, len in *. cbn.
    rewrite !(const_fmap _ _ _ (λ _ _ _, eq_refl)), Hc, Hx. f_equal; f_equal; lia.
  - unfold healthy, all_up, len in *. cbn. rewrite !length_replicate. lia.
  - cbn [ann_call]. rewrite blanks_end, Hbl, fmap_app by done. unfold stray_op. rewrite <-Hcont.
    by destruct (_ !! TAG_PARTITION).
Qed.

Lemma fault_op_view n T t t' op s bl st :
  0 <= t <= t' → 0 <= n → valid_op n op → in_view n T t s bl st →
  ∃ st', fault_op op t' st = Some st' ∧
    in_view n (shown_after T n t' (status_op n s op)) t' (status_op n s op) (bl ++ stray_op n s op t') st'.
Proof.
  intros Ht Hn0 Hop Hiv. pose proof (in_view_continuous n T t t' s bl st (proj2 Ht) Hiv) as [_ Hlive].
  pose proof Hiv as [Hf [f Hs] [Hl1 Hl2] Htl Hnow Hbl]. destruct (Hf f Hs) as (Hn & Hc & Hx).
  assert (timeline T TAG_PARTITION t' (annotation st)) as Htl' by (eapply timeline_later; [|done]; lia).
  destruct op as [l|p1 p2|ids|ids| | | |d|c]; cbn [fault_op status_op view_op valid_op] in *;
    try by eapply clear_view.
  all: replace (bl ++ stray_op n s _ t') with bl by (symmetry; apply app_nil_r).
  - unfold AnnotateConnection. rewrite Hs. cbn [mbind option_bind].
    destruct s as [[conn crashed] two]. cbn [fst snd] in *.
    destruct (decide (fi_connected f = l)) as [<-|Hne].
    + eexists. split; [done|]. rewrite Hc, decide_True by done.
      eapply in_view_keep; [|done|naive_solver|done|done|done]. lia.
    + rewrite go_copy_full by (rewrite Hc; unfold len in *; lia). rewrite decide_False by congruence.
      pose proof (annotateFault_view n T t t' (conn, crashed, two) bl (set_connected f l) st) as Hfault.
      cbn -[annotateFault] in Hfault. rewrite Hx in Hfault. apply Hfault; try done. congruence.
  - eexists. split; [done|]. unfold AnnotateTwoPartitions, AnnotateContinuousColor, on_annotation.
    rewrite Hs. apply (call_view n T t' _ _ f (CContinuous TAG_PARTITION _ _ COLOR_FAULT) st); try done.
    + lia.
    + cbn. rewrite Hc, Hx. by destruct s as [[]].
    + cbn [ann_call]. by rewrite blanks_continuous.
  - by eapply annotate_crashed_view.
  - by eapply annotate_crashed_view.
  - unfold AnnotateShutdownAll. rewrite Hs. cbn [mbind option_bind]. rewrite Hn.
    rewrite <-(mark_all true n s.1.2) by done.
    eapply annotate_crashed_view; [done|apply seqZ_ids|done].
  - unfold AnnotateRestartAll. rewrite Hs. cbn [mbind option_bind]. rewrite Hn.
    rewrite <-(mark_all false n s.1.2) by done.
    eapply annotate_crashed_view; [done|apply seqZ_ids|done].
  - unfold AnnotateCheckerBegin. rewrite Hs. cbn [mbind option_bind]. eexists. split; [done|].
    rewrite decide_True by done. destruct s as [view two]. eapply in_view_keep; [|done| |done|done|done]; [lia|].
    intros f'. cbn. intros [= <-]. by exists f.
  - eexists. split; [done|]. rewrite decide_True by done. destruct s as [view two].
    eapply in_view_keep; [|done| |done| |]; [lia|eauto| |]; cbn.
    + eapply timeline_ext; [|apply timeline_call; [lia| |done]].
      * intros tau. symmetry. apply text_after_same. intros old. by destruct c; cbn; rewrite ?decide_False.
      * by destruct c.
    + apply blanks_other; by destruct c.
Qed.

Lemma status_at_snoc n ops t op tau :
  status_at n (ops ++ [(t, op)]) tau =
    if decide (t <= tau) then status_op n (status_at n ops tau) op else status_at n ops tau.
Proof.
  unfold status_at. rewrite list.filter_app, list.filter_cons. cbn [fst].
  destruct (decide (t <= tau)); [by rewrite foldl_app|by rewrite app_nil_r].
Qed.

Lemma status_at_all n ops tau :
  Forall (λ op, op.1 <= tau) ops → status_at n ops tau = foldl (λ s op, status_op n s op.2) (healthy n) ops.
Proof.
  intros Hall. unfold status_at. f_equal.
  induction Hall as [|op ops Hop _ IH]; [done|]. by rewrite !filter_cons_True, IH by lia.
Qed.

Lemma stray_clears_snoc n s ops t op :
  stray_clears n s (ops ++ [(t, op)]) =
    stray_clears n s ops ++ stray_op n (foldl (λ s op, status_op n s op.2) s ops) op t.
Proof.
  revert s. induction ops as [|[t' op'] ops IH]; intros s; cbn [app stray_clears foldl snd].
  - by rewrite app_nil_r.
  - by rewrite IH, app_assoc.
Qed.

Lemma test_view desp n t st :
  0 <= n → 0 <= t → in_view n (λ _, None) 0 (healthy n) [] (AnnotateTest desp n t st).
Proof.
  intros Hn Ht. split; cbn.
  - by intros ? [= <-].
  - done.
  - unfold len. rewrite !length_replicate. lia.
  - eapply (timeline_add _ _ _ (MkVis TAG_INFO t 0 _ _ _)); [by left|apply timeline_empty].
  - intros tau Htau. symmetry. apply view_text_up.
  - done.
Qed.

Lemma fault_ops_view n ops t st0 :
  in_view n (λ _, None) 0 (healthy n) [] st0 → 0 <= n → 0 <= t →
  in_order ops.*1 → Forall (λ op, 0 <= op.1 <= t) ops → Forall (λ op, valid_op n op.2) ops →
  ∃ st, fault_ops ops st0 = Some st ∧
    in_view n (λ tau, shown n (status_at n ops tau)) t (status_at n ops t)
      (stray_clears n (healthy n) ops) st.
Proof.
  intros H0 Hn. revert t. induction ops as [|[t' op] ops IH] using rev_ind; intros t Ht Hord Hts Hval.
  { exists st0. split; [done|]. destruct H0 as [? ? ? ? Hnow ?].
    assert (∀ tau, None = shown n (status_at n [] tau)) as Hnil
      by (intros tau; symmetry; apply view_text_up).
    split; try done. eapply timeline_later; [done|]. by apply (timeline_ext (λ _, None)). }
  unfold in_order in Hord. rewrite fmap_app in Hord. apply StronglySorted_app in Hord as (Hle & Hord & _).
  rewrite Forall_app, list.Forall_singleton in Hts, Hval.
  destruct Hts as [Hts Ht'], Hval as [Hval Hv']. cbn in Ht', Hv', Hle.
  assert (Forall (λ op, op.1 <= t') ops) as Hle'.
  { apply list.Forall_forall. intros [t0 c0] Hc0. apply Hle; [|by left].
    apply list_elem_of_fmap. by exists (t0, c0). }
  destruct (IH t') as (st & Hst & Hiv); [lia|done| |done|].
  { rewrite list.Forall_forall in Hts, Hle'. apply list.Forall_forall. intros c Hc.
    split; [by apply Hts|by apply Hle']. }
  destruct (fault_op_view n _ t' t' op _ _ st (conj (proj1 Ht') (Z.le_refl t')) Hn Hv' Hiv)
    as (st' & Hst' & Hiv').
  exists st'. split.
  { unfold fault_ops in *. by rewrite foldl_app, Hst. }
  rewrite stray_clears_snoc, <-(status_at_all n ops t') by done.
  assert (∀ tau, t' <= tau → status_at n ops tau = status_at n ops t') as Hall.
  { intros tau Htau. rewrite !status_at_all; [done|done|].
    eapply list.Forall_impl; [done|]. cbn. lia. }
  rewrite status_at_snoc, decide_True, (Hall t) by lia.
  apply (in_view_ext _ (shown_after (λ tau, shown n (status_at n ops tau)) n t'
    (status_op n (status_at n ops t') op))).
  { intros tau. unfold shown_after. rewrite status_at_snoc. destruct (decide (t' <= tau)); [|done].
    by rewrite (Hall tau). }
  destruct Hiv' as [? ? ? Htl Hnow ?]. split; try done; [eapply timeline_later; [|done]; lia|].
  intros tau Htau. apply Hnow. lia.
Qed.

(** Finishing adds no annotation without a text. *)
Lemma finalize_blanks visit t an :
  (∀ m, visit m ≡ₚ map_to_list m) →
  (∀ c, continuous an !! TAG_PARTITION = Some c → c_desp c ≠ "") →
  blanks (finalize visit t an).2 = blanks (annotations an).
Proof.
  intros Hvis Hlive. unfold finalize, blanks. cbn. rewrite list.filter_app.
  assert (filter (λ a, v_Tag a = TAG_PARTITION ∧ v_Description a = "")
    ((λ p : string * Continuous, concretize p.1 p.2 t) <$> visit (continuous an)) = []) as ->;
    [|by rewrite app_nil_r].
  destruct (filter _ _) as [|a l] eqn:Hfilter; [done|]. exfalso.
  assert (a ∈ a :: l) as Ha by left. rewrite <-Hfilter in Ha.
  apply list_elem_of_filter in Ha as [[Htag Hd] ([tag c] & -> & Hc)%list_elem_of_fmap].
  rewrite Hvis in Hc. apply elem_of_map_to_list in Hc. cbn in *. subst. by eapply Hlive.
Qed.

(** C40: Whatever crashes, restarts, disconnections, reconnections, divisions of
    the network in two, clearings and other annotations a test makes on its [n]
    servers, in the order of time and with indices in range, no annotation
    function panics, and the finished picture shows on the failure tag, at every
    moment before its end, the text of the division that is in force, else of
    the servers that are cut off, connected and crashed at that moment, and no
    text when all is well: the tests for an unchanged state never leave a stale
    or missing text.  Besides, the tag has one annotation without a text for each
    clearing while none was shown, from time 0 to that clearing, and no other. *)
Theorem fault_timeline visit desp n t0 st0 ops t t2 endtext :
  (∀ m, visit m ≡ₚ map_to_list m) → 0 <= n → 0 <= t0 → 0 <= t → 0 <= t2 →
  in_order ops.*1 → Forall (λ op, 0 <= op.1 <= t) ops → Forall (λ op, valid_op n op.2) ops →
  ∃ st, fault_ops ops (AnnotateTest desp n t0 st0) = Some st ∧
    let l := (FinalizeAnnotations visit endtext t t2 st).2 in
    (∀ tau text, tau < t →
      drawn l TAG_PARTITION tau text ↔ shown n (status_at n ops tau) = Some text) ∧
    blanks l = stray <$> stray_clears n (healthy n) ops.
Proof.
  intros Hvis Hn Ht0 Ht Ht2 Hord Hts Hval.
  destruct (fault_ops_view n ops t _ (test_view desp n t0 st0 Hn Ht0) Hn Ht Hord Hts Hval)
    as (st & Hst & Hiv).
  pose proof (in_view_continuous _ _ _ t _ _ _ (Z.le_refl t) Hiv) as [_ Hlive].
  destruct Hiv as [_ _ _ Htl _ Hbl].
  exists st. split; [done|]. unfold FinalizeAnnotations. cbn [annotation finfo finalize snd]. split.
  - intros tau text Htau. unfold info_point. rewrite drawn_point by done.
    etransitivity; [apply (finalize_drawn visit t); [done..|apply Htl]|].
    rewrite (tl_shows _ _ _ _ Htl).
    split; [by intros [_ ?]|]. intros Htext. split; [by eapply shown_nonempty|done].
  - fold (blanks ((annotations (annotation st) ++
      ((λ p : string * Continuous, concretize p.1 p.2 t) <$> visit (continuous (annotation st)))) ++
      [info_point endtext t2])).
    rewrite blanks_snoc by (by left). rewrite <-(finalize_blanks visit t _ Hvis Hlive) in Hbl. exact Hbl.
Qed.

Definition demo_ops : list (Z * FaultOp) :=
  [(1, FShutdown [0; 2]); (2, FConnection [true; false; true]); (3, FRestart [0]); (4, FShutdown [2]);
   (5, FClearFailure); (6, FTwoPartitions [0; 1] [2]); (7, FClearFailure); (8, FClearFailure);
   (9, FShutdownAll); (10, FRestartAll)].

Lemma fault_timeline_witness :
  shown 3 (status_at 3 demo_ops 4) = Some "partition = [1] [0] / crash = [2]" ∧
  shown 3 (status_at 3 demo_ops 6) = Some "partition = [0 1] [2]" ∧
  shown 3 (status_at 3 demo_ops 10) = None ∧ stray_clears 3 (healthy 3) demo_ops = [8] ∧
  ∃ st, fault_ops demo_ops (AnnotateTest "Test" 3 0 (MkAnnState mkAnnotation None)) = Some st ∧
    let l := (FinalizeAnnotations map_to_list "test passed" 12 12 st).2 in
    (∀ tau text, tau < 12 →
      drawn l TAG_PARTITION tau text ↔ shown 3 (status_at 3 demo_ops tau) = Some text) ∧
    blanks l = stray <$> stray_clears 3 (healthy 3) demo_ops.
Proof.
  split; [vm_compute; reflexivity|]. split; [vm_compute; reflexivity|].
  split; [vm_compute; reflexivity|]. split; [vm_compute; reflexivity|].
  apply fault_timeline; [done|lia..| | |]; unfold in_order; repeat constructor; cbn; lia.
Defined.
