(* ===== verification/Rsm.v ===== *)
(** * The replicated state machine and its test

    [src/src/kvraft1/rsm]: the interface a replicated server implements
    ([rsm.go]), the counter server of the test ([server.go]), the calls the tester
    makes to it ([proxy.go]) and the loops of the test ([test.go]).  [RSM.Submit]
    is a stub that refuses every request; the test is modelled over whatever the
    servers answer. *)
From S2P Require Import Prelude Rpc Persister Raft GobString LabRpc.

(** ** The interface of rsm.go

    What [StateMachine] promises to the package that replicates it.  [None] is a
    server that stops in [log.Fatalf]. *)
Class StateMachine (S Req Rep : Type) := {
  DoOp : Req → S → option (S * Rep);
  Snapshot : S → bytes;
  Restore : bytes → S → option S;
}.

(** What makes replication of such a server sound.  [same] is what the commands
    can tell apart; a snapshot restores the state it was taken of, up to it,
    whatever was there before. *)
Class StateMachineLaws (S Req Rep : Type) `{!StateMachine S Req Rep} := {
  same : S → S → Prop;
  same_equiv :: Equivalence same;
  DoOp_same req s s' : same s s' →
    option_Forall2 (λ a b, same a.1 b.1 ∧ a.2 = b.2) (DoOp req s) (DoOp req s');
  restore_snapshot s s0 : ∃ s', Restore (Snapshot s) s0 = Some s' ∧ same s' s;
}.

(** The commands of a log executed one after the other, with the replies. *)
Fixpoint DoOps {S Req Rep : Type} `{!StateMachine S Req Rep} (reqs : list Req) (s : S)
    : option (S * list Rep) :=
  match reqs with
  | [] => Some (s, [])
  | req :: reqs =>
      '(s, rep) ← DoOp req s; '(s, reps) ← DoOps reqs s; Some (s, rep :: reps)
  end.

(** [Submit] refuses: the body is left to be written. *)
Definition RSM_Submit {Req Rep : Type} (req : Req) : Err * option Rep := (ErrWrongLeader, None).

(** ** The counter of server.go *)

Inductive Req := Inc | Null | Dec.
Inductive Rep := IncRep (N : Z) | NullRep.

#[export] Instance Req_eq_dec : EqDecision Req.
Proof. solve_decision. Defined.

Record rsmSrv := MkRsmSrv { srv_me : Z; counter : Z }.

Section Counter.
Context {Cmd : Type} `{!Gob Cmd}.

Definition GetCounter (rs : rsmSrv) : Z := counter rs.

Definition rsm_DoOp (req : Req) (rs : rsmSrv) : option (rsmSrv * Rep) :=
  match req with
  | Inc =>
      let rs := MkRsmSrv (srv_me rs) (i64 (counter rs + 1)) in Some (rs, IncRep (counter rs))
  | Null => Some (rs, NullRep)
  | Dec => None
  end.

Definition rsm_Snapshot (rs : rsmSrv) : bytes := gob_encode [GobInt (counter rs)].

Definition rsm_Restore (data : bytes) (rs : rsmSrv) : option rsmSrv :=
  match gob_decode data with
  | GobInt c :: _ => Some (MkRsmSrv (srv_me rs) c)
  | _ => None
  end.

#[export] Instance rsmSrv_machine : StateMachine rsmSrv Req Rep := {
  DoOp := rsm_DoOp; Snapshot := rsm_Snapshot; Restore := rsm_Restore;
}.
End Counter.

(** *** RPCs of the tester *)

Record SubmitArgs := MkSubmitArgs { sa_Req : Req }.
Record SubmitReply := MkSubmitReply { sr_Err : Err; sr_Rep : option Rep }.
Record GetCounterReply := MkCounterReply { Count : Z }.

Definition SubmitRPC (submit : Req → Err * option Rep) (args : SubmitArgs) : SubmitReply :=
  let '(err, rep) := submit (sa_Req args) in MkSubmitReply err rep.

Definition GetCounterRPC (rs : rsmSrv) : GetCounterReply := MkCounterReply (GetCounter rs).

(** [proxy.go]: a call that fails leaves the reply as it was declared. *)
Definition RSMproxy_Submit (ok : bool) (submit : Req → Err * option Rep) (req : Req)
    : Err * option Rep :=
  let rep := if ok then SubmitRPC submit (MkSubmitArgs req) else MkSubmitReply "" None in
  (sr_Err rep, sr_Rep rep).

Definition RSMproxy_GetCounter (ok : bool) (rs : rsmSrv) : Z :=
  Count (if ok then GetCounterRPC rs else MkCounterReply 0).

(** ** The test *)

Definition NSRV : Z := 3.

(** A server as the test finds it: whether it is connected, and what it answers
    to the request; [None] after [Kill]. *)
Record SrvView := MkView { v_connected : bool; v_submit : option (Err * option Rep) }.

Record Test := MkTest { leader : Z; nops : Z }.

(** [None] is the nil slice. *)
Definition inPartition (s : Z) (p : option (list Z)) : bool :=
  match p with
  | None => true
  | Some l => existsb (λ i, bool_decide (s = i)) l
  end.

(** One iteration of the inner loop: the reply to return, if any. *)
Definition try_server (p : option (list Z)) (view : Z → SrvView) (index : Z) : option (option Rep) :=
  if decide (index ≠ -1) then
    if v_connected (view index) then
      match v_submit (view index) with
      | Some (err, rep) =>
          if inPartition index p then if decide (err = OK) then Some rep else None else None
      | None => None
      end
    else None
  else None.

(** What a pass over the servers, or the whole loop, comes to. *)
Inductive Tried := Found (index : Z) (rep : option Rep) | NotFound | FatalIndex (index : Z).

Fixpoint one_pass (k : nat) (nsrv : Z) (p : option (list Z)) (view : Z → SrvView) (index : Z) : Tried :=
  match k with
  | O => NotFound
  | S k =>
      if decide (index >= NSRV) then FatalIndex index
      else match try_server p view index with
           | Some rep => Found index rep
           | None => one_pass k nsrv p view ((index + 1) `rem` nsrv)
           end
  end.

(** [rounds] are the passes that fit into the ten seconds, each with the
    leader and the servers it finds. *)
Fixpoint onePartition_loop (nsrv : Z) (p : option (list Z)) (rounds : list (Z * (Z → SrvView))) : Tried :=
  match rounds with
  | [] => NotFound
  | (lead, view) :: rounds =>
      match one_pass (Z.to_nat nsrv) nsrv p view lead with
      | NotFound => onePartition_loop nsrv p rounds
      | r => r
      end
  end.

(** The state of the test after, and the reply; the outer [None] is [Fatalf]. *)
Definition onePartition (p : option (list Z)) (rounds : list (Z * (Z → SrvView))) (ts : Test)
    : option (Test * option Rep) :=
  match onePartition_loop NSRV p rounds with
  | Found index rep => Some (MkTest index (nops ts + 1), rep)
  | NotFound => Some (ts, None)
  | FatalIndex _ => None
  end.

(** The type assertions: [None] is a panic on a reply of another type. *)
Definition as_IncRep (rep : option Rep) : option Z :=
  match rep with None => Some 0 | Some (IncRep n) => Some n | Some NullRep => None end.

Definition as_NullRep (rep : option Rep) : option unit :=
  match rep with None | Some NullRep => Some () | Some (IncRep _) => None end.

Definition oneInc (rounds : list (Z * (Z → SrvView))) (ts : Test) : option (Test * Z) :=
  '(ts, rep) ← onePartition None rounds ts; n ← as_IncRep rep; Some (ts, n).

Definition oneNull (rounds : list (Z * (Z → SrvView))) (ts : Test) : option (Test * unit) :=
  '(ts, rep) ← onePartition None rounds ts; u ← as_NullRep rep; Some (ts, u).

(** The counters the servers answer; [None] is a nil server. *)
Definition countValue (v : Z) (srvs : list (option Z)) : option Z :=
  foldl (λ i s, i ← i; c ← s; Some (if decide (c = v) then i + 1 else i)) (Some 0) srvs.

(** The time between two polls, in milliseconds. *)
Definition next_wait (to : Z) : Z := if decide (to < 1000) then to * 2 else to.

(** [checkCounter]: what the polls of the servers find, by the number of polls
    made; [iters] polls are left.  The result is whether it found the value and
    how long it slept; [None] is the panic on a nil server. *)
Fixpoint checkCounter_loop (v nsrv to : Z) (poll : nat → list (option Z)) (i iters : nat)
    : option (bool * Z) :=
  match iters with
  | O => Some (false, 0)
  | S iters =>
      n ← countValue v (poll i);
      if decide (n >= nsrv) then Some (true, 0)
      else '(ok, slept) ← checkCounter_loop v nsrv (next_wait to) poll (S i) iters;
           Some (ok, to + slept)
  end.

Definition checkCounter (v nsrv : Z) (poll : nat → list (option Z)) : option (bool * Z) :=
  checkCounter_loop v nsrv 10 poll 0 30.
