(* ===== verification/RsmTheorems.v ===== *)
(** * Theorems on the replicated state machine and its test

    A replica that is restored from a snapshot in the middle of a log is as good
    as one that executed all of it ([restored_replica], over the interface of
    [rsm.go]); the counter server meets the interface and counts increments; the
    loop of the test asks each server once per pass. *)
From S2P Require Import Prelude Rpc Persister Raft GobString LabRpc Rsm.

(** ** Any replicated server *)

Section Machine.
Context {S Req Rep : Type} `{!StateMachine S Req Rep, !StateMachineLaws S Req Rep}.
Implicit Types (s : S) (reqs : list Req).

Lemma DoOps_app reqs1 reqs2 s :
  DoOps (reqs1 ++ reqs2) s =
  '(s, r1) ← DoOps reqs1 s; '(s, r2) ← DoOps reqs2 s; Some (s, r1 ++ r2).
Proof.
  revert s. induction reqs1 as [|r reqs1 IH]; intros s; simpl.
  - by destruct (DoOps reqs2 s) as [[??]|].
  - destruct (DoOp r s) as [[s1 rep]|]; [|done]. simpl. rewrite IH.
    destruct (DoOps reqs1 s1) as [[s2 r1]|]; [|done]. simpl.
    by destruct (DoOps reqs2 s2) as [[??]|].
Qed.

Lemma DoOps_same reqs s s' :
  same s s' →
  option_Forall2 (λ a b, same a.1 b.1 ∧ a.2 = b.2) (DoOps reqs s) (DoOps reqs s').
Proof.
  revert s s'. induction reqs as [|r reqs IH]; intros s s' Hs; simpl; [by repeat constructor|].
  destruct (DoOp_same r s s' Hs) as [[s1 rep] [s1' rep'] [H1 H2]|]; simpl in *; [|constructor].
  destruct (IH _ _ H1) as [[??] [??] [??]|]; simpl in *; constructor; simpl; naive_solver.
Qed.

Lemma restored_replica reqs1 reqs2 s s1 reps1 s0 :
  DoOps reqs1 s = Some (s1, reps1) →
  ∃ s2, Restore (Snapshot s1) s0 = Some s2 ∧
    option_Forall2 (λ a b, same a.1 b.1 ∧ a.2 = reps1 ++ b.2)
      (DoOps (reqs1 ++ reqs2) s) (DoOps reqs2 s2).
Proof.
  intros H1. destruct (restore_snapshot s1 s0) as (s2 & Hr & Hs).
  exists s2. split; [done|]. rewrite DoOps_app, H1. simpl.
  destruct (DoOps_same reqs2 s1 s2 (symmetry Hs)) as [[??] [??] [??]|]; simpl in *;
    constructor; simpl; naive_solver.
Qed.
End Machine.

(** ** The counter *)

Section Counter.
Context {Cmd : Type} `{!Gob Cmd, !GobLaws Cmd}.

#[export] Instance rsmSrv_laws : StateMachineLaws rsmSrv Req Rep.
Proof.
  refine {| same s s' := counter s = counter s' |}.
  - split; red; congruence.
  - intros [] [m c] [m' c'] H; simpl in *; subst; by repeat constructor.
  - intros [m c] s0. eexists. split; [by unfold Restore, rsmSrv_machine, rsm_Restore, Snapshot,
      rsm_Snapshot; rewrite gob_roundtrip|done].
Defined.

(** How many increments a log has. *)
Fixpoint incs (reqs : list Req) : Z :=
  match reqs with
  | [] => 0
  | Inc :: reqs => 1 + incs reqs
  | _ :: reqs => incs reqs
  end.

(** What the command at position [k] of a log is answered, from a counter [c]. *)
Definition log_reply (c : Z) (reqs : list Req) (k : nat) : option Rep :=
  match reqs !! k with
  | Some Inc => Some (IncRep (i64 (c + incs (take (S k) reqs))))
  | Some Null => Some NullRep
  | _ => None
  end.

Lemma i64_add a b : i64 (i64 a + b) = i64 (a + b).
Proof.
  unfold i64. f_equal.
  replace ((a + 2 ^ 63) mod 2 ^ 64 - 2 ^ 63 + b + 2 ^ 63) with ((a + 2 ^ 63) mod 2 ^ 64 + b) by lia.
  rewrite Z.add_mod_idemp_l by lia. f_equal. lia.
Qed.

(** A log with a [Dec] stops the server. *)
Lemma counter_stops reqs rs : Dec ∈ reqs → DoOps reqs rs = None.
Proof.
  intros Hd. revert rs. induction reqs as [|r reqs IH]; intros rs; [by apply not_elem_of_nil in Hd|].
  apply elem_of_cons in Hd as [<-|Hd]; [done|]. destruct r; [| |done]; simpl; by rewrite IH.
Qed.

(** The state and the replies after any other. *)
Lemma counter_run reqs rs :
  Dec ∉ reqs → i64 (counter rs) = counter rs →
  ∃ reps, DoOps reqs rs = Some (MkRsmSrv (srv_me rs) (i64 (counter rs + incs reqs)), reps) ∧
    ∀ k, reps !! k = log_reply (counter rs) reqs k.
Proof.
  revert rs. induction reqs as [|r reqs IH]; intros [me c] Hd Hc; simpl in *.
  { exists []. by rewrite Z.add_0_r, Hc. }
  apply not_elem_of_cons in Hd as [Hr Hd]. destruct r; [| |done]; simpl.
  - destruct (IH (MkRsmSrv me (i64 (c + 1))) Hd) as (reps & Hrun & Hreps); simpl in *.
    { rewrite <- (Z.add_0_r (i64 (c + 1))) at 1. by rewrite i64_add, Z.add_0_r. }
    rewrite Hrun. simpl. eexists. split; [by rewrite i64_add, <- Z.add_assoc|].
    intros [|k]; [done|]. simpl. rewrite Hreps. unfold log_reply. simpl.
    destruct (reqs !! k) as [[]|]; [|done..]. by rewrite i64_add, <- Z.add_assoc.
  - destruct (IH (MkRsmSrv me c) Hd Hc) as (reps & Hrun & Hreps); simpl in *.
    rewrite Hrun. simpl. eexists. split; [done|].
    intros [|k]; [done|]. simpl. by rewrite Hreps.
Qed.
Lemma DoOps_me reqs rs rs' reps : DoOps reqs rs = Some (rs', reps) → srv_me rs' = srv_me rs.
Proof.
  revert rs rs' reps. induction reqs as [|[] reqs IH]; intros rs rs' reps H; simpl in H; simplify_eq;
    [done|..]; destruct (DoOps _ _) as [[s r]|] eqn:E in H; simplify_eq/=; by apply IH in E.
Qed.

(** Replicas of the counter of [server.go] agree.  A server that executed the
    first part of a log with [DoOp] and took a [Snapshot], and any other server
    that [Restore]s it, whatever it had counted before, and executes the rest:
    together they give every increment of the log the number of increments up to
    and with it (as an [int]), every null command its empty reply, the second
    ends with the count of the whole log and keeps its own index; a command of
    another type stops the server. *)
Theorem counter_replicas reqs1 reqs2 (rs rs0 : rsmSrv) :
  i64 (counter rs) = counter rs →
  (Dec ∈ reqs1 → DoOps reqs1 rs = None) ∧
  (Dec ∉ reqs1 ++ reqs2 →
   ∃ s1 r1 s2 r2 s3,
     DoOps reqs1 rs = Some (s1, r1) ∧ Restore (Snapshot s1) rs0 = Some s2 ∧
     DoOps reqs2 s2 = Some (s3, r2) ∧
     counter s3 = i64 (counter rs + incs (reqs1 ++ reqs2)) ∧ srv_me s3 = srv_me rs0 ∧
     ∀ k, (r1 ++ r2) !! k = log_reply (counter rs) (reqs1 ++ reqs2) k).
Proof.
  intros Hc. split; [apply counter_stops|]. intros Hd.
  destruct (counter_run reqs1 rs) as (r1 & H1 & _); [set_solver|done|].
  destruct (counter_run (reqs1 ++ reqs2) rs) as (r & Hall & Hr); [done|done|].
  destruct (restored_replica reqs1 reqs2 _ _ _ rs0 H1) as (s2 & Hs2 & Heq).
  rewrite Hall in Heq. destruct (DoOps reqs2 s2) as [[s3 r2]|] eqn:E; [|by inversion Heq].
  assert (Hsame := Heq). inversion Hsame as [a b [Hs Hreps]|]; simpl in *; subst.
  eexists _, r1, s2, r2, s3. split_and!; try done.
  apply DoOps_me in E. rewrite E. revert Hs2.
  unfold rsm_Restore. case_match; [done|]. case_match; try done. by intros [= <-].
Qed.
End Counter.

(** ** The loop of the test *)

(** A server that is there, in the partition, and executes the request. *)
Definition accepts (p : option (list Z)) (view : Z → SrvView) (i : Z) (rep : option Rep) : Prop :=
  v_connected (view i) = true ∧ v_submit (view i) = Some (OK, rep) ∧ inPartition i p = true.

Lemma try_server_ok p view i rep :
  try_server p view i = Some rep ↔ i ≠ -1 ∧ accepts p view i rep.
Proof.
  unfold try_server, accepts. destruct (decide (i ≠ -1)); [|naive_solver].
  destruct (v_connected _); [|naive_solver]. destruct (v_submit _) as [[err r]|]; [|naive_solver].
  destruct (inPartition _ _); [|naive_solver]. destruct (decide (err = OK)); naive_solver.
Qed.

Lemma try_server_none p view i :
  try_server p view i = None → 0 <= i → ∀ rep, ¬ accepts p view i rep.
Proof.
  intros Hn Hi rep Ha. assert (try_server p view i = Some rep); [|congruence].
  apply try_server_ok. split; [lia|done].
Qed.

Lemma one_pass_S k nsrv p view i :
  i < NSRV →
  one_pass (S k) nsrv p view i =
  match try_server p view i with
  | Some rep => Found i rep
  | None => one_pass k nsrv p view ((i + 1) `rem` nsrv)
  end.
Proof. intros Hi. simpl. by rewrite decide_False by lia. Qed.

(** What a pass comes to, from a leader that is one of the servers. *)
Lemma one_pass_spec p view lead :
  0 <= lead < NSRV →
  match one_pass (Z.to_nat NSRV) NSRV p view lead with
  | Found i rep =>
      0 <= i < NSRV ∧ accepts p view i rep ∧
      ∀ j, 0 <= j < NSRV → (j - lead) mod NSRV < (i - lead) mod NSRV → ∀ rep, ¬ accepts p view j rep
  | NotFound => ∀ j, 0 <= j < NSRV → ∀ rep, ¬ accepts p view j rep
  | FatalIndex _ => False
  end.
Proof.
  assert (Hj : ∀ j, 0 <= j < NSRV → j = 0 ∨ j = 1 ∨ j = 2) by (unfold NSRV; lia).
  intros Hl. change (Z.to_nat NSRV) with 3%nat.
  destruct (Hj _ Hl) as [->|[->| ->]];
    rewrite !one_pass_S by done; repeat change ((0 + 1) `rem` NSRV) with 1;
    repeat change ((1 + 1) `rem` NSRV) with 2; repeat change ((2 + 1) `rem` NSRV) with 0;
    repeat change ((0 + 1) `rem` NSRV) with 1; cbn [one_pass];
    repeat (match goal with |- context [try_server p view ?i] =>
      destruct (try_server p view i) eqn:? end);
    repeat match goal with
      | H : try_server p view _ = None |- _ =>
          pose proof (try_server_none _ _ _ H ltac:(lia)); clear H
      | H : try_server p view _ = Some _ |- _ => apply try_server_ok in H as [_ H]
      end.
  all: try (refine (conj _ (conj _ _)); [by unfold NSRV; lia|done|]).
  all: intros j Hj'; destruct (Hj _ Hj') as [->|[->| ->]]; [..].
  all: first [done|intros Hlt; vm_compute in Hlt; first [discriminate|by eauto]].
Qed.

(** When no server accepts, the loop ends without a reply. *)
Lemma onePartition_none p rounds :
  Forall (λ r, 0 <= r.1 < NSRV) rounds →
  (∀ r j rep, r ∈ rounds → 0 <= j < NSRV → ¬ accepts p r.2 j rep) →
  onePartition_loop NSRV p rounds = NotFound.
Proof.
  induction 1 as [|[lead view] rounds Hl _ IH]; intros Hn; [done|]. cbn [onePartition_loop].
  pose proof (one_pass_spec p view lead Hl) as Hp.
  destruct (one_pass _ _ _ _ _) as [i rep| |]; [|apply IH; set_solver|done].
  destruct Hp as (Hi & Ha & _). destruct (Hn (lead, view) i rep); [by left|done|done].
Qed.

(** [onePartition] finds the leader.  When the leader it remembers is one of
    the servers it never stops on an index: either it returns the reply of a
    server that is connected, alive, in the partition and answered [OK], which it
    counts once and remembers as the leader, and then no server did so in an
    earlier pass nor before it in this one, in the order that starts with the
    remembered leader and wraps around; or it gives up with no reply and an
    unchanged state, and then no server did in any of the passes. *)
Theorem onePartition_spec p rounds ts :
  Forall (λ r, 0 <= r.1 < NSRV) rounds →
  (∃ n lead view i rep,
     onePartition p rounds ts = Some (MkTest i (nops ts + 1), rep) ∧
     rounds !! n = Some (lead, view) ∧ 0 <= i < NSRV ∧ accepts p view i rep ∧
     (∀ m r j rep', (m < n)%nat → rounds !! m = Some r → 0 <= j < NSRV → ¬ accepts p r.2 j rep') ∧
     (∀ j rep', 0 <= j < NSRV → (j - lead) mod NSRV < (i - lead) mod NSRV → ¬ accepts p view j rep')) ∨
  (onePartition p rounds ts = Some (ts, None) ∧
     ∀ r j rep', r ∈ rounds → 0 <= j < NSRV → ¬ accepts p r.2 j rep').
Proof.
  intros Hr. unfold onePartition. induction Hr as [|[lead view] rounds Hl _ IH].
  { right. split; [done|]. by intros ? ? ? []%not_elem_of_nil. }
  cbn [onePartition_loop]. pose proof (one_pass_spec p view lead Hl) as Hp.
  destruct (one_pass _ _ _ _ _) as [i rep| |]; [| |done].
  - left. destruct Hp as (Hi & Ha & Hb). exists 0%nat, lead, view, i, rep.
    refine (conj eq_refl (conj eq_refl (conj Hi (conj Ha (conj _ _))))); [lia|by eauto].
  - destruct IH as [(n & l & v & i & rep & -> & Hn & Hi & Ha & Hb & Hc)|[-> Hb]].
    + left. exists (S n), l, v, i, rep.
      refine (conj eq_refl (conj Hn (conj Hi (conj Ha (conj _ Hc))))).
      intros [|m] r j rep' Hm; simpl; [intros [= <-]; eauto|]. apply Hb. lia.
    + right. split; [done|]. intros r j rep' [->|Hr]%elem_of_cons; [by eauto|by apply Hb].
Qed.

(** [waits k to]: how long the checker sleeps between [k + 1] polls. *)
Fixpoint waits (k : nat) (to : Z) : Z :=
  match k with O => 0 | S k => to + waits k (next_wait to) end.

Lemma countValue_spec v srvs n :
  countValue v srvs = Some n ↔
  Forall is_Some srvs ∧ n = len (filter (λ s, s = Some v) srvs).
Proof.
  unfold countValue. assert (∀ i, foldl (λ i s, i ← i; c ← s;
    Some (if decide (c = v) then i + 1 else i)) (Some i) srvs = Some n ↔
    Forall is_Some srvs ∧ n = i + len (filter (λ s, s = Some v) srvs)) as H; [|by rewrite H].
  induction srvs as [|[c|] srvs IH]; intros i; cbn [foldl].
  - unfold len. simpl. split; [intros [= ->]; split; [constructor|lia]|intros [_ ->]; f_equal; lia].
  - cbn [mbind option_bind]. rewrite list.filter_cons, list.Forall_cons. destruct (decide (c = v)) as [->|Hc].
    + rewrite IH, decide_True, len_cons by done. split; [intros [? ->]|intros [[_ ?] ->]];
        (split; [by eauto|lia]).
    + rewrite IH, decide_False by congruence. split; [intros [? ->]|intros [[_ ?] ->]]; by eauto.
  - cbn [mbind option_bind]. rewrite list.Forall_cons.
    transitivity False; [|split; [done|intros [[[? [=]] _] _]]].
    split; [|done]. clear IH. by induction srvs.
Qed.

(** What [checkCounter] does, by its polls: [None] when it meets a nil server. *)
Lemma checkCounter_loop_spec v nsrv poll iters i to ok slept :
  checkCounter_loop v nsrv to poll i iters = Some (ok, slept) →
  ∃ k, (k <= iters)%nat ∧ slept = waits k to ∧
    (∀ j, (j < k)%nat → ∃ n, countValue v (poll (i + j)%nat) = Some n ∧ n < nsrv) ∧
    (if ok then (k < iters)%nat ∧ ∃ n, countValue v (poll (i + k)%nat) = Some n ∧ nsrv <= n
     else k = iters).
Proof.
  revert i to slept. induction iters as [|iters IH]; intros i to slept H.
  { simpl in H. simplify_eq. exists 0%nat. by split_and!; [|done|lia|]. }
  cbn [checkCounter_loop] in H. destruct (countValue v (poll i)) as [n|] eqn:En; [|done].
  cbn [mbind option_bind] in H. destruct (decide (n >= nsrv)).
  { simplify_eq. exists 0%nat. rewrite Nat.add_0_r. split_and!; [lia|done|lia|lia|]. exists n. split; [done|lia]. }
  destruct (checkCounter_loop _ _ _ _ _ _) as [[ok' slept']|] eqn:El in H; [|done]. simplify_eq/=.
  destruct (IH _ _ _ El) as (k & Hk & -> & Hfew & Hok). exists (S k).
  split_and!; [lia|done| |].
  - intros [|j] Hj; [rewrite Nat.add_0_r; exists n; split; [done|lia]|].
    rewrite <- Nat.add_succ_comm. apply Hfew. lia.
  - rewrite <- Nat.add_succ_comm. destruct ok; [split; [lia|apply Hok]|lia].
Qed.

Lemma waits_30 k : (k <= 30)%nat → 0 <= waits k 10 <= 30710.
Proof.
  intros Hk. assert (forallb (λ k, bool_decide (0 <= waits k 10 <= 30710)) (seq 0 31) = true) as H
    by by vm_compute.
  rewrite forallb_forall in H. specialize (H k). rewrite bool_decide_eq_true in H.
  apply H, in_seq. lia.
Qed.

(** [checkCounter] passes exactly when at some poll at least [nsrv] of the
    servers answer the value, and no earlier poll did; it fails after thirty
    polls that did not; in both cases it waited between the polls for 10 ms at
    first, doubling up to more than a second, for 30.71 s in all at most. *)
Theorem checkCounter_spec v nsrv poll ok slept :
  checkCounter v nsrv poll = Some (ok, slept) →
  ∃ k, slept = waits k 10 ∧ 0 <= slept <= 30710 ∧ (k <= 30)%nat ∧
    (∀ j, (j < k)%nat →
       Forall is_Some (poll j) ∧ len (filter (λ s, s = Some v) (poll j)) < nsrv) ∧
    (if ok then (k < 30)%nat ∧ Forall is_Some (poll k) ∧ nsrv <= len (filter (λ s, s = Some v) (poll k))
     else k = 30%nat).
Proof.
  intros (k & Hk & -> & Hfew & Hok)%checkCounter_loop_spec. exists k. split_and!; try done;
    [by apply waits_30..| |].
  - intros j Hj. destruct (Hfew j Hj) as (n & [? ->]%countValue_spec & Hn). done.
  - destruct ok; [|done]. destruct Hok as [? (n & [? ->]%countValue_spec & Hn)]. done.
Qed.

(** [Submit] as it stands refuses everything, so the test always gives up, and
    the first increment of each test counts zero. *)
Lemma oneInc_stub rounds ts :
  Forall (λ r, 0 <= r.1 < NSRV) rounds →
  (∀ r j, r ∈ rounds → v_submit (r.2 j) = None ∨ v_submit (r.2 j) = Some (RSM_Submit Inc)) →
  oneInc rounds ts = Some (ts, 0).
Proof.
  intros Hl Hs. unfold oneInc.
  unfold onePartition. rewrite onePartition_none; [done|done|].
  intros r j rep Hr _ (_ & Ha & _). by destruct (Hs r j Hr) as [H|H]; rewrite H in Ha.
Qed.

(** ** The properties on a run *)

(** Three servers, the first of which is the leader and has counted to four. *)
Definition three_servers : Z → SrvView := λ i,
  MkView true (Some (if decide (i = 0) then (OK, Some (IncRep 5)) else RSM_Submit Inc)).

Lemma onePartition_spec_witness :
  Forall (λ r, 0 <= r.1 < NSRV) [(1, three_servers)] ∧
  onePartition None [(1, three_servers)] (MkTest 1 7) = Some (MkTest 0 8, Some (IncRep 5)) ∧
  accepts None three_servers 0 (Some (IncRep 5)).
Proof.
  assert (H : Forall (λ r : Z * (Z → SrvView), 0 <= r.1 < NSRV) [(1, three_servers)]).
  { apply list.Forall_singleton. unfold NSRV. simpl. lia. }
  split; [done|]. split; [vm_compute; reflexivity|].
  destruct (onePartition_spec None [(1, three_servers)] (MkTest 1 7) H)
    as [(n & lead & view & i & rep & E & Hn & _ & Ha & _)|[E _]]; vm_compute in E; [|discriminate].
  injection E as <- <-. destruct n as [|n]; [|discriminate]. injection Hn as _ <-. exact Ha.
Defined.

(** The second server restores what the first counted up to the snapshot. *)
Lemma counter_replicas_witness :
  i64 3 = 3 ∧ Dec ∉ [Inc; Null] ++ [Inc] ∧
  ∃ s1 r1 s2 r2 s3,
    DoOps [Inc; Null] (MkRsmSrv 0 3) = Some (s1, r1) ∧ Restore (Snapshot s1) (MkRsmSrv 1 9) = Some s2 ∧
    DoOps [Inc] s2 = Some (s3, r2) ∧ counter s3 = i64 (3 + 2) ∧ srv_me s3 = 1 ∧
    ∀ k, (r1 ++ r2) !! k = log_reply 3 ([Inc; Null] ++ [Inc]) k.
Proof.
  assert (Hd : Dec ∉ [Inc; Null] ++ [Inc]) by (apply (bool_decide_unpack _); vm_compute; exact I).
  split; [reflexivity|]. split; [exact Hd|].
  exact (proj2 (counter_replicas [Inc; Null] [Inc] (MkRsmSrv 0 3) (MkRsmSrv 1 9) eq_refl) Hd).
Defined.
