(* ===== verification/ShardTest.v ===== *)
(** * The test of the sharded store

    How [src/src/shardkv1/test.go] changes the configuration: it asks the controller
    for the current one, lets groups join or leave a copy of it, and hands the copy
    back.  The controller of [shardctrler.go] has no bodies in the repository; what
    its comments promise is the interface [ShardCtrlerLaws]. *)
From S2P Require Import Prelude Strs LabRpc Group ShardCfg.

(** ** The controller *)

(** [Query] may return nil. *)
Class ShardCtrler (S : Type) := {
  InitConfig : ShardConfig → S → S;
  ChangeConfigTo : ShardConfig → S → S;
  Query : S → option ShardConfig;
}.

(** The comments of shardctrler.go, for one controller at a time: [InitConfig] supplies the
    first configuration, [ChangeConfigTo] changes the current one to the next,
    [Query] returns the current one.  They are promises: in this repository the
    methods have no bodies and [Query] returns nil, and a controller that is
    superseded by another one in the middle of a change is left out. *)
Class ShardCtrlerLaws (S : Type) `{!ShardCtrler S} := {
  query_init c s : Query s = None → Query (InitConfig c s) = Some c;
  query_change c c0 s : Query s = Some c0 → Num c = Num c0 + 1 → Query (ChangeConfigTo c s) = Some c;
}.

(** The controller as it stands. *)
Record ShardCtrlerStub := MkStub {}.

#[export] Instance stub_controller : ShardCtrler ShardCtrlerStub := {
  InitConfig _ s := s;
  ChangeConfigTo _ s := s;
  Query _ := None;
}.

(** ** The test *)

Definition NSRV : Z := 3.

Section Test.
Context {S : Type} `{!ShardCtrler S}.
(** The iteration of the map of groups in [Copy]. *)
Context (visit : gmap Z (list string) → list (Z * list string)).

(** [ts_groups] are the groups of [tester.Groups]; how their servers start and
    stop is in [Config.v]. *)
Record Test := MkTest { ts_sck : S; ngid : Z; ts_groups : gset Z }.

Definition set_sck (sck : S) (ts : Test) : Test := MkTest sck (ngid ts) (ts_groups ts).

(** [Group(gid).SrvNames()]. *)
Definition SrvNames (gid : Z) : list string := ServerName gid <$> seqZ 0 NSRV.

Definition MakeGroupStart (gid : Z) (ts : Test) : Test :=
  MkTest (ts_sck ts) (ngid ts) ({[gid]} ∪ ts_groups ts).

(** A group that is not there is nil. *)
Definition ExitGroup (gid : Z) (ts : Test) : option Test :=
  if decide (gid ∈ ts_groups ts) then Some (MkTest (ts_sck ts) (ngid ts) (ts_groups ts ∖ {[gid]}))
  else None.

Definition newGid (ts : Test) : Z * Test := (ngid ts, MkTest (ts_sck ts) (i64 (ngid ts + 1)) (ts_groups ts)).

Fixpoint groups (n : nat) (ts : Test) : list Z * Test :=
  match n with
  | O => ([], ts)
  | Datatypes.S n => let '(g, ts) := newGid ts in let '(gs, ts) := groups n ts in (g :: gs, ts)
  end.

(** The result of [JoinBalance] is ignored; [None] is [log.Fatalf]. *)
Definition setupKVService (ts : Test) : option (Test * Z) :=
  let ts := MakeGroupStart Gid1 ts in
  match JoinBalance [(Gid1, SrvNames Gid1)] MakeShardConfig with
  | Some (Done _ scfg) => Some (set_sck (InitConfig scfg (ts_sck ts)) ts, Gid1)
  | _ => None
  end.

Definition checkMember (gid : Z) (ts : Test) : option bool :=
  cfg ← Query (ts_sck ts); Some (IsMember cfg gid).

Definition join (gid : Z) (srvs : list string) (ts : Test) : option Test :=
  cfg ← Query (ts_sck ts);
  match JoinBalance [(gid, srvs)] (Copy cfg (visit (Groups cfg))) with
  | Some (Done true newcfg) => Some (set_sck (ChangeConfigTo newcfg (ts_sck ts)) ts)
  | _ => None
  end.

Fixpoint joinGroups (gids : list Z) (ts : Test) : option (Test * bool) :=
  match gids with
  | [] => Some (ts, true)
  | gid :: gids =>
      ts ← join gid (SrvNames gid) (MakeGroupStart gid ts); ok ← checkMember gid ts;
      if negb ok then Some (ts, false) else joinGroups gids ts
  end.

Definition leave (gid : Z) (ts : Test) : option Test :=
  cfg ← Query (ts_sck ts);
  match LeaveBalance [gid] (Copy cfg (visit (Groups cfg))) with
  | Some (Done true newcfg) => Some (set_sck (ChangeConfigTo newcfg (ts_sck ts)) ts)
  | _ => None
  end.

Fixpoint leaveGroups (gids : list Z) (ts : Test) : option (Test * bool) :=
  match gids with
  | [] => Some (ts, true)
  | gid :: gids =>
      ts ← leave gid ts; ok ← checkMember gid ts;
      if ok : bool then Some (ts, false) else ts ← ExitGroup gid ts; leaveGroups gids ts
  end.
End Test.

Arguments Test : clear implicits.
Arguments MkTest {S}.
