(* ===== verification/ShardTestTheorems.v ===== *)
(** * Theorems on the test of the sharded store

    Against any controller that keeps its promises, joining groups succeeds
    exactly while every group can have a shard, and leaving undoes it. *)
From S2P Require Import Prelude Strs LabRpc Group GroupTheorems ShardCfg ShardTest.

(** ** Configurations *)

(** The configurations a controller is handed: balanced, over the groups [Groups]. *)
Definition good_config (c : ShardConfig) : Prop :=
  wf c ∧ (Groups c = ∅ ∧ Shards c = replicate (Z.to_nat NShards) 0 ∨
          assigned c ∧ a_mn (analyze c) < a_ln (analyze c) + 2).

Lemma good_check c : good_config c → CheckConfig c (sorted_groups c) = true.
Proof. intros [Hc Hb]. apply CheckConfig_ok; [done|]. naive_solver. Qed.

(** [then_rebalance] ends in the next good configuration. *)
Lemma then_rebalance_good c gs :
  wf c → ∃ c', then_rebalance (Done true (bump (set_groups c gs))) = Some (Done true c') ∧
    good_config c' ∧ Num c' = Num c + 1 ∧ Groups c' = gs.
Proof.
  intros Hc. destruct (Rebalance_ends (bump (set_groups c gs))) as (c' & Hr & Hwf & Hnum & Hgr & Hbal);
    [done|].
  exists c'. unfold then_rebalance. rewrite Hr. split; [done|]. split; [|done]. split; [done|].
  rewrite Hgr. destruct Hbal as [[Hg Hs]|Hb]; [left|by right]. split; [done|].
  rewrite Hs. cbn. f_equal. unfold wf, len in Hc. lia.
Qed.

(** Shard counts of good configurations differ by one at most. *)
Lemma good_balanced c g h :
  good_config c → is_Some (Groups c !! g) → is_Some (Groups c !! h) →
  cnt g (Shards c) <= cnt h (Shards c) + 1.
Proof.
  intros [Hc Hb] Hg Hh. destruct Hb as [[Hemp _]|[_ Hb]].
  { rewrite Hemp, lookup_empty in Hg. by destruct Hg. }
  assert (Groups c ≠ ∅) as Hne by (intros Hemp; rewrite Hemp, lookup_empty in Hg; by destruct Hg).
  destruct (analyze_spec c Hc Hne) as [(_ & _ & Hmax) (_ & _ & Hmin)].
  apply elem_of_sorted_groups in Hg. apply elem_of_sorted_groups in Hh.
  pose proof (Hmax g Hg). pose proof (Hmin h Hh). rewrite !counts_cnt in *. lia.
Qed.

Lemma cnt_NoDup l : (∀ g, cnt g l <= 1) → NoDup l.
Proof.
  induction l as [|x l IH]; intros Hc; constructor.
  - intros Hx. specialize (Hc x). rewrite cnt_cons, decide_True in Hc by done.
    apply list_elem_of_lookup in Hx as [i Hi]. assert (0 < cnt x l); [|lia].
    unfold cnt, len. apply list_elem_of_lookup_2 in Hi.
    destruct (filter (λ y, y = x) l) as [|y k] eqn:E; [|cbn; lia].
    assert (x ∈ filter (λ y, y = x) l) as Hin by (by apply list_elem_of_filter). rewrite E in Hin.
    by apply not_elem_of_nil in Hin.
  - apply IH. intros g. specialize (Hc g). rewrite cnt_cons in Hc. pose proof (cnt_nonneg g l).
    case_decide; lia.
Qed.

Lemma cnt_absent g l : g ∉ l → cnt g l = 0.
Proof.
  induction l as [|x l IH]; intros Hg; [done|]. apply not_elem_of_cons in Hg as [Hx Hg].
  rewrite cnt_cons, decide_False, IH by done. lia.
Qed.

(** With at most [NShards] groups every group serves a shard. *)
Lemma good_member c g :
  good_config c → is_Some (Groups c !! g) → Z.of_nat (size (Groups c)) <= NShards → g ∈ Shards c.
Proof.
  intros Hgood Hg Hsize. destruct (decide (g ∈ Shards c)) as [|Hn]; [done|exfalso].
  pose proof Hgood as [Hc [[Hemp _]|[Has _]]]; [rewrite Hemp, lookup_empty in Hg; by destruct Hg|].
  assert (NoDup (Shards c)) as Hnd.
  { apply cnt_NoDup. intros h. destruct (decide (h ∈ Shards c)) as [Hh|Hh].
    - pose proof (good_balanced c h g Hgood (Has h Hh) Hg). rewrite (cnt_absent g) in H by done. lia.
    - rewrite cnt_absent by done. lia. }
  assert (g :: Shards c ⊆+ sorted_groups c) as Hsub%submseteq_length.
  { apply NoDup_submseteq; [by constructor|]. intros h [->|Hh]%elem_of_cons;
      apply elem_of_sorted_groups; [done|by apply Has]. }
  pose proof (sorted_groups_len c) as Hl. unfold wf, len in *. cbn in Hsub. lia.
Qed.

Lemma cnt_perm g l l' : l ≡ₚ l' → cnt g l = cnt g l'.
Proof. intros Hp. unfold cnt, len. by rewrite Hp. Qed.

Lemma cnt_elem g l : 0 < cnt g l → g ∈ l.
Proof. intros [i Hi]%cnt_pos. by eapply list_elem_of_lookup_2. Qed.

(** With [NShards] groups or more no group has two shards. *)
Lemma good_full_cnt c g : good_config c → NShards <= Z.of_nat (size (Groups c)) → cnt g (Shards c) <= 1.
Proof.
  intros Hgood Hsize. destruct (decide (cnt g (Shards c) <= 1)) as [|Hg]; [done|exfalso].
  pose proof Hgood as [Hc [[Hemp _]|[Has _]]].
  { rewrite Hemp, map_size_empty in Hsize. unfold NShards in *. lia. }
  assert (g ∈ Shards c) as Hin by (apply cnt_elem; lia).
  pose proof Hin as [k Hk]%elem_of_Permutation.
  assert (sorted_groups c ⊆+ k) as Hsub%submseteq_length.
  { apply NoDup_submseteq; [apply sorted_groups_NoDup|]. intros h Hh%elem_of_sorted_groups.
    pose proof (good_balanced c g h Hgood (Has g Hin) Hh) as Hb.
    rewrite !(cnt_perm _ _ _ Hk), !cnt_cons in *. rewrite (decide_True (P := g = g)) in * by done.
    apply cnt_elem. destruct (decide (g = h)) as [->|]; lia. }
  pose proof (sorted_groups_len c) as Hl. apply Permutation_length in Hk. unfold wf, len in *. cbn in Hk. lia.
Qed.

(** Then a new group gets none. *)
Lemma good_full c gid srvs :
  good_config c → NShards <= Z.of_nat (size (Groups c)) → Groups c !! gid = None →
  then_rebalance (Done true (bump (set_groups c (<[gid := srvs]> (Groups c))))) =
    Some (Done true (bump (set_groups c (<[gid := srvs]> (Groups c))))) ∧
  gid ∉ Shards c.
Proof.
  intros Hgood Hsize Hnew. pose proof Hgood as [Hc Hb].
  assert (Groups c ≠ ∅) as Hne by (intros Hemp; rewrite Hemp, map_size_empty in Hsize; unfold NShards in *; lia).
  destruct Hb as [[? _]|[Has _]]; [done|].
  assert (gid ∉ Shards c) as Hgid by (intros Hin; apply Has in Hin as [? ?]; congruence).
  split; [|done]. set (d := bump (set_groups c (<[gid := srvs]> (Groups c)))).
  assert (Rebalance d = Some d) as Hr; [|unfold then_rebalance; by rewrite Hr].
  assert (assigned d) as Hasd.
  { intros h Hh. cbn. destruct (decide (h = gid)) as [->|Hn]; [rewrite lookup_insert_eq; by eexists|].
    rewrite lookup_insert_ne by done. by apply Has. }
  apply Rebalance_stable; [done|]. right. split; [done|].
  assert (Groups d ≠ ∅) as Hned by apply insert_non_empty.
  destruct (analyze_spec d Hc Hned) as [(_ & Hmn & _) (_ & Hln & _)].
  pose proof (counts_bound d (a_lg (analyze d)) Hc).
  assert (counts d (a_mg (analyze d)) <= 1); [|lia].
  rewrite counts_cnt. by apply (good_full_cnt c).
Qed.

(** [Copy] copies, whatever the order of the iteration. *)
Lemma Copy_id c order : order ≡ₚ map_to_list (Groups c) → Copy c order = c.
Proof.
  intros Hp. assert (NoDup order.*1) as Hnd by (rewrite Hp; apply NoDup_fst_map_to_list).
  assert (∀ (l : list (Z * list string)) (m : gmap Z (list string)), NoDup l.*1 →
    foldl (λ m '(k, srvs), <[k := srvs]> m) m l = list_to_map l ∪ m) as H.
  { induction l as [|[k v] l IH]; intros m; cbn [foldl fmap list_fmap fst];
      [by rewrite list_to_map_nil, (left_id_L ∅ (∪))|].
    intros [Hk Hl]%list.NoDup_cons. rewrite IH by done.
    rewrite <- insert_union_r by (by apply not_elem_of_list_to_map_1).
    by rewrite list_to_map_cons, insert_union_l. }
  unfold Copy. destruct c as [n sh gs]. cbn in *. f_equal. rewrite H, (right_id_L ∅ (∪)) by done.
  rewrite (list_to_map_proper order (map_to_list gs)) by done. apply list_to_map_to_list.
Qed.

Lemma IsMember_spec c g : IsMember c g = true ↔ g ∈ Shards c.
Proof.
  unfold IsMember. rewrite existsb_exists. setoid_rewrite bool_decide_eq_true.
  setoid_rewrite <- list_elem_of_In. naive_solver.
Qed.

(** ** The test *)

Section Test.
Context {S : Type} `{!ShardCtrler S, !ShardCtrlerLaws S}.
Context (visit : gmap Z (list string) → list (Z * list string)).
Context (visit_all : ∀ m, visit m ≡ₚ map_to_list m).
Implicit Types ts : Test S.

(** The controller holds a good configuration over the groups that run. *)
Record sh_inv ts (cfg : ShardConfig) : Prop := {
  si_query : Query (ts_sck ts) = Some cfg;
  si_good : good_config cfg;
  si_groups : dom (Groups cfg) = ts_groups ts;
  si_names g srvs : Groups cfg !! g = Some srvs → srvs = SrvNames g;
  si_nobody : 0 ∉ ts_groups ts;
}.

Lemma names_disjoint g g' : g ≠ g' → SrvNames g ## SrvNames g'.
Proof using.
  intros Hne s (i & -> & _)%list_elem_of_fmap (j & E & _)%list_elem_of_fmap.
  apply ServerName_inj in E as [? _]. done.
Qed.

Lemma si_new ts cfg g : sh_inv ts cfg → g ∉ ts_groups ts → Groups cfg !! g = None.
Proof using. intros Hi Hg. apply not_elem_of_dom. by rewrite (si_groups _ _ Hi). Qed.

Lemma si_size ts cfg : sh_inv ts cfg → size (Groups cfg) = size (ts_groups ts).
Proof using. intros Hi. rewrite <- (si_groups _ _ Hi). symmetry. apply size_dom. Qed.

Lemma join_good ts cfg g :
  sh_inv ts cfg → g ∉ ts_groups ts → g ≠ 0 →
  ∃ ts' cfg', join visit g (SrvNames g) (MakeGroupStart g ts) = Some ts' ∧ sh_inv ts' cfg' ∧
    ts_groups ts' = {[g]} ∪ ts_groups ts ∧ Num cfg' = Num cfg + 1 ∧
    IsMember cfg' g = bool_decide (Z.of_nat (size (ts_groups ts)) + 1 <= NShards).
Proof using All.
  intros Hi Hg Hg0. pose proof (si_new _ _ _ Hi Hg) as Hnew. pose proof (si_size _ _ Hi) as Hsize.
  pose proof (si_good _ _ Hi) as Hgood. destruct Hgood as [Hwf _].
  destruct (then_rebalance_good cfg (<[g := SrvNames g]> (Groups cfg)) Hwf) as (c' & Hr & Hgood' & Hnum & Hgr).
  assert (JoinBalance [(g, SrvNames g)] cfg = Some (Done true c')) as Hj.
  { unfold JoinBalance, Join, join_loop. rewrite Hnew.
    assert (shared_server cfg (SrvNames g) = false) as ->; [|done].
    apply shared_server_spec. intros h xs Hh. rewrite (si_names _ _ Hi _ _ Hh). apply names_disjoint.
    intros ->. congruence. }
  unfold join. cbn [ts_sck MakeGroupStart]. rewrite (si_query _ _ Hi). cbn [mbind option_bind].
  rewrite Copy_id, Hj by done. eexists _, c'. split; [done|]. split; [|split; [done|split; [done|]]].
  - split; [|done|..].
    + cbn. by eapply query_change; [apply Hi|].
    + rewrite Hgr, dom_insert_L. cbn. by rewrite (si_groups _ _ Hi).
    + intros h xs. rewrite Hgr. intros [[<- <-]|[_ Hh]]%lookup_insert_Some; [done|]. by apply (si_names _ _ Hi).
    + cbn. pose proof (si_nobody _ _ Hi). set_solver.
  - destruct (IsMember c' g) eqn:Hm; symmetry; [apply bool_decide_eq_true|apply bool_decide_eq_false].
    + destruct (decide (Z.of_nat (size (ts_groups ts)) + 1 <= NShards)) as [|Hfull]; [done|exfalso].
      destruct (good_full cfg g (SrvNames g) (si_good _ _ Hi)) as [Hsame Hn]; [lia|done|].
      rewrite Hr in Hsame. injection Hsame as ->. by apply IsMember_spec in Hm.
    + intros Hle. enough (IsMember c' g = true) by congruence. apply IsMember_spec, good_member; [done|..].
      * rewrite Hgr, lookup_insert_eq. by eexists.
      * rewrite Hgr, map_size_insert_None by done. lia.
Qed.

Lemma leave_good ts cfg g :
  sh_inv ts cfg → g ∈ ts_groups ts →
  ∃ ts' cfg' ts'', leave visit g ts = Some ts' ∧ checkMember g ts' = Some false ∧
    ExitGroup g ts' = Some ts'' ∧ sh_inv ts'' cfg' ∧
    ts_groups ts'' = ts_groups ts ∖ {[g]} ∧ Num cfg' = Num cfg + 1.
Proof using All.
  intros Hi Hg. pose proof (si_good _ _ Hi) as [Hwf _].
  assert (is_Some (Groups cfg !! g)) as [xs Hxs] by (apply elem_of_dom; by rewrite (si_groups _ _ Hi)).
  destruct (then_rebalance_good cfg (delete g (Groups cfg)) Hwf) as (c' & Hr & Hgood' & Hnum & Hgr).
  assert (LeaveBalance [g] cfg = Some (Done true c')) as Hl.
  { unfold LeaveBalance, Leave, leave_loop. by rewrite Hxs. }
  unfold leave. rewrite (si_query _ _ Hi). cbn [mbind option_bind]. rewrite Copy_id, Hl by done.
  assert (Query (ChangeConfigTo c' (ts_sck ts)) = Some c') as Hq by (by eapply query_change; [apply Hi|]).
  assert (IsMember c' g = false) as Hm.
  { destruct (IsMember c' g) eqn:Hm; [|done]. apply IsMember_spec in Hm.
    destruct Hgood' as [_ [[_ Hs]|[Has _]]].
    - rewrite Hs in Hm. apply elem_of_replicate in Hm as [-> _]. by destruct (si_nobody _ _ Hi).
    - apply Has in Hm as [ys Hys]. by rewrite Hgr, lookup_delete_eq in Hys. }
  eexists _, c', _. split; [done|]. unfold checkMember, ExitGroup. cbn. rewrite Hq. cbn. rewrite Hm.
  rewrite decide_True by done. split; [done|]. split; [done|]. split; [|done]. split; cbn; [done|done|..].
  - rewrite Hgr, dom_delete_L. by rewrite (si_groups _ _ Hi).
  - intros h ys. rewrite Hgr. intros [_ Hh]%lookup_delete_Some. by apply (si_names _ _ Hi).
  - pose proof (si_nobody _ _ Hi). set_solver.
Qed.

(** *** The loops *)

Lemma joinGroups_spec gids ts cfg :
  sh_inv ts cfg → NoDup gids → (∀ g, g ∈ gids → g ∉ ts_groups ts ∧ g ≠ 0) →
  ∃ ts' cfg' b, joinGroups visit gids ts = Some (ts', b) ∧ sh_inv ts' cfg' ∧
    (b = true ↔ gids = [] ∨ Z.of_nat (size (ts_groups ts)) + len gids <= NShards) ∧
    (b = true → ts_groups ts' = list_to_set gids ∪ ts_groups ts ∧ Num cfg' = Num cfg + len gids).
Proof using All.
  revert ts cfg. induction gids as [|g gids IH]; intros ts cfg Hi Hnd Hnew; cbn [joinGroups].
  { exists ts, cfg, true. split; [done|]. split; [done|]. split; [naive_solver|]. intros _. cbn.
    rewrite (left_id_L ∅ (∪)). split; [done|]. unfold len. cbn. lia. }
  apply list.NoDup_cons in Hnd as [Hg Hnd]. destruct (Hnew g) as [Hgn Hg0]; [by left|].
  destruct (join_good ts cfg g Hi Hgn Hg0) as (ts1 & c1 & -> & Hi1 & Hgr1 & Hnum1 & Hm).
  cbn [mbind option_bind]. unfold checkMember. rewrite (si_query _ _ Hi1). cbn [mbind option_bind].
  assert (size (ts_groups ts1) = (size (ts_groups ts) + 1)%nat) as Hsz.
  { rewrite Hgr1, size_union by set_solver. rewrite size_singleton. lia. }
  rewrite Hm. destruct (decide (Z.of_nat (size (ts_groups ts)) + 1 <= NShards)) as [Hle|Hgt];
    [rewrite bool_decide_true by done|rewrite bool_decide_false by done]; cbn [negb].
  - destruct (IH ts1 c1 Hi1 Hnd) as (ts' & cfg' & b & -> & Hi' & Hb & Hres).
    { intros h Hh. rewrite Hgr1. destruct (Hnew h) as [? ?]; [by right|]. set_solver. }
    exists ts', cfg', b. split; [done|]. split; [done|]. rewrite len_cons. split.
    + rewrite Hb, Hsz. destruct gids as [|h gids]; [unfold len; cbn; naive_solver lia|].
      pose proof (len_nonneg gids). split; intros [|]; try done; right; lia.
    + intros Hbt. destruct (Hres Hbt) as [-> Hn]. rewrite Hgr1. cbn. split; [set_solver|lia].
  - exists ts1, c1, false. split; [done|]. split; [done|]. split; [|done]. split; [done|].
    rewrite len_cons. pose proof (len_nonneg gids). intros [|]; [done|lia].
Qed.

Lemma leaveGroups_spec gids ts cfg :
  sh_inv ts cfg → NoDup gids → (∀ g, g ∈ gids → g ∈ ts_groups ts) →
  ∃ ts' cfg', leaveGroups visit gids ts = Some (ts', true) ∧ sh_inv ts' cfg' ∧
    ts_groups ts' = ts_groups ts ∖ list_to_set gids ∧ Num cfg' = Num cfg + len gids.
Proof using All.
  revert ts cfg. induction gids as [|g gids IH]; intros ts cfg Hi Hnd Hin; cbn [leaveGroups].
  { exists ts, cfg. split; [done|]. split; [done|]. unfold len. cbn. split; [set_solver|lia]. }
  apply list.NoDup_cons in Hnd as [Hg Hnd].
  destruct (leave_good ts cfg g Hi) as (ts1 & c1 & ts2 & -> & Hm & Hex & Hi2 & Hgr2 & Hnum2); [apply Hin; by left|].
  cbn [mbind option_bind]. rewrite Hm. cbn [mbind option_bind]. rewrite Hex. cbn [mbind option_bind].
  destruct (IH ts2 c1 Hi2 Hnd) as (ts' & cfg' & -> & Hi' & Hgr & Hnum).
  { intros h Hh. rewrite Hgr2. apply elem_of_difference. split; [apply Hin; by right|set_solver]. }
  exists ts', cfg'. split; [done|]. split; [done|]. rewrite Hgr, Hgr2, len_cons. cbn. split; [set_solver|lia].
Qed.

(** The groups that run determine the groups of the configuration. *)
Lemma si_groups_same ts cfg ts' cfg' :
  sh_inv ts cfg → sh_inv ts' cfg' → ts_groups ts = ts_groups ts' → Groups cfg = Groups cfg'.
Proof using.
  intros Hi Hi' Heq.
  assert (∀ g, is_Some (Groups cfg !! g) ↔ is_Some (Groups cfg' !! g)) as Hdom.
  { intros g. rewrite <- !elem_of_dom, (si_groups _ _ Hi), (si_groups _ _ Hi'), Heq. done. }
  apply map_eq. intros g. destruct (Groups cfg !! g) as [xs|] eqn:Hg, (Groups cfg' !! g) as [ys|] eqn:Hg'.
  - rewrite (si_names _ _ Hi _ _ Hg), (si_names _ _ Hi' _ _ Hg'). done.
  - destruct (proj1 (Hdom g)) as [? ?]; [by eexists|congruence].
  - destruct (proj2 (Hdom g)) as [? ?]; [by eexists|congruence].
  - done.
Qed.

(** C29: joining and leaving shard groups, with a controller that keeps its
    promises.  Starting fresh groups and letting them join one after the other
    never ends the test; it reports success exactly when there is a shard for
    every group afterwards.  Then the controller's configuration is the one
    [len gids] changes later over the old and the new groups, accepted by
    [CheckConfig], with a shard for every new group; and letting them leave again
    succeeds and ends with the groups there were. *)
Theorem groups_join_leave gids ts cfg :
  sh_inv ts cfg → NoDup gids → (∀ g, g ∈ gids → g ∉ ts_groups ts ∧ g ≠ 0) →
  ∃ ts1 cfg1 b,
    joinGroups visit gids ts = Some (ts1, b) ∧ sh_inv ts1 cfg1 ∧
    CheckConfig cfg1 (sorted_groups cfg1) = true ∧
    (b = true ↔ gids = [] ∨ Z.of_nat (size (ts_groups ts)) + len gids <= NShards) ∧
    (b = true →
       ts_groups ts1 = list_to_set gids ∪ ts_groups ts ∧ Num cfg1 = Num cfg + len gids ∧
       (∀ g, g ∈ gids → IsMember cfg1 g = true) ∧
       ∃ ts2 cfg2, leaveGroups visit gids ts1 = Some (ts2, true) ∧ sh_inv ts2 cfg2 ∧
         ts_groups ts2 = ts_groups ts ∧ Groups cfg2 = Groups cfg ∧
         Num cfg2 = Num cfg + 2 * len gids).
Proof using All.
  intros Hi Hnd Hnew.
  destruct (joinGroups_spec gids ts cfg Hi Hnd Hnew) as (ts1 & c1 & b & Hj & Hi1 & Hb & Hres).
  exists ts1, c1, b. split; [done|]. split; [done|]. split; [apply good_check, Hi1|]. split; [done|].
  intros Hbt. destruct (Hres Hbt) as [Hgr Hnum]. split; [done|]. split; [done|].
  destruct (leaveGroups_spec gids ts1 c1 Hi1 Hnd) as (ts2 & c2 & Hl & Hi2 & Hgr2 & Hnum2); [rewrite Hgr; set_solver|].
  assert (ts_groups ts2 = ts_groups ts) as Hback.
  { rewrite Hgr2, Hgr. apply set_eq. intros g. specialize (Hnew g). set_solver. }
  split.
  - intros g Hg. apply IsMember_spec, good_member; [apply Hi1|..].
    + apply elem_of_dom. rewrite (si_groups _ _ Hi1), Hgr. set_solver.
    + rewrite (si_size _ _ Hi1), Hgr, size_union, size_list_to_set by (try done; set_solver).
      apply Hb in Hbt as [->|?]; [by apply not_elem_of_nil in Hg|unfold len in *; lia].
  - exists ts2, c2. split; [done|]. split; [done|]. split; [done|]. split; [by eapply si_groups_same|lia].
Qed.

(** The service starts with one group that has every shard. *)
Lemma setup_good sck n :
  Query sck = None →
  ∃ ts' cfg, setupKVService (MkTest sck n ∅) = Some (ts', Gid1) ∧ sh_inv ts' cfg ∧
    ts_groups ts' = {[Gid1]} ∧ Shards cfg = replicate (Z.to_nat NShards) Gid1.
Proof using All.
  intros Hq. unfold setupKVService.
  set (c := MkShardConfig0 1 (replicate (Z.to_nat NShards) Gid1) {[Gid1 := SrvNames Gid1]}).
  assert (JoinBalance [(Gid1, SrvNames Gid1)] MakeShardConfig = Some (Done true c)) as ->
    by (vm_compute; reflexivity).
  eexists _, c. split; [done|]. split; [|split; [cbn; set_solver|done]]. split.
  - cbn. by apply query_init.
  - split; [done|]. right. split; [|vm_compute; reflexivity]. intros g Hg.
    apply (elem_of_replicate (Z.to_nat NShards)) in Hg as [-> _]. exists (SrvNames Gid1).
    by apply lookup_singleton_Some.
  - cbn. set_solver.
  - cbn. intros g srvs [<- <-]%lookup_singleton_Some. done.
  - cbn. unfold Gid1. set_solver.
Qed.
End Test.

(** The stub answers nil, and a test that joins a group dereferences it. *)
Lemma stub_join_panics visit gid srvs ts :
  join (S := ShardCtrlerStub) visit gid srvs ts = None.
Proof. done. Qed.

(** [newGid] hands out groups that were never used. *)
Lemma groups_fresh {S : Type} n (ts : Test S) :
  0 <= ngid ts → ngid ts + Z.of_nat n < 2 ^ 63 →
  groups n ts = (seqZ (ngid ts) (Z.of_nat n), MkTest (ts_sck ts) (ngid ts + Z.of_nat n) (ts_groups ts)).
Proof.
  revert ts. induction n as [|n IH]; intros [sck g gs] H0 Hn; cbn [ngid ts_sck ts_groups] in *; cbn [groups].
  - by rewrite Z.add_0_r.
  - unfold newGid. cbn [ngid ts_sck ts_groups].
    assert (i64 (g + 1) = g + 1) as -> by (unfold i64; rewrite Z.mod_small; lia).
    rewrite IH by (cbn; lia). cbn [ngid ts_sck ts_groups]. rewrite (seqZ_cons g (Z.of_nat (Datatypes.S n))) by lia.
    rewrite Nat2Z.inj_succ, Z.pred_succ, <- Z.add_succ_comm. done.
Qed.

(** ** A controller *)

(** It keeps the configuration in memory. *)
#[local] Instance memory_controller : ShardCtrler (option ShardConfig) := {
  InitConfig c _ := Some c;
  ChangeConfigTo c s := match s with Some _ => Some c | None => None end;
  Query s := s;
}.

#[local] Instance memory_controller_laws : ShardCtrlerLaws (option ShardConfig).
Proof. split; [done|]. intros c c0 s Hq _. cbn in *. by rewrite Hq. Qed.

Definition started : Test (option ShardConfig) := Eval vm_compute in
  match setupKVService (MkTest None (Gid1 + 1) ∅) with Some (ts, _) => ts | None => MkTest None 0 ∅ end.

Definition started_config : ShardConfig := Eval vm_compute in default MakeShardConfig (ts_sck started).

Lemma started_inv : sh_inv started started_config.
Proof.
  destruct (setup_good (S := option ShardConfig) (ShardCtrler0 := memory_controller) map_to_list (λ m, reflexivity _) None (Gid1 + 1) ltac:(reflexivity)) as (ts & cfg & E & Hi & _).
  vm_compute in E. injection E as <-. pose proof (si_query _ _ Hi) as Hq. injection Hq as <-. exact Hi.
Qed.

Lemma groups_join_leave_witness :
  groups 2 started = ([2; 3], MkTest (ts_sck started) 4 (ts_groups started)) ∧
  ∃ ts1 cfg1, joinGroups map_to_list [2; 3] started = Some (ts1, true) ∧ Num cfg1 = 3 ∧
    IsMember cfg1 3 = true ∧
    ∃ ts2 cfg2, leaveGroups map_to_list [2; 3] ts1 = Some (ts2, true) ∧ Groups cfg2 = Groups started_config.
Proof.
  split; [reflexivity|].
  destruct (groups_join_leave map_to_list (λ m, reflexivity _) [2; 3] started started_config started_inv)
    as (ts1 & c1 & b & Hj & _ & _ & Hb & Hres).
  - apply (bool_decide_unpack _). vm_compute. exact I.
  - intros g Hg. apply elem_of_cons in Hg as [->|Hg%list_elem_of_singleton]; [|subst];
      (split; [|lia]); apply (bool_decide_unpack _); vm_compute; exact I.
  - assert (b = true) as -> by (apply Hb; right; vm_compute; discriminate).
    destruct (Hres eq_refl) as (_ & Hn & Hm & ts2 & c2 & Hl & _ & _ & Hg & _).
    exists ts1, c1. split; [exact Hj|]. split; [rewrite Hn; reflexivity|].
    split; [apply Hm; by right; left|]. exists ts2, c2. split; [exact Hl|exact Hg].
Defined.
